(* ===== verification/_CoqProject ===== *)
-Q . S2P
Prelude.v
Prog.v
Interleave.v
Errors.v
Message.v
Codec.v
Wal.v
WalTheorems.v
TestSupport.v
PersistentWal.v
RedisWal.v
RedisWalTheorems.v
RedisFleet.v
RedisFleetTheorems.v
Metrics.v
Console.v
Tracing.v
Registry.v
Runtime.v
Topic.v
Worker.v
WorkerTheorems.v
WorkerTypes.v
World.v
Delivery.v
WorkerShutdown.v
Queues.v
QueueTheorems.v
Factories.v
RedisQueue.v
RedisQueueTheorems.v
RedisClaims.v
RedisCluster.v
RedisClusterTheorems.v
Pipeline.v
Router.v
RouterTheorems.v
RouterRaces.v
Dispatch.v
DispatchTheorems.v
Node.v
NodeTheorems.v
SystemHandlers.v
SystemTheorems.v
Shutdown.v
ShutdownTheorems.v
Startup.v
StartupTheorems.v
Grpc.v
GrpcTheorems.v
Config.v
Bootstrap.v
BootstrapTheorems.v
Lifecycle.v
NodeWal.v
NodeWalTheorems.v
Macros.v
Cli.v
Locks.v
RouterLocks.v
