(* ===== verification/Prelude.v ===== *)
(** * event_base: a verification library

    event_base is a message system written in Rust.  Programs publish
    messages ([EMessage]) on topics; the queues of a backend carry them;
    workers claim them, run a pipeline of middleware and a handler, and
    settle them according to the acknowledgement: complete, requeue, retry,
    dead-letter.  A node is a host or a worker node.  Hosts keep a
    write-ahead log (WAL), a registry of the live workers and a control
    plane on topics whose names begin with [_system.].  This library
    translates the program into Rocq definitions and proves what makes its
    parts correct; paths below are relative to the repository.

    ** How the code is modelled

    Pure code is a function; code on data behind a lock is a function from
    the state to the result and the new state; asynchronous code that works
    on the shared objects of a node is a program of the free monad of [Prog]
    over the effects of [Runtime] ([Eff]).  An execution of such a program
    is its list of effects with the answers they got, and its outcome:
    [Done a], or [Panicked why].  [wp p Q] says that every execution of [p],
    whatever the effects answer, satisfies [Q]; [run] executes a program
    against a handler with a state; [World] is a small concrete node that
    answers every effect and is used to exhibit executions.  Failures are
    values ([Res], the [Result<_, CoreError>] of the code).  Integers are [Z]
    with the wrap-around of their width written out where they can overflow;
    times and durations are nanoseconds.  The clock, UUIDs and the iteration
    order of hash maps ([HashOrder]) are arguments or effects.

    What is not in the repository is an interface with its documented laws:
    [Bincode] and [Json] (serialisation, round trip), [Channel] (flume,
    tokio and crossfire channels), [RingBuf], the file system of
    [PersistentWal], the Redis server of [RedisWal] and [RedisQueue], the
    header values of [Grpc], the broadcast channel of [Lifecycle], the
    token stream of [Macros].  Each has a concrete lawful instance against
    which the statements are run.

    Endless loops are given for a number of rounds.  Waiting loops take fuel,
    and [None] says that it was used up; [worker_shutdown_terminates] and
    [force_removes_everyone] say how much is enough (the number of check
    intervals that fit into the timeout plus one; one look for a zero
    timeout).  [next_run_fuel] recurses on the list of middlewares with its
    length as fuel, which [pipeline_run_is_fold] shows to be enough;
    [args_parser_terminates] does the same for the attribute's arguments.

    ** Files

    - [Prelude]: results, machine integers, durations, hash-map order, list
      lemmas.  [Prog]: the monad, [wp], footprints, execution.
      [Interleave]: several programs as tasks over one shared state, their
      schedules, and invariants of what a task has done so far.
    - [Errors], [Message]: [event_base_core/src/error/], [message.rs],
      [constant.rs], [dead_letter.rs], [handler.rs], records of other modules.
    - [Codec]: [wal/codec.rs] and the serialisation interfaces.
    - [Wal], [WalTheorems]: the trait [Wal] of [wal/wal.rs] as a class with its
      contract against an abstract log, and [event_base_wal/src/memory.rs],
      which refines it.  [PersistentWal]: [event_base_wal/src/persistent.rs]
      over a file system; flushing is atomic also under a process that dies
      in any of its commands ([Doomed]), and can be read back.
      [RedisWal], [RedisWalTheorems]: [event_base_wal/src/redis.rs] over the
      commands of a Redis server; it refines the same log with delivery
      times cut to milliseconds.  [RedisFleet], [RedisFleetTheorems]: its
      operations as programs, command by command, on many nodes with
      crashes, over one server.  [TestSupport]: the doubles of
      [event_base_test/src/support.rs], one of which implements the log.
    - [Metrics]: [audit.rs], [metrics/].  [Tracing]: [trace.rs],
      [trace_layer.rs].
    - [Registry]: [worker_registry.rs], proved against the WAL contract.
    - [Runtime]: the effects of a node.  [Topic]: [topic.rs].
    - [Worker], [WorkerTheorems], [Delivery], [WorkerShutdown]: [worker.rs]
      and [wal/sync.rs].  [process_msg] refines the specification [settle];
      from it follow the statements on whole deliveries (repetition, retries
      at once or after a delay, dead letters).
    - [Queues], [QueueTheorems]: the in-memory backends
      ([event_base_queue/src/{flume,mpmc,crossfire}.rs]) and the local inbox,
      against one interface; no message is lost or doubled.  [Factories]:
      [queues/{factory,consumer_factory}.rs] and the in-memory factories over
      a store of channels: who shares a channel with whom.
      [RedisQueue], [RedisQueueTheorems]: [redis_streams.rs].
      [RedisClaims]: what a claim makes of any entries, and runs of two
      nodes on one topic, which share its messages or are each given all.
      [RedisCluster], [RedisClusterTheorems]: its consumers on many nodes,
      interleaved command by command, with crashes.
    - [Pipeline]: [middleware.rs], for any effects.
    - [Router], [RouterTheorems]: the tables of [queues/consumer_router.rs] and
      their invariant.  [Dispatch], [DispatchTheorems]: its main loop and the
      dispatchers of the topics: claims, relays, the round robin.  [Locks]:
      who waits for the router's lock.
      [RouterRaces]: the calls interleaved, a critical section at a time;
      [RouterLocks]: the callers as their operations on the locks, the guard
      of the router each takes (read or write) and those inside, with the
      endless loops that keep a guard.
    - [Node], [NodeTheorems]: one topic of a node, with its queue, dispatcher,
      inboxes and workers, as interleaved tasks.
    - [SystemHandlers], [SystemTheorems]: [system_handlers/].  [Shutdown],
      [ShutdownTheorems]: [shutdown/methods.rs] and its handlers.
    - [Startup], [StartupTheorems]: [system_handlers/system.rs],
      [registry.rs], [event_base_macro_func/src/start_system.rs].
      [Macros]: [event_base_macro_attr/src/handler.rs], the parser of the
      [#[handler]] attribute and what the generated registration does.
    - [Config]: [src/config.rs] over TOML values.  [Bootstrap],
      [BootstrapTheorems]: [src/bootstrap.rs] up to the running node;
      [Lifecycle]: [Running] and the shutdown channel, put together with
      the shutdown strategies.  [NodeWal], [NodeWalTheorems]: the two WAL
      handles that [Bootstrap::start] opens on one log, and everything a
      node runs on them as interleaved tasks.
    - [Grpc], [GrpcTheorems]: [event_base_grpc/src/{lib,server}.rs].  [Cli]:
      the commands of [ebctl/src/main.rs] over the calls of [Grpc].
    - [WorkerTypes]: the well-typed messages (counters in the range of their
      machine type) and that a worker makes no others.  [Console]: the line
      of [event_base_audit/src/console.rs].

    ** What is shown

    Messages: a processed message is either reported complete or goes on
    exactly once; the in-memory queues conserve messages; a Redis stream
    without a maximum length that many nodes claim from loses none,
    whichever commands fail and nodes crash; claims are settled exactly
    once; retries, immediate and delayed, and relays, by workers, dispatchers
    and the main loop, are bounded; broadcasts and delayed messages go where
    they should.  A topic that runs: whatever the
    interleaving, every accepted message is once in the queue, claimed, in an
    inbox, received or gone with an inbox, and a round of a worker does what
    [settle] says.  Log: the in-memory and the Redis
    implementation refine the abstract log (the in-memory one but for an update
    of an unknown id, which it answers with an entry of its own), a write
    that fails leaves it as before or as after, flushing is atomic, a report
    of a message the log knows reaches it;
    a delayed message is handed over at most once by a node, and by a fleet
    of nodes on one Redis server as long as no id is scheduled twice, whatever
    commands are lost and nodes crash; on a node with the file-backed log
    only states of messages it knows reach the file, and a start reads back
    what was there.  Tables: the router's tables agree in
    every reachable state, also when calls interleave between their critical
    sections; and its callers finish, but for those that ask for the guard
    one of the endless loops keeps.
    Control plane: heartbeats, discovery and the
    sweep keep exactly the live workers; shutdown strategies end and remove
    the workers they should; only the two-stage one lets [main] end; a
    started node serves and runs what its role asks for; the token check of
    the gRPC server is exact and its calls do what they say.  Edges: a
    configuration is read back as written and unknown keys are errors; the
    attribute's arguments are read as the reference says.  Some theorems
    state behaviour that is probably not intended; their comments say so.

    ** Not modelled

    Logging and the filter set up for it; the syntax of Rust tokens, TOML and
    command lines ([syn], [toml], [clap]); TLS, reflection and health
    services of the gRPC server and its transport ([tonic]); date formatting;
    the test programs, but for the doubles they share; the fairness of the
    executor; a loss of power while the log is flushed.  In [Node] the topic has one dispatcher, its tables change
    without a call behind the change ([RouterRaces] has the calls), a task is
    aborted at an effect and not inside one, and the main loop, which with
    the crossfire factory finds nothing to do
    ([crossfire_main_consumer_starves]), is left out.

    ** What could come next

    The dispatchers of [Node] on the stream of [RedisCluster]; two handles of
    a file-backed log that flush at the same time, write by write ([NodeWal]
    has a flush as one step). *)
From stdpp Require Export prelude gmap strings list fin_maps sorting.
From Stdlib Require Export ZArith Lia.

(** ** Scopes and notations *)

Declare Scope rust_scope.
Delimit Scope rust_scope with rust.
Open Scope rust_scope.
Open Scope Z_scope.

Create HintDb eb.

(** ** [Result] of the Rust standard library *)

Inductive result (A E : Type) : Type :=
| Ok (a : A)
| Err (e : E).
Arguments Ok {A E} a.
Arguments Err {A E} e.

Definition is_ok {A E} (r : result A E) : bool :=
  match r with Ok _ => true | Err _ => false end.

Definition map_err {A E F} (f : E → F) (r : result A E) : result A F :=
  match r with Ok a => Ok a | Err e => Err (f e) end.

Definition ok_or {A E} (o : option A) (e : E) : result A E :=
  match o with Some a => Ok a | None => Err e end.

Definition result_bind {A B E} (r : result A E) (k : A → result B E) : result B E :=
  match r with Ok a => k a | Err e => Err e end.

(** ** Machine integers

    A [u32], [u64] or [usize] is a [Z] in range.  [x += 1] is written with
    its wrap-around, the behaviour of the release profile; the debug profile
    panics instead, and the theorems say when neither can happen. *)

Definition u32_modulus : Z := 2 ^ 32.
Definition u64_modulus : Z := 2 ^ 64.
Definition is_u32 (z : Z) : Prop := 0 ≤ z < u32_modulus.
Definition is_u64 (z : Z) : Prop := 0 ≤ z < u64_modulus.
Definition u32_incr (z : Z) : Z := (z + 1) mod u32_modulus.
Definition u64_incr (z : Z) : Z := (z + 1) mod u64_modulus.
Definition u64_add (a b : Z) : Z := (a + b) mod u64_modulus.

Lemma u32_incr_small z : 0 ≤ z → z + 1 < u32_modulus → u32_incr z = z + 1.
Proof. intros. unfold u32_incr. apply Z.mod_small. lia. Qed.

Lemma u64_incr_small z : 0 ≤ z → z + 1 < u64_modulus → u64_incr z = z + 1.
Proof. intros. unfold u64_incr. apply Z.mod_small. lia. Qed.

Lemma u32_incr_range z : is_u32 (u32_incr z).
Proof. unfold is_u32, u32_incr. apply Z.mod_pos_bound. unfold u32_modulus. lia. Qed.

#[export] Hint Resolve u32_incr_range : eb.

(** ** Time of the Rust standard library

    A [Duration] is a number of nanoseconds (a [u64] of seconds and the
    sub-second part); a [SystemTime] is a signed number of nanoseconds since
    the Unix epoch (an [i64] of seconds on Unix). *)

Definition nanos_per_sec : Z := 1000000000.
Definition nanos_per_milli : Z := 1000000.
Definition Duration : Type := Z.
Definition SystemTime : Type := Z.
Definition duration_max : Duration := 2 ^ 64 * nanos_per_sec - 1.
Definition from_secs (s : Z) : Duration := s * nanos_per_sec.
Definition from_millis (ms : Z) : Duration := ms * nanos_per_milli.
Definition as_millis (d : Duration) : Z := d / nanos_per_milli.
Definition as_secs (d : Duration) : Z := d / nanos_per_sec.
Definition system_time_limit : Z := 2 ^ 63 * nanos_per_sec.

(** [self.duration_since(earlier)]: an error when [earlier] is later. *)
Definition duration_since (self earlier : SystemTime) : result Duration unit :=
  if decide (earlier ≤ self) then Ok (self - earlier) else Err tt.

(** [self.checked_add(d)]: [None] on overflow. *)
Definition checked_add (self : SystemTime) (d : Duration) : option SystemTime :=
  if decide (self + d < system_time_limit) then Some (self + d) else None.

Definition unwrap_or {A E} (r : result A E) (d : A) : A :=
  match r with Ok a => a | Err _ => d end.

(** ** Strings of the Rust standard library *)

Definition starts_with (p s : string) : bool := String.prefix p s.

Definition is_empty_str (s : string) : bool :=
  match s with EmptyString => true | _ => false end.

Definition bytes : Type := list Z.

(** ** Iteration over a [HashMap]

    The iteration order of a Rust [HashMap] is unspecified: it is a
    parameter, of which only the documented fact is known that every entry
    is visited exactly once. *)

Class HashOrder : Type := {
  hash_iter : ∀ {V : Type}, gmap string V → list (string * V);
  hash_iter_perm : ∀ {V : Type} (m : gmap string V), hash_iter m ≡ₚ map_to_list m
}.

Definition hash_values `{HashOrder} {V} (m : gmap string V) : list V := (hash_iter m).*2.
Definition hash_keys `{HashOrder} {V} (m : gmap string V) : list string := (hash_iter m).*1.

(** The order of [map_to_list], used by the witnesses. *)
Definition list_order : HashOrder :=
  {| hash_iter := fun V m => map_to_list m;
     hash_iter_perm := fun V m => reflexivity _ |}.

Section hash_order.
Context `{HashOrder} {V : Type}.
Implicit Types m : gmap string V.

Lemma elem_of_hash_iter m k v : (k, v) ∈ hash_iter m ↔ m !! k = Some v.
Proof. rewrite hash_iter_perm. apply elem_of_map_to_list. Qed.

Lemma elem_of_hash_values m v : v ∈ hash_values m ↔ ∃ k, m !! k = Some v.
Proof.
  unfold hash_values. rewrite list_elem_of_fmap. split.
  - intros [[k v'] [-> Hin]]. exists k. by apply elem_of_hash_iter.
  - intros [k Hk]. exists (k, v). by rewrite elem_of_hash_iter.
Qed.

Lemma elem_of_hash_keys m k : k ∈ hash_keys m ↔ is_Some (m !! k).
Proof.
  unfold hash_keys. rewrite list_elem_of_fmap. split.
  - intros [[k' v] [-> Hin]]. exists v. by apply elem_of_hash_iter.
  - intros [v Hv]. exists (k, v). by rewrite elem_of_hash_iter.
Qed.

Lemma hash_keys_NoDup m : NoDup (hash_keys m).
Proof. unfold hash_keys. rewrite hash_iter_perm. apply NoDup_fst_map_to_list. Qed.

Lemma length_hash_values m : length (hash_values m) = size m.
Proof.
  unfold hash_values. rewrite length_fmap, hash_iter_perm.
  apply length_map_to_list.
Qed.
End hash_order.

#[export] Hint Resolve hash_keys_NoDup : eb.

(** ** Generic facts on maps and lists *)

Lemma map_to_list_filter {V} (P : string * V → Prop) `{∀ x, Decision (P x)}
    (m : gmap string V) :
  map_to_list (filter P m) ≡ₚ filter P (map_to_list m).
Proof.
  rewrite (map_filter_alt P m). apply map_to_list_to_map.
  apply (sublist_NoDup _ (map_to_list m).*1); [apply NoDup_fst_map_to_list|].
  apply fmap_sublist, sublist_filter.
Qed.

Lemma filter_none {A} (P : A → Prop) `{∀ x, Decision (P x)} (l : list A) :
  (∀ x, x ∈ l → ¬ P x) → filter P l = [].
Proof.
  induction l as [|x l IH]; intros Hl; [done|].
  rewrite filter_cons_False by (apply Hl; set_solver). apply IH. set_solver.
Qed.

Lemma filter_all {A} (P : A → Prop) `{∀ x, Decision (P x)} (l : list A) :
  (∀ x, x ∈ l → P x) → filter P l = l.
Proof.
  induction l as [|x l IH]; intros Hl; [done|].
  rewrite filter_cons_True by (apply Hl; set_solver). f_equal. apply IH. set_solver.
Qed.
