(* ===== verification/Prog.v ===== *)
(** * Effectful programs

    The asynchronous functions of the program touch state that other tasks
    share (queues, registries, clocks) at each of their [await] points.  A
    function of that kind is modelled as a [prog]: a finite tree whose nodes
    are the effects the code performs, in its order, and whose branches are
    the answers the rest of the system can give.  Nothing is assumed of the
    answers, so a statement [wp p Φ] is about every interleaving with every
    other task.  [run] executes a program against a concrete handler; a [wp]
    statement transfers to every such run ([wp_run]). *)
From S2P Require Import Prelude.

Section prog.
Context {E : Type → Type}.

Inductive prog (A : Type) : Type :=
| Ret (a : A)
| Panic (why : string)
| Vis {X : Type} (e : E X) (k : X → prog A).
Arguments Ret {A} a.
Arguments Panic {A} why.
Arguments Vis {A X} e k.

Fixpoint bind {A B} (p : prog A) (f : A → prog B) : prog B :=
  match p with
  | Ret a => f a
  | Panic w => Panic w
  | Vis e k => Vis e (λ x, bind (k x) f)
  end.

Definition call {X} (e : E X) : prog X := Vis e Ret.

(** The [?] operator on a computation that returns a [Result]. *)
Definition bind_ok {A B Er} (p : prog (result A Er)) (f : A → prog (result B Er))
    : prog (result B Er) :=
  bind p (λ r, match r with Ok a => f a | Err e => Ret (Err e) end).

(** [OnceLock::get().expect(..)]. *)
Definition expect {A} (why : string) (o : option A) : prog A :=
  match o with Some a => Ret a | None => Panic why end.

(** An event of an execution: an effect with the answer it got. *)
Inductive ev : Type :=
| Ev {X : Type} (e : E X) (x : X).

Inductive outcome (A : Type) : Type :=
| Done (a : A)
| Panicked (why : string).
Arguments Done {A} a.
Arguments Panicked {A} why.

(** [wp p Φ]: in every execution of [p], the trace of its events and its
    outcome satisfy [Φ]. *)
Fixpoint wp {A} (p : prog A) (Φ : list ev → outcome A → Prop) : Prop :=
  match p with
  | Ret a => Φ [] (Done a)
  | Panic w => Φ [] (Panicked w)
  | Vis e k => ∀ x, wp (k x) (λ t o, Φ (Ev e x :: t) o)
  end.

Lemma wp_mono {A} (p : prog A) (Φ Ψ : list ev → outcome A → Prop) :
  (∀ t o, Φ t o → Ψ t o) → wp p Φ → wp p Ψ.
Proof.
  revert Φ Ψ. induction p as [a|w|X e k IH]; simpl; intros Φ Ψ HΦ H; [auto..|].
  intros x. eapply IH; [|apply H]. simpl. auto.
Qed.

Lemma wp_trivial {A} (p : prog A) (Φ : list ev → outcome A → Prop) :
  (∀ t o, Φ t o) → wp p Φ.
Proof.
  revert Φ. induction p as [a|w|X e k IH]; simpl; intros Φ HΦ; [auto..|].
  intros x. by apply IH.
Qed.

Lemma wp_and {A} (p : prog A) (Φ Ψ : list ev → outcome A → Prop) :
  wp p Φ → wp p Ψ → wp p (λ t o, Φ t o ∧ Ψ t o).
Proof.
  revert Φ Ψ. induction p as [a|w|X e k IH]; simpl; intros Φ Ψ H1 H2; [auto..|].
  intros x. apply IH; auto.
Qed.

Definition wp_after {A B} (k : A → prog B) (Φ : list ev → outcome B → Prop)
    (t : list ev) (o : outcome A) : Prop :=
  match o with
  | Done a => wp (k a) (λ t' o', Φ (t ++ t') o')
  | Panicked w => Φ t (Panicked w)
  end.

Lemma wp_bind {A B} (p : prog A) (k : A → prog B) (Φ : list ev → outcome B → Prop) :
  wp p (wp_after k Φ) → wp (bind p k) Φ.
Proof.
  revert Φ. induction p as [a|w|X e q IH]; simpl; intros Φ H; [done..|].
  intros x. apply IH. eapply wp_mono, H. intros t [a|w]; simpl; auto.
Qed.

(** Sequencing through a postcondition of the first part. *)
Lemma wp_seq {A B} (p : prog A) (k : A → prog B)
    (Ψ : list ev → outcome A → Prop) (Φ : list ev → outcome B → Prop) :
  wp p Ψ →
  (∀ t a, Ψ t (Done a) → wp (k a) (λ t' o, Φ (t ++ t') o)) →
  (∀ t w, Ψ t (Panicked w) → Φ t (Panicked w)) →
  wp (bind p k) Φ.
Proof.
  intros Hp Hk Hw. apply wp_bind. eapply wp_mono, Hp.
  intros t [a|w]; simpl; auto.
Qed.

Lemma wp_seq_ok {A B Er} (p : prog (result A Er)) (k : A → prog (result B Er))
    (Ψ : list ev → outcome (result A Er) → Prop)
    (Φ : list ev → outcome (result B Er) → Prop) :
  wp p Ψ →
  (∀ t a, Ψ t (Done (Ok a)) → wp (k a) (λ t' o, Φ (t ++ t') o)) →
  (∀ t e, Ψ t (Done (Err e)) → Φ t (Done (Err e))) →
  (∀ t w, Ψ t (Panicked w) → Φ t (Panicked w)) →
  wp (bind_ok p k) Φ.
Proof.
  intros Hp Hk He Hw. eapply wp_seq; [exact Hp| |exact Hw].
  intros t [a|e] Ht; simpl; auto. rewrite app_nil_r. auto.
Qed.

(** The possible executions of a program; [wp] quantifies over them. *)
Fixpoint exec {A} (p : prog A) (t : list ev) (o : outcome A) {struct p} : Prop :=
  match p with
  | Ret a => t = [] ∧ o = Done a
  | Panic w => t = [] ∧ o = Panicked w
  | Vis e k => ∃ x t', t = Ev e x :: t' ∧ exec (k x) t' o
  end.

Lemma wp_exec {A} (p : prog A) (Φ : list ev → outcome A → Prop) :
  wp p Φ ↔ ∀ t o, exec p t o → Φ t o.
Proof.
  revert Φ. induction p as [a|w|X e k IH]; simpl; intros Φ; [naive_solver..|].
  split.
  - intros Hk t o (x & t' & -> & He). exact (proj1 (IH x _) (Hk x) t' o He).
  - intros Hall x. apply IH. intros t o He. eauto.
Qed.

(** The footprint of a program: every effect it can perform satisfies [P]. *)
Fixpoint only (P : ∀ X, E X → Prop) {A} (p : prog A) : Prop :=
  match p with
  | Ret _ | Panic _ => True
  | Vis e k => P _ e ∧ ∀ x, only P (k x)
  end.

Lemma only_mono (P Q : ∀ X, E X → Prop) {A} (p : prog A) :
  (∀ X e, P X e → Q X e) → only P p → only Q p.
Proof.
  intros HPQ. induction p as [a|w|X e k IH]; simpl; [done..|].
  intros [He Hk]. auto.
Qed.

Lemma only_bind (P : ∀ X, E X → Prop) {A B} (p : prog A) (k : A → prog B) :
  only P p → (∀ a, only P (k a)) → only P (bind p k).
Proof.
  intros Hp Hk. induction p as [a|w|X e q IH]; simpl in *; [auto..|].
  destruct Hp as [He Hq]. auto.
Qed.

Lemma only_bind_ok (P : ∀ X, E X → Prop) {A B Er} (p : prog (result A Er))
    (k : A → prog (result B Er)) :
  only P p → (∀ a, only P (k a)) → only P (bind_ok p k).
Proof. intros Hp Hk. apply only_bind; [done|]. by intros [a|e]; simpl. Qed.

Lemma only_expect (P : ∀ X, E X → Prop) {A} why (o : option A) :
  only P (expect why o).
Proof. by destruct o. Qed.

(** Nothing is observed of a program whose effects are all invisible. *)
Lemma only_obs (P : ∀ X, E X → Prop) {A B} (f : ev → list B) (p : prog A) :
  (∀ X (e : E X) x, P X e → f (Ev e x) = []) →
  only P p → wp p (λ t _, t ≫= f = []).
Proof.
  intros Hf. induction p as [a|w|X e k IH]; simpl; [done..|].
  intros [He Hk] x. eapply wp_mono; [|by apply IH]. simpl. intros t o Ht.
  by rewrite Hf.
Qed.

(** Execution against a handler with a state of its own. *)
Section run.
Context {S : Type} (h : ∀ X, E X → S → X * S).

Fixpoint run {A} (p : prog A) (s : S) : list ev * outcome A * S :=
  match p with
  | Ret a => ([], Done a, s)
  | Panic w => ([], Panicked w, s)
  | Vis e k =>
      let '(x, s1) := h _ e s in
      let '(t, o, s2) := run (k x) s1 in
      (Ev e x :: t, o, s2)
  end.

Definition run_trace {A} (p : prog A) (s : S) : list ev := (run p s).1.1.
Definition run_outcome {A} (p : prog A) (s : S) : outcome A := (run p s).1.2.
Definition run_state {A} (p : prog A) (s : S) : S := (run p s).2.

Lemma wp_run {A} (p : prog A) (Φ : list ev → outcome A → Prop) (s : S) :
  wp p Φ → Φ (run_trace p s) (run_outcome p s).
Proof.
  unfold run_trace, run_outcome. revert Φ s.
  induction p as [a|w|X e k IH]; simpl; intros Φ s H; [done..|].
  destruct (h X e s) as [x s1] eqn:Eh.
  specialize (IH x _ s1 (H x)). by destruct (run (k x) s1) as [[t o] s2].
Qed.

Lemma run_outcome_vis {A X} (e : E X) (k : X → prog A) (s : S) :
  run_outcome (Vis e k) s = run_outcome (k (h X e s).1) (h X e s).2.
Proof.
  unfold run_outcome. simpl. destruct (h X e s) as [x s1]. simpl.
  by destruct (run (k x) s1) as [[t o] s2].
Qed.

Lemma run_state_vis {A X} (e : E X) (k : X → prog A) (s : S) :
  run_state (Vis e k) s = run_state (k (h X e s).1) (h X e s).2.
Proof.
  unfold run_state. simpl. destruct (h X e s) as [x s1]. simpl.
  by destruct (run (k x) s1) as [[t o] s2].
Qed.

Lemma run_outcome_bind {A B} (p : prog A) (k : A → prog B) (s : S) :
  run_outcome (bind p k) s =
  match run_outcome p s with
  | Done a => run_outcome (k a) (run_state p s)
  | Panicked w => Panicked w
  end.
Proof.
  revert s. induction p as [a|w|X e q IH]; intros s; [done..|].
  cbn [bind]. rewrite !run_outcome_vis, run_state_vis. apply IH.
Qed.

Lemma run_state_bind {A B} (p : prog A) (k : A → prog B) (s : S) :
  run_state (bind p k) s =
  match run_outcome p s with
  | Done a => run_state (k a) (run_state p s)
  | Panicked _ => run_state p s
  end.
Proof.
  revert s. induction p as [a|w|X e q IH]; intros s; [done..|].
  cbn [bind]. rewrite !run_state_vis, run_outcome_vis. apply IH.
Qed.

Lemma exec_run {A} (p : prog A) (s : S) : exec p (run_trace p s) (run_outcome p s).
Proof.
  unfold run_trace, run_outcome. revert s.
  induction p as [a|w|X e k IH]; simpl; intros s; [done..|].
  destruct (h X e s) as [x s1]. specialize (IH x s1).
  destruct (run (k x) s1) as [[t o] s2]. simpl in *. eauto.
Qed.

Lemma run_bind {A B} (p : prog A) (k : A → prog B) (s : S) :
  run (bind p k) s =
  match run_outcome p s with
  | Done a =>
      let '(t, o, s2) := run (k a) (run_state p s) in (run_trace p s ++ t, o, s2)
  | Panicked w => (run_trace p s, Panicked w, run_state p s)
  end.
Proof.
  unfold run_trace, run_outcome, run_state. revert s.
  induction p as [a|w|X e q IH]; simpl; intros s.
  - by destruct (run (k a) s) as [[t o] s2].
  - done.
  - destruct (h X e s) as [x s1]. rewrite IH.
    destruct (run (q x) s1) as [[t o] s2]; simpl.
    destruct o as [a|w]; [|done]. by destruct (run (k a) s2) as [[t' o'] s3].
Qed.
End run.
End prog.

Arguments prog E A : clear implicits.
Arguments ev E : clear implicits.
Arguments outcome A : clear implicits.
Arguments Ret {E A} a.
Arguments Panic {E A} why.
Arguments Vis {E A X} e k.
Arguments Done {A} a.
Arguments Panicked {A} why.

Notation "x <- c ;; k" := (bind c (λ x, k))
  (at level 100, c at next level, right associativity) : rust_scope.
Notation "c ;;; k" := (bind c (λ _, k))
  (at level 100, right associativity) : rust_scope.
Notation "x <-? c ;; k" := (bind_ok c (λ x, k))
  (at level 100, c at next level, right associativity) : rust_scope.
Notation "c ?;; k" := (bind_ok c (λ _, k))
  (at level 100, right associativity) : rust_scope.

(** A list of independent iterations: [for x in l { body }]. *)
Fixpoint for_each {E A} (l : list A) (body : A → prog E unit) : prog E unit :=
  match l with
  | [] => Ret tt
  | x :: l => body x ;;; for_each l body
  end.

(** The same when the body can leave the function with [?]. *)
Fixpoint try_for_each {E A Er} (l : list A) (body : A → prog E (result unit Er))
    : prog E (result unit Er) :=
  match l with
  | [] => Ret (Ok tt)
  | x :: l => body x ?;; try_for_each l body
  end.

Lemma only_for_each {E} (P : ∀ X, E X → Prop) {A} (l : list A) (body : A → prog E unit) :
  (∀ x, only P (body x)) → only P (for_each l body).
Proof. intros Hb. induction l; simpl; [done|]. by apply only_bind. Qed.

Lemma only_try_for_each {E} (P : ∀ X, E X → Prop) {A Er} (l : list A)
    (body : A → prog E (result unit Er)) :
  (∀ x, only P (body x)) → only P (try_for_each l body).
Proof. intros Hb. induction l; simpl; [done|]. by apply only_bind_ok. Qed.

(** A loop whose body never panics, by an invariant on what was handled and
    on the trace so far. *)
Lemma wp_for_each {E A} (I : list A → list (ev E) → Prop) (l : list A) (body : A → prog E unit) :
  I [] [] →
  (∀ x l' t, I l' t → wp (body x) (λ t' o, o = Done tt ∧ I (l' ++ [x]) (t ++ t'))) →
  wp (for_each l body) (λ t o, o = Done tt ∧ I l t).
Proof.
  intros Hnil Hstep. cut (∀ l l' t, I l' t →
    wp (for_each l body) (λ t' o, o = Done tt ∧ I (l' ++ l) (t ++ t'))); [naive_solver|].
  clear l Hnil. induction l as [|x l IH]; intros l' t HI; simpl.
  - by rewrite !app_nil_r.
  - eapply wp_seq; [by apply Hstep| |naive_solver].
    intros t1 [] [_ H1]. eapply wp_mono; [|by apply (IH (l' ++ [x]) (t ++ t1))].
    intros t2 o [-> H2]. split; [done|]. by rewrite <- !(assoc_L (++)) in *.
Qed.

(** Proves [only] goals by following the program. *)
Ltac only_solve :=
  repeat first
    [ done
    | apply only_expect
    | assumption
    | solve [eauto with eb_only]
    | apply only_bind_ok; [|intros ?]
    | apply only_bind; [|intros ?]
    | apply only_for_each; intros ?
    | apply only_try_for_each; intros ?
    | progress cbn [only call]; split; [done|intros ?]
    | case_decide
    | case_match
    | progress cbn [only] ].
Create HintDb eb_only.

(** Opens a [wp] goal down to the next effect or result. *)
Ltac wp_step := simpl; intros; simplify_eq/=.
