(* ===== verification/Interleave.v ===== *)
(** * Tasks that run interleaved

    [wp] speaks of one program whose effects may be answered in any way.
    Here several tasks run against one shared state: a step performs one
    effect of one task, so the tasks interleave at every [await] point.  A
    task runs rounds: [code r] is the program of round [r], and [next] says
    what the task may go on with when a round has returned.  Tasks are
    spawned and aborted, and other code changes the shared state ([env]).

    [wp_of_done] connects this with [wp]: whatever the interleaving, a
    finished round is an execution of its program.  [invariant_reachable] is
    the rule for invariants: a protocol each program follows on its own
    ([follows]), and an invariant of the shared state and the traces that an
    effect keeps if it is allowed by the protocol. *)
From stdpp Require Import relations.
From S2P Require Import Prelude Prog.

Section residual.
Context {E : Type → Type}.

(** What is left of a program after a trace. *)
Inductive steps_to {A} : prog E A → list (ev E) → prog E A → Prop :=
| steps_nil p : steps_to p [] p
| steps_snoc p t X (e : E X) k x : steps_to p t (Vis e k) → steps_to p (t ++ [Ev e x]) (k x).

Lemma exec_steps {A} (p : prog E A) t q t' o :
  steps_to p t q → exec q t' o → exec p (t ++ t') o.
Proof.
  intros Hs. revert t' o. induction Hs as [p|p t X e k x Hs IH]; intros t' o He; [done|].
  rewrite <- (assoc_L (++)). apply IH. simpl. eauto.
Qed.

Lemma exec_bind_inv {A B} (p : prog E A) (k : A → prog E B) t o :
  exec (bind p k) t o →
  (∃ t1 t2 a, t = t1 ++ t2 ∧ exec p t1 (Done a) ∧ exec (k a) t2 o) ∨
  (∃ why, exec p t (Panicked why) ∧ o = Panicked why).
Proof.
  revert t o. induction p as [a|w|X e q IH]; intros t o; simpl.
  - intros He. left. by exists [], t, a.
  - intros [-> ->]. right. by exists w.
  - intros (x & t' & -> & He). destruct (IH _ _ _ He) as [(t1 & t2 & a & -> & H1 & H2)|(why & H1 & ->)].
    + left. exists (Ev e x :: t1), t2, a. split; [done|]. split; [|done]. eauto.
    + right. exists why. split; [|done]. eauto.
Qed.
End residual.

Section interleave.
Context {E : Type → Type} {S R L : Type}.

(** What an effect does to the shared state, and its answer. *)
Context (eff : ∀ X, E X → S → X → S → Prop).
Context (code : R → prog E L).
Context (next : R → L → S → R → S → Prop).
Context (spawn : S → R → S → Prop).
Context (abortable : R → Prop).
Context (env : S → S → Prop).

(** The round a task is in, the events of the round, what is left of its
    program, and the rounds before. *)
Record Task : Type := {
  tk_round : R;
  tk_trace : list (ev E);
  tk_prog : prog E L;
  tk_done : list (R * list (ev E) * L)
}.

Record Conf : Type := { shared : S; tasks : list Task }.

Definition fresh_task (r : R) : Task :=
  {| tk_round := r; tk_trace := []; tk_prog := code r; tk_done := [] |}.
Definition after_effect {X} (e : E X) (x : X) (k : X → prog E L) (tk : Task) : Task :=
  {| tk_round := tk_round tk; tk_trace := tk_trace tk ++ [Ev e x]; tk_prog := k x;
     tk_done := tk_done tk |}.
Definition after_round (l : L) (r : R) (tk : Task) : Task :=
  {| tk_round := r; tk_trace := []; tk_prog := code r;
     tk_done := tk_done tk ++ [(tk_round tk, tk_trace tk, l)] |}.
Definition aborted (tk : Task) : Task :=
  {| tk_round := tk_round tk; tk_trace := tk_trace tk; tk_prog := Panic "aborted"%string;
     tk_done := tk_done tk |}.

Inductive conf_step : Conf → Conf → Prop :=
| StepEffect s ts i tk X (e : E X) k x s' :
    ts !! i = Some tk → tk_prog tk = Vis e k → eff X e s x s' →
    conf_step {| shared := s; tasks := ts |}
              {| shared := s'; tasks := <[i := after_effect e x k tk]> ts |}
| StepNext s ts i tk l r s' :
    ts !! i = Some tk → tk_prog tk = Ret l → next (tk_round tk) l s r s' →
    conf_step {| shared := s; tasks := ts |}
              {| shared := s'; tasks := <[i := after_round l r tk]> ts |}
| StepSpawn s ts r s' :
    spawn s r s' →
    conf_step {| shared := s; tasks := ts |} {| shared := s'; tasks := ts ++ [fresh_task r] |}
| StepAbort s ts i tk :
    ts !! i = Some tk → abortable (tk_round tk) →
    conf_step {| shared := s; tasks := ts |} {| shared := s; tasks := <[i := aborted tk]> ts |}
| StepEnv s ts s' :
    env s s' → conf_step {| shared := s; tasks := ts |} {| shared := s'; tasks := ts |}.

Definition reaches : Conf → Conf → Prop := rtc conf_step.

(** ** Rounds are executions *)

Definition task_runs (tk : Task) : Prop :=
  (∃ p, steps_to (code (tk_round tk)) (tk_trace tk) p ∧
        (tk_prog tk = p ∨ ∃ why, tk_prog tk = Panic why)) ∧
  Forall (λ d, exec (code d.1.1) d.1.2 (Done d.2)) (tk_done tk).

Lemma fresh_task_runs r : task_runs (fresh_task r).
Proof. split; [|constructor]. eexists. split; [constructor|by left]. Qed.

Lemma Forall_insert_task (P : Task → Prop) ts i tk :
  Forall P ts → P tk → Forall P (<[i := tk]> ts).
Proof. intros. by apply Forall_insert. Qed.

Lemma step_runs c c' :
  conf_step c c' → Forall task_runs (tasks c) → Forall task_runs (tasks c').
Proof.
  intros Hs Hr. destruct Hs as [s ts i tk X e k x s' Hi Hp _|s ts i tk l r s' Hi Hp _|
    s ts r s' _|s ts i tk Hi _|s ts s' _]; simpl in *; try (eapply Forall_lookup_1 in Hr as Htk; [|done]).
  - apply Forall_insert_task; [done|]. destruct Htk as [(p & Hst & Hpp) Hd]. split; [|done].
    exists (k x). split; [|by left]. simpl. apply steps_snoc.
    destruct Hpp as [Hpp|(why & Hpp)]; congruence.
  - apply Forall_insert_task; [done|]. destruct Htk as [(p & Hst & Hpp) Hd]. split.
    + eexists. split; [constructor|by left].
    + apply Forall_app. split; [done|]. apply Forall_singleton. simpl.
      rewrite <- (app_nil_r (tk_trace tk)). eapply exec_steps; [done|].
      destruct Hpp as [Hpp|(why & Hpp)]; [|congruence]. by rewrite <- Hpp, Hp.
  - apply Forall_app. split; [done|]. apply Forall_singleton, fresh_task_runs.
  - apply Forall_insert_task; [done|]. destruct Htk as [(p & Hst & Hpp) Hd]. split; [|done].
    exists p. split; [done|]. right. by eexists.
  - done.
Qed.

Lemma reaches_runs c c' :
  Forall task_runs (tasks c) → reaches c c' → Forall task_runs (tasks c').
Proof. intros Hr Hs. induction Hs; eauto using step_runs. Qed.

(** Adequacy of [wp] for interleaved tasks: what holds of all executions of a
    round's program holds of every finished round of every task. *)
Lemma wp_of_done c c' tk r t l (Φ : list (ev E) → outcome L → Prop) :
  Forall task_runs (tasks c) → reaches c c' → tk ∈ tasks c' → (r, t, l) ∈ tk_done tk →
  wp (code r) Φ → Φ t (Done l).
Proof.
  intros Hr Hs Htk Hd Hwp. pose proof (reaches_runs _ _ Hr Hs) as Hall.
  rewrite Forall_forall in Hall. destruct (Hall tk Htk) as [_ Hdone].
  rewrite Forall_forall in Hdone. eapply wp_exec; [exact Hwp|]. apply (Hdone _ Hd).
Qed.

(** A task that runs undisturbed against a handler the effects allow. *)
Definition after_run (t : list (ev E)) (o : outcome L) (tk : Task) : Task :=
  {| tk_round := tk_round tk; tk_trace := tk_trace tk ++ t;
     tk_prog := match o with Done l => Ret l | Panicked why => Panic why end;
     tk_done := tk_done tk |}.

Fixpoint run_allowed {A} (h : ∀ X, E X → S → X * S) (p : prog E A) (s : S) : Prop :=
  match p with
  | Vis e k => eff _ e s (h _ e s).1 (h _ e s).2 ∧ run_allowed h (k (h _ e s).1) (h _ e s).2
  | _ => True
  end.

Lemma run_reaches (h : ∀ X, E X → S → X * S) i tk s ts :
  ts !! i = Some tk → run_allowed h (tk_prog tk) s →
  reaches {| shared := s; tasks := ts |}
    {| shared := run_state h (tk_prog tk) s;
       tasks := <[i := after_run (run_trace h (tk_prog tk) s) (run_outcome h (tk_prog tk) s) tk]> ts |}.
Proof.
  destruct tk as [r t p ds]. simpl. revert s t ts.
  unfold run_state, run_trace, run_outcome.
  induction p as [a|why|X e k IH]; intros s t ts Hi Hrun; simpl.
  - rewrite list_insert_id; [reflexivity|]. unfold after_run. simpl. by rewrite app_nil_r.
  - rewrite list_insert_id; [reflexivity|]. unfold after_run. simpl. by rewrite app_nil_r.
  - destruct Hrun as [He Hk]. destruct (h X e s) as [x s1]. simpl in He, Hk.
    eapply rtc_l; [by eapply StepEffect|]. unfold after_effect. simpl.
    specialize (IH x s1 (t ++ [Ev e x])
      (<[i := {| tk_round := r; tk_trace := t ++ [Ev e x]; tk_prog := k x; tk_done := ds |}]> ts)).
    destruct (run h (k x) s1) as [[t' o] s2]. simpl in *.
    rewrite list_insert_insert_eq in IH. unfold after_run in *. simpl in *.
    rewrite <- (assoc_L (++)) in IH. apply IH; [|done].
    rewrite list_lookup_insert_eq; [done|]. by eapply lookup_lt_Some.
Qed.

(** The same for a task spawned for it, which then goes on with [r']. *)
Lemma spawn_run_reaches (h : ∀ X, E X → S → X * S) s ts r r' s1 l s2 :
  spawn s r s1 → run_allowed h (code r) s1 → run_outcome h (code r) s1 = Done l →
  next r l (run_state h (code r) s1) r' s2 →
  reaches {| shared := s; tasks := ts |}
    {| shared := s2;
       tasks := ts ++ [{| tk_round := r'; tk_trace := []; tk_prog := code r';
                          tk_done := [(r, run_trace h (code r) s1, l)] |}] |}.
Proof.
  intros Hsp Hrun Ho Hn. eapply rtc_l; [by eapply StepSpawn|]. etransitivity.
  - apply (run_reaches h (length ts) (fresh_task r)); [|done].
    by rewrite lookup_app_r, Nat.sub_diag by done.
  - rewrite insert_app_r_alt, Nat.sub_diag by done. simpl. rewrite Ho. apply rtc_once.
    pose proof (StepNext (run_state h (code r) s1)
      (ts ++ [after_run (run_trace h (code r) s1) (Done l) (fresh_task r)]) (length ts)
      (after_run (run_trace h (code r) s1) (Done l) (fresh_task r)) l r' s2) as Hs.
    rewrite insert_app_r_alt, Nat.sub_diag in Hs by done. apply Hs; [|done|done].
    by rewrite lookup_app_r, Nat.sub_diag by done.
Qed.

(** ** Schedules

    A run written down as the numbers of the tasks that take the steps. *)
Definition advance (h : ∀ X, E X → S → X * S) (i : nat) (c : Conf) : Conf :=
  match tasks c !! i with
  | Some tk =>
      match tk_prog tk with
      | Vis e k =>
          let '(x, s) := h _ e (shared c) in
          {| shared := s; tasks := <[i := after_effect e x k tk]> (tasks c) |}
      | _ => c
      end
  | None => c
  end.

(** A task that is done goes on with [r]. *)
Definition end_round (r : R) (i : nat) (c : Conf) : Conf :=
  match tasks c !! i with
  | Some tk =>
      match tk_prog tk with
      | Ret l => {| shared := shared c; tasks := <[i := after_round l r tk]> (tasks c) |}
      | _ => c
      end
  | None => c
  end.

Lemma advance_reaches (h : ∀ X, E X → S → X * S) sched c :
  (∀ X (e : E X) s, eff X e s (h X e s).1 (h X e s).2) → reaches c (foldl (flip (advance h)) c sched).
Proof.
  intros Hh. revert c. induction sched as [|i sched IH]; intros [s ts]; [reflexivity|]. simpl.
  etransitivity; [|apply IH]. unfold advance. simpl. destruct (ts !! i) as [tk|] eqn:Hi; [|reflexivity].
  destruct (tk_prog tk) as [l|why|X e k] eqn:Hp; [reflexivity..|].
  pose proof (Hh X e s) as He. destruct (h X e s) as [x s']. apply rtc_once. by eapply StepEffect.
Qed.

Lemma end_round_reaches r sched c :
  (∀ r0 l s, next r0 l s r s) → reaches c (foldl (flip (end_round r)) c sched).
Proof.
  intros Hn. revert c. induction sched as [|i sched IH]; intros [s ts]; [reflexivity|]. simpl.
  etransitivity; [|apply IH]. unfold end_round. simpl. destruct (ts !! i) as [tk|] eqn:Hi; [|reflexivity].
  destruct (tk_prog tk) as [l|why|X e k] eqn:Hp; [|reflexivity..].
  apply rtc_once. by eapply StepNext.
Qed.

Lemma spawns_reach s ts rs :
  Forall (λ r, spawn s r s) rs →
  reaches {| shared := s; tasks := ts |} {| shared := s; tasks := ts ++ (fresh_task <$> rs) |}.
Proof.
  intros Hrs. revert ts. induction Hrs as [|r rs Hr Hrs IH]; intros ts.
  - by rewrite app_nil_r.
  - csimpl. eapply rtc_l; [by eapply StepSpawn|]. specialize (IH (ts ++ [fresh_task r])).
    by rewrite <- (assoc_L (++)) in IH.
Qed.

(** ** Invariants *)

(** What an invariant can see of a task. *)
Definition View : Type := R * list (ev E) * list (R * list (ev E) * L).
Definition view (tk : Task) : View := (tk_round tk, tk_trace tk, tk_done tk).

(** The protocol of a round: [pre] allows an effect after the events so far,
    [ans] says which answers to expect, [post] describes the end. *)
Context (pre : R → list (ev E) → ∀ X, E X → Prop) (ans : ∀ X, E X → X → Prop).
Context (post : R → list (ev E) → L → Prop).

Fixpoint follows (r : R) (t : list (ev E)) (p : prog E L) : Prop :=
  match p with
  | Ret l => post r t l
  | Panic _ => True
  | Vis e k => pre r t _ e ∧ ∀ x, ans _ e x → follows r (t ++ [Ev e x]) (k x)
  end.

Context (J : S → list View → Prop) (ok : R → Prop).

Record Keeps : Prop := {
  keeps_answers s vs X (e : E X) x s' : J s vs → eff X e s x s' → ans X e x;
  keeps_effect s vs i r t ds X (e : E X) x s' :
    J s vs → vs !! i = Some (r, t, ds) → ok r → pre r t X e → eff X e s x s' →
    J s' (<[i := (r, t ++ [Ev e x], ds)]> vs);
  keeps_next s vs i r t ds l r' s' :
    J s vs → vs !! i = Some (r, t, ds) → ok r → post r t l → next r l s r' s' →
    J s' (<[i := (r', [], ds ++ [(r, t, l)])]> vs) ∧ ok r';
  keeps_spawn s vs r s' : J s vs → spawn s r s' → J s' (vs ++ [(r, [], [])]) ∧ ok r;
  keeps_env s vs s' : J s vs → env s s' → J s' vs;
  keeps_code r : ok r → follows r [] (code r)
}.

Definition task_follows (tk : Task) : Prop :=
  ok (tk_round tk) ∧ follows (tk_round tk) (tk_trace tk) (tk_prog tk).

Definition good (c : Conf) : Prop := J (shared c) (view <$> tasks c) ∧ Forall task_follows (tasks c).

Lemma step_good c c' : Keeps → conf_step c c' → good c → good c'.
Proof.
  intros HK Hs [HJ Hf]. destruct Hs as [s ts i tk X e k x s' Hi Hp He|s ts i tk l r s' Hi Hp Hn|
    s ts r s' Hsp|s ts i tk Hi _|s ts s' He]; unfold good in *; simpl in *;
    try (eapply Forall_lookup_1 in Hf as Htk; [|done]; destruct Htk as [Hok Htk]; rewrite ?Hp in Htk);
    try (assert ((view <$> ts) !! i = Some (tk_round tk, tk_trace tk, tk_done tk)) as Hv
      by by rewrite list_lookup_fmap, Hi).
  - destruct Htk as [Hpre Hk]. rewrite list_fmap_insert. split.
    + by eapply (keeps_effect HK).
    + apply Forall_insert_task; [done|]. split; [done|]. apply Hk. by eapply (keeps_answers HK).
  - rewrite list_fmap_insert.
    destruct (keeps_next HK _ _ _ _ _ _ _ _ _ HJ Hv Hok Htk Hn) as [HJ' Hok']. split; [exact HJ'|].
    apply Forall_insert_task; [done|]. split; [done|]. by apply (keeps_code HK).
  - destruct (keeps_spawn HK _ _ _ _ HJ Hsp) as [HJ' Hok']. rewrite fmap_app. split; [exact HJ'|].
    apply Forall_app. split; [done|]. apply Forall_singleton. split; [done|]. by apply (keeps_code HK).
  - rewrite list_fmap_insert. split.
    + rewrite list_insert_id; [done|]. by rewrite list_lookup_fmap, Hi.
    + by apply Forall_insert_task.
  - split; [|done]. by eapply (keeps_env HK).
Qed.

Lemma invariant_reachable c c' : Keeps → good c → reaches c c' → good c'.
Proof. intros HK Hg Hs. induction Hs; eauto using step_good. Qed.
End interleave.

(** ** Protocols of composed programs *)

Section compose.
Context {E : Type → Type} {R : Type}.
Context (pre : R → list (ev E) → ∀ X, E X → Prop) (ans : ∀ X, E X → X → Prop).

Lemma follows_mono {A} (P Q : R → list (ev E) → A → Prop) r t (p : prog E A) :
  (∀ t a, P r t a → Q r t a) → follows pre ans P r t p → follows pre ans Q r t p.
Proof.
  intros HPQ. revert t. induction p as [a|w|X e k IH]; intros t; simpl; [auto|done|].
  intros [He Hk]. split; [done|]. intros x Hx. by apply IH, Hk.
Qed.

Lemma follows_bind {A B} (Q : R → list (ev E) → B → Prop) r t (p : prog E A) (k : A → prog E B) :
  follows pre ans (λ r t a, follows pre ans Q r t (k a)) r t p →
  follows pre ans Q r t (bind p k).
Proof.
  revert t. induction p as [a|w|X e q IH]; intros t; simpl; [done|done|].
  intros [He Hk]. split; [done|]. intros x Hx. by apply IH, Hk.
Qed.
End compose.

(** ** Footprints that depend on the answers

    What a program may touch when every answer it gets is an expected one: a
    program that is given a handle works on the handle it was given. *)
Section within.
Context {E : Type → Type}.
Context (may : ∀ X, E X → Prop) (ans : ∀ X, E X → X → Prop).

Fixpoint within {A} (p : prog E A) : Prop :=
  match p with
  | Ret _ | Panic _ => True
  | Vis e k => may _ e ∧ ∀ x, ans _ e x → within (k x)
  end.

Lemma within_only {A} (p : prog E A) : only may p → within p.
Proof. induction p as [a|w|X e k IH]; simpl; [done..|]. intros [He Hk]. auto. Qed.

Lemma within_bind {A B} (p : prog E A) (k : A → prog E B) :
  within p → (∀ a, within (k a)) → within (bind p k).
Proof.
  intros Hp Hk. induction p as [a|w|X e q IH]; simpl in *; [auto..|].
  destruct Hp as [He Hq]. auto.
Qed.

Lemma within_bind_ok {A B Er} (p : prog E (result A Er)) (k : A → prog E (result B Er)) :
  within p → (∀ a, within (k a)) → within (bind_ok p k).
Proof. intros Hp Hk. apply within_bind; [done|]. by intros [a|e]; simpl. Qed.

Lemma within_for_each {A} (l : list A) (body : A → prog E unit) :
  (∀ x, within (body x)) → within (for_each l body).
Proof. intros Hb. induction l; simpl; [done|]. by apply within_bind. Qed.

End within.

(** ** Sums over the tasks *)

Lemma bind_insert {A B} (f : A → list B) (l : list A) i x :
  l !! i = Some x →
  ∃ rest, l ≫= f ≡ₚ f x ++ rest ∧ ∀ y, <[i := y]> l ≫= f ≡ₚ f y ++ rest.
Proof.
  revert i. induction l as [|a l IH]; intros [|i] Hi; simplify_eq/=.
  - by exists (l ≫= f).
  - destruct (IH i Hi) as (rest & H1 & H2). exists (f a ++ rest). split.
    + rewrite H1. solve_Permutation.
    + intros y. rewrite (H2 y). solve_Permutation.
Qed.

(** A change of one task that adds [extra] to what it contributes. *)
Lemma bind_insert_more {A B} (f : A → list B) (l : list A) i x y extra :
  l !! i = Some x → f y ≡ₚ f x ++ extra → <[i := y]> l ≫= f ≡ₚ (l ≫= f) ++ extra.
Proof.
  intros Hi Hy. destruct (bind_insert f l i x Hi) as (rest & H1 & H2).
  rewrite (H2 y), H1, Hy. solve_Permutation.
Qed.

Lemma bind_insert_same {A B} (f : A → list B) (l : list A) i x y :
  l !! i = Some x → f y ≡ₚ f x → <[i := y]> l ≫= f ≡ₚ l ≫= f.
Proof.
  intros Hi Hy. rewrite (bind_insert_more f l i x y [] Hi); rewrite app_nil_r; [done|by rewrite Hy].
Qed.

(** Everything a task did so far. *)
Definition observed {E : Type → Type} {R L : Type} (v : View (E := E) (R := R) (L := L))
    : list (ev E) := (v.2 ≫= λ d, d.1.2) ++ v.1.2.

(** ** Invariants on everything that was done

    The rule for invariants that see the effects of all tasks together, in no
    particular order.  A task relies on what the others did ([rely]), which
    every task guarantees of its own effects by following its protocol. *)
Section did.
Context {E : Type → Type} {S R L : Type}.
Context (eff : ∀ X, E X → S → X → S → Prop).
Context (code : R → prog E L).
Context (next : R → L → S → R → S → Prop).
Context (spawn : S → R → S → Prop) (abortable : R → Prop) (env : S → S → Prop).
Context (pre : R → list (ev E) → ∀ X, E X → Prop) (ans : ∀ X, E X → X → Prop).

Definition did (c : Conf (E := E) (S := S) (R := R) (L := L)) : list (ev E) :=
  (view <$> tasks c) ≫= observed.

Lemma observed_event r t ds (v : ev E) :
  observed (R := R) (L := L) (r, t ++ [v], ds) ≡ₚ observed (r, t, ds) ++ [v].
Proof. unfold observed. simpl. by rewrite (assoc_L (++)). Qed.

Lemma observed_next r r' t ds (l : L) :
  observed (E := E) (R := R) (r', [], ds ++ [(r, t, l)]) ≡ₚ observed (r, t, ds).
Proof. unfold observed. simpl. rewrite bind_app. simpl. by rewrite !app_nil_r. Qed.

Context (J : S → list (ev E) → Prop) (rely : list (ev E) → Prop) (ok : R → Prop).

Record KeepsDid : Prop := {
  kd_perm s T T' : T ≡ₚ T' → J s T → J s T';
  kd_answer s T X (e : E X) x s' : J s T → eff X e s x s' → ans X e x;
  kd_effect s T r t others X (e : E X) x s' :
    J s T → T ≡ₚ t ++ others → rely t → rely others → pre r t X e → eff X e s x s' →
    J s' (T ++ [Ev e x]);
  kd_next s T r l r' s' : J s T → next r l s r' s' → J s' T ∧ ok r';
  kd_spawn s T r s' : J s T → spawn s r s' → J s' T ∧ ok r;
  kd_env s T s' : J s T → env s s' → J s' T;
  kd_code r : ok r → follows pre ans (λ _ _ _, True) r [] (code r);
  kd_rely_nil : rely [];
  kd_rely_app t t' : rely t → rely t' → rely (t ++ t');
  kd_rely_perm t t' : t ≡ₚ t' → rely t → rely t';
  kd_rely_step r t X (e : E X) x : rely t → pre r t X e → rely (t ++ [Ev e x])
}.

(** What one task did: the round it is in and the rounds before. *)
Definition relied (v : View (E := E) (R := R) (L := L)) : Prop :=
  rely v.1.2 ∧ Forall (λ d, rely d.1.2) v.2.

Lemma rely_bind {A} (f : A → list (ev E)) l : KeepsDid → Forall (λ a, rely (f a)) l → rely (l ≫= f).
Proof.
  intros HK. induction 1 as [|a l Ha Hl IH]; [apply (kd_rely_nil HK)|]. simpl.
  by apply (kd_rely_app HK).
Qed.

Lemma rely_observed v : KeepsDid → relied v → rely (observed v).
Proof.
  intros HK [Hv Hd]. unfold observed. apply (kd_rely_app HK); [|done]. by apply rely_bind.
Qed.

(** The current round of a task and everything else. *)
Lemma rely_others vs i r t ds :
  KeepsDid → Forall relied vs → vs !! i = Some (r, t, ds) →
  ∃ others, vs ≫= observed ≡ₚ t ++ others ∧ rely t ∧ rely others.
Proof.
  intros HK Hvs Hi. destruct (bind_insert observed vs i _ Hi) as (rest & Hr & Hins).
  eapply Forall_lookup_1 in Hvs as Hv; [|done]. destruct Hv as [Ht Hd].
  exists ((ds ≫= λ d, d.1.2) ++ rest). split; [|split; [done|]].
  - rewrite Hr. unfold observed. simpl. solve_Permutation.
  - apply (kd_rely_app HK); [by apply rely_bind|].
    apply (kd_rely_perm HK (<[i := (r, [], [])]> vs ≫= observed)).
    { rewrite (Hins (r, [], [])). done. }
    apply rely_bind; [done|]. apply Forall_insert.
    + eapply Forall_impl; [exact Hvs|]. intros v Hv. by apply rely_observed.
    + apply (kd_rely_nil HK).
Qed.

Lemma did_invariant s c :
  KeepsDid → J s [] →
  reaches eff code next spawn abortable env {| shared := s; tasks := [] |} c →
  J (shared c) (did c).
Proof.
  intros HK HJ Hr.
  pose (J' := λ s (vs : list (View (E := E) (R := R) (L := L))),
    J s (vs ≫= observed) ∧ Forall relied vs).
  enough (good pre ans (λ _ _ _, True) J' ok c) as [[Hg _] _]; [exact Hg|].
  eapply (invariant_reachable eff code next spawn abortable env _ _ _ _ _
    {| shared := s; tasks := [] |}); [|split; [by split|constructor]|exact Hr].
  split; unfold J'.
  - intros s0 vs X e x s1 [Hs _] He. by eapply (kd_answer HK).
  - intros s0 vs i r t ds X e x s1 [Hs Hvs] Hi _ Hm He. split.
    + eapply (kd_perm HK); [symmetry; by eapply bind_insert_more, observed_event|].
      destruct (rely_others _ _ _ _ _ HK Hvs Hi) as (others & HT & Ht & Ho).
      by eapply (kd_effect HK).
    + eapply Forall_lookup_1 in Hvs as Hv; [|done]. apply Forall_insert; [done|].
      split; [|apply Hv]. apply (kd_rely_step HK r); [apply Hv|exact Hm].
  - intros s0 vs i r t ds l r' s1 [Hs Hvs] Hi _ _ Hn.
    destruct (kd_next HK _ _ _ _ _ _ Hs Hn) as [Hs' Hok]. split; [|done]. split.
    + eapply (kd_perm HK); [|exact Hs'].
      symmetry. by eapply bind_insert_same, observed_next.
    + eapply Forall_lookup_1 in Hvs as Hv; [|done]. apply Forall_insert; [done|].
      split; [apply (kd_rely_nil HK)|]. apply Forall_app. split; [apply Hv|].
      apply Forall_singleton, Hv.
  - intros s0 vs r s1 [Hs Hvs] Hsp. destruct (kd_spawn HK _ _ _ _ Hs Hsp) as [Hs' Hok].
    split; [|done]. split.
    + rewrite bind_app. simpl. by rewrite app_nil_r.
    + apply Forall_app. split; [done|]. apply Forall_singleton.
      split; [apply (kd_rely_nil HK)|constructor].
  - intros s0 vs s1 [Hs Hvs] He. split; [|done]. by eapply (kd_env HK).
  - apply (kd_code HK).
Qed.

(** What was done, round by round. *)
Lemma did_bind {B} (f : ev E → list B) c :
  did c ≫= f = tasks c ≫= λ tk, (tk_done tk ≫= λ d, d.1.2 ≫= f) ++ (tk_trace tk ≫= f).
Proof.
  unfold did. induction (tasks c) as [|tk ts IH]; [done|]. csimpl.
  rewrite bind_app, IH. f_equal. unfold observed. simpl. rewrite bind_app. f_equal.
  induction (tk_done tk) as [|d ds IHd]; [done|]. csimpl. by rewrite bind_app, IHd.
Qed.

(** A footprint is a protocol that does not look at the trace. *)
Lemma within_code (may : R → ∀ X, E X → Prop) r (p : prog E L) :
  within (may r) ans p → follows (λ r _, may r) ans (λ _ _ _, True) r [] p.
Proof.
  generalize (@nil (ev E)) as t. induction p as [a|w|X e k IH]; intros t; simpl; [done..|].
  intros [He Hk]. split; [done|]. intros x Hx. by apply IH, Hk.
Qed.
End did.

(** Proves [within] goals by following the program. *)
Ltac within_solve :=
  repeat first
    [ done
    | solve [eauto with eb_within]
    | apply within_only; solve [only_solve]
    | apply within_bind_ok; [|intros ?]
    | apply within_bind; [|intros ?]
    | apply within_for_each; intros ?
    | progress cbn [within call]; split; [done|intros ? ?]
    | case_decide
    | case_match
    | progress cbn [within] ].
Create HintDb eb_within.
