(* ===== verification/Errors.v ===== *)
(** * Errors: [event_base_core/src/error]

    The error enumerations of every subsystem, the unified [CoreError] and
    their [Display] texts (the [#[error(..)]] attributes), which the code
    forwards to clients and stores in records. *)
From S2P Require Import Prelude.

Inductive QueueError : Type :=
| QFull
| QClosed
| QTimeout
| QSend (what : string)
| QInvalidClaimId (id : string)
| QReceive (what : string).

Inductive WalError : Type :=
| RecordNotFound (id : string)
| WalCorrupted (what : string)
| WalBackendError (what : string)
| WalWrite (what : string).

Inductive MiddlewareError : Type :=
| MwExecution (what : string)
| MwInterrupted.

Inductive AuditError : Type :=
| AuditWrite (what : string)
| AuditBufferFull
| AuditMissingSpan.

Inductive ShutdownError : Type :=
| ShutdownErrTimeout (d : Duration)
| ComponentNotFound (c : string)
| ComponentFailed (c why : string).

Inductive SerializeError : Type :=
| SerializeErr (what : string)
| DeserializeErr (what : string).

Inductive TopicError : Type :=
| TopicAlreadyExists (t : string)
| TopicNotFound (t : string).

Inductive HandlerError : Type :=
| HandlerNotFound (t : string)
| HandlerErr (what : string).

(** [CoreError].  The payloads that are types of other crates
    ([serde_json::Error], [std::io::Error], [SystemTimeError]) are carried as
    their [Display] text. *)
Inductive CoreError : Type :=
| EQueue (e : QueueError)
| EWal (e : WalError)
| ESerdeSerialize (e : string)
| EMiddleware (e : MiddlewareError)
| EAudit (e : AuditError)
| EShutdown (e : ShutdownError)
| ESerialize (e : SerializeError)
| ETopic (e : TopicError)
| EHandlerE (e : HandlerError)
| EIoError (e : string)
| EQueueSendError (e : string)
| EInvalidParameter (e : string)
| EInvalidData (e : string)
| ETaskJoinError (e : string)
| EAlreadyInitialized
| EProcessTimeError (e : string)
| EErrorTime
| ETimeout (d : Duration)
| EWorkerNotFound (w : string)
| EUnsupported (what : string)
| EShuttingDown
| EOther (what : string).

#[export] Instance QueueError_eq_dec : EqDecision QueueError.
Proof. solve_decision. Defined.
#[export] Instance WalError_eq_dec : EqDecision WalError.
Proof. solve_decision. Defined.
#[export] Instance MiddlewareError_eq_dec : EqDecision MiddlewareError.
Proof. solve_decision. Defined.
#[export] Instance AuditError_eq_dec : EqDecision AuditError.
Proof. solve_decision. Defined.
#[export] Instance ShutdownError_eq_dec : EqDecision ShutdownError.
Proof. unfold EqDecision. intros x y. unfold Decision. repeat (decide equality). Defined.
#[export] Instance SerializeError_eq_dec : EqDecision SerializeError.
Proof. solve_decision. Defined.
#[export] Instance TopicError_eq_dec : EqDecision TopicError.
Proof. solve_decision. Defined.
#[export] Instance HandlerError_eq_dec : EqDecision HandlerError.
Proof. solve_decision. Defined.
#[export] Instance Duration_eq_dec : EqDecision Duration := Z.eq_dec.
#[export] Instance CoreError_eq_dec : EqDecision CoreError.
Proof. solve_decision. Defined.

Open Scope string_scope.

Definition queue_error_display (e : QueueError) : string :=
  match e with
  | QFull => "Queue is full"
  | QClosed => "Queue is closed"
  | QTimeout => "Send timeout"
  | QSend w => "Send error: " +:+ w
  | QInvalidClaimId i => "Invalid Claim Id: " +:+ i
  | QReceive w => "Receive error: " +:+ w
  end.

Definition wal_error_display (e : WalError) : string :=
  match e with
  | RecordNotFound i => "Record not found: " +:+ i
  | WalCorrupted w => "WAL corrupted: " +:+ w
  | WalBackendError w => "Backend error: " +:+ w
  | WalWrite w => "Write error: " +:+ w
  end.

Definition middleware_error_display (e : MiddlewareError) : string :=
  match e with
  | MwExecution w => "Execution failed: " +:+ w
  | MwInterrupted => "Middleware chain interrupted"
  end.

Definition audit_error_display (e : AuditError) : string :=
  match e with
  | AuditWrite w => "Write error: " +:+ w
  | AuditBufferFull => "Buffer full"
  | AuditMissingSpan => "Missing Span"
  end.

Definition serialize_error_display (e : SerializeError) : string :=
  match e with
  | SerializeErr w => "Serialize error: " +:+ w
  | DeserializeErr w => "Deserialize error: " +:+ w
  end.

Definition topic_error_display (e : TopicError) : string :=
  match e with
  | TopicAlreadyExists t => "Topic already exists: " +:+ t
  | TopicNotFound t => "Topic Not Found: " +:+ t
  end.

Definition handler_error_display (e : HandlerError) : string :=
  match e with
  | HandlerNotFound t => "Msg Handler Not Found: " +:+ t
  | HandlerErr w => "Msg Handler Error: " +:+ w
  end.

Section display.
(** [{:?}] of a [Duration], a formatter of the standard library. *)
Context (duration_debug : Duration → string).

Definition shutdown_error_display (e : ShutdownError) : string :=
  match e with
  | ShutdownErrTimeout d => "Timeout: " +:+ duration_debug d
  | ComponentNotFound c => "Component '" +:+ c +:+ "' not found"
  | ComponentFailed c w => "Component '" +:+ c +:+ "' shutdown failed: " +:+ w
  end.

Definition core_error_display (e : CoreError) : string :=
  match e with
  | EQueue e => "Queue error: " +:+ queue_error_display e
  | EWal e => "WAL error: " +:+ wal_error_display e
  | ESerdeSerialize e => "Serde Serialize Error: " +:+ e
  | EMiddleware e => "Middleware error: " +:+ middleware_error_display e
  | EAudit e => "Audit error: " +:+ audit_error_display e
  | EShutdown e => "Shutdown error: " +:+ shutdown_error_display e
  | ESerialize e => "Serialization error: " +:+ serialize_error_display e
  | ETopic e => "Topic error: " +:+ topic_error_display e
  | EHandlerE e => "Handler error: " +:+ handler_error_display e
  | EIoError e => "IO error: " +:+ e
  | EQueueSendError e => "Queue Send Error: " +:+ e
  | EInvalidParameter e => "Invalid Parameter: " +:+ e
  | EInvalidData e => "Invalid Type: " +:+ e
  | ETaskJoinError e => "Task Join Error: " +:+ e
  | EAlreadyInitialized => "Object already exists"
  | EProcessTimeError e => "Process Time Error: " +:+ e
  | EErrorTime => "Error Time"
  | ETimeout d => "Timeout: " +:+ duration_debug d
  | EWorkerNotFound w => "Worker Not Found: " +:+ w
  | EUnsupported w => "Unsupported: " +:+ w
  | EShuttingDown => "Shutting down"
  | EOther w => "Other: " +:+ w
  end.
End display.

Close Scope string_scope.

(** [Result<T, CoreError>]. *)
Abbreviation Res A := (result A CoreError).
