(* ===== verification/Message.v ===== *)
(** * Messages: [event_base_core/src/{message,handler,dead_letter,constant,audit}.rs]

    The envelope [EMessage], the acknowledgement a handler returns, the
    dead-letter reasons, the audit records and the names of the system
    topics. *)
From S2P Require Import Prelude Errors.

(** ** System topics: [constant.rs] *)

Open Scope string_scope.
Definition SYSTEM_TOPIC_AUDIT := "_system.audit".
Definition SYSTEM_TOPIC_TRACE := "_system.trace".
Definition SYSTEM_TOPIC_SHUTDOWN := "_system.shutdown".
Definition SYSTEM_TOPIC_SHUTDOWN_ACK := "_system.shutdown_ack".
Definition SYSTEM_TOPIC_WAL_SYNC := "_system.wal_sync".
Definition SYSTEM_TOPIC_WORKER_DISCOVERY := "_system.worker_discovery".
Definition SYSTEM_TOPIC_WORKER_HEARTBEAT := "_system.worker_heartbeat".
Definition SYSTEM_TOPIC_METRICS := "_system.metrics".
Definition SYSTEM_TOPIC_TOPIC_DISCOVERY := "_system.topic_discovery".
Definition SYSTEM_TOPIC_TOPIC_SYNC := "_system.topic_sync".
Close Scope string_scope.

(** ** Nodes: [lib.rs] *)

Inductive NodeType : Type := Host | WorkerNode.

#[export] Instance NodeType_eq_dec : EqDecision NodeType.
Proof. solve_decision. Defined.

(** ** The envelope: [message.rs] *)

Definition CURRENT_SCHEMA_VERSION : Z := 0.

Inductive DeliveryMode : Type :=
| Standard
| Repeated (times : Z)
| Broadcast.

#[export] Instance DeliveryMode_eq_dec : EqDecision DeliveryMode.
Proof. solve_decision. Defined.

Record MessageMetadata : Type := {
  created_at : SystemTime;
  trace_id : option string;
  correlation_id : option string;
  causation_id : option string;
  source : option string
}.

Record EMessage : Type := {
  id : string;
  topic : string;
  payload : bytes;
  metadata : MessageMetadata;
  attempts : Z;
  delivery_mode : DeliveryMode;
  consumed_count : Z;
  deliver_at : option SystemTime;
  to_worker : option string;
  version : Z
}.

#[export] Instance MessageMetadata_eq_dec : EqDecision MessageMetadata.
Proof. solve_decision. Defined.
#[export] Instance EMessage_eq_dec : EqDecision EMessage.
Proof. solve_decision. Defined.

(** Field updates ([msg.field = v]). *)
Definition set_id v (m : EMessage) : EMessage :=
  {| id := v; topic := topic m; payload := payload m; metadata := metadata m;
     attempts := attempts m; delivery_mode := delivery_mode m;
     consumed_count := consumed_count m; deliver_at := deliver_at m;
     to_worker := to_worker m; version := version m |}.
Definition set_topic v (m : EMessage) : EMessage :=
  {| id := id m; topic := v; payload := payload m; metadata := metadata m;
     attempts := attempts m; delivery_mode := delivery_mode m;
     consumed_count := consumed_count m; deliver_at := deliver_at m;
     to_worker := to_worker m; version := version m |}.
Definition set_payload v (m : EMessage) : EMessage :=
  {| id := id m; topic := topic m; payload := v; metadata := metadata m;
     attempts := attempts m; delivery_mode := delivery_mode m;
     consumed_count := consumed_count m; deliver_at := deliver_at m;
     to_worker := to_worker m; version := version m |}.
Definition set_metadata v (m : EMessage) : EMessage :=
  {| id := id m; topic := topic m; payload := payload m; metadata := v;
     attempts := attempts m; delivery_mode := delivery_mode m;
     consumed_count := consumed_count m; deliver_at := deliver_at m;
     to_worker := to_worker m; version := version m |}.
Definition set_attempts v (m : EMessage) : EMessage :=
  {| id := id m; topic := topic m; payload := payload m; metadata := metadata m;
     attempts := v; delivery_mode := delivery_mode m;
     consumed_count := consumed_count m; deliver_at := deliver_at m;
     to_worker := to_worker m; version := version m |}.
Definition set_consumed_count v (m : EMessage) : EMessage :=
  {| id := id m; topic := topic m; payload := payload m; metadata := metadata m;
     attempts := attempts m; delivery_mode := delivery_mode m;
     consumed_count := v; deliver_at := deliver_at m;
     to_worker := to_worker m; version := version m |}.
Definition set_deliver_at v (m : EMessage) : EMessage :=
  {| id := id m; topic := topic m; payload := payload m; metadata := metadata m;
     attempts := attempts m; delivery_mode := delivery_mode m;
     consumed_count := consumed_count m; deliver_at := v;
     to_worker := to_worker m; version := version m |}.
Definition set_to_worker v (m : EMessage) : EMessage :=
  {| id := id m; topic := topic m; payload := payload m; metadata := metadata m;
     attempts := attempts m; delivery_mode := delivery_mode m;
     consumed_count := consumed_count m; deliver_at := deliver_at m;
     to_worker := v; version := version m |}.
Definition set_source v (md : MessageMetadata) : MessageMetadata :=
  {| created_at := created_at md; trace_id := trace_id md;
     correlation_id := correlation_id md; causation_id := causation_id md;
     source := v |}.

Definition fresh_metadata (now : SystemTime) : MessageMetadata :=
  {| created_at := now; trace_id := None; correlation_id := None;
     causation_id := None; source := None |}.

(** [EMessage::new]: the generated UUID and the clock reading are arguments. *)
Definition EMessage_new (uuid : string) (now : SystemTime)
    (tpc : string) (pl : bytes) (mode : DeliveryMode) (target : option string)
    : EMessage :=
  {| id := uuid; topic := tpc; payload := pl;
     metadata := fresh_metadata now;
     attempts := 0; delivery_mode := mode; consumed_count := 0;
     deliver_at := None; to_worker := target; version := CURRENT_SCHEMA_VERSION |}.

(** [EMessage::default]. *)
Definition EMessage_default (now : SystemTime) : EMessage :=
  {| id := EmptyString; topic := EmptyString; payload := [];
     metadata := fresh_metadata now;
     attempts := 0; delivery_mode := Standard; consumed_count := 0;
     deliver_at := None; to_worker := None; version := 0 |}.

(** [EMessage::check_wire_version].  The text of the error is a [format!] of
    the id and the two versions, [fmt]. *)
Definition check_wire_version (fmt : string → Z → string) (m : EMessage) : Res unit :=
  if decide (version m > CURRENT_SCHEMA_VERSION)
  then Err (EUnsupported (fmt (id m) (version m)))
  else Ok tt.

(** The [u32] fields are in range. *)
Definition msg_wf (m : EMessage) : Prop :=
  is_u32 (attempts m) ∧ is_u32 (consumed_count m) ∧ is_u32 (version m) ∧
  match delivery_mode m with Repeated n => is_u32 n | _ => True end.

(** ** Acknowledgements: [handler.rs], [dead_letter.rs] *)

Inductive DeadReason : Type :=
| MaxRetriesExceeded
| Explicit
| TimeoutReason
| NoHandler
| OtherReason (what : string).

#[export] Instance DeadReason_eq_dec : EqDecision DeadReason.
Proof. solve_decision. Defined.

Open Scope string_scope.
Definition dead_reason_display (r : DeadReason) : string :=
  match r with
  | MaxRetriesExceeded => "Max Retries exceeded"
  | Explicit => "Handler Explicit"
  | TimeoutReason => "Handler Timeout"
  | NoHandler => "NoHandler"
  | OtherReason w => "Handler Other Error: " +:+ w
  end.
Close Scope string_scope.

Record DeadLetterMessage : Type := {
  original_message : EMessage;
  dead_reason : DeadReason;
  died_at : SystemTime;
  dl_attempts : Z
}.

Inductive Ack : Type :=
| AckOk
| NoAck (retry_after : option Duration) (max_retries : Z)
| Dead (reason : DeadReason).

#[export] Instance Ack_eq_dec : EqDecision Ack.
Proof. solve_decision. Defined.

(** ** Audit records: [audit.rs] *)

Inductive AuditEventType : Type :=
| Enqueued
| ProcessingStarted
| ProcessingCompleted
| RetryEvent
| DeadLettered.

Inductive AuditResult : Type :=
| AuditStart
| AuditSuccess
| AuditFailure
| AuditRetry
| AuditDead.

#[export] Instance AuditEventType_eq_dec : EqDecision AuditEventType.
Proof. solve_decision. Defined.
#[export] Instance AuditResult_eq_dec : EqDecision AuditResult.
Proof. solve_decision. Defined.

Record AuditRecord : Type := {
  ar_message_id : string;
  ar_topic : string;
  ar_event_type : AuditEventType;
  ar_worker_id : option string;
  ar_timestamp : SystemTime;
  ar_result : AuditResult;
  ar_error : option string;
  ar_duration : option Duration
}.

#[export] Instance AuditRecord_eq_dec : EqDecision AuditRecord.
Proof. solve_decision. Defined.

(** ** Worker records: [worker_registry.rs] *)

Record WorkerInfo : Type := {
  wi_worker_name : string;
  wi_topic : string;
  wi_last_heartbeat : SystemTime
}.

Record WorkerHeartbeatMessage : Type := {
  hb_worker_name : string;
  hb_timestamp : SystemTime
}.

Record WorkerDiscoveryMessage : Type := {
  wd_worker_name : string;
  wd_topic : string;
  wd_started_at : SystemTime
}.

(** ** WAL records: [wal/wal.rs], [wal/sync.rs] *)

Inductive WalRecordState : Type := Pending | Processing | Complete | Failed.

#[export] Instance WalRecordState_eq_dec : EqDecision WalRecordState.
Proof. solve_decision. Defined.

Record WalRecord : Type := {
  record_id : Z;
  message : EMessage;
  status : WalRecordState;
  last_attempt_at : option SystemTime;
  is_dead_letter : bool;
  wr_dead_reason : option DeadReason
}.

Definition WalRecord_from_msg (m : EMessage) : WalRecord :=
  {| record_id := 0; message := m; status := Pending; last_attempt_at := None;
     is_dead_letter := false; wr_dead_reason := None |}.

Definition set_record_id v (r : WalRecord) : WalRecord :=
  {| record_id := v; message := message r; status := status r;
     last_attempt_at := last_attempt_at r; is_dead_letter := is_dead_letter r;
     wr_dead_reason := wr_dead_reason r |}.

Definition set_record_status v (r : WalRecord) : WalRecord :=
  {| record_id := record_id r; message := message r; status := v;
     last_attempt_at := last_attempt_at r; is_dead_letter := is_dead_letter r;
     wr_dead_reason := wr_dead_reason r |}.

Record WalSyncMessage : Type := {
  ws_message_id : string;
  ws_topic : string;
  ws_worker_id : string;
  ws_status : WalRecordState;
  ws_attempts : Z;
  ws_last_attempt_at : SystemTime;
  ws_error : option string;
  ws_timestamp : SystemTime
}.

#[export] Instance WorkerInfo_eq_dec : EqDecision WorkerInfo.
Proof. solve_decision. Defined.
#[export] Instance WalRecord_eq_dec : EqDecision WalRecord.
Proof. solve_decision. Defined.
#[export] Instance WalSyncMessage_eq_dec : EqDecision WalSyncMessage.
Proof. solve_decision. Defined.

(** ** Shutdown messages: [shutdown/messages.rs] *)

Inductive ShutdownStrategy : Type :=
| TwoStage (poll_interval_ms force_timeout_secs : Z)
| Graceful (worker_name : string) (poll_interval_ms : Z)
| Force
| TimeoutStrategy (total_timeout_secs : Z)
| StateBasedIdle
| Batched (batch_size interval_ms : Z).

#[export] Instance ShutdownStrategy_eq_dec : EqDecision ShutdownStrategy.
Proof. solve_decision. Defined.

Record ShutdownCommand : Type := { strategy : ShutdownStrategy }.

Inductive ShutdownStatus : Type := ShCompleted | ShFailed | ShTimeout.

#[export] Instance ShutdownStatus_eq_dec : EqDecision ShutdownStatus.
Proof. solve_decision. Defined.

Record ShutdownAck : Type := {
  sa_worker_name : string;
  sa_status : ShutdownStatus;
  sa_timestamp : SystemTime;
  sa_error : option string
}.

(** ** Topic messages: [system_handlers/topic.rs] *)

Record TopicDiscoveryMessage : Type := { has_topics : list string }.
Record TopicSyncMessage : Type := { ts_topics : list string }.
