(* ===== verification/Codec.v ===== *)
(** * Codecs: [wal/codec.rs] and the [bincode] / [serde_json] interfaces

    [bincode] and [serde_json] are crates outside the repository: the class
    [Bincode] is what the code calls and [BincodeLaws] the documented round
    trip it relies on.  The module [SerCodec] builds lawful instances, so
    that statements made against the interface can be run. *)
From S2P Require Import Prelude Errors Message.

(** [bincode::encode_to_vec] and [bincode::decode_from_slice]; the error of
    either is its [Display] text, a decoded value comes with the number of
    bytes read. *)
Class Bincode (T : Type) : Type := {
  bincode_encode : T → result bytes string;
  bincode_decode : bytes → result (T * Z) string
}.

Class BincodeLaws (T : Type) `{Bincode T} : Prop :=
  bincode_roundtrip : ∀ (x : T) (b : bytes),
    bincode_encode x = Ok b → ∃ n, bincode_decode b = Ok (x, n).

(** [serde_json::to_vec] and [serde_json::from_slice]. *)
Class Json (T : Type) : Type := {
  json_to_vec : T → result bytes string;
  json_from_slice : bytes → result T string
}.

Class JsonLaws (T : Type) `{Json T} : Prop :=
  json_roundtrip : ∀ (x : T) (b : bytes),
    json_to_vec x = Ok b → json_from_slice b = Ok x.

(** [bincode::encode_to_vec(..).unwrap_or_default()]. *)
Definition encode_or_default {T} `{Bincode T} (x : T) : bytes :=
  unwrap_or (bincode_encode x) [].

(** What a handler does first: decode its payload, drop the byte count. *)
Definition decode_payload {T} `{Bincode T} (b : bytes) : option T :=
  match bincode_decode b with Ok (x, _) => Some x | Err _ => None end.

Lemma decode_encoded {T} `{BincodeLaws T} (x : T) (b : bytes) :
  bincode_encode x = Ok b → decode_payload b = Some x.
Proof.
  intros Hb. unfold decode_payload. by destruct (bincode_roundtrip x b Hb) as [n ->].
Qed.

(** [BincodeCodec] of [wal/codec.rs]. *)
Section BincodeCodec.
Context `{Bincode WalRecord}.

Definition codec_encode (r : WalRecord) : result bytes SerializeError :=
  map_err SerializeErr (bincode_encode r).

Definition codec_decode (b : bytes) : result WalRecord SerializeError :=
  match bincode_decode b with
  | Ok (r, _) => Ok r
  | Err e => Err (DeserializeErr e)
  end.

Lemma codec_roundtrip `{!BincodeLaws WalRecord} r b :
  codec_encode r = Ok b → codec_decode b = Ok r.
Proof.
  unfold codec_encode, codec_decode, map_err.
  destruct (bincode_encode r) as [b'|] eqn:E; [|done]. intros [= ->].
  by destruct (bincode_roundtrip r b E) as [n ->].
Qed.
End BincodeCodec.

(** ** A concrete lawful codec *)

Module SerCodec.

Class Ser (A : Type) : Type := {
  ser : A → bytes;
  deser : bytes → option (A * bytes);
  deser_ser : ∀ a r, deser (ser a ++ r) = Some (a, r)
}.

#[export] Program Instance Z_ser : Ser Z := {|
  ser z := [z];
  deser b := match b with [] => None | z :: r => Some (z, r) end
|}.
Next Obligation. done. Qed.

Program Definition iso_ser {A B} `{Ser A} (f : B → A) (g : A → option B)
    (Hgf : ∀ b, g (f b) = Some b) : Ser B := {|
  ser b := ser (f b);
  deser b := match deser b with
             | Some (a, r) => match g a with Some x => Some (x, r) | None => None end
             | None => None
             end
|}.
Next Obligation. intros. simpl. rewrite deser_ser, Hgf. done. Qed.

#[export] Program Instance prod_ser {A B} `{Ser A, Ser B} : Ser (A * B) := {|
  ser p := ser p.1 ++ ser p.2;
  deser b := match deser b with
             | Some (x, r) =>
                 match deser r with Some (y, r') => Some ((x, y), r') | None => None end
             | None => None
             end
|}.
Next Obligation.
  intros A B HA HB [x y] r; simpl. by rewrite <- app_assoc, deser_ser, deser_ser.
Qed.

Definition option_deser {A} `{Ser A} (b : bytes) : option (option A * bytes) :=
  match b with
  | z :: r =>
      if decide (z = 0) then Some (None, r)
      else match deser r with Some (x, r') => Some (Some x, r') | None => None end
  | [] => None
  end.

#[export] Program Instance option_ser {A} `{Ser A} : Ser (option A) := {|
  ser o := match o with None => [0] | Some x => 1 :: ser x end;
  deser := option_deser
|}.
Next Obligation. intros A HA [x|] r; simpl; [by rewrite deser_ser|done]. Qed.

Fixpoint deser_n {A} `{Ser A} (n : nat) (b : bytes) : option (list A * bytes) :=
  match n with
  | O => Some ([], b)
  | S n =>
      match deser b with
      | Some (x, r) =>
          match deser_n n r with Some (l, r') => Some (x :: l, r') | None => None end
      | None => None
      end
  end.

#[export] Program Instance list_ser {A} `{Ser A} : Ser (list A) := {|
  ser l := Z.of_nat (length l) :: concat (map ser l);
  deser b := match b with [] => None | n :: r => deser_n (Z.to_nat n) r end
|}.
Next Obligation.
  intros A HA l r; simpl. rewrite Nat2Z.id.
  induction l as [|x l IH]; simpl; [done|].
  by rewrite <- app_assoc, deser_ser, IH.
Qed.

#[export] Instance ascii_ser : Ser Ascii.ascii :=
  iso_ser (λ a, Z.of_N (Ascii.N_of_ascii a)) (λ z, Some (Ascii.ascii_of_N (Z.to_N z)))
    (λ b, ltac:(cbv beta; rewrite N2Z.id, Ascii.ascii_N_embedding; done)).

#[export] Instance string_ser : Ser string :=
  iso_ser String.list_ascii_of_string (λ l, Some (String.string_of_list_ascii l))
    (λ b, ltac:(cbv beta; rewrite String.string_of_list_ascii_of_string; done)).

#[export] Instance bool_ser : Ser bool :=
  iso_ser (λ b : bool, if b then 1 else 0) (λ z, Some (Z.eqb z 1))
    (λ b, ltac:(by destruct b)).

#[export] Instance DeliveryMode_ser : Ser DeliveryMode :=
  iso_ser (λ m, match m with Standard => (0, 0) | Repeated n => (1, n) | Broadcast => (2, 0) end)
    (λ p, match p with (0, _) => Some Standard | (1, n) => Some (Repeated n)
          | _ => Some Broadcast end)
    (λ b, ltac:(by destruct b)).

#[export] Instance MessageMetadata_ser : Ser MessageMetadata :=
  iso_ser (λ m, (created_at m, (trace_id m, (correlation_id m, (causation_id m, source m)))))
    (λ '(a, (b, (c, (d, e)))), Some {| created_at := a; trace_id := b; correlation_id := c;
                                       causation_id := d; source := e |})
    (λ b, ltac:(by destruct b)).

#[export] Instance EMessage_ser : Ser EMessage :=
  iso_ser
    (λ m, ((id m, (topic m, (payload m, (metadata m, attempts m)))),
           (delivery_mode m, (consumed_count m, (deliver_at m, (to_worker m, version m))))))
    (λ '((a, (b, (c, (d, e)))), (f, (g, (h, (i, j))))),
      Some {| id := a; topic := b; payload := c; metadata := d; attempts := e;
              delivery_mode := f; consumed_count := g; deliver_at := h;
              to_worker := i; version := j |})
    (λ b, ltac:(by destruct b)).

#[export] Instance WalRecordState_ser : Ser WalRecordState :=
  iso_ser (λ s, match s with Pending => 0 | Processing => 1 | Complete => 2 | Failed => 3 end)
    (λ z, match z with 0 => Some Pending | 1 => Some Processing | 2 => Some Complete
          | _ => Some Failed end)
    (λ b, ltac:(by destruct b)).

#[export] Instance DeadReason_ser : Ser DeadReason :=
  iso_ser (λ s, match s with
                | MaxRetriesExceeded => (0, EmptyString) | Explicit => (1, EmptyString)
                | TimeoutReason => (2, EmptyString) | NoHandler => (3, EmptyString)
                | OtherReason w => (4, w) end)
    (λ z, match z with (0, _) => Some MaxRetriesExceeded | (1, _) => Some Explicit
          | (2, _) => Some TimeoutReason | (3, _) => Some NoHandler
          | (_, w) => Some (OtherReason w) end)
    (λ b, ltac:(by destruct b)).

#[export] Instance WalRecord_ser : Ser WalRecord :=
  iso_ser
    (λ r, (record_id r, (message r, (status r, (last_attempt_at r,
            (is_dead_letter r, wr_dead_reason r))))))
    (λ '(a, (b, (c, (d, (e, f))))),
      Some {| record_id := a; message := b; status := c; last_attempt_at := d;
              is_dead_letter := e; wr_dead_reason := f |})
    (λ b, ltac:(by destruct b)).

#[export] Instance WalSyncMessage_ser : Ser WalSyncMessage :=
  iso_ser
    (λ s, ((ws_message_id s, (ws_topic s, (ws_worker_id s, ws_status s))),
           (ws_attempts s, (ws_last_attempt_at s, (ws_error s, ws_timestamp s)))))
    (λ '((a, (b, (c, d))), (e, (f, (g, h)))),
      Some {| ws_message_id := a; ws_topic := b; ws_worker_id := c; ws_status := d;
              ws_attempts := e; ws_last_attempt_at := f; ws_error := g; ws_timestamp := h |})
    (λ b, ltac:(by destruct b)).

#[export] Instance AuditEventType_ser : Ser AuditEventType :=
  iso_ser (λ s, match s with Enqueued => 0 | ProcessingStarted => 1 | ProcessingCompleted => 2
                | RetryEvent => 3 | DeadLettered => 4 end)
    (λ z, match z with 0 => Some Enqueued | 1 => Some ProcessingStarted
          | 2 => Some ProcessingCompleted | 3 => Some RetryEvent | _ => Some DeadLettered end)
    (λ b, ltac:(by destruct b)).

#[export] Instance AuditResult_ser : Ser AuditResult :=
  iso_ser (λ s, match s with AuditStart => 0 | AuditSuccess => 1 | AuditFailure => 2
                | AuditRetry => 3 | AuditDead => 4 end)
    (λ z, match z with 0 => Some AuditStart | 1 => Some AuditSuccess
          | 2 => Some AuditFailure | 3 => Some AuditRetry | _ => Some AuditDead end)
    (λ b, ltac:(by destruct b)).

#[export] Instance AuditRecord_ser : Ser AuditRecord :=
  iso_ser
    (λ s, ((ar_message_id s, (ar_topic s, (ar_event_type s, ar_worker_id s))),
           (ar_timestamp s, (ar_result s, (ar_error s, ar_duration s)))))
    (λ '((a, (b, (c, d))), (e, (f, (g, h)))),
      Some {| ar_message_id := a; ar_topic := b; ar_event_type := c; ar_worker_id := d;
              ar_timestamp := e; ar_result := f; ar_error := g; ar_duration := h |})
    (λ b, ltac:(by destruct b)).

#[export] Instance WorkerInfo_ser : Ser WorkerInfo :=
  iso_ser (λ w, (wi_worker_name w, (wi_topic w, wi_last_heartbeat w)))
    (λ '(a, (b, c)), Some {| wi_worker_name := a; wi_topic := b; wi_last_heartbeat := c |})
    (λ b, ltac:(by destruct b)).

#[export] Instance WorkerHeartbeatMessage_ser : Ser WorkerHeartbeatMessage :=
  iso_ser (λ w, (hb_worker_name w, hb_timestamp w))
    (λ '(a, b), Some {| hb_worker_name := a; hb_timestamp := b |})
    (λ b, ltac:(by destruct b)).

#[export] Instance WorkerDiscoveryMessage_ser : Ser WorkerDiscoveryMessage :=
  iso_ser (λ w, (wd_worker_name w, (wd_topic w, wd_started_at w)))
    (λ '(a, (b, c)), Some {| wd_worker_name := a; wd_topic := b; wd_started_at := c |})
    (λ b, ltac:(by destruct b)).

#[export] Instance ShutdownStatus_ser : Ser ShutdownStatus :=
  iso_ser (λ s, match s with ShCompleted => 0 | ShFailed => 1 | ShTimeout => 2 end)
    (λ z, match z with 0 => Some ShCompleted | 1 => Some ShFailed | _ => Some ShTimeout end)
    (λ b, ltac:(by destruct b)).

#[export] Instance ShutdownAck_ser : Ser ShutdownAck :=
  iso_ser (λ w, (sa_worker_name w, (sa_status w, (sa_timestamp w, sa_error w))))
    (λ '(a, (b, (c, d))), Some {| sa_worker_name := a; sa_status := b; sa_timestamp := c;
                                  sa_error := d |})
    (λ b, ltac:(by destruct b)).

#[export] Instance ShutdownStrategy_ser : Ser ShutdownStrategy :=
  iso_ser (λ s, match s with
                | TwoStage a b => (0, (a, (b, EmptyString)))
                | Graceful w a => (1, (a, (0, w)))
                | Force => (2, (0, (0, EmptyString)))
                | TimeoutStrategy a => (3, (a, (0, EmptyString)))
                | StateBasedIdle => (4, (0, (0, EmptyString)))
                | Batched a b => (5, (a, (b, EmptyString))) end)
    (λ '(k, (a, (b, w))), match k with
       | 0 => Some (TwoStage a b) | 1 => Some (Graceful w a) | 2 => Some Force
       | 3 => Some (TimeoutStrategy a) | 4 => Some StateBasedIdle | _ => Some (Batched a b) end)
    (λ b, ltac:(by destruct b)).

#[export] Instance ShutdownCommand_ser : Ser ShutdownCommand :=
  iso_ser strategy (λ s, Some {| strategy := s |}) (λ b, ltac:(by destruct b)).

#[export] Instance TopicDiscoveryMessage_ser : Ser TopicDiscoveryMessage :=
  iso_ser has_topics (λ s, Some {| has_topics := s |}) (λ b, ltac:(by destruct b)).

#[export] Instance TopicSyncMessage_ser : Ser TopicSyncMessage :=
  iso_ser ts_topics (λ s, Some {| ts_topics := s |}) (λ b, ltac:(by destruct b)).

#[export] Instance map_ser {V} `{Ser V} : Ser (gmap string V) :=
  iso_ser (A := list (string * V)) (λ m, map_to_list m) (λ l, Some (list_to_map l : gmap string V))
    (λ b, f_equal Some (list_to_map_to_list b)).

(** Every [Ser] type has a lawful [Bincode] and a lawful [Json]. *)
#[export] Instance ser_bincode {A} `{Ser A} : Bincode A := {|
  bincode_encode a := Ok (ser a);
  bincode_decode b :=
    match deser b with
    | Some (a, r) => Ok (a, Z.of_nat (length b) - Z.of_nat (length r))
    | None => Err EmptyString
    end
|}.

#[export] Instance ser_bincode_laws {A} `{Ser A} : BincodeLaws A.
Proof.
  intros x b [= <-]. simpl.
  assert (deser (ser x) = Some (x, [])) as ->; [|eauto].
  rewrite <- (app_nil_r (ser x)). apply deser_ser.
Qed.

#[export] Instance ser_json {A} `{Ser A} : Json A := {|
  json_to_vec a := Ok (ser a);
  json_from_slice b := match deser b with Some (a, _) => Ok a | None => Err EmptyString end
|}.

#[export] Instance ser_json_laws {A} `{Ser A} : JsonLaws A.
Proof.
  intros x b [= <-]. simpl.
  assert (deser (ser x) = Some (x, [])) as ->; [|done].
  rewrite <- (app_nil_r (ser x)). apply deser_ser.
Qed.

End SerCodec.
