(* ===== verification/Wal.v ===== *)
(** * The write-ahead log: [wal/wal.rs], [event_base_wal/src/{memory,persistent}.rs]

    The trait [Wal] as a class of operations, its contract [WalLaws] against
    an abstract log, and the in-memory implementation.  The file-backed one
    is in [PersistentWal]. *)
From S2P Require Import Prelude Errors Message.

(** ** The trait *)

(** What an operation may draw from its environment: a fresh UUID and the
    clock. *)
Record WalEnv : Type := { we_uuid : string; we_now : SystemTime }.

Class Wal (L : Type) : Type := {
  wal_append : WalRecord → L → Res unit * L;
  wal_update_state : WalEnv → string → WalRecordState → L → Res unit * L;
  wal_replay_pending : L → Res (list WalRecord) * L;
  wal_flush : L → Res unit * L;
  wal_schedule : WalRecord → L → Res unit * L;
  wal_fetch_ready : SystemTime → L → Res (list WalRecord) * L;
  wal_remove_scheduled : string → L → Res unit * L;
  wal_save_worker_registry : gmap string WorkerInfo → L → Res unit * L;
  wal_load_worker_registry : L → Res (gmap string WorkerInfo) * L
}.

(** ** The abstract log

    For every known message its state, for every delayed message the message,
    and the saved worker registry. *)
Record WalAbs : Type := {
  a_records : gmap string (EMessage * WalRecordState);
  a_delays : gmap string EMessage;
  a_registry : gmap string WorkerInfo
}.

Definition rec_abs (r : WalRecord) : EMessage * WalRecordState := (message r, status r).

(** A delayed message is due when its [deliver_at] has passed. *)
Definition due (now : SystemTime) (m : EMessage) : Prop :=
  match deliver_at m with Some t => t ≤ now | None => False end.
#[export] Instance due_dec now m : Decision (due now m).
Proof. unfold due. destruct (deliver_at m); apply _. Defined.

(** The contract of the trait, for the calls that succeed. *)
Class WalLaws (L : Type) `{Wal L} : Type := {
  wal_abs : L → WalAbs;
  append_law : ∀ r l l', wal_append r l = (Ok tt, l') →
    wal_abs l' = {| a_records := <[id (message r) := rec_abs r]> (a_records (wal_abs l));
                    a_delays := a_delays (wal_abs l);
                    a_registry := a_registry (wal_abs l) |};
  update_state_law : ∀ e i s l l' m s0, wal_update_state e i s l = (Ok tt, l') →
    a_records (wal_abs l) !! i = Some (m, s0) →
    wal_abs l' = {| a_records := <[i := (m, s)]> (a_records (wal_abs l));
                    a_delays := a_delays (wal_abs l);
                    a_registry := a_registry (wal_abs l) |};
  replay_pending_law : ∀ l l' rs, wal_replay_pending l = (Ok rs, l') →
    wal_abs l' = wal_abs l ∧
    ∀ m, m ∈ message <$> rs ↔ ∃ i, a_records (wal_abs l) !! i = Some (m, Pending);
  flush_law : ∀ l r l', wal_flush l = (r, l') → wal_abs l' = wal_abs l;
  schedule_law : ∀ r l l', wal_schedule r l = (Ok tt, l') →
    wal_abs l' = {| a_records := a_records (wal_abs l);
                    a_delays := <[id (message r) := message r]> (a_delays (wal_abs l));
                    a_registry := a_registry (wal_abs l) |};
  fetch_ready_law : ∀ now l l' rs, wal_fetch_ready now l = (Ok rs, l') →
    message <$> rs ≡ₚ (filter (λ p, due now p.2) (map_to_list (a_delays (wal_abs l)))).*2 ∧
    wal_abs l' = {| a_records := a_records (wal_abs l);
                    a_delays := filter (λ p, ¬ due now p.2) (a_delays (wal_abs l));
                    a_registry := a_registry (wal_abs l) |};
  remove_scheduled_law : ∀ i l l', wal_remove_scheduled i l = (Ok tt, l') →
    wal_abs l' = {| a_records := a_records (wal_abs l);
                    a_delays := delete i (a_delays (wal_abs l));
                    a_registry := a_registry (wal_abs l) |};
  save_registry_law : ∀ reg l l', wal_save_worker_registry reg l = (Ok tt, l') →
    wal_abs l' = {| a_records := a_records (wal_abs l);
                    a_delays := a_delays (wal_abs l);
                    a_registry := reg |};
  load_registry_law : ∀ reg l l', wal_load_worker_registry l = (Ok reg, l') →
    l' = l ∧ reg = a_registry (wal_abs l)
}.

(** ** [MemoryWal] *)

Record MemoryWal : Type := {
  records : gmap string WalRecord;
  delays : gmap string WalRecord;
  worker_registry : gmap string WorkerInfo;
  id_counter : Z
}.

Definition MemoryWal_new : MemoryWal :=
  {| records := ∅; delays := ∅; worker_registry := ∅; id_counter := 0 |}.

Section MemoryWal.
Context `{HashOrder}.

Definition mem_append (r : WalRecord) (w : MemoryWal) : Res unit * MemoryWal :=
  let c := u64_incr (id_counter w) in
  let r := set_record_id c r in
  (Ok tt, {| records := <[id (message r) := r]> (records w); delays := delays w;
             worker_registry := worker_registry w; id_counter := c |}).

(** The record [update_state] makes up for an id it does not know. *)
Definition placeholder (e : WalEnv) (c : Z) (s : WalRecordState) : WalRecord :=
  {| record_id := c;
     message := EMessage_new (we_uuid e) (we_now e) EmptyString [] Standard None;
     status := s; last_attempt_at := None; is_dead_letter := false;
     wr_dead_reason := None |}.

Definition mem_update_state (e : WalEnv) (i : string) (s : WalRecordState)
    (w : MemoryWal) : Res unit * MemoryWal :=
  match records w !! i with
  | Some r =>
      (Ok tt, {| records := <[i := set_record_status s r]> (records w); delays := delays w;
                 worker_registry := worker_registry w; id_counter := id_counter w |})
  | None =>
      let c := u64_incr (id_counter w) in
      (Ok tt, {| records := <[i := placeholder e c s]> (records w); delays := delays w;
                 worker_registry := worker_registry w; id_counter := c |})
  end.

Definition mem_replay_pending (w : MemoryWal) : Res (list WalRecord) * MemoryWal :=
  (Ok (filter (λ r, status r = Pending) (hash_values (records w))), w).

Definition mem_flush (w : MemoryWal) : Res unit * MemoryWal := (Ok tt, w).

Definition mem_schedule (r : WalRecord) (w : MemoryWal) : Res unit * MemoryWal :=
  let c := u64_incr (id_counter w) in
  let r := set_record_id c r in
  (Ok tt, {| records := records w; delays := <[id (message r) := r]> (delays w);
             worker_registry := worker_registry w; id_counter := c |}).

(** One pass over the delay map collects the due records and their ids, a
    second removes those ids. *)
Definition mem_fetch_ready (now : SystemTime) (w : MemoryWal)
    : Res (list WalRecord) * MemoryWal :=
  let hits := filter (λ p, due now (message p.2)) (hash_iter (delays w)) in
  (Ok hits.*2,
   {| records := records w; delays := foldl (λ d i, delete i d) (delays w) hits.*1;
      worker_registry := worker_registry w; id_counter := id_counter w |}).

Definition mem_remove_scheduled (i : string) (w : MemoryWal) : Res unit * MemoryWal :=
  (Ok tt, {| records := records w; delays := delete i (delays w);
             worker_registry := worker_registry w; id_counter := id_counter w |}).

Definition mem_save_worker_registry (reg : gmap string WorkerInfo) (w : MemoryWal)
    : Res unit * MemoryWal :=
  (Ok tt, {| records := records w; delays := delays w;
             worker_registry := reg; id_counter := id_counter w |}).

Definition mem_load_worker_registry (w : MemoryWal)
    : Res (gmap string WorkerInfo) * MemoryWal :=
  (Ok (worker_registry w), w).

#[export] Instance MemoryWal_wal : Wal MemoryWal := {|
  wal_append := mem_append;
  wal_update_state := mem_update_state;
  wal_replay_pending := mem_replay_pending;
  wal_flush := mem_flush;
  wal_schedule := mem_schedule;
  wal_fetch_ready := mem_fetch_ready;
  wal_remove_scheduled := mem_remove_scheduled;
  wal_save_worker_registry := mem_save_worker_registry;
  wal_load_worker_registry := mem_load_worker_registry
|}.

(** *** The contract *)

Definition mem_abs (w : MemoryWal) : WalAbs :=
  {| a_records := rec_abs <$> records w;
     a_delays := message <$> delays w;
     a_registry := worker_registry w |}.

Lemma foldl_delete {V} (ks : list string) (m : gmap string V) i :
  foldl (λ d i, delete i d) m ks !! i = if decide (i ∈ ks) then None else m !! i.
Proof.
  revert m. induction ks as [|k ks IH]; intros m; cbn [foldl].
  - destruct (decide (i ∈ [])) as [Hi|]; [set_solver|done].
  - rewrite IH. destruct (decide (i = k)) as [->|Hne].
    + destruct (decide (k ∈ ks)), (decide (k ∈ k :: ks)); [done|set_solver| |set_solver].
      apply lookup_delete_eq.
    + rewrite lookup_delete_ne by done.
      destruct (decide (i ∈ ks)), (decide (i ∈ k :: ks)); set_solver.
Qed.

(** What [fetch_ready] leaves in the delay map. *)
Lemma mem_fetch_ready_delays now w :
  delays (mem_fetch_ready now w).2 =
  filter (λ p, ¬ due now (message p.2)) (delays w).
Proof.
  apply map_eq. intros i. simpl. rewrite foldl_delete, map_lookup_filter.
  destruct (delays w !! i) as [r|] eqn:Hi; simpl.
  - destruct (decide (due now (message r))) as [Hd|Hd].
    + rewrite decide_True; [by rewrite option_guard_False by naive_solver|].
      apply list_elem_of_fmap. exists (i, r). split; [done|].
      by rewrite list_elem_of_filter, elem_of_hash_iter.
    + rewrite option_guard_True by done. rewrite decide_False; [done|].
      intros Hin. apply list_elem_of_fmap in Hin as [[i' r'] [-> Hin]].
      rewrite list_elem_of_filter, elem_of_hash_iter in Hin. naive_solver.
  - by case_decide.
Qed.

Lemma filter_due_fmap now (d : gmap string WalRecord) :
  message <$> (filter (λ p, due now (message p.2)) (map_to_list d)).*2 =
  (filter (λ p, due now p.2) (map_to_list (message <$> d))).*2.
Proof.
  rewrite map_to_list_fmap. induction (map_to_list d) as [|[k r] l IH]; [done|].
  rewrite fmap_cons, !filter_cons. cbn [prod_map fst snd].
  case_decide; rewrite ?fmap_cons, IH; done.
Qed.

Lemma filter_not_due_fmap now (d : gmap string WalRecord) :
  message <$> filter (λ p, ¬ due now (message p.2)) d =
  filter (λ p, ¬ due now p.2) (message <$> d).
Proof. by rewrite map_filter_fmap. Qed.

#[export] Instance MemoryWal_laws : WalLaws MemoryWal.
Proof.
  refine {| wal_abs := mem_abs |}; simpl.
  - intros r l l' [= <-]. unfold mem_abs; simpl. by rewrite fmap_insert.
  - intros e i s l l' m s0. unfold mem_update_state, mem_abs; simpl.
    rewrite lookup_fmap. destruct (records l !! i) as [r|] eqn:Hi; simpl; [|done].
    intros [= <-] [= <- <-]; simpl. by rewrite fmap_insert.
  - intros l l' rs [= <- <-]. split; [done|]. intros m.
    rewrite list_elem_of_fmap. setoid_rewrite list_elem_of_filter.
    setoid_rewrite elem_of_hash_values. unfold mem_abs; simpl.
    setoid_rewrite lookup_fmap. split.
    + intros (r & -> & Hs & i & Hi). exists i. by rewrite Hi, <- Hs.
    + intros [i Hi]. destruct (records l !! i) as [r|] eqn:Hr; simpl in Hi; [|done].
      injection Hi as <- Hst. exists r. split; [done|]. split; [done|]. by exists i.
  - by intros l r l' [= _ <-].
  - intros r l l' [= <-]. unfold mem_abs; simpl. by rewrite fmap_insert.
  - intros now l l' rs Heq. injection Heq as <- <-. split.
    + rewrite hash_iter_perm. by rewrite filter_due_fmap.
    + pose proof (mem_fetch_ready_delays now l) as Hd. unfold mem_fetch_ready in Hd.
      simpl in Hd. unfold mem_abs; simpl. rewrite Hd. by rewrite filter_not_due_fmap.
  - intros i l l' [= <-]. unfold mem_abs; simpl. by rewrite fmap_delete.
  - by intros reg l l' [= <-].
  - by intros reg l l' [= <- <-].
Defined.
End MemoryWal.
