(* ===== verification/WalTheorems.v ===== *)
(** * Properties of the in-memory WAL

    Trace refinement of the abstract log, uniqueness of the record ids, and
    the exactly-once hand-over of delayed records. *)
From S2P Require Import Prelude Errors Message Wal.

(** ** Trace refinement *)

Inductive WalOp : Type :=
| OpAppend (r : WalRecord)
| OpUpdate (e : WalEnv) (i : string) (s : WalRecordState)
| OpReplay
| OpFlush
| OpSchedule (r : WalRecord)
| OpFetch (now : SystemTime)
| OpRemove (i : string)
| OpSave (reg : gmap string WorkerInfo)
| OpLoad.

(** The abstract log of [MemoryWal]: as the contract says, and an update of
    an unknown id adds an entry for it. *)
Definition abs_step (op : WalOp) (a : WalAbs) : WalAbs :=
  match op with
  | OpAppend r =>
      {| a_records := <[id (message r) := rec_abs r]> (a_records a);
         a_delays := a_delays a; a_registry := a_registry a |}
  | OpUpdate e i s =>
      let m := match a_records a !! i with
               | Some (m, _) => m
               | None => EMessage_new (we_uuid e) (we_now e) EmptyString [] Standard None
               end in
      {| a_records := <[i := (m, s)]> (a_records a);
         a_delays := a_delays a; a_registry := a_registry a |}
  | OpSchedule r =>
      {| a_records := a_records a;
         a_delays := <[id (message r) := message r]> (a_delays a);
         a_registry := a_registry a |}
  | OpFetch now =>
      {| a_records := a_records a;
         a_delays := filter (λ p, ¬ due now p.2) (a_delays a);
         a_registry := a_registry a |}
  | OpRemove i =>
      {| a_records := a_records a; a_delays := delete i (a_delays a);
         a_registry := a_registry a |}
  | OpSave reg =>
      {| a_records := a_records a; a_delays := a_delays a; a_registry := reg |}
  | OpReplay | OpFlush | OpLoad => a
  end.

Definition abs_exec (ops : list WalOp) (a : WalAbs) : WalAbs := foldl (flip abs_step) a ops.

Definition abs_empty : WalAbs := {| a_records := ∅; a_delays := ∅; a_registry := ∅ |}.

Section theorems.
Context `{HashOrder}.

Definition mem_step (op : WalOp) (w : MemoryWal) : MemoryWal :=
  match op with
  | OpAppend r => (mem_append r w).2
  | OpUpdate e i s => (mem_update_state e i s w).2
  | OpReplay => (mem_replay_pending w).2
  | OpFlush => (mem_flush w).2
  | OpSchedule r => (mem_schedule r w).2
  | OpFetch now => (mem_fetch_ready now w).2
  | OpRemove i => (mem_remove_scheduled i w).2
  | OpSave reg => (mem_save_worker_registry reg w).2
  | OpLoad => (mem_load_worker_registry w).2
  end.

Definition mem_exec (ops : list WalOp) (w : MemoryWal) : MemoryWal :=
  foldl (flip mem_step) w ops.

Lemma mem_step_abs op w : mem_abs (mem_step op w) = abs_step op (mem_abs w).
Proof.
  destruct op as [r|e i s| | |r|now|i|reg|]; try done.
  - exact (append_law (L := MemoryWal) r w _ eq_refl).
  - simpl. unfold mem_update_state, mem_abs; simpl. rewrite lookup_fmap.
    destruct (records w !! i) as [r|]; simpl; by rewrite fmap_insert.
  - exact (schedule_law (L := MemoryWal) r w _ eq_refl).
  - exact (proj2 (fetch_ready_law (L := MemoryWal) now w _ _ eq_refl)).
  - exact (remove_scheduled_law (L := MemoryWal) i w _ eq_refl).
Qed.

Lemma mem_exec_abs ops w : mem_abs (mem_exec ops w) = abs_exec ops (mem_abs w).
Proof.
  revert w. induction ops as [|op ops IH]; intros w; simpl; [done|].
  unfold mem_exec, abs_exec in IH. unfold mem_exec, abs_exec; simpl.
  by rewrite IH, mem_step_abs.
Qed.

(** *** Answers *)

Inductive WalAnswer : Type :=
| AUnit (r : Res unit)
| ARecords (r : Res (list WalRecord))
| ARegistry (r : Res (gmap string WorkerInfo)).

Definition mem_answer (op : WalOp) (w : MemoryWal) : WalAnswer :=
  match op with
  | OpAppend r => AUnit (mem_append r w).1
  | OpUpdate e i s => AUnit (mem_update_state e i s w).1
  | OpReplay => ARecords (mem_replay_pending w).1
  | OpFlush => AUnit (mem_flush w).1
  | OpSchedule r => AUnit (mem_schedule r w).1
  | OpFetch now => ARecords (mem_fetch_ready now w).1
  | OpRemove i => AUnit (mem_remove_scheduled i w).1
  | OpSave reg => AUnit (mem_save_worker_registry reg w).1
  | OpLoad => ARegistry (mem_load_worker_registry w).1
  end.

Fixpoint mem_answers (ops : list WalOp) (w : MemoryWal) : list WalAnswer :=
  match ops with
  | [] => []
  | op :: ops => mem_answer op w :: mem_answers ops (mem_step op w)
  end.

(** The messages the log holds as pending, and those that are due. *)
Definition pending_messages (a : WalAbs) : list EMessage :=
  (filter (λ p, p.2 = Pending) (map_to_list (a_records a)).*2).*1.
Definition due_messages (now : SystemTime) (a : WalAbs) : list EMessage :=
  (filter (λ p, due now p.2) (map_to_list (a_delays a))).*2.

(** The trait as it is documented: what an operation answers and what the log
    is afterwards.  An update of an unknown message is an error.  (An appended
    record keeps the state it comes with, which [WalRecord::from_msg] makes
    [Pending].) *)
Definition log_step (op : WalOp) (a : WalAbs) (x : WalAnswer) (a' : WalAbs) : Prop :=
  match op with
  | OpUpdate _ i _ =>
      match a_records a !! i with
      | Some _ => x = AUnit (Ok tt) ∧ a' = abs_step op a
      | None => (∃ e, x = AUnit (Err e)) ∧ a' = a
      end
  | OpReplay => a' = a ∧ ∃ rs, x = ARecords (Ok rs) ∧
      message <$> rs ≡ₚ pending_messages a ∧ Forall (λ r, status r = Pending) rs
  | OpFetch now => a' = abs_step op a ∧ ∃ rs, x = ARecords (Ok rs) ∧
      message <$> rs ≡ₚ due_messages now a
  | OpLoad => a' = a ∧ x = ARegistry (Ok (a_registry a))
  | OpAppend _ | OpFlush | OpSchedule _ | OpRemove _ | OpSave _ =>
      x = AUnit (Ok tt) ∧ a' = abs_step op a
  end.

(** Where [MemoryWal] departs from it: such an update is answered with [Ok]
    and adds an entry. *)
Definition placeholder_step (op : WalOp) (a : WalAbs) (x : WalAnswer) (a' : WalAbs) : Prop :=
  match op with
  | OpUpdate _ i _ => a_records a !! i = None ∧ x = AUnit (Ok tt) ∧ a' = abs_step op a
  | _ => False
  end.

(** A run of operations with its answers. *)
Fixpoint log_run (step : WalOp → WalAbs → WalAnswer → WalAbs → Prop) (ops : list WalOp)
    (a : WalAbs) (xs : list WalAnswer) (a' : WalAbs) : Prop :=
  match ops, xs with
  | [], [] => a' = a
  | op :: ops, x :: xs => ∃ a1, step op a x a1 ∧ log_run step ops a1 xs a'
  | _, _ => False
  end.

Lemma pending_answered w :
  message <$> filter (λ r, status r = Pending) (hash_values (records w)) ≡ₚ
  pending_messages (mem_abs w).
Proof.
  unfold pending_messages, mem_abs, hash_values. simpl.
  rewrite hash_iter_perm, map_to_list_fmap. apply reflexive_eq.
  induction (map_to_list (records w)) as [|[k r] l IH]; [done|].
  rewrite !fmap_cons, !filter_cons. cbn [prod_map fst snd rec_abs].
  case_decide; rewrite ?fmap_cons, IH; done.
Qed.

Lemma mem_step_answers op w :
  log_step op (mem_abs w) (mem_answer op w) (mem_abs (mem_step op w)) ∨
  placeholder_step op (mem_abs w) (mem_answer op w) (mem_abs (mem_step op w)).
Proof.
  rewrite mem_step_abs. destruct op as [r|e i s| | |r|now|i|reg|]; try (left; by split).
  - assert ((mem_update_state e i s w).1 = Ok tt) as Hx
      by (unfold mem_update_state; by destruct (records w !! i)).
    cbn [log_step placeholder_step mem_answer]. rewrite Hx.
    destruct (a_records (mem_abs w) !! i) eqn:Hi; [by left|by right].
  - left. split; [done|]. eexists. split; [reflexivity|]. split; [apply pending_answered|].
    apply Forall_forall. intros r Hr. by apply list_elem_of_filter in Hr as [? _].
  - left. split; [done|]. eexists. split; [reflexivity|].
    exact (proj1 (fetch_ready_law (L := MemoryWal) now w _ _ eq_refl)).
Qed.


(** ** Record ids *)

Definition slot (w : MemoryWal) (b : bool) (i : string) : option WalRecord :=
  if b then records w !! i else delays w !! i.

(** Every stored record has an id handed out by the counter, and no two
    records share one. *)
Definition ids_ok (w : MemoryWal) : Prop :=
  (∀ b i r, slot w b i = Some r → 1 ≤ record_id r ≤ id_counter w) ∧
  (∀ b i r b' i' r', slot w b i = Some r → slot w b' i' = Some r' →
     record_id r = record_id r' → b = b' ∧ i = i') ∧
  0 ≤ id_counter w.

Lemma ids_ok_insert w w' b i r :
  ids_ok w → id_counter w' = id_counter w + 1 → record_id r = id_counter w' →
  (∀ b' i', slot w' b' i' =
     if decide (b' = b ∧ i' = i) then Some r else slot w b' i') →
  ids_ok w'.
Proof.
  intros (Hr & Hu & Hc) Hc' Hid Hs. split; [|split; [|lia]].
  - intros b1 i1 r1. rewrite Hs. case_decide; [intros [= <-]; lia|].
    intros Hl. specialize (Hr _ _ _ Hl). lia.
  - intros b1 i1 r1 b2 i2 r2. rewrite !Hs.
    do 2 case_decide; intros E1 E2 Heq; simplify_eq; destruct_and?; subst; eauto.
    + specialize (Hr _ _ _ E2). lia.
    + specialize (Hr _ _ _ E1). lia.
Qed.

Lemma ids_ok_sub w w' :
  ids_ok w → id_counter w' = id_counter w →
  (∀ b i r', slot w' b i = Some r' → ∃ r, slot w b i = Some r ∧ record_id r = record_id r') →
  ids_ok w'.
Proof.
  intros (Hr & Hu & Hc) Hc' Hs. split; [|split; [|lia]].
  - intros b i r' Hl. destruct (Hs _ _ _ Hl) as (r & Hr1 & <-). rewrite Hc'. eauto.
  - intros b i r b' i' r' H1 H2 Heq.
    destruct (Hs _ _ _ H1) as (r1 & ? & E1), (Hs _ _ _ H2) as (r2 & ? & E2).
    apply (Hu b i r1 b' i' r2); [done..|congruence].
Qed.

Lemma slot_insert_records w r c i b' i' :
  slot {| records := <[i := r]> (records w); delays := delays w;
          worker_registry := worker_registry w; id_counter := c |} b' i' =
  if decide (b' = true ∧ i' = i) then Some r else slot w b' i'.
Proof.
  case_decide as Hd; [destruct Hd as [-> ->]; simpl; by rewrite lookup_insert_eq|].
  destruct b'; cbn [slot records delays]; [|done].
  by rewrite lookup_insert_ne by naive_solver.
Qed.

Lemma slot_insert_delays w r c i b' i' :
  slot {| records := records w; delays := <[i := r]> (delays w);
          worker_registry := worker_registry w; id_counter := c |} b' i' =
  if decide (b' = false ∧ i' = i) then Some r else slot w b' i'.
Proof.
  case_decide as Hd; [destruct Hd as [-> ->]; simpl; by rewrite lookup_insert_eq|].
  destruct b'; cbn [slot records delays]; [done|].
  by rewrite lookup_insert_ne by naive_solver.
Qed.

Lemma mem_step_ids op w :
  ids_ok w → id_counter w + 1 < u64_modulus → ids_ok (mem_step op w).
Proof.
  intros Hok Hlt. assert (u64_incr (id_counter w) = id_counter w + 1) as Hc.
  { apply u64_incr_small; [by destruct Hok as (_ & _ & ?)|done]. }
  destruct op as [r|e i s| | |r|now|i|reg|]; try done.
  - eapply (ids_ok_insert w); [done|simpl; exact Hc| |apply slot_insert_records]; reflexivity.
  - simpl. unfold mem_update_state. destruct (records w !! i) as [r|] eqn:Hi; simpl.
    + apply (ids_ok_sub w); [done|done|]. intros b j r'. rewrite slot_insert_records.
      case_decide as Hd; [|by eauto]. destruct Hd as [-> ->]. intros [= <-]. by exists r.
    + eapply (ids_ok_insert w); [done|simpl; exact Hc| |apply slot_insert_records]; reflexivity.
  - eapply (ids_ok_insert w); [done|simpl; exact Hc| |apply slot_insert_delays]; reflexivity.
  - apply (ids_ok_sub w); [done|done|]. intros [] j r'; cbn [slot]; [by eauto|].
    cbn [mem_step]. rewrite mem_fetch_ready_delays, map_lookup_filter_Some. naive_solver.
  - apply (ids_ok_sub w); [done|done|]. intros [] j r'; simpl; [by eauto|].
    rewrite lookup_delete_Some. naive_solver.
Qed.

Lemma mem_step_counter op w :
  0 ≤ id_counter w → id_counter w + 1 < u64_modulus →
  id_counter w ≤ id_counter (mem_step op w) ≤ id_counter w + 1.
Proof.
  intros H0 Hlt. pose proof (u64_incr_small _ H0 Hlt).
  destruct op as [r|e i s| | |r|now|i|reg|]; simpl; try lia.
  unfold mem_update_state. destruct (records w !! i); simpl; lia.
Qed.

Lemma mem_exec_ids ops w :
  ids_ok w → id_counter w + Z.of_nat (length ops) < u64_modulus →
  ids_ok (mem_exec ops w).
Proof.
  revert w. induction ops as [|op ops IH]; intros w Hok Hlt; [done|].
  cbn [length] in Hlt. unfold mem_exec. simpl. apply IH.
  - apply mem_step_ids; [done|lia].
  - pose proof (mem_step_counter op w). destruct Hok as (_ & _ & ?). lia.
Qed.

(** In a WAL that has served any sequence of fewer than 2^64
    operations, every stored or delayed record carries an id between 1 and
    the counter, and two different entries never carry the same one. *)
Theorem memory_wal_record_ids_unique ops :
  Z.of_nat (length ops) < u64_modulus → ids_ok (mem_exec ops MemoryWal_new).
Proof.
  intros Hlt. apply mem_exec_ids; [|simpl; lia]. split; [|split; [|done]].
  - intros [] i r; simpl; by rewrite lookup_empty.
  - intros [] i r b' i' r'; simpl; by rewrite lookup_empty.
Qed.

(** ** Delayed records *)

(** [rs] was split off the delayed records of [w] at [now], leaving [w']. *)
Definition splits_due (now : SystemTime) (w : MemoryWal) (rs : list WalRecord) (w' : MemoryWal)
    : Prop :=
  rs ++ (map_to_list (delays w')).*2 ≡ₚ (map_to_list (delays w)).*2 ∧
  Forall (λ r, due now (message r)) rs ∧
  (∀ i r, delays w' !! i = Some r → ¬ due now (message r)).

(** [fetch_ready] hands over exactly the due records, each once: what
    it returns and what it leaves are together the delayed records there
    were, everything returned is due, nothing left is, and the next call
    at the same time returns nothing. *)
Theorem fetch_ready_exactly_once now w :
  ∃ rs w', mem_fetch_ready now w = (Ok rs, w') ∧ splits_due now w rs w' ∧
    (mem_fetch_ready now w').1 = Ok [].
Proof.
  eexists _, _. split; [reflexivity|].
  pose proof (mem_fetch_ready_delays now w) as Hd. unfold mem_fetch_ready in Hd.
  simpl in Hd. rewrite Hd. unfold splits_due. rewrite <- !(assoc and). split; [|split; [|split]].
  - cbn [delays]. rewrite map_to_list_filter, hash_iter_perm, <- fmap_app.
    by rewrite filter_app_complement.
  - apply Forall_fmap, Forall_forall. intros p Hp.
    rewrite list_elem_of_filter in Hp. by destruct Hp.
  - intros i r. cbn [delays]. rewrite map_lookup_filter_Some. naive_solver.
  - simpl. rewrite filter_none; [done|]. intros [k r].
    rewrite elem_of_hash_iter, map_lookup_filter_Some. naive_solver.
Qed.
End theorems.
