(* ===== verification/TestSupport.v ===== *)
(** * Test doubles: [event_base_test/src/support.rs]

    The recording producer and the recording WAL the tests put in place of
    the real ones.  What the tests conclude holds of the real ones as far as
    the doubles behave alike: the recording WAL satisfies the contract of the
    trait, and differs from [MemoryWal] on an update of an unknown record and
    in the numbers it gives to records. *)
From S2P Require Import Prelude Errors Message Wal WalTheorems.

(** ** [RecordingProducer] *)

Record RecordingProducer : Type := {
  rp_sent : list EMessage;
  rp_try_sent : list EMessage;
  rp_timeout_sent : list (EMessage * Duration)
}.

Definition RecordingProducer_new : RecordingProducer :=
  {| rp_sent := []; rp_try_sent := []; rp_timeout_sent := [] |}.

Definition rp_send (m : EMessage) (p : RecordingProducer) : Res unit * RecordingProducer :=
  (Ok tt, {| rp_sent := rp_sent p ++ [m]; rp_try_sent := rp_try_sent p;
             rp_timeout_sent := rp_timeout_sent p |}).
Definition rp_try_send (m : EMessage) (p : RecordingProducer) : Res unit * RecordingProducer :=
  (Ok tt, {| rp_sent := rp_sent p; rp_try_sent := rp_try_sent p ++ [m];
             rp_timeout_sent := rp_timeout_sent p |}).
Definition rp_send_timeout (m : EMessage) (d : Duration) (p : RecordingProducer)
    : Res unit * RecordingProducer :=
  (Ok tt, {| rp_sent := rp_sent p; rp_try_sent := rp_try_sent p;
             rp_timeout_sent := rp_timeout_sent p ++ [(m, d)] |}).

(** ** [RecordingWal] *)

Record RecordingWal : Type := {
  rw_pending : gmap string WalRecord;
  rw_scheduled : gmap string WalRecord;
  rw_workers : gmap string WorkerInfo
}.

Definition RecordingWal_new : RecordingWal :=
  {| rw_pending := ∅; rw_scheduled := ∅; rw_workers := ∅ |}.

Definition seed_pending (r : WalRecord) (w : RecordingWal) : RecordingWal :=
  {| rw_pending := <[id (message r) := r]> (rw_pending w); rw_scheduled := rw_scheduled w;
     rw_workers := rw_workers w |}.
Definition seed_worker_registry (reg : gmap string WorkerInfo) (w : RecordingWal) : RecordingWal :=
  {| rw_pending := rw_pending w; rw_scheduled := rw_scheduled w; rw_workers := reg |}.

Section RecordingWal.
Context `{HashOrder}.

Definition pending_records (w : RecordingWal) : list WalRecord := hash_values (rw_pending w).
Definition scheduled_records (w : RecordingWal) : list WalRecord := hash_values (rw_scheduled w).

(** [record.record_id = pending.len() as u64 + 1]. *)
Definition rec_append (r : WalRecord) (w : RecordingWal) : Res unit * RecordingWal :=
  let r := set_record_id (u64_incr (Z.of_nat (size (rw_pending w)))) r in
  (Ok tt, {| rw_pending := <[id (message r) := r]> (rw_pending w);
             rw_scheduled := rw_scheduled w; rw_workers := rw_workers w |}).

Definition rec_update_state (e : WalEnv) (i : string) (s : WalRecordState) (w : RecordingWal)
    : Res unit * RecordingWal :=
  match rw_pending w !! i with
  | Some r =>
      (Ok tt, {| rw_pending := <[i := set_record_status s r]> (rw_pending w);
                 rw_scheduled := rw_scheduled w; rw_workers := rw_workers w |})
  | None => (Err (EWal (RecordNotFound i)), w)
  end.

Definition rec_replay_pending (w : RecordingWal) : Res (list WalRecord) * RecordingWal :=
  (Ok (filter (λ r, status r = Pending) (hash_values (rw_pending w))), w).

Definition rec_flush (w : RecordingWal) : Res unit * RecordingWal := (Ok tt, w).

Definition rec_schedule (r : WalRecord) (w : RecordingWal) : Res unit * RecordingWal :=
  let r := set_record_id (u64_incr (Z.of_nat (size (rw_scheduled w)))) r in
  (Ok tt, {| rw_pending := rw_pending w;
             rw_scheduled := <[id (message r) := r]> (rw_scheduled w); rw_workers := rw_workers w |}).

(** [for id in ready_ids { if let Some(record) = scheduled.remove(&id) { ready.push(record) } }]. *)
Fixpoint take_ready (ids : list string) (d : gmap string WalRecord)
    : list WalRecord * gmap string WalRecord :=
  match ids with
  | [] => ([], d)
  | i :: ids =>
      match d !! i with
      | Some r => let '(rs, d') := take_ready ids (delete i d) in (r :: rs, d')
      | None => take_ready ids d
      end
  end.

Definition rec_fetch_ready (now : SystemTime) (w : RecordingWal)
    : Res (list WalRecord) * RecordingWal :=
  let ids := (filter (λ p, due now (message p.2)) (hash_iter (rw_scheduled w))).*1 in
  let '(ready, d) := take_ready ids (rw_scheduled w) in
  (Ok ready, {| rw_pending := rw_pending w; rw_scheduled := d; rw_workers := rw_workers w |}).

Definition rec_remove_scheduled (i : string) (w : RecordingWal) : Res unit * RecordingWal :=
  (Ok tt, {| rw_pending := rw_pending w; rw_scheduled := delete i (rw_scheduled w);
             rw_workers := rw_workers w |}).

Definition rec_save_worker_registry (reg : gmap string WorkerInfo) (w : RecordingWal)
    : Res unit * RecordingWal := (Ok tt, seed_worker_registry reg w).

Definition rec_load_worker_registry (w : RecordingWal)
    : Res (gmap string WorkerInfo) * RecordingWal := (Ok (rw_workers w), w).

#[export] Instance RecordingWal_wal : Wal RecordingWal := {|
  wal_append := rec_append;
  wal_update_state := rec_update_state;
  wal_replay_pending := rec_replay_pending;
  wal_flush := rec_flush;
  wal_schedule := rec_schedule;
  wal_fetch_ready := rec_fetch_ready;
  wal_remove_scheduled := rec_remove_scheduled;
  wal_save_worker_registry := rec_save_worker_registry;
  wal_load_worker_registry := rec_load_worker_registry
|}.

(** *** The contract *)

Definition recording_abs (w : RecordingWal) : WalAbs :=
  {| a_records := rec_abs <$> rw_pending w;
     a_delays := message <$> rw_scheduled w;
     a_registry := rw_workers w |}.

(** Taking the records of a duplicate-free list of keys that are there. *)
Lemma take_ready_spec (hits : list (string * WalRecord)) (d : gmap string WalRecord) :
  NoDup hits.*1 → (∀ i r, (i, r) ∈ hits → d !! i = Some r) →
  take_ready hits.*1 d = (hits.*2, foldl (λ d i, delete i d) d hits.*1).
Proof.
  revert d. induction hits as [|[i r] hits IH]; intros d Hnd Hin; [done|].
  apply NoDup_cons in Hnd as [Hi Hnd]. csimpl.
  rewrite (Hin i r) by left. rewrite IH; [done|done|].
  intros j r' Hj. rewrite lookup_delete_ne; [apply Hin; by right|].
  intros ->. apply Hi. apply list_elem_of_fmap. by exists (j, r').
Qed.

(** The two loops of [fetch_ready] do what [MemoryWal]'s two passes do. *)
Lemma rec_fetch_ready_eq now w :
  rec_fetch_ready now w =
    let hits := filter (λ p, due now (message p.2)) (hash_iter (rw_scheduled w)) in
    (Ok hits.*2, {| rw_pending := rw_pending w;
                    rw_scheduled := foldl (λ d i, delete i d) (rw_scheduled w) hits.*1;
                    rw_workers := rw_workers w |}).
Proof.
  unfold rec_fetch_ready. cbv zeta. rewrite take_ready_spec; [done|..].
  - eapply sublist_NoDup; [|apply fmap_sublist, sublist_filter].
    rewrite hash_iter_perm. apply NoDup_fst_map_to_list.
  - intros i r [_ Hi]%list_elem_of_filter. by apply elem_of_hash_iter.
Qed.

(** The part of the state [MemoryWal] has too. *)
Definition as_memory (w : RecordingWal) : MemoryWal :=
  {| records := rw_pending w; delays := rw_scheduled w; worker_registry := rw_workers w;
     id_counter := 0 |}.

Lemma recording_abs_memory w : recording_abs w = mem_abs (as_memory w).
Proof. done. Qed.

#[export] Instance RecordingWal_laws : WalLaws RecordingWal.
Proof.
  refine {| wal_abs := recording_abs |}; cbn [wal_append wal_update_state wal_replay_pending wal_flush
    wal_schedule wal_fetch_ready wal_remove_scheduled wal_save_worker_registry
    wal_load_worker_registry RecordingWal_wal].
  - intros r l l' [= <-]. unfold recording_abs; simpl. by rewrite fmap_insert.
  - intros e i s l l' m s0. unfold rec_update_state, recording_abs; simpl.
    rewrite lookup_fmap. destruct (rw_pending l !! i) as [r|] eqn:Hi; simpl; [|done].
    intros [= <-] [= <- <-]; simpl. by rewrite fmap_insert.
  - intros l l' rs [= <- <-].
    split; [done|]. by refine (proj2 (replay_pending_law (L := MemoryWal) (as_memory l) (as_memory l) _ _)).
  - by intros l r l' [= _ <-].
  - intros r l l' [= <-]. unfold recording_abs; simpl. by rewrite fmap_insert.
  - intros now l l' rs Heq. rewrite rec_fetch_ready_eq in Heq. injection Heq as <- <-.
    exact (fetch_ready_law (L := MemoryWal) now (as_memory l) _ _ eq_refl).
  - intros i l l' [= <-]. unfold recording_abs; simpl. by rewrite fmap_delete.
  - by intros reg l l' [= <-].
  - by intros reg l l' [= <- <-].
Defined.

(** ** The double against the real one *)

Definition rec_step (op : WalOp) (w : RecordingWal) : RecordingWal :=
  match op with
  | OpAppend r => (rec_append r w).2
  | OpUpdate e i s => (rec_update_state e i s w).2
  | OpReplay => (rec_replay_pending w).2
  | OpFlush => (rec_flush w).2
  | OpSchedule r => (rec_schedule r w).2
  | OpFetch now => (rec_fetch_ready now w).2
  | OpRemove i => (rec_remove_scheduled i w).2
  | OpSave reg => (rec_save_worker_registry reg w).2
  | OpLoad => (rec_load_worker_registry w).2
  end.
Definition rec_exec (ops : list WalOp) (w : RecordingWal) : RecordingWal := foldl (flip rec_step) w ops.

(** Every update is of a record that was appended before. *)
Fixpoint updates_known (ops : list WalOp) (a : WalAbs) : bool :=
  match ops with
  | [] => true
  | op :: ops =>
      match op with OpUpdate _ i _ => bool_decide (is_Some (a_records a !! i)) | _ => true end &&
      updates_known ops (abs_step op a)
  end.

Lemma rec_step_abs op w :
  updates_known [op] (recording_abs w) = true →
  recording_abs (rec_step op w) = abs_step op (recording_abs w).
Proof.
  destruct op as [r|e i s| | |r|now|i|reg|]; intros Hk; try done.
  - exact (append_law (L := RecordingWal) r w _ eq_refl).
  - simpl in *. rewrite andb_true_r, bool_decide_eq_true, lookup_fmap in Hk.
    unfold rec_update_state, recording_abs. simpl. rewrite lookup_fmap.
    destruct (rw_pending w !! i) as [r|]; [|by destruct Hk]. simpl. by rewrite fmap_insert.
  - exact (schedule_law (L := RecordingWal) r w _ eq_refl).
  - simpl. rewrite rec_fetch_ready_eq.
    exact (proj2 (fetch_ready_law (L := MemoryWal) now (as_memory w) _ _ eq_refl)).
  - exact (remove_scheduled_law (L := RecordingWal) i w _ eq_refl).
Qed.

Lemma rec_exec_abs ops w :
  updates_known ops (recording_abs w) = true →
  recording_abs (rec_exec ops w) = abs_exec ops (recording_abs w).
Proof.
  revert w. induction ops as [|op ops IH]; intros w Hk; simpl; [done|].
  cbn [updates_known] in Hk. apply andb_true_iff in Hk as [Hop Hk].
  assert (recording_abs (rec_step op w) = abs_step op (recording_abs w)) as Hs.
  { apply rec_step_abs. cbn [updates_known]. by rewrite Hop. }
  unfold rec_exec, abs_exec in *. simpl. rewrite IH by by rewrite Hs. by rewrite Hs.
Qed.

(** C39. The double stands for the real WAL: after any sequence of operations that
    updates only records it appended before, [RecordingWal] and [MemoryWal]
    have the same records in the same states, the same delayed messages and
    the same worker registry.  An update of another id is where they part:
    the double reports [RecordNotFound] and stays as it was, [MemoryWal]
    returns [Ok] and keeps a new record under that id. *)
Theorem recording_wal_simulates_memory_wal ops :
  updates_known ops abs_empty = true →
  recording_abs (rec_exec ops RecordingWal_new) = mem_abs (mem_exec ops MemoryWal_new) ∧
  ∀ e i s, a_records (recording_abs (rec_exec ops RecordingWal_new)) !! i = None →
    rec_update_state e i s (rec_exec ops RecordingWal_new) =
      (Err (EWal (RecordNotFound i)), rec_exec ops RecordingWal_new) ∧
    (mem_update_state e i s (mem_exec ops MemoryWal_new)).1 = Ok tt ∧
    is_Some (a_records (mem_abs (mem_update_state e i s (mem_exec ops MemoryWal_new)).2) !! i).
Proof.
  intros Hk. assert (recording_abs (rec_exec ops RecordingWal_new) =
    mem_abs (mem_exec ops MemoryWal_new)) as Hsame.
  { rewrite mem_exec_abs, rec_exec_abs; [done|]. exact Hk. }
  split; [exact Hsame|]. intros e i s Hno. split.
  - unfold rec_update_state. simpl in Hno. rewrite lookup_fmap in Hno.
    by destruct (rw_pending _ !! i).
  - rewrite Hsame in Hno. simpl in Hno. rewrite lookup_fmap in Hno. unfold mem_update_state.
    destruct (records _ !! i); [done|]. simpl. split; [done|].
    rewrite lookup_fmap, lookup_insert_eq. by eexists.
Qed.

(** The numbers of the double are not unique: a second append of the same
    message makes the next record share its number. *)
Theorem recording_wal_numbers_repeat r r' :
  id (message r) ≠ id (message r') →
  let w := rec_exec [OpAppend r; OpAppend r; OpAppend r'] RecordingWal_new in
  record_id <$> rw_pending w !! id (message r) = record_id <$> rw_pending w !! id (message r').
Proof.
  intros Hne. unfold rec_exec. simpl.
  rewrite lookup_insert_ne by done. rewrite !lookup_insert_eq. simpl.
  by rewrite insert_insert_eq, !map_size_insert_None, map_size_empty by done.
Qed.
End RecordingWal.

(** ** The hypotheses can hold *)

Open Scope string_scope.

Definition demo_record (i : string) : WalRecord :=
  WalRecord_from_msg (EMessage_new i 1 "orders" [1] Standard None).

Definition demo_ops : list WalOp :=
  [OpAppend (demo_record "a"); OpUpdate {| we_uuid := "u"; we_now := 2 |} "a" Complete;
   OpSchedule (demo_record "b"); OpFetch 5].

#[local] Existing Instance list_order.

Lemma recording_wal_simulates_memory_wal_witness :
  recording_abs (rec_exec demo_ops RecordingWal_new) = mem_abs (mem_exec demo_ops MemoryWal_new) ∧
  rec_update_state {| we_uuid := "u"; we_now := 9 |} "b" Complete (rec_exec demo_ops RecordingWal_new)
    = (Err (EWal (RecordNotFound "b")), rec_exec demo_ops RecordingWal_new).
Proof.
  destruct (recording_wal_simulates_memory_wal demo_ops eq_refl) as [Hs Hu]. split; [exact Hs|].
  refine (proj1 (Hu {| we_uuid := "u"; we_now := 9 |} "b" Complete _)). reflexivity.
Defined.

Lemma recording_wal_numbers_repeat_witness :
  let w := rec_exec [OpAppend (demo_record "a"); OpAppend (demo_record "a");
                     OpAppend (demo_record "b")] RecordingWal_new in
  record_id <$> rw_pending w !! "a" = record_id <$> rw_pending w !! "b".
Proof. apply (recording_wal_numbers_repeat (demo_record "a") (demo_record "b")). discriminate. Defined.

Close Scope string_scope.
