(* ===== verification/PersistentWal.v ===== *)
(** * The file-backed WAL: [event_base_wal/src/persistent.rs]

    [PersistentWal] keeps the maps of the in-memory WAL and writes them to a
    file on [flush], through a temporary file and a rename; [new] loads them.
    The file system is a parameter with the documented effects of [write] and
    [rename]; [Doomed] is the same file system under a process that crashes in
    one of its commands. *)
From Stdlib Require Import Ascii.
From S2P Require Import Prelude Errors Message Codec Wal.

(** ** Paths and the file system *)

(** [PathBuf::from(p).with_extension("tmp")] for a path that ends in a file
    name: the part of the last component after its last dot is replaced (a
    leading dot does not start an extension). *)
Fixpoint cut_ext (rev_name : list Ascii.ascii) : option (list Ascii.ascii) :=
  match rev_name with
  | [] => None
  | c :: r =>
      if decide (c = "."%char) then
        match r with
        | [] => None
        | c' :: _ => if decide (c' = "/"%char) then None else Some r
        end
      else if decide (c = "/"%char) then None
      else cut_ext r
  end.

Definition with_extension_tmp (p : string) : string :=
  let l := reverse (String.list_ascii_of_string p) in
  let stem := match cut_ext l with Some r => r | None => l end in
  String.string_of_list_ascii (reverse stem) +:+ ".tmp"%string.

Class FileSys (F : Type) : Type := {
  fs_files : F → gmap string bytes;
  fs_try_exists : string → F → result bool string;
  fs_read : string → F → result bytes string;
  fs_write : string → bytes → F → result unit string * F;
  fs_rename : string → string → F → result unit string * F
}.

(** What the code relies on: an existing file is reported and read back; a
    write that succeeds replaces one file, one that fails touches no other;
    a rename that succeeds moves the file, one that fails changes nothing. *)
Class FileSysLaws (F : Type) `{FileSys F} : Prop := {
  exists_law : ∀ p f b, fs_try_exists p f = Ok b → b = bool_decide (is_Some (fs_files f !! p));
  read_law : ∀ p f b, fs_read p f = Ok b → fs_files f !! p = Some b;
  write_ok_law : ∀ p b f f', fs_write p b f = (Ok tt, f') →
    fs_files f' = <[p := b]> (fs_files f);
  write_err_law : ∀ p b f f' e q, fs_write p b f = (Err e, f') → q ≠ p →
    fs_files f' !! q = fs_files f !! q;
  rename_ok_law : ∀ p q f f' b, fs_rename p q f = (Ok tt, f') →
    fs_files f !! p = Some b →
    fs_files f' = <[q := b]> (delete p (fs_files f));
  rename_err_law : ∀ p q f f' e, fs_rename p q f = (Err e, f') → fs_files f' = fs_files f
}.

(** A process that dies inside a command: what the command leaves on the disk.
    A write that is cut off touches no other file; a rename that is cut off
    was made or was not.  (The machine stays up: nothing is said of a loss of
    power, against which the code does not call [fsync].) *)
Class Crashes (F : Type) : Type := {
  cut_write : string → bytes → F → F;
  cut_rename : string → string → F → F
}.

Class CrashLaws (F : Type) `{FileSys F, Crashes F} : Prop := {
  cut_write_law : ∀ p b f q, q ≠ p → fs_files (cut_write p b f) !! q = fs_files f !! q;
  cut_rename_law : ∀ p q f,
    fs_files (cut_rename p q f) = fs_files f ∨
    ∃ b, fs_files f !! p = Some b ∧
      fs_files (cut_rename p q f) = <[q := b]> (delete p (fs_files f))
}.

(** A disk under a process with so many commands to live ([None]: it is
    dead and sends no more). *)
Record Doomed (F : Type) : Type := Doom { dm_left : option nat; dm_disk : F }.
Arguments Doom {F} _ _.
Arguments dm_left {F} _.
Arguments dm_disk {F} _.

Definition doomed {F} (cut : F → F) (cmd : F → result unit string * F) (d : Doomed F)
    : result unit string * Doomed F :=
  match dm_left d with
  | None => (Err "crashed"%string, d)
  | Some 0%nat => (Err "crashed"%string, Doom None (cut (dm_disk d)))
  | Some (S n) => let '(r, f) := cmd (dm_disk d) in (r, Doom (Some n) f)
  end.

#[export] Instance doomed_fs {F} `{FileSys F, Crashes F} : FileSys (Doomed F) := {|
  fs_files d := fs_files (dm_disk d);
  fs_try_exists p d := fs_try_exists p (dm_disk d);
  fs_read p d := fs_read p (dm_disk d);
  fs_write p b := doomed (cut_write p b) (fs_write p b);
  fs_rename p q := doomed (cut_rename p q) (fs_rename p q)
|}.

(** ** The WAL *)

(** [WalStore], the serialised form, has the fields of [MemoryWal]. *)
Abbreviation WalStore := MemoryWal.

Record PersistentWal : Type := {
  p_maps : MemoryWal;
  file_path : string
}.

Definition with_maps (p : PersistentWal) (w : MemoryWal) : PersistentWal :=
  {| p_maps := w; file_path := file_path p |}.

Section PersistentWal.
Context {F : Type} `{FileSys F} `{HashOrder} `{Bincode WalStore}.

Definition PersistentWal_new (path : string) (f : F) : Res PersistentWal :=
  if negb (unwrap_or (fs_try_exists path f) false)
  then Ok {| p_maps := MemoryWal_new; file_path := path |}
  else
    match fs_read path f with
    | Err e => Err (EIoError e)
    | Ok data =>
        match bincode_decode data with
        | Err e => Err (EWal (WalBackendError ("Fail to decode the file:"%string +:+ e)))
        | Ok (store, _) => Ok {| p_maps := store; file_path := path |}
        end
    end.

Definition persist_append (r : WalRecord) (p : PersistentWal) : Res unit * PersistentWal :=
  let '(res, w) := mem_append r (p_maps p) in (res, with_maps p w).

(** Unlike the in-memory WAL, an unknown id is an error. *)
Definition persist_update_state (i : string) (s : WalRecordState) (p : PersistentWal)
    : Res unit * PersistentWal :=
  let w := p_maps p in
  match records w !! i with
  | Some r =>
      (Ok tt, with_maps p {| records := <[i := set_record_status s r]> (records w);
                             delays := delays w; worker_registry := worker_registry w;
                             id_counter := id_counter w |})
  | None => (Err (EWal (RecordNotFound i)), p)
  end.

Definition persist_replay_pending (p : PersistentWal)
    : Res (list WalRecord) * PersistentWal :=
  (Ok (filter (λ r, status r = Pending) (hash_values (records (p_maps p)))), p).

Definition persist_flush (p : PersistentWal) (f : F) : Res unit * F :=
  let store : WalStore :=
    {| records := records (p_maps p); delays := delays (p_maps p);
       worker_registry := worker_registry (p_maps p);
       id_counter := id_counter (p_maps p) |} in
  match bincode_encode store with
  | Err e => (Err (ESerialize (SerializeErr e)), f)
  | Ok data =>
      let temp_path := with_extension_tmp (file_path p) in
      match fs_write temp_path data f with
      | (Err e, f1) => (Err (EIoError e), f1)
      | (Ok _, f1) =>
          match fs_rename temp_path (file_path p) f1 with
          | (Err e, f2) => (Err (EIoError e), f2)
          | (Ok _, f2) => (Ok tt, f2)
          end
      end
  end.

Definition persist_schedule (r : WalRecord) (p : PersistentWal) : Res unit * PersistentWal :=
  let '(res, w) := mem_schedule r (p_maps p) in (res, with_maps p w).

Definition persist_fetch_ready (now : SystemTime) (p : PersistentWal)
    : Res (list WalRecord) * PersistentWal :=
  let '(res, w) := mem_fetch_ready now (p_maps p) in (res, with_maps p w).

Definition persist_remove_scheduled (i : string) (p : PersistentWal)
    : Res unit * PersistentWal :=
  let '(res, w) := mem_remove_scheduled i (p_maps p) in (res, with_maps p w).

Definition persist_save_worker_registry (reg : gmap string WorkerInfo) (p : PersistentWal)
    : Res unit * PersistentWal :=
  let '(res, w) := mem_save_worker_registry reg (p_maps p) in (res, with_maps p w).

Definition persist_load_worker_registry (p : PersistentWal)
    : Res (gmap string WorkerInfo) * PersistentWal :=
  (Ok (worker_registry (p_maps p)), p).

Lemma store_eta (w : MemoryWal) :
  {| records := records w; delays := delays w; worker_registry := worker_registry w;
     id_counter := id_counter w |} = w.
Proof. by destruct w. Qed.

Context `{!FileSysLaws F} `{!BincodeLaws WalStore}.

(** The contents of the WAL file after a [flush], by its result. *)
Lemma persist_flush_file p f res f' :
  persist_flush p f = (res, f') →
  with_extension_tmp (file_path p) ≠ file_path p →
  match res with
  | Ok _ => ∃ data, bincode_encode (p_maps p) = Ok data ∧
              fs_files f' !! file_path p = Some data
  | Err _ => fs_files f' !! file_path p = fs_files f !! file_path p
  end.
Proof.
  unfold persist_flush. rewrite store_eta. intros Hf Hne.
  destruct (bincode_encode (p_maps p)) as [data|e] eqn:Henc; [|by injection Hf as <- <-].
  destruct (fs_write _ data f) as [[[]|e] f1] eqn:Hw.
  - destruct (fs_rename _ _ f1) as [[[]|e] f2] eqn:Hr; simplify_eq.
    + exists data. split; [done|]. apply write_ok_law in Hw.
      apply (rename_ok_law _ _ _ _ data) in Hr; [|by rewrite Hw, lookup_insert_eq].
      by rewrite Hr, lookup_insert_eq.
    + rewrite (rename_err_law _ _ _ _ _ Hr), (write_ok_law _ _ _ _ Hw).
      by rewrite lookup_insert_ne.
  - simplify_eq. by rewrite (write_err_law _ _ _ _ _ _ Hw).
Qed.

(** C23. A WAL flushed to disk and opened again by [PersistentWal::new],
    with no I/O error on the way, is the same WAL: records, delays, registry
    and id counter. *)
Theorem flush_then_new p f f' b data :
  with_extension_tmp (file_path p) ≠ file_path p →
  persist_flush p f = (Ok tt, f') →
  fs_try_exists (file_path p) f' = Ok b →
  fs_read (file_path p) f' = Ok data →
  PersistentWal_new (file_path p) f' = Ok p.
Proof.
  intros Hne Hf Hex Hread. unfold PersistentWal_new. rewrite Hex, Hread.
  destruct (persist_flush_file _ _ _ _ Hf Hne) as (d & Henc & Hd).
  apply exists_law in Hex. rewrite bool_decide_eq_true_2 in Hex by eauto.
  apply read_law in Hread. rewrite Hd in Hread. injection Hread as <-. subst b. simpl.
  destruct (bincode_roundtrip _ _ Henc) as [n ->]. by destruct p.
Qed.
End PersistentWal.

(** ** Crashes *)

Section crashes.
Context {F : Type} `{FileSys F, !FileSysLaws F, Crashes F, !CrashLaws F} `{BincodeLaws WalStore}.

(** What a write or a rename leaves of the files, done, refused or cut off. *)
Lemma doomed_write path b (d : Doomed F) r d' :
  fs_write path b d = (r, d') →
  (∀ q, q ≠ path → fs_files (dm_disk d') !! q = fs_files (dm_disk d) !! q) ∧
  (r = Ok tt → fs_files (dm_disk d') !! path = Some b).
Proof.
  simpl. unfold doomed. destruct (dm_left d) as [[|n]|].
  - intros [= <- <-]. split; [|done]. intros q Hq. by apply cut_write_law.
  - destruct (fs_write path b (dm_disk d)) as [[[]|e] f] eqn:Hw; intros [= <- <-]; simpl.
    + rewrite (write_ok_law _ _ _ _ Hw). split; [|by rewrite lookup_insert_eq].
      intros q Hq. by rewrite lookup_insert_ne.
    + split; [|done]. intros q Hq. by apply (write_err_law _ _ _ _ _ _ Hw).
  - intros [= <- <-]. done.
Qed.

Lemma doomed_rename path path' b (d : Doomed F) r d' :
  fs_files (dm_disk d) !! path = Some b → fs_rename path path' d = (r, d') →
  (fs_files (dm_disk d') = fs_files (dm_disk d) ∧ is_ok r = false) ∨
  (fs_files (dm_disk d') !! path' = Some b ∧ (is_ok r = true ∨ dm_left d' = None)).
Proof.
  simpl. unfold doomed. intros Hb. destruct (dm_left d) as [[|n]|].
  - intros [= <- <-]. simpl.
    destruct (cut_rename_law path path' (dm_disk d)) as [->|(b' & Hb' & ->)]; [by left|].
    right. rewrite Hb in Hb'. injection Hb' as <-. rewrite lookup_insert_eq. auto.
  - destruct (fs_rename path path' (dm_disk d)) as [[[]|e] f] eqn:Hr; intros [= <- <-]; simpl.
    + right. rewrite (rename_ok_law _ _ _ _ _ Hr Hb), lookup_insert_eq. auto.
    + left. by rewrite (rename_err_law _ _ _ _ _ Hr).
  - intros [= <- <-]. by left.
Qed.

(** C22. [flush] replaces the WAL file atomically.  Run it with a process that
    dies inside its [n]-th command or between two of them, or lives through:
    the file holds exactly what it held, or the whole new store.  It holds the
    new store when [flush] returns [Ok], and what it held when [flush] returns
    an error without a crash.  The temporary file has to be another file. *)
Theorem flush_atomic p f n res (d : Doomed F) :
  with_extension_tmp (file_path p) ≠ file_path p →
  persist_flush p (Doom (Some n) f) = (res, d) →
  (is_ok res = false ∧ fs_files (dm_disk d) !! file_path p = fs_files f !! file_path p) ∨
  ((is_ok res = true ∨ dm_left d = None) ∧
   ∃ data, fs_files (dm_disk d) !! file_path p = Some data ∧
           decode_payload data = Some (p_maps p)).
Proof.
  intros Hne. unfold persist_flush. rewrite store_eta.
  destruct (bincode_encode (p_maps p)) as [data|e] eqn:Henc; [|intros [= <- <-]; by left].
  destruct (fs_write _ data _) as [rw d1] eqn:Hw. apply doomed_write in Hw as [Hq Hok].
  destruct rw as [[]|e]; [|intros [= <- <-]; left; by rewrite Hq by done].
  destruct (fs_rename _ _ d1) as [rr d2] eqn:Hr.
  apply (doomed_rename _ _ data) in Hr; [|by apply Hok].
  destruct Hr as [[Hf Hrr]|[Hf Hrr]].
  - destruct rr; [done|]. intros [= <- <-]. left. by rewrite Hf, Hq.
  - destruct rr as [[]|]; intros [= <- <-]; right; (split; [exact Hrr|]); exists data;
      (split; [done|by apply decode_encoded]).
Qed.
End crashes.

(** ** A concrete file system, for the witnesses *)

Definition map_fs : FileSys (gmap string bytes) := {|
  fs_files f := f;
  fs_try_exists p f := Ok (bool_decide (is_Some (f !! p)));
  fs_read p f := match f !! p with Some b => Ok b | None => Err "not found"%string end;
  fs_write p b f := (Ok tt, <[p := b]> f);
  fs_rename p q f :=
    match f !! p with
    | Some b => (Ok tt, <[q := b]> (delete p f))
    | None => (Err "not found"%string, f)
    end
|}.

Lemma map_fs_laws : @FileSysLaws _ map_fs.
Proof.
  split; simpl.
  - by intros p f b [= <-].
  - intros p f b. by destruct (f !! p); intros; simplify_eq.
  - by intros p b f f' [= <-].
  - done.
  - intros p q f f' b Hr Hp. rewrite Hp in Hr. by injection Hr as <-.
  - intros p q f f' e. destruct (f !! p); intros; by simplify_eq.
Qed.

Import SerCodec.

#[export] Instance MemoryWal_ser : Ser MemoryWal :=
  iso_ser (λ w, (records w, (delays w, (worker_registry w, id_counter w))))
    (λ '(a, (b, (c, d))), Some {| records := a; delays := b; worker_registry := c;
                                  id_counter := d |})
    (λ b, ltac:(by destruct b)).

Definition demo_wal : PersistentWal :=
  {| p_maps := (mem_append (WalRecord_from_msg
       (EMessage_new "m1" 5 "orders" [104; 105] Standard None)) MemoryWal_new).2;
     file_path := "data/event_base.wal" |}.

(** A process that dies with half of the bytes written, or with the rename not
    made. *)
Definition map_crashes : Crashes (gmap string bytes) := {|
  cut_write p b f := <[p := take (length b / 2) b]> f;
  cut_rename p q f := f
|}.

Lemma map_crash_laws : @CrashLaws _ map_fs map_crashes.
Proof. split; simpl; [|by left]. intros p b f q Hq. by rewrite lookup_insert_ne. Qed.

(** The flush of [demo_wal], with [n] commands to live. *)
Definition demo_flush (n : nat) : Res unit * Doomed (gmap string bytes) :=
  persist_flush (H := @doomed_fs _ map_fs map_crashes) demo_wal (Doom (Some n) ∅).

Lemma flush_atomic_witness :
  (demo_flush 0).1 = Err (EIoError "crashed"%string) ∧
  dm_disk (demo_flush 0).2 !! file_path demo_wal = None ∧
  ∃ data, dm_disk (demo_flush 2).2 !! file_path demo_wal = Some data ∧
          decode_payload data = Some (p_maps demo_wal).
Proof.
  split; [vm_compute; reflexivity|].
  assert (with_extension_tmp (file_path demo_wal) ≠ file_path demo_wal) as Hne
    by (vm_compute; discriminate).
  split.
  - destruct (flush_atomic (H := map_fs) (FileSysLaws0 := map_fs_laws) (H0 := map_crashes)
      (CrashLaws0 := map_crash_laws) demo_wal ∅ 0 _ _ Hne (surjective_pairing (demo_flush 0)))
      as [[_ Hd]|[_ (data & Hd & _)]]; [exact Hd|]. vm_compute in Hd. discriminate.
  - destruct (flush_atomic (H := map_fs) (FileSysLaws0 := map_fs_laws) (H0 := map_crashes)
      (CrashLaws0 := map_crash_laws) demo_wal ∅ 2 _ _ Hne (surjective_pairing (demo_flush 2)))
      as [[Hbad _]|[_ Hd]]; [vm_compute in Hbad; discriminate Hbad|exact Hd].
Defined.

Lemma flush_then_new_witness :
  PersistentWal_new (H := map_fs) (file_path demo_wal)
    (persist_flush (H := map_fs) demo_wal ∅).2 = Ok demo_wal.
Proof.
  assert (persist_flush (H := map_fs) demo_wal ∅ =
          (Ok tt, (persist_flush (H := map_fs) demo_wal ∅).2)) as Hf
    by (vm_compute; reflexivity).
  refine (flush_then_new (H := map_fs) (FileSysLaws0 := map_fs_laws) demo_wal ∅
            (persist_flush (H := map_fs) demo_wal ∅).2 true (ser (p_maps demo_wal))
            _ Hf _ _).
  - vm_compute; discriminate.
  - vm_compute; reflexivity.
  - vm_compute; reflexivity.
Defined.
