(* ===== verification/RedisWal.v ===== *)
(** * The Redis WAL: [event_base_wal/src/redis.rs]

    Records and delayed messages in two hashes, the delivery times in a
    sorted set, the registry in a string, ids from a counter.  The server is
    outside the repository: [Redis] is the commands the code sends,
    [RedisLaws] what they are documented to do to the keys. *)
From S2P Require Import Prelude Errors Message Codec Wal.

(** ** The server *)

(** One operation per command; a reply is a value or an error text.  The
    [EVAL] of the scheduling script is one operation. *)
Class Redis (R : Type) : Type := {
  r_incr : string → R → result Z string * R;
  r_hset : string → string → bytes → R → result Z string * R;
  r_hget : string → string → R → result (option bytes) string * R;
  r_hgetall : string → R → result (list (string * bytes)) string * R;
  r_hdel : string → string → R → result Z string * R;
  r_zrangebyscore : string → Z → R → result (list string) string * R;
  r_zrem : string → string → R → result Z string * R;
  r_eval_schedule : string → string → string → bytes → Z → R → result Z string * R;
  r_set : string → bytes → R → result unit string * R;
  r_get : string → R → result (option bytes) string * R
}.

(** The keys of a server, by the type of their value. *)
Record RedisKeys : Type := {
  rk_hashes : gmap string (gmap string bytes);
  rk_zsets : gmap string (gmap string Z);
  rk_strings : gmap string bytes;
  rk_counters : gmap string Z
}.

Definition hfields (k : string) (v : RedisKeys) : gmap string bytes := default ∅ (rk_hashes v !! k).
Definition zscores (k : string) (v : RedisKeys) : gmap string Z := default ∅ (rk_zsets v !! k).
Definition counter (k : string) (v : RedisKeys) : Z := default 0 (rk_counters v !! k).

Definition put_hash k f (v : RedisKeys) : RedisKeys :=
  {| rk_hashes := <[k := f]> (rk_hashes v); rk_zsets := rk_zsets v;
     rk_strings := rk_strings v; rk_counters := rk_counters v |}.
Definition put_zset k z (v : RedisKeys) : RedisKeys :=
  {| rk_hashes := rk_hashes v; rk_zsets := <[k := z]> (rk_zsets v);
     rk_strings := rk_strings v; rk_counters := rk_counters v |}.
Definition put_string k b (v : RedisKeys) : RedisKeys :=
  {| rk_hashes := rk_hashes v; rk_zsets := rk_zsets v;
     rk_strings := <[k := b]> (rk_strings v); rk_counters := rk_counters v |}.
Definition put_counter k n (v : RedisKeys) : RedisKeys :=
  {| rk_hashes := rk_hashes v; rk_zsets := rk_zsets v; rk_strings := rk_strings v;
     rk_counters := <[k := n]> (rk_counters v) |}.

(** A write command: it did its work if it was answered; if the answer is an
    error, it did its work or nothing. *)
Definition writes {A} (view view' : RedisKeys) (reply : result A string) (after : RedisKeys)
    : Prop :=
  view' = after ∨ (is_ok reply = false ∧ view' = view).

(** Scores are double-precision numbers: exact up to 2^53, monotone. *)
Class RedisLaws (R : Type) `{Redis R} : Type := {
  keys : R → RedisKeys;
  score_of : Z → Z;
  score_exact : ∀ z, Z.abs z ≤ 2 ^ 53 → score_of z = z;
  score_mono : ∀ y z, y ≤ z → score_of y ≤ score_of z;
  incr_law : ∀ k s a s', r_incr k s = (a, s') →
    writes (keys s) (keys s') a (put_counter k (counter k (keys s) + 1) (keys s)) ∧
    ∀ n, a = Ok n → n = counter k (keys s) + 1;
  hset_law : ∀ k i b s a s', r_hset k i b s = (a, s') →
    writes (keys s) (keys s') a (put_hash k (<[i := b]> (hfields k (keys s))) (keys s));
  hget_law : ∀ k i s a s', r_hget k i s = (a, s') →
    keys s' = keys s ∧ ∀ o, a = Ok o → o = hfields k (keys s) !! i;
  hgetall_law : ∀ k s a s', r_hgetall k s = (a, s') →
    keys s' = keys s ∧ ∀ l, a = Ok l → l ≡ₚ map_to_list (hfields k (keys s));
  hdel_law : ∀ k i s a s', r_hdel k i s = (a, s') →
    writes (keys s) (keys s') a (put_hash k (delete i (hfields k (keys s))) (keys s));
  zrange_law : ∀ k max s a s', r_zrangebyscore k max s = (a, s') →
    keys s' = keys s ∧
    ∀ l, a = Ok l → NoDup l ∧
      ∀ i, i ∈ l ↔ ∃ x, zscores k (keys s) !! i = Some x ∧ x ≤ score_of max;
  zrem_law : ∀ k i s a s', r_zrem k i s = (a, s') →
    writes (keys s) (keys s') a (put_zset k (delete i (zscores k (keys s))) (keys s)) ∧
    ∀ n, a = Ok n → n = (if decide (is_Some (zscores k (keys s) !! i)) then 1 else 0);
  eval_law : ∀ kh kz i b x s a s', r_eval_schedule kh kz i b x s = (a, s') →
    writes (keys s) (keys s') a
      (put_zset kz (<[i := score_of x]> (zscores kz (keys s)))
         (put_hash kh (<[i := b]> (hfields kh (keys s))) (keys s)));
  set_law : ∀ k b s a s', r_set k b s = (a, s') →
    writes (keys s) (keys s') a (put_string k b (keys s));
  get_law : ∀ k s a s', r_get k s = (a, s') →
    keys s' = keys s ∧ ∀ o, a = Ok o → o = rk_strings (keys s) !! k
}.

(** ** The WAL *)

Open Scope string_scope.

Definition backend_err (e : string) : CoreError := EWal (WalBackendError e).
Definition corrupted_err (context e : string) : CoreError :=
  EWal (WalCorrupted (context +:+ ": " +:+ e)).

Definition encode {T} `{Bincode T} (value : T) : Res bytes :=
  map_err (λ e, EWal (WalWrite ("encode failed: " +:+ e))) (bincode_encode value).

Definition decode {T} `{Bincode T} (b : bytes) (context : string) : Res T :=
  match bincode_decode b with
  | Ok (value, _) => Ok value
  | Err e => Err (corrupted_err context e)
  end.

(** [as i64]. *)
Definition as_i64 (z : Z) : Z := ((z + 2 ^ 63) mod 2 ^ 64 - 2 ^ 63)%Z.
Definition i64_max : Z := (2 ^ 63 - 1)%Z.

(** [t.duration_since(UNIX_EPOCH)]; times count from the epoch. *)
Definition since_epoch (t : SystemTime) : result Duration unit := duration_since t 0%Z.

Definition now_millis (now : SystemTime) : Z := as_i64 (as_millis (unwrap_or (since_epoch now) 0%Z)).

Definition deliver_at_millis (r : WalRecord) : Z :=
  match deliver_at (message r) with
  | Some at_ => match since_epoch at_ with Ok d => as_i64 (as_millis d) | Err _ => 0%Z end
  | None => i64_max
  end.

Record RedisWal : Type := { rw_prefix : string }.

Definition RedisWal_default : RedisWal := {| rw_prefix := "event_base" |}.

Definition records_key (w : RedisWal) : string := rw_prefix w +:+ ":wal:records".
Definition delays_key (w : RedisWal) : string := rw_prefix w +:+ ":wal:delays".
Definition delay_index_key (w : RedisWal) : string := rw_prefix w +:+ ":wal:delay_index".
Definition registry_key (w : RedisWal) : string := rw_prefix w +:+ ":wal:registry".
Definition counter_key (w : RedisWal) : string := rw_prefix w +:+ ":wal:id_counter".

(** Sequencing of commands: an error of the server ends the function. *)
Definition ask {R A B} (c : result A string * R) (k : A → R → Res B * R) : Res B * R :=
  match c with (Ok a, s) => k a s | (Err e, s) => (Err (backend_err e), s) end.

(** [result?] for a local computation. *)
Definition try {R A B} (r : Res A) (s : R) (k : A → Res B * R) : Res B * R :=
  match r with Ok a => k a | Err e => (Err e, s) end.

Section ops.
Context {R : Type} `{Redis R} `{Bincode WalRecord} `{Bincode (gmap string WorkerInfo)}.
Context (w : RedisWal).

Definition next_record_id (s : R) : Res Z * R :=
  ask (r_incr (counter_key w) s) (λ n s, (Ok (Z.max n 0), s)).

Definition redis_append (r : WalRecord) (s : R) : Res unit * R :=
  let '(o, s) := next_record_id s in
  try o s (λ c,
  let r := set_record_id c r in
  try (encode r) s (λ blob,
  ask (r_hset (records_key w) (id (message r)) blob s) (λ _ s, (Ok tt, s)))).

Definition redis_update_state (message_id : string) (st : WalRecordState) (s : R)
    : Res unit * R :=
  ask (r_hget (records_key w) message_id s) (λ existing s,
  match existing with
  | None => (Err (EWal (RecordNotFound message_id)), s)
  | Some b =>
      try (decode b "update_state") s (λ r,
      try (encode (set_record_status st r)) s (λ blob,
      ask (r_hset (records_key w) message_id blob s) (λ _ s, (Ok tt, s))))
  end).

Fixpoint collect_pending (all : list (string * bytes)) (acc : list WalRecord)
    : Res (list WalRecord) :=
  match all with
  | [] => Ok acc
  | (_, b) :: all =>
      match decode b "replay_pending" with
      | Err e => Err e
      | Ok r => collect_pending all (if decide (status r = Pending) then (acc ++ [r])%list else acc)
      end
  end.

Definition by_record_id (a b : WalRecord) : Prop := (record_id a ≤ record_id b)%Z.
#[global] Instance by_record_id_dec : RelDecision by_record_id.
Proof. intros a b. unfold by_record_id. apply _. Defined.

Definition redis_replay_pending (s : R) : Res (list WalRecord) * R :=
  ask (r_hgetall (records_key w) s) (λ all s,
  try (collect_pending all []) s (λ pending, (Ok (merge_sort by_record_id pending), s))).

Definition redis_flush (s : R) : Res unit * R := (Ok tt, s).

Definition redis_schedule (r : WalRecord) (s : R) : Res unit * R :=
  let '(o, s) := next_record_id s in
  try o s (λ c,
  let r := set_record_id c r in
  try (encode r) s (λ blob,
  ask (r_eval_schedule (delays_key w) (delay_index_key w) (id (message r)) blob
         (deliver_at_millis r) s) (λ _ s, (Ok tt, s)))).

(** The loop of [fetch_ready]: claim with [ZREM], read, delete. *)
Fixpoint fetch_loop (due : list string) (ready : list WalRecord) (s : R)
    : Res (list WalRecord) * R :=
  match due with
  | [] => (Ok ready, s)
  | msg_id :: due =>
      ask (r_zrem (delay_index_key w) msg_id s) (λ claimed s,
      if decide (claimed = 0%Z) then fetch_loop due ready s
      else
        ask (r_hget (delays_key w) msg_id s) (λ ob s,
        ask (r_hdel (delays_key w) msg_id s) (λ _ s,
        match ob with
        | None => fetch_loop due ready s
        | Some b => try (decode b "fetch_ready") s (λ r, fetch_loop due (ready ++ [r])%list s)
        end)))
  end.

Definition redis_fetch_ready (now : SystemTime) (s : R) : Res (list WalRecord) * R :=
  ask (r_zrangebyscore (delay_index_key w) (now_millis now) s) (λ due s, fetch_loop due [] s).

Definition redis_remove_scheduled (msg_id : string) (s : R) : Res unit * R :=
  ask (r_zrem (delay_index_key w) msg_id s) (λ _ s,
  ask (r_hdel (delays_key w) msg_id s) (λ _ s, (Ok tt, s))).

Definition redis_save_worker_registry (registry : gmap string WorkerInfo) (s : R)
    : Res unit * R :=
  try (encode registry) s (λ blob,
  ask (r_set (registry_key w) blob s) (λ _ s, (Ok tt, s))).

Definition redis_load_worker_registry (s : R) : Res (gmap string WorkerInfo) * R :=
  ask (r_get (registry_key w) s) (λ blob s,
  match blob with
  | Some b => (decode b "load_worker_registry", s)
  | None => (Ok ∅, s)
  end).

(** The trait. *)
#[global] Instance redis_wal : Wal R := {|
  wal_append := redis_append;
  wal_update_state _ := redis_update_state;
  wal_replay_pending := redis_replay_pending;
  wal_flush := redis_flush;
  wal_schedule := redis_schedule;
  wal_fetch_ready := redis_fetch_ready;
  wal_remove_scheduled := redis_remove_scheduled;
  wal_save_worker_registry := redis_save_worker_registry;
  wal_load_worker_registry := redis_load_worker_registry
|}.
End ops.

Close Scope string_scope.

(** ** A lawful server

    The keys themselves, every command answered. *)
Module RedisRef.
#[export] Program Instance keys_redis : Redis RedisKeys := {|
  r_incr k v := (Ok (counter k v + 1), put_counter k (counter k v + 1) v);
  r_hset k i b v := (Ok 1, put_hash k (<[i := b]> (hfields k v)) v);
  r_hget k i v := (Ok (hfields k v !! i), v);
  r_hgetall k v := (Ok (map_to_list (hfields k v)), v);
  r_hdel k i v := (Ok 1, put_hash k (delete i (hfields k v)) v);
  r_zrangebyscore k max v :=
    (Ok (map_to_list (filter (λ p, p.2 ≤ max) (zscores k v))).*1, v);
  r_zrem k i v :=
    (Ok (if decide (is_Some (zscores k v !! i)) then 1 else 0),
     put_zset k (delete i (zscores k v)) v);
  r_eval_schedule kh kz i b x v :=
    (Ok 1, put_zset kz (<[i := x]> (zscores kz v)) (put_hash kh (<[i := b]> (hfields kh v)) v));
  r_set k b v := (Ok tt, put_string k b v);
  r_get k v := (Ok (rk_strings v !! k), v)
|}.

#[export] Instance keys_redis_laws : RedisLaws RedisKeys.
Proof.
  refine {| keys := λ v, v; score_of := λ z, z |}; try done; try (by intros; simplify_eq/=; left).
  - intros k s a s' [= <- <-]. split; [by left|]. by intros n [= <-].
  - intros k i s a s' [= <- <-]. split; [done|]. by intros o [= <-].
  - intros k s a s' [= <- <-]. split; [done|]. by intros l [= <-].
  - intros k max s a s' [= <- <-]. split; [done|]. intros l [= <-]. split.
    + apply NoDup_fst_map_to_list.
    + intros i. rewrite list_elem_of_fmap. split.
      * intros [[i' x] [-> Hin%elem_of_map_to_list]].
        apply map_lookup_filter_Some in Hin as [? ?]. eauto.
      * intros (x & Hi & Hx). exists (i, x). split; [done|]. apply elem_of_map_to_list.
        by apply map_lookup_filter_Some.
  - intros k i s a s' [= <- <-]. split; [by left|]. by intros n [= <-].
  - intros k s a s' [= <- <-]. split; [done|]. by intros o [= <-].
Defined.
End RedisRef.
