(* ===== verification/RedisWalTheorems.v ===== *)
(** * The Redis WAL refines the abstract log *)
From S2P Require Import Prelude Errors Message Codec Wal WalTheorems RedisWal.

(** ** Keys of one prefix are different *)

Lemma prefix_inj p a b : p +:+ a = p +:+ b → a = b.
Proof. induction p as [|c p IH]; simpl; [done|]. intros [=]. auto. Qed.

Lemma key_ne (w : RedisWal) a b : a ≠ b → rw_prefix w +:+ a ≠ rw_prefix w +:+ b.
Proof. intros Hne Heq. apply Hne. by apply prefix_inj in Heq. Qed.

Section refinement.
Context {R : Type} `{RedisLaws R} `{BincodeLaws WalRecord}.
Context `{BincodeLaws (gmap string WorkerInfo)}.
Context (w : RedisWal).
Implicit Types s : R.

Lemma hfields_put k f k' v :
  hfields k (put_hash k' f v) = if decide (k = k') then f else hfields k v.
Proof.
  unfold hfields. simpl. case_decide as E; [by rewrite E, lookup_insert_eq|].
  by rewrite lookup_insert_ne.
Qed.
Lemma zscores_put k f k' v :
  zscores k (put_zset k' f v) = if decide (k = k') then f else zscores k v.
Proof.
  unfold zscores. simpl. case_decide as E; [by rewrite E, lookup_insert_eq|].
  by rewrite lookup_insert_ne.
Qed.

(** ** Representation *)

(** Every field of the hash reads back as the record stored under it. *)
Definition stored (f : gmap string bytes) (m : gmap string WalRecord) : Prop :=
  ∀ i, match f !! i, m !! i with
       | Some b, Some r => decode_payload b = Some r
       | None, None => True
       | _, _ => False
       end.

(** The score under which a delayed record is indexed. *)
Definition record_score (r : WalRecord) : Z := score_of (deliver_at_millis r).

(** The keys of prefix [w] hold [recs] and [dels], the latter indexed by
    their scores, and the registry [reg]. *)
Record holds (v : RedisKeys) (recs dels : gmap string WalRecord)
    (reg : gmap string WorkerInfo) : Prop := {
  holds_records : stored (hfields (records_key w) v) recs;
  holds_delays : stored (hfields (delays_key w) v) dels;
  holds_index : zscores (delay_index_key w) v = record_score <$> dels;
  holds_registry : match rk_strings v !! registry_key w with
                   | Some b => decode_payload b = Some reg
                   | None => reg = ∅
                   end
}.

(** The log that the server holds under the prefix. *)
Definition rep (s : R) (a : WalAbs) : Prop :=
  ∃ recs dels, holds (keys s) recs dels (a_registry a) ∧
    a_records a = rec_abs <$> recs ∧ a_delays a = message <$> dels.

Lemma stored_insert f m i b r :
  stored f m → decode_payload b = Some r → stored (<[i := b]> f) (<[i := r]> m).
Proof.
  intros Hs Hd j. destruct (decide (j = i)) as [->|Hne].
  - by rewrite !lookup_insert_eq.
  - rewrite !lookup_insert_ne by done. apply Hs.
Qed.

Lemma stored_delete f m i : stored f m → stored (delete i f) (delete i m).
Proof.
  intros Hs j. destruct (decide (j = i)) as [->|Hne].
  - by rewrite !lookup_delete_eq.
  - rewrite !lookup_delete_ne by done. apply Hs.
Qed.

Lemma stored_lookup f m i b : stored f m → f !! i = Some b →
  ∃ r, m !! i = Some r ∧ decode_payload b = Some r.
Proof. intros Hs Hf. specialize (Hs i). rewrite Hf in Hs. destruct (m !! i); naive_solver. Qed.

Lemma decode_ok {T} `{Bincode T} b context (x : T) :
  RedisWal.decode b context = Ok x ↔ decode_payload b = Some x.
Proof.
  unfold RedisWal.decode, decode_payload. destruct (bincode_decode b) as [[y n]|]; naive_solver.
Qed.

Lemma encode_ok {T} `{BincodeLaws T} (x : T) b :
  RedisWal.encode x = Ok b → decode_payload b = Some x.
Proof.
  unfold RedisWal.encode, map_err. destruct (bincode_encode x) eqn:E; [|done].
  intros [= <-]. by apply decode_encoded.
Qed.

(** ** Effects of the writes on the representation *)

Lemma holds_counter v recs dels reg k n :
  holds v recs dels reg → holds (put_counter k n v) recs dels reg.
Proof. by intros []. Qed.

Lemma holds_put_record v recs dels reg i b r :
  holds v recs dels reg → decode_payload b = Some r →
  holds (put_hash (records_key w) (<[i := b]> (hfields (records_key w) v)) v)
    (<[i := r]> recs) dels reg.
Proof.
  intros [Hr Hd Hi Hg] Hb. split; [..|done].
  - rewrite hfields_put, decide_True by done. by apply stored_insert.
  - rewrite hfields_put, decide_False by (by apply key_ne). done.
  - done.
Qed.

Lemma holds_schedule v recs dels reg i b r x :
  holds v recs dels reg → decode_payload b = Some r → x = deliver_at_millis r →
  holds (put_zset (delay_index_key w) (<[i := score_of x]> (zscores (delay_index_key w) v))
          (put_hash (delays_key w) (<[i := b]> (hfields (delays_key w) v)) v))
    recs (<[i := r]> dels) reg.
Proof.
  intros [Hr Hd Hi Hg] Hb ->. split; [..|done].
  - change (stored (hfields (records_key w) (put_hash (delays_key w)
      (<[i:=b]> (hfields (delays_key w) v)) v)) recs).
    rewrite hfields_put, decide_False by (by apply key_ne). done.
  - change (stored (hfields (delays_key w) (put_hash (delays_key w)
      (<[i:=b]> (hfields (delays_key w) v)) v)) (<[i := r]> dels)).
    rewrite hfields_put, decide_True by done. by apply stored_insert.
  - rewrite zscores_put, decide_True, fmap_insert by done.
    change (zscores (delay_index_key w) (put_hash _ _ v)) with (zscores (delay_index_key w) v).
    by rewrite Hi.
Qed.

Lemma holds_registry_put v recs dels reg reg' b :
  holds v recs dels reg → decode_payload b = Some reg' →
  holds (put_string (registry_key w) b v) recs dels reg'.
Proof. intros [Hr Hd Hi Hg] Hb. split; [done..|]. simpl. by rewrite lookup_insert_eq. Qed.

(** Both halves of a removal. *)
Lemma holds_remove v recs dels reg i :
  holds v recs dels reg →
  holds (put_hash (delays_key w) (delete i (hfields (delays_key w) v))
           (put_zset (delay_index_key w) (delete i (zscores (delay_index_key w) v)) v))
    recs (delete i dels) reg.
Proof.
  intros [Hr Hd Hi Hg]. split; [..|done].
  - rewrite hfields_put, decide_False by (by apply key_ne). done.
  - rewrite hfields_put, decide_True by done. by apply stored_delete.
  - change (zscores (delay_index_key w) (put_hash ?k ?f ?u)) with (zscores (delay_index_key w) u).
    rewrite zscores_put, decide_True, fmap_delete by done. by rewrite Hi.
Qed.

(** ** Single operations *)

Lemma writes_ok {A} v v' (x : A) after : writes v v' (Ok x) after → v' = after.
Proof. intros [?|[? ?]]; done. Qed.

Lemma next_id_spec s o s' :
  next_record_id w s = (o, s') →
  (keys s' = keys s ∧ is_ok o = false) ∨
  keys s' = put_counter (counter_key w) (counter (counter_key w) (keys s) + 1) (keys s).
Proof.
  unfold next_record_id, ask. destruct (r_incr _ s) as [a s1] eqn:Hi.
  destruct (incr_law _ _ _ _ Hi) as [[Hw|[Ha Hw]] _]; destruct a; intros [= <- <-]; eauto.
Qed.

Lemma next_id_holds s o s' recs dels reg :
  next_record_id w s = (o, s') → holds (keys s) recs dels reg → holds (keys s') recs dels reg.
Proof. intros [[-> _]| ->]%next_id_spec Hh; [done|by apply holds_counter]. Qed.

(** What a write did that may have failed: its effect, or nothing. *)
Definition all_or_nothing (s' : R) (o : Res unit) (before after : RedisKeys → Prop) : Prop :=
  if is_ok o then after (keys s') else before (keys s') ∨ after (keys s').

(** The last command of a write decides. *)
Lemma write_settles {A} s1 s2 (a : result A string) view (before after : RedisKeys → Prop) o s' :
  writes (keys s1) (keys s2) a view → before (keys s1) → after view →
  ask (a, s2) (λ _ s, (Ok tt, s)) = (o, s') → all_or_nothing s' o before after.
Proof.
  unfold all_or_nothing. intros [Hw|[Ha Hw]] Hb Hv; destruct a as [x|e]; intros [= <- <-]; simpl.
  - by rewrite Hw.
  - right. by rewrite Hw.
  - done.
  - left. by rewrite Hw.
Qed.

Lemma append_holds r s o s' recs dels reg :
  redis_append w r s = (o, s') → holds (keys s) recs dels reg →
  all_or_nothing s' o (λ v, holds v recs dels reg)
    (λ v, ∃ c, holds v (<[id (message r) := set_record_id c r]> recs) dels reg).
Proof.
  unfold redis_append. destruct (next_record_id w s) as [o1 s1] eqn:Hn.
  intros Heq Hh. pose proof (next_id_holds _ _ _ _ _ _ Hn Hh) as Hh1.
  unfold try in Heq. destruct o1 as [c|e]; [|injection Heq as <- <-; by left].
  destruct (RedisWal.encode _) as [b|e] eqn:He; [|injection Heq as <- <-; by left].
  apply encode_ok in He. destruct (r_hset _ _ _ s1) as [a s2] eqn:Hs.
  eapply write_settles; [by eapply hset_law|done| |exact Heq].
  exists c. by apply holds_put_record.
Qed.

Lemma update_holds i st s o s' recs dels reg :
  redis_update_state w i st s = (o, s') → holds (keys s) recs dels reg →
  all_or_nothing s' o (λ v, holds v recs dels reg)
    (λ v, ∃ r, recs !! i = Some r ∧ holds v (<[i := set_record_status st r]> recs) dels reg).
Proof.
  unfold redis_update_state, ask at 1. destruct (r_hget _ _ s) as [a s1] eqn:Hg.
  destruct (hget_law _ _ _ _ _ Hg) as [Hk Ha]. intros Heq Hh. rewrite <- Hk in Hh.
  destruct a as [[b|]|e]; [|injection Heq as <- <-; by left..].
  specialize (Ha _ eq_refl). symmetry in Ha. rewrite <- Hk in Ha.
  destruct (stored_lookup _ _ _ _ (holds_records _ _ _ _ Hh) Ha) as (r & Hr & Hb).
  unfold try in Heq. rewrite (proj2 (decode_ok b "update_state" r) Hb) in Heq.
  destruct (RedisWal.encode _) as [b'|e] eqn:He; [|injection Heq as <- <-; by left].
  apply encode_ok in He. destruct (r_hset _ _ _ s1) as [a2 s2] eqn:Hs.
  eapply write_settles; [by eapply hset_law|done| |exact Heq].
  exists r. split; [done|]. by apply holds_put_record.
Qed.

Lemma schedule_holds r s o s' recs dels reg :
  redis_schedule w r s = (o, s') → holds (keys s) recs dels reg →
  all_or_nothing s' o (λ v, holds v recs dels reg)
    (λ v, ∃ c, holds v recs (<[id (message r) := set_record_id c r]> dels) reg).
Proof.
  unfold redis_schedule. destruct (next_record_id w s) as [o1 s1] eqn:Hn.
  intros Heq Hh. pose proof (next_id_holds _ _ _ _ _ _ Hn Hh) as Hh1.
  unfold try in Heq. destruct o1 as [c|e]; [|injection Heq as <- <-; by left].
  destruct (RedisWal.encode _) as [b|e] eqn:He; [|injection Heq as <- <-; by left].
  apply encode_ok in He. destruct (r_eval_schedule _ _ _ _ _ s1) as [a s2] eqn:Hs.
  eapply write_settles; [by eapply eval_law|done| |exact Heq].
  exists c. by eapply holds_schedule.
Qed.

Lemma save_holds reg' s o s' recs dels reg :
  redis_save_worker_registry w reg' s = (o, s') → holds (keys s) recs dels reg →
  all_or_nothing s' o (λ v, holds v recs dels reg) (λ v, holds v recs dels reg').
Proof.
  unfold redis_save_worker_registry, try. intros Heq Hh.
  destruct (RedisWal.encode _) as [b|e] eqn:He; [|injection Heq as <- <-; by left].
  apply encode_ok in He. destruct (r_set _ _ s) as [a s2] eqn:Hs.
  eapply write_settles; [by eapply set_law|done| |exact Heq].
  by eapply holds_registry_put.
Qed.

Lemma ask_ok {A B} (c : result A string * R) k (x : B) s' :
  ask c k = (Ok x, s') → ∃ a s1, c = (Ok a, s1) ∧ k a s1 = (Ok x, s').
Proof. destruct c as [[a|e] s1]; simpl; [eauto|done]. Qed.

Lemma remove_holds i s s' recs dels reg :
  redis_remove_scheduled w i s = (Ok tt, s') → holds (keys s) recs dels reg →
  holds (keys s') recs (delete i dels) reg.
Proof.
  intros (n & s1 & Hz & (n' & s2 & Hd & [= <-])%ask_ok)%ask_ok Hh.
  apply zrem_law in Hz as [Hz%writes_ok _]. apply hdel_law, writes_ok in Hd.
  rewrite Hd, Hz. exact (holds_remove (keys s) recs dels reg i Hh).
Qed.

(** One turn of the loop of [fetch_ready] on an indexed id. *)
Lemma fetch_one i l ready s rs s' recs dels reg r :
  fetch_loop w (i :: l) ready s = (Ok rs, s') → holds (keys s) recs dels reg →
  dels !! i = Some r →
  ∃ s1, fetch_loop w l (ready ++ [r]) s1 = (Ok rs, s') ∧
    holds (keys s1) recs (delete i dels) reg.
Proof.
  intros (n & s1 & Hz & Heq)%ask_ok Hh Hi.
  apply zrem_law in Hz as [Hz%writes_ok Hn]. specialize (Hn _ eq_refl).
  rewrite (holds_index _ _ _ _ Hh), lookup_fmap, Hi, decide_True in Hn by done.
  rewrite decide_False in Heq by (by subst n).
  destruct (ask_ok _ _ _ _ Heq) as (ob & s2 & Hg & Heq2).
  destruct (ask_ok _ _ _ _ Heq2) as (n3 & s3 & Hd & Heq3).
  destruct (hget_law _ _ _ _ _ Hg) as [Hk Ho]. specialize (Ho _ eq_refl).
  apply hdel_law, writes_ok in Hd. rewrite Hk in Hd. rewrite Hz in Ho, Hd.
  assert (hfields (delays_key w) (keys s) !! i = ob) as Hf by done.
  pose proof (holds_delays _ _ _ _ Hh i) as Hst. rewrite Hf, Hi in Hst.
  destruct ob as [b|]; [|done]. unfold try in Heq3.
  rewrite (proj2 (decode_ok b "fetch_ready" r) Hst) in Heq3.
  exists s3. split; [done|]. rewrite Hd. exact (holds_remove (keys s) recs dels reg i Hh).
Qed.

Lemma fetch_loop_holds l ready s rs s' recs dels reg :
  fetch_loop w l ready s = (Ok rs, s') → holds (keys s) recs dels reg →
  NoDup l → (∀ i, i ∈ l → is_Some (dels !! i)) →
  holds (keys s') recs (foldl (λ m i, delete i m) dels l) reg ∧
  rs = ready ++ omap (λ i, dels !! i) l.
Proof.
  revert ready s dels. induction l as [|i l IH]; intros ready s dels Heq Hh Hnd Hin.
  - injection Heq as <- <-. by rewrite app_nil_r.
  - apply NoDup_cons in Hnd as [Hi Hnd].
    destruct (Hin i ltac:(constructor)) as [r Hr].
    destruct (fetch_one _ _ _ _ _ _ _ _ _ _ Heq Hh Hr) as (s1 & Heq1 & Hh1).
    destruct (IH _ _ _ Heq1 Hh1 Hnd) as [IH1 IH2].
    { intros j Hj. rewrite lookup_delete_ne by (by intros ->). apply Hin. by constructor. }
    split; [exact IH1|]. rewrite IH2. csimpl. rewrite Hr, <- (assoc_L (++)). simpl.
    do 2 f_equal. apply list_omap_ext, Forall_Forall2_diag, Forall_forall. intros j Hj.
    by rewrite lookup_delete_ne by (by intros ->).
Qed.

(** ** Due messages *)

Definition redis_due (now : SystemTime) (m : EMessage) : Prop :=
  score_of (deliver_at_millis (WalRecord_from_msg m)) ≤ score_of (now_millis now).
#[global] Instance redis_due_dec now m : Decision (redis_due now m) := decide (_ ≤ _).

Lemma omap_lookup_map_to_list {A} (m m' : gmap string A) :
  m' ⊆ m → omap (λ i, m !! i) (map_to_list m').*1 = (map_to_list m').*2.
Proof.
  intros Hsub. rewrite <- list_omap_fmap || idtac.
  assert (Forall (λ p, m !! p.1 = Some p.2) (map_to_list m')) as Hf.
  { apply Forall_forall. intros [i x] Hin%elem_of_map_to_list. simpl.
    by eapply lookup_weaken. }
  induction Hf as [|[i x] l Hi _ IH]; [done|]. csimpl. simpl in Hi. by rewrite Hi, IH.
Qed.

Lemma fetch_holds now s rs s' recs dels reg :
  redis_fetch_ready w now s = (Ok rs, s') → holds (keys s) recs dels reg →
  holds (keys s') recs (filter (λ p, ¬ redis_due now (message p.2)) dels) reg ∧
  rs ≡ₚ (map_to_list (filter (λ p, redis_due now (message p.2)) dels)).*2.
Proof.
  intros (l & s1 & Hz & Heq)%ask_ok Hh.
  destruct (zrange_law _ _ _ _ _ Hz) as [Hk Hl]. destruct (Hl _ eq_refl) as [Hnd Hin].
  rewrite <- Hk in Hh, Hin.
  assert (∀ i, i ∈ l ↔ ∃ r, dels !! i = Some r ∧ redis_due now (message r)) as Hin'.
  { intros i. rewrite Hin, (holds_index _ _ _ _ Hh). setoid_rewrite lookup_fmap. split.
    - intros (x & Hx & Hle). destruct (dels !! i) as [r|]; [|done]. injection Hx as <-. eauto.
    - intros (r & -> & Hle). eexists. split; [done|]. exact Hle. }
  destruct (fetch_loop_holds _ _ _ _ _ _ _ _ Heq Hh Hnd) as [Hh' ->].
  { intros i (r & -> & _)%Hin'. done. }
  split.
  - assert (foldl (λ m i, delete i m) dels l =
      filter (λ p, ¬ redis_due now (message p.2)) dels) as <-; [|done].
    apply map_eq. intros i. rewrite foldl_delete, map_lookup_filter.
    destruct (dels !! i) as [r|] eqn:Hi; simpl; [|by case_decide].
    destruct (decide (redis_due now (message r))) as [Hd|Hd].
    + rewrite option_guard_False by naive_solver. rewrite decide_True; [done|].
      apply Hin'. eauto.
    + rewrite option_guard_True by done. rewrite decide_False; [done|].
      intros (r' & Hr' & Hd')%Hin'. naive_solver.
  - simpl. rewrite <- (omap_lookup_map_to_list dels) by apply map_filter_subseteq.
    assert (l ≡ₚ (map_to_list (filter (λ p, redis_due now (message p.2)) dels)).*1) as <-; [|done].
    apply NoDup_Permutation; [done|apply NoDup_fst_map_to_list|]. intros i. rewrite Hin'.
    rewrite list_elem_of_fmap. split.
    + intros (r & Hi & Hd). exists (i, r). split; [done|].
      by apply elem_of_map_to_list, map_lookup_filter_Some.
    + intros [[j r] [-> Hj%elem_of_map_to_list]].
      apply map_lookup_filter_Some in Hj as [? ?]. eauto.
Qed.

(** ** Refinement *)

(** The log of [RedisWal]: as the contract says, with its own notion of due;
    an update of an unknown id does not succeed. *)
Definition redis_abs_step (op : WalOp) (a : WalAbs) : WalAbs :=
  match op with
  | OpFetch now =>
      {| a_records := a_records a;
         a_delays := filter (λ p, ¬ redis_due now p.2) (a_delays a);
         a_registry := a_registry a |}
  | op => abs_step op a
  end.

(** An operation without its result. *)
Definition redis_step (op : WalOp) (s : R) : Res unit * R :=
  let drop {A} (p : Res A * R) : Res unit * R :=
    (match p.1 with Ok _ => Ok tt | Err e => Err e end, p.2) in
  match op with
  | OpAppend r => redis_append w r s
  | OpUpdate _ i st => redis_update_state w i st s
  | OpReplay => drop (redis_replay_pending w s)
  | OpFlush => redis_flush s
  | OpSchedule r => redis_schedule w r s
  | OpFetch now => drop (redis_fetch_ready w now s)
  | OpRemove i => redis_remove_scheduled w i s
  | OpSave reg => redis_save_worker_registry w reg s
  | OpLoad => drop (redis_load_worker_registry w s)
  end.

Fixpoint redis_run (ops : list WalOp) (s : R) : option R :=
  match ops with
  | [] => Some s
  | op :: ops => match redis_step op s with (Ok _, s1) => redis_run ops s1 | _ => None end
  end.

Lemma read_keys s s' :
  (∃ r, redis_replay_pending w s = (r, s')) ∨ (∃ r, redis_load_worker_registry w s = (r, s')) →
  keys s' = keys s.
Proof.
  intros [[r Hr]|[r Hr]].
  - unfold redis_replay_pending, ask, try in Hr. destruct (r_hgetall _ s) as [a s1] eqn:Hg.
    destruct (hgetall_law _ _ _ _ Hg) as [<- _].
    destruct a as [all|]; [destruct (collect_pending all [])|]; by injection Hr as _ <-.
  - unfold redis_load_worker_registry, ask in Hr. destruct (r_get _ s) as [a s1] eqn:Hg.
    destruct (get_law _ _ _ _ Hg) as [<- _].
    destruct a as [[b|]|]; by injection Hr as _ <-.
Qed.

Lemma filter_due_message now (dels : gmap string WalRecord) :
  filter (λ p, ¬ redis_due now p.2) (message <$> dels) =
  message <$> filter (λ p, ¬ redis_due now (message p.2)) dels.
Proof. by rewrite map_filter_fmap. Qed.

Lemma redis_step_rep op s s' a :
  rep s a → redis_step op s = (Ok tt, s') → rep s' (redis_abs_step op a).
Proof.
  intros (recs & dels & Hh & Hr & Hd) Heq.
  destruct op as [r|e i st| | |r|now|i|reg|]; simpl in Heq.
  - destruct (append_holds _ _ _ _ _ _ _ Heq Hh) as [c Hc].
    eexists _, _. split; [exact Hc|]. simpl. by rewrite Hr, fmap_insert.
  - destruct (update_holds _ _ _ _ _ _ _ _ Heq Hh) as (r & Hi & Hc).
    eexists _, _. split; [exact Hc|]. simpl. rewrite Hr, lookup_fmap, Hi. simpl.
    by rewrite fmap_insert.
  - destruct (redis_replay_pending w s) as [r s1] eqn:Hp. injection Heq as _ <-.
    exists recs, dels. rewrite (read_keys s s1) by (left; eauto). done.
  - injection Heq as <-. by exists recs, dels.
  - destruct (schedule_holds _ _ _ _ _ _ _ Heq Hh) as [c Hc].
    eexists _, _. split; [exact Hc|]. simpl. by rewrite Hd, fmap_insert.
  - destruct (redis_fetch_ready w now s) as [[rs|] s1] eqn:Hp; [|done]. injection Heq as <-.
    destruct (fetch_holds _ _ _ _ _ _ _ Hp Hh) as [Hc _].
    eexists _, _. split; [exact Hc|]. simpl. by rewrite Hd, filter_due_message.
  - pose proof (remove_holds _ _ _ _ _ _ Heq Hh) as Hc.
    eexists _, _. split; [exact Hc|]. simpl. by rewrite Hd, fmap_delete.
  - pose proof (save_holds _ _ _ _ _ _ _ Heq Hh) as Hc. by exists recs, dels.
  - destruct (redis_load_worker_registry w s) as [r s1] eqn:Hp. injection Heq as _ <-.
    exists recs, dels. rewrite (read_keys s s1) by (right; eauto). done.
Qed.

Lemma redis_run_rep ops s s' a :
  rep s a → redis_run ops s = Some s' → rep s' (foldl (flip redis_abs_step) a ops).
Proof.
  revert s a. induction ops as [|op ops IH]; intros s a Ha Hr; simpl in Hr.
  - by injection Hr as <-.
  - destruct (redis_step op s) as [[[]|] s1] eqn:Hs; [|done].
    simpl. apply (IH s1); [|done]. by eapply redis_step_rep.
Qed.

(** What the reads of a represented log return. *)
Lemma collect_pending_spec all acc rs :
  collect_pending all acc = Ok rs →
  ∃ rall, Forall2 (λ p r, decode_payload p.2 = Some r) all rall ∧
    rs = acc ++ filter (λ r, status r = Pending) rall.
Proof.
  revert acc. induction all as [|[i b] all IH]; intros acc; simpl.
  - intros [= <-]. exists []. by rewrite app_nil_r.
  - destruct (RedisWal.decode b _) as [r|e] eqn:Hd; [|done].
    intros (rall & Hf & ->)%IH. exists (r :: rall). split.
    + constructor; [by apply decode_ok in Hd|done].
    + rewrite filter_cons. case_decide; [by rewrite <- (assoc_L (++))|done].
Qed.

Lemma stored_list f m all rall :
  stored f m → all ≡ₚ map_to_list f → Forall2 (λ p r, decode_payload p.2 = Some r) all rall →
  rall ≡ₚ (map_to_list m).*2.
Proof.
  intros Hs Hp Hf.
  assert (Forall2 (λ p r, m !! p.1 = Some r) all rall) as Hm.
  { assert (∀ p, p ∈ all → f !! p.1 = Some p.2) as Hin.
    { intros [i b]. rewrite Hp. apply elem_of_map_to_list. }
    clear Hp. induction Hf as [|[i b] r all rall Hd Hf IH]; constructor.
    - pose proof (Hin (i, b) ltac:(constructor)) as Hi. simpl in *.
      destruct (stored_lookup _ _ _ _ Hs Hi) as (r' & Hr' & Hb). congruence.
    - apply IH. intros p Hin'. apply Hin. by constructor. }
  assert (rall = omap (λ i, m !! i) all.*1) as ->.
  { clear Hp Hf. induction Hm as [|[i b] r all rall Hi _ IH]; [done|]. csimpl. simpl in Hi.
    by rewrite Hi, IH at 1. }
  rewrite <- (omap_lookup_map_to_list m m) by done.
  assert (all.*1 ≡ₚ (map_to_list m).*1) as ->; [|done].
  rewrite Hp. apply NoDup_Permutation; [apply NoDup_fst_map_to_list..|].
  intros i. rewrite !list_elem_of_fmap. split; intros [[j x] [-> Hj%elem_of_map_to_list]].
  - destruct (stored_lookup _ _ _ _ Hs Hj) as (r & Hr & _).
    exists (j, r). by rewrite elem_of_map_to_list.
  - specialize (Hs j). rewrite Hj in Hs. simpl. destruct (f !! j) as [b|] eqn:Hf'; [|done].
    exists (j, b). by rewrite elem_of_map_to_list.
Qed.
End refinement.

(** ** Claims *)

Section claims.
Context {R : Type} `{RedisLaws R} `{BincodeLaws WalRecord}.
Context `{BincodeLaws (gmap string WorkerInfo)}.

Lemma replay_result (w : RedisWal) (s s' : R) a rs :
  rep w s a → redis_replay_pending w s = (Ok rs, s') →
  message <$> rs ≡ₚ (filter (λ p, p.2 = Pending) (map_to_list (a_records a)).*2).*1 ∧
  Sorted by_record_id rs.
Proof.
  intros (recs & dels & Hh & Hr & _) (all & s1 & Hg & Heq)%ask_ok.
  destruct (hgetall_law _ _ _ _ Hg) as [_ Hl]. specialize (Hl _ eq_refl).
  unfold try in Heq. destruct (collect_pending all []) as [pending|] eqn:Hc; [|done].
  injection Heq as <- _. destruct (collect_pending_spec _ _ _ Hc) as (rall & Hf & ->).
  split.
  - rewrite merge_sort_Permutation. simpl.
    rewrite (stored_list _ _ _ _ (holds_records _ _ _ _ _ Hh) Hl Hf), Hr.
    rewrite map_to_list_fmap, <- !list_fmap_compose.
    generalize (map_to_list recs). intros l. induction l as [|[i r] l IH]; [done|].
    csimpl. rewrite !filter_cons. simpl. case_decide; csimpl; by rewrite IH.
  - apply Sorted_merge_sort. intros x y. unfold by_record_id. lia.
Qed.

Lemma load_result (w : RedisWal) (s s' : R) a reg :
  rep w s a → redis_load_worker_registry w s = (Ok reg, s') → reg = a_registry a.
Proof.
  intros (recs & dels & Hh & _) (ob & s1 & Hg & Heq)%ask_ok.
  destruct (get_law _ _ _ _ Hg) as [_ Ho]. specialize (Ho _ eq_refl).
  pose proof (holds_registry _ _ _ _ _ Hh) as Hreg. rewrite <- Ho in Hreg.
  destruct ob as [b|]; injection Heq as Heq _; [|congruence].
  apply decode_ok in Heq. congruence.
Qed.

Lemma fetch_result (w : RedisWal) now (s s' : R) a rs :
  rep w s a → redis_fetch_ready w now s = (Ok rs, s') →
  message <$> rs ≡ₚ (map_to_list (filter (λ p, redis_due now p.2) (a_delays a))).*2.
Proof.
  intros (recs & dels & Hh & _ & Hd) Hf.
  destruct (fetch_holds _ _ _ _ _ _ _ _ Hf Hh) as [_ ->].
  rewrite Hd, map_filter_fmap, map_to_list_fmap, <- !list_fmap_compose. done.
Qed.

(** C16. A run of operations that the server answers takes the keys of the
    prefix through the steps of the abstract log; afterwards a replay
    returns the messages logged as pending in the order of their record ids,
    a fetch the delayed messages that are due, and a load the registry. *)
Theorem redis_wal_refines_log (w : RedisWal) (ops : list WalOp) (s s' : R) (a : WalAbs) :
  rep w s a → redis_run w ops s = Some s' →
  let a' := foldl (flip redis_abs_step) a ops in
  rep w s' a' ∧
  (∀ rs s'', redis_replay_pending w s' = (Ok rs, s'') →
    message <$> rs ≡ₚ (filter (λ p, p.2 = Pending) (map_to_list (a_records a')).*2).*1 ∧
    Sorted by_record_id rs) ∧
  (∀ now rs s'', redis_fetch_ready w now s' = (Ok rs, s'') →
    message <$> rs ≡ₚ (map_to_list (filter (λ p, redis_due now p.2) (a_delays a'))).*2) ∧
  (∀ reg s'', redis_load_worker_registry w s' = (Ok reg, s'') → reg = a_registry a').
Proof.
  intros Ha Hr a'. pose proof (redis_run_rep w _ _ _ _ Ha Hr) as Ha'. split_and!; [done|..].
  - intros rs s''. by apply replay_result.
  - intros now rs s''. by apply fetch_result.
  - intros reg s''. by apply load_result.
Qed.

(** The operations that are one command on the data. *)
Definition single_write (op : WalOp) : bool :=
  match op with OpFetch _ | OpRemove _ => false | _ => true end.

(** C26. [append], [update_state], [schedule] and [save_worker_registry] of
    the Redis WAL, and the operations that only read, leave the log as it was
    or as after success, never in between, when they fail at any command; an
    update of an id that the log does not know fails and changes nothing.
    ([remove_scheduled] and [fetch_ready] send several writes and can stop
    between them.) *)
Theorem redis_write_all_or_nothing (w : RedisWal) (op : WalOp) (s s' : R) (a : WalAbs) o :
  rep w s a → single_write op = true → redis_step w op s = (o, s') →
  match o with
  | Ok _ => rep w s' (redis_abs_step op a)
  | Err _ => rep w s' a ∨ rep w s' (redis_abs_step op a)
  end ∧
  ∀ e i st, op = OpUpdate e i st → a_records a !! i = None → is_ok o = false ∧ rep w s' a.
Proof.
  intros Ha Hop Heq. split.
  - destruct o as [[]|err]; [by eapply redis_step_rep|].
    destruct Ha as (recs & dels & Hh & Hr & Hd).
    destruct op as [r|e i st| | |r|now|i|reg|]; try done; simpl in Heq.
    + destruct (append_holds _ _ _ _ _ _ _ _ Heq Hh) as [Hc|[c Hc]]; [left|right];
        eexists _, _; (split; [exact Hc|]); [done|]. simpl. by rewrite Hr, fmap_insert.
    + destruct (update_holds _ _ _ _ _ _ _ _ _ Heq Hh) as [Hc|(r & Hi & Hc)]; [left|right];
        eexists _, _; (split; [exact Hc|]); [done|]. simpl. rewrite Hr, lookup_fmap, Hi. simpl.
      by rewrite fmap_insert.
    + destruct (redis_replay_pending w s) as [r s1] eqn:Hp. injection Heq as _ <-. left.
      exists recs, dels. rewrite (read_keys w s s1) by (left; eauto). done.
    + destruct (schedule_holds _ _ _ _ _ _ _ _ Heq Hh) as [Hc|[c Hc]]; [left|right];
        eexists _, _; (split; [exact Hc|]); [done|]. simpl. by rewrite Hd, fmap_insert.
    + destruct (save_holds _ _ _ _ _ _ _ _ Heq Hh) as [Hc|Hc]; [left|right]; by exists recs, dels.
    + destruct (redis_load_worker_registry w s) as [r s1] eqn:Hp. injection Heq as _ <-. left.
      exists recs, dels. rewrite (read_keys w s s1) by (right; eauto). done.
  - intros e i st -> Hi. destruct Ha as (recs & dels & Hh & Hr & Hd).
    rewrite Hr, lookup_fmap in Hi. destruct (recs !! i) eqn:Hri; [done|].
    pose proof (update_holds _ _ _ _ _ _ _ _ _ Heq Hh) as Hu.
    unfold all_or_nothing in Hu. destruct o as [[]|err]; simpl in Hu.
    + destruct Hu as (? & ? & _). congruence.
    + split; [done|]. destruct Hu as [Hc|(? & ? & _)]; [|congruence]. by exists recs, dels.
Qed.

(** ** Delivery times *)

(** Times that the score holds exactly: some 285,000 years. *)
Definition exact_time (t : SystemTime) : Prop := 0 ≤ t < 2 ^ 53 * nanos_per_milli.

Lemma exact_millis t : exact_time t → 0 ≤ t / nanos_per_milli < 2 ^ 53.
Proof.
  unfold exact_time, nanos_per_milli. intros [? ?]. split; [by apply Z.div_pos; lia|].
  apply Z.div_lt_upper_bound; lia.
Qed.

Lemma as_i64_id z : 0 ≤ z < 2 ^ 53 → as_i64 z = z.
Proof. intros ?. unfold as_i64. rewrite Z.mod_small; lia. Qed.

Lemma millis_score t : exact_time t →
  score_of (as_i64 (as_millis t)) = t / nanos_per_milli.
Proof.
  intros Ht%exact_millis. unfold as_millis. rewrite as_i64_id by done.
  apply score_exact. lia.
Qed.

Lemma since_epoch_pos t : exact_time t → since_epoch t = Ok t.
Proof.
  intros [? _]. unfold since_epoch, duration_since. rewrite decide_True by done.
  by rewrite Z.sub_0_r.
Qed.

(** Delivery times are compared in whole milliseconds: a delayed message is
    fetched exactly when the millisecond of its time is not after the
    current one.  So nothing that is due is missed, nothing comes a
    millisecond early, and a message without a time is never fetched. *)
Theorem redis_due_by_millisecond (now : SystemTime) (m : EMessage) :
  exact_time now → (∀ t, deliver_at m = Some t → exact_time t) →
  (redis_due now m ↔
     ∃ t, deliver_at m = Some t ∧ t / nanos_per_milli ≤ now / nanos_per_milli) ∧
  (due now m → redis_due now m) ∧
  (redis_due now m → ∃ t, deliver_at m = Some t ∧ t < now + nanos_per_milli).
Proof.
  intros Hnow Ht.
  assert (redis_due now m ↔
    ∃ t, deliver_at m = Some t ∧ t / nanos_per_milli ≤ now / nanos_per_milli) as Hiff.
  { unfold redis_due, now_millis. rewrite (since_epoch_pos now) by done. simpl.
    rewrite (millis_score now) by done. unfold deliver_at_millis. simpl.
    destruct (deliver_at m) as [t|].
    - rewrite (since_epoch_pos t), (millis_score t) by auto. naive_solver.
    - split; [|naive_solver]. pose proof (exact_millis now Hnow).
      pose proof (score_exact (2 ^ 53) ltac:(lia)).
      pose proof (score_mono (2 ^ 53) i64_max ltac:(unfold i64_max; lia)). lia. }
  split_and!; [done|..]; rewrite Hiff.
  - unfold due. destruct (deliver_at m) as [t|]; [|done]. intros. exists t. split; [done|].
    by apply Z.div_le_mono.
  - intros (t & Hm & Hle). exists t. split; [done|]. 
    assert (0 < nanos_per_milli) as Hp by done.
    pose proof (Z.div_mod t nanos_per_milli ltac:(lia)).
    pose proof (Z.div_mod now nanos_per_milli ltac:(lia)).
    pose proof (Z.mod_pos_bound t _ Hp). pose proof (Z.mod_pos_bound now _ Hp). nia.
Qed.
End claims.

(** A server without the keys of the prefix holds the empty log. *)
Lemma rep_empty {R} `{RedisLaws R} `{BincodeLaws WalRecord}
    `{BincodeLaws (gmap string WorkerInfo)} (w : RedisWal) (s : R) :
  keys s = {| rk_hashes := ∅; rk_zsets := ∅; rk_strings := ∅; rk_counters := ∅ |} →
  rep w s abs_empty.
Proof.
  intros Hs. exists ∅, ∅. rewrite Hs. split; [|done]. by split.
Qed.

(** ** Examples on the reference server *)
Section examples.
Import RedisRef SerCodec.
Open Scope string_scope.

Definition no_keys : RedisKeys :=
  {| rk_hashes := ∅; rk_zsets := ∅; rk_strings := ∅; rk_counters := ∅ |}.

Definition demo_redis_record (i : string) (t : option SystemTime) : WalRecord :=
  WalRecord_from_msg (set_deliver_at t (EMessage_new i 5 "orders" [104; 105]%Z Standard None)).

Definition demo_redis_ops : list WalOp :=
  [OpAppend (demo_redis_record "a" None);
   OpAppend (demo_redis_record "b" None);
   OpSchedule (demo_redis_record "c" (Some 7000000)%Z);
   OpUpdate {| we_uuid := "u"; we_now := 0 |} "a" Complete;
   OpSchedule (demo_redis_record "d" (Some 9000000)%Z)].

Lemma redis_wal_refines_log_witness :
  rep RedisWal_default no_keys abs_empty ∧
  ∃ s', redis_run RedisWal_default demo_redis_ops no_keys = Some s' ∧
    rep RedisWal_default s' (foldl (flip redis_abs_step) abs_empty demo_redis_ops).
Proof.
  assert (rep RedisWal_default no_keys abs_empty) as He by (by apply rep_empty).
  split; [exact He|].
  assert (is_Some (redis_run RedisWal_default demo_redis_ops no_keys)) as [s' Hs]
    by (vm_compute; eexists; reflexivity).
  exists s'. split; [exact Hs|].
  exact (proj1 (redis_wal_refines_log RedisWal_default demo_redis_ops no_keys s' abs_empty He Hs)).
Defined.

Lemma redis_write_all_or_nothing_witness :
  ∃ o s', redis_step RedisWal_default (OpUpdate {| we_uuid := "u"; we_now := 0 |} "x" Failed)
            no_keys = (o, s') ∧
          is_ok o = false ∧ rep RedisWal_default s' abs_empty.
Proof.
  eexists _, _. split; [reflexivity|].
  refine (proj2 (redis_write_all_or_nothing RedisWal_default
    (OpUpdate {| we_uuid := "u"; we_now := 0 |} "x" Failed) no_keys _ abs_empty _ _ _ _)
    _ _ _ eq_refl _).
  - by apply rep_empty.
  - reflexivity.
  - reflexivity.
  - reflexivity.
Defined.

(** A message for the instant 7.9 ms is fetched at 7.1 ms. *)
Lemma redis_due_by_millisecond_witness :
  redis_due 7100000 (message (demo_redis_record "c" (Some 7900000)%Z)).
Proof.
  apply (proj1 (redis_due_by_millisecond 7100000
    (message (demo_redis_record "c" (Some 7900000)%Z))
    ltac:(unfold exact_time, nanos_per_milli; lia)
    ltac:(simpl; intros t [= <-]; unfold exact_time, nanos_per_milli; lia))).
  exists 7900000%Z. split; [reflexivity|]. vm_compute. discriminate.
Defined.

(** A delivery time of 2^63 milliseconds is due at once. *)
Lemma far_future_due :
  redis_due 0 (message (demo_redis_record "c" (Some (2 ^ 63 * nanos_per_milli))%Z)) ∧
  ¬ due 0 (message (demo_redis_record "c" (Some (2 ^ 63 * nanos_per_milli))%Z)).
Proof. split; [vm_compute; discriminate|]. vm_compute. by intros []. Qed.

(** Two delayed messages of which the second does not decode: the fetch
    claims and deletes the first, then fails, and the first is in neither
    the reply nor the server. *)
Definition corrupt_delays : RedisKeys :=
  let w := RedisWal_default in
  let s := (redis_schedule w (demo_redis_record "c" (Some 0%Z)) no_keys).2 in
  (r_eval_schedule (delays_key w) (delay_index_key w) "x" [] 0%Z s).2.

(** [fetch_ready] takes the due records out of Redis one by one and fails
    at the first that does not decode: the records taken before it are in
    neither its answer nor the server. *)
Theorem fetch_failure_loses_records :
  let s' := (redis_fetch_ready RedisWal_default 1 corrupt_delays).2 in
  is_Some (hfields (delays_key RedisWal_default) corrupt_delays !! "c") ∧
  is_ok (redis_fetch_ready RedisWal_default 1 corrupt_delays).1 = false ∧
  hfields (delays_key RedisWal_default) s' = ∅ ∧
  zscores (delay_index_key RedisWal_default) s' = ∅.
Proof.
  split_and!.
  - vm_compute. eexists. reflexivity.
  - vm_compute. reflexivity.
  - vm_compute. reflexivity.
  - vm_compute. reflexivity.
Qed.
End examples.
