(* ===== verification/RedisFleet.v ===== *)
(** * Nodes that share a Redis WAL

    The handles of one prefix, on any number of nodes (and two on each, see
    [NodeWal]), against one server: every command is a step, so operations
    interleave at each command, and a node can crash between any two of them.
    [RedisWal] has the operations as functions of the server; here they are
    programs whose effects are the commands, and [wal_programs_refine] (in
    [RedisFleetTheorems]) shows that, run alone, a program is the function. *)
From stdpp Require Import relations.
From S2P Require Import Prelude Prog Interleave Errors Message Codec Wal WalTheorems RedisWal.

(** ** Commands *)

Inductive WalCmd : Type → Type :=
| KIncr (k : string) : WalCmd (result Z string)
| KHset (k i : string) (b : bytes) : WalCmd (result Z string)
| KHget (k i : string) : WalCmd (result (option bytes) string)
| KHgetall (k : string) : WalCmd (result (list (string * bytes)) string)
| KHdel (k i : string) : WalCmd (result Z string)
| KZrangebyscore (k : string) (max : Z) : WalCmd (result (list string) string)
| KZrem (k i : string) : WalCmd (result Z string)
| KEvalSchedule (kh kz i : string) (b : bytes) (x : Z) : WalCmd (result Z string)
| KSet (k : string) (b : bytes) : WalCmd (result unit string)
| KGet (k : string) : WalCmd (result (option bytes) string).

Definition walcmd_run {R} `{Redis R} (X : Type) (e : WalCmd X) (s : R) : X * R :=
  match e in WalCmd X return X * R with
  | KIncr k => r_incr k s
  | KHset k i b => r_hset k i b s
  | KHget k i => r_hget k i s
  | KHgetall k => r_hgetall k s
  | KHdel k i => r_hdel k i s
  | KZrangebyscore k max => r_zrangebyscore k max s
  | KZrem k i => r_zrem k i s
  | KEvalSchedule kh kz i b x => r_eval_schedule kh kz i b x s
  | KSet k b => r_set k b s
  | KGet k => r_get k s
  end.

(** ** The operations, command by command *)

Abbreviation WalProg A := (prog WalCmd (Res A)).

(** [query_async(..).await.map_err(backend_err)?]. *)
Definition query {A} (e : WalCmd (result A string)) : WalProg A :=
  Vis e (λ r, Ret (map_err backend_err r)).

Section ops.
Context `{Bincode WalRecord} `{Bincode (gmap string WorkerInfo)}.
Context (w : RedisWal).

Definition p_next_record_id : WalProg Z :=
  n <-? query (KIncr (counter_key w)) ;; Ret (Ok (Z.max n 0)).

Definition p_append (r : WalRecord) : WalProg unit :=
  c <-? p_next_record_id ;;
  let r := set_record_id c r in
  blob <-? Ret (encode r) ;;
  query (KHset (records_key w) (id (message r)) blob) ?;;
  Ret (Ok tt).

Definition p_update_state (message_id : string) (st : WalRecordState) : WalProg unit :=
  existing <-? query (KHget (records_key w) message_id) ;;
  match existing with
  | None => Ret (Err (EWal (RecordNotFound message_id)))
  | Some b =>
      r <-? Ret (RedisWal.decode b "update_state"%string) ;;
      blob <-? Ret (encode (set_record_status st r)) ;;
      query (KHset (records_key w) message_id blob) ?;;
      Ret (Ok tt)
  end.

Definition p_replay_pending : WalProg (list WalRecord) :=
  all <-? query (KHgetall (records_key w)) ;;
  pending <-? Ret (collect_pending all []) ;;
  Ret (Ok (merge_sort by_record_id pending)).

Definition p_schedule (r : WalRecord) : WalProg unit :=
  c <-? p_next_record_id ;;
  let r := set_record_id c r in
  blob <-? Ret (encode r) ;;
  query (KEvalSchedule (delays_key w) (delay_index_key w) (id (message r)) blob
           (deliver_at_millis r)) ?;;
  Ret (Ok tt).

Fixpoint p_fetch_loop (due : list string) (ready : list WalRecord) : WalProg (list WalRecord) :=
  match due with
  | [] => Ret (Ok ready)
  | msg_id :: due =>
      claimed <-? query (KZrem (delay_index_key w) msg_id) ;;
      if decide (claimed = 0%Z) then p_fetch_loop due ready
      else
        ob <-? query (KHget (delays_key w) msg_id) ;;
        query (KHdel (delays_key w) msg_id) ?;;
        match ob with
        | None => p_fetch_loop due ready
        | Some b =>
            r <-? Ret (RedisWal.decode b "fetch_ready"%string) ;;
            p_fetch_loop due (ready ++ [r])
        end
  end.

Definition p_fetch_ready (now : SystemTime) : WalProg (list WalRecord) :=
  due <-? query (KZrangebyscore (delay_index_key w) (now_millis now)) ;;
  p_fetch_loop due [].

Definition p_remove_scheduled (msg_id : string) : WalProg unit :=
  query (KZrem (delay_index_key w) msg_id) ?;;
  query (KHdel (delays_key w) msg_id) ?;;
  Ret (Ok tt).

Definition p_save_worker_registry (registry : gmap string WorkerInfo) : WalProg unit :=
  blob <-? Ret (encode registry) ;;
  query (KSet (registry_key w) blob) ?;;
  Ret (Ok tt).

Definition p_load_worker_registry : WalProg (gmap string WorkerInfo) :=
  blob <-? query (KGet (registry_key w)) ;;
  match blob with
  | Some b => Ret (RedisWal.decode b "load_worker_registry"%string)
  | None => Ret (Ok ∅)
  end.

(** ** The fleet *)

Inductive WalReply : Type :=
| RUnit (r : Res unit)
| RRecords (r : Res (list WalRecord))
| RRegistry (r : Res (gmap string WorkerInfo)).

Definition replying {A} (f : Res A → WalReply) (p : WalProg A) : prog WalCmd WalReply :=
  bind p (λ r, Ret (f r)).

Definition wal_op_code (op : WalOp) : prog WalCmd WalReply :=
  match op with
  | OpAppend r => replying RUnit (p_append r)
  | OpUpdate _ i st => replying RUnit (p_update_state i st)
  | OpReplay => replying RRecords p_replay_pending
  | OpFlush => Ret (RUnit (Ok tt))
  | OpSchedule r => replying RUnit (p_schedule r)
  | OpFetch now => replying RRecords (p_fetch_ready now)
  | OpRemove i => replying RUnit (p_remove_scheduled i)
  | OpSave reg => replying RUnit (p_save_worker_registry reg)
  | OpLoad => replying RRegistry p_load_worker_registry
  end.

(** What nodes call; no code calls [remove_scheduled]. *)
Definition called (op : WalOp) : Prop :=
  match op with OpRemove _ => False | _ => True end.
End ops.

Section fleet.
Context {R : Type} `{RedisLaws R} `{Bincode WalRecord} `{Bincode (gmap string WorkerInfo)}.
Context (w : RedisWal).

Definition fleet_eff (X : Type) (e : WalCmd X) (s : R) (a : X) (s' : R) : Prop :=
  walcmd_run X e s = (a, s').

(** A handle is called again and again; new handles are opened; any of them
    stops for good at any command. *)
Definition fleet_next (_ : WalOp) (_ : WalReply) (s : R) (op : WalOp) (s' : R) : Prop :=
  called op ∧ s' = s.
Definition fleet_spawn (s : R) (op : WalOp) (s' : R) : Prop := called op ∧ s' = s.

(** Other programs leave the delayed messages of the prefix alone. *)
Definition fleet_env (s s' : R) : Prop :=
  hfields (delays_key w) (keys s') = hfields (delays_key w) (keys s) ∧
  zscores (delay_index_key w) (keys s') = zscores (delay_index_key w) (keys s).

Abbreviation FleetConf := (Conf (E := WalCmd) (S := R) (R := WalOp) (L := WalReply)).

Definition fleet_step : FleetConf → FleetConf → Prop :=
  conf_step fleet_eff (wal_op_code w) fleet_next fleet_spawn (λ _, True) fleet_env.

(** No delayed messages, no handles. *)
Definition fleet_start (s : R) : FleetConf := {| shared := s; tasks := [] |}.

Definition fleet_reaches (c : FleetConf) : Prop :=
  ∃ s, hfields (delays_key w) (keys s) = ∅ ∧ zscores (delay_index_key w) (keys s) = ∅ ∧
       rtc fleet_step (fleet_start s) c.
End fleet.
