(* ===== verification/RedisFleetTheorems.v ===== *)
(** * Theorems on nodes that share a Redis WAL

    Run alone, the programs of [RedisFleet] are the operations of [RedisWal]
    ([wal_programs_refine]).  Interleaved, a delayed message of its own id is
    waiting, in hand or given to one scheduler, exactly once. *)
From stdpp Require Import relations.
From S2P Require Import Prelude Prog Interleave Errors Message Codec Wal WalTheorems RedisWal RedisWalTheorems RedisFleet.

(** ** Alone, the programs are the operations *)

Section refine.
Context {R : Type} `{Redis R} `{Bincode WalRecord} `{Bincode (gmap string WorkerInfo)}.
Context (w : RedisWal).

Definition performs {A} (p : prog WalCmd A) (f : R → A * R) : Prop :=
  ∀ s, run_outcome walcmd_run p s = Done (f s).1 ∧ run_state walcmd_run p s = (f s).2.

Lemma performs_ret {A} (a : A) : performs (Ret a) (λ s, (a, s)).
Proof. by intros s. Qed.

Lemma performs_ask {A B} (e : WalCmd (result A string)) (k : A → WalProg B) g :
  (∀ a, performs (k a) (g a)) → performs (bind_ok (query e) k) (λ s, ask (walcmd_run _ e s) g).
Proof.
  intros Hk s. unfold query. cbn [bind_ok bind]. rewrite run_outcome_vis, run_state_vis.
  destruct (walcmd_run _ e s) as [[a|er] s1]; simpl; [apply Hk|done].
Qed.

Lemma performs_try {A B} (r : Res A) (k : A → WalProg B) g :
  (∀ a, performs (k a) (g a)) → performs (bind_ok (Ret r) k) (λ s, try r s (λ a, g a s)).
Proof. intros Hk s. destruct r as [a|e]; [apply Hk|done]. Qed.

Lemma performs_replying {A} (f : Res A → WalReply) (p : WalProg A) g :
  performs p g → performs (replying f p) (λ s, (f (g s).1, (g s).2)).
Proof.
  intros Hp s. unfold replying. rewrite run_outcome_bind, run_state_bind.
  destruct (Hp s) as [-> ->]. done.
Qed.

(** Drawing an id first. *)
Lemma performs_id {B} (k : Z → WalProg B) g :
  (∀ c, performs (k c) (g c)) →
  performs (bind_ok (p_next_record_id w) k)
    (λ s, let '(o, s) := next_record_id w s in try o s (λ c, g c s)).
Proof.
  intros Hk s. unfold p_next_record_id, next_record_id, query, ask. cbn [bind_ok bind].
  rewrite run_outcome_vis, run_state_vis. simpl.
  destruct (r_incr (counter_key w) s) as [[n|e] s1]; simpl; [apply Hk|done].
Qed.

Lemma fetch_loop_performs due ready :
  performs (p_fetch_loop w due ready) (fetch_loop w due ready).
Proof.
  revert ready. induction due as [|i due IH]; intros ready; [apply performs_ret|].
  apply (performs_ask (KZrem (delay_index_key w) i)). intros claimed. case_decide; [apply IH|].
  apply (performs_ask (KHget (delays_key w) i)). intros ob.
  apply (performs_ask (KHdel (delays_key w) i)). intros _. destruct ob as [b|]; [|apply IH].
  apply (performs_try (RedisWal.decode b "fetch_ready"%string)). intros r. apply IH.
Qed.

(** Run alone, the programs do what the operations do. *)
Lemma wal_programs_refine :
  (∀ r, performs (p_append w r) (redis_append w r)) ∧
  (∀ i st, performs (p_update_state w i st) (redis_update_state w i st)) ∧
  performs (p_replay_pending w) (redis_replay_pending w) ∧
  (∀ r, performs (p_schedule w r) (redis_schedule w r)) ∧
  (∀ now, performs (p_fetch_ready w now) (redis_fetch_ready w now)) ∧
  (∀ i, performs (p_remove_scheduled w i) (redis_remove_scheduled w i)) ∧
  (∀ reg, performs (p_save_worker_registry w reg) (redis_save_worker_registry w reg)) ∧
  performs (p_load_worker_registry w) (redis_load_worker_registry w).
Proof.
  split_and!.
  - intros r. apply (performs_id _ (λ c s, _)). intros c.
    apply (performs_try (encode (set_record_id c r))). intros b.
    apply (performs_ask (KHset _ _ b)). intros _. apply performs_ret.
  - intros i st. apply (performs_ask (KHget _ i)). intros [b|]; [|apply performs_ret].
    apply (performs_try (RedisWal.decode b "update_state"%string)). intros r.
    apply (performs_try (encode (set_record_status st r))). intros b'.
    apply (performs_ask (KHset _ i b')). intros _. apply performs_ret.
  - apply (performs_ask (KHgetall _)). intros all. apply (performs_try (collect_pending all [])).
    intros p. apply performs_ret.
  - intros r. apply (performs_id _ (λ c s, _)). intros c.
    apply (performs_try (encode (set_record_id c r))). intros b.
    apply (performs_ask (KEvalSchedule _ _ _ b _)). intros _. apply performs_ret.
  - intros now. apply (performs_ask (KZrangebyscore _ _)). intros due. apply fetch_loop_performs.
  - intros i. apply (performs_ask (KZrem _ i)). intros _. apply (performs_ask (KHdel _ i)).
    intros _. apply performs_ret.
  - intros reg. apply (performs_try (encode reg)). intros b. apply (performs_ask (KSet _ b)).
    intros _. apply performs_ret.
  - apply (performs_ask (KGet _)). intros [b|]; apply performs_ret.
Qed.
End refine.

(** ** What the commands of a fleet did *)

Section fleet.
Context {R : Type} `{RedisLaws R} `{BincodeLaws WalRecord} `{BincodeLaws (gmap string WorkerInfo)}.
Context (w : RedisWal).
Implicit Types (s : R) (t T : list (ev WalCmd)).

(** Scheduling scripts that were sent, and those whose reply came back. *)
Definition ev_attempt (v : ev WalCmd) : list (string * bytes) :=
  match v with
  | Ev e _ => match e with KEvalSchedule _ _ i b _ => [(i, b)] | _ => [] end
  end.
Definition ev_scheduled (v : ev WalCmd) : list (string * bytes) :=
  match v with
  | Ev e x =>
      match e in WalCmd X return X → list (string * bytes) with
      | KEvalSchedule _ _ i b _ => λ r, if is_ok r then [(i, b)] else []
      | _ => λ _, []
      end x
  end.

(** [ZREM]s that took their id, by their reply; and those that may have. *)
Definition ev_claimed (v : ev WalCmd) : list string :=
  match v with
  | Ev e x =>
      match e in WalCmd X return X → list string with
      | KZrem _ i => λ r, match r with Ok n => if decide (n = 0) then [] else [i] | Err _ => [] end
      | _ => λ _, []
      end x
  end.
Definition ev_taken (v : ev WalCmd) : list string :=
  match v with
  | Ev e x =>
      match e in WalCmd X return X → list string with
      | KZrem _ i => λ r, match r with Ok n => if decide (n = 0) then [] else [i] | Err _ => [i] end
      | _ => λ _, []
      end x
  end.

(** Payloads of delayed messages that were read, reads that found none, and
    payloads deleted. *)
Definition ev_read (v : ev WalCmd) : list (string * bytes) :=
  match v with
  | Ev e x =>
      match e in WalCmd X return X → list (string * bytes) with
      | KHget k i => λ r, if decide (k = delays_key w)
                          then match r with Ok (Some b) => [(i, b)] | _ => [] end else []
      | _ => λ _, []
      end x
  end.
Definition ev_missed (v : ev WalCmd) : list string :=
  match v with
  | Ev e x =>
      match e in WalCmd X return X → list string with
      | KHget k i => λ r, if decide (k = delays_key w)
                          then match r with Ok None => [i] | _ => [] end else []
      | _ => λ _, []
      end x
  end.
Definition ev_deleted (v : ev WalCmd) : list string :=
  match v with Ev e _ => match e with KHdel _ i => [i] | _ => [] end end.

Definition attempts T : list (string * bytes) := T ≫= ev_attempt.
Definition scheduled_ok T : list (string * bytes) := T ≫= ev_scheduled.
Definition claimed T : list string := T ≫= ev_claimed.
Definition taken T : list string := T ≫= ev_taken.
Definition reads T : list (string * bytes) := T ≫= ev_read.
Definition missed T : list string := T ≫= ev_missed.
Definition deleted T : list string := T ≫= ev_deleted.

Lemma bind_snoc {A B} (f : A → list B) (l : list A) x : (l ++ [x]) ≫= f = (l ≫= f) ++ f x.
Proof. rewrite bind_app. simpl. by rewrite app_nil_r. Qed.

(** ** The protocol *)

(** The script stores a record under its id; a payload is read and deleted
    by the one who claimed it, and read before it is deleted. *)
Definition wal_pre (t : list (ev WalCmd)) (X : Type) (e : WalCmd X) : Prop :=
  match e with
  | KIncr k => k = counter_key w
  | KHset k _ _ => k = records_key w
  | KHget k i => k = records_key w ∨ (k = delays_key w ∧ i ∈ claimed t ∧ i ∉ deleted t)
  | KHgetall k => k = records_key w
  | KHdel k i => k = delays_key w ∧ i ∈ claimed t
  | KZrangebyscore k _ => k = delay_index_key w
  | KZrem k _ => k = delay_index_key w
  | KEvalSchedule kh kz i b _ =>
      kh = delays_key w ∧ kz = delay_index_key w ∧
      ∃ r, decode_payload b = Some r ∧ id (message r) = i
  | KSet k _ => k = registry_key w
  | KGet k => k = registry_key w
  end.

(** The due ids come without repetition. *)
Definition wal_ans (X : Type) (e : WalCmd X) : X → Prop :=
  match e in WalCmd X return X → Prop with
  | KZrangebyscore _ _ => λ r, ∀ l, r = Ok l → NoDup l
  | _ => λ _, True
  end.

Abbreviation wfollows op t p :=
  (follows (R := WalOp) (λ _, wal_pre) wal_ans (λ _ _ _, True) op t p).

(** A command, and what follows if it was answered. *)
Lemma query_follows {A B} op t (e : WalCmd (result A string)) (k : A → WalProg B) f :
  wal_pre t _ e →
  (∀ a, wal_ans _ e (Ok a) → wfollows op (t ++ [Ev e (Ok a)]) (replying f (k a))) →
  wfollows op t (replying f (bind_ok (query e) k)).
Proof. intros He Hk. split; [done|]. intros [a|er] Ha; [by apply Hk|done]. Qed.

Lemma local_follows {A B} op t (r : Res A) (k : A → WalProg B) f :
  (∀ a, r = Ok a → wfollows op t (replying f (k a))) →
  wfollows op t (replying f (bind_ok (Ret r) k)).
Proof. intros Hk. destruct r as [a|e]; [by apply Hk|done]. Qed.

Lemma id_follows {B} op t (k : Z → WalProg B) f :
  (∀ t c, wfollows op t (replying f (k c))) →
  wfollows op t (replying f (bind_ok (p_next_record_id w) k)).
Proof. intros Hk. split; [done|]. intros [n|e] _; [apply Hk|done]. Qed.

Lemma fetch_loop_follows op t due ready f :
  NoDup due → (∀ i, i ∈ due → i ∉ deleted t) →
  wfollows op t (replying f (p_fetch_loop w due ready)).
Proof.
  revert t ready. induction due as [|i due IH]; intros t ready Hnd Hdel; [done|].
  apply NoDup_cons in Hnd as [Hi Hnd]. cbn [p_fetch_loop].
  apply query_follows; [done|]. intros n _. case_decide as Hn.
  - apply IH; [done|]. intros j Hj. unfold deleted. rewrite bind_snoc, app_nil_r.
    apply Hdel. by right.
  - assert (∀ v, ev_deleted v = [] → i ∉ (t ++ [v]) ≫= ev_deleted) as Hno.
    { intros v Hv. rewrite bind_snoc, Hv, app_nil_r. apply Hdel. by left. }
    apply query_follows.
    { right. split; [done|]. split; [|by apply Hno]. unfold claimed. rewrite bind_snoc. simpl.
      rewrite decide_False by done. apply elem_of_app. right. by left. }
    intros ob _. apply query_follows.
    { split; [done|]. unfold claimed. rewrite !bind_snoc. simpl. rewrite decide_False by done.
      rewrite app_nil_r. apply elem_of_app. right. by left. }
    intros x _.
    assert (∀ j, j ∈ due → j ∉ deleted (((t ++ [Ev (KZrem (delay_index_key w) i) (Ok n)]) ++
        [Ev (KHget (delays_key w) i) (Ok ob)]) ++ [Ev (KHdel (delays_key w) i) (Ok x)])) as Hd.
    { intros j Hj. unfold deleted. rewrite !bind_snoc. simpl. rewrite !app_nil_r.
      intros [Hin|Heq%list_elem_of_singleton]%elem_of_app; [|by subst].
      apply (Hdel j); [by right|done]. }
    destruct ob as [b|]; [|by apply IH]. apply local_follows. intros r _. by apply IH.
Qed.

(** Every operation that is called follows it. *)
Lemma called_follows op : called op → wfollows op [] (wal_op_code w op).
Proof.
  destruct op as [r|e i st| | |r|now|i|reg|]; intros Hc; cbn [wal_op_code]; try done.
  - apply id_follows. intros t c. apply local_follows. intros b _. by apply query_follows.
  - apply query_follows; [by left|]. intros [b|] _; [|done]. apply local_follows. intros r _.
    apply local_follows. intros b' _. by apply query_follows.
  - apply query_follows; [done|]. intros all _. by apply local_follows.
  - apply id_follows. intros t c. apply local_follows. intros b Hb. apply query_follows; [|done].
    split; [done|]. split; [done|]. exists (set_record_id c r). split; [by apply encode_ok|done].
  - apply query_follows; [done|]. intros due Hdue. apply fetch_loop_follows; [by apply Hdue|].
    intros i _. by apply not_elem_of_nil.
  - apply local_follows. intros b _. by apply query_follows.
  - apply query_follows; [done|]. by intros [b|] _.
Qed.

(** ** The invariant *)

Abbreviation payloads s := (hfields (delays_key w) (keys s)).
Abbreviation index s := (zscores (delay_index_key w) (keys s)).

(** As long as no id is scheduled twice: what is indexed has its payload, an id
    is claimed once and its payload is there until it is deleted, no claim
    misses its payload, and what was scheduled is indexed or was taken. *)
Record once s T : Prop := {
  on_waiting i : is_Some (index s !! i) → is_Some (payloads s !! i);
  on_claimed : NoDup (claimed T);
  on_taken i : i ∈ claimed T →
    index s !! i = None ∧ i ∈ (attempts T).*1 ∧ (i ∈ deleted T ∨ is_Some (payloads s !! i));
  on_missed : missed T = [];
  on_scheduled ib : ib ∈ scheduled_ok T → is_Some (index s !! ib.1) ∨ ib.1 ∈ taken T
}.

Record fleet_inv s T : Prop := {
  fi_attempts ib : ib ∈ attempts T → ∃ r, decode_payload ib.2 = Some r ∧ id (message r) = ib.1;
  fi_stored i b : payloads s !! i = Some b → (i, b) ∈ attempts T;
  fi_reads ib : ib ∈ reads T → ib ∈ attempts T;
  fi_once : NoDup (attempts T).*1 → once s T
}.

(** What a task does of its own: it deletes what it claimed. *)
Definition own_claims t : Prop := ∀ i, i ∈ deleted t → i ∈ claimed t.

Lemma fleet_inv_perm s T T' : T ≡ₚ T' → fleet_inv s T → fleet_inv s T'.
Proof.
  intros HT [Ha Hs Hr Ho].
  assert (attempts T ≡ₚ attempts T') as Eat by (unfold attempts; by rewrite HT).
  assert (claimed T ≡ₚ claimed T') as Ecl by (unfold claimed; by rewrite HT).
  assert (reads T ≡ₚ reads T') as Erd by (unfold reads; by rewrite HT).
  assert (deleted T ≡ₚ deleted T') as Edl by (unfold deleted; by rewrite HT).
  assert (missed T ≡ₚ missed T') as Ems by (unfold missed; by rewrite HT).
  assert (scheduled_ok T ≡ₚ scheduled_ok T') as Esc by (unfold scheduled_ok; by rewrite HT).
  assert (taken T ≡ₚ taken T') as Etk by (unfold taken; by rewrite HT).
  split.
  - intros ib. rewrite <- Eat. apply Ha.
  - intros i b. rewrite <- Eat. apply Hs.
  - intros ib. rewrite <- Eat, <- Erd. apply Hr.
  - rewrite <- Eat. intros Hnd. destruct (Ho Hnd) as [Hw Hc Ht Hm Hsc]. split.
    + done.
    + by rewrite <- Ecl.
    + intros i. rewrite <- Ecl, <- Eat, <- Edl. apply Ht.
    + apply Permutation_nil. by rewrite <- Ems, Hm.
    + intros ib. rewrite <- Esc, <- Etk. apply Hsc.
Qed.

(** A command that changes neither the payloads nor the index, and is no
    script and no claim. *)
Lemma fleet_inv_inert s s' T v :
  payloads s' = payloads s → index s' = index s →
  ev_attempt v = [] → ev_scheduled v = [] → ev_claimed v = [] → ev_taken v = [] →
  ev_deleted v = [] → (∀ ib, ib ∈ ev_read v → ib ∈ attempts T) →
  (NoDup (attempts T).*1 → ev_missed v = []) →
  fleet_inv s T → fleet_inv s' (T ++ [v]).
Proof.
  intros Hp Hi Ea Es Ec Et Ed Er Em [Ha Hs Hr Ho].
  assert (attempts (T ++ [v]) = attempts T) as Eat by (unfold attempts; by rewrite bind_snoc, Ea, app_nil_r).
  split; rewrite ?Eat.
  - done.
  - by rewrite Hp.
  - intros ib. unfold reads. rewrite bind_snoc, elem_of_app. intros [|]; auto.
  - intros Hnd. destruct (Ho Hnd) as [Hw Hc Ht Hm Hsc].
    split; rewrite ?Hp, ?Hi, ?Eat; unfold claimed, taken, deleted, missed, scheduled_ok in *;
      rewrite ?bind_snoc, ?Ec, ?Et, ?Ed, ?Es, ?app_nil_r; try done.
    by rewrite Hm, (Em Hnd).
Qed.

Lemma attempts_snoc T v : attempts (T ++ [v]) = attempts T ++ ev_attempt v.
Proof. apply bind_snoc. Qed.

Lemma attempts_fresh T i b :
  NoDup ((attempts T ++ [(i, b)]).*1) → NoDup (attempts T).*1 ∧ i ∉ (attempts T).*1.
Proof.
  rewrite fmap_app, NoDup_app. intros (Hnd & Hni & _). split; [done|]. intros Hin.
  apply (Hni i Hin). by apply list_elem_of_singleton.
Qed.

(** The script. *)
Lemma fleet_inv_eval s s' T i b x a :
  (∃ r, decode_payload b = Some r ∧ id (message r) = i) →
  (payloads s' = <[i := b]> (payloads s) ∧ index s' = <[i := score_of x]> (index s) ∨
   is_ok a = false ∧ payloads s' = payloads s ∧ index s' = index s) →
  fleet_inv s T →
  fleet_inv s' (T ++ [Ev (KEvalSchedule (delays_key w) (delay_index_key w) i b x) a]).
Proof.
  intros Hdec Hw [Ha Hs Hr Ho]. split; rewrite ?attempts_snoc; cbn [ev_attempt].
  - intros ib [Hin|Heq%list_elem_of_singleton]%elem_of_app; [by apply Ha|]. by subst ib.
  - intros j c Hj. apply elem_of_app.
    destruct Hw as [[Hp _]|(_ & Hp & _)]; rewrite Hp in Hj; [|left; by apply Hs].
    apply lookup_insert_Some in Hj as [[<- <-]|[_ Hj]]; [right; by apply list_elem_of_singleton|].
    left. by apply Hs.
  - intros ib. unfold reads. rewrite bind_snoc. simpl. rewrite app_nil_r. intros Hin. apply elem_of_app. left. auto.
  - intros [Hnd Hni]%attempts_fresh. destruct (Ho Hnd) as [Hwt Hc Ht Hm Hsc].
    assert (∀ j, j ∈ claimed T → j ≠ i) as Hne by (intros j [_ [Hj _]]%Ht ->; done).
    split; unfold claimed, taken, deleted, missed, scheduled_ok in *;
      rewrite ?bind_snoc, ?attempts_snoc; cbn [ev_claimed ev_taken ev_deleted ev_missed ev_scheduled];
      rewrite ?app_nil_r; try done.
    + intros j. destruct Hw as [[-> ->]|(_ & -> & ->)]; [|apply Hwt].
      rewrite !lookup_insert_is_Some'. intros [->|Hj]; [by left|right; by apply Hwt].
    + intros j Hj. specialize (Hne _ Hj). destruct (Ht _ Hj) as (Hix & Hat & Hpl).
      rewrite fmap_app, elem_of_app.
      destruct Hw as [[-> ->]|(_ & -> & ->)]; rewrite ?lookup_insert_ne by done; auto.
    + intros ib [Hin|Hin]%elem_of_app.
      * destruct (Hsc _ Hin) as [Hix|Htk]; [left|by right].
        destruct Hw as [[_ ->]|(_ & _ & ->)]; [|done]. apply lookup_insert_is_Some'. by right.
      * left. simpl in Hin. destruct Hw as [[_ ->]|(Hok & _)].
        -- destruct (is_ok a); [|by apply not_elem_of_nil in Hin].
           apply list_elem_of_singleton in Hin. subst ib. apply lookup_insert_is_Some'. by left.
        -- rewrite Hok in Hin. by apply not_elem_of_nil in Hin.
Qed.

(** The claim. *)
Lemma fleet_inv_zrem s s' T i a :
  payloads s' = payloads s →
  (index s' = delete i (index s) ∨ is_ok a = false ∧ index s' = index s) →
  (∀ n, a = Ok n → n = (if decide (is_Some (index s !! i)) then 1 else 0)) →
  fleet_inv s T → fleet_inv s' (T ++ [Ev (KZrem (delay_index_key w) i) a]).
Proof.
  intros Hp Hw Hn [Ha Hs Hr Ho]. split; rewrite ?attempts_snoc; simpl; rewrite ?app_nil_r.
  - done.
  - by rewrite Hp.
  - intros ib. unfold reads. rewrite bind_snoc. simpl. rewrite app_nil_r. auto.
  - intros Hnd. destruct (Ho Hnd) as [Hwt Hc Ht Hm Hsc].
    assert (∀ j, is_Some (index s' !! j) → is_Some (index s !! j)) as Hsub.
    { intros j. destruct Hw as [->|(_ & ->)]; [|done]. rewrite lookup_delete_is_Some. tauto. }
    assert (∀ j, index s !! j = None → index s' !! j = None) as Hnone.
    { intros j Hj. apply eq_None_not_Some. intros Hi%Hsub. rewrite Hj in Hi. by destruct Hi. }
    split; unfold claimed, taken, deleted, missed, scheduled_ok in *;
      rewrite ?bind_snoc, ?attempts_snoc; cbn [ev_claimed ev_taken ev_deleted ev_missed ev_scheduled ev_attempt];
      rewrite ?app_nil_r; try done.
    + intros j Hj%Hsub. rewrite Hp. by apply Hwt.
    + destruct a as [n|e]; [|by rewrite app_nil_r]. specialize (Hn n eq_refl).
      destruct (decide (is_Some (index s !! i))) as [Hi|Hi]; subst n; simpl; [|by rewrite app_nil_r].
      apply NoDup_app. split; [done|]. split; [|apply NoDup_singleton].
      intros j Hj ->%list_elem_of_singleton. destruct (Ht _ Hj) as [Hx _].
      rewrite Hx in Hi. by destruct Hi.
    + intros j [Hj|Hj]%elem_of_app.
      * destruct (Ht _ Hj) as (Hx & Hat & Hpl). rewrite Hp. auto.
      * destruct a as [n|e]; [|by apply not_elem_of_nil in Hj]. specialize (Hn n eq_refl).
        destruct (decide (is_Some (index s !! i))) as [Hi|Hi]; subst n; simpl in Hj;
          [|by apply not_elem_of_nil in Hj].
        apply list_elem_of_singleton in Hj. subst j. destruct (Hwt _ Hi) as [b Hb].
        destruct Hw as [->|[[=] _]]. rewrite lookup_delete_eq, Hp. split; [done|].
        split; [|right; by exists b]. apply list_elem_of_fmap. exists (i, b). split; [done|]. by apply Hs.
    + intros ib Hin. rewrite elem_of_app. destruct (decide (ib.1 = i)) as [Heq|Hne].
      * destruct a as [n|e]; [|right; right; subst; by apply list_elem_of_singleton].
        specialize (Hn n eq_refl).
        destruct (decide (is_Some (index s !! i))) as [Hi|Hi]; subst n; simpl.
        -- right. right. subst. by apply list_elem_of_singleton.
        -- destruct (Hsc _ Hin) as [Hx|Hx]; [|by auto]. by rewrite Heq in Hx.
      * destruct (Hsc _ Hin) as [Hx|Hx]; [left|by auto].
        destruct Hw as [->|(_ & ->)]; [|done]. by rewrite lookup_delete_ne.
Qed.

(** The payload is deleted. *)
Lemma fleet_inv_hdel s s' T i (a : result Z string) :
  index s' = index s → (payloads s' = delete i (payloads s) ∨ payloads s' = payloads s) →
  i ∈ claimed T → fleet_inv s T → fleet_inv s' (T ++ [Ev (KHdel (delays_key w) i) a]).
Proof.
  intros Hx Hw Hi [Ha Hs Hr Ho].
  assert (∀ j b, payloads s' !! j = Some b → payloads s !! j = Some b) as Hsub.
  { intros j b. destruct Hw as [->| ->]; [|done]. rewrite lookup_delete_Some. tauto. }
  split; rewrite ?attempts_snoc; simpl; rewrite ?app_nil_r.
  - done.
  - intros j b Hj%Hsub. by apply Hs.
  - intros ib. unfold reads. rewrite bind_snoc. simpl. rewrite app_nil_r. auto.
  - intros Hnd. destruct (Ho Hnd) as [Hwt Hc Ht Hm Hsc].
    assert (∀ j, j ≠ i → is_Some (payloads s !! j) → is_Some (payloads s' !! j)) as Hkeep.
    { intros j Hne Hj. destruct Hw as [->| ->]; [|done]. by rewrite lookup_delete_ne. }
    split; unfold claimed, taken, deleted, missed, scheduled_ok in *;
      rewrite ?bind_snoc, ?attempts_snoc; cbn [ev_claimed ev_taken ev_deleted ev_missed ev_scheduled ev_attempt];
      rewrite ?app_nil_r, ?Hx; try done.
    + intros j Hj. apply Hkeep; [|by apply Hwt]. intros ->. destruct (Ht _ Hi) as [Hn _].
      rewrite Hn in Hj. by destruct Hj.
    + intros j Hj. destruct (Ht _ Hj) as (Hn & Hat & Hpl). split; [done|].
      split; [done|]. rewrite elem_of_app, list_elem_of_singleton.
      destruct (decide (j = i)) as [->|Hne]; [by auto|]. destruct Hpl as [Hd|Hd]; auto.
Qed.

(** The other commands. *)
Lemma fleet_inv_other s s' T X (e : WalCmd X) x :
  payloads s' = payloads s → index s' = index s →
  match e with
  | KEvalSchedule _ _ _ _ _ | KZrem _ _ | KHdel _ _ => False
  | KHget k _ => k ≠ delays_key w
  | _ => True
  end →
  fleet_inv s T → fleet_inv s' (T ++ [Ev e x]).
Proof.
  intros Hp Hx He.
  assert (ev_read (Ev e x) = [] ∧ ev_missed (Ev e x) = []) as [Er Em]
    by (destruct e; simpl in *; try done; by rewrite !decide_False).
  intros Hinv. apply (fleet_inv_inert s s' T); try done; try by destruct e.
  rewrite Er. intros ib Hin. by apply not_elem_of_nil in Hin.
Qed.

(** A payload is read by its claimer, who finds it. *)
Lemma fleet_inv_hget s s' T t others i a :
  payloads s' = payloads s → index s' = index s →
  (∀ o, a = Ok o → o = payloads s !! i) →
  T ≡ₚ t ++ others → own_claims others → i ∈ claimed t → i ∉ deleted t →
  fleet_inv s T → fleet_inv s' (T ++ [Ev (KHget (delays_key w) i) a]).
Proof.
  intros Hp Hx Hans HT Hoth Hcl Hdel Hinv. pose proof Hinv as [Ha Hs Hr Ho].
  apply (fleet_inv_inert s); try done; simpl; rewrite decide_True by done.
  - intros ib. destruct a as [[b|]|e]; intros Hin; try by apply not_elem_of_nil in Hin.
    apply list_elem_of_singleton in Hin. subst ib. apply Hs. by rewrite <- (Hans _ eq_refl).
  - intros Hnd. destruct a as [[b|]|e]; try done. exfalso. specialize (Hans _ eq_refl).
    destruct (Ho Hnd) as [_ Hc Ht _ _].
    assert (claimed T ≡ₚ claimed t ++ claimed others) as Ecl
      by (unfold claimed; by rewrite HT, bind_app).
    rewrite Ecl in Hc. apply NoDup_app in Hc as (_ & Hno & _).
    destruct (Ht i) as (_ & _ & [Hd|Hd]); [rewrite Ecl; apply elem_of_app; by left| |].
    + assert (deleted T ≡ₚ deleted t ++ deleted others) as Edl
        by (unfold deleted; by rewrite HT, bind_app).
      rewrite Edl in Hd. apply elem_of_app in Hd as [|Hd]; [done|].
      by apply (Hno i Hcl), Hoth.
    + rewrite <- Hans in Hd. by destruct Hd.
Qed.

(** The keys a write leaves alone. *)
Lemma payloads_hset k f v : k ≠ delays_key w → hfields (delays_key w) (put_hash k f v) = hfields (delays_key w) v.
Proof. intros Hk. by rewrite hfields_put, decide_False by done. Qed.

Lemma records_ne_delays : records_key w ≠ delays_key w.
Proof. by apply key_ne. Qed.

Lemma fleet_inv_effect s T t others X (e : WalCmd X) x s' :
  fleet_inv s T → T ≡ₚ t ++ others → own_claims others → wal_pre t X e →
  walcmd_run X e s = (x, s') → fleet_inv s' (T ++ [Ev e x]).
Proof.
  intros Hinv HT Hoth Hpre He. destruct e; simpl in Hpre, He.
  - apply incr_law in He as [He _].
    apply (fleet_inv_other s); [..|done|done]; by destruct He as [->|[_ ->]].
  - subst k. apply hset_law in He.
    apply (fleet_inv_other s); [..|done|done]; destruct He as [->|[_ ->]]; try done.
    apply payloads_hset, records_ne_delays.
  - apply hget_law in He as [He Hans]. destruct Hpre as [->|(-> & Hcl & Hdel)].
    + apply (fleet_inv_other s); [by rewrite He..|apply records_ne_delays|done].
    + apply (fleet_inv_hget s s' T t others); try done; by rewrite He.
  - apply hgetall_law in He as [He _]. by apply (fleet_inv_other s); rewrite ?He.
  - destruct Hpre as [-> Hcl]. apply hdel_law in He.
    apply (fleet_inv_hdel s); [by destruct He as [->|[_ ->]]| | |done].
    + destruct He as [->|[_ ->]]; [left|by right]. by rewrite hfields_put, decide_True.
    + unfold claimed in *. rewrite HT, bind_app. apply elem_of_app. by left.
  - apply zrange_law in He as [He _]. by apply (fleet_inv_other s); rewrite ?He.
  - subst k. apply zrem_law in He as [He Hn]. apply (fleet_inv_zrem s); [| |done|done].
    + by destruct He as [->|[_ ->]].
    + destruct He as [->|[? ->]]; [left|by right]. by rewrite zscores_put, decide_True.
  - destruct Hpre as (-> & -> & Hdec). apply eval_law in He. apply (fleet_inv_eval s); [done| |done].
    destruct He as [->|[? ->]]; [left|by right]. split.
    + change (hfields (delays_key w) (put_hash (delays_key w) (<[i:=b]> (payloads s)) (keys s)) =
        <[i:=b]> (payloads s)). by rewrite hfields_put, decide_True.
    + by rewrite zscores_put, decide_True.
  - apply set_law in He.
    apply (fleet_inv_other s); [..|done|done]; by destruct He as [->|[_ ->]].
  - apply get_law in He as [He _]. by apply (fleet_inv_other s); rewrite ?He.
Qed.

Lemma fleet_keeps :
  KeepsDid fleet_eff (wal_op_code w) fleet_next fleet_spawn (fleet_env w) (λ _, wal_pre) wal_ans
    fleet_inv own_claims called.
Proof.
  split.
  - intros s T T'. apply fleet_inv_perm.
  - intros s T X e x s' _ He. destruct e; try done. simpl. intros l ->.
    apply zrange_law in He as [_ He]. by apply He.
  - intros s T op t others X e x s' Hj HT _ Ho Hp He. by eapply fleet_inv_effect.
  - by intros s T op l op' s' Hj [Hc ->].
  - by intros s T op s' Hj [Hc ->].
  - intros s T s' [Ha Hs Hr Ho] [Hp Hx]. split; rewrite ?Hp; [done..|]. intros Hnd.
    destruct (Ho Hnd) as [Hwt Hc Ht Hm Hsc]. split; rewrite ?Hp, ?Hx; done.
  - intros op Hc. by apply called_follows.
  - intros i Hi. by apply not_elem_of_nil in Hi.
  - intros t t' Ht Ht' i. unfold own_claims, deleted, claimed in *.
    rewrite !bind_app, !elem_of_app. intros [Hi|Hi]; [left; by apply Ht|right; by apply Ht'].
  - intros t t' HT Ht i. unfold own_claims, deleted, claimed in *. rewrite <- !HT. apply Ht.
  - intros op t X e x Ht Hp i. unfold own_claims, deleted, claimed in *. rewrite !bind_snoc, !elem_of_app.
    intros [Hi|Hi]; [left; by apply Ht|]. destruct e; simpl in Hi; try by apply not_elem_of_nil in Hi.
    apply list_elem_of_singleton in Hi. subst. left. apply Hp.
Qed.

Lemma fleet_reaches_inv c : fleet_reaches w c → fleet_inv (shared c) (did c).
Proof.
  intros (s & Hp & Hx & Hr). eapply did_invariant; [apply fleet_keeps| |exact Hr].
  split.
  - intros ib Hi. by apply not_elem_of_nil in Hi.
  - rewrite Hp. done.
  - intros ib Hi. by apply not_elem_of_nil in Hi.
  - intros _. split; rewrite ?Hp, ?Hx.
    + intros i [z Hz]. done.
    + constructor.
    + intros i Hi. by apply not_elem_of_nil in Hi.
    + done.
    + intros i Hi. by apply not_elem_of_nil in Hi.
Qed.

(** ** Lists *)

Lemma fmap_bind_list {A B C} (f : B → C) (g : A → list B) (l : list A) :
  f <$> (l ≫= g) = l ≫= λ x, f <$> g x.
Proof. induction l as [|x l IH]; [done|]. csimpl. by rewrite fmap_app, IH. Qed.

Lemma bind_submseteq_ext {A B} (f g : A → list B) (l : list A) :
  (∀ x, x ∈ l → f x ⊆+ g x) → l ≫= f ⊆+ l ≫= g.
Proof.
  induction l as [|x l IH]; intros Hl; [done|]. csimpl. apply submseteq_app.
  - apply Hl. by left.
  - apply IH. intros y Hy. apply Hl. by right.
Qed.

Lemma NoDup_fst_unique {A B} (l : list (A * B)) a b b' :
  NoDup l.*1 → (a, b) ∈ l → (a, b') ∈ l → b = b'.
Proof.
  intros Hnd. induction l as [|[a0 b0] l IH]; [by intros ?%not_elem_of_nil|].
  csimpl in Hnd. apply NoDup_cons in Hnd as [Hni Hnd].
  assert (∀ y, (a0, y) ∉ l) as Hno.
  { intros y Hy. apply Hni. apply list_elem_of_fmap. by exists (a0, y). }
  rewrite !elem_of_cons. naive_solver.
Qed.

Lemma scheduled_attempted T ib : ib ∈ scheduled_ok T → ib ∈ attempts T.
Proof.
  intros (v & Hin & Hv)%list_elem_of_bind. apply list_elem_of_bind. exists v. split; [|done].
  destruct v as [X e x]. destruct e; simpl in *; try by apply not_elem_of_nil in Hin.
  destruct (is_ok x); [done|by apply not_elem_of_nil in Hin].
Qed.

(** ** What a fetch returns *)

(** The records a fetch returns are those it claimed and whose payload it
    found, decoded. *)
Definition fetched_what_it_claimed t (rs : list WalRecord) : Prop :=
  taken t = claimed t ∧ (reads t).*1 ++ missed t ≡ₚ claimed t ∧
  Forall2 (λ ib r, decode_payload ib.2 = Some r) (reads t) rs.

Lemma wp_query {A B} (e : WalCmd (result A string)) (k : A → WalProg B)
    (Φ : list (ev WalCmd) → outcome (Res B) → Prop) :
  (∀ a, wp (k a) (λ t o, Φ (Ev e (Ok a) :: t) o)) →
  (∀ er, Φ [Ev e (Err er)] (Done (Err (backend_err er)))) →
  wp (bind_ok (query e) k) Φ.
Proof. intros Ha He. intros [a|er]; [apply Ha|apply He]. Qed.

Lemma fetch_loop_returns due ready :
  wp (p_fetch_loop w due ready) (λ t o, ∀ rs, o = Done (Ok rs) →
    ∃ new, rs = ready ++ new ∧ fetched_what_it_claimed t new).
Proof.
  revert ready. induction due as [|i due IH]; intros ready.
  { intros rs [= <-]. exists []. split; [by rewrite app_nil_r|]. repeat constructor. }
  cbn [p_fetch_loop]. apply wp_query; [|done]. intros n. case_decide as Hn.
  { eapply wp_mono; [|apply IH]. intros t o Ho rs Hrs. destruct (Ho rs Hrs) as (new & -> & Ht & Hc & Hr).
    exists new. split; [done|]. unfold fetched_what_it_claimed, taken, claimed, reads, missed in *.
    csimpl. by rewrite decide_True by done. }
  apply wp_query; [|done]. intros ob. apply wp_query; [|done]. intros x.
  assert (∀ t new, fetched_what_it_claimed t new →
    match ob with
    | None => fetched_what_it_claimed
        (Ev (KZrem (delay_index_key w) i) (Ok n) :: Ev (KHget (delays_key w) i) (Ok ob) ::
         Ev (KHdel (delays_key w) i) (Ok x) :: t) new
    | Some b => ∀ r, decode_payload b = Some r → fetched_what_it_claimed
        (Ev (KZrem (delay_index_key w) i) (Ok n) :: Ev (KHget (delays_key w) i) (Ok ob) ::
         Ev (KHdel (delays_key w) i) (Ok x) :: t) (r :: new)
    end) as Hstep.
  { intros t new (Ht & Hc & Hr).
    destruct ob as [b|]; [intros r Hb|];
      unfold fetched_what_it_claimed, taken, claimed, reads, missed in *; csimpl;
      rewrite !(decide_False (P := n = 0)), !(decide_True (P := delays_key w = delays_key w)) by done;
      csimpl; (split; [by rewrite Ht|]).
    - split; [by rewrite Hc|by constructor].
    - split; [|done]. rewrite <- Hc. solve_Permutation. }
  destruct ob as [b|]; [|eapply wp_mono; [|apply IH]].
  - destruct (RedisWal.decode b _) as [r|e] eqn:Hb; [|done]. apply decode_ok in Hb.
    cbn [bind_ok bind]. eapply wp_mono; [|apply IH].
    intros t o Ho rs Hrs. destruct (Ho rs Hrs) as (new & -> & Hf).
    exists (r :: new). split; [by rewrite <- (assoc_L (++))|]. by apply (Hstep t new Hf).
  - intros t o Ho rs Hrs. destruct (Ho rs Hrs) as (new & -> & Hf). exists new.
    split; [done|]. by apply (Hstep t new Hf).
Qed.

Lemma fetch_returns now :
  wp (wal_op_code w (OpFetch now)) (λ t o, ∀ rs, o = Done (RRecords (Ok rs)) →
    fetched_what_it_claimed t rs).
Proof.
  unfold wal_op_code, replying. apply wp_bind.
  assert (wp (p_fetch_ready w now) (λ t o, ∀ rs, o = Done (Ok rs) → fetched_what_it_claimed t rs)) as Hp.
  { apply wp_query; [|done]. intros due. eapply wp_mono; [|apply fetch_loop_returns].
    intros t o Ho rs Hrs. destruct (Ho rs Hrs) as (new & -> & Hf). exact Hf. }
  eapply wp_mono; [|exact Hp]. intros t [r|why] Hr; simpl; [|done].
  intros rs [= ->]. rewrite app_nil_r. by apply Hr.
Qed.

(** The records the finished fetches of a fleet returned. *)
Definition returned_by (d : WalOp * list (ev WalCmd) * WalReply) : list WalRecord :=
  match d.1.1, d.2 with OpFetch _, RRecords (Ok rs) => rs | _, _ => [] end.

Definition fetched_ok (d : WalOp * list (ev WalCmd) * WalReply) : bool :=
  match d.1.1, d.2 with OpFetch _, RRecords (Ok _) => true | _, _ => false end.

Abbreviation FleetConf := (Conf (E := WalCmd) (S := R) (R := WalOp) (L := WalReply)).

Definition returned (c : FleetConf) : list WalRecord :=
  tasks c ≫= λ tk, tk_done tk ≫= returned_by.

(** Ids that were taken, or may have been, by a call that did not end with a
    list: it is at work, its node crashed, or a command failed. *)
Definition unsettled (c : FleetConf) : list string :=
  tasks c ≫= λ tk, (tk_done tk ≫= λ d, if fetched_ok d then [] else taken d.1.2) ++
                   taken (tk_trace tk).

Lemma done_in_did {B} (f : ev WalCmd → list B) (c : FleetConf) tk d x :
  tk ∈ tasks c → d ∈ tk_done tk → x ∈ d.1.2 ≫= f → x ∈ did c ≫= f.
Proof.
  intros Htk Hd Hx. rewrite did_bind. apply list_elem_of_bind. exists tk. split; [|done].
  apply elem_of_app. left. apply list_elem_of_bind. by exists d.
Qed.

Lemma round_settled (c : FleetConf) tk d :
  fleet_reaches w c → tk ∈ tasks c → d ∈ tk_done tk → fetched_ok d = true →
  fetched_what_it_claimed d.1.2 (returned_by d).
Proof.
  intros (s & _ & _ & Hr) Htk Hd Hok. destruct d as [[op t] l].
  destruct op as [| | | | |now| | |]; try done. destruct l as [|[rs|]|]; try done.
  exact (wp_of_done fleet_eff (wal_op_code w) fleet_next fleet_spawn (λ _, True) (fleet_env w)
    (fleet_start s) c tk (OpFetch now) t _ _ (Forall_nil_2 _) Hr Htk Hd (fetch_returns now) rs eq_refl).
Qed.

(** The ids of the records a round returned are those of its reads. *)
Lemma returned_ids (c : FleetConf) tk d :
  fleet_reaches w c → tk ∈ tasks c → d ∈ tk_done tk → fetched_ok d = true →
  id <$> (message <$> returned_by d) = (reads d.1.2).*1.
Proof.
  intros Hc Htk Hd Hok. destruct (round_settled _ _ _ Hc Htk Hd Hok) as (_ & _ & Hf).
  assert (∀ ib, ib ∈ reads d.1.2 → ∃ r, decode_payload ib.2 = Some r ∧ id (message r) = ib.1) as Hdec.
  { intros ib Hin. apply (fi_attempts _ _ (fleet_reaches_inv c Hc)).
    apply (fi_reads _ _ (fleet_reaches_inv c Hc)). by eapply done_in_did. }
  revert Hdec. induction Hf as [|ib r l l' Hr Hf IH]; intros Hdec; [done|]. csimpl. f_equal.
  - destruct (Hdec ib) as (r' & Hr' & <-); [by left|]. by rewrite Hr in Hr'; injection Hr' as <-.
  - apply IH. intros ib' Hin. apply Hdec. by right.
Qed.

Lemma not_fetched d : fetched_ok d = false → returned_by d = [].
Proof.
  destruct d as [[op t] l]. unfold fetched_ok, returned_by. simpl.
  destruct op; try done. by destruct l as [|[]|].
Qed.

Lemma returned_claimed (c : FleetConf) :
  fleet_reaches w c → id <$> (message <$> returned c) ⊆+ claimed (did c).
Proof.
  intros Hc. unfold returned, claimed. rewrite did_bind, !fmap_bind_list.
  apply bind_submseteq_ext. intros tk Htk. apply submseteq_inserts_r.
  rewrite !fmap_bind_list. apply bind_submseteq_ext. intros d Hd.
  destruct (fetched_ok d) eqn:Hok.
  - rewrite (returned_ids c tk d) by done.
    destruct (round_settled _ _ _ Hc Htk Hd Hok) as (_ & Hp & _).
    unfold claimed in Hp. rewrite <- Hp. by apply submseteq_inserts_r.
  - rewrite not_fetched by done. apply submseteq_nil_l.
Qed.

(** C17. A delayed message is handed over at most once, and it is known where
    it can be lost. Any number of nodes use the Redis WAL of one prefix, with
    no delayed messages at first, their operations (all but
    [remove_scheduled], which no code calls) interleaved command by command;
    commands fail with or without effect, nodes crash at any command and come
    back. As long as no id is scheduled twice, on any node, no record is
    returned by two fetches or twice by one, and what is returned is what was
    scheduled; and a record whose scheduling was answered is waiting, with its
    payload and its time, or was returned, or was taken by a fetch that did
    not end with its list: one still at work, one cut off by a crash, or one
    that returned an error, which may have lost the record. *)
Theorem redis_delayed_exactly_once (c : FleetConf) :
  fleet_reaches w c → NoDup (attempts (did c)).*1 →
  NoDup (id <$> (message <$> returned c)) ∧
  (∀ r, r ∈ returned c →
     ∃ b, (id (message r), b) ∈ attempts (did c) ∧ decode_payload b = Some r) ∧
  ∀ i b, (i, b) ∈ scheduled_ok (did c) →
    (is_Some (index (shared c) !! i) ∧ payloads (shared c) !! i = Some b) ∨
    (∃ r, r ∈ returned c ∧ decode_payload b = Some r) ∨
    i ∈ unsettled c.
Proof.
  intros Hc Hnd. pose proof (fleet_reaches_inv c Hc) as [Ha Hs Hr Ho].
  destruct (Ho Hnd) as [Hwt Hcl Ht Hm Hsc]. split; [|split].
  - destruct (submseteq_Permutation _ _ (returned_claimed c Hc)) as [rest Hrest].
    rewrite Hrest in Hcl. by apply NoDup_app in Hcl as [? _].
  - intros r Hin. apply list_elem_of_bind in Hin as (tk & Hin & Htk).
    apply list_elem_of_bind in Hin as (d & Hin & Hd).
    destruct (fetched_ok d) eqn:Hok; [|rewrite not_fetched in Hin by done; by apply not_elem_of_nil in Hin].
    destruct (round_settled _ _ _ Hc Htk Hd Hok) as (_ & _ & Hf).
    apply list_elem_of_lookup in Hin as [k Hk].
    destruct (Forall2_lookup_r _ _ _ _ _ Hf Hk) as (ib & Hib & Hdec).
    assert (ib ∈ attempts (did c)) as Hat.
    { apply Hr. eapply done_in_did; [exact Htk|exact Hd|]. by eapply list_elem_of_lookup_2. }
    destruct (Ha _ Hat) as (r' & Hr' & Hid). rewrite Hdec in Hr'. injection Hr' as <-.
    exists ib.2. rewrite Hid. split; [by destruct ib|done].
  - intros i b Hin.
    assert (∀ b', (i, b') ∈ attempts (did c) → b' = b) as Huniq.
    { intros b' Hb'. eapply (NoDup_fst_unique (attempts (did c))); [done|done|].
      by apply scheduled_attempted. }
    destruct (Hsc _ Hin) as [Hi|Hi].
    + left. split; [done|]. destruct (Hwt _ Hi) as [b' Hb']. simpl in Hb'. rewrite Hb'.
      f_equal. by apply Huniq, Hs.
    + right. simpl in Hi. unfold taken in Hi. rewrite did_bind in Hi.
      apply list_elem_of_bind in Hi as (tk & Hi & Htk).
      assert (i ∈ (tk_done tk ≫= λ d, if fetched_ok d then [] else taken d.1.2) ++ taken (tk_trace tk) →
        i ∈ unsettled c) as Hun.
      { intros H'. apply list_elem_of_bind. by exists tk. }
      apply elem_of_app in Hi as [Hi|Hi]; [|right; apply Hun, elem_of_app; by right].
      apply list_elem_of_bind in Hi as (d & Hi & Hd). destruct (fetched_ok d) eqn:Hok.
      2:{ right. apply Hun, elem_of_app. left. apply list_elem_of_bind. exists d. by rewrite Hok. }
      left. destruct (round_settled _ _ _ Hc Htk Hd Hok) as (Heq & Hp & Hf).
      assert (missed d.1.2 = []) as Hmd.
      { apply elem_of_nil_inv. intros j Hj. assert (j ∈ missed (did c)) as Hj'
          by by eapply done_in_did. rewrite Hm in Hj'. by apply not_elem_of_nil in Hj'. }
      rewrite Hmd, app_nil_r in Hp. change (d.1.2 ≫= ev_taken) with (taken d.1.2) in Hi.
      rewrite Heq, <- Hp in Hi. apply list_elem_of_fmap in Hi as ([i' b'] & -> & Hib). simpl in *.
      assert (b' = b) as -> by (apply Huniq, Hr; by eapply done_in_did).
      apply list_elem_of_lookup in Hib as [k Hk].
      destruct (Forall2_lookup_l _ _ _ _ _ Hf Hk) as (r & Hrk & Hdec).
      exists r. split; [|done]. apply list_elem_of_bind. exists tk. split; [|done].
      apply list_elem_of_bind. exists d. split; [by eapply list_elem_of_lookup_2|done].
Qed.
End fleet.

(** ** Runs on the reference server *)

Section examples.
Import RedisRef SerCodec.
#[local] Existing Instance list_order.
Open Scope string_scope.
Open Scope list_scope.

Abbreviation wal0 := RedisWal_default.
Abbreviation DemoConf := (Conf (E := WalCmd) (S := RedisKeys) (R := WalOp) (L := WalReply)).

(** Handles that start with [ops], stepped in the given order; the named ones
    then take up something else. *)
Definition demo_fleet (ops : list WalOp) (steps ends : list nat) : DemoConf :=
  foldl (flip (end_round (wal_op_code wal0) OpFlush))
    (foldl (flip (advance walcmd_run))
       {| shared := no_keys; tasks := fresh_task (wal_op_code wal0) <$> ops |} steps) ends.

Lemma demo_fleet_reaches ops steps ends :
  Forall called ops → fleet_reaches wal0 (demo_fleet ops steps ends).
Proof.
  intros Hops. exists no_keys. split; [done|]. split; [done|]. unfold demo_fleet, fleet_step.
  etransitivity; [apply (spawns_reach _ _ _ _ _ _ no_keys [] ops)|].
  { eapply Forall_impl; [exact Hops|]. by intros op Hop. }
  etransitivity; [apply (advance_reaches _ _ _ _ _ _ walcmd_run steps)|].
  { intros X e s. unfold fleet_eff. by destruct (walcmd_run X e s). }
  apply end_round_reaches. by intros r0 l s.
Qed.

(** Two schedulers look at the same due message; one gets it. *)
Definition demo_due : WalRecord := demo_redis_record "c" (Some 0%Z).
Definition demo_two_schedulers : DemoConf :=
  demo_fleet [OpSchedule demo_due; OpFetch 1; OpFetch 1]
    [0; 0; 1; 2; 2; 1; 2; 2; 1]%nat [1; 2]%nat.

Lemma redis_delayed_exactly_once_witness :
  message <$> returned demo_two_schedulers = [message demo_due] ∧
  NoDup (id <$> (message <$> returned demo_two_schedulers)).
Proof.
  split; [vm_compute; reflexivity|].
  refine (proj1 (redis_delayed_exactly_once wal0 demo_two_schedulers _ _)).
  - apply demo_fleet_reaches. repeat constructor.
  - assert ((attempts (did demo_two_schedulers)).*1 = ["c"]) as -> by (vm_compute; reflexivity).
    apply NoDup_singleton.
Defined.

(** An id that is scheduled again between the claim and the read of its
    payload: both schedulers read the second payload.  The record is delivered
    twice, the first message never. *)
Definition demo_rescheduled : WalRecord :=
  WalRecord_from_msg (set_deliver_at (Some 0%Z) (EMessage_new "c" 6 "orders" [7]%Z Standard None)).

Theorem rescheduled_delivered_twice :
  let c := demo_fleet [OpSchedule demo_due; OpFetch 1; OpSchedule demo_rescheduled; OpFetch 1]
    [0; 0; 1; 1; 2; 2; 3; 3; 3; 1; 1; 3]%nat [1; 3]%nat in
  fleet_reaches wal0 c ∧
  (attempts (did c)).*1 = ["c"; "c"] ∧
  message <$> returned c = [message demo_rescheduled; message demo_rescheduled] ∧
  record_id <$> returned c = [2; 2]%Z ∧ unsettled c = [].
Proof.
  intros c. split; [apply demo_fleet_reaches; repeat constructor|].
  repeat split; vm_compute; reflexivity.
Qed.
End examples.
