(* ===== verification/Metrics.v ===== *)
(** * Audit buffer and metrics: [audit.rs], [metrics/]

    The ring buffer of recent audit records with its writers, the per-topic
    counters and latency sums, the latest metrics of every node, and what a
    node reports about itself. *)
From Stdlib Require Import Floats.SpecFloat.
From S2P Require Import Prelude Prog Errors Message.

(** ** [audit.rs] *)

(** [ringbuf::HeapRb], a crate outside the repository: its documented
    behaviour for the two calls the code makes. *)
Class RingBuf (A B : Type) : Type := {
  ring_new : nat → B;
  push_overwrite : A → B → B;
  ring_iter : B → list A
}.

Class RingBufLaws (A B : Type) `{RingBuf A B} : Type := {
  ring_capacity : B → nat;
  ring_new_empty : ∀ n, ring_iter (ring_new n) = [];
  ring_new_capacity : ∀ n, ring_capacity (ring_new n) = n;
  push_capacity : ∀ x b, ring_capacity (push_overwrite x b) = ring_capacity b;
  push_items : ∀ x b, (0 < ring_capacity b)%nat →
    ring_iter (push_overwrite x b) =
      if decide (length (ring_iter b) < ring_capacity b)%nat then ring_iter b ++ [x]
      else drop 1 (ring_iter b) ++ [x]
}.

(** An [Arc<dyn AuditWriter>], called through [write]. *)
Definition WriterRef : Type := positive.

Section Audit.
Context {B : Type} `{RingBuf AuditRecord B}.
Context {E : Type → Type} (write : WriterRef → AuditRecord → prog E (Res unit)).

Record AuditManager : Type := { am_buffer : B; am_writers : list WriterRef }.

(** [AuditManager::init]: the new manager, or the [AlreadyInitialized] of the
    [OnceLock] when there is one. *)
Definition audit_init (capacity : nat) (cell : option AuditManager)
    : Res unit * option AuditManager :=
  match cell with
  | Some m => (Err EAlreadyInitialized, Some m)
  | None => (Ok tt, Some {| am_buffer := ring_new capacity; am_writers := [] |})
  end.

Definition with_writers (ws : list WriterRef) (m : AuditManager) : AuditManager :=
  {| am_buffer := am_buffer m; am_writers := ws |}.

(** [record]: the buffer after the push, and the calls that follow it; the
    results of the writers joined by [join_all] are dropped. *)
Definition audit_record (r : AuditRecord) (m : AuditManager)
    : AuditManager * prog E (Res unit) :=
  ({| am_buffer := push_overwrite r (am_buffer m); am_writers := am_writers m |},
   for_each (am_writers m) (λ w, write w r ;;; Ret tt) ;;; Ret (Ok tt)).

Definition get_recent (count : nat) (m : AuditManager) : list AuditRecord :=
  take count (reverse (ring_iter (am_buffer m))).

Definition audit_record_all (l : list AuditRecord) (m : AuditManager) : AuditManager :=
  foldl (λ m r, (audit_record r m).1) m l.

Context `{!RingBufLaws AuditRecord B}.

(** The buffer holds the newest [capacity] records, oldest first. *)
Lemma audit_buffer_items l m past :
  (0 < ring_capacity (am_buffer m))%nat →
  ring_iter (am_buffer m) = drop (length past - ring_capacity (am_buffer m)) past →
  ring_iter (am_buffer (audit_record_all l m)) =
    drop (length (past ++ l) - ring_capacity (am_buffer m)) (past ++ l).
Proof.
  revert m past. induction l as [|r l IH]; intros m past Hc Hi; simpl.
  - by rewrite app_nil_r.
  - set (m' := {| am_buffer := push_overwrite r (am_buffer m); am_writers := am_writers m |}).
    assert (ring_capacity (am_buffer m') = ring_capacity (am_buffer m)) as Hc'
      by apply push_capacity.
    rewrite (cons_middle r past l), (assoc_L app past [r] l), <- Hc'. apply IH; [lia|].
    rewrite Hc'. simpl. rewrite push_items by done.
    assert (length (ring_iter (am_buffer m)) =
              length past `min` ring_capacity (am_buffer m))%nat as Hlen.
    { rewrite Hi, length_drop. lia. }
    rewrite length_app; simpl. case_decide.
    + rewrite Hi. replace (length past - _)%nat with 0%nat by lia.
      by replace (length past + 1 - _)%nat with 0%nat by lia.
    + rewrite Hi, drop_drop, drop_app_le by lia. do 2 f_equal. lia.
Qed.

(** [get_recent] returns the newest records first, at most the capacity
    of the buffer of them, whatever was recorded before. *)
Theorem get_recent_newest_first capacity l n m :
  (0 < capacity)%nat →
  audit_init capacity None = (Ok tt, Some m) →
  get_recent n (audit_record_all l m) = take (n `min` capacity) (reverse l).
Proof.
  intros Hc [= <-]. unfold get_recent.
  rewrite (audit_buffer_items l _ []); simpl.
  - rewrite ring_new_capacity, !take_reverse. f_equal. rewrite length_drop, drop_drop.
    f_equal. lia.
  - by rewrite ring_new_capacity.
  - apply ring_new_empty.
Qed.
End Audit.

(** ** [metrics/aggregator.rs] *)

Record MetricsAggregator : Type := {
  ag_enqueued : gmap string Z;
  ag_completed : gmap string Z;
  ag_failed : gmap string Z;
  ag_retried : gmap string Z;
  ag_latency_sum : gmap string (Z * Duration)
}.

Definition aggregator_empty : MetricsAggregator :=
  {| ag_enqueued := ∅; ag_completed := ∅; ag_failed := ∅; ag_retried := ∅;
     ag_latency_sum := ∅ |}.

(** [*map.entry(topic).or_default() += 1], on [u64]. *)
Definition count_one (tpc : string) (m : gmap string Z) : gmap string Z :=
  <[tpc := u64_incr (default 0 (m !! tpc))]> m.

Definition with_latency v (a : MetricsAggregator) : MetricsAggregator :=
  {| ag_enqueued := ag_enqueued a; ag_completed := ag_completed a; ag_failed := ag_failed a;
     ag_retried := ag_retried a; ag_latency_sum := v |}.

(** [Duration += Duration], which panics on overflow. *)
Definition add_duration (d e : Duration) : outcome Duration :=
  if decide (d + e ≤ duration_max) then Done (d + e)
  else Panicked "overflow when adding durations"%string.

(** [feed]; a panic leaves what was written before it. *)
Definition feed (r : AuditRecord) (a : MetricsAggregator) : outcome unit * MetricsAggregator :=
  match ar_event_type r with
  | Enqueued =>
      (Done tt, {| ag_enqueued := count_one (ar_topic r) (ag_enqueued a);
                   ag_completed := ag_completed a; ag_failed := ag_failed a;
                   ag_retried := ag_retried a; ag_latency_sum := ag_latency_sum a |})
  | DeadLettered =>
      (Done tt, {| ag_enqueued := ag_enqueued a; ag_completed := ag_completed a;
                   ag_failed := count_one (ar_topic r) (ag_failed a);
                   ag_retried := ag_retried a; ag_latency_sum := ag_latency_sum a |})
  | RetryEvent =>
      (Done tt, {| ag_enqueued := ag_enqueued a; ag_completed := ag_completed a;
                   ag_failed := ag_failed a; ag_retried := count_one (ar_topic r) (ag_retried a);
                   ag_latency_sum := ag_latency_sum a |})
  | ProcessingCompleted =>
      let a1 := {| ag_enqueued := ag_enqueued a;
                   ag_completed := count_one (ar_topic r) (ag_completed a);
                   ag_failed := ag_failed a; ag_retried := ag_retried a;
                   ag_latency_sum := ag_latency_sum a |} in
      match ar_duration r with
      | Some duration =>
          let '(n, d) := default (0, 0) (ag_latency_sum a1 !! ar_topic r) in
          match add_duration d duration with
          | Done d' =>
              (Done tt, with_latency (<[ar_topic r := (u64_incr n, d')]> (ag_latency_sum a1)) a1)
          | Panicked why =>
              (Panicked why,
               with_latency (<[ar_topic r := (u64_incr n, d)]> (ag_latency_sum a1)) a1)
          end
      | None => (Done tt, a1)
      end
  | ProcessingStarted => (Done tt, a)
  end.

Definition snapshot (a : MetricsAggregator) : MetricsAggregator := a.

(** Feeding a list of records, until one panics. *)
Fixpoint feed_all (l : list AuditRecord) (a : MetricsAggregator)
    : outcome unit * MetricsAggregator :=
  match l with
  | [] => (Done tt, a)
  | r :: l => match feed r a with
              | (Done _, a') => feed_all l a'
              | (Panicked why, a') => (Panicked why, a')
              end
  end.

(** What the counters should say of the records of a topic. *)
Definition events (ty : AuditEventType) (tpc : string) (l : list AuditRecord)
    : list AuditRecord :=
  filter (λ r, ar_event_type r = ty ∧ ar_topic r = tpc) l.

Definition durations (tpc : string) (l : list AuditRecord) : list Duration :=
  omap ar_duration (events ProcessingCompleted tpc l).

Definition counts (m : gmap string Z) (f : string → nat) : Prop :=
  ∀ tpc, m !! tpc = (if decide (f tpc = 0%nat) then None else Some (Z.of_nat (f tpc))).

Definition sum_durations (l : list Duration) : Duration := foldr Z.add 0 l.

Record aggregates (l : list AuditRecord) (a : MetricsAggregator) : Prop := {
  agg_enqueued : counts (ag_enqueued a) (λ tpc, length (events Enqueued tpc l));
  agg_completed : counts (ag_completed a) (λ tpc, length (events ProcessingCompleted tpc l));
  agg_failed : counts (ag_failed a) (λ tpc, length (events DeadLettered tpc l));
  agg_retried : counts (ag_retried a) (λ tpc, length (events RetryEvent tpc l));
  agg_latency : ∀ tpc, ag_latency_sum a !! tpc =
    (if decide (durations tpc l = []) then None
     else Some (Z.of_nat (length (durations tpc l)), sum_durations (durations tpc l)))
}.

Lemma counts_one m f g tpc :
  counts m f → (Z.of_nat (f tpc) + 1 < u64_modulus) →
  g tpc = S (f tpc) → (∀ t, t ≠ tpc → g t = f t) →
  counts (count_one tpc m) g.
Proof.
  intros Hm Hb Hg Ho t. unfold count_one. destruct (decide (t = tpc)) as [->|Hne].
  - rewrite lookup_insert_eq, Hg. f_equal. rewrite Hm. case_decide as E; simpl.
    + by rewrite E.
    + rewrite u64_incr_small by lia. lia.
  - by rewrite lookup_insert_ne, Hm, Ho by done.
Qed.

Lemma counts_same m f g : counts m f → (∀ t, g t = f t) → counts m g.
Proof. intros Hm Hg t. by rewrite Hg, Hm. Qed.

Lemma events_snoc ty tpc l r :
  events ty tpc (l ++ [r]) =
    events ty tpc l ++ (if decide (ar_event_type r = ty ∧ ar_topic r = tpc) then [r] else []).
Proof. unfold events. by rewrite filter_app. Qed.

Lemma durations_snoc tpc l r :
  durations tpc (l ++ [r]) = durations tpc l ++
    (if decide (ar_event_type r = ProcessingCompleted ∧ ar_topic r = tpc)
     then option_list (ar_duration r) else []).
Proof.
  unfold durations. rewrite events_snoc, omap_app. f_equal. case_decide; [|done].
  simpl. by destruct (ar_duration r).
Qed.

Lemma sum_durations_snoc l d : sum_durations (l ++ [d]) = sum_durations l + d.
Proof. induction l as [|x l IH]; simpl; [lia|]. unfold sum_durations in *. simpl. lia. Qed.

Lemma length_events ty tpc l : (length (events ty tpc l) ≤ length l)%nat.
Proof. apply length_filter. Qed.

(** Rewrites the counts of [l ++ [r]] for a record of known type. *)
Ltac events_step E :=
  rewrite events_snoc, E;
  first [ rewrite decide_False by (by intros [? ?]); by rewrite app_nil_r
        | rewrite decide_True by done; rewrite length_app; simpl; lia
        | rewrite decide_False by (intros [? ?]; congruence); by rewrite app_nil_r ].

Ltac counted E Hb :=
  eapply counts_one;
  [ eassumption | apply Hb | events_step E | intros ? ?; events_step E ].

Ltac uncounted E := eapply counts_same; [eassumption | intros ?; events_step E].

Lemma durations_other tpc l r :
  ar_event_type r ≠ ProcessingCompleted → durations tpc (l ++ [r]) = durations tpc l.
Proof.
  intros Hr. rewrite durations_snoc, decide_False by naive_solver. apply app_nil_r.
Qed.

Lemma latency_other l r (m : gmap string (Z * Duration)) :
  (∀ tpc, m !! tpc = if decide (durations tpc l = []) then None
     else Some (Z.of_nat (length (durations tpc l)), sum_durations (durations tpc l))) →
  (∀ tpc, durations tpc (l ++ [r]) = durations tpc l) →
  ∀ tpc, m !! tpc = if decide (durations tpc (l ++ [r]) = []) then None
     else Some (Z.of_nat (length (durations tpc (l ++ [r]))),
                sum_durations (durations tpc (l ++ [r]))).
Proof. intros Hm Hd tpc. by rewrite Hd. Qed.

Lemma length_durations tpc l : (length (durations tpc l) ≤ length l)%nat.
Proof.
  unfold durations. etrans; [|apply (length_events ProcessingCompleted tpc)].
  induction (events _ _ _) as [|x k IH]; simpl; [done|].
  destruct (ar_duration x); [by apply le_n_S | by apply le_S].
Qed.

Lemma feed_latency l r d (m : gmap string (Z * Duration)) :
  ar_event_type r = ProcessingCompleted → ar_duration r = Some d →
  Z.of_nat (length l) + 1 < u64_modulus →
  (∀ tpc, m !! tpc = if decide (durations tpc l = []) then None
     else Some (Z.of_nat (length (durations tpc l)), sum_durations (durations tpc l))) →
  sum_durations (durations (ar_topic r) (l ++ [r])) ≤ duration_max →
  ∃ n s, default (0, 0) (m !! ar_topic r) = (n, s) ∧ add_duration s d = Done (s + d) ∧
    ∀ tpc, <[ar_topic r := (u64_incr n, s + d)]> m !! tpc =
      if decide (durations tpc (l ++ [r]) = []) then None
      else Some (Z.of_nat (length (durations tpc (l ++ [r]))),
                 sum_durations (durations tpc (l ++ [r]))).
Proof.
  intros Ht Hd Hl Hm Hs. pose proof (length_durations (ar_topic r) l) as Hb.
  assert (durations (ar_topic r) (l ++ [r]) = durations (ar_topic r) l ++ [d]) as Hsn.
  { by rewrite durations_snoc, decide_True, Hd by done. }
  rewrite Hsn, sum_durations_snoc in Hs.
  exists (Z.of_nat (length (durations (ar_topic r) l))), (sum_durations (durations (ar_topic r) l)).
  split_and!.
  - rewrite Hm. case_decide as E; [|done]. by rewrite E.
  - unfold add_duration. by rewrite decide_True.
  - intros t. destruct (decide (t = ar_topic r)) as [->|Hne].
    + rewrite lookup_insert_eq, Hsn, sum_durations_snoc, length_app.
      rewrite decide_False by (by destruct (durations (ar_topic r) l)).
      rewrite u64_incr_small; [|lia..]. simpl. do 2 f_equal. lia.
    + rewrite lookup_insert_ne, Hm by done.
      assert (durations t (l ++ [r]) = durations t l) as ->; [|done].
      rewrite durations_snoc. case_decide; [naive_solver|]. apply app_nil_r.
Qed.

Lemma feed_aggregates l r a :
  aggregates l a →
  Z.of_nat (length l) + 1 < u64_modulus →
  sum_durations (durations (ar_topic r) (l ++ [r])) ≤ duration_max →
  ∃ a', feed r a = (Done tt, a') ∧ aggregates (l ++ [r]) a'.
Proof.
  intros [He Hc Hf Hr Hl] Hn Hs.
  assert (∀ ty, Z.of_nat (length (events ty (ar_topic r) l)) + 1 < u64_modulus) as Hb.
  { intros ty. pose proof (length_events ty (ar_topic r) l). lia. }
  unfold feed. destruct (ar_event_type r) eqn:E.
  all: try (eexists; split; [reflexivity|]; constructor; simpl;
    [..|apply latency_other; [done|intros ?; by apply durations_other; rewrite E]];
    first [ uncounted E | counted E Hb ]).
  destruct (ar_duration r) as [d|] eqn:Ed.
  - destruct (feed_latency l r d _ E Ed Hn Hl Hs) as (n & s & Hd & Ha & Hlat). simpl.
    rewrite Hd, Ha. eexists; split; [reflexivity|]. constructor; simpl; [..|done].
    all: first [ uncounted E | counted E Hb ].
  - eexists; split; [reflexivity|]. constructor; simpl;
      [..|apply latency_other; [done|intros ?; rewrite durations_snoc, Ed; simpl;
                                     case_decide; apply app_nil_r]].
    all: first [ uncounted E | counted E Hb ].
Qed.

Lemma feed_all_snoc l r a :
  feed_all (l ++ [r]) a =
    match feed_all l a with
    | (Done _, a') => feed r a'
    | (Panicked why, a') => (Panicked why, a')
    end.
Proof.
  revert a. induction l as [|x l IH]; intros a; simpl.
  - by destruct (feed r a) as [[[]|?] ?].
  - destruct (feed x a) as [[[]|?] ?]; [apply IH|done].
Qed.

Definition durations_fit (l : list AuditRecord) : Prop :=
  Forall (λ r, 0 ≤ default 0 (ar_duration r)) l ∧
  ∀ tpc, sum_durations (durations tpc l) ≤ duration_max.

Lemma durations_fit_snoc l r : durations_fit (l ++ [r]) → durations_fit l.
Proof.
  intros [Hp Hs]. apply Forall_app in Hp as [Hp Hr]. rewrite Forall_singleton in Hr. split; [done|].
  intros tpc. specialize (Hs tpc). rewrite durations_snoc in Hs. revert Hs Hr.
  case_decide; [|by rewrite app_nil_r]. destruct (ar_duration r) as [d|]; simpl;
    [rewrite sum_durations_snoc; intros; lia | by rewrite app_nil_r].
Qed.

(** The counters count: after any sequence of audit records whose
    durations of one topic add up to a [Duration], the aggregator holds for
    every topic exactly the number of its enqueued, completed, dead-lettered
    and retried records, the number and the sum of the durations of the
    completed ones, and no entry for a topic without such a record. *)
Theorem aggregator_counts_events l :
  Z.of_nat (length l) < u64_modulus →
  durations_fit l →
  ∃ a, feed_all l aggregator_empty = (Done tt, a) ∧ aggregates l a.
Proof.
  induction l as [|r l IH] using rev_ind; intros Hl Hd.
  - eexists. split; [done|]. by split.
  - rewrite length_app in Hl. simpl in Hl.
    destruct IH as (a & Ha & Hag); [lia|by eapply durations_fit_snoc|].
    rewrite feed_all_snoc, Ha. apply feed_aggregates; [done|lia|apply Hd].
Qed.

(** The sum of latencies of a topic is the one that can end the process. *)
Lemma latency_overflow_panics r a n d e :
  ar_event_type r = ProcessingCompleted → ar_duration r = Some e →
  ag_latency_sum a !! ar_topic r = Some (n, d) → duration_max < d + e →
  ∃ why a', feed r a = (Panicked why, a').
Proof.
  intros Ht He Hl Ho. unfold feed. rewrite Ht, He. simpl. rewrite Hl. simpl.
  unfold add_duration. rewrite decide_False by lia. by eexists _, _.
Qed.

(** ** [metrics/node.rs] *)

(** [f32], as the format defines it. *)
Definition f32 : Type := spec_float.
Definition f32_of_u64 (z : Z) : f32 := binary_normalize 24 128 z 0 false.
Definition f32_div : f32 → f32 → f32 := SFdiv 24 128.
Definition f32_mul : f32 → f32 → f32 := SFmul 24 128.

Record NodeMetrics : Type := {
  nm_node_name : string;
  nm_node_type : NodeType;
  nm_cpu_percent : list f32;
  nm_memory_percent : f32;
  nm_node_worker_count : nat;
  nm_update_time : SystemTime
}.

(** [(used as f32 / total as f32) * 100.0]. *)
Definition memory_used_percent (used total : Z) : f32 :=
  f32_mul (f32_div (f32_of_u64 used) (f32_of_u64 total)) (f32_of_u64 100).

(** Without memory the percentage is a NaN, not an error. *)
Lemma memory_percent_of_nothing : memory_used_percent 0 0 = S754_nan.
Proof. vm_compute. reflexivity. Qed.

(** Half of 16 GiB is exactly fifty percent. *)
Lemma memory_percent_half : memory_used_percent (2 ^ 33) (2 ^ 34) = f32_of_u64 50.
Proof. vm_compute. reflexivity. Qed.

(** ** [metrics/node_store.rs], [metrics/manager.rs] *)

Record MetricsStore : Type := { ms_nodes : gmap string NodeMetrics }.

Definition store_init (cell : option MetricsStore) : Res unit * option MetricsStore :=
  match cell with
  | Some s => (Err EAlreadyInitialized, Some s)
  | None => (Ok tt, Some {| ms_nodes := ∅ |})
  end.

Definition update (n : NodeMetrics) (s : MetricsStore) : MetricsStore :=
  {| ms_nodes := <[nm_node_name n := n]> (ms_nodes s) |}.

Definition get_all_nodes `{HashOrder} (s : MetricsStore) : list NodeMetrics :=
  hash_values (ms_nodes s).

Definition get_node (node_id : string) (s : MetricsStore) : option NodeMetrics :=
  ms_nodes s !! node_id.

Record MetricsManager : Type := { mm_aggregator : MetricsAggregator }.

Definition manager_init (cell : option MetricsManager) : Res unit * option MetricsManager :=
  match cell with
  | Some m => (Err EAlreadyInitialized, Some m)
  | None => (Ok tt, Some {| mm_aggregator := aggregator_empty |})
  end.

Definition feed_audit (r : AuditRecord) (m : MetricsManager) : outcome unit * MetricsManager :=
  let '(o, a) := feed r (mm_aggregator m) in (o, {| mm_aggregator := a |}).

Record MetricsSnapshot : Type := {
  sn_business : MetricsAggregator;
  sn_nodes : list NodeMetrics;
  sn_timestamp : SystemTime
}.

Definition manager_snapshot `{HashOrder} (now : SystemTime) (s : MetricsStore)
    (m : MetricsManager) : MetricsSnapshot :=
  {| sn_business := snapshot (mm_aggregator m); sn_nodes := get_all_nodes s;
     sn_timestamp := now |}.

(** The last report of a node among those received. *)
Definition latest (node_id : string) (l : list NodeMetrics) : option NodeMetrics :=
  last (filter (λ n, nm_node_name n = node_id) l).

Lemma store_latest l node_id s :
  get_node node_id (foldl (flip update) s l) =
    match latest node_id l with Some n => Some n | None => get_node node_id s end.
Proof.
  induction l as [|n l IH] using rev_ind; [done|].
  rewrite foldl_app. unfold latest in *. rewrite filter_app. simpl.
  unfold get_node in *. simpl. rewrite filter_cons, filter_nil. case_decide as E.
  - by rewrite E, lookup_insert_eq, last_snoc.
  - by rewrite app_nil_r, lookup_insert_ne.
Qed.

(** The snapshot of the metrics names each node that ever reported
    exactly once, with its latest report. *)
Theorem snapshot_has_latest_reports `{HashOrder} now reports m s :
  store_init None = (Ok tt, Some s) →
  let nodes := sn_nodes (manager_snapshot now (foldl (flip update) s reports) m) in
  (∀ n, n ∈ nodes ↔ latest (nm_node_name n) reports = Some n) ∧
  NoDup (map nm_node_name nodes).
Proof.
  intros [= <-]. simpl. set (s := foldl _ _ reports).
  assert (∀ k, ms_nodes s !! k = latest k reports) as Hs.
  { intros k. unfold s. transitivity (get_node k (foldl (flip update) {| ms_nodes := ∅ |} reports));
      [done|]. rewrite store_latest. by destruct (latest k reports). }
  assert (∀ k n, ms_nodes s !! k = Some n → nm_node_name n = k) as Hk.
  { intros k n. rewrite Hs. unfold latest. intros Hl%last_Some_elem_of.
    by apply list_elem_of_filter in Hl as [? _]. }
  split.
  - intros n. unfold get_all_nodes. rewrite elem_of_hash_values, <- Hs. split.
    + intros [k Hn]. by rewrite (Hk k n Hn).
    + intros Hn. by exists (nm_node_name n).
  - assert (map nm_node_name (get_all_nodes s) = hash_keys (ms_nodes s)) as ->;
      [|apply hash_keys_NoDup].
    unfold get_all_nodes, hash_values, hash_keys. rewrite map_map. apply map_ext_in.
    intros [k n] Hin. apply list_elem_of_In, elem_of_hash_iter in Hin. by apply Hk.
Qed.

(** ** Witnesses *)

(** A ring buffer as a bounded list. *)
Record ListRing (A : Type) : Type := { lr_capacity : nat; lr_items : list A }.
Arguments lr_capacity {A} _.
Arguments lr_items {A} _.

#[export] Instance list_ring (A : Type) : RingBuf A (ListRing A) := {|
  ring_new n := {| lr_capacity := n; lr_items := [] |};
  push_overwrite x b :=
    {| lr_capacity := lr_capacity b;
       lr_items := if decide (length (lr_items b) < lr_capacity b)%nat then lr_items b ++ [x]
                   else drop 1 (lr_items b) ++ [x] |};
  ring_iter := lr_items
|}.

#[export] Instance list_ring_laws (A : Type) : RingBufLaws A (ListRing A) := {|
  ring_capacity := lr_capacity : ListRing A → nat;
  ring_new_empty n := eq_refl;
  ring_new_capacity n := eq_refl;
  push_capacity x b := eq_refl;
  push_items x b _ := eq_refl
|}.

Definition demo_audit (ty : AuditEventType) (d : option Duration) : AuditRecord :=
  {| ar_message_id := "m1"; ar_topic := "orders"; ar_event_type := ty; ar_worker_id := None;
     ar_timestamp := 7; ar_result := AuditStart; ar_error := None; ar_duration := d |}%string.

Definition demo_audits : list AuditRecord :=
  [demo_audit ProcessingStarted None; demo_audit ProcessingCompleted (Some 5);
   demo_audit RetryEvent None].

Definition demo_manager : AuditManager (B := ListRing AuditRecord) :=
  {| am_buffer := ring_new 2; am_writers := [] |}.

Lemma get_recent_newest_first_witness :
  get_recent 5 (audit_record_all (E := λ _, unit) (λ _ _, Ret (Ok tt)) demo_audits demo_manager)
    = [demo_audit RetryEvent None; demo_audit ProcessingCompleted (Some 5)].
Proof.
  rewrite (get_recent_newest_first (λ _ _, Ret (Ok tt)) 2); [reflexivity|lia|reflexivity].
Defined.

Lemma demo_audits_fit : durations_fit demo_audits.
Proof.
  split; [repeat constructor; vm_compute; discriminate|].
  intros tpc. unfold durations, events, demo_audits. rewrite !filter_cons, filter_nil.
  repeat case_decide; vm_compute; discriminate.
Qed.

Lemma aggregator_counts_events_witness :
  ∃ a, feed_all demo_audits aggregator_empty = (Done tt, a) ∧ aggregates demo_audits a.
Proof. apply aggregator_counts_events; [vm_compute; reflexivity|apply demo_audits_fit]. Defined.

Definition demo_report (node : string) (now : SystemTime) : NodeMetrics :=
  {| nm_node_name := node; nm_node_type := WorkerNode; nm_cpu_percent := [];
     nm_memory_percent := memory_used_percent 1 2; nm_node_worker_count := 3;
     nm_update_time := now |}.

Lemma snapshot_has_latest_reports_witness :
  let s := {| ms_nodes := ∅ |} in
  let reports := [demo_report "a" 1; demo_report "b" 2; demo_report "a" 3]%string in
  NoDup (map nm_node_name (sn_nodes (manager_snapshot (H := list_order) 9
    (foldl (flip update) s reports) {| mm_aggregator := aggregator_empty |}))).
Proof.
  intros s reports.
  by apply (snapshot_has_latest_reports 9 reports {| mm_aggregator := aggregator_empty |} s).
Defined.
