(* ===== verification/Console.v ===== *)
(** * The console writer of audit records: [event_base_audit/src/console.rs]

    The line the writer prints.  The formatting of dates ([chrono]) and the
    [Debug] texts of strings and durations of the Standard Library are
    arguments. *)
From S2P Require Import Prelude Errors Message.

Open Scope string_scope.

Section console.
Context (datetime_format : string → SystemTime → string).
Context (debug_str : string → string) (debug_duration : Duration → string).

(** The derived [Debug] of [Option] and of [AuditResult]. *)
Definition debug_option {A} (show : A → string) (o : option A) : string :=
  match o with Some x => "Some(" +:+ show x +:+ ")" | None => "None" end.

Definition debug_audit_result (r : AuditResult) : string :=
  match r with
  | AuditStart => "Start"
  | AuditSuccess => "Success"
  | AuditFailure => "Failure"
  | AuditRetry => "Retry"
  | AuditDead => "Dead"
  end.

Definition console_line (record : AuditRecord) : string :=
  "[AUDIT] " +:+ datetime_format "%Y-%m-%d %H:%M:%S" (ar_timestamp record) +:+
  " | topic=" +:+ ar_topic record +:+
  " | msg=" +:+ ar_message_id record +:+
  " | worker=" +:+ debug_option debug_str (ar_worker_id record) +:+
  " | result=" +:+ debug_audit_result (ar_result record) +:+
  " | duration=" +:+ debug_option debug_duration (ar_duration record) +:+ "ms" +:+
  " | error=" +:+ debug_option debug_str (ar_error record).

(** [ConsoleAuditWriter::write]: the lines printed so far and the new one. *)
Definition console_write (record : AuditRecord) (out : list string) : Res unit * list string :=
  (Ok tt, (out ++ [console_line record])%list).

(** Writing never fails and keeps what was printed, also for many records. *)
Lemma console_write_all records out :
  foldl (λ o r, (console_write r o).2) out records = (out ++ (console_line <$> records))%list.
Proof.
  revert out. induction records as [|r l IH]; intros out; simpl; [by rewrite app_nil_r|].
  by rewrite IH, <- (assoc_L (++)%list).
Qed.
End console.

(** The unit stands behind a text that has one already. *)
Example duration_has_two_units :
  console_line (λ _ _, "2026-01-01 00:00:00") (λ s, s) (λ _, "1.5s")
    {| ar_message_id := "m"; ar_topic := "t"; ar_event_type := ProcessingCompleted;
       ar_worker_id := None; ar_timestamp := 0; ar_result := AuditSuccess; ar_error := None;
       ar_duration := Some (from_millis 1500) |} =
  "[AUDIT] 2026-01-01 00:00:00 | topic=t | msg=m | worker=None | result=Success" +:+
  " | duration=Some(1.5s)ms | error=None".
Proof. reflexivity. Qed.

Close Scope string_scope.
