(* ===== verification/Tracing.v ===== *)
(** * Trace records and the tracing layer: [trace.rs], [trace_layer.rs]

    The layer keeps an unfinished [TraceRecord] in the extensions of every
    open span and turns closed spans and events into messages on
    [_system.trace].  [tracing] and [serde_json] are crates outside the
    repository: a span is what the layer reads of it. *)
From stdpp Require Import pretty.
From S2P Require Import Prelude Prog Errors Message Codec.

(** [serde_json::Value]. *)
Inductive JsonValue : Type :=
| JNull | JBool (b : bool) | JNumber (text : string) | JString (s : string)
| JArray (l : list JsonValue) | JObject (fields : list (string * JsonValue)).

Inductive TraceLevel : Type := LTrace | LDebug | LInfo | LWarn | LError.
#[export] Instance TraceLevel_eq_dec : EqDecision TraceLevel.
Proof. solve_decision. Defined.

#[export] Instance JsonValue_inhabited : Inhabited JsonValue := populate JNull.

Record TraceRecord : Type := {
  tc_trace_id : option string;
  tc_span_id : string;
  tc_parent_span_id : option string;
  tc_name : string;
  tc_target : string;
  tc_level : TraceLevel;
  tc_fields : gmap string JsonValue;
  tc_started_at : option SystemTime;
  tc_finished_at : option SystemTime;
  tc_duration : option Duration;
  tc_message_id : option string;
  tc_worker_id : option string;
  tc_topic : option string
}.

(** What [on_new_span] reads of a span and its attributes; [sa_json] is
    [serde_json::to_value(attrs.as_serde())]. *)
Record SpanAttributes : Type := {
  sa_id : Z;
  sa_parent : option Z;
  sa_name : string;
  sa_target : string;
  sa_fields : list string;
  sa_json : result JsonValue string
}.

(** [tracing::Level] and what [on_event] reads of an event. *)
Inductive Level : Type := ERROR | WARN | INFO | DEBUG | TRACE.
Record Event : Type := {
  ev_name : string;
  ev_target : string;
  ev_level : Level;
  ev_json : result JsonValue string
}.

Open Scope string_scope.

(** [to_value(..).unwrap_or_else(|_| json!({}))], its object or an empty map. *)
Definition json_fields (r : result JsonValue string) : gmap string JsonValue :=
  match unwrap_or r (JObject []) with
  | JObject kvs => foldl (λ m kv, <[kv.1 := kv.2]> m) ∅ kvs
  | _ => ∅
  end.

(** [Display] of a [tracing_core::Field]: the field's name. *)
Definition field_to_string (name : string) : string := name.

(** [attrs.fields().iter().find_map(..)]. *)
Fixpoint find_trace_id (fields : list string) : option string :=
  match fields with
  | [] => None
  | x :: l => if decide (x = "trace_id") then Some (field_to_string x) else find_trace_id l
  end.

Definition span_record (now : SystemTime) (a : SpanAttributes) : TraceRecord :=
  {| tc_trace_id := find_trace_id (sa_fields a); tc_span_id := pretty (sa_id a);
     tc_parent_span_id := pretty <$> sa_parent a; tc_name := sa_name a;
     tc_target := sa_target a; tc_level := LInfo; tc_fields := json_fields (sa_json a);
     tc_started_at := Some now; tc_finished_at := None; tc_duration := None;
     tc_message_id := None; tc_worker_id := None; tc_topic := None |}.

(** The extensions of the open spans; [insert] panics when the span already
    holds a record. *)
Abbreviation Extensions := (gmap Z TraceRecord).

Definition on_new_span (now : SystemTime) (a : SpanAttributes) (x : Extensions)
    : outcome unit * Extensions :=
  match x !! sa_id a with
  | Some _ => (Panicked "assertion failed: self.replace(val).is_none()", x)
  | None => (Done tt, <[sa_id a := span_record now a]> x)
  end.

Definition trace_level (l : Level) : TraceLevel :=
  match l with
  | ERROR => LError | WARN => LWarn | INFO => LInfo | DEBUG => LDebug | TRACE => LTrace
  end.

Definition event_record (now1 now2 : SystemTime) (e : Event) : TraceRecord :=
  {| tc_trace_id := None; tc_span_id := ""; tc_parent_span_id := None; tc_name := ev_name e;
     tc_target := ev_target e; tc_level := trace_level (ev_level e);
     tc_fields := json_fields (ev_json e); tc_started_at := Some now1;
     tc_finished_at := Some now2; tc_duration := None; tc_message_id := None;
     tc_worker_id := None; tc_topic := None |}.

Section layer.
Context `{Json TraceRecord}.

(** [EMessage::new(.., MessagePayload(serde_json::to_vec(&record).unwrap()), Standard, None)]. *)
Definition trace_message (uuid : string) (now : SystemTime) (r : TraceRecord)
    : outcome EMessage :=
  match json_to_vec r with
  | Ok b => Done (EMessage_new uuid now SYSTEM_TOPIC_TRACE b Standard None)
  | Err _ => Panicked "called `Result::unwrap()` on an `Err` value"
  end.

(** What is spawned: the message for [producer.try_send] (events) or for
    [TopicRouter::send] (spans), if the thread has a runtime. *)
Definition spawn_if_runtime (runtime : bool) (m : EMessage) : list EMessage :=
  if runtime then [m] else [].

Definition on_event (now1 now2 now3 : SystemTime) (uuid : string) (runtime : bool) (e : Event)
    : outcome (list EMessage) :=
  match trace_message uuid now3 (event_record now1 now2 e) with
  | Done m => Done (spawn_if_runtime runtime m)
  | Panicked why => Panicked why
  end.

(** [start.elapsed().unwrap_or_default()]. *)
Definition elapsed_or_zero (now start : SystemTime) : Duration :=
  unwrap_or (duration_since now start) 0.

Definition finish (now1 now2 : SystemTime) (r : TraceRecord) : TraceRecord :=
  {| tc_trace_id := tc_trace_id r; tc_span_id := tc_span_id r;
     tc_parent_span_id := tc_parent_span_id r; tc_name := tc_name r; tc_target := tc_target r;
     tc_level := tc_level r; tc_fields := tc_fields r; tc_started_at := tc_started_at r;
     tc_finished_at := Some now1;
     tc_duration := match tc_started_at r with
                    | Some start => Some (elapsed_or_zero now2 start)
                    | None => tc_duration r
                    end;
     tc_message_id := tc_message_id r; tc_worker_id := tc_worker_id r; tc_topic := tc_topic r |}.

Definition on_close (now1 now2 now3 : SystemTime) (uuid : string) (runtime : bool) (id : Z)
    (x : Extensions) : outcome (list EMessage) * Extensions :=
  match x !! id with
  | None => (Done [], x)
  | Some r =>
      match trace_message uuid now3 (finish now1 now2 r) with
      | Done m => (Done (spawn_if_runtime runtime m), delete id x)
      | Panicked why => (Panicked why, delete id x)
      end
  end.

(** ** Properties *)

Lemma find_trace_id_name l t : find_trace_id l = Some t → t = "trace_id".
Proof.
  induction l as [|x l IH]; simpl; [done|]. case_decide as E; [|done].
  intros [= <-]. exact E.
Qed.

(** A recorded trace id never carries the value of the span's
    [trace_id] field: every span that has such a field gets the same id, the
    text "trace_id", so records of different traces are not told apart. *)
Theorem trace_ids_all_alike now now' a a' :
  "trace_id" ∈ sa_fields a → "trace_id" ∈ sa_fields a' →
  tc_trace_id (span_record now a) = Some "trace_id" ∧
  tc_trace_id (span_record now a) = tc_trace_id (span_record now' a').
Proof.
  assert (∀ l, "trace_id" ∈ l → find_trace_id l = Some "trace_id") as Hf.
  { intros l. induction l as [|x l IH]; [by intros ?%not_elem_of_nil|].
    rewrite elem_of_cons. simpl. case_decide as E; [by intros _; rewrite E|naive_solver]. }
  intros Ha Ha'. simpl. by rewrite (Hf _ Ha), (Hf _ Ha').
Qed.

Context `{!JsonLaws TraceRecord}.

(** The life of a span on a thread with a runtime: closing it sends one
    message on the trace topic whose payload reads back as the record made
    at its opening with the finish time and the time since the opening
    filled in (zero when the clock went back), and closing it again sends
    nothing. *)
Theorem span_reports_once now a x x' now1 now2 now3 uuid b :
  on_new_span now a x = (Done tt, x') →
  json_to_vec (finish now1 now2 (span_record now a)) = Ok b →
  let '(o, x'') := on_close now1 now2 now3 uuid true (sa_id a) x' in
  x'' = x ∧
  (∃ m r, o = Done [m] ∧ topic m = SYSTEM_TOPIC_TRACE ∧ json_from_slice (payload m) = Ok r ∧
     tc_span_id r = pretty (sa_id a) ∧ tc_parent_span_id r = pretty <$> sa_parent a ∧
     tc_finished_at r = Some now1 ∧
     tc_duration r = Some (if decide (now ≤ now2) then now2 - now else 0)%Z) ∧
  on_close now1 now2 now3 uuid true (sa_id a) x'' = (Done [], x).
Proof.
  unfold on_new_span, on_close. destruct (x !! sa_id a) eqn:Hx; [done|].
  intros [= <-] Hb. rewrite lookup_insert_eq. unfold trace_message. rewrite Hb.
  rewrite delete_insert_id, Hx by done. split_and!; [done| |done].
  eexists _, _. split; [done|]. split; [done|]. split; [by apply json_roundtrip|].
  split_and!; [done..|]. simpl. unfold elapsed_or_zero, duration_since.
  f_equal. by case_decide.
Qed.
End layer.

Close Scope string_scope.

(** ** A lawful JSON codec for trace records *)

Module CountJson.

Fixpoint value_tree (v : JsonValue) : gen_tree (bool + string + string) :=
  match v with
  | JNull => GenNode 0 []
  | JBool b => GenLeaf (inl (inl b))
  | JNumber s => GenLeaf (inl (inr s))
  | JString s => GenLeaf (inr s)
  | JArray l => GenNode 1 (map value_tree l)
  | JObject l => GenNode 2 (map (λ kv, GenNode 3 [GenLeaf (inr kv.1); value_tree kv.2]) l)
  end.

Fixpoint tree_value (t : gen_tree (bool + string + string)) : JsonValue :=
  match t with
  | GenLeaf (inl (inl b)) => JBool b
  | GenLeaf (inl (inr s)) => JNumber s
  | GenLeaf (inr s) => JString s
  | GenNode 1 l => JArray (map tree_value l)
  | GenNode 2 l =>
      JObject (map (λ t, match t with
                         | GenNode _ [GenLeaf (inr k); v] => (k, tree_value v)
                         | _ => (EmptyString, JNull)
                         end) l)
  | _ => JNull
  end.

Lemma tree_value_tree : ∀ v, tree_value (value_tree v) = v.
Proof.
  fix IH 1. intros [| | | |l|l]; simpl; [done..| |]; f_equal; rewrite map_map.
  - induction l as [|v l IHl]; simpl; [done|]. by rewrite IH, IHl.
  - induction l as [|[k v] l IHl]; simpl; [done|]. by rewrite IH, IHl.
Qed.

#[export] Instance JsonValue_eq_dec : EqDecision JsonValue.
Proof.
  refine (λ v w, cast_if (decide (value_tree v = value_tree w))); abstract
    (first [congruence | rewrite <- (tree_value_tree v), <- (tree_value_tree w); congruence]).
Defined.

#[export] Instance JsonValue_countable : Countable JsonValue.
Proof. exact (inj_countable' value_tree tree_value tree_value_tree). Defined.

#[export] Instance TraceLevel_countable : Countable TraceLevel.
Proof.
  refine (inj_countable' (λ l, match l with LTrace => 0 | LDebug => 1 | LInfo => 2 | LWarn => 3
                                       | LError => 4 end)%nat
    (λ n, match n with 0 => LTrace | 1 => LDebug | 2 => LInfo | 3 => LWarn | _ => LError end)%nat
    _). by intros [].
Defined.

#[export] Instance TraceRecord_eq_dec : EqDecision TraceRecord.
Proof. solve_decision. Defined.

#[export] Instance TraceRecord_countable : Countable TraceRecord.
Proof.
  refine (inj_countable'
    (λ r, (tc_trace_id r, tc_span_id r, tc_parent_span_id r, tc_name r, tc_target r, tc_level r,
           tc_fields r, tc_started_at r, tc_finished_at r, tc_duration r, tc_message_id r,
           tc_worker_id r, tc_topic r))
    (λ '(a, b, c, d, e, f, g, h, i, j, k, l, m),
       {| tc_trace_id := a; tc_span_id := b; tc_parent_span_id := c; tc_name := d;
          tc_target := e; tc_level := f; tc_fields := g; tc_started_at := h;
          tc_finished_at := i; tc_duration := j; tc_message_id := k; tc_worker_id := l;
          tc_topic := m |}) _).
  by intros [].
Defined.

#[export] Instance count_json `{Countable A} : Json A := {|
  json_to_vec x := Ok [Zpos (encode x)];
  json_from_slice b :=
    match b with
    | [Zpos p] => match decode p with Some x => Ok x | None => Err EmptyString end
    | _ => Err EmptyString
    end
|}.

#[export] Instance count_json_laws `{Countable A} : JsonLaws A.
Proof. intros x b [= <-]. simpl. by rewrite decode_encode. Qed.
End CountJson.

Definition demo_json : Json TraceRecord :=
  @CountJson.count_json _ _ CountJson.TraceRecord_countable.

Definition demo_span : SpanAttributes :=
  {| sa_id := 7; sa_parent := Some 3; sa_name := "work"; sa_target := "app";
     sa_fields := ["trace_id"]; sa_json := Ok (JObject [("trace_id", JString "abc")]) |}%string.

Lemma trace_ids_all_alike_witness :
  tc_trace_id (span_record 5 demo_span) = Some "trace_id"%string.
Proof. apply (trace_ids_all_alike 5 5 demo_span demo_span); by apply list_elem_of_singleton. Defined.

Lemma span_reports_once_witness :
  let '(_, x'') :=
    on_close (H := demo_json) 20 20 20 "u"%string true 7 {[ 7 := span_record 5 demo_span ]} in
  x'' = ∅.
Proof.
  pose proof (span_reports_once (H := demo_json)
    (JsonLaws0 := CountJson.count_json_laws) 5 demo_span ∅ _ 20 20 20 "u"%string _
    eq_refl eq_refl) as W.
  destruct (on_close _ _ _ _ _ _ _) as [o x'']. apply W.
Defined.
