(* ===== verification/Registry.v ===== *)
(** * The worker registry: [worker_registry.rs]

    Which workers are alive, on which topic, and when they last said so; every
    change is saved through the WAL.  Proved against the [Wal] contract. *)
From S2P Require Import Prelude Prog Errors Message Wal.

Record WorkerRegistry (L : Type) : Type := {
  workers : gmap string WorkerInfo;
  wal : option L
}.
Arguments workers {L} _.
Arguments wal {L} _.

Section Registry.
Context {L : Type} `{Wal L} `{HashOrder}.
Implicit Types reg : WorkerRegistry L.

(** [WorkerRegistry::init], up to the [OnceLock] that holds the result. *)
Definition registry_init (w : option L) : Res (WorkerRegistry L) :=
  match w with
  | None => Err (EUnsupported "WorkerRegistry requires a WAL (pass Some(..))"%string)
  | Some l =>
      match wal_load_worker_registry l with
      | (Ok m, l') => Ok {| workers := m; wal := Some l' |}
      | (Err e, _) => Err e
      end
  end.

(** [save_worker_registry]: the [unwrap] panics without a WAL. *)
Definition save_worker_registry reg : outcome (Res unit) * WorkerRegistry L :=
  match wal reg with
  | None => (Panicked "called `Option::unwrap()` on a `None` value"%string, reg)
  | Some l =>
      let '(r, l') := wal_save_worker_registry (workers reg) l in
      (Done r, {| workers := workers reg; wal := Some l' |})
  end.

Definition with_workers (m : gmap string WorkerInfo) reg : WorkerRegistry L :=
  {| workers := m; wal := wal reg |}.

Definition registry_register (info : WorkerInfo) reg :=
  save_worker_registry (with_workers (<[wi_worker_name info := info]> (workers reg)) reg).

Definition registry_unregister (worker_id : string) reg :=
  save_worker_registry (with_workers (delete worker_id (workers reg)) reg).

Definition set_heartbeat (now : SystemTime) (i : WorkerInfo) : WorkerInfo :=
  {| wi_worker_name := wi_worker_name i; wi_topic := wi_topic i; wi_last_heartbeat := now |}.

Definition registry_heartbeat (now : SystemTime) (worker_id : string) reg :=
  save_worker_registry (with_workers (alter (set_heartbeat now) worker_id (workers reg)) reg).

Definition registry_get_workers (tpc : string) reg : Res (list WorkerInfo) :=
  Ok (filter (λ i, wi_topic i = tpc) (hash_values (workers reg))).

Definition registry_get_all_workers reg : Res (list WorkerInfo) :=
  Ok (hash_values (workers reg)).

(** A heartbeat in the future counts as [Duration::MAX] old. *)
Definition is_stale (now : SystemTime) (timeout : Duration) (i : WorkerInfo) : Prop :=
  unwrap_or (duration_since now (wi_last_heartbeat i)) duration_max > timeout.
#[global] Instance is_stale_dec now timeout i : Decision (is_stale now timeout i) :=
  decide (_ > _).

Definition registry_cleanup_stale (now : SystemTime) (timeout : Duration) reg
    : outcome (Res (list string)) * WorkerRegistry L :=
  let stale := (filter (λ p, is_stale now timeout p.2) (hash_iter (workers reg))).*1 in
  let reg' := with_workers (foldl (λ m i, delete i m) (workers reg) stale) reg in
  match save_worker_registry reg' with
  | (Done (Ok _), reg'') => (Done (Ok stale), reg'')
  | (Done (Err e), reg'') => (Done (Err e), reg'')
  | (Panicked w, reg'') => (Panicked w, reg'')
  end.

(** ** Properties *)

Context `{!WalLaws L}.

(** The registry the WAL holds is the one in memory. *)
Definition saved reg : Prop :=
  ∃ l, wal reg = Some l ∧ a_registry (wal_abs l) = workers reg.

Lemma save_saved reg r reg' :
  save_worker_registry reg = (Done (Ok r), reg') → saved reg' ∧ workers reg' = workers reg.
Proof.
  unfold save_worker_registry. destruct (wal reg) as [l|]; [|done].
  destruct (wal_save_worker_registry (workers reg) l) as [r' l'] eqn:Hs.
  intros [= -> <-]. split; [|done]. exists l'. split; [done|]. simpl. destruct r.
  by rewrite (save_registry_law _ _ _ Hs).
Qed.

Lemma save_workers reg o reg' :
  save_worker_registry reg = (o, reg') → workers reg' = workers reg.
Proof.
  unfold save_worker_registry. destruct (wal reg) as [l|]; [|by intros [= _ <-]].
  destruct (wal_save_worker_registry (workers reg) l). by intros [= _ <-].
Qed.

Lemma registry_cleanup_inv now timeout reg o reg' :
  registry_cleanup_stale now timeout reg = (o, reg') →
  workers reg' = filter (λ p, ¬ is_stale now timeout p.2) (workers reg).
Proof.
  unfold registry_cleanup_stale. destruct (save_worker_registry _) as [o1 r1] eqn:Hs.
  apply save_workers in Hs. simpl in Hs. intros Heq.
  assert (reg' = r1) as -> by (by destruct o1 as [[]|]; simplify_eq).
  rewrite Hs. apply map_eq. intros i. rewrite foldl_delete, map_lookup_filter.
  destruct (workers reg !! i) as [w|] eqn:Hi; simpl; [|by case_decide].
  destruct (decide (is_stale now timeout w)) as [Hd|Hd].
  - rewrite option_guard_False by naive_solver. rewrite decide_True; [done|].
    apply list_elem_of_fmap. exists (i, w).
    by rewrite list_elem_of_filter, elem_of_hash_iter.
  - rewrite option_guard_True by done. rewrite decide_False; [done|].
    intros Hin. apply list_elem_of_fmap in Hin as [[i' w'] [-> Hin]].
    rewrite list_elem_of_filter, elem_of_hash_iter in Hin. naive_solver.
Qed.

(** Whenever a registry operation succeeds, the registry saved in the
    WAL is the one in memory, so that a restart ([init] on that WAL) gives
    the same registry back. *)
Theorem registry_survives_restart reg reg' (op : WorkerRegistry L → outcome (Res unit) * WorkerRegistry L) :
  (∃ i, op = registry_register i) ∨ (∃ i, op = registry_unregister i) ∨
    (∃ now i, op = registry_heartbeat now i) →
  op reg = (Done (Ok tt), reg') →
  saved reg' ∧
  ∀ m, registry_init (wal reg') = Ok m → workers m = workers reg'.
Proof.
  intros Hop Heq. assert (saved reg') as Hs.
  { destruct Hop as [[i ->]|[[i ->]|(now & i & ->)]]; by apply save_saved in Heq as [? _]. }
  split; [done|]. intros m. destruct Hs as (l & -> & Ha). simpl.
  destruct (wal_load_worker_registry l) as [[m'|e] l'] eqn:Hl; [|done].
  intros [= <-]; simpl. destruct (load_registry_law _ _ _ Hl) as [_ ->]. done.
Qed.

(** C29. The stale sweep removes exactly the workers whose last heartbeat is
    more than [timeout] ago or lies in the future, reports each of them
    once, and leaves every other entry as it was. *)
Theorem cleanup_removes_exactly_the_stale now timeout reg ids reg' :
  0 ≤ timeout < duration_max →
  registry_cleanup_stale now timeout reg = (Done (Ok ids), reg') →
  NoDup ids ∧ saved reg' ∧
  (∀ i, i ∈ ids ↔ ∃ w, workers reg !! i = Some w ∧
      (now - wi_last_heartbeat w > timeout ∨ now < wi_last_heartbeat w)) ∧
  (∀ i, workers reg' !! i = if decide (i ∈ ids) then None else workers reg !! i).
Proof.
  intros Ht Heq. pose proof (registry_cleanup_inv _ _ _ _ _ Heq) as Hw.
  unfold registry_cleanup_stale in Heq.
  destruct (save_worker_registry _) as [[[]|] r1] eqn:Hs; simplify_eq.
  destruct (save_saved _ _ _ Hs) as [Hsaved Hwk].
  assert (∀ w, is_stale now timeout w ↔
    (now - wi_last_heartbeat w > timeout ∨ now < wi_last_heartbeat w)) as Hst.
  { intros w. unfold is_stale, duration_since. case_decide; simpl; lia. }
  assert (∀ i, i ∈ (filter (λ p, is_stale now timeout p.2) (hash_iter (workers reg))).*1
    ↔ ∃ w, workers reg !! i = Some w ∧ is_stale now timeout w) as Hin.
  { intros i. rewrite list_elem_of_fmap. split.
    - intros [[i' w] [-> Hin]].
      rewrite list_elem_of_filter, elem_of_hash_iter in Hin. naive_solver.
    - intros (w & Hi & Hd). exists (i, w).
      by rewrite list_elem_of_filter, elem_of_hash_iter. }
  split; [|split; [done|split]].
  - apply (sublist_NoDup _ (hash_keys (workers reg))); [apply hash_keys_NoDup|].
    apply fmap_sublist, sublist_filter.
  - intros i. rewrite Hin. by setoid_rewrite Hst.
  - intros i. rewrite Hwk. apply foldl_delete.
Qed.

(** [get_workers] returns exactly the registered workers of the topic,
    each once: the recipients of a broadcast. *)
Theorem get_workers_exact tpc reg :
  ∃ l, registry_get_workers tpc reg = Ok l ∧
    l ≡ₚ (filter (λ p, wi_topic p.2 = tpc) (map_to_list (workers reg))).*2.
Proof.
  eexists. split; [reflexivity|]. unfold hash_values. rewrite hash_iter_perm.
  induction (map_to_list (workers reg)) as [|[k i] l IH]; [done|].
  rewrite fmap_cons, !filter_cons. cbn [snd]. case_decide; [|done].
  rewrite fmap_cons. by rewrite IH.
Qed.
End Registry.

Definition demo_info : WorkerInfo :=
  {| wi_worker_name := "n@w1"; wi_topic := "orders"; wi_last_heartbeat := 100 |}.
Definition demo_registry : WorkerRegistry MemoryWal :=
  {| workers := {[ "n@w1"%string := demo_info ]}; wal := Some MemoryWal_new |}.

Lemma registry_survives_restart_witness :
  workers (registry_register (H := MemoryWal_wal (H := list_order)) demo_info demo_registry).2
    !! "n@w1"%string = Some demo_info ∧
  saved (WalLaws0 := MemoryWal_laws (H := list_order))
    (registry_register (H := MemoryWal_wal (H := list_order)) demo_info demo_registry).2.
Proof.
  split; [reflexivity|].
  refine (proj1 (registry_survives_restart (WalLaws0 := MemoryWal_laws (H := list_order))
            demo_registry _ (registry_register demo_info) _ _)).
  - left. exists demo_info. reflexivity.
  - vm_compute; reflexivity.
Defined.

Lemma cleanup_removes_exactly_the_stale_witness :
  (registry_cleanup_stale (H := MemoryWal_wal (H := list_order)) (H0 := list_order)
     (from_secs 200) (from_secs 90) demo_registry).1 = Done (Ok ["n@w1"%string]) ∧
  NoDup ["n@w1"%string].
Proof.
  split; [vm_compute; reflexivity|].
  refine (proj1 (cleanup_removes_exactly_the_stale
    (WalLaws0 := MemoryWal_laws (H := list_order)) (H0 := list_order)
    (from_secs 200) (from_secs 90) demo_registry ["n@w1"%string]
    (registry_cleanup_stale (H := MemoryWal_wal (H := list_order)) (H0 := list_order)
       (from_secs 200) (from_secs 90) demo_registry).2 _ _)).
  - vm_compute; split; [discriminate|reflexivity].
  - vm_compute; reflexivity.
Defined.
