(* ===== verification/Runtime.v ===== *)
(** * The effects of a node

    The shared objects the asynchronous code of a node works on, as effects:
    clock and UUIDs, the process-wide cells ([OnceLock]s of [lib.rs],
    [topic.rs], [worker_registry.rs], [consumer_router.rs]), the producers and
    consumers behind [dyn EProducer] / [dyn EConsumer], the WAL of the
    registry, the tables of the [ConsumerRouter], the status cells of the
    workers and the user's pipelines. *)
From S2P Require Import Prelude Prog Errors Message Metrics Tracing.

(** An [Arc<dyn EProducer>]: which queue it feeds. *)
Record Producer : Type := { p_addr : positive }.
#[export] Instance Producer_eq_dec : EqDecision Producer.
Proof. solve_decision. Defined.

(** The part of [TopicRouter] that is fixed at [init]; its topic list and its
    default timeout are behind locks, hence effects. *)
Record TopicRouter : Type := { tr_producer : Producer }.

(** An [Arc<RwLock<Box<dyn Wal>>>]. *)
Record WalHandle : Type := { wh_addr : positive }.

(** [queues/mod.rs]: a claimed message. *)
Record ClaimedMessage : Type := {
  cm_message : EMessage;
  cm_claim_id : string;
  cm_claimed_at : SystemTime
}.

(** [wal/sync.rs]: the client a worker reports message states with. *)
Record WalClient : Type := { wc_worker_id : string; wc_template : EMessage }.

(** [worker.rs]: status of a worker. *)
Inductive WorkerStatus : Type := Idle | Working.
#[export] Instance WorkerStatus_eq_dec : EqDecision WorkerStatus.
Proof. solve_decision. Defined.

(** [worker.rs]: the immutable part of [Worker].  The status, the shutdown
    notification and the completion flag are shared cells, addressed by the
    worker's name; the pipeline is run through an effect. *)
Record Worker : Type := {
  w_topic : string;
  w_name : string;
  w_producer : Producer;
  w_time_out : option Duration;
  w_shutdown_check_interval : Duration;
  w_shutdown_timeout : option Duration;
  w_wal : WalClient;
  w_audit_template : EMessage
}.

(** The sending half of a worker's local inbox ([mpsc::Sender<EMessage>]). *)
Record Inbox : Type := { ib_addr : positive }.

Inductive Eff : Type → Type :=
(* clock, randomness, timer *)
| Now : Eff SystemTime
| NewUuid : Eff string
| Sleep (d : Duration) : Eff unit
(* lib.rs *)
| TryGetNodeName : Eff (option string)
| NodeTypeCell : Eff (option NodeType)
(* topic.rs *)
| TopicRouterCell : Eff (option TopicRouter)
| ReadDefaultTimeout : Eff (option Duration)
| WriteDefaultTimeout (d : option Duration) : Eff unit
| ReadTopics : Eff (list string)
| RegisterTopic (t : string) : Eff unit
(* dyn EProducer *)
| ProducerSend (p : Producer) (m : EMessage) : Eff (Res unit)
| ProducerTrySend (p : Producer) (m : EMessage) : Eff (Res unit)
| ProducerSendTimeout (p : Producer) (m : EMessage) (d : Duration) : Eff (Res unit)
(* worker_registry.rs *)
| RegistryCell : Eff (option unit)
| RegistryWal : Eff (option WalHandle)
| RegGetWorkers (t : string) : Eff (Res (list WorkerInfo))
| RegGetAllWorkers : Eff (Res (list WorkerInfo))
| RegRegister (i : WorkerInfo) : Eff (Res unit)
| RegUnregister (w : string) : Eff (Res unit)
| RegHeartbeat (w : string) : Eff (Res unit)
| RegCleanupStale (d : Duration) : Eff (Res (list string))
(* dyn Wal *)
| WalAppend (h : WalHandle) (r : WalRecord) : Eff (Res unit)
| WalUpdateState (h : WalHandle) (i : string) (s : WalRecordState) : Eff (Res unit)
| WalReplayPending (h : WalHandle) : Eff (Res (list WalRecord))
| WalFlush (h : WalHandle) : Eff (Res unit)
| WalSchedule (h : WalHandle) (r : WalRecord) : Eff (Res unit)
| WalFetchReady (h : WalHandle) : Eff (Res (list WalRecord))
(* the user's pipeline of a worker, without and with a deadline *)
| PipelineRun (w : string) (m : EMessage) : Eff (Ack * EMessage)
| PipelineRunTimeout (w : string) (d : Duration) (m : EMessage) : Eff (option Ack * EMessage)
(* worker.rs: shared cells of a worker *)
| GetStatus (w : string) : Eff WorkerStatus
| SetStatus (w : string) (s : WorkerStatus) : Eff unit
| ShutdownNotify (w : string) : Eff unit
| IsShutdownComplete (w : string) : Eff bool
| StoreShutdownComplete (w : string) : Eff unit
(* consumer_router.rs: tables *)
| RouterSetIdle (t w : string) : Eff (Res unit)
| RouterSetWorking (t w : string) : Eff (Res unit)
| RouterGetWorker (w : string) : Eff (Res Worker)
| RouterGetAllWorkers : Eff (list Worker)
| RouterDelWorker (w : string) : Eff (Res unit)
| RouterHasTopic (t : string) : Eff bool
| RouterLookupWorker (w : string) : Eff (option Worker)
| RouterSelectIdle (t : string) : Eff (option Worker)
| RouterTopicProducer (t : string) : Eff (option Producer)
| SpawnProcessOne (w : Worker) (m : EMessage) : Eff unit
| LoadGeneration : Eff Z
| DispatchWorkers (t : string) : Eff (option (list string))
| LocalInboxes : Eff (gmap string Inbox)
| InboxTrySend (b : Inbox) (m : EMessage) : Eff (result unit string)
(* dyn EConsumer *)
| ReapElapsed : Eff Duration
| ReapReset : Eff unit
| ClaimStale (d : Duration) : Eff (Res (list ClaimedMessage))
| Claim : Eff (Res (option ClaimedMessage))
| ClaimBatch (n : nat) : Eff (Res (list ClaimedMessage))
| ClaimAck (c : string) : Eff (Res unit)
| ClaimNack (c : string) : Eff (Res unit)
(* broadcast channel of the shutdown plane *)
| ShutdownBroadcast : Eff unit
| InstantNow : Eff Z
| Elapsed (since : Z) : Eff Duration
(* audit.rs, metrics/node_store.rs *)
| AuditRecordEff (r : AuditRecord) : Eff (Res unit)
| MetricsUpdate (n : NodeMetrics) : Eff unit
(* trace collectors, sysinfo *)
| CollectTrace (c : positive) (r : TraceRecord) : Eff (Res unit)
| SysCpus : Eff (list f32)
| SysMemory : Eff (Z * Z).

Abbreviation Prog := (prog Eff).
Abbreviation Trace := (list (ev Eff)).

(** ** What an execution did *)

Create Rewrite HintDb eb_trace.

(** Messages a producer accepted. *)
Definition ev_sent (v : ev Eff) : list (Producer * EMessage) :=
  match v with
  | Ev e x =>
      match e in Eff X return X → list (Producer * EMessage) with
      | ProducerSend p m => λ r, if is_ok r then [(p, m)] else []
      | ProducerTrySend p m => λ r, if is_ok r then [(p, m)] else []
      | ProducerSendTimeout p m _ => λ r, if is_ok r then [(p, m)] else []
      | _ => λ _, []
      end x
  end.

(** Records the WAL accepted for delayed delivery. *)
Definition ev_scheduled (v : ev Eff) : list WalRecord :=
  match v with
  | Ev e x =>
      match e in Eff X return X → list WalRecord with
      | WalSchedule _ r => λ a, if is_ok a then [r] else []
      | _ => λ _, []
      end x
  end.

(** Records appended to the WAL. *)
Definition ev_appended (v : ev Eff) : list WalRecord :=
  match v with
  | Ev e x =>
      match e in Eff X return X → list WalRecord with
      | WalAppend _ r => λ _, [r]
      | _ => λ _, []
      end x
  end.

(** Attempts to send, accepted or not, and by which of the three ways. *)
Inductive SendKind : Type := Blocking | NonBlocking | Timed (d : Duration).

Definition ev_attempted (v : ev Eff) : list (SendKind * Producer * EMessage) :=
  match v with
  | Ev e _ =>
      match e with
      | ProducerSend p m => [(Blocking, p, m)]
      | ProducerTrySend p m => [(NonBlocking, p, m)]
      | ProducerSendTimeout p m d => [(Timed d, p, m)]
      | _ => []
      end
  end.

Definition sent (t : Trace) : list (Producer * EMessage) := t ≫= ev_sent.
Definition scheduled (t : Trace) : list WalRecord := t ≫= ev_scheduled.
Definition appended (t : Trace) : list WalRecord := t ≫= ev_appended.
Definition attempted (t : Trace) : list (SendKind * Producer * EMessage) := t ≫= ev_attempted.

Lemma sent_app t t' : sent (t ++ t') = sent t ++ sent t'.
Proof. apply bind_app. Qed.
Lemma scheduled_app t t' : scheduled (t ++ t') = scheduled t ++ scheduled t'.
Proof. apply bind_app. Qed.
Lemma appended_app t t' : appended (t ++ t') = appended t ++ appended t'.
Proof. apply bind_app. Qed.
Lemma attempted_app t t' : attempted (t ++ t') = attempted t ++ attempted t'.
Proof. apply bind_app. Qed.

#[export] Hint Rewrite sent_app scheduled_app appended_app attempted_app : eb_trace.

Lemma sent_attempted t : attempted t = [] → sent t = [].
Proof.
  induction t as [|[X e x] t IH]; [done|].
  change (ev_attempted (Ev e x) ++ attempted t = [] → ev_sent (Ev e x) ++ sent t = []).
  intros [He Ht]%app_eq_nil. rewrite IH, app_nil_r by done. by destruct e.
Qed.

(** Closes goals on the observations of a concatenated trace from what is
    known of its parts. *)
Ltac trace_solve :=
  destruct_and?; autorewrite with eb_trace;
  repeat match goal with
         | H : ?f ?t = _ |- context [?f ?t] =>
             lazymatch type of t with list (ev _) => rewrite H end
         end;
  simpl; try done.

(** ** Cells *)

Open Scope string_scope.

(** [TopicRouter::global()], [WorkerRegistry::global()], [get_node_type()]. *)
Definition topic_router_global : Prog TopicRouter :=
  o <- call TopicRouterCell ;; expect "TopicRouter not initialized" o.

Definition registry_global : Prog unit :=
  o <- call RegistryCell ;; expect "WorkerRegistry is not initialized" o.

Definition get_node_type : Prog NodeType :=
  o <- call NodeTypeCell ;; expect "Node type not initialized" o.

(** [EMessage::new] with its UUID and clock reading drawn in the order of the
    struct literal. *)
Definition new_message (tpc : string) (pl : bytes) (mode : DeliveryMode)
    (target : option string) : Prog EMessage :=
  u <- call NewUuid ;; now <- call Now ;; Ret (EMessage_new u now tpc pl mode target).

Close Scope string_scope.
