(* ===== verification/Topic.v ===== *)
(** * Topic router: [event_base_core/src/topic.rs], [event_base_macro_func/src/send_msg.rs]

    [TopicRouter::send] and everything built on it: the choice between the
    delayed path (WAL), the broadcast fan-out and the plain push; the replay
    of pending records; one round of the delay scheduler. *)
From S2P Require Import Prelude Prog Errors Message Wal Runtime.

Open Scope string_scope.

(** ** Definitions *)

Definition wal_not_available : CoreError := EUnsupported "WAL not available".
Definition broadcast_needs_host : CoreError :=
  EUnsupported "Unsupported node type, send broadcast message must host".

(** [TopicRouter::emit]. *)
Definition topic_emit (r : TopicRouter) (m : EMessage) (try_send : option bool)
    (timeout : option Duration) : Prog (Res unit) :=
  if default false try_send then call (ProducerTrySend (tr_producer r) m)
  else
    dflt <- call ReadDefaultTimeout ;;
    match (match timeout with Some d => Some d | None => dflt end) with
    | Some d => call (ProducerSendTimeout (tr_producer r) m d)
    | None => call (ProducerSend (tr_producer r) m)
    end.

(** [WorkerRegistry::global().read().await.wal().ok_or_else(..)?]. *)
Definition registry_wal : Prog (Res WalHandle) :=
  registry_global ;;;
  o <- call RegistryWal ;;
  Ret (ok_or o wal_not_available).

(** The copy of a broadcast message for one worker. *)
Definition broadcast_copy (m : EMessage) (w : WorkerInfo) : EMessage :=
  set_to_worker (Some (wi_worker_name w)) (set_id (id m +:+ "-" +:+ wi_worker_name w) m).

(** [TopicRouter::send]. *)
Definition topic_send (r : TopicRouter) (tpc : string) (m : EMessage)
    (try_send : option bool) (timeout : option Duration) : Prog (Res unit) :=
  match deliver_at m with
  | Some _ =>
      h <-? registry_wal ;;
      call (WalSchedule h (WalRecord_from_msg m)) ?;;
      Ret (Ok tt)
  | None =>
      if decide (delivery_mode m = Broadcast) then
        nt <- get_node_type ;;
        if decide (nt = WorkerNode) then Ret (Err broadcast_needs_host)
        else
          registry_global ;;;
          ws <-? call (RegGetWorkers tpc) ;;
          try_for_each ws (λ w, topic_emit r (broadcast_copy m w) try_send timeout)
      else topic_emit r (set_topic tpc m) try_send timeout
  end.

(** [TopicRouter::send_system]. *)
Definition send_system (r : TopicRouter) (m : EMessage) (try_send : option bool)
    (timeout : option Duration) : Prog (Res unit) :=
  topic_emit r m try_send timeout.

Definition set_default_send_timeout (timeout : option Duration) : Prog unit :=
  call (WriteDefaultTimeout timeout).

(** [TopicRouter::list_topics] and [register_topic], on the guarded vector. *)
Definition list_topics (topics : list string) : list string := topics.

Definition register_topic (topics : list string) (t : string) : list string :=
  if decide (t ∈ topics) then topics else topics ++ [t].

(** [ReplaySummary]. *)
Record ReplaySummary : Type := {
  recovered : nat;
  delayed : nat;
  replay_errors : list (string * CoreError)
}.

Definition summary_default : ReplaySummary :=
  {| recovered := 0; delayed := 0; replay_errors := [] |}.
Definition add_recovered (s : ReplaySummary) : ReplaySummary :=
  {| recovered := S (recovered s); delayed := delayed s; replay_errors := replay_errors s |}.
Definition add_delayed (s : ReplaySummary) : ReplaySummary :=
  {| recovered := recovered s; delayed := S (delayed s); replay_errors := replay_errors s |}.
Definition add_error (e : string * CoreError) (s : ReplaySummary) : ReplaySummary :=
  {| recovered := recovered s; delayed := delayed s; replay_errors := replay_errors s ++ [e] |}.

(** The topic filter of [replay]. *)
Definition allowed (filt : option (list string)) (t : string) : bool :=
  match filt with Some l => bool_decide (t ∈ l) | None => true end.

(** [deliver_at > SystemTime::now()], the clock being read only for a message
    that has a delivery time. *)
Definition in_future (m : EMessage) : Prog bool :=
  match deliver_at m with
  | None => Ret false
  | Some d => now <- call Now ;; Ret (bool_decide (now < d))
  end.

Fixpoint replay_loop (r : TopicRouter) (h : WalHandle) (filt : option (list string))
    (pending : list WalRecord) (s : ReplaySummary) : Prog (Res ReplaySummary) :=
  match pending with
  | [] => Ret (Ok s)
  | rc :: pending =>
      let m := message rc in
      if negb (allowed filt (topic m)) then replay_loop r h filt pending s
      else
        fut <- in_future m ;;
        if fut : bool then
          call (WalSchedule h (WalRecord_from_msg m)) ?;;
          replay_loop r h filt pending (add_delayed s)
        else
          let m := set_deliver_at None m in
          res <- topic_send r (topic m) m None None ;;
          match res with
          | Ok _ => replay_loop r h filt pending (add_recovered s)
          | Err e => replay_loop r h filt pending (add_error (id m, e) s)
          end
  end.

(** [TopicRouter::replay]. *)
Definition replay (r : TopicRouter) (filt : option (list string)) : Prog (Res ReplaySummary) :=
  h <-? registry_wal ;;
  pending <-? call (WalReplayPending h) ;;
  replay_loop r h filt pending summary_default.

(** [TopicRouter::run_delay_scheduler]: one iteration of its loop.  The
    function takes the read guard of the router once, before the loop. *)
Definition scheduler_tick (r : TopicRouter) : Prog unit :=
  registry_global ;;;
  o <- call RegistryWal ;;
  match o with
  | None => call (Sleep (from_millis 500))
  | Some h =>
      res <- call (WalFetchReady h) ;;
      for_each (unwrap_or res []) (λ rc,
        let m := set_deliver_at None (message rc) in
        topic_send r (topic m) m None None ;;; Ret tt) ;;;
      call (Sleep (from_millis 500))
  end.

Definition run_delay_scheduler (rounds : nat) : Prog unit :=
  r <- topic_router_global ;;
  (fix go n := match n with O => Ret tt | S n => scheduler_tick r ;;; go n end) rounds.

(** [send_msg_impl] of the [send_msg!] macro. *)
Definition send_msg_impl (m : EMessage) (try_send : option bool) (timeout : option Duration)
    : Prog (Res unit) :=
  r <- topic_router_global ;;
  topic_send r (topic m) m try_send timeout ?;;
  Ret (Ok tt).

Close Scope string_scope.

(** ** What the registry and the WAL answered *)

Definition ev_listed (v : ev Eff) : list (list WorkerInfo) :=
  match v with
  | Ev e x =>
      match e in Eff X return X → list (list WorkerInfo) with
      | RegGetWorkers _ => λ r, match r with Ok l => [l] | Err _ => [] end
      | _ => λ _, []
      end x
  end.
Definition listed (t : Trace) : list (list WorkerInfo) := t ≫= ev_listed.

(** Records the WAL handed out, to a replay or to the scheduler. *)
Definition ev_fetched (v : ev Eff) : list WalRecord :=
  match v with
  | Ev e x =>
      match e in Eff X return X → list WalRecord with
      | WalReplayPending _ => λ r, unwrap_or r []
      | WalFetchReady _ => λ r, unwrap_or r []
      | _ => λ _, []
      end x
  end.
Definition fetched (t : Trace) : list WalRecord := t ≫= ev_fetched.

Lemma listed_app t t' : listed (t ++ t') = listed t ++ listed t'.
Proof. apply bind_app. Qed.
Lemma fetched_app t t' : fetched (t ++ t') = fetched t ++ fetched t'.
Proof. apply bind_app. Qed.
#[export] Hint Rewrite listed_app fetched_app : eb_trace.

(** How [emit] sends, from the arguments and the default it read. *)
Definition send_kind (try_send : option bool) (timeout dflt : option Duration) : SendKind :=
  if default false try_send then NonBlocking
  else match (match timeout with Some d => Some d | None => dflt end) with
       | Some d => Timed d
       | None => Blocking
       end.

(** ** [emit] *)

(** A trace that tries to push exactly [m], pushes it iff the result is [Ok],
    and does nothing else that leaves a mark. *)
Definition one_push (r : TopicRouter) (m : EMessage) (k : SendKind) (t : Trace)
    (res : Res unit) : Prop :=
  attempted t = [(k, tr_producer r, m)] ∧
  sent t = (if is_ok res then [(tr_producer r, m)] else []) ∧
  scheduled t = [] ∧ appended t = [] ∧ listed t = [] ∧ fetched t = [].

Lemma emit_spec r m try_send timeout :
  wp (topic_emit r m try_send timeout) (λ t o,
    ∃ dflt res, o = Done res ∧ one_push r m (send_kind try_send timeout dflt) t res).
Proof.
  unfold topic_emit, send_kind. destruct (default false try_send); simpl.
  - intros res. exists None, res. unfold one_push. cbn. by rewrite app_nil_r.
  - intros dflt. destruct (match timeout with Some d => _ | None => _ end) as [d|] eqn:E;
      simpl; intros res; exists dflt, res; rewrite E; unfold one_push; cbn;
      by rewrite app_nil_r.
Qed.

(** ** The three paths of [send] *)

Lemma send_plain_spec r tpc m try_send timeout :
  deliver_at m = None → delivery_mode m ≠ Broadcast →
  wp (topic_send r tpc m try_send timeout) (λ t o,
    ∃ dflt res, o = Done res ∧
      one_push r (set_topic tpc m) (send_kind try_send timeout dflt) t res).
Proof.
  intros Hd Hm. unfold topic_send. rewrite Hd, decide_False by done. apply emit_spec.
Qed.

(** A message without delivery time that is not a broadcast is handed to
    the producer exactly once, with its topic overwritten by the topic
    argument, with the send primitive the arguments and the default timeout
    call for; it is accepted exactly when [send] returns [Ok], and nothing
    is scheduled or appended to the WAL. *)
Theorem send_pushes_once r tpc m try_send timeout :
  deliver_at m = None →
  delivery_mode m ≠ Broadcast →
  wp (topic_send r tpc m try_send timeout) (λ t o,
    ∃ dflt res, o = Done res ∧
      attempted t = [(send_kind try_send timeout dflt, tr_producer r, set_topic tpc m)] ∧
      sent t = (if is_ok res then [(tr_producer r, set_topic tpc m)] else []) ∧
      scheduled t = [] ∧ appended t = []).
Proof.
  intros Hd Hm. eapply wp_mono, send_plain_spec; [|done..]. unfold one_push. naive_solver.
Qed.

(** A trace that pushes nothing and leaves no mark but scheduled records. *)
Definition no_push (t : Trace) : Prop :=
  attempted t = [] ∧ sent t = [] ∧ appended t = [] ∧ listed t = [] ∧ fetched t = [].

Lemma send_delayed_spec r tpc m d try_send timeout :
  deliver_at m = Some d →
  wp (topic_send r tpc m try_send timeout) (λ t o,
    no_push t ∧
    match o with
    | Done res => scheduled t = (if is_ok res then [WalRecord_from_msg m] else [])
    | Panicked _ => scheduled t = []
    end).
Proof.
  intros Hd. unfold topic_send. rewrite Hd. simpl.
  intros [[]|]; simpl; [|done]. intros [h|]; simpl; [|done].
  intros [[]|e]; unfold no_push; done.
Qed.

(** A message with a delivery time never reaches the producer from
    [send], past or future alike: it is recorded in the WAL for the
    scheduler, unchanged, exactly when [send] returns [Ok]; in particular
    its [delivery_mode] is not looked at and a worker node may delay a
    broadcast. *)
Theorem send_delayed_only_schedules r tpc m d try_send timeout :
  deliver_at m = Some d →
  wp (topic_send r tpc m try_send timeout) (λ t o,
    attempted t = [] ∧ appended t = [] ∧
    match o with
    | Done res => scheduled t = (if is_ok res then [WalRecord_from_msg m] else [])
    | Panicked _ => scheduled t = []
    end).
Proof.
  intros Hd. eapply wp_mono, send_delayed_spec; [|done]. unfold no_push. naive_solver.
Qed.

(** Pushing a list of messages one after the other, stopping at the first
    refusal: [n] messages were accepted; on [Ok] all of them, otherwise the
    next one was tried and refused. *)
Definition pushes_in_order (r : TopicRouter) (ms : list EMessage) (t : Trace)
    (res : Res unit) : Prop :=
  ∃ n, sent t = (λ m, (tr_producer r, m)) <$> take n ms ∧
    if is_ok res then (n = length ms ∧ (attempted t).*2 = ms)
    else (n < length ms)%nat ∧ (attempted t).*2 = take (S n) ms.

Lemma emit_all_spec {A} r (f : A → EMessage) (l : list A) try_send timeout :
  wp (try_for_each l (λ x, topic_emit r (f x) try_send timeout)) (λ t o,
    ∃ res, o = Done res ∧ pushes_in_order r (f <$> l) t res ∧
      scheduled t = [] ∧ appended t = [] ∧ listed t = [] ∧ fetched t = []).
Proof.
  induction l as [|x l IH]; simpl.
  { exists (Ok tt). split; [done|]. split; [|done]. exists 0%nat. done. }
  eapply wp_seq_ok; [apply emit_spec|..].
  - intros t [] (dflt & res & [= <-] & Ha & Hs & Hrest). eapply wp_mono, IH.
    intros t' o (res & -> & (n & Hn & Hres) & Hrest'). exists res.
    split; [done|]. split; [|by trace_solve].
    exists (S n). autorewrite with eb_trace. rewrite Ha, Hs, Hn, fmap_app. csimpl.
    split; [done|].
    destruct (is_ok res); destruct Hres as [Hlt ->]; split; simpl; [lia|done|lia|done].
  - intros t e (dflt & res & [= <-] & Ha & Hs & Hrest). exists (Err e).
    split; [done|]. split; [|by trace_solve]. exists 0%nat. rewrite Ha, Hs. simpl.
    split; [done|]. split; [lia|done].
  - naive_solver.
Qed.

Lemma send_broadcast_spec r tpc m try_send timeout :
  deliver_at m = None →
  delivery_mode m = Broadcast →
  wp (topic_send r tpc m try_send timeout) (λ t o,
    scheduled t = [] ∧ appended t = [] ∧
    match o with
    | Panicked _ => attempted t = []
    | Done res =>
        (listed t = [] ∧ attempted t = [] ∧ is_ok res = false) ∨
        (∃ ws, listed t = [ws] ∧ pushes_in_order r (broadcast_copy m <$> ws) t res)
    end).
Proof.
  intros Hd Hm. unfold topic_send. rewrite Hd, decide_True by done.
  unfold get_node_type, registry_global. simpl.
  intros [nt|]; simpl; [|done]. case_decide; simpl; [by split_and!; [| |left]|].
  intros [[]|]; simpl; [|done]. intros [ws|e]; simpl; [|by split_and!; [| |left]].
  eapply wp_mono, emit_all_spec.
  intros t o (res & -> & (n & Hs & Ha) & Hsc & Hap & Hl & _).
  split; [done|]. split; [done|]. right. exists ws. split; [cbn; by rewrite Hl|].
  exists n. done.
Qed.

(** What the node type cell answered, and what the registry was asked for and
    answered. *)
Definition ev_node_type (v : ev Eff) : list NodeType :=
  match v with
  | Ev e x =>
      match e in Eff X return X → list NodeType with
      | NodeTypeCell => λ o, match o with Some nt => [nt] | None => [] end
      | _ => λ _, []
      end x
  end.
Definition ev_asked (v : ev Eff) : list (string * Res (list WorkerInfo)) :=
  match v with
  | Ev e x =>
      match e in Eff X return X → list (string * Res (list WorkerInfo)) with
      | RegGetWorkers tpc => λ r, [(tpc, r)]
      | _ => λ _, []
      end x
  end.
Definition node_types (t : Trace) : list NodeType := t ≫= ev_node_type.
Definition asked (t : Trace) : list (string * Res (list WorkerInfo)) := t ≫= ev_asked.

Lemma emits_ask_nothing {A} r (f : A → EMessage) (l : list A) try_send timeout :
  wp (try_for_each l (λ x, topic_emit r (f x) try_send timeout)) (λ t _,
    node_types t = [] ∧ asked t = []).
Proof.
  apply wp_and; (eapply only_obs with
    (P := λ X e, match e with NodeTypeCell | RegGetWorkers _ => False | _ => True end);
    [by intros X [] x|apply only_try_for_each; intros x; unfold topic_emit; only_solve]).
Qed.

(** C30. A broadcast without delivery time, by the type of the node.  A worker
    node refuses it: nothing is asked of the registry and nothing sent.  A host
    asks the registry once, for the workers of the topic it was called with;
    an error of the registry is passed on and nothing is sent; otherwise one
    copy per worker is pushed in the order of the answer, with the worker's
    name in [to_worker] and in the id, and pushing stops at the first copy the
    queue refuses, so that on an error exactly a prefix of the copies is out.
    Nothing goes to the log.  A panic (a cell never initialised) comes before
    anything is sent. *)
Theorem send_broadcast_fans_out r tpc m try_send timeout :
  deliver_at m = None →
  delivery_mode m = Broadcast →
  wp (topic_send r tpc m try_send timeout) (λ t o,
    scheduled t = [] ∧ appended t = [] ∧
    match o with
    | Panicked _ => attempted t = []
    | Done res => ∃ nt, node_types t = [nt] ∧
        match nt with
        | WorkerNode => res = Err broadcast_needs_host ∧ asked t = [] ∧ attempted t = []
        | Host => ∃ answer, asked t = [(tpc, answer)] ∧
            match answer with
            | Err e => res = Err e ∧ attempted t = []
            | Ok ws => pushes_in_order r (broadcast_copy m <$> ws) t res
            end
        end
    end).
Proof.
  intros Hd Hm. unfold topic_send. rewrite Hd, decide_True by done.
  unfold get_node_type, registry_global. simpl.
  intros [[]|]; simpl; [..|done].
  - intros [[]|]; simpl; [|done]. intros [ws|e]; simpl.
    + eapply wp_mono; [|apply wp_and; [apply emit_all_spec|apply emits_ask_nothing]].
      intros t o [(res & -> & (n & Hs & Ha) & Hsc & Hap & _) [Hnt Has]].
      split; [done|]. split; [done|]. exists Host.
      split; [cbn; by rewrite <- Hnt|]. exists (Ok ws).
      split; [cbn; by rewrite <- Has|]. by exists n.
    + split; [done|]. split; [done|]. exists Host. split; [done|]. by exists (Err e).
  - split; [done|]. split; [done|]. by exists WorkerNode.
Qed.

(** ** Replay and the delay scheduler *)

Lemma send_now_spec r tpc m try_send timeout :
  deliver_at m = None →
  wp (topic_send r tpc m try_send timeout) (λ t _,
    scheduled t = [] ∧ appended t = [] ∧ fetched t = []).
Proof.
  intros Hd. unfold topic_send. rewrite Hd. case_decide.
  - unfold get_node_type, registry_global. simpl.
    intros [nt|]; simpl; [|done]. case_decide; simpl; [done|].
    intros [[]|]; simpl; [|done]. intros [ws|e]; simpl; [|done].
    eapply wp_mono, emit_all_spec. intros t o (res & _ & _ & ?). by trace_solve.
  - eapply wp_mono, emit_spec. unfold one_push. naive_solver.
Qed.

Lemma in_future_spec m :
  wp (in_future m) (λ t o, scheduled t = [] ∧ appended t = [] ∧ fetched t = [] ∧
    ∃ b, o = Done b).
Proof. unfold in_future. destruct (deliver_at m); simpl; eauto 10. Qed.

(** The records of a batch that the topic filter lets through. *)
Definition considered (filt : option (list string)) (l : list WalRecord) : list WalRecord :=
  filter (λ rc, allowed filt (topic (message rc)) = true) l.

Lemma replay_loop_spec r h filt pending s :
  wp (replay_loop r h filt pending s) (λ t o,
    appended t = [] ∧ fetched t = [] ∧
    match o with
    | Done (Ok s') =>
        (recovered s' + delayed s' + length (replay_errors s') =
         recovered s + delayed s + length (replay_errors s) +
         length (considered filt pending))%nat ∧
        (delayed s' = delayed s + length (scheduled t))%nat
    | _ => True
    end).
Proof.
  revert s. induction pending as [|rc pending IH]; intros s; simpl.
  { split_and!; [done..|simpl; lia|simpl; lia]. }
  unfold considered in *. destruct (allowed filt _) eqn:Hal; simpl.
  2:{ rewrite filter_cons_False by congruence. apply IH. }
  rewrite filter_cons_True by done.
  eapply wp_seq; [apply in_future_spec| |naive_solver].
  intros t b (? & ? & ? & _). destruct b.
  - simpl. intros [u|e]; simpl; [|by trace_solve].
    eapply wp_mono, IH. intros t' o (Hap & Hf & Ho).
    split_and!; [by trace_solve..|]. destruct o as [[s'|]|]; try done.
    destruct Ho as [Hc1 Hc2]. simpl in *. rewrite scheduled_app. cbn.
    rewrite length_app. simpl. trace_solve. split; [lia|]. rewrite Hc2. unfold scheduled. lia.
  - eapply wp_seq; [by apply send_now_spec| |].
    + intros t' res (? & ? & ?). destruct res as [u|e]; (eapply wp_mono, IH);
        intros t'' o (Hap & Hf & Ho); (split_and!; [by trace_solve..|]);
        destruct o as [[s'|]|]; try done; destruct Ho as [Hc1 Hc2]; simpl in *;
        rewrite ?length_app in Hc1; simpl in Hc1; trace_solve; lia.
    + intros t' w (? & ? & ?). split_and!; by trace_solve.
Qed.

(** When a replay returns a summary, every pending record the topic
    filter lets through is accounted for exactly once, as recovered, delayed
    or in error; the delayed ones are exactly those put back into the WAL. *)
Theorem replay_accounts_for_all r filt :
  wp (replay r filt) (λ t o,
    match o with
    | Done (Ok s) =>
        (recovered s + delayed s + length (replay_errors s) =
         length (considered filt (fetched t)))%nat ∧
        delayed s = length (scheduled t)
    | _ => True
    end).
Proof.
  unfold replay, registry_wal, registry_global. simpl.
  intros [[]|]; simpl; [|done]. intros [h|]; simpl; [|done].
  intros [pending|e]; simpl; [|done].
  eapply wp_mono, replay_loop_spec. intros t o (_ & Hf & Ho).
  destruct o as [[s|]|]; try done. destruct Ho as [Hc1 Hc2]. simpl in *. cbn.
  rewrite Hf, app_nil_r. split; [lia|done].
Qed.

(** What the scheduler pushes for a fetched record. *)
Definition due_message (rc : WalRecord) : EMessage := set_deliver_at None (message rc).

Lemma set_topic_same m : set_topic (topic m) m = m.
Proof. by destruct m. Qed.

Lemma deliver_all_spec r (l : list WalRecord) :
  Forall (λ rc, delivery_mode (message rc) ≠ Broadcast) l →
  wp (for_each l (λ rc, topic_send r (topic (due_message rc)) (due_message rc) None None ;;;
                        Ret tt))
    (λ t o, o = Done tt ∧ (attempted t).*2 = due_message <$> l ∧
      (attempted t).*1.*2 = (λ _, tr_producer r) <$> l ∧
      scheduled t = [] ∧ appended t = [] ∧ fetched t = []).
Proof.
  induction l as [|rc l IH]; intros Hl; [done|]. cbn [for_each].
  apply Forall_cons in Hl as [Hrc Hl].
  eapply wp_seq with (Ψ := λ t o, o = Done tt ∧ (attempted t).*2 = [due_message rc] ∧
    (attempted t).*1.*2 = [tr_producer r] ∧ scheduled t = [] ∧ appended t = [] ∧ fetched t = []).
  - eapply wp_seq; [by apply send_plain_spec| |naive_solver].
    intros t res (dflt & res' & [= ->] & Ha & _ & Hsc & Hap & _ & Hf). cbn [wp].
    rewrite app_nil_r, Ha, set_topic_same. done.
  - intros t [] (_ & Ha & Hp & Hsc & Hap & Hf). eapply wp_mono; [|by apply IH].
    intros t' o (-> & Ha' & Hp' & ?). split; [done|].
    autorewrite with eb_trace. rewrite !fmap_app, Ha, Hp, Ha', Hp'. by trace_solve.
  - naive_solver.
Qed.

(** One round of the delay scheduler, when the WAL hands it no
    broadcast: every record it was handed is pushed to the router's producer
    exactly once, in the order of the answer and with its delivery time
    cleared (so it cannot be scheduled a second time); a failed push does not
    keep the following ones from being tried. *)
Theorem scheduler_pushes_each_due_once r :
  wp (scheduler_tick r) (λ t o,
    Forall (λ rc, delivery_mode (message rc) ≠ Broadcast) (fetched t) →
    match o with
    | Done _ => (attempted t).*2 = due_message <$> fetched t ∧ scheduled t = []
    | Panicked _ => fetched t = []
    end).
Proof.
  unfold scheduler_tick, registry_global. simpl.
  intros [[]|]; simpl; [|done]. intros [h|]; simpl; [|done].
  intros res.
  destruct (decide (Forall (λ rc, delivery_mode (message rc) ≠ Broadcast) (unwrap_or res [])))
    as [Hl|Hl].
  - eapply wp_seq; [by apply deliver_all_spec| |naive_solver].
    intros t [] (_ & Ha & _ & Hsc & _ & Hf). simpl. intros x _. cbn.
    change (mbind ev_fetched) with fetched. change (mbind ev_attempted) with attempted.
    change (mbind ev_scheduled) with scheduled.
    autorewrite with eb_trace. rewrite fmap_app, Ha, Hsc, Hf. cbn. by rewrite !app_nil_r.
  - apply wp_trivial. intros t o [Hl' _]%Forall_app. done.
Qed.

(** ** The hypotheses can hold *)

Open Scope string_scope.

Definition demo_router : TopicRouter := {| tr_producer := {| p_addr := 1 |} |}.
Definition demo_send (mode : DeliveryMode) : EMessage :=
  EMessage_new "m1" 500 "orders" [1; 2; 3] mode None.

Lemma send_pushes_once_witness :
  wp (topic_send demo_router "orders" (demo_send (Repeated 3)) (Some true) None) (λ t o,
    ∃ dflt res, o = Done res ∧
      attempted t = [(send_kind (Some true) None dflt, tr_producer demo_router,
                      set_topic "orders" (demo_send (Repeated 3)))] ∧
      sent t = (if is_ok res then [(tr_producer demo_router,
                                    set_topic "orders" (demo_send (Repeated 3)))] else []) ∧
      scheduled t = [] ∧ appended t = []).
Proof.
  apply (send_pushes_once demo_router "orders" (demo_send (Repeated 3)) (Some true) None);
    [reflexivity|discriminate].
Defined.

Lemma send_delayed_only_schedules_witness :
  let m := set_deliver_at (Some 900) (demo_send Broadcast) in
  wp (topic_send demo_router "orders" m None None) (λ t o,
    attempted t = [] ∧ appended t = [] ∧
    match o with
    | Done res => scheduled t = (if is_ok res then [WalRecord_from_msg m] else [])
    | Panicked _ => scheduled t = []
    end).
Proof.
  intros m. apply (send_delayed_only_schedules demo_router "orders" m 900 None None). reflexivity.
Defined.

Lemma send_broadcast_fans_out_witness :
  wp (topic_send demo_router "orders" (demo_send Broadcast) None (Some 5)) (λ t o,
    scheduled t = [] ∧ appended t = [] ∧
    match o with
    | Panicked _ => attempted t = []
    | Done res => ∃ nt, node_types t = [nt] ∧
        match nt with
        | WorkerNode => res = Err broadcast_needs_host ∧ asked t = [] ∧ attempted t = []
        | Host => ∃ answer, asked t = [("orders", answer)] ∧
            match answer with
            | Err e => res = Err e ∧ attempted t = []
            | Ok ws =>
                pushes_in_order demo_router (broadcast_copy (demo_send Broadcast) <$> ws) t res
            end
        end
    end).
Proof.
  apply (send_broadcast_fans_out demo_router "orders" (demo_send Broadcast) None (Some 5));
    reflexivity.
Defined.

Close Scope string_scope.
