(* ===== verification/Worker.v ===== *)
(** * Worker: [event_base_core/src/worker.rs], [event_base_core/src/wal/sync.rs]

    What a worker does with one message: reporting its state to the host's
    WAL, running the pipeline, settling the message according to the [Ack]
    (complete, requeue, retry now or later, dead-letter), relaying targeted
    messages, shutting down. *)
From S2P Require Import Prelude Prog Errors Message Codec Runtime Topic.

Open Scope string_scope.

(** ** The WAL client: [wal/sync.rs] *)

Definition WalClient_new (worker_id : string) : Prog WalClient :=
  tmpl <- new_message SYSTEM_TOPIC_WAL_SYNC [] Standard None ;;
  Ret {| wc_worker_id := worker_id; wc_template := tmpl |}.

Section WalClient.
Context `{Bincode WalSyncMessage}.

Definition sync_status (wc : WalClient) (message_id tpc : string) (st : WalRecordState)
    (att : Z) (error : option string) : Prog (Res unit) :=
  now1 <- call Now ;;
  now2 <- call Now ;;
  let sync_msg :=
    {| ws_message_id := message_id; ws_topic := tpc; ws_worker_id := wc_worker_id wc;
       ws_status := st; ws_attempts := att; ws_last_attempt_at := now1;
       ws_error := error; ws_timestamp := now2 |} in
  match bincode_encode sync_msg with
  | Err e => Ret (Err (ESerialize (SerializeErr e)))
  | Ok pl =>
      u <- call NewUuid ;;
      r <- topic_router_global ;;
      send_system r (set_id u (set_payload pl (wc_template wc))) None None ?;;
      Ret (Ok tt)
  end.

Definition mark_pending (wc : WalClient) (message_id tpc : string) : Prog (Res unit) :=
  sync_status wc message_id tpc Pending 0 None.
Definition mark_processing (wc : WalClient) (message_id tpc : string) : Prog (Res unit) :=
  sync_status wc message_id tpc Processing 0 None.
Definition mark_complete (wc : WalClient) (message_id tpc : string) (att : Z)
    : Prog (Res unit) :=
  sync_status wc message_id tpc Complete att None.
Definition mark_dead_letter (wc : WalClient) (message_id tpc : string) (att : Z)
    (error : string) : Prog (Res unit) :=
  sync_status wc message_id tpc Failed att (Some error).
End WalClient.

(** ** The worker *)

Definition MAX_TARGETED_HOPS : Z := 64.

(** The name of a worker, from its topic, a UUID and the node name. *)
Definition worker_name (tpc uuid : string) (node : option string) : string :=
  let base := "worker-" +:+ tpc +:+ "-" +:+ uuid in
  match node with Some n => n +:+ "@" +:+ base | None => base end.

(** [Worker::new].  The consumer and the pipeline stay with the worker's
    address, its name. *)
Definition Worker_new (tpc : string) (producer : Producer) (time_out : option Duration)
    (shutdown_check_interval : Duration) (shutdown_timeout : option Duration) : Prog Worker :=
  uuid <- call NewUuid ;;
  node <- call TryGetNodeName ;;
  let name := worker_name tpc uuid node in
  call (SetStatus name Idle) ;;;
  wc <- WalClient_new name ;;
  tmpl <- new_message SYSTEM_TOPIC_AUDIT [] Standard None ;;
  Ret {| w_topic := tpc; w_name := name; w_producer := producer; w_time_out := time_out;
         w_shutdown_check_interval := shutdown_check_interval;
         w_shutdown_timeout := shutdown_timeout; w_wal := wc; w_audit_template := tmpl |}.

Definition is_system (w : Worker) : bool := starts_with "_system." (w_topic w).

Definition time_error : CoreError :=
  EProcessTimeError "second time provided was later than self".

Section Worker.
Context `{Bincode WalSyncMessage} `{Bincode AuditRecord} `{Bincode ShutdownAck}.

Definition generate_audit_msg (w : Worker) (m : EMessage) (res : AuditResult)
    (event : AuditEventType) (error : option string) (duration : option Duration)
    : Prog AuditRecord :=
  now <- call Now ;;
  Ret {| ar_message_id := id m; ar_topic := topic m; ar_event_type := event;
         ar_worker_id := Some (w_name w); ar_timestamp := now; ar_result := res;
         ar_error := error; ar_duration := duration |}.

Definition send_audit_msg (w : Worker) (rc : AuditRecord) : Prog (Res unit) :=
  match bincode_encode rc with
  | Err e => Ret (Err (ESerialize (SerializeErr e)))
  | Ok pl =>
      u <- call NewUuid ;;
      r <- topic_router_global ;;
      send_system r (set_id u (set_payload pl (w_audit_template w))) None None ?;;
      Ret (Ok tt)
  end.

(** [if self.topic != SYSTEM_TOPIC_AUDIT && let Err(e) = send_audit_msg(generate_audit_msg(..))
    { log }]: the error of an audit is printed and dropped. *)
Definition audit (w : Worker) (m : EMessage) (res : AuditResult) (event : AuditEventType)
    (error : option string) (duration : option Duration) : Prog unit :=
  if decide (w_topic w = SYSTEM_TOPIC_AUDIT) then Ret tt
  else
    rc <- generate_audit_msg w m res event error duration ;;
    send_audit_msg w rc ;;; Ret tt.

Definition requeue_message (w : Worker) (m : EMessage) : Prog (Res unit) :=
  mark_pending (w_wal w) (id m) (topic m) ?;;
  call (ProducerSend (w_producer w) m) ?;;
  Ret (Ok tt).

Definition dead_letter_topic (w : Worker) : string := "dead_letter." +:+ w_topic w.

Definition send_to_dead_letter (w : Worker) (m : EMessage) (reason : DeadReason)
    (process_time : Duration) : Prog (Res unit) :=
  let m := set_to_worker None (set_topic (dead_letter_topic w) m) in
  mark_dead_letter (w_wal w) (id m) (topic m) (attempts m) (dead_reason_display reason) ?;;
  r <- topic_router_global ;;
  topic_send r (dead_letter_topic w) m None None ?;;
  audit w m AuditDead DeadLettered (Some (dead_reason_display reason)) (Some process_time) ;;;
  Ret (Ok tt).

(** The pipeline under the worker's deadline; it may have changed the
    message through [&mut], also when the deadline passed. *)
Definition run_pipeline (w : Worker) (m : EMessage) : Prog (Ack * EMessage) :=
  match w_time_out w with
  | Some d =>
      res <- call (PipelineRunTimeout (w_name w) d m) ;;
      Ret (match res.1 with Some a => a | None => Dead TimeoutReason end, res.2)
  | None => call (PipelineRun (w_name w) m)
  end.

(** The [match status] at the end of [process_msg]. *)
Definition settle_msg (w : Worker) (st : Ack) (m : EMessage) (process_time : Duration)
    : Prog (Res unit) :=
  match st with
  | AckOk =>
      match delivery_mode m with
      | Repeated times =>
          let m := set_consumed_count (u32_incr (consumed_count m)) m in
          if decide (times = consumed_count m) then
            mark_complete (w_wal w) (id m) (topic m) (attempts m) ?;;
            Ret (Ok tt)
          else
            mark_pending (w_wal w) (id m) (topic m) ?;;
            requeue_message w m ?;;
            Ret (Ok tt)
      | _ =>
          audit w m AuditSuccess ProcessingCompleted None (Some process_time) ;;;
          mark_complete (w_wal w) (id m) (topic m) (attempts m) ?;;
          Ret (Ok tt)
      end
  | NoAck retry_after max_retries =>
      let m := set_attempts (u32_incr (attempts m)) m in
      mark_pending (w_wal w) (id m) (topic m) ?;;
      if decide (attempts m >= max_retries) then
        send_to_dead_letter w m MaxRetriesExceeded process_time ?;;
        Ret (Ok tt)
      else
        match retry_after with
        | Some delay =>
            now <- call Now ;;
            let m := set_deliver_at (checked_add now delay) m in
            r <- topic_router_global ;;
            topic_send r (topic m) m None None ?;;
            Ret (Ok tt)
        | None =>
            call (ProducerSend (w_producer w) m) ?;;
            Ret (Ok tt)
        end
  | Dead reason =>
      mark_dead_letter (w_wal w) (id m) (topic m) (attempts m) (dead_reason_display reason) ?;;
      send_to_dead_letter w m reason process_time ?;;
      Ret (Ok tt)
  end.

(** [Worker::process_msg]. *)
Definition process_msg (w : Worker) (m : EMessage) : Prog (Res unit) :=
  (if is_system w then Ret tt
   else audit w m AuditStart ProcessingStarted None None) ;;;
  start_time <- call Now ;;
  (if is_system w then Ret (Ok tt) else mark_processing (w_wal w) (id m) (topic m)) ?;;
  sm <- run_pipeline w m ;;
  let '(st, m) := sm in
  if is_system w then Ret (Ok tt)
  else
    finish_time <- call Now ;;
    match duration_since finish_time start_time with
    | Err _ => Ret (Err time_error)
    | Ok process_time => settle_msg w st m process_time
    end.

(** [Worker::shutdown]: the waiting loop, for [fuel] rounds ([None] when
    they are used up), then the acknowledgement. *)
Fixpoint wait_idle (fuel : nat) (w : Worker) (check_interval : Duration)
    (timeout : option Duration) (start : SystemTime) : Prog (option unit) :=
  match fuel with
  | O => Ret None
  | S fuel =>
      st <- call (GetStatus (w_name w)) ;;
      if decide (st = Working) then
        over <- match timeout with
                | Some d =>
                    now <- call Now ;;
                    Ret (bool_decide (unwrap_or (duration_since now start) 0 > d))
                | None => Ret false
                end ;;
        if over : bool then Ret (Some tt)
        else call (Sleep check_interval) ;;; wait_idle fuel w check_interval timeout start
      else Ret (Some tt)
  end.

Definition shutdown (fuel : nat) (w : Worker) (check_interval : Duration)
    (timeout : option Duration) : Prog (option (Res unit)) :=
  call (ShutdownNotify (w_name w)) ;;;
  start <- call Now ;;
  done <- wait_idle fuel w check_interval timeout start ;;
  match done with
  | None => Ret None
  | Some _ =>
      now <- call Now ;;
      let ack := {| sa_worker_name := w_name w; sa_status := ShCompleted;
                    sa_timestamp := now; sa_error := None |} in
      match bincode_encode ack with
      | Err e => Ret (Some (Err (ESerialize (SerializeErr e))))
      | Ok pl =>
          m <- new_message SYSTEM_TOPIC_SHUTDOWN_ACK pl Standard None ;;
          r <- topic_router_global ;;
          res <- topic_send r SYSTEM_TOPIC_SHUTDOWN_ACK m None None ;;
          Ret (Some res)
      end
  end.

Definition is_misrouted (w : Worker) (m : EMessage) : bool :=
  match to_worker m with
  | Some target => negb (bool_decide (target = w_name w))
  | None => false
  end.

Definition route_targeted (w : Worker) (m : EMessage) : Prog unit :=
  if decide (attempts m >= MAX_TARGETED_HOPS) then Ret tt
  else call (ProducerSend (w_producer w) (set_attempts (u32_incr (attempts m)) m)) ;;; Ret tt.

(** [Worker::set_status] and [set_local_status]. *)
Definition set_status (w : Worker) (s : WorkerStatus) : Prog unit :=
  match s with
  | Idle => call (RouterSetIdle (w_topic w) (w_name w)) ;;; Ret tt
  | Working => call (RouterSetWorking (w_topic w) (w_name w)) ;;; Ret tt
  end ;;;
  call (SetStatus (w_name w) s).

Definition set_local_status (w : Worker) (s : WorkerStatus) : Prog unit :=
  call (SetStatus (w_name w) s).

(** One message branch of the [select!] of [Worker::start], with the local
    inbox ([inbox = true]) or with the topic's consumer. *)
Definition on_message (inbox : bool) (w : Worker) (msg : option EMessage) : Prog unit :=
  let set := if inbox then set_local_status w else set_status w in
  set Working ;;;
  match msg with
  | Some m => if is_misrouted w m then route_targeted w m
              else process_msg w m ;;; Ret tt
  | None => Ret tt
  end ;;;
  set Idle.

(** The [shutdown_notify] branch, which leaves the loop. *)
Definition on_shutdown (fuel : nat) (w : Worker) : Prog (option unit) :=
  o <- shutdown fuel w (w_shutdown_check_interval w) (w_shutdown_timeout w) ;;
  match o with
  | None => Ret None
  | Some _ => call (StoreShutdownComplete (w_name w)) ;;; Ret (Some tt)
  end.

(** [Worker::process_one]. *)
Definition process_one (w : Worker) (m : EMessage) : Prog unit :=
  call (SetStatus (w_name w) Working) ;;;
  process_msg w m ;;; Ret tt.
End Worker.

Close Scope string_scope.
