(* ===== verification/WorkerTheorems.v ===== *)
(** * What a worker does with a message

    The abstract specification [settle] says, for each acknowledgement of the
    handler, which state reports go to the host's WAL and where the message
    goes next.  [process_msg] is shown to refine it: an execution that returns
    [Ok] performs exactly the actions of the specification, one that returns
    an error performs an initial part of them.  Bounds on deliveries, the
    dead-letter guarantees and the relay bound follow. *)
From S2P Require Import Prelude Prog Errors Message Codec Runtime Topic Worker.

(** ** Observable actions *)

Inductive Action : Type :=
| AMark (worker message_id tpc : string) (s : WalRecordState) (att : Z) (error : option string)
| AForward (p : Producer) (m : EMessage)
| ASchedule (m : EMessage).

#[export] Instance Action_eq_dec : EqDecision Action.
Proof. solve_decision. Defined.

Section actions.
Context `{Bincode WalSyncMessage}.

(** An accepted push, read by its topic: a state report, an audit record
    (not an action: its loss is tolerated) or a message on its way. *)
Definition push_action (pm : Producer * EMessage) : list Action :=
  let '(p, m) := pm in
  if decide (topic m = SYSTEM_TOPIC_WAL_SYNC) then
    match decode_payload (payload m) with
    | Some s => [AMark (ws_worker_id s) (ws_message_id s) (ws_topic s) (ws_status s)
                   (ws_attempts s) (ws_error s)]
    | None => []
    end
  else if decide (topic m = SYSTEM_TOPIC_AUDIT) then []
  else [AForward p m].

Definition ev_action (v : ev Eff) : list Action :=
  (ev_sent v ≫= push_action) ++ ((λ r, ASchedule (message r)) <$> ev_scheduled v).

Definition actions (t : Trace) : list Action := t ≫= ev_action.

Lemma actions_cons v t : actions (v :: t) = ev_action v ++ actions t.
Proof. done. Qed.

Lemma actions_app t t' : actions (t ++ t') = actions t ++ actions t'.
Proof. apply bind_app. Qed.
End actions.
#[export] Hint Rewrite @actions_app : eb_trace.

(** What the pipeline answered, a missed deadline being [Dead Timeout]. *)
Definition ev_ran (v : ev Eff) : list (Ack * EMessage) :=
  match v with
  | Ev e x =>
      match e in Eff X return X → list (Ack * EMessage) with
      | PipelineRun _ _ => λ a, [a]
      | PipelineRunTimeout _ _ _ => λ a,
          [(match a.1 with Some st => st | None => Dead TimeoutReason end, a.2)]
      | _ => λ _, []
      end x
  end.
Definition ran (t : Trace) : list (Ack * EMessage) := t ≫= ev_ran.

Lemma ran_app t t' : ran (t ++ t') = ran t ++ ran t'.
Proof. apply bind_app. Qed.
#[export] Hint Rewrite ran_app : eb_trace.

(** ** The specification *)

Definition control_topic (t : string) : bool :=
  bool_decide (t = SYSTEM_TOPIC_WAL_SYNC) || bool_decide (t = SYSTEM_TOPIC_AUDIT).

Definition mark (w : Worker) (m : EMessage) (s : WalRecordState) (att : Z)
    (error : option string) : Action :=
  AMark (w_name w) (id m) (topic m) s att error.

(** What [TopicRouter::send] does with a message that is not a broadcast. *)
Definition router_action (r : TopicRouter) (tpc : string) (m : EMessage) : Action :=
  match deliver_at m with
  | Some _ => ASchedule m
  | None => AForward (tr_producer r) (set_topic tpc m)
  end.

(** The letter of a message that died at worker [w]. *)
Definition letter (w : Worker) (m : EMessage) : EMessage :=
  set_to_worker None (set_topic (dead_letter_topic w) m).

Definition bury (w : Worker) (r : TopicRouter) (m : EMessage) (reason : DeadReason)
    : list Action :=
  [mark w (letter w m) Failed (attempts m) (Some (dead_reason_display reason));
   router_action r (dead_letter_topic w) (letter w m)].

Definition settle (w : Worker) (r : TopicRouter) (now : SystemTime) (st : Ack) (m : EMessage)
    : list Action :=
  match st with
  | AckOk =>
      match delivery_mode m with
      | Repeated times =>
          let m := set_consumed_count (u32_incr (consumed_count m)) m in
          if decide (times = consumed_count m) then [mark w m Complete (attempts m) None]
          else [mark w m Pending 0 None; mark w m Pending 0 None; AForward (w_producer w) m]
      | _ => [mark w m Complete (attempts m) None]
      end
  | NoAck retry_after max_retries =>
      let m := set_attempts (u32_incr (attempts m)) m in
      mark w m Pending 0 None ::
      (if decide (attempts m >= max_retries) then bury w r m MaxRetriesExceeded
       else match retry_after with
            | Some d => [router_action r (topic m) (set_deliver_at (checked_add now d) m)]
            | None => [AForward (w_producer w) m]
            end)
  | Dead reason =>
      mark w m Failed (attempts m) (Some (dead_reason_display reason)) :: bury w r m reason
  end.

(** [Ok]: all of [spec]; an error: a proper initial part of it; a panic
    (a global that was never initialised): an initial part. *)
Definition performs (spec acts : list Action) (o : outcome (Res unit)) : Prop :=
  match o with
  | Done (Ok _) => acts = spec
  | Done (Err _) => ∃ rest, spec = acts ++ rest ∧ rest ≠ []
  | Panicked _ => acts `prefix_of` spec
  end.

(** A worker built by [Worker::new]: its templates carry the control topics. *)
Record worker_wf (w : Worker) : Prop := {
  wf_wal_name : wc_worker_id (w_wal w) = w_name w;
  wf_wal_topic : topic (wc_template (w_wal w)) = SYSTEM_TOPIC_WAL_SYNC;
  wf_audit_topic : topic (w_audit_template w) = SYSTEM_TOPIC_AUDIT
}.

Lemma Worker_new_wf tpc p d i s :
  wp (Worker_new tpc p d i s) (λ t o,
    ∃ w, o = Done w ∧ worker_wf w ∧ w_topic w = tpc ∧ w_producer w = p ∧ attempted t = []).
Proof. simpl. intros. by eexists. Qed.

(** ** Refinement of the parts *)

#[export] Instance Producer_inhabited : Inhabited Producer := populate {| p_addr := 1 |}.
#[export] Instance TopicRouter_inhabited : Inhabited TopicRouter :=
  populate {| tr_producer := inhabitant |}.

Section refinement.
Context `{BincodeLaws WalSyncMessage} `{Bincode AuditRecord} `{Bincode ShutdownAck}.

Lemma performs_seq (spec1 spec2 acts acts' : list Action) (o : outcome (Res unit)) :
  acts = spec1 → performs spec2 acts' o → performs (spec1 ++ spec2) (acts ++ acts') o.
Proof.
  intros ->. destruct o as [[u|e]|why]; simpl.
  - by intros ->.
  - intros (rest & -> & ?). exists rest. by rewrite app_assoc.
  - intros [rest ->]. exists rest. by rewrite app_assoc.
Qed.

Lemma performs_short (spec1 spec2 acts : list Action) (o : outcome (Res unit)) :
  performs spec1 acts o →
  match o with Done (Ok _) => False | _ => True end →
  performs (spec1 ++ spec2) acts o.
Proof.
  destruct o as [[u|e]|why]; simpl; intros Hp Ho; [done| |].
  - destruct Hp as (rest & -> & ?). exists (rest ++ spec2).
    rewrite app_assoc. split; [done|]. by destruct rest.
  - by apply prefix_app_r.
Qed.

(** Sequencing of two parts joined by [?]; the second may depend on an
    answer [i] it gets (a clock reading, the global router). *)
Lemma performs_bind {I} `{Inhabited I} (p : Prog (Res unit)) (k : unit → Prog (Res unit))
    (s1 : list Action) (s2 : I → list Action) :
  wp p (λ t o, performs s1 (actions t) o) →
  wp (k tt) (λ t o, ∃ i, performs (s2 i) (actions t) o) →
  wp (bind_ok p k) (λ t o, ∃ i, performs (s1 ++ s2 i) (actions t) o).
Proof.
  intros Hp Hk. eapply wp_seq_ok; [exact Hp|..].
  - intros t [] Ht. eapply wp_mono, Hk. intros t' o [i Ho]. exists i. rewrite actions_app.
    by apply performs_seq.
  - intros t e Ht. exists inhabitant. by apply performs_short.
  - intros t e Ht. exists inhabitant. by apply performs_short.
Qed.

(** A tail without actions that cannot fail: [Ok(())], or an audit and
    [Ok(())]. *)
Definition quiet (k : Prog (Res unit)) : Prop :=
  wp k (λ t o, actions t = [] ∧ match o with Done (Err _) => False | _ => True end).

Lemma quiet_ret : quiet (Ret (Ok tt)).
Proof. done. Qed.

Lemma performs_tail {I} `{Inhabited I} (p k : Prog (Res unit)) (s : I → list Action) :
  quiet k →
  wp p (λ t o, ∃ i, performs (s i) (actions t) o) →
  wp (p ?;; k) (λ t o, ∃ i, performs (s i) (actions t) o).
Proof.
  intros Hk Hp. eapply wp_seq_ok; [exact Hp| |auto..].
  intros t [] [i Ht]. eapply wp_mono, Hk. intros t' o [Ha Ho]. exists i.
  rewrite actions_app, Ha, app_nil_r. simpl in Ht. rewrite Ht.
  destruct o as [[]|]; simpl; [done|done|reflexivity].
Qed.

Lemma actions_sent t : scheduled t = [] → actions t = sent t ≫= push_action.
Proof.
  unfold actions, scheduled, sent. induction t as [|v t IH]; csimpl; [done|].
  intros [Hv Ht]%app_nil. rewrite IH by done. unfold ev_action. rewrite Hv. simpl.
  by rewrite app_nil_r, bind_app.
Qed.

Lemma actions_scheduled t :
  sent t = [] → actions t = (λ r, ASchedule (message r)) <$> scheduled t.
Proof.
  unfold actions, scheduled, sent. induction t as [|v t IH]; csimpl; [done|].
  intros [Hv Ht]%app_nil. rewrite IH by done. unfold ev_action. rewrite Hv. simpl.
  by rewrite fmap_app.
Qed.

Lemma push_forward p m : control_topic (topic m) = false → push_action (p, m) = [AForward p m].
Proof.
  unfold control_topic, push_action. rewrite orb_false_iff, !bool_decide_eq_false.
  intros [??]. by rewrite !decide_False by done.
Qed.

Lemma one_push_actions r m k t res :
  one_push r m k t res →
  actions t = if is_ok res then push_action (tr_producer r, m) else [].
Proof.
  intros (_ & Hs & Hsc & _). rewrite actions_sent, Hs by done.
  destruct (is_ok res); simpl; [by rewrite app_nil_r|done].
Qed.

(** A push of one message that is an action. *)
Lemma performs_push a (acts : list Action) (res : Res unit) :
  acts = (if is_ok res then [a] else []) → performs [a] acts (Done res).
Proof. intros ->. destruct res; simpl; [done|]. by exists [a]. Qed.

Lemma topic_send_performs r tpc m :
  delivery_mode m ≠ Broadcast → control_topic tpc = false →
  wp (topic_send r tpc m None None) (λ t o,
    performs [router_action r tpc m] (actions t) o).
Proof.
  intros Hm Ht. unfold router_action. destruct (deliver_at m) as [d|] eqn:Hd.
  - eapply wp_mono; [|by eapply send_delayed_spec]. intros t o [(_ & Hs & _) Ho].
    rewrite actions_scheduled by done.
    destruct o as [res|why]; [|rewrite Ho; apply prefix_nil].
    apply performs_push. rewrite Ho. by destruct (is_ok res).
  - eapply wp_mono; [|by apply send_plain_spec]. intros t o (k & res & -> & Hp).
    apply performs_push. rewrite (one_push_actions _ _ _ _ _ Hp).
    by rewrite push_forward.
Qed.

Lemma router_send_performs tpc m (k : Prog (Res unit)) :
  delivery_mode m ≠ Broadcast → control_topic tpc = false → quiet k →
  wp (r <- topic_router_global ;; topic_send r tpc m None None ?;; k)
    (λ t o, ∃ r, performs [router_action r tpc m] (actions t) o).
Proof.
  intros Hm Ht Hk. unfold topic_router_global. cbn [call bind expect wp].
  intros [r|]; cbn [bind expect wp]; [|exists inhabitant; apply prefix_nil].
  eapply wp_mono; [|apply (performs_tail _ _ (λ _ : (), [router_action r tpc m]) Hk)].
  - intros t o [_ Ho]. exists r. exact Ho.
  - eapply wp_mono; [|by apply topic_send_performs]. by exists tt.
Qed.

Lemma system_send_performs (m : EMessage) a :
  (∀ p, push_action (p, m) = [a]) →
  wp (r <- topic_router_global ;; send_system r m None None ?;; Ret (Ok tt))
    (λ t o, performs [a] (actions t) o).
Proof.
  intros Ha. unfold topic_router_global. cbn [call bind expect wp].
  intros [r|]; cbn [bind expect wp]; [|apply prefix_nil].
  eapply wp_seq_ok; [apply emit_spec|..].
  - intros t [] (k & res & [= <-] & Hp). simpl. rewrite app_nil_r.
    apply one_push_actions in Hp. by rewrite ?actions_cons, Hp, Ha.
  - intros t e (k & res & [= <-] & Hp). apply performs_push.
    apply one_push_actions in Hp. by rewrite ?actions_cons, Hp.
  - naive_solver.
Qed.

Lemma sync_status_performs wc mid tpc s att err :
  topic (wc_template wc) = SYSTEM_TOPIC_WAL_SYNC →
  wp (sync_status wc mid tpc s att err) (λ t o,
    performs [AMark (wc_worker_id wc) mid tpc s att err] (actions t) o).
Proof.
  intros Hwc. unfold sync_status. cbn [call bind wp]. intros now1 now2.
  destruct (bincode_encode _) as [pl|e] eqn:Hpl.
  - cbn [call bind wp]. intros u. eapply wp_mono.
    2:{ eapply system_send_performs; intros; unfold push_action; simpl;
        rewrite decide_True by done; by erewrite decode_encoded. }
    intros t o. done.
  - simpl. eexists. split; [reflexivity|done].
Qed.

Lemma audit_performs w m res event err d :
  topic (w_audit_template w) = SYSTEM_TOPIC_AUDIT →
  wp (audit w m res event err d) (λ t o, actions t = []).
Proof.
  intros Hw. unfold audit. case_decide; [done|].
  unfold generate_audit_msg, send_audit_msg, topic_router_global.
  cbn [call bind expect wp]. intros now.
  destruct (bincode_encode _) as [pl|e]; [|done].
  cbn [call bind expect wp]. intros u [r|]; cbn [bind expect wp]; [|done].
  apply wp_bind, (wp_mono _ (λ t _, actions t = [])).
  { intros t [a|why] Ht; simpl; [rewrite app_nil_r|]; exact Ht. }
  eapply wp_seq_ok; [apply emit_spec|..].
  - intros t [] (k & res' & [= <-] & Hp). simpl. rewrite app_nil_r.
    apply one_push_actions in Hp. rewrite ?actions_cons, Hp. unfold push_action. simpl.
    by rewrite Hw.
  - intros t e (k & res' & [= <-] & Hp). apply one_push_actions in Hp. by rewrite ?actions_cons, Hp.
  - naive_solver.
Qed.

(** A part without actions before another. *)
Lemma performs_silent {I A} `{Inhabited I} (p : Prog A) (k : A → Prog (Res unit))
    (s : I → list Action) :
  wp p (λ t _, actions t = []) →
  (∀ a, wp (k a) (λ t o, ∃ i, performs (s i) (actions t) o)) →
  wp (bind p k) (λ t o, ∃ i, performs (s i) (actions t) o).
Proof.
  intros Hp Hk. eapply wp_seq; [exact Hp|..].
  - intros t a Ht. eapply wp_mono, Hk. intros t' o [i Ho]. exists i.
    by rewrite actions_app, Ht.
  - intros t why Ht. exists inhabitant. rewrite Ht. apply prefix_nil.
Qed.

Lemma performs_fixed {I} `{Inhabited I} (p : Prog (Res unit)) (s : list Action) :
  wp p (λ t o, performs s (actions t) o) →
  wp p (λ t o, ∃ _ : I, performs s (actions t) o).
Proof. apply wp_mono. intros t o Ho. by exists inhabitant. Qed.

Lemma mark_performs w m s att err :
  worker_wf w →
  wp (sync_status (w_wal w) (id m) (topic m) s att err) (λ t o,
    performs [mark w m s att err] (actions t) o).
Proof.
  intros [Hn Ht _]. unfold mark. rewrite <- Hn. by apply sync_status_performs.
Qed.

Lemma forward_performs w m :
  control_topic (topic m) = false →
  wp (call (ProducerSend (w_producer w) m)) (λ t o,
    performs [AForward (w_producer w) m] (actions t) o).
Proof.
  intros Ht. cbn [call wp]. intros res. apply performs_push. rewrite actions_cons.
  destruct res; [|done]. unfold ev_action. cbn [ev_sent is_ok mbind list_bind].
  by rewrite push_forward.
Qed.

Lemma dead_letter_not_control w : control_topic (dead_letter_topic w) = false.
Proof. done. Qed.

Lemma audit_quiet w m res event err d : worker_wf w →
  quiet (audit w m res event err d ;;; Ret (Ok tt)).
Proof.
  intros Hw. eapply wp_seq; [by apply audit_performs, Hw|..]; simpl; [|done].
  intros t [] Ht. by rewrite app_nil_r.
Qed.

Lemma bury_performs w m reason pt :
  worker_wf w → delivery_mode m ≠ Broadcast →
  wp (send_to_dead_letter w m reason pt) (λ t o,
    ∃ r, performs (bury w r m reason) (actions t) o).
Proof.
  intros Hw Hm. unfold send_to_dead_letter, bury.
  apply (performs_bind _ _ [_] (λ r, [_])); [by apply mark_performs|].
  apply router_send_performs; [done..|by apply audit_quiet].
Qed.

Lemma settle_performs w st m pt :
  worker_wf w → delivery_mode m ≠ Broadcast → control_topic (topic m) = false →
  wp (settle_msg w st m pt) (λ t o,
    ∃ rn : TopicRouter * SystemTime, performs (settle w rn.1 rn.2 st m) (actions t) o).
Proof.
  intros Hw Hm Ht. unfold settle_msg, settle. destruct st as [|ra mx|reason].
  - destruct (delivery_mode m) as [|n|] eqn:Hmode; [| |done].
    + apply performs_silent; [by apply audit_performs, Hw|]. intros _.
      apply performs_tail, performs_fixed, mark_performs; done.
    + case_decide.
      * apply performs_tail, performs_fixed, mark_performs; done.
      * apply (performs_bind _ _ [_] (λ _, [_; _])); [by apply mark_performs|].
        apply performs_tail; [done|].
        apply (performs_bind _ _ [_] (λ _, [_])); [by apply mark_performs|].
        apply performs_tail, performs_fixed, forward_performs; done.
  - apply (performs_bind _ _ [_] (λ rn, _)); [by apply mark_performs|].
    case_decide; [|destruct ra as [d|]].
    + apply performs_tail; [done|]. eapply wp_mono; [|by apply bury_performs].
      intros t o [r Ho]. by exists (r, 0).
    + cbn [call bind wp]. intros now. eapply wp_mono; [|by apply router_send_performs].
      intros t o [r Ho]. by exists (r, now).
    + apply performs_tail, performs_fixed, forward_performs; done.
  - apply (performs_bind _ _ [_] (λ rn, _)); [by apply mark_performs|].
    apply performs_tail; [done|]. eapply wp_mono; [|by apply bury_performs].
    intros t o [r Ho]. by exists (r, 0).
Qed.

Definition no_pipeline (X : Type) (e : Eff X) : Prop :=
  match e with PipelineRun _ _ | PipelineRunTimeout _ _ _ => False | _ => True end.

(** The footprint of a report or an audit. *)
Definition push_effect (X : Type) (e : Eff X) : Prop :=
  match e with
  | Now | NewUuid | TopicRouterCell | ReadDefaultTimeout
  | ProducerSend _ _ | ProducerTrySend _ _ | ProducerSendTimeout _ _ _ => True
  | _ => False
  end.

Lemma push_no_pipeline {A} (p : Prog A) : only push_effect p → only no_pipeline p.
Proof. apply only_mono. by intros X []. Qed.

Lemma emit_only r m ts d : only push_effect (topic_emit r m ts d).
Proof. unfold topic_emit. only_solve. Qed.
#[local] Hint Resolve emit_only push_no_pipeline : eb_only.
Lemma topic_send_only r tpc m ts d : only no_pipeline (topic_send r tpc m ts d).
Proof. unfold topic_send, registry_wal, registry_global, get_node_type. only_solve. Qed.
#[local] Hint Resolve topic_send_only : eb_only.
Lemma sync_status_only wc i tpc s n e : only push_effect (sync_status wc i tpc s n e).
Proof. unfold sync_status, topic_router_global, send_system. only_solve. Qed.
#[local] Hint Resolve sync_status_only : eb_only.
Lemma audit_only w m r e er d : only push_effect (audit w m r e er d).
Proof.
  unfold audit, generate_audit_msg, send_audit_msg, topic_router_global, send_system.
  only_solve.
Qed.
#[local] Hint Resolve audit_only : eb_only.
Lemma settle_only w st m pt : only no_pipeline (settle_msg w st m pt).
Proof.
  unfold settle_msg, send_to_dead_letter, requeue_message, mark_pending, mark_complete,
    mark_dead_letter, topic_router_global. only_solve.
Qed.

Lemma push_lists_nothing {A} (p : Prog A) : only push_effect p → wp p (λ t _, listed t = []).
Proof. apply only_obs. by intros X [] x. Qed.

Lemma ran_nothing {A} (p : Prog A) : only no_pipeline p → wp p (λ t _, ran t = []).
Proof. apply only_obs. by intros X [] x. Qed.
End refinement.

(** ** [process_msg] *)

Section process.
Context `{BincodeLaws WalSyncMessage} `{Bincode AuditRecord} `{Bincode ShutdownAck}.

Lemma settle_nonempty w r now st m : settle w r now st m ≠ [].
Proof. destruct st; simpl; repeat case_match; done. Qed.

Lemma run_pipeline_spec w m :
  wp (run_pipeline w m) (λ t o, ∃ sm, o = Done sm ∧ ran t = [sm] ∧ actions t = []).
Proof.
  unfold run_pipeline. destruct (w_time_out w); simpl; intros x.
  - eexists. done.
  - by exists x.
Qed.

(** What a message may be assumed to be after the pipeline: not a broadcast
    and not on one of the two control topics. *)
Definition ordinary (m : EMessage) : Prop :=
  delivery_mode m ≠ Broadcast ∧ control_topic (topic m) = false.

Definition settled (w : Worker) (st : Ack) (m : EMessage) (acts : list Action)
    (o : outcome (Res unit)) : Prop :=
  ordinary m → ∃ r now, performs (settle w r now st m) acts o.

Lemma finish_spec w st m start :
  worker_wf w →
  wp (finish_time <- call Now ;;
      match duration_since finish_time start with
      | Err _ => Ret (Err time_error)
      | Ok process_time => settle_msg w st m process_time
      end) (λ t o, ran t = [] ∧ settled w st m (actions t) o).
Proof.
  intros Hw. cbn [call bind wp]. intros finish.
  destruct (duration_since finish start) as [pt|].
  - eapply wp_mono; [|apply wp_and; [apply ran_nothing, settle_only|]].
    { intros t o [Hr Hp]. split; [exact Hr|exact Hp]. }
    destruct (decide (ordinary m)) as [Ho|Ho]; [|apply wp_trivial; by intros t o ?].
    eapply wp_mono; [|by apply settle_performs; destruct Ho].
    intros t o [[r now] Hp] _. by exists r, now.
  - simpl. split; [done|]. intros _. exists inhabitant, 0, (settle w inhabitant 0 st m).
    split; [done|]. apply settle_nonempty.
Qed.

(** The outcome of [process_msg] against the specification. *)
Definition processed (w : Worker) (m : EMessage) (t : Trace) (o : outcome (Res unit)) : Prop :=
  match ran t with
  | [] => actions t `prefix_of` [mark w m Processing 0 None] ∧
          match o with Done (Ok _) => False | _ => True end
  | [(st, m')] =>
      ∃ acts, actions t = mark w m Processing 0 None :: acts ∧ settled w st m' acts o
  | _ => False
  end.

Lemma process_spec w m :
  worker_wf w → is_system w = false → wp (process_msg w m) (processed w m).
Proof.
  intros Hw Hs. unfold process_msg, processed. rewrite Hs.
  eapply wp_seq; [apply wp_and; [apply ran_nothing, push_no_pipeline, audit_only|by apply audit_performs, Hw]|..];
    cbv beta; [|intros t why [-> ->]; split; [apply prefix_nil|done]].
  intros t0 _ [Hr0 Ha0]. cbn [call bind wp]. intros start.
  eapply wp_seq_ok;
    [apply wp_and; [apply ran_nothing, push_no_pipeline, sync_status_only|by apply mark_performs]|..]; cbv beta.
  - intros t1 [] [Hr1 Ha1]. simpl in Ha1.
    eapply wp_seq; [apply run_pipeline_spec| |naive_solver].
    intros t2 [st m'] (sm & [= <-] & Hr2 & Ha2). cbv beta iota.
    eapply wp_mono; [|by apply finish_spec]. intros t o [Hr Hp].
    rewrite ran_app, Hr0. csimpl. rewrite !ran_app, Hr1, Hr2, Hr.
    exists (actions t). split; [|done].
    rewrite actions_app, Ha0, actions_cons, !actions_app, Ha1, Ha2. done.
  - intros t e [Hr Hp]. rewrite ran_app, actions_app, Hr0, Ha0. csimpl. rewrite Hr.
    destruct Hp as (rest & Hp & _). split; [by exists rest|done].
  - intros t e [Hr Hp]. rewrite ran_app, actions_app, Hr0, Ha0. csimpl. by rewrite Hr.
Qed.

(** C1. Refinement of [process_msg], for a worker as [Worker::new] builds it
    on a topic that is not a system one. The pipeline runs at most once;
    before it ran, the worker reported at most [Processing] and does not
    return [Ok]; after it, when the message the pipeline left is [ordinary]
    (no broadcast and not on the topics of the WAL reports and the audit), the
    reports to the WAL and the moves of the message are those of [settle] for
    the acknowledgement and that message, all of them if [process_msg] returns
    [Ok] and an initial part otherwise. The letters of broadcast copies, which
    are fanned out, are the subject of [broadcast_letter_fans_out]. *)
Theorem process_msg_refines_settle w m :
  worker_wf w → is_system w = false → wp (process_msg w m) (processed w m).
Proof. apply process_spec. Qed.

(** ** Nothing is lost and nothing is doubled *)

(** The messages that go on from a list of actions. *)
Definition onward (acts : list Action) : list EMessage :=
  omap (λ a, match a with AForward _ m | ASchedule m => Some m | AMark _ _ _ _ _ _ => None end)
    acts.

Definition completes (a : Action) : bool :=
  match a with AMark _ _ _ Complete _ _ => true | _ => false end.

(** The acknowledgement that ends the life of the message. *)
Definition final (st : Ack) (m : EMessage) : bool :=
  match st, delivery_mode m with
  | AckOk, Repeated times => bool_decide (times = u32_incr (consumed_count m))
  | AckOk, _ => true
  | _, _ => false
  end.

Lemma onward_router r tpc m :
  onward [router_action r tpc m] =
    [match deliver_at m with Some _ => m | None => set_topic tpc m end].
Proof. unfold router_action. by destruct (deliver_at m). Qed.

Lemma settle_onward w r now st m :
  (if final st m then onward (settle w r now st m) = []
   else ∃ m', onward (settle w r now st m) = [m'] ∧ id m' = id m ∧ payload m' = payload m) ∧
  existsb completes (settle w r now st m) = final st m.
Proof.
  destruct st as [|ra mx|reason]; simpl; unfold bury.
  - destruct (delivery_mode m) as [|n|]; simpl; [done| |done].
    case_bool_decide; case_decide; try done. split; [|done]. by eexists.
  - unfold router_action. simpl. case_decide; simpl; [|destruct ra; simpl];
      repeat (case_match; simplify_eq/=); (split; [by eexists|done]).
  - unfold router_action. simpl. repeat (case_match; simplify_eq/=); (split; [by eexists|done]).
Qed.

(** C2. No loss, no duplication, for a worker as [Worker::new] builds it on a
    topic that is not a system one: whenever [process_msg] returns [Ok], the
    pipeline ran once, and if it left the message [ordinary] (no broadcast and
    not on the topics of the WAL reports and the audit), either the completion
    was reported to the WAL and nothing goes on, or no completion was reported
    and exactly one message goes on (to a queue or to the delayed store),
    carrying the same id and the same payload. *)
Theorem processed_message_conserved w m :
  worker_wf w → is_system w = false →
  wp (process_msg w m) (λ t o,
    o = Done (Ok tt) →
    ∃ st m', ran t = [(st, m')] ∧ (ordinary m' →
      existsb completes (actions t) = final st m' ∧
      if final st m' then onward (actions t) = []
      else ∃ m'', onward (actions t) = [m''] ∧ id m'' = id m' ∧ payload m'' = payload m')).
Proof.
  intros Hw Hs. eapply wp_mono, process_spec; [|done..]. unfold processed.
  intros t o Ht ->. destruct (ran t) as [|[st m'] [|]]; [naive_solver| |done].
  exists st, m'. split; [done|]. intros Hm. destruct Ht as (acts & Ha & Hp).
  destruct (Hp Hm) as (r & now & Hacts). simpl in Hacts. subst acts.
  rewrite Ha. simpl. destruct (settle_onward w r now st m') as [Ho Hc]. by rewrite Hc.
Qed.

(** ** Why a delivery fails *)

(** Something refused what the worker asked for; an audit record does not
    count, since its loss is tolerated. *)
Definition ev_refused (v : ev Eff) : bool :=
  match v with
  | Ev e x =>
      match e in Eff X return X → bool with
      | ProducerSend _ m => λ r, negb (is_ok r) && negb (bool_decide (topic m = SYSTEM_TOPIC_AUDIT))
      | ProducerTrySend _ m => λ r, negb (is_ok r) && negb (bool_decide (topic m = SYSTEM_TOPIC_AUDIT))
      | ProducerSendTimeout _ m _ =>
          λ r, negb (is_ok r) && negb (bool_decide (topic m = SYSTEM_TOPIC_AUDIT))
      | WalSchedule _ _ => λ r, negb (is_ok r)
      | RegistryWal => λ o, bool_decide (o = None)
      | RegGetWorkers _ => λ r, negb (is_ok r)
      | NodeTypeCell => λ o, bool_decide (o = Some WorkerNode)
      | _ => λ _, false
      end x
  end.

Definition ev_reading (v : ev Eff) : list SystemTime :=
  match v with
  | Ev e x => match e in Eff X return X → list SystemTime with Now => λ now, [now] | _ => λ _, [] end x
  end.
Definition readings (t : Trace) : list SystemTime := t ≫= ev_reading.

(** Of two readings of the clock the later one was the smaller. *)
Definition clock_back (t : Trace) : Prop :=
  ∃ l1 a l2 b l3, readings t = l1 ++ a :: l2 ++ b :: l3 ∧ b < a.

Definition trouble (t : Trace) : Prop :=
  Exists (λ v, ev_refused v = true) t ∨ clock_back t ∨
  ∃ s : WalSyncMessage, is_ok (bincode_encode s) = false.

Lemma trouble_around t0 t t1 : trouble t → trouble (t0 ++ t ++ t1).
Proof.
  intros [Hr|[(l1 & a & l2 & b & l3 & Hl & Hlt)|Hc]]; [left|right; left|by right; right].
  - apply Exists_app. right. apply Exists_app. by left.
  - unfold clock_back, readings in *. rewrite !bind_app, Hl.
    exists ((t0 ≫= ev_reading) ++ l1), a, l2, b, (l3 ++ (t1 ≫= ev_reading)).
    split; [|done]. rewrite <- !(assoc_L (++)). simpl. by rewrite <- !(assoc_L (++)).
Qed.

Lemma trouble_after t0 t : trouble t → trouble (t0 ++ t).
Proof. intros Ht. rewrite <- (app_nil_r t). by apply trouble_around. Qed.

(** An error has a cause in the execution. *)
Definition blames {A} (p : Prog (Res A)) : Prop :=
  wp p (λ t o, ∀ e, o = Done (Err e) → trouble t).

Lemma blames_bind {A B} (p : Prog A) (k : A → Prog (Res B)) :
  (∀ a, blames (k a)) → blames (bind p k).
Proof.
  intros Hk. apply wp_bind, wp_trivial. intros t [a|why]; [|by intros e [=]].
  eapply wp_mono; [|apply Hk]. intros t' o Ho e He. apply trouble_after. by eapply Ho.
Qed.

Lemma blames_ok {A B} (p : Prog (Res A)) (k : A → Prog (Res B)) :
  blames p → (∀ a, blames (k a)) → blames (bind_ok p k).
Proof.
  intros Hp Hk. eapply wp_seq_ok; [exact Hp|..].
  - intros t a _. eapply wp_mono; [|apply Hk]. intros t' o Ho e He. apply trouble_after. by eapply Ho.
  - intros t e Ht e' _. by eapply Ht.
  - by intros t why _ e [=].
Qed.

Lemma blames_call {A} (c : Eff (Res A)) :
  (∀ e, ev_refused (Ev c (Err e)) = true) → blames (call c).
Proof. intros Hc [a|e] e' He; [done|]. left. constructor. apply Hc. Qed.

Lemma blames_fine {A} (a : A) : blames (Ret (Ok a)).
Proof. by intros e [=]. Qed.

Create HintDb eb_blame.
#[local] Hint Resolve blames_fine blames_bind blames_ok : eb_blame.

Lemma refused_push_blames (c : Eff (Res unit)) m :
  topic m ≠ SYSTEM_TOPIC_AUDIT →
  (∀ r, ev_refused (Ev c r) = negb (is_ok r) && negb (bool_decide (topic m = SYSTEM_TOPIC_AUDIT))) →
  blames (call c).
Proof. intros Hm Hc. apply blames_call. intros e. rewrite Hc. simpl. by rewrite bool_decide_false. Qed.

Lemma emit_blames r m try_send timeout :
  topic m ≠ SYSTEM_TOPIC_AUDIT → blames (topic_emit r m try_send timeout).
Proof.
  intros Hm. unfold topic_emit.
  destruct (default false try_send); [by eapply refused_push_blames|].
  apply blames_bind. intros dflt.
  destruct (match timeout with Some d => _ | None => _ end); by eapply refused_push_blames.
Qed.

Lemma try_each_blames {A} (l : list A) (f : A → Prog (Res unit)) :
  (∀ x, blames (f x)) → blames (try_for_each l f).
Proof. intros Hf. induction l as [|x l IH]; simpl; auto with eb_blame. Qed.

Lemma registry_wal_blames : blames registry_wal.
Proof.
  apply blames_bind. intros _ [h|]; cbn; [by intros e [=]|]. intros e _. left. by constructor.
Qed.

Lemma node_type_blames {A} (k : NodeType → Prog (Res A)) e0 :
  blames (k Host) → k WorkerNode = Ret (Err e0) → blames (nt <- get_node_type ;; k nt).
Proof.
  intros Hk Hw [[]|]; cbn [bind expect call wp]; [|rewrite Hw|by intros e [=]].
  - eapply wp_mono; [|exact Hk]. intros t o Ho e He. apply (trouble_after [_]). by eapply Ho.
  - intros e _. left. by constructor.
Qed.

Lemma topic_send_blames r tpc m try_send timeout :
  topic m ≠ SYSTEM_TOPIC_AUDIT → tpc ≠ SYSTEM_TOPIC_AUDIT →
  blames (topic_send r tpc m try_send timeout).
Proof.
  intros Hm Ht. unfold topic_send. destruct (deliver_at m).
  - apply blames_ok; [apply registry_wal_blames|]. intros h.
    apply blames_ok; [by apply blames_call|]. auto with eb_blame.
  - case_decide; [|by apply emit_blames].
    apply (node_type_blames _ broadcast_needs_host); [|done].
    rewrite decide_False by done. apply blames_bind. intros _.
    apply blames_ok; [by apply blames_call|]. intros ws.
    apply try_each_blames. intros w. by apply emit_blames.
Qed.
Lemma sync_status_blames wc mid tpc st att err :
  topic (wc_template wc) = SYSTEM_TOPIC_WAL_SYNC → blames (sync_status wc mid tpc st att err).
Proof.
  intros Hwc. unfold sync_status. apply blames_bind. intros now1. apply blames_bind. intros now2.
  destruct (bincode_encode _) as [pl|e] eqn:He.
  - apply blames_bind. intros u. apply blames_bind. intros r.
    apply blames_ok; [|auto with eb_blame]. apply emit_blames. simpl. by rewrite Hwc.
  - intros e' _. right. right. eexists. by rewrite He.
Qed.

Lemma requeue_blames w (m : EMessage) :
  worker_wf w → topic m ≠ SYSTEM_TOPIC_AUDIT → blames (requeue_message w m).
Proof.
  intros Hw Hm. apply blames_ok; [by apply sync_status_blames, Hw|]. intros _.
  apply blames_ok; [by eapply refused_push_blames|]. auto with eb_blame.
Qed.

Lemma dead_letter_blames w m reason pt : worker_wf w → blames (send_to_dead_letter w m reason pt).
Proof.
  intros Hw. apply blames_ok; [by apply sync_status_blames, Hw|]. intros _.
  apply blames_bind. intros r. apply blames_ok; [by apply topic_send_blames|]. auto with eb_blame.
Qed.

Lemma settle_msg_blames w st m pt :
  worker_wf w → topic m ≠ SYSTEM_TOPIC_AUDIT → blames (settle_msg w st m pt).
Proof.
  intros Hw Hm. unfold settle_msg. cbv zeta.
  assert (∀ mid tpc s att err, blames (sync_status (w_wal w) mid tpc s att err)) as Hsync
    by (intros; by apply sync_status_blames, Hw).
  destruct st as [|ra mx|reason].
  - assert (∀ m, blames (mark_complete (w_wal w) (id m) (topic m) (attempts m) ?;; Ret (Ok tt)))
      as Hdone by (intros m1; apply blames_ok; [apply Hsync|auto with eb_blame]).
    destruct (delivery_mode m); [by apply blames_bind| |by apply blames_bind].
    case_decide; [apply Hdone|]. apply blames_ok; [apply Hsync|]. intros _.
    apply blames_ok; [by apply requeue_blames|]. auto with eb_blame.
  - apply blames_ok; [apply Hsync|]. intros _. case_decide.
    + apply blames_ok; [by apply dead_letter_blames|]. auto with eb_blame.
    + destruct ra as [d|].
      * apply blames_bind. intros now. apply blames_bind. intros r.
        apply blames_ok; [by apply topic_send_blames|]. auto with eb_blame.
      * apply blames_ok; [by eapply refused_push_blames|]. auto with eb_blame.
  - apply blames_ok; [apply Hsync|]. intros _.
    apply blames_ok; [by apply dead_letter_blames|]. auto with eb_blame.
Qed.

(** An error of a delivery whose message the pipeline left ordinary has a
    cause: a refusal, a clock that stepped back or a report that cannot be
    encoded. *)
Definition explained (t : Trace) (o : outcome (Res unit)) : Prop :=
  ∀ e, o = Done (Err e) → Forall (λ a, ordinary a.2) (ran t) → trouble t.

Lemma clock_back_between a t b : (b < a)%Z → trouble (Ev Now a :: t ++ [Ev Now b]).
Proof.
  intros Hlt. right. left. exists [], a, (readings t), b, []. split; [|done].
  unfold readings. csimpl. by rewrite bind_app.
Qed.

Lemma process_explained w m :
  worker_wf w → is_system w = false → wp (process_msg w m) explained.
Proof.
  intros Hw Hs. unfold process_msg. rewrite Hs.
  apply wp_bind, wp_trivial. intros t0 [u|why]; [|by intros e [=]].
  intros start. eapply wp_seq_ok; [by apply sync_status_blames, Hw|..].
  - intros t1 [] _. eapply wp_seq; [apply run_pipeline_spec| |by intros t2 why _ e [=]].
    intros t2 [st m'] (sm & [= <-] & Hr2 & _). intros finish. cbn [bind].
    destruct (duration_since finish start) as [pt|de] eqn:Hd.
    + destruct (decide (topic m' = SYSTEM_TOPIC_AUDIT)) as [Ht|Ht].
      * apply wp_trivial. intros t o e _ Hf. exfalso.
        rewrite ran_app in Hf. apply Forall_app in Hf as [_ Hf].
        change (ran (Ev Now start :: ?l)) with (ran l) in Hf. rewrite !ran_app, Hr2 in Hf.
        apply Forall_app in Hf as [_ Hf]. apply Forall_app in Hf as [Hf _].
        apply Forall_cons in Hf as [[_ Hf] _]. simpl in Hf. by rewrite Ht in Hf.
      * eapply wp_mono; [|by apply settle_msg_blames]. intros t o Ho e He _.
        apply (trouble_after t0), (trouble_after [_]), (trouble_after t1), (trouble_after t2),
          (trouble_after [_]). by eapply Ho.
    + intros e _ _. apply trouble_after.
      rewrite (assoc_L (++) t1).
      apply clock_back_between. revert Hd. unfold duration_since. case_decide; [done|lia].
  - intros t e Ht e' He _. apply (trouble_after t0), (trouble_after [_]). by eapply Ht.
  - by intros t why _ e [=].
Qed.
End process.
