(* ===== verification/WorkerTypes.v ===== *)
(** * Messages keep their types

    The [u32] fields of a message ([attempts], [consumed_count], [version],
    the count of a repeated delivery) are integers in range.  Whatever a
    worker sends or schedules while it processes a well-typed message is
    well-typed, its counters wrapping around. *)
From S2P Require Import Prelude Prog Errors Message Codec Runtime Topic Worker WorkerTheorems.

Lemma new_wf u now tpc pl mode target :
  match mode with Repeated n => is_u32 n | _ => True end →
  msg_wf (EMessage_new u now tpc pl mode target).
Proof.
  intros Hm. unfold msg_wf. simpl. split_and!; [split; done..|]. by destruct mode.
Qed.

(** The setters a worker uses keep messages well-typed. *)
Lemma set_attempts_wf m : msg_wf m → msg_wf (set_attempts (u32_incr (attempts m)) m).
Proof. intros (? & ? & ? & ?). split_and!; simpl; auto with eb. Qed.
Lemma set_consumed_wf m : msg_wf m → msg_wf (set_consumed_count (u32_incr (consumed_count m)) m).
Proof. intros (? & ? & ? & ?). split_and!; simpl; auto with eb. Qed.
Lemma set_other_wf m :
  msg_wf m →
  (∀ t, msg_wf (set_topic t m)) ∧ (∀ i, msg_wf (set_id i m)) ∧ (∀ p, msg_wf (set_payload p m)) ∧
  (∀ d, msg_wf (set_deliver_at d m)) ∧ (∀ w, msg_wf (set_to_worker w m)).
Proof. done. Qed.
Lemma copy_wf m w : msg_wf m → msg_wf (broadcast_copy m w).
Proof. done. Qed.
Lemma letter_wf w m : msg_wf m → msg_wf (letter w m).
Proof. done. Qed.
#[local] Hint Resolve set_attempts_wf set_consumed_wf copy_wf letter_wf : eb_only.

(** Every message an effect carries is well-typed. *)
Definition carries_wf (X : Type) (e : Eff X) : Prop :=
  match e with
  | ProducerSend _ m | ProducerTrySend _ m | ProducerSendTimeout _ m _ => msg_wf m
  | WalSchedule _ r | WalAppend _ r => msg_wf (message r)
  | InboxTrySend _ m | PipelineRun _ m | PipelineRunTimeout _ _ m => msg_wf m
  | _ => True
  end.

(** The messages that leave through an effect. *)
Definition ev_carried (v : ev Eff) : list EMessage :=
  match v with
  | Ev e _ =>
      match e with
      | ProducerSend _ m | ProducerTrySend _ m | ProducerSendTimeout _ m _ => [m]
      | WalSchedule _ r | WalAppend _ r => [message r]
      | InboxTrySend _ m | PipelineRun _ m | PipelineRunTimeout _ _ m => [m]
      | _ => []
      end
  end.
Definition carried (t : Trace) : list EMessage := t ≫= ev_carried.

Lemma carried_app t t' : carried (t ++ t') = carried t ++ carried t'.
Proof. apply bind_app. Qed.

Lemma only_carried {A} (p : Prog A) : only carries_wf p → wp p (λ t _, Forall msg_wf (carried t)).
Proof.
  induction p as [a|w|X e k IH]; simpl; [constructor..|].
  intros [He Hk] x. eapply wp_mono; [|apply IH, Hk]. intros t o Ht.
  change (Forall msg_wf (ev_carried (Ev e x) ++ carried t)).
  apply Forall_app. split; [|done]. destruct e; simpl; auto.
Qed.

#[export] Instance msg_wf_dec m : Decision (msg_wf m).
Proof. unfold msg_wf, is_u32. destruct (delivery_mode m); apply _. Defined.

Section types.
Context `{Bincode WalSyncMessage} `{Bincode AuditRecord} `{Bincode ShutdownAck}.

(** The templates of a worker are well-typed, as [Worker::new] makes them. *)
Definition templates_wf (w : Worker) : Prop :=
  msg_wf (wc_template (w_wal w)) ∧ msg_wf (w_audit_template w).

Lemma new_templates_wf tpc p d i s :
  wp (Worker_new tpc p d i s) (λ _ o, ∃ w, o = Done w ∧ templates_wf w).
Proof. simpl. intros. eexists. split; [done|]. by split; apply new_wf. Qed.

Lemma emit_wf r m ts d : msg_wf m → only carries_wf (topic_emit r m ts d).
Proof. intros Hm. unfold topic_emit. only_solve. Qed.
#[local] Hint Resolve emit_wf : eb_only.

Lemma topic_send_wf r tpc m ts d : msg_wf m → only carries_wf (topic_send r tpc m ts d).
Proof.
  intros Hm. unfold topic_send, registry_wal, registry_global, get_node_type.
  destruct (deliver_at m); only_solve.
Qed.
#[local] Hint Resolve topic_send_wf : eb_only.

Lemma sync_status_wf wc i tpc s n e :
  msg_wf (wc_template wc) → only carries_wf (sync_status wc i tpc s n e).
Proof. intros Hw. unfold sync_status, topic_router_global, send_system. only_solve. Qed.

Lemma audit_wf w m r e er d :
  msg_wf (w_audit_template w) → only carries_wf (audit w m r e er d).
Proof.
  intros Hw. unfold audit, generate_audit_msg, send_audit_msg, topic_router_global, send_system.
  only_solve.
Qed.
#[local] Hint Resolve sync_status_wf audit_wf : eb_only.

Lemma settle_wf w st m pt : templates_wf w → msg_wf m → only carries_wf (settle_msg w st m pt).
Proof.
  intros [Hw Ha] Hm. pose proof (set_attempts_wf m Hm). pose proof (set_consumed_wf m Hm).
  unfold settle_msg, send_to_dead_letter, requeue_message, mark_complete, mark_pending,
    mark_dead_letter, topic_router_global.
  destruct st as [|ra mr|reason]; [destruct (delivery_mode m)|..]; only_solve.
Qed.

(** An execution whose handler answers well-typed messages carries only
    well-typed messages. *)
Definition well_typed (t : Trace) : Prop :=
  Forall (λ a, msg_wf a.2) (ran t) → Forall msg_wf (carried t).

Lemma well_typed_seq {A B} (p : Prog A) (k : A → Prog B) :
  only carries_wf p → (∀ a, wp (k a) (λ t _, well_typed t)) →
  wp (bind p k) (λ t _, well_typed t).
Proof.
  intros Hp Hk. eapply wp_seq; [by apply only_carried|..].
  - intros t a Ht. eapply wp_mono, Hk. unfold well_typed. intros t' o Ht'.
    rewrite ran_app, carried_app, !Forall_app. naive_solver.
  - by intros t why Ht _.
Qed.

Lemma well_typed_run w m (k : Ack * EMessage → Prog (Res unit)) :
  msg_wf m → (∀ st m', msg_wf m' → wp (k (st, m')) (λ t _, well_typed t)) →
  wp (bind (run_pipeline w m) k) (λ t _, well_typed t).
Proof.
  intros Hm Hk. unfold run_pipeline. destruct (w_time_out w) as [d|]; cbn [bind call wp].
  - intros [oa m'].
    destruct (decide (msg_wf m')) as [Hm'|Hm'].
    + eapply wp_mono, Hk, Hm'. unfold well_typed. intros t o Ht Hr.
      apply Forall_cons in Hr as [_ Hr]. constructor; auto.
    + apply wp_trivial. intros t o Hr. by apply Forall_cons in Hr as [? _].
  - intros [st m'].
    destruct (decide (msg_wf m')) as [Hm'|Hm'].
    + eapply wp_mono, Hk, Hm'. unfold well_typed. intros t o Ht Hr.
      apply Forall_cons in Hr as [_ Hr]. constructor; auto.
    + apply wp_trivial. intros t o Hr. by apply Forall_cons in Hr as [? _].
Qed.

(** Processing a well-typed message with a handler that answers well-typed
    messages, a worker sends, schedules and hands on only well-typed ones. *)
Theorem process_msg_types w m :
  templates_wf w → msg_wf m →
  wp (process_msg w m) (λ t _,
    Forall (λ a, msg_wf a.2) (ran t) → Forall msg_wf (carried t)).
Proof.
  intros Hw Hm. pose proof Hw as [Hs Ha]. unfold process_msg.
  apply well_typed_seq; [destruct (is_system w); [done|by apply audit_wf]|intros _].
  apply well_typed_seq; [done|intros start].
  apply well_typed_seq; [destruct (is_system w); [done|by apply sync_status_wf]|].
  intros [[]|e]; [|by intros _; constructor].
  apply well_typed_run; [done|]. intros st m' Hm'. destruct (is_system w); [by intros _; constructor|].
  apply well_typed_seq; [done|intros finish].
  destruct (duration_since finish start); [|by intros _; constructor].
  eapply wp_mono; [|by apply only_carried, settle_wf]. by intros t o Ht _.
Qed.
End types.

(** A worker as [Worker::new] makes it, and a message that is requeued
    with its counter at the end of its range. *)
Definition typed_worker : Worker :=
  let tmpl t := EMessage_new "u"%string 1 t [] Standard None in
  {| w_topic := "orders"%string; w_name := "w"%string; w_producer := {| p_addr := 1 |};
     w_time_out := None; w_shutdown_check_interval := 50; w_shutdown_timeout := None;
     w_wal := {| wc_worker_id := "w"%string; wc_template := tmpl SYSTEM_TOPIC_WAL_SYNC |};
     w_audit_template := tmpl SYSTEM_TOPIC_AUDIT |}.

Definition typed_message : EMessage :=
  set_attempts (u32_modulus - 1)
    (EMessage_new "m"%string 1 "orders"%string [1] (Repeated 3) None).

Import SerCodec.

Lemma process_msg_types_witness :
  templates_wf typed_worker ∧ msg_wf typed_message ∧
  wp (process_msg typed_worker typed_message) (λ t _,
    Forall (λ a, msg_wf a.2) (ran t) → Forall msg_wf (carried t)).
Proof.
  assert (templates_wf typed_worker) as Hw
    by (split; apply (bool_decide_unpack _); vm_compute; reflexivity).
  assert (msg_wf typed_message) as Hm by (apply (bool_decide_unpack _); vm_compute; reflexivity).
  split; [exact Hw|]. split; [exact Hm|].
  exact (process_msg_types typed_worker typed_message Hw Hm).
Defined.
