(* ===== verification/World.v ===== *)
(** * A concrete node

    A small deterministic environment that answers every effect: a clock that
    advances, numbered UUIDs, one queue that accepts everything, a delayed
    store, a fixed set of registered workers and a pipeline that always gives
    the same acknowledgement.  Programs are executed against it ([run]) in
    order to exhibit executions. *)
From S2P Require Import Prelude Prog Errors Message Runtime.

Record World : Type := {
  wd_clock : SystemTime;
  wd_next_uuid : nat;
  wd_node : NodeType;
  wd_queue : list (Producer * EMessage);
  wd_delayed : list WalRecord;
  wd_workers : list WorkerInfo;
  wd_ack : Ack;
  wd_status : WorkerStatus
}.

Definition pass (d : Duration) (s : World) : World :=
  {| wd_clock := wd_clock s + d; wd_next_uuid := wd_next_uuid s; wd_node := wd_node s;
     wd_queue := wd_queue s; wd_delayed := wd_delayed s; wd_workers := wd_workers s;
     wd_ack := wd_ack s; wd_status := wd_status s |}.
Definition draw_uuid (s : World) : World :=
  {| wd_clock := wd_clock s; wd_next_uuid := S (wd_next_uuid s); wd_node := wd_node s;
     wd_queue := wd_queue s; wd_delayed := wd_delayed s; wd_workers := wd_workers s;
     wd_ack := wd_ack s; wd_status := wd_status s |}.
Definition enqueue (p : Producer) (m : EMessage) (s : World) : World :=
  {| wd_clock := wd_clock s; wd_next_uuid := wd_next_uuid s; wd_node := wd_node s;
     wd_queue := wd_queue s ++ [(p, m)]; wd_delayed := wd_delayed s;
     wd_workers := wd_workers s; wd_ack := wd_ack s; wd_status := wd_status s |}.
Definition delay (r : WalRecord) (s : World) : World :=
  {| wd_clock := wd_clock s; wd_next_uuid := wd_next_uuid s; wd_node := wd_node s;
     wd_queue := wd_queue s; wd_delayed := wd_delayed s ++ [r];
     wd_workers := wd_workers s; wd_ack := wd_ack s; wd_status := wd_status s |}.

Definition the_producer : Producer := {| p_addr := 1 |}.
Definition the_router : TopicRouter := {| tr_producer := the_producer |}.
Definition the_wal : WalHandle := {| wh_addr := 1 |}.

Definition serve (X : Type) (e : Eff X) (s : World) : X * World :=
  match e in Eff X return X * World with
  | Now => (wd_clock s, pass 1 s)
  | NewUuid => (String.append "u" (pretty.pretty (wd_next_uuid s)), draw_uuid s)
  | Sleep d => (tt, pass (Z.max 0 d) s)
  | TryGetNodeName => (None, s)
  | NodeTypeCell => (Some (wd_node s), s)
  | TopicRouterCell => (Some the_router, s)
  | ReadDefaultTimeout => (None, s)
  | WriteDefaultTimeout _ => (tt, s)
  | ReadTopics => ([], s)
  | RegisterTopic _ => (tt, s)
  | ProducerSend p m => (Ok tt, enqueue p m s)
  | ProducerTrySend p m => (Ok tt, enqueue p m s)
  | ProducerSendTimeout p m _ => (Ok tt, enqueue p m s)
  | RegistryCell => (Some tt, s)
  | RegistryWal => (Some the_wal, s)
  | RegGetWorkers t => (Ok (filter (λ i, wi_topic i = t) (wd_workers s)), s)
  | RegGetAllWorkers => (Ok (wd_workers s), s)
  | RegRegister _ => (Ok tt, s)
  | RegUnregister _ => (Ok tt, s)
  | RegHeartbeat _ => (Ok tt, s)
  | RegCleanupStale _ => (Ok [], s)
  | WalAppend _ _ => (Ok tt, s)
  | WalUpdateState _ _ _ => (Ok tt, s)
  | WalReplayPending _ => (Ok [], s)
  | WalFlush _ => (Ok tt, s)
  | WalSchedule _ r => (Ok tt, delay r s)
  | WalFetchReady _ => (Ok (wd_delayed s), s)
  | PipelineRun _ m => ((wd_ack s, m), s)
  | PipelineRunTimeout _ _ m => ((Some (wd_ack s), m), s)
  | GetStatus _ => (wd_status s, s)
  | SetStatus _ _ => (tt, s)
  | ShutdownNotify _ => (tt, s)
  | IsShutdownComplete _ => (true, s)
  | StoreShutdownComplete _ => (tt, s)
  | RouterSetIdle _ _ => (Ok tt, s)
  | RouterSetWorking _ _ => (Ok tt, s)
  | RouterGetWorker w => (Err (EWorkerNotFound w), s)
  | RouterGetAllWorkers => ([], s)
  | RouterDelWorker _ => (Ok tt, s)
  | RouterHasTopic _ => (true, s)
  | RouterLookupWorker _ => (None, s)
  | RouterSelectIdle _ => (None, s)
  | RouterTopicProducer _ => (Some the_producer, s)
  | SpawnProcessOne _ _ => (tt, s)
  | LoadGeneration => (0, s)
  | DispatchWorkers _ => (None, s)
  | LocalInboxes => (∅, s)
  | InboxTrySend _ _ => (Ok tt, s)
  | ReapElapsed => (0, s)
  | ReapReset => (tt, s)
  | ClaimStale _ => (Ok [], s)
  | Claim => (Ok None, s)
  | ClaimBatch _ => (Ok [], s)
  | ClaimAck _ => (Ok tt, s)
  | ClaimNack _ => (Ok tt, s)
  | ShutdownBroadcast => (tt, s)
  | InstantNow => (wd_clock s, s)
  | Elapsed since => (wd_clock s - since, s)
  | AuditRecordEff _ => (Ok tt, s)
  | MetricsUpdate _ => (tt, s)
  | CollectTrace _ _ => (Ok tt, s)
  | SysCpus => ([], s)
  | SysMemory => ((1, 2), s)
  end.

(** A host whose handlers answer [a] and whose workers are in state [st]. *)
Definition world (a : Ack) (st : WorkerStatus) : World :=
  {| wd_clock := 1000; wd_next_uuid := 0; wd_node := Host; wd_queue := [];
     wd_delayed := []; wd_workers := []; wd_ack := a; wd_status := st |}.

(** A worker as [Worker::new] builds it, and a message for it. *)
Open Scope string_scope.
Definition demo_worker (tpc : string) : Worker :=
  {| w_topic := tpc; w_name := "w1"; w_producer := the_producer;
     w_time_out := None; w_shutdown_check_interval := 10; w_shutdown_timeout := Some 25;
     w_wal := {| wc_worker_id := "w1";
                 wc_template := EMessage_new "t1" 1 SYSTEM_TOPIC_WAL_SYNC [] Standard None |};
     w_audit_template := EMessage_new "t2" 1 SYSTEM_TOPIC_AUDIT [] Standard None |}.

Definition demo_message (mode : DeliveryMode) (target : option string) : EMessage :=
  EMessage_new "m1" 500 "orders" [1; 2; 3] mode target.
Close Scope string_scope.
