(* ===== verification/Delivery.v ===== *)
(** * Deliveries over the life of a message

    [process_msg] handles one delivery.  Here successive deliveries are chained
    as a step relation (the message a worker puts back is the next one it
    gets) and the bounds of the code are proved by induction on the chain: a
    repeated message is handled exactly as often as asked, a message that is
    never acknowledged is handled at most [max_retries] times, whether it is
    retried at once or after a delay. *)
From S2P Require Import Prelude Prog Errors Message Codec Runtime Topic Worker WorkerTheorems World.

Section delivery.
Context `{BincodeLaws WalSyncMessage} `{Bincode AuditRecord} `{Bincode ShutdownAck}.

(** An execution of [process_msg] that returns [Ok], in which the pipeline
    answered [st] and left the message as it was. *)
Definition delivered (w : Worker) (st : Ack) (m : EMessage) (t : Trace) : Prop :=
  exec (process_msg w m) t (Done (Ok tt)) ∧ ran t = [(st, m)].

(** The message comes back to the same topic. *)
Definition comes_back (w : Worker) (st : Ack) (m m' : EMessage) : Prop :=
  ∃ t, delivered w st m t ∧ onward (actions t) = [m'] ∧ topic m' = topic m.

Lemma delivered_settles w st m t :
  worker_wf w → is_system w = false → ordinary m → delivered w st m t →
  ∃ r now, actions t = mark w m Processing 0 None :: settle w r now st m.
Proof.
  intros Hw Hs Hm [He Hr].
  pose proof (proj1 (wp_exec _ _) (process_spec w m Hw Hs) _ _ He) as Hp.
  unfold processed in Hp. rewrite Hr in Hp. destruct Hp as (acts & Ha & Hp).
  destruct (Hp Hm) as (r & now & Hacts). simpl in Hacts. subst acts. eauto.
Qed.

(** ** Repeated delivery *)

Lemma ordinary_consumed m k : ordinary m → ordinary (set_consumed_count k m).
Proof. done. Qed.

Lemma repeated_settle w r now m n :
  delivery_mode m = Repeated n →
  onward (settle w r now AckOk m) =
    if decide (n = u32_incr (consumed_count m)) then []
    else [set_consumed_count (u32_incr (consumed_count m)) m].
Proof. intros Hm. simpl. rewrite Hm. simpl. by case_decide. Qed.

Lemma set_consumed_twice m j k :
  set_consumed_count k (set_consumed_count j m) = set_consumed_count k m.
Proof. done. Qed.

Lemma repeated_comes_back w m n m' :
  worker_wf w → is_system w = false → ordinary m → delivery_mode m = Repeated n →
  comes_back w AckOk m m' →
  n ≠ u32_incr (consumed_count m) ∧ m' = set_consumed_count (u32_incr (consumed_count m)) m.
Proof.
  intros Hw Hs Hm Hn (t & Hd & Ho & _).
  destruct (delivered_settles _ _ _ _ Hw Hs Hm Hd) as (r & now & Ha).
  rewrite Ha in Ho. change (onward (?a :: ?l)) with (onward l) in Ho.
  rewrite (repeated_settle _ _ _ _ n) in Ho by done. case_decide; by simplify_eq.
Qed.

Lemma repeated_chain w m n k m' :
  worker_wf w → is_system w = false → ordinary m →
  delivery_mode m = Repeated n → 1 ≤ n < u32_modulus → consumed_count m = 0 →
  nsteps (comes_back w AckOk) k m m' →
  m' = set_consumed_count (Z.of_nat k) m ∧ Z.of_nat k < n.
Proof.
  intros Hw Hs Hm Hn Hr Hc. revert m'. induction k as [|k IH]; intros m' Hst.
  - inversion Hst; subst. split; [|lia]. change (Z.of_nat 0) with 0. rewrite <- Hc. by destruct m'.
  - apply nsteps_inv_r in Hst as (m1 & Hk & Hstep).
    destruct (IH m1 Hk) as [-> Hlt].
    apply (repeated_comes_back _ _ n) in Hstep as [Hne ->]; [|done..].
    simpl in *. rewrite u32_incr_small in * by lia.
    rewrite set_consumed_twice. replace (Z.of_nat (S k)) with (Z.of_nat k + 1) by lia.
    split; [done|]. lia.
Qed.

(** C21. A message with delivery mode [Repeated n], [n] at least one, whose
    deliveries are all acknowledged: after [k] deliveries that brought it
    back it is the same message with [consumed_count = k], [k] is less than
    [n], and the next acknowledged delivery ends its life exactly when it is
    the [n]-th.  It is thus handled exactly [n] times. *)
Theorem repeated_delivered_exactly w m n k m' t :
  worker_wf w → is_system w = false → ordinary m →
  delivery_mode m = Repeated n → 1 ≤ n < u32_modulus → consumed_count m = 0 →
  nsteps (comes_back w AckOk) k m m' →
  delivered w AckOk m' t →
  m' = set_consumed_count (Z.of_nat k) m ∧ Z.of_nat k < n ∧
  (onward (actions t) = [] ↔ Z.of_nat k + 1 = n).
Proof.
  intros Hw Hs Hm Hn Hr Hc Hst Ht.
  destruct (repeated_chain _ _ n _ _ Hw Hs Hm Hn Hr Hc Hst) as [-> Hk].
  split_and!; [done..|].
  destruct (delivered_settles _ _ _ _ Hw Hs (ordinary_consumed _ _ Hm) Ht) as (r & now & ->).
  change (onward (?a :: ?l)) with (onward l). rewrite (repeated_settle _ _ _ _ n) by done.
  simpl. rewrite u32_incr_small by lia. case_decide; split; intros; try done; lia.
Qed.

(** Boundary of the above: with [Repeated 0] an acknowledged first
    delivery does not end the life of the message; it is put back with
    [consumed_count = 1], and stays in circulation until the counter has
    wrapped around. *)
Theorem repeated_zero_comes_back w m t :
  worker_wf w → is_system w = false → ordinary m →
  delivery_mode m = Repeated 0 → consumed_count m = 0 →
  delivered w AckOk m t → onward (actions t) = [set_consumed_count 1 m].
Proof.
  intros Hw Hs Hm Hn Hc Ht.
  destruct (delivered_settles _ _ _ _ Hw Hs Hm Ht) as (r & now & ->).
  change (onward (?a :: ?l)) with (onward l). rewrite (repeated_settle _ _ _ _ 0) by done.
  by rewrite Hc.
Qed.

(** ** Retries *)

Lemma ordinary_attempts m k : ordinary m → ordinary (set_attempts k m).
Proof. done. Qed.

Definition is_letter (w : Worker) (m : EMessage) : bool :=
  bool_decide (topic m = dead_letter_topic w).

(** The delivery time a retry sets, from the delay and the clock. *)
Definition retry_at (now : SystemTime) (ra : option Duration) : option SystemTime :=
  match ra with Some d => checked_add now d | None => None end.

Lemma retry_settle w r now m ra mx :
  deliver_at m = None →
  onward (settle w r now (NoAck ra mx) m) =
    let m1 := set_attempts (u32_incr (attempts m)) m in
    [if decide (attempts m1 >= mx) then letter w m1 else set_deliver_at (retry_at now ra) m1].
Proof.
  intros Hd. destruct m; simpl in Hd. subst. simpl. unfold bury, router_action, retry_at. simpl.
  case_decide; [done|]. destruct ra as [d|]; simpl; [by destruct (checked_add now d)|done].
Qed.

(** How a message put back is delivered again: one without delivery time
    comes from the queue, one with a delivery time from the WAL, when a round
    of the scheduler is handed its record (and no broadcast). *)
Inductive delivered_again (m1 : EMessage) : EMessage → Prop :=
  | from_queue : deliver_at m1 = None → delivered_again m1 m1
  | when_due r t i m' :
      exec (scheduler_tick r) t (Done tt) →
      Forall (λ rc, delivery_mode (message rc) ≠ Broadcast) (fetched t) →
      fetched t !! i = Some (WalRecord_from_msg m1) → (attempted t).*2 !! i = Some m' →
      delivered_again m1 m'.

Lemma delivered_again_same m1 m' : delivered_again m1 m' → m' = set_deliver_at None m1.
Proof.
  intros [Hd|r t i m1' He Hb Hf Ha].
  - destruct m1; simpl in Hd. by subst.
  - pose proof (proj1 (wp_exec _ _) (scheduler_pushes_each_due_once r) _ _ He Hb) as [Hat _].
    rewrite Hat, list_lookup_fmap, Hf in Ha. by injection Ha as <-.
Qed.

(** A delivery that ends in a retry, at once or after a delay, with bound
    [mx]; the message comes back to its topic and is delivered again. *)
Definition retried (w : Worker) (mx : Z) (m m' : EMessage) : Prop :=
  ∃ ra t m1, delivered w (NoAck ra mx) m t ∧ onward (actions t) = [m1] ∧ topic m1 = topic m ∧
    delivered_again m1 m'.

Lemma retried_once w m mx m' :
  worker_wf w → is_system w = false → ordinary m → deliver_at m = None →
  topic m ≠ dead_letter_topic w → retried w mx m m' →
  u32_incr (attempts m) < mx ∧ m' = set_attempts (u32_incr (attempts m)) m.
Proof.
  intros Hw Hs Hm Hd Htp (ra & t & m1 & Hdel & Ho & Ht & Hag).
  destruct (delivered_settles _ _ _ _ Hw Hs Hm Hdel) as (r & now & Ha).
  rewrite Ha in Ho. change (onward (?a :: ?l)) with (onward l) in Ho.
  rewrite retry_settle in Ho by done. simpl in Ho. apply delivered_again_same in Hag as ->.
  case_decide; simplify_eq. split; [lia|]. destruct m; simpl in Hd. by subst.
Qed.

Lemma retry_chain w m mx k m' :
  worker_wf w → is_system w = false → ordinary m → deliver_at m = None →
  topic m ≠ dead_letter_topic w → attempts m = 0 → mx < u32_modulus →
  nsteps (retried w mx) k m m' →
  m' = set_attempts (Z.of_nat k) m ∧ (k = 0%nat ∨ Z.of_nat k < mx).
Proof.
  intros Hw Hs Hm Hd Htp Hat Hmx. revert m'. induction k as [|k IH]; intros m' Hst.
  - inversion Hst; subst. split; [|by left]. change (Z.of_nat 0) with 0. rewrite <- Hat. by destruct m'.
  - apply nsteps_inv_r in Hst as (m1 & Hk & Hstep).
    destruct (IH m1 Hk) as [-> Hlt].
    apply retried_once in Hstep as [Hne ->]; [|done..]. simpl in *.
    assert (Z.of_nat k + 1 < u32_modulus).
    { destruct Hlt as [->|]; [|lia]. unfold u32_modulus. lia. }
    rewrite u32_incr_small in * by lia.
    replace (Z.of_nat (S k)) with (Z.of_nat k + 1) by lia. split; [done|]. right. lia.
Qed.

(** C20. Retries are bounded, immediate and delayed ones: an ordinary fresh
    message, which the pipeline leaves as it was, in a worker of a non-system
    topic.  When its deliveries all end in a retry with bound [max_retries],
    each with a delay of its own or none, it has after [k] deliveries that
    brought it back [attempts = k < max_retries] (or [k = 0]); the next such
    delivery turns it into a dead letter, with the stamp cleared and the topic
    [dead_letter.<topic>], exactly when it is the [max_retries]-th; before, it
    is put back with one more attempt, and due at once when no delay was asked
    for. *)
Theorem retries_bounded w m ra mx k m' t :
  worker_wf w → is_system w = false → ordinary m → deliver_at m = None →
  topic m ≠ dead_letter_topic w → attempts m = 0 → mx < u32_modulus →
  nsteps (retried w mx) k m m' →
  delivered w (NoAck ra mx) m' t →
  (k = 0%nat ∨ Z.of_nat k < mx) ∧ m' = set_attempts (Z.of_nat k) m ∧
  let m1 := set_attempts (Z.of_nat k + 1) m in
  ∃ now, onward (actions t) =
    [if decide (Z.of_nat k + 1 >= mx) then letter w m1 else set_deliver_at (retry_at now ra) m1].
Proof.
  intros Hw Hs Hm Hd Htp Hat Hmx Hst Ht.
  destruct (retry_chain _ _ mx _ _ Hw Hs Hm Hd Htp Hat Hmx Hst) as [-> Hk].
  split_and!; [done..|].
  destruct (delivered_settles _ _ _ _ Hw Hs (ordinary_attempts _ _ Hm) Ht) as (r & now & ->).
  change (onward (?a :: ?l)) with (onward l). exists now. rewrite retry_settle by done. simpl.
  rewrite u32_incr_small; [done|lia|].
  destruct Hk as [->|]; [unfold u32_modulus|]; lia.
Qed.

(** ** Dead letters *)

(** A handler's [Dead reason]: the WAL gets [Processing] and then
    [Failed] with the text of that reason, under the original topic and
    under the dead-letter topic, and one letter goes to the router's
    producer: same id and payload, topic [dead_letter.<topic>], no
    [to_worker] stamp. *)
Theorem dead_letter_agrees w m reason t :
  worker_wf w → is_system w = false → ordinary m → deliver_at m = None →
  delivered w (Dead reason) m t →
  ∃ p l, id l = id m ∧ payload l = payload m ∧ topic l = dead_letter_topic w ∧
    to_worker l = None ∧
    actions t =
      [mark w m Processing 0 None;
       mark w m Failed (attempts m) (Some (dead_reason_display reason));
       mark w l Failed (attempts m) (Some (dead_reason_display reason));
       AForward p l].
Proof.
  intros Hw Hs Hm Hd Ht.
  destruct (delivered_settles _ _ _ _ Hw Hs Hm Ht) as (r & now & ->).
  exists (tr_producer r), (letter w m). split_and!; try done.
  simpl. unfold bury, router_action. simpl. by rewrite Hd.
Qed.

Lemma onward_forwards p (ms : list EMessage) :
  Forall (λ m, control_topic (topic m) = false) ms →
  onward (((λ m, (p, m)) <$> ms) ≫= push_action) = ms.
Proof.
  induction 1 as [|m ms Hm _ IH]; [done|]. rewrite fmap_cons, bind_cons, push_forward by done. simpl.
  by f_equal.
Qed.

Lemma broadcast_letter_sent r w m :
  delivery_mode m = Broadcast → deliver_at m = None →
  wp (topic_send r (dead_letter_topic w) (letter w m) None None) (λ t o,
    match o with
    | Done (Ok _) => ∃ ws, listed t = [ws] ∧ length (onward (actions t)) = length ws
    | _ => True
    end).
Proof.
  intros Hm Hd. unfold topic_send. rewrite decide_True by done.
  change (deliver_at (letter w m)) with (deliver_at m). rewrite Hd.
  unfold get_node_type, registry_global. cbn [call bind expect wp].
  intros [nt|]; cbn [bind expect wp]; [|done]. case_decide; cbn [wp]; [done|].
  intros [[]|]; cbn [bind expect wp]; [|done]. intros [ws|e]; cbn [wp]; [|done].
  eapply wp_mono, emit_all_spec.
  intros t o (res & -> & (n & Hs & Ha) & Hsc & _ & Hl & _).
  destruct res; [|done]. destruct Ha as [-> _]. exists ws. split; [csimpl; by rewrite Hl|].
  rewrite !actions_cons. simpl. rewrite actions_sent, Hs by done.
  rewrite take_ge by done. rewrite onward_forwards; [by rewrite length_fmap|].
  apply Forall_fmap, Forall_true. done.
Qed.

(** Boundary of the above: the letter of a broadcast copy keeps its
    delivery mode, so the router fans it out.  When the dead-lettering
    returns [Ok], the letters sent are one per worker registered for the
    dead-letter topic, and none at all when nobody is registered there. *)
Theorem broadcast_letter_fans_out w m reason pt :
  worker_wf w → delivery_mode m = Broadcast → deliver_at m = None →
  wp (send_to_dead_letter w m reason pt) (λ t o,
    o = Done (Ok tt) →
    ∃ ws, listed t = [ws] ∧ length (onward (actions t)) = length ws).
Proof.
  intros Hw Hm Hd. unfold send_to_dead_letter.
  eapply wp_seq_ok; [apply wp_and;
    [apply push_lists_nothing, sync_status_only|by apply mark_performs]|..]; [|done..].
  intros t0 [] [Hl0 Ha0]. simpl in Ha0. unfold topic_router_global. cbn [call bind expect wp].
  intros [r|]; cbn [bind expect wp]; [|done].
  eapply wp_seq_ok; [by apply broadcast_letter_sent|..]; [|done..].
  intros t1 [] (ws & Hl1 & Ho1).
  eapply wp_seq; [apply wp_and;
    [apply push_lists_nothing, audit_only|by apply audit_performs, Hw]|..]; [|done].
  intros t2 [] [Hl2 Ha2]. cbn [wp]. intros _. exists ws. simpl in Ho1.
  rewrite listed_app, actions_app, actions_cons, Hl0, Ha0.
  change (listed (Ev TopicRouterCell ?x :: ?l)) with (listed l).
  rewrite !listed_app, !actions_app, Hl1, Hl2, Ha2. simpl. by rewrite !app_nil_r.
Qed.

(** ** Targeted messages *)

(** The pipeline does not run, whatever the effects answer. *)
Definition never_runs {A} (p : Prog A) : Prop := wp p (λ t _, ran t = []).

(** A message addressed to another worker is never handed to the
    pipeline, on either loop of [Worker::start]. *)
Theorem misrouted_never_processed inbox w m :
  is_misrouted w m = true →
  never_runs (on_message inbox w (Some m)).
Proof.
  intros Hm. apply ran_nothing. unfold on_message, route_targeted, set_local_status, set_status.
  rewrite Hm. destruct inbox; only_solve.
Qed.

(** ** System topics *)

(** On a system topic the worker runs the pipeline once and returns
    [Ok], whatever the acknowledgement: it sends nothing, neither reports
    nor audits nor retries nor letters. *)
Theorem system_topic_runs_silently w m :
  is_system w = true →
  wp (process_msg w m) (λ t o,
    o = Done (Ok tt) ∧ length (ran t) = 1%nat ∧ attempted t = [] ∧ scheduled t = []).
Proof.
  intros Hs. unfold process_msg, run_pipeline. rewrite Hs. simpl. intros now.
  destruct (w_time_out w); simpl; intros [st m']; done.
Qed.
End delivery.

(** ** The hypotheses can hold *)

Import SerCodec.
Open Scope string_scope.

Lemma demo_worker_wf tpc : worker_wf (demo_worker tpc).
Proof. done. Qed.

Lemma demo_ordinary mode target : mode ≠ Broadcast → ordinary (demo_message mode target).
Proof. done. Qed.

(** The trace of a delivery to the demo worker on the demo node. *)
Definition demo_trace (st : Ack) (m : EMessage) : Trace :=
  run_trace serve (process_msg (demo_worker "orders") m) (world st Idle).

Lemma demo_delivered st m :
  run_outcome serve (process_msg (demo_worker "orders") m) (world st Idle) = Done (Ok tt) →
  ran (demo_trace st m) = [(st, m)] →
  delivered (demo_worker "orders") st m (demo_trace st m).
Proof.
  intros Ho Hr. split; [|done].
  pose proof (exec_run serve (process_msg (demo_worker "orders") m) (world st Idle)) as He.
  by rewrite Ho in He.
Qed.

Lemma process_msg_refines_settle_witness :
  let w := demo_worker "orders" in
  let m := demo_message Standard None in
  wp (process_msg w m) (processed w m) ∧
  actions (demo_trace AckOk m) = [mark w m Processing 0 None; mark w m Complete 0 None].
Proof.
  split; [|vm_compute; reflexivity].
  apply (process_msg_refines_settle (demo_worker "orders") (demo_message Standard None));
    [apply demo_worker_wf|reflexivity].
Defined.

Lemma processed_message_conserved_witness :
  let w := demo_worker "orders" in
  let m := demo_message Standard None in
  onward (actions (demo_trace (NoAck None 3) m)) = [set_attempts 1 m] ∧
  wp (process_msg w m) (λ t o,
      o = Done (Ok tt) →
      ∃ st m', ran t = [(st, m')] ∧ (ordinary m' →
        existsb completes (actions t) = final st m' ∧
        if final st m' then onward (actions t) = []
        else ∃ m'', onward (actions t) = [m''] ∧ id m'' = id m' ∧ payload m'' = payload m')).
Proof.
  split; [vm_compute; reflexivity|].
  apply (processed_message_conserved (demo_worker "orders") (demo_message Standard None));
    [apply demo_worker_wf|reflexivity].
Defined.

Lemma repeated_delivered_exactly_witness :
  let w := demo_worker "orders" in
  let m := demo_message (Repeated 2) None in
  let m1 := set_consumed_count 1 m in
  m1 = set_consumed_count (Z.of_nat 1) m ∧ Z.of_nat 1 < 2 ∧
  (onward (actions (demo_trace AckOk m1)) = [] ↔ Z.of_nat 1 + 1 = 2).
Proof.
  intros w m m1. apply (repeated_delivered_exactly w m 2 1 m1 (demo_trace AckOk m1)).
  - apply demo_worker_wf.
  - reflexivity.
  - by apply demo_ordinary.
  - reflexivity.
  - unfold u32_modulus. lia.
  - reflexivity.
  - apply nsteps_once. exists (demo_trace AckOk m). split_and!.
    + apply demo_delivered; vm_compute; reflexivity.
    + vm_compute. reflexivity.
    + reflexivity.
  - apply demo_delivered; vm_compute; reflexivity.
Defined.

Lemma repeated_zero_comes_back_witness :
  let m := demo_message (Repeated 0) None in
  onward (actions (demo_trace AckOk m)) = [set_consumed_count 1 m].
Proof.
  intros m. apply (repeated_zero_comes_back (demo_worker "orders") m);
    [apply demo_worker_wf|reflexivity|by apply demo_ordinary|reflexivity|reflexivity|].
  apply demo_delivered; vm_compute; reflexivity.
Defined.

(** A node whose delayed store holds one record. *)
Definition delayed_world (m : EMessage) : World :=
  {| wd_clock := 1000; wd_next_uuid := 0; wd_node := Host; wd_queue := [];
     wd_delayed := [WalRecord_from_msg m]; wd_workers := []; wd_ack := AckOk; wd_status := Idle |}.

(** A retry after 30 ms, then an immediate one that is the second of two. *)
Lemma retries_bounded_witness :
  let w := demo_worker "orders" in
  let m := demo_message Standard None in
  let m1 := set_attempts 1 m in
  (1%nat = 0%nat ∨ Z.of_nat 1 < 2) ∧ m1 = set_attempts (Z.of_nat 1) m ∧
  let m2 := set_attempts (Z.of_nat 1 + 1) m in
  ∃ now, onward (actions (demo_trace (NoAck None 2) m1)) =
    [if decide (Z.of_nat 1 + 1 >= 2) then letter w m2 else set_deliver_at (retry_at now None) m2].
Proof.
  intros w m m1. apply (retries_bounded w m None 2 1 m1 (demo_trace (NoAck None 2) m1)).
  - apply demo_worker_wf.
  - reflexivity.
  - by apply demo_ordinary.
  - reflexivity.
  - discriminate.
  - reflexivity.
  - unfold u32_modulus. lia.
  - apply nsteps_once. set (t := demo_trace (NoAck (Some 30) 2) m).
    destruct (onward (actions t)) as [|mr l] eqn:E; [vm_compute in E; discriminate|].
    assert (l = [] ∧ set_deliver_at None mr = m1 ∧ topic mr = topic m) as (-> & Hmr & Ht).
    { vm_compute in E. injection E as <- <-. done. }
    exists (Some 30), t, mr. split_and!; [|done..|].
    + apply demo_delivered; vm_compute; reflexivity.
    + pose proof (exec_run serve (scheduler_tick the_router) (delayed_world mr)) as He.
      set (ts := run_trace serve (scheduler_tick the_router) (delayed_world mr)) in He.
      vm_compute in E. injection E as <-.
      apply (when_due _ the_router ts 0); [exact He|..].
      * vm_compute. repeat constructor. discriminate.
      * vm_compute. reflexivity.
      * vm_compute. reflexivity.
  - apply demo_delivered; vm_compute; reflexivity.
Defined.

Lemma dead_letter_agrees_witness :
  let w := demo_worker "orders" in
  let m := demo_message Standard (Some "w1") in
  ∃ p l, id l = id m ∧ payload l = payload m ∧ topic l = dead_letter_topic w ∧
    to_worker l = None ∧
    actions (demo_trace (Dead TimeoutReason) m) =
      [mark w m Processing 0 None;
       mark w m Failed (attempts m) (Some (dead_reason_display TimeoutReason));
       mark w l Failed (attempts m) (Some (dead_reason_display TimeoutReason));
       AForward p l].
Proof.
  intros w m. apply (dead_letter_agrees w m TimeoutReason);
    [apply demo_worker_wf|reflexivity|by apply demo_ordinary|reflexivity|].
  apply demo_delivered; vm_compute; reflexivity.
Defined.

Lemma broadcast_letter_fans_out_witness :
  let w := demo_worker "orders" in
  let m := demo_message Broadcast (Some "w1") in
  let p := send_to_dead_letter w m Explicit 0 in
  run_outcome serve p (world AckOk Idle) = Done (Ok tt) ∧
  onward (actions (run_trace serve p (world AckOk Idle))) = [] ∧
  wp p (λ t o, o = Done (Ok tt) →
      ∃ ws, listed t = [ws] ∧ length (onward (actions t)) = length ws).
Proof.
  split; [vm_compute; reflexivity|]. split; [vm_compute; reflexivity|].
  apply (broadcast_letter_fans_out (demo_worker "orders") (demo_message Broadcast (Some "w1")));
    [apply demo_worker_wf|reflexivity..].
Defined.

Lemma misrouted_never_processed_witness :
  let m := demo_message Standard (Some "w2") in
  wp (on_message true (demo_worker "orders") (Some m)) (λ t _, ran t = []).
Proof.
  intros m. apply (misrouted_never_processed true (demo_worker "orders") m). reflexivity.
Defined.

Lemma system_topic_runs_silently_witness :
  let w := demo_worker SYSTEM_TOPIC_SHUTDOWN in
  let m := demo_message Standard None in
  wp (process_msg w m) (λ t o,
    o = Done (Ok tt) ∧ length (ran t) = 1%nat ∧ attempted t = [] ∧ scheduled t = []).
Proof.
  intros w m. apply (system_topic_runs_silently w m). reflexivity.
Defined.

Close Scope string_scope.
