(* ===== verification/WorkerShutdown.v ===== *)
(** * Shutdown of a worker: [Worker::shutdown]

    The waiting loop ends, as soon as the worker is idle and at the latest one
    check interval after the timeout, and the acknowledgement that is sent
    names the worker. *)
From S2P Require Import Prelude Prog Errors Message Codec Runtime Topic Worker World.

(** ** Termination of the waiting loop *)

Lemma wait_idle_eq fuel w ci timeout start :
  wait_idle (S fuel) w ci timeout start =
    (st <- call (GetStatus (w_name w)) ;;
     if decide (st = Working) then
       over <- match timeout with
               | Some d =>
                   now <- call Now ;;
                   Ret (bool_decide (unwrap_or (duration_since now start) 0 > d))
               | None => Ret false
               end ;;
       if over : bool then Ret (Some tt)
       else call (Sleep ci) ;;; wait_idle fuel w ci timeout start
     else Ret (Some tt)).
Proof. done. Qed.

Section termination.
Context {S : Type} (h : ∀ X, Eff X → S → X * S) (clock : S → SystemTime).

(** A clock that is read truthfully, never goes back and advances by at
    least the length of a sleep. *)
Record clock_runs : Prop := {
  clock_now : ∀ s, (h _ Now s).1 = clock s;
  clock_mono : ∀ X (e : Eff X) s, clock s ≤ clock (h X e s).2;
  clock_sleep : ∀ d s, clock s + d ≤ clock (h _ (Sleep d) s).2
}.

Lemma wait_idle_terminates (w : Worker) ci d start fuel s :
  clock_runs → 0 < ci → 0 ≤ d → start + d < clock s + Z.of_nat fuel * ci →
  run_outcome h (wait_idle (Datatypes.S fuel) w ci (Some d) start) s = Done (Some tt).
Proof.
  intros Hc Hci Hd. revert s. induction fuel as [|fuel IH]; intros s Hf;
    rewrite wait_idle_eq; cbn [call bind]; rewrite run_outcome_vis;
    pose proof (clock_mono Hc _ (GetStatus (w_name w)) s) as Hm1;
    destruct (h _ (GetStatus (w_name w)) s) as [st s1]; simpl in Hm1; cbn [fst snd bind];
    (case_decide; [|done]); cbn [bind]; rewrite run_outcome_vis;
    pose proof (clock_mono Hc _ Now s1) as Hm2; rewrite (clock_now Hc s1); cbn [bind].
  - rewrite bool_decide_true; [done|]. unfold duration_since.
    rewrite decide_True by lia. simpl. lia.
  - case_bool_decide as Hover; [done|]. rewrite run_outcome_vis. apply IH.
    pose proof (clock_sleep Hc ci (h _ Now s1).2). lia.
Qed.

(** After the wait, [shutdown] goes on without loops. *)
Lemma shutdown_ends `{Bincode ShutdownAck} fuel (w : Worker) ci d s :
  (let s1 := (h _ (ShutdownNotify (w_name w)) s).2 in
   run_outcome h (wait_idle fuel w ci d (h _ Now s1).1) (h _ Now s1).2 = Done (Some tt)) →
  run_outcome h (shutdown fuel w ci d) s ≠ Done None.
Proof.
  cbv zeta. intros Hw. unfold shutdown. cbn [call bind].
  rewrite !run_outcome_vis, run_outcome_bind, Hw. clear Hw. cbn [call bind].
  rewrite run_outcome_vis.
  destruct (bincode_encode _); [|done]. unfold new_message, topic_router_global.
  cbn [call bind expect]. rewrite !run_outcome_vis, run_outcome_bind.
  destruct (h _ TopicRouterCell _) as [[r|] s3]; cbn [fst snd expect]; [|done].
  unfold run_outcome at 1. cbn [run fst snd]. rewrite run_outcome_bind.
  by destruct (run_outcome _ _ _).
Qed.

(** With a zero timeout one look at the worker is enough, on a clock whose
    readings are all different. *)
Lemma shutdown_now_ends `{Bincode ShutdownAck} fuel (w : Worker) ci s :
  clock_runs → (∀ s, clock s < clock (h _ Now s).2) →
  run_outcome h (shutdown (Datatypes.S fuel) w ci (Some 0)) s ≠ Done None.
Proof.
  intros Hc Ht. apply shutdown_ends. cbv zeta. rewrite (clock_now Hc).
  set (s1 := (h _ (ShutdownNotify (w_name w)) s).2). specialize (Ht s1).
  set (s2 := (h _ Now s1).2) in *. rewrite wait_idle_eq. cbn [call bind].
  rewrite run_outcome_vis. pose proof (clock_mono Hc _ (GetStatus (w_name w)) s2) as Hm.
  destruct (h _ (GetStatus (w_name w)) s2) as [st s3]. simpl in Hm. cbn [fst snd bind].
  case_decide; [|done]. cbn [bind]. rewrite run_outcome_vis, (clock_now Hc). cbn [bind].
  rewrite bool_decide_true; [done|]. unfold duration_since. rewrite decide_True by lia.
  simpl. lia.
Qed.

(** C35. [Worker::shutdown] with a timeout and a positive check interval
    ends on every system whose clock runs, even if the worker never becomes
    idle: as many rounds as check intervals fit into the timeout, and one
    more, are enough for the waiting loop. *)
Theorem worker_shutdown_terminates `{Bincode ShutdownAck} (w : Worker) ci d fuel s :
  clock_runs → 0 < ci → 0 ≤ d → d < Z.of_nat fuel * ci →
  run_outcome h (shutdown (Datatypes.S fuel) w ci (Some d)) s ≠ Done None.
Proof.
  intros Hc Hci Hd Hf. apply shutdown_ends. cbv zeta. rewrite (clock_now Hc).
  pose proof (clock_mono Hc _ Now (h _ (ShutdownNotify (w_name w)) s).2).
  apply wait_idle_terminates; done || lia.
Qed.
End termination.

(** ** The acknowledgement *)

Section ack.
Context `{BincodeLaws ShutdownAck}.

(** The one message a trace pushed is the acknowledgement of [w]. *)
Definition acknowledges (w : Worker) (t : Trace) : Prop :=
  ∃ k p m a, attempted t = [(k, p, m)] ∧ topic m = SYSTEM_TOPIC_SHUTDOWN_ACK ∧
    decode_payload (payload m) = Some a ∧ sa_worker_name a = w_name w ∧
    sa_status a = ShCompleted.

Lemma wait_idle_pushes_nothing fuel w ci d start :
  wp (wait_idle fuel w ci d start) (λ t _, attempted t = []).
Proof.
  apply (only_obs (λ X e, match e with GetStatus _ | Now | Sleep _ => True | _ => False end)).
  { by intros X [] x. }
  induction fuel as [|fuel IH]; [done|]. rewrite wait_idle_eq. only_solve.
Qed.

Lemma worker_shutdown_ack_spec fuel w ci d :
  wp (shutdown fuel w ci d) (λ t o,
    o = Done (Some (Ok tt)) →
    acknowledges w t).
Proof.
  unfold shutdown. cbn [call bind wp]. intros x start.
  eapply wp_seq; [apply wait_idle_pushes_nothing| |done].
  intros t0 [[]|] Ht0; [|done]. cbn [call bind wp]. intros now.
  destruct (bincode_encode _) as [pl|e] eqn:Epl; [|done].
  unfold new_message, topic_router_global. cbn [call bind expect wp]. intros u now2.
  intros [r|]; cbn [bind expect wp]; [|done].
  eapply wp_seq; [by apply send_plain_spec| |naive_solver].
  intros t1 res (dflt & res' & [= <-] & Ha & _). cbn [wp]. intros _.
  eexists _, _, _, _. split_and!.
  - rewrite app_nil_r. cbn. change (mbind ev_attempted) with attempted.
    rewrite attempted_app, Ht0. simpl. exact Ha.
  - done.
  - by apply decode_encoded in Epl.
  - done.
  - done.
Qed.

(** A shutdown that returns [Ok] has pushed exactly one message, on
    the topic [_system.shutdown_ack], whose payload decodes to an
    acknowledgement with the worker's name and the status [Completed], also
    when the wait ended by the timeout. *)
Theorem worker_shutdown_acknowledges fuel w ci d :
  wp (shutdown fuel w ci d) (λ t o,
    o = Done (Some (Ok tt)) →
    acknowledges w t).
Proof. apply worker_shutdown_ack_spec. Qed.
End ack.

(** ** The hypotheses can hold *)

Import SerCodec.

Lemma world_clock_runs : clock_runs serve wd_clock.
Proof. split; [done| |simpl; intros; lia]. intros X e sw; destruct e; simpl; lia. Qed.

Lemma world_clock_ticks s : wd_clock s < wd_clock (serve _ Now s).2.
Proof. simpl. lia. Qed.

Lemma worker_shutdown_acknowledges_witness :
  wp (shutdown 4 (demo_worker "orders") 10 None) (λ t o,
    o = Done (Some (Ok tt)) →
    acknowledges (demo_worker "orders") t).
Proof. apply (worker_shutdown_acknowledges 4 (demo_worker "orders") 10 None). Defined.

Lemma worker_shutdown_terminates_witness :
  wd_status (world AckOk Working) = Working ∧
  run_outcome serve (shutdown 4 (demo_worker "orders") 10 (Some 25)) (world AckOk Working)
    ≠ Done None.
Proof.
  split; [reflexivity|].
  apply (worker_shutdown_terminates serve wd_clock (demo_worker "orders") 10 25 3);
    [apply world_clock_runs|lia..].
Defined.
