(* ===== verification/Queues.v ===== *)
(** * Queue backends: [event_base_queue/src/{flume,mpmc,crossfire}.rs], [queues/mod.rs]

    The three in-memory backends.  The channels they are built on ([flume],
    [tokio_mpmc], [crossfire]) are crates outside the repository: [Channel] is
    what the code calls of them and [ChannelLaws] the documented behaviour (a
    bounded FIFO).  [MessageQueue] is the pair of traits [EProducer] / [EConsumer]
    as operations on a state (the channel and the pending claims), and
    [MessageQueueLaws] what the rest of the system relies on; each backend is an
    instance. *)
From S2P Require Import Prelude Errors Message Runtime.

(** ** Polls

    The result of polling one of the asynchronous operations: a value, not
    ready yet ([Waiting], the task yields), or a call that blocks the thread
    it runs on ([Stuck], nothing else is polled on that task). *)
Inductive poll (A : Type) : Type :=
| Ready (a : A)
| Waiting
| Stuck.
Arguments Ready {A} a.
Arguments Waiting {A}.
Arguments Stuck {A}.

(** [tokio::time::timeout(d, fut)]: the future is polled first, then the
    deadline; a future that blocks the thread leaves the deadline unpolled. *)
Definition timeout_poll (elapsed : bool) (p : poll (Res unit)) : poll (Res unit) :=
  match p with
  | Ready r => Ready r
  | Waiting => if elapsed then Ready (Err (EQueue QTimeout)) else Waiting
  | Stuck => Stuck
  end.

(** ** Channels *)

Inductive SendResult (Ch : Type) : Type :=
| Sent (c : Ch)
| Full
| Disconnected (why : string).
Arguments Sent {Ch} c.
Arguments Full {Ch}.
Arguments Disconnected {Ch} why.

Inductive RecvResult (Ch : Type) : Type :=
| Received (m : EMessage) (c : Ch)
| NothingYet
| Closed.
Arguments Received {Ch} m c.
Arguments NothingYet {Ch}.
Arguments Closed {Ch}.

Class Channel (Ch : Type) : Type := {
  ch_bounded : nat → Ch;
  ch_unbounded : Ch;
  ch_send : EMessage → Ch → SendResult Ch;
  ch_recv : Ch → RecvResult Ch;
  ch_is_full : Ch → bool;
  ch_len : Ch → nat
}.

Class ChannelLaws (Ch : Type) `{Channel Ch} : Type := {
  ch_items : Ch → list EMessage;
  ch_items_bounded : ∀ n, ch_items (ch_bounded n) = [];
  ch_items_unbounded : ch_items ch_unbounded = [];
  ch_send_items : ∀ m c c', ch_send m c = Sent c' → ch_items c' = ch_items c ++ [m];
  ch_send_room : ∀ m c, ch_send m c = Full ↔ ch_is_full c = true;
  ch_recv_items : ∀ c m c', ch_recv c = Received m c' → ch_items c = m :: ch_items c';
  ch_recv_empty : ∀ c, ch_recv c = NothingYet ∨ ch_recv c = Closed ↔ ch_items c = [];
  ch_len_items : ∀ c, ch_len c = length (ch_items c)
}.

(** The state of a consumer: the shared channel and its pending claims. *)
Record QState (Ch : Type) : Type := {
  q_chan : Ch;
  q_pending : gmap string EMessage
}.
Arguments q_chan {Ch} _.
Arguments q_pending {Ch} _.
Arguments Build_QState {Ch} _ _.

Definition with_chan {Ch} (c : Ch) (s : QState Ch) : QState Ch :=
  {| q_chan := c; q_pending := q_pending s |}.

(** UUIDs and clock readings drawn by a batch, in order. *)
Definition Supply : Type := nat → string * SystemTime.

(** ** The traits [EProducer] and [EConsumer] *)

Class MessageQueue (Ch : Type) : Type := {
  send : EMessage → QState Ch → poll (Res unit) * QState Ch;
  try_send : EMessage → QState Ch → poll (Res unit) * QState Ch;
  send_timeout : EMessage → bool → QState Ch → poll (Res unit) * QState Ch;
  receive : QState Ch → poll (option EMessage) * QState Ch;
  claim : Supply → QState Ch → poll (Res (option ClaimedMessage)) * QState Ch;
  claim_batch : nat → Supply → QState Ch → poll (Res (list ClaimedMessage)) * QState Ch;
  ack : string → QState Ch → poll (Res unit) * QState Ch;
  nack : string → QState Ch → poll (Res unit) * QState Ch
}.

(** ** Steps the backends share *)

Section shared.
Context {Ch : Type} `{Channel Ch}.

(** [pending.insert(claim_id, msg); ClaimedMessage { .. }]. *)
Definition claim_as (idt : string * SystemTime) (m : EMessage) (c : Ch) (s : QState Ch)
    : ClaimedMessage * QState Ch :=
  ({| cm_message := m; cm_claim_id := idt.1; cm_claimed_at := idt.2 |},
   {| q_chan := c; q_pending := <[idt.1 := m]> (q_pending s) |}).

(** [for _ in 0..n { match rx.try_recv() { Ok(msg) => claim it, Err(_) => break } }]. *)
Fixpoint try_batch (n : nat) (sup : Supply) (i : nat) (s : QState Ch)
    : list ClaimedMessage * QState Ch :=
  match n with
  | O => ([], s)
  | S n =>
      match ch_recv (q_chan s) with
      | Received m c =>
          let '(cm, s1) := claim_as (sup i) m c s in
          let '(batch, s2) := try_batch n sup (S i) s1 in
          (cm :: batch, s2)
      | _ => ([], s)
      end
  end.

(** An awaited receive ([recv_async], [recv]). *)
Definition await_recv (s : QState Ch) : poll (option (EMessage * Ch)) :=
  match ch_recv (q_chan s) with
  | Received m c => Ready (Some (m, c))
  | NothingYet => Waiting
  | Closed => Ready None
  end.
End shared.

(** ** [flume.rs] *)

Module Flume.
Section flume.
Context {Ch : Type} `{Channel Ch}.

Definition queue_new (capacity : nat) : QState Ch :=
  {| q_chan := if decide (0 < capacity)%nat then ch_bounded capacity else ch_unbounded;
     q_pending := ∅ |}.

(** [tx.send(e)] is flume's synchronous send: on a full channel it blocks the
    thread. *)
Definition send (m : EMessage) (s : QState Ch) : poll (Res unit) * QState Ch :=
  match ch_send m (q_chan s) with
  | Sent c => (Ready (Ok tt), with_chan c s)
  | Full => (Stuck, s)
  | Disconnected why => (Ready (Err (EQueue (QSend why))), s)
  end.

Definition try_send (m : EMessage) (s : QState Ch) : poll (Res unit) * QState Ch :=
  match ch_send m (q_chan s) with
  | Sent c => (Ready (Ok tt), with_chan c s)
  | _ => (Ready (Err (EQueue QFull)), s)
  end.

Definition send_timeout (m : EMessage) (elapsed : bool) (s : QState Ch)
    : poll (Res unit) * QState Ch :=
  let '(p, s') := send m s in (timeout_poll elapsed p, s').

Definition receive (s : QState Ch) : poll (option EMessage) * QState Ch :=
  match await_recv s with
  | Ready (Some (m, c)) => (Ready (Some m), with_chan c s)
  | Ready None => (Ready None, s)
  | Waiting => (Waiting, s)
  | Stuck => (Stuck, s)
  end.

Definition claim (sup : Supply) (s : QState Ch)
    : poll (Res (option ClaimedMessage)) * QState Ch :=
  match await_recv s with
  | Ready (Some (m, c)) => let '(cm, s') := claim_as (sup 0%nat) m c s in (Ready (Ok (Some cm)), s')
  | Ready None => (Ready (Ok None), s)
  | Waiting => (Waiting, s)
  | Stuck => (Stuck, s)
  end.

Definition claim_batch (max : nat) (sup : Supply) (s : QState Ch)
    : poll (Res (list ClaimedMessage)) * QState Ch :=
  if decide (max = 0%nat) then (Ready (Ok []), s)
  else let '(batch, s') := try_batch max sup 0 s in (Ready (Ok batch), s').

Definition ack (claim_id : string) (s : QState Ch) : poll (Res unit) * QState Ch :=
  (Ready (Ok tt), {| q_chan := q_chan s; q_pending := delete claim_id (q_pending s) |}).

Definition nack (claim_id : string) (s : QState Ch) : poll (Res unit) * QState Ch :=
  match q_pending s !! claim_id with
  | Some m =>
      match ch_send m (q_chan s) with
      | Sent c => (Ready (Ok tt), {| q_chan := c; q_pending := delete claim_id (q_pending s) |})
      | Full => (Stuck, s)
      | Disconnected why => (Ready (Err (EQueue (QSend why))), s)
      end
  | None => (Ready (Err (EQueue (QInvalidClaimId claim_id))), s)
  end.

Definition flume_queue : MessageQueue Ch :=
  {| Queues.send := send; Queues.try_send := try_send; Queues.send_timeout := send_timeout;
     Queues.receive := receive; Queues.claim := claim; Queues.claim_batch := claim_batch;
     Queues.ack := ack; Queues.nack := nack |}.
End flume.
End Flume.

(** ** [mpmc.rs] *)

Module Mpmc.
Section mpmc.
Context {Ch : Type} `{Channel Ch}.

Definition queue_new (capacity : nat) : QState Ch :=
  {| q_chan := ch_bounded capacity; q_pending := ∅ |}.

(** [tx.send(e).await]: a full channel makes the task wait. *)
Definition send (m : EMessage) (s : QState Ch) : poll (Res unit) * QState Ch :=
  match ch_send m (q_chan s) with
  | Sent c => (Ready (Ok tt), with_chan c s)
  | Full => (Waiting, s)
  | Disconnected why => (Ready (Err (EQueue (QSend why))), s)
  end.

Definition try_send (m : EMessage) (s : QState Ch) : poll (Res unit) * QState Ch :=
  if ch_is_full (q_chan s) then (Ready (Err (EQueue QFull)), s) else send m s.

Definition send_timeout (m : EMessage) (elapsed : bool) (s : QState Ch)
    : poll (Res unit) * QState Ch :=
  let '(p, s') := send m s in (timeout_poll elapsed p, s').

Definition receive (s : QState Ch) : poll (option EMessage) * QState Ch :=
  match await_recv s with
  | Ready (Some (m, c)) => (Ready (Some m), with_chan c s)
  | Ready None => (Ready None, s)
  | Waiting => (Waiting, s)
  | Stuck => (Stuck, s)
  end.

Definition claim (sup : Supply) (s : QState Ch)
    : poll (Res (option ClaimedMessage)) * QState Ch :=
  match await_recv s with
  | Ready (Some (m, c)) => let '(cm, s') := claim_as (sup 0%nat) m c s in (Ready (Ok (Some cm)), s')
  | Ready None => (Ready (Ok None), s)
  | Waiting => (Waiting, s)
  | Stuck => (Stuck, s)
  end.

(** The batch is limited to what the channel holds, so that the awaited
    receives of the loop do not wait. *)
Definition claim_batch (max : nat) (sup : Supply) (s : QState Ch)
    : poll (Res (list ClaimedMessage)) * QState Ch :=
  if decide (max = 0%nat ∨ ch_len (q_chan s) = 0%nat) then (Ready (Ok []), s)
  else
    let limit := Nat.min max (ch_len (q_chan s)) in
    let '(batch, s') := try_batch limit sup 0 s in (Ready (Ok batch), s').

Definition ack (claim_id : string) (s : QState Ch) : poll (Res unit) * QState Ch :=
  (Ready (Ok tt), {| q_chan := q_chan s; q_pending := delete claim_id (q_pending s) |}).

Definition nack (claim_id : string) (s : QState Ch) : poll (Res unit) * QState Ch :=
  match q_pending s !! claim_id with
  | Some m =>
      match ch_send m (q_chan s) with
      | Sent c => (Ready (Ok tt), {| q_chan := c; q_pending := delete claim_id (q_pending s) |})
      | Full => (Waiting, s)
      | Disconnected why => (Ready (Err (EQueue (QSend why))), s)
      end
  | None => (Ready (Err (EQueue (QInvalidClaimId claim_id))), s)
  end.

Definition mpmc_queue : MessageQueue Ch :=
  {| Queues.send := send; Queues.try_send := try_send; Queues.send_timeout := send_timeout;
     Queues.receive := receive; Queues.claim := claim; Queues.claim_batch := claim_batch;
     Queues.ack := ack; Queues.nack := nack |}.
End mpmc.
End Mpmc.

(** ** [crossfire.rs] *)

Module Crossfire.
Section crossfire.
Context {Ch : Type} `{Channel Ch}.

Definition queue_new (capacity : nat) : QState Ch :=
  {| q_chan := ch_bounded capacity; q_pending := ∅ |}.

Definition send (m : EMessage) (s : QState Ch) : poll (Res unit) * QState Ch :=
  match ch_send m (q_chan s) with
  | Sent c => (Ready (Ok tt), with_chan c s)
  | Full => (Waiting, s)
  | Disconnected why => (Ready (Err (EQueue (QSend why))), s)
  end.

Definition try_send (m : EMessage) (s : QState Ch) : poll (Res unit) * QState Ch :=
  if ch_is_full (q_chan s) then (Ready (Err (EQueue QFull)), s) else send m s.

Definition send_timeout (m : EMessage) (elapsed : bool) (s : QState Ch)
    : poll (Res unit) * QState Ch :=
  let '(p, s') := send m s in (timeout_poll elapsed p, s').

Definition receive (s : QState Ch) : poll (option EMessage) * QState Ch :=
  match await_recv s with
  | Ready (Some (m, c)) => (Ready (Some m), with_chan c s)
  | Ready None => (Ready None, s)
  | Waiting => (Waiting, s)
  | Stuck => (Stuck, s)
  end.

Definition claim (sup : Supply) (s : QState Ch)
    : poll (Res (option ClaimedMessage)) * QState Ch :=
  match await_recv s with
  | Ready (Some (m, c)) => let '(cm, s') := claim_as (sup 0%nat) m c s in (Ready (Ok (Some cm)), s')
  | Ready None => (Ready (Ok None), s)
  | Waiting => (Waiting, s)
  | Stuck => (Stuck, s)
  end.

Definition claim_batch (max : nat) (sup : Supply) (s : QState Ch)
    : poll (Res (list ClaimedMessage)) * QState Ch :=
  if decide (max = 0%nat) then (Ready (Ok []), s)
  else let '(batch, s') := try_batch max sup 0 s in (Ready (Ok batch), s').

Definition ack (claim_id : string) (s : QState Ch) : poll (Res unit) * QState Ch :=
  (Ready (Ok tt), {| q_chan := q_chan s; q_pending := delete claim_id (q_pending s) |}).

Definition nack (claim_id : string) (s : QState Ch) : poll (Res unit) * QState Ch :=
  match q_pending s !! claim_id with
  | Some m =>
      match ch_send m (q_chan s) with
      | Sent c => (Ready (Ok tt), {| q_chan := c; q_pending := delete claim_id (q_pending s) |})
      | Full => (Waiting, s)
      | Disconnected why => (Ready (Err (EQueue (QSend why))), s)
      end
  | None => (Ready (Err (EQueue (QInvalidClaimId claim_id))), s)
  end.

Definition crossfire_queue : MessageQueue Ch :=
  {| Queues.send := send; Queues.try_send := try_send; Queues.send_timeout := send_timeout;
     Queues.receive := receive; Queues.claim := claim; Queues.claim_batch := claim_batch;
     Queues.ack := ack; Queues.nack := nack |}.

(** *** [MemoryQueueFactory] and [RoutingProducer] of [crossfire.rs]

    The factory keeps a default channel and one channel per topic; the
    global producer routes by the topic of the message. *)
Record Factory : Type := {
  f_default : Ch;
  f_capacity : nat;
  f_topics : gmap string Ch
}.

Definition factory_new (capacity : nat) : Factory :=
  {| f_default := ch_bounded capacity; f_capacity := capacity; f_topics := ∅ |}.

(** [create_queue]: a channel of its own for the topic, entered into the
    routing table. *)
Definition create_queue (tpc : string) (f : Factory) : Factory :=
  {| f_default := f_default f; f_capacity := f_capacity f;
     f_topics := <[tpc := ch_bounded (f_capacity f)]> (f_topics f) |}.

Definition set_topic_chan (tpc : string) (c : Ch) (f : Factory) : Factory :=
  {| f_default := f_default f; f_capacity := f_capacity f;
     f_topics := <[tpc := c]> (f_topics f) |}.

Open Scope string_scope.
Definition not_registered (tpc : string) : CoreError :=
  EQueue (QSend ("topic '" +:+ tpc +:+ "' is not registered")).
Definition is_system_topic (tpc : string) : bool := starts_with "_system." tpc.
Close Scope string_scope.

(** [RoutingProducer::send], [try_send], [send_timeout]. *)
Definition routing_send (m : EMessage) (f : Factory) : poll (Res unit) * Factory :=
  match f_topics f !! topic m with
  | None =>
      if is_system_topic (topic m) then (Ready (Ok tt), f)
      else (Ready (Err (not_registered (topic m))), f)
  | Some c =>
      match ch_send m c with
      | Sent c' => (Ready (Ok tt), set_topic_chan (topic m) c' f)
      | Full => (Waiting, f)
      | Disconnected why => (Ready (Err (EQueue (QSend why))), f)
      end
  end.

Definition routing_try_send (m : EMessage) (f : Factory) : poll (Res unit) * Factory :=
  match f_topics f !! topic m with
  | Some c =>
      if ch_is_full c then (Ready (Err (EQueue QFull)), f)
      else
        match ch_send m c with
        | Sent c' => (Ready (Ok tt), set_topic_chan (topic m) c' f)
        | Full => (Waiting, f)
        | Disconnected why => (Ready (Err (EQueue (QSend why))), f)
        end
  | None =>
      if is_system_topic (topic m) then (Ready (Ok tt), f)
      else (Ready (Err (not_registered (topic m))), f)
  end.

Definition routing_send_timeout (m : EMessage) (elapsed : bool) (f : Factory)
    : poll (Res unit) * Factory :=
  let '(p, f') := routing_send m f in (timeout_poll elapsed p, f').
End crossfire.
Arguments Factory Ch : clear implicits.
End Crossfire.

(** ** The factories of [flume.rs] and [mpmc.rs]

    One channel, of which every producer and consumer the factory makes has
    the ends; a consumer has its own pending claims. *)
Module Shared.
Section shared_factory.
Context {Ch : Type} `{Channel Ch}.

(** The channel, and the claims of the consumers made so far. *)
Record Factory : Type := { sf_chan : Ch; sf_claims : list (gmap string EMessage) }.

Definition flume_factory_new (capacity : nat) : Factory :=
  {| sf_chan := if decide (0 < capacity)%nat then ch_bounded capacity else ch_unbounded;
     sf_claims := [] |}.
Definition mpmc_factory_new (capacity : nat) : Factory :=
  {| sf_chan := ch_bounded capacity; sf_claims := [] |}.

(** [create_queue(_topic)] and [create_consumer]: the number of the consumer. *)
Definition create_consumer (f : Factory) : nat * Factory :=
  (length (sf_claims f), {| sf_chan := sf_chan f; sf_claims := sf_claims f ++ [∅] |}).
Definition create_queue (tpc : string) (f : Factory) : nat * Factory := create_consumer f.

(** The state a consumer works on, and an operation of it. *)
Definition consumer_state (i : nat) (f : Factory) : QState Ch :=
  {| q_chan := sf_chan f; q_pending := default ∅ (sf_claims f !! i) |}.
Definition with_consumer {A} (i : nat) (op : QState Ch → A * QState Ch) (f : Factory)
    : A * Factory :=
  let '(a, s) := op (consumer_state i f) in
  (a, {| sf_chan := q_chan s; sf_claims := <[i := q_pending s]> (sf_claims f) |}).
End shared_factory.
Arguments Factory Ch : clear implicits.
End Shared.

(** ** [LocalInboxConsumer] of [worker.rs] and the default [claim_batch] of the trait *)

Module LocalInbox.
Section inbox.
Context {Ch : Type} `{Channel Ch}.

Definition inbox_new (capacity : nat) : QState Ch :=
  {| q_chan := ch_bounded capacity; q_pending := ∅ |}.

Definition receive (s : QState Ch) : poll (option EMessage) * QState Ch :=
  match await_recv s with
  | Ready (Some (m, c)) => (Ready (Some m), with_chan c s)
  | Ready None => (Ready None, s)
  | Waiting => (Waiting, s)
  | Stuck => (Stuck, s)
  end.

Definition claim (sup : Supply) (s : QState Ch)
    : poll (Res (option ClaimedMessage)) * QState Ch :=
  match await_recv s with
  | Ready (Some (m, c)) => let '(cm, s') := claim_as (sup 0%nat) m c s in (Ready (Ok (Some cm)), s')
  | Ready None => (Ready (Ok None), s)
  | Waiting => (Waiting, s)
  | Stuck => (Stuck, s)
  end.

Definition ack (claim_id : string) (s : QState Ch) : poll (Res unit) * QState Ch :=
  (Ready (Ok tt), {| q_chan := q_chan s; q_pending := delete claim_id (q_pending s) |}).

(** The claim is removed before the message is sent back; an unknown claim is
    not an error. *)
Definition nack (claim_id : string) (s : QState Ch) : poll (Res unit) * QState Ch :=
  let s1 := {| q_chan := q_chan s; q_pending := delete claim_id (q_pending s) |} in
  match q_pending s !! claim_id with
  | Some m =>
      match ch_send m (q_chan s) with
      | Sent c => (Ready (Ok tt), with_chan c s1)
      | Full => (Waiting, s1)
      | Disconnected why => (Ready (Err (EOther why)), s1)
      end
  | None => (Ready (Ok tt), s1)
  end.

(** [EConsumer::claim_batch], the default of the trait: [claim] in a loop. *)
Fixpoint default_claim_batch (max : nat) (sup : Supply) (i : nat) (s : QState Ch)
    : poll (Res (list ClaimedMessage)) * QState Ch :=
  match max with
  | O => (Ready (Ok []), s)
  | S max =>
      match claim (λ _, sup i) s with
      | (Ready (Ok (Some cm)), s1) =>
          match default_claim_batch max sup (S i) s1 with
          | (Ready (Ok batch), s2) => (Ready (Ok (cm :: batch)), s2)
          | r => r
          end
      | (Ready (Ok None), s1) => (Ready (Ok []), s1)
      | (Ready (Err e), s1) => (Ready (Err e), s1)
      | (Waiting, s1) => (Waiting, s1)
      | (Stuck, s1) => (Stuck, s1)
      end
  end.
End inbox.
End LocalInbox.

(** ** A bounded FIFO, the behaviour the laws describe *)

Record ListChan : Type := { lc_items : list EMessage; lc_capacity : option nat }.

Definition lc_full (c : ListChan) : bool :=
  match lc_capacity c with
  | Some n => bool_decide (n <= length (lc_items c))%nat
  | None => false
  end.

#[export] Instance list_channel : Channel ListChan := {|
  ch_bounded n := {| lc_items := []; lc_capacity := Some n |};
  ch_unbounded := {| lc_items := []; lc_capacity := None |};
  ch_send m c :=
    if lc_full c then Full
    else Sent {| lc_items := lc_items c ++ [m]; lc_capacity := lc_capacity c |};
  ch_recv c :=
    match lc_items c with
    | m :: l => Received m {| lc_items := l; lc_capacity := lc_capacity c |}
    | [] => NothingYet
    end;
  ch_is_full := lc_full;
  ch_len c := length (lc_items c)
|}.

#[export] Instance list_channel_laws : ChannelLaws ListChan.
Proof.
  refine {| ch_items := lc_items |}; simpl.
  - done.
  - done.
  - intros m c c'. destruct (lc_full c); naive_solver.
  - intros m c. destruct (lc_full c); naive_solver.
  - intros [[|x l] cap] m c'; simpl; naive_solver.
  - intros [[|x l] cap]; simpl; naive_solver.
  - done.
Defined.
