(* ===== verification/QueueTheorems.v ===== *)
(** * What the queue backends promise

    [MessageQueueLaws] states the effect of every operation of a queue on its
    contents and its pending claims.  The three in-memory backends satisfy
    it; conservation of messages under any sequence of operations is proved
    once, against the interface. *)
From S2P Require Import Prelude Errors Message Runtime Queues.

(** ** The interface *)

Definition accepted (p : poll (Res unit)) : bool :=
  match p with Ready (Ok _) => true | _ => false end.

Definition insert_claim (cm : ClaimedMessage) (p : gmap string EMessage) : gmap string EMessage :=
  <[cm_claim_id cm := cm_message cm]> p.

Section laws.
Context {Ch : Type} `{ChannelLaws Ch}.

Definition items (s : QState Ch) : list EMessage := ch_items (q_chan s).

(** Pushing one message: it is at the back exactly if the push was accepted,
    and otherwise nothing changed. *)
Definition pushes (op : EMessage → QState Ch → poll (Res unit) * QState Ch) : Prop :=
  ∀ m s, let '(p, s') := op m s in
    if accepted p then items s' = items s ++ [m] ∧ q_pending s' = q_pending s else s' = s.

Class MessageQueueLaws `{MessageQueue Ch} : Prop := {
  law_send : pushes send;
  law_try_send : pushes try_send;
  law_send_timeout : ∀ elapsed, pushes (λ m, send_timeout m elapsed);
  law_try_send_returns : ∀ m s, (try_send m s).1 ≠ Waiting ∧ (try_send m s).1 ≠ Stuck;
  law_receive : ∀ s, let '(p, s') := receive s in
    match p with
    | Ready (Some m) => items s = m :: items s' ∧ q_pending s' = q_pending s
    | _ => s' = s
    end;
  law_claim : ∀ sup s, let '(p, s') := claim sup s in
    match p with
    | Ready (Ok (Some cm)) =>
        items s = cm_message cm :: items s' ∧ cm_claim_id cm = (sup 0%nat).1 ∧
        q_pending s' = insert_claim cm (q_pending s)
    | _ => s' = s
    end;
  law_claim_batch : ∀ n sup s, let '(p, s') := claim_batch n sup s in
    ∃ batch, p = Ready (Ok batch) ∧ length batch = Nat.min n (length (items s)) ∧
      items s = (cm_message <$> batch) ++ items s' ∧
      cm_claim_id <$> batch = (λ i, (sup i).1) <$> seq 0 (length batch) ∧
      q_pending s' = foldl (flip insert_claim) (q_pending s) batch;
  law_ack : ∀ i s, (ack i s).1 = Ready (Ok tt) ∧
    items (ack i s).2 = items s ∧ q_pending (ack i s).2 = delete i (q_pending s);
  law_nack : ∀ i s, let '(p, s') := nack i s in
    if accepted p then
      ∃ m, q_pending s !! i = Some m ∧ items s' = items s ++ [m] ∧
           q_pending s' = delete i (q_pending s)
    else s' = s
}.

Lemma try_batch_spec n sup i s :
  let '(batch, s') := try_batch n sup i s in
  length batch = Nat.min n (length (items s)) ∧
  items s = (cm_message <$> batch) ++ items s' ∧
  cm_claim_id <$> batch = (λ j, (sup j).1) <$> seq i (length batch) ∧
  q_pending s' = foldl (flip insert_claim) (q_pending s) batch.
Proof.
  revert i s. induction n as [|n IH]; intros i s; simpl; [done|].
  destruct (ch_recv (q_chan s)) as [m c| |] eqn:Hr.
  - apply ch_recv_items in Hr. simpl.
    specialize (IH (S i) {| q_chan := c; q_pending := <[(sup i).1 := m]> (q_pending s) |}).
    destruct (try_batch n sup (S i) _) as [batch s']. destruct IH as (Hl & Hi & Hc & Hp).
    unfold items in *. csimpl in *. rewrite Hr. csimpl. rewrite Hc, Hi, Hp.
    split_and!; [|done..]. rewrite Hi in Hl. lia.
  - assert (ch_items (q_chan s) = []) as Hi by (apply ch_recv_empty; auto).
    unfold items. rewrite Hi. simpl. done.
  - assert (ch_items (q_chan s) = []) as Hi by (apply ch_recv_empty; auto).
    unfold items. rewrite Hi. simpl. done.
Qed.

(** The operations the three backends have in common, in the shape the laws
    want them. *)
Lemma push_laws (full : poll (Res unit)) m (s : QState Ch) :
  accepted full = false →
  let '(p, s') := match ch_send m (q_chan s) with
                  | Sent c => (Ready (Ok tt), with_chan c s)
                  | Full => (full, s)
                  | Disconnected why => (Ready (Err (EQueue (QSend why))), s)
                  end in
  if accepted p then items s' = items s ++ [m] ∧ q_pending s' = q_pending s else s' = s.
Proof.
  intros Hf. destruct (ch_send m (q_chan s)) as [c| |why] eqn:Hs; simpl; [|by rewrite Hf|done].
  by apply ch_send_items in Hs.
Qed.

Lemma nack_laws (full : poll (Res unit)) i (s : QState Ch) :
  accepted full = false →
  let '(p, s') :=
    match q_pending s !! i with
    | Some m =>
        match ch_send m (q_chan s) with
        | Sent c => (Ready (Ok tt), {| q_chan := c; q_pending := delete i (q_pending s) |})
        | Full => (full, s)
        | Disconnected why => (Ready (Err (EQueue (QSend why))), s)
        end
    | None => (Ready (Err (EQueue (QInvalidClaimId i))), s)
    end in
  if accepted p then
    ∃ m, q_pending s !! i = Some m ∧ items s' = items s ++ [m] ∧
         q_pending s' = delete i (q_pending s)
  else s' = s.
Proof.
  intros Hf. destruct (q_pending s !! i) as [m|] eqn:Hi; [|done].
  destruct (ch_send m (q_chan s)) as [c| |why] eqn:Hs; simpl; [|by rewrite Hf|done].
  apply ch_send_items in Hs. eauto.
Qed.

Lemma timeout_accepted elapsed p : accepted (timeout_poll elapsed p) = accepted p.
Proof. destruct p as [[]| |]; try done. by destruct elapsed. Qed.

Lemma timeout_laws (op : EMessage → QState Ch → poll (Res unit) * QState Ch) elapsed :
  pushes op → pushes (λ m s, let '(p, s') := op m s in (timeout_poll elapsed p, s')).
Proof.
  intros Hop m s. specialize (Hop m s). destruct (op m s) as [p s'].
  by rewrite timeout_accepted.
Qed.

Lemma receive_laws (s : QState Ch) :
  let '(p, s') := match await_recv s with
                  | Ready (Some (m, c)) => (Ready (Some m), with_chan c s)
                  | Ready None => (Ready None, s)
                  | Waiting => (Waiting, s)
                  | Stuck => (Stuck, s)
                  end in
  match p with
  | Ready (Some m) => items s = m :: items s' ∧ q_pending s' = q_pending s
  | _ => s' = s
  end.
Proof.
  unfold await_recv. destruct (ch_recv (q_chan s)) eqn:Hr; simpl; [|done..].
  by apply ch_recv_items in Hr.
Qed.

Lemma claim_laws sup (s : QState Ch) :
  let '(p, s') :=
    match await_recv s with
    | Ready (Some (m, c)) =>
        let '(cm, s') := claim_as (sup 0%nat) m c s in (Ready (Ok (Some cm)), s')
    | Ready None => (Ready (Ok None : Res (option ClaimedMessage)), s)
    | Waiting => (Waiting, s)
    | Stuck => (Stuck, s)
    end in
  match p with
  | Ready (Ok (Some cm)) =>
      items s = cm_message cm :: items s' ∧ cm_claim_id cm = (sup 0%nat).1 ∧
      q_pending s' = insert_claim cm (q_pending s)
  | _ => s' = s
  end.
Proof.
  unfold await_recv. destruct (ch_recv (q_chan s)) eqn:Hr; simpl; [|done..].
  by apply ch_recv_items in Hr.
Qed.

#[local] Ltac queue_laws :=
  first [ intros m s; apply push_laws; done
        | intros e; apply timeout_laws; intros m s; apply push_laws; done
        | intros s; apply receive_laws
        | intros sup s; apply claim_laws
        | done
        | intros i s; apply nack_laws; done
        | idtac ].

Lemma batch_laws n sup (s : QState Ch) :
  let '(p, s') := (let '(batch, s') := try_batch n sup 0 s in
                   (Ready (Ok batch) : poll (Res (list ClaimedMessage)), s')) in
  ∃ batch, p = Ready (Ok batch) ∧ length batch = Nat.min n (length (items s)) ∧
    items s = (cm_message <$> batch) ++ items s' ∧
    cm_claim_id <$> batch = (λ i, (sup i).1) <$> seq 0 (length batch) ∧
    q_pending s' = foldl (flip insert_claim) (q_pending s) batch.
Proof.
  pose proof (try_batch_spec n sup 0 s) as Hb. destruct (try_batch n sup 0 s) as [batch s'].
  eauto.
Qed.

#[export] Instance flume_laws : MessageQueueLaws (H1 := Flume.flume_queue).
Proof.
  split; queue_laws.
  - intros m s. simpl. unfold Flume.try_send.
    destruct (ch_send m (q_chan s)) as [c| |] eqn:Hs; simpl; [|done..].
    by apply ch_send_items in Hs.
  - intros m s. simpl. unfold Flume.try_send. by destruct (ch_send _ _).
  - intros n sup s. simpl. unfold Flume.claim_batch. case_decide as Hn.
    + exists []. subst. done.
    + apply batch_laws.
Qed.
Lemma checked_send_laws m (s : QState Ch) :
  let '(p, s') := if ch_is_full (q_chan s) then (Ready (Err (EQueue QFull)), s)
                  else match ch_send m (q_chan s) with
                       | Sent c => (Ready (Ok tt), with_chan c s)
                       | Full => (Waiting, s)
                       | Disconnected why => (Ready (Err (EQueue (QSend why))), s)
                       end in
  (if accepted p then items s' = items s ++ [m] ∧ q_pending s' = q_pending s else s' = s) ∧
  p ≠ Waiting ∧ p ≠ Stuck.
Proof.
  destruct (ch_is_full (q_chan s)) eqn:Hf; [done|].
  destruct (ch_send m (q_chan s)) as [c| |] eqn:Hs; simpl; [|exfalso|done].
  - by apply ch_send_items in Hs.
  - apply ch_send_room in Hs. congruence.
Qed.

#[export] Instance mpmc_laws : MessageQueueLaws (H1 := Mpmc.mpmc_queue).
Proof.
  split; queue_laws.
  - intros m s. pose proof (checked_send_laws m s) as Hc. simpl. unfold Mpmc.try_send, Mpmc.send.
    destruct (if ch_is_full _ then _ else _) as [p s']. apply Hc.
  - intros m s. pose proof (checked_send_laws m s) as Hc. simpl. unfold Mpmc.try_send, Mpmc.send.
    destruct (if ch_is_full _ then _ else _) as [p s']. apply Hc.
  - intros n sup s. simpl. unfold Mpmc.claim_batch. rewrite ch_len_items. case_decide as Hn.
    + exists []. split_and!; try done. simpl. unfold items. lia.
    + pose proof (batch_laws (Nat.min n (length (items s))) sup s) as Hb.
      unfold items in Hb at 1. destruct (let '(_, _) := _ in _) as [p s'].
      destruct Hb as (batch & -> & Hl & Hrest). exists batch.
      split_and!; [done| |apply Hrest..]. rewrite Hl. lia.
Qed.

#[export] Instance crossfire_laws : MessageQueueLaws (H1 := Crossfire.crossfire_queue).
Proof.
  split; queue_laws.
  - intros m s. pose proof (checked_send_laws m s) as Hc. simpl.
    unfold Crossfire.try_send, Crossfire.send.
    destruct (if ch_is_full _ then _ else _) as [p s']. apply Hc.
  - intros m s. pose proof (checked_send_laws m s) as Hc. simpl.
    unfold Crossfire.try_send, Crossfire.send.
    destruct (if ch_is_full _ then _ else _) as [p s']. apply Hc.
  - intros n sup s. simpl. unfold Crossfire.claim_batch. case_decide as Hn.
    + exists []. subst. done.
    + apply batch_laws.
Qed.
End laws.
Arguments MessageQueueLaws Ch {_ _ _}.

(** ** Conservation, against the interface *)

Inductive QOp : Type :=
| OSend (m : EMessage)
| OTrySend (m : EMessage)
| OSendTimeout (m : EMessage) (elapsed : bool)
| OReceive
| OClaim (sup : Supply)
| OClaimBatch (n : nat) (sup : Supply)
| OAck (i : string)
| ONack (i : string).

(** What went in and what left for good (received without a claim, or
    acknowledged). *)
Record Ledger : Type := { entered : list EMessage; left_queue : list EMessage }.

Section conservation.
Context {Ch : Type} `{MessageQueueLaws Ch}.

Definition enter (m : EMessage) (p : poll (Res unit)) (l : Ledger) : Ledger :=
  if accepted p then {| entered := entered l ++ [m]; left_queue := left_queue l |} else l.
Definition leave (ms : list EMessage) (l : Ledger) : Ledger :=
  {| entered := entered l; left_queue := left_queue l ++ ms |}.

(** UUIDs are drawn fresh. *)
Definition fresh_for (op : QOp) (s : QState Ch) : Prop :=
  match op with
  | OClaim sup => q_pending s !! (sup 0%nat).1 = None
  | OClaimBatch n sup =>
      NoDup ((λ i, (sup i).1) <$> seq 0 n) ∧
      ∀ i, (i < n)%nat → q_pending s !! (sup i).1 = None
  | _ => True
  end.

Definition qstep (op : QOp) (sl : QState Ch * Ledger) : QState Ch * Ledger :=
  let '(s, l) := sl in
  match op with
  | OSend m => let '(p, s') := send m s in (s', enter m p l)
  | OTrySend m => let '(p, s') := try_send m s in (s', enter m p l)
  | OSendTimeout m e => let '(p, s') := send_timeout m e s in (s', enter m p l)
  | OReceive =>
      let '(p, s') := receive s in
      (s', match p with Ready (Some m) => leave [m] l | _ => l end)
  | OClaim sup => let '(_, s') := claim sup s in (s', l)
  | OClaimBatch n sup => let '(_, s') := claim_batch n sup s in (s', l)
  | OAck i => (((ack i s).2), leave (option_list (q_pending s !! i)) l)
  | ONack i => (((nack i s).2), l)
  end.

Inductive qreach : QState Ch * Ledger → Prop :=
| qreach_init s : items s = [] → q_pending s = ∅ →
    qreach (s, {| entered := []; left_queue := [] |})
| qreach_step op sl : qreach sl → fresh_for op sl.1 → qreach (qstep op sl).

(** Everything the queue still answers for: waiting in the channel or
    claimed and not settled. *)
Definition held (s : QState Ch) : list EMessage :=
  items s ++ (map_to_list (q_pending s)).*2.

Definition balanced (sl : QState Ch * Ledger) : Prop :=
  entered sl.2 ≡ₚ held sl.1 ++ left_queue sl.2.

Lemma held_push s s' m :
  items s' = items s ++ [m] → q_pending s' = q_pending s → held s' ≡ₚ held s ++ [m].
Proof. unfold held. intros -> ->. rewrite <- !app_assoc. by rewrite (Permutation_app_comm [m]). Qed.

Lemma enter_balanced m p s s' l :
  balanced (s, l) →
  (if accepted p then items s' = items s ++ [m] ∧ q_pending s' = q_pending s else s' = s) →
  balanced (s', enter m p l).
Proof.
  unfold balanced, enter. simpl. intros Hb Hp. destruct (accepted p); simpl; [|by subst].
  destruct Hp as [Hi Hq]. rewrite (held_push _ _ _ Hi Hq), Hb. solve_Permutation.
Qed.

Lemma pending_insert (p : gmap string EMessage) i m :
  p !! i = None → (map_to_list (<[i := m]> p)).*2 ≡ₚ m :: (map_to_list p).*2.
Proof. intros Hi. by rewrite map_to_list_insert. Qed.

Lemma pending_delete (p : gmap string EMessage) i m :
  p !! i = Some m → (map_to_list p).*2 ≡ₚ m :: (map_to_list (delete i p)).*2.
Proof. intros Hi. by rewrite <- (map_to_list_delete _ i m) by done. Qed.

Lemma pending_insert_batch (batch : list ClaimedMessage) (p : gmap string EMessage) :
  NoDup (cm_claim_id <$> batch) → (∀ i, i ∈ cm_claim_id <$> batch → p !! i = None) →
  (map_to_list (foldl (flip insert_claim) p batch)).*2 ≡ₚ
    (cm_message <$> batch) ++ (map_to_list p).*2.
Proof.
  revert p. induction batch as [|cm batch IH]; intros p Hn Hf; [done|].
  csimpl in *. apply NoDup_cons in Hn as [Hni Hn]. rewrite IH; [|done|].
  - unfold insert_claim. rewrite pending_insert by set_solver. solve_Permutation.
  - intros i Hi. unfold insert_claim. rewrite lookup_insert_ne by set_solver. set_solver.
Qed.

Lemma claim_balanced sup s l :
  balanced (s, l) → q_pending s !! (sup 0%nat).1 = None → balanced (qstep (OClaim sup) (s, l)).
Proof.
  intros Hb Hf. simpl. pose proof (law_claim sup s) as Hc. destruct (claim sup s) as [p s'].
  destruct p as [[[cm|]|]| |]; try by subst. destruct Hc as (Hi & Hid & Hq).
  unfold balanced, held in *. simpl in *. rewrite Hb, Hi, Hq. unfold insert_claim.
  rewrite Hid, pending_insert by done. solve_Permutation.
Qed.

Lemma batch_balanced n sup s l :
  balanced (s, l) → fresh_for (OClaimBatch n sup) s → balanced (qstep (OClaimBatch n sup) (s, l)).
Proof.
  intros Hb [Hnd Hf]. simpl. pose proof (law_claim_batch n sup s) as Hc.
  destruct (claim_batch n sup s) as [p s'].
  destruct Hc as (batch & _ & Hl & Hi & Hid & Hq).
  assert (length batch ≤ n)%nat as Hle by lia.
  unfold balanced, held in *. simpl in *. rewrite Hb, Hi, Hq, pending_insert_batch.
  - solve_Permutation.
  - rewrite Hid. eapply sublist_NoDup; [exact Hnd|]. apply fmap_sublist.
    replace n with (length batch + (n - length batch))%nat by lia. rewrite seq_app.
    by apply sublist_inserts_r.
  - rewrite Hid. intros i (j & -> & Hj)%list_elem_of_fmap. apply Hf.
    apply elem_of_seq in Hj. lia.
Qed.

Lemma ack_balanced i s l : balanced (s, l) → balanced (qstep (OAck i) (s, l)).
Proof.
  intros Hb. simpl. destruct (law_ack i s) as (_ & Hi & Hq).
  unfold balanced, held in *. simpl in *. rewrite Hi, Hq, Hb.
  destruct (q_pending s !! i) as [m|] eqn:Hm; simpl.
  - rewrite (pending_delete _ _ _ Hm). solve_Permutation.
  - rewrite delete_id by done. by rewrite app_nil_r.
Qed.

Lemma nack_balanced i s l : balanced (s, l) → balanced (qstep (ONack i) (s, l)).
Proof.
  intros Hb. simpl. pose proof (law_nack i s) as Hn. destruct (nack i s) as [p s']. simpl.
  destruct (accepted p); [|by subst]. destruct Hn as (m & Hm & Hi & Hq).
  unfold balanced, held in *. simpl in *. rewrite Hb, Hi, Hq, (pending_delete _ _ _ Hm).
  solve_Permutation.
Qed.

Lemma receive_balanced s l : balanced (s, l) → balanced (qstep OReceive (s, l)).
Proof.
  intros Hb. simpl. pose proof (law_receive s) as Hr. destruct (receive s) as [p s'].
  destruct p as [[m|]| |]; try by subst. destruct Hr as [Hi Hq].
  unfold balanced, held in *. simpl in *. rewrite Hb, Hi, Hq. solve_Permutation.
Qed.

Lemma queue_conserves s l :
  qreach (s, l) → entered l ≡ₚ held s ++ left_queue l.
Proof.
  change (qreach (s, l) → balanced (s, l)). generalize (s, l). clear s l. intros sl Hr.
  induction Hr as [s Hi Hq|op [s l] _ IH Hf].
  - unfold balanced, held. simpl. by rewrite Hi, Hq.
  - destruct op as [m|m|m e| |sup|n sup|i|i].
    + simpl. pose proof (law_send m s). destruct (send m s). by eapply enter_balanced.
    + simpl. pose proof (law_try_send m s). destruct (try_send m s). by eapply enter_balanced.
    + simpl. pose proof (law_send_timeout e m s) as Hst. cbv beta in Hst.
      destruct (send_timeout m e s).
      by eapply enter_balanced.
    + by apply receive_balanced.
    + by apply claim_balanced.
    + by apply batch_balanced.
    + by apply ack_balanced.
    + by apply nack_balanced.
Qed.

(** A batch claim hands out the oldest messages, in order, as many as
    asked for and available, each under the claim id drawn for it; it always
    returns at once. *)
Theorem claim_batch_takes_oldest n sup (s : QState Ch) :
  ∃ batch, (claim_batch n sup s).1 = Ready (Ok batch) ∧
    cm_message <$> batch = take n (items s) ∧
    items (claim_batch n sup s).2 = drop n (items s).
Proof.
  pose proof (law_claim_batch n sup s) as Hc. destruct (claim_batch n sup s) as [p s'].
  destruct Hc as (batch & -> & Hl & Hi & _). exists batch. split; [done|]. simpl.
  rewrite <- (length_fmap cm_message), Hi, length_app in Hl. rewrite Hi.
  destruct (decide (n ≤ length (cm_message <$> batch))%nat) as [Hn|Hn].
  - assert (length (cm_message <$> batch) = n) as Hlen by lia.
    by rewrite take_app_length', drop_app_length' by done.
  - assert (items s' = []) as -> by (apply nil_length_inv; lia).
    rewrite app_nil_r, take_ge, drop_ge by lia. done.
Qed.
End conservation.

(** The backends of [event_base_queue]. *)
Inductive Backend : Type := FlumeBackend | MpmcBackend | CrossfireBackend.

Section backends.
Context {Ch : Type} `{ChannelLaws Ch}.

Definition backend_queue (b : Backend) : MessageQueue Ch :=
  match b with
  | FlumeBackend => Flume.flume_queue
  | MpmcBackend => Mpmc.mpmc_queue
  | CrossfireBackend => Crossfire.crossfire_queue
  end.

Lemma backend_laws b : @MessageQueueLaws Ch _ _ (backend_queue b).
Proof. destruct b; apply _. Qed.

(** C6. Conservation: for each of the three backends, over any lawful channel,
    and whatever sequence of sends, receives, claims, batches,
    acknowledgements and negative acknowledgements it goes through (claim ids
    being fresh), the messages accepted so far are exactly, with
    multiplicity, those in the channel, those claimed and not settled, and
    those that left by a receive or an acknowledgement.  Nothing is lost and
    nothing is doubled, also when an operation fails or waits. *)
Theorem queue_conserves_messages b s l :
  qreach (H1 := backend_queue b) (s, l) → entered l ≡ₚ held s ++ left_queue l.
Proof. pose proof (backend_laws b). apply queue_conserves. Qed.
End backends.


(** ** Backpressure *)

Section backpressure.
Context {Ch : Type} `{ChannelLaws Ch}.

(** A timed send on a full channel whose deadline has passed: the
    [tokio_mpmc] and [crossfire] backends return [QueueError::Timeout] and
    leave the queue as it was; the [flume] backend, whose send blocks the
    thread, does not return, deadline or not. *)
Theorem timed_send_on_full_channel m elapsed (s : QState Ch) :
  ch_is_full (q_chan s) = true →
  Mpmc.send_timeout m true s = (Ready (Err (EQueue QTimeout)), s) ∧
  Crossfire.send_timeout m true s = (Ready (Err (EQueue QTimeout)), s) ∧
  Flume.send_timeout m elapsed s = (Stuck, s).
Proof.
  intros Hf. apply (ch_send_room m) in Hf.
  unfold Mpmc.send_timeout, Crossfire.send_timeout, Flume.send_timeout,
    Mpmc.send, Crossfire.send, Flume.send.
  by rewrite Hf.
Qed.

(** A negative acknowledgement needs room in the channel the claim came
    from.  On a full channel it keeps the claim but does not return: the task
    waits ([tokio_mpmc], [crossfire]) or the thread blocks ([flume]), until
    some other consumer makes room. *)
Theorem nack_on_full_channel i m (s : QState Ch) :
  ch_is_full (q_chan s) = true → q_pending s !! i = Some m →
  Mpmc.nack i s = (Waiting, s) ∧ Crossfire.nack i s = (Waiting, s) ∧ Flume.nack i s = (Stuck, s).
Proof.
  intros Hf Hi. apply (ch_send_room m) in Hf.
  unfold Mpmc.nack, Crossfire.nack, Flume.nack. by rewrite Hi, Hf.
Qed.

(** ** The routing producer *)

Definition topic_items (t : string) (f : Crossfire.Factory Ch) : list EMessage :=
  match Crossfire.f_topics f !! t with Some c => ch_items c | None => [] end.

(** The routing producer keeps topics apart: a send appends the message
    to the channel of its own topic when it is accepted and registered, and
    touches nothing else; a topic that is not registered is refused, except a
    system topic, for which the message is dropped and [Ok] returned (the
    default channel is never written to). *)
Theorem routing_producer_isolates_topics m (f : Crossfire.Factory Ch) :
  let '(p, f') := Crossfire.routing_send m f in
  (∀ t, topic_items t f' =
     if decide (t = topic m ∧ accepted p = true ∧ is_Some (Crossfire.f_topics f !! t))
     then topic_items t f ++ [m] else topic_items t f) ∧
  Crossfire.f_default f' = Crossfire.f_default f ∧
  (Crossfire.f_topics f !! topic m = None →
   p = if starts_with "_system." (topic m) then Ready (Ok tt)
       else Ready (Err (Crossfire.not_registered (topic m)))).
Proof.
  unfold Crossfire.routing_send, topic_items.
  destruct (Crossfire.f_topics f !! topic m) as [c|] eqn:Hc.
  - destruct (ch_send m c) as [c'| |why] eqn:Hs; split_and!; try done; intros t; simpl;
      try (case_decide; naive_solver).
    apply ch_send_items in Hs. destruct (decide (t = topic m)) as [->|Hne].
    + rewrite lookup_insert_eq, Hc, decide_True; [done|]. split_and!; eauto.
    + rewrite lookup_insert_ne by done. case_decide; naive_solver.
  - destruct (Crossfire.is_system_topic (topic m)) eqn:Hsys;
      unfold Crossfire.is_system_topic in Hsys; rewrite Hsys; split_and!; try done;
      intros t; (case_decide as Hd; [|done]); destruct Hd as (-> & _ & [? Hx]); congruence.
Qed.
End backpressure.

(** The default [claim_batch] of the trait, on a consumer whose [claim]
    waits for a message (the local inbox): asked for more than the channel
    holds, it does not return the messages that are available but waits, with
    those messages claimed. *)
Theorem default_batch_waits n sup i (s : QState ListChan) :
  (length (items s) < n)%nat →
  (LocalInbox.default_claim_batch n sup i s).1 = Waiting ∧
  items (LocalInbox.default_claim_batch n sup i s).2 = [].
Proof.
  revert i s. induction n as [|n IH]; intros i [[its cap] pend] Hn; [simpl in Hn; lia|].
  unfold items in *. simpl in *. unfold LocalInbox.claim, await_recv. simpl.
  destruct its as [|m its]; simpl in *; [done|].
  specialize (IH (S i) {| q_chan := {| lc_items := its; lc_capacity := cap |};
                          q_pending := <[(sup i).1 := m]> pend |}).
  simpl in IH. destruct IH as [IH1 IH2]; [lia|].
  destruct (LocalInbox.default_claim_batch n sup (S i) _) as [p s']. simpl in *.
  subst p. done.
Qed.

(** ** One channel for all topics *)

Section shared.
Context {Ch : Type} `{ChannelLaws Ch}.

Lemma recv_head (c : Ch) m l : ch_items c = m :: l → ∃ c', ch_recv c = Received m c'.
Proof.
  intros Hi. destruct (ch_recv c) as [m' c'| |] eqn:Hr.
  - pose proof (ch_recv_items _ _ _ Hr) as Hi'. rewrite Hi in Hi'. injection Hi' as <- _. eauto.
  - assert (ch_items c = []) as E by (apply ch_recv_empty; auto). congruence.
  - assert (ch_items c = []) as E by (apply ch_recv_empty; auto). congruence.
Qed.

(** The factories of [flume.rs] and [mpmc.rs] ignore the topic: a message
    sent through the queue of one topic is received by the consumer of
    another. *)
Theorem shared_factory_mixes_topics (f : Shared.Factory Ch) (t1 t2 : string) m :
  ch_items (Shared.sf_chan f) = [] →
  let '(i, f1) := Shared.create_queue t1 f in
  let '(j, f2) := Shared.create_queue t2 f1 in
  (accepted (Shared.with_consumer i (Flume.send m) f2).1 = true →
   (Shared.with_consumer j Flume.receive (Shared.with_consumer i (Flume.send m) f2).2).1
     = Ready (Some m)) ∧
  (accepted (Shared.with_consumer i (Mpmc.send m) f2).1 = true →
   (Shared.with_consumer j Mpmc.receive (Shared.with_consumer i (Mpmc.send m) f2).2).1
     = Ready (Some m)).
Proof.
  intros Hi. simpl. unfold Shared.with_consumer, Flume.send, Mpmc.send. simpl.
  destruct (ch_send m (Shared.sf_chan f)) as [c| |w] eqn:Hs; simpl; [|done..].
  apply ch_send_items in Hs. rewrite Hi in Hs. destruct (recv_head c m [] Hs) as [c' Hr].
  unfold Flume.receive, Mpmc.receive, await_recv. simpl. by rewrite Hr.
Qed.
End shared.

(** ** The hypotheses can hold *)

Open Scope string_scope.

Definition demo_q (i : string) : EMessage := EMessage_new i 1 "orders" [1] Standard None.
Definition demo_supply (i : nat) : string * SystemTime := ("c" +:+ pretty.pretty i, 5).
Definition full_state : QState ListChan :=
  {| q_chan := {| lc_items := [demo_q "a"]; lc_capacity := Some 1%nat |};
     q_pending := {[ "c0" := demo_q "b" ]} |}.

#[local] Existing Instance Flume.flume_queue.

(** Two sends, a batch claim of both, one acknowledgement, one negative. *)
Definition demo_run : QState ListChan * Ledger :=
  qstep (ONack "c1") (qstep (OAck "c0") (qstep (OClaimBatch 2 demo_supply)
    (qstep (OSend (demo_q "b")) (qstep (OSend (demo_q "a"))
      (Flume.queue_new 2, {| entered := []; left_queue := [] |}))))).

Lemma queue_conserves_messages_witness :
  entered demo_run.2 = [demo_q "a"; demo_q "b"] ∧
  entered demo_run.2 ≡ₚ held demo_run.1 ++ left_queue demo_run.2.
Proof.
  split; [vm_compute; reflexivity|].
  apply (queue_conserves_messages FlumeBackend demo_run.1 demo_run.2).
  unfold demo_run. rewrite <- surjective_pairing.
  apply qreach_step; [|exact I]. apply qreach_step; [|exact I].
  apply qreach_step; [apply qreach_step; [apply qreach_step; [|exact I]|exact I]|].
  - by apply qreach_init.
  - split; [|intros i Hi; reflexivity]. apply NoDup_fmap_2; [|apply NoDup_seq].
    intros i j [= Hij]. by apply pretty.pretty_nat_inj.
Defined.

Lemma claim_batch_takes_oldest_witness :
  ∃ batch, (claim_batch 3 demo_supply full_state).1 = Ready (Ok batch) ∧
    cm_message <$> batch = take 3 (items full_state) ∧
    items (claim_batch 3 demo_supply full_state).2 = drop 3 (items full_state).
Proof. apply (claim_batch_takes_oldest 3 demo_supply full_state). Defined.

Lemma timed_send_on_full_channel_witness :
  Mpmc.send_timeout (demo_q "x") true full_state = (Ready (Err (EQueue QTimeout)), full_state) ∧
  Crossfire.send_timeout (demo_q "x") true full_state
    = (Ready (Err (EQueue QTimeout)), full_state) ∧
  Flume.send_timeout (demo_q "x") true full_state = (Stuck, full_state).
Proof. apply (timed_send_on_full_channel (demo_q "x") true full_state). reflexivity. Defined.

Lemma nack_on_full_channel_witness :
  Mpmc.nack "c0" full_state = (Waiting, full_state) ∧
  Crossfire.nack "c0" full_state = (Waiting, full_state) ∧
  Flume.nack "c0" full_state = (Stuck, full_state).
Proof. apply (nack_on_full_channel "c0" (demo_q "b") full_state); reflexivity. Defined.

Lemma shared_factory_mixes_topics_witness :
  let f2 := (Shared.create_queue "b" (Shared.create_queue "a"
               (Shared.flume_factory_new (Ch := ListChan) 4)).2).2 in
  (Shared.with_consumer 1 Flume.receive
     (Shared.with_consumer 0 (Flume.send (demo_q "m")) f2).2).1 = Ready (Some (demo_q "m")).
Proof.
  refine (proj1 (shared_factory_mixes_topics (Shared.flume_factory_new (Ch := ListChan) 4)
    "a" "b" (demo_q "m") _) _); reflexivity.
Defined.

Lemma default_batch_waits_witness :
  (LocalInbox.default_claim_batch 2 demo_supply 0 full_state).1 = Waiting ∧
  items (LocalInbox.default_claim_batch 2 demo_supply 0 full_state).2 = [].
Proof. apply (default_batch_waits 2 demo_supply 0 full_state). simpl. lia. Defined.

Close Scope string_scope.
