(* ===== verification/Factories.v ===== *)
(** * Queue factories: [queues/{factory,consumer_factory}.rs], [event_base_queue/src/{flume,mpmc,crossfire}.rs]

    A factory hands out producers and consumers that hold the ends of
    channels; two of them with the same end share the channel.  The channels
    live in a store here and an end is a number, so that what is shared and
    what is not can be stated: which consumer sees what a producer sends.
    [QueueFactory] is the trait; the three in-memory factories are its
    instances. *)
From S2P Require Import Prelude Errors Message Runtime Queues QueueTheorems.

Section factories.
Context {Ch : Type} `{ChannelLaws Ch}.

(** ** The store *)

(** [tx] and [rx] of a consumer belong to the same channel in all three
    backends; the pending claims are the consumer's own. *)
Record ConsumerEnd : Type := { ce_chan : nat; ce_pending : gmap string EMessage }.

(** [RoutingProducer]'s table is shared by the factory and its producers. *)
Record Store : Type := {
  st_chans : list Ch;
  st_consumers : list ConsumerEnd;
  st_routes : gmap string nat
}.

Definition store_empty : Store := {| st_chans := []; st_consumers := []; st_routes := ∅ |}.

(** A producer that feeds one channel, and a factory of consumers of it. *)
Record ProducerEnd : Type := { pe_tx : nat }.
Record ConsumerMaker : Type := { mk_tx : nat; mk_rx : nat }.

Definition add_channel (c : Ch) (s : Store) : nat * Store :=
  (length (st_chans s), {| st_chans := st_chans s ++ [c]; st_consumers := st_consumers s;
                           st_routes := st_routes s |}).
Definition add_consumer (i : nat) (s : Store) : nat * Store :=
  (length (st_consumers s),
   {| st_chans := st_chans s;
      st_consumers := st_consumers s ++ [{| ce_chan := i; ce_pending := ∅ |}];
      st_routes := st_routes s |}).

(** ** The traits *)

Class QueueFactory (F P : Type) : Type := {
  qf_create_queue : string → F → Store → Res (ProducerEnd * ConsumerMaker) * Store;
  qf_create_global_producer : F → Res P;
  qf_create_main_consumer : F → Store → Res nat * Store;
  qf_name : string;
  qf_health_check : Res unit;
  qf_shutdown : Res unit
}.

(** The defaults of the trait. *)
Definition default_health_check : Res unit := Ok tt.
Definition default_shutdown : Res unit := Ok tt.

(** [ConsumerFactory]. *)
Class ConsumerFactory (M : Type) : Type := {
  cf_create_consumer : M → Store → nat * Store;
  cf_clone : M → M
}.
#[export] Instance maker_consumer_factory : ConsumerFactory ConsumerMaker := {|
  cf_create_consumer m := add_consumer (mk_rx m);
  cf_clone m := {| mk_tx := mk_tx m; mk_rx := mk_rx m |}
|}.
End factories.
Arguments Store Ch : clear implicits.
Arguments QueueFactory Ch F P : clear implicits.

Open Scope string_scope.

Module FlumeFactory.
Section flume.
Context {Ch : Type} `{Channel Ch}.

Record Factory : Type := { tx : nat; rx : nat }.

Definition new (capacity : nat) (s : Store Ch) : Factory * Store Ch :=
  let '(i, s') := add_channel (if decide (0 < capacity)%nat then ch_bounded capacity else ch_unbounded) s in
  ({| tx := i; rx := i |}, s').

Definition maker_new (tx rx : nat) : ConsumerMaker := {| mk_tx := tx; mk_rx := rx |}.

Definition create_queue (t : string) (f : Factory) (s : Store Ch)
    : Res (ProducerEnd * ConsumerMaker) * Store Ch :=
  (Ok ({| pe_tx := tx f |}, maker_new (tx f) (rx f)), s).
Definition create_global_producer (f : Factory) : Res ProducerEnd := Ok {| pe_tx := tx f |}.
Definition create_main_consumer (f : Factory) (s : Store Ch) : Res nat * Store Ch :=
  let '(i, s') := add_consumer (rx f) s in (Ok i, s').
Definition name : string := "memory".
Definition health_check : Res unit := Ok tt.

#[export] Instance flume_factory : QueueFactory Ch Factory ProducerEnd := {|
  qf_create_queue := create_queue; qf_create_global_producer := create_global_producer;
  qf_create_main_consumer := create_main_consumer; qf_name := name;
  qf_health_check := health_check; qf_shutdown := default_shutdown
|}.
End flume.
End FlumeFactory.

Module MpmcFactory.
Section mpmc.
Context {Ch : Type} `{Channel Ch}.

Record Factory : Type := { tx : nat; rx : nat }.

Definition new (capacity : nat) (s : Store Ch) : Factory * Store Ch :=
  let '(i, s') := add_channel (ch_bounded capacity) s in ({| tx := i; rx := i |}, s').

Definition maker_new (tx rx : nat) : ConsumerMaker := {| mk_tx := tx; mk_rx := rx |}.

Definition create_queue (t : string) (f : Factory) (s : Store Ch)
    : Res (ProducerEnd * ConsumerMaker) * Store Ch :=
  (Ok ({| pe_tx := tx f |}, maker_new (tx f) (rx f)), s).
Definition create_global_producer (f : Factory) : Res ProducerEnd := Ok {| pe_tx := tx f |}.
Definition create_main_consumer (f : Factory) (s : Store Ch) : Res nat * Store Ch :=
  let '(i, s') := add_consumer (rx f) s in (Ok i, s').
Definition name : string := "memory".
Definition health_check : Res unit := Ok tt.

#[export] Instance mpmc_factory : QueueFactory Ch Factory ProducerEnd := {|
  qf_create_queue := create_queue; qf_create_global_producer := create_global_producer;
  qf_create_main_consumer := create_main_consumer; qf_name := name;
  qf_health_check := health_check; qf_shutdown := default_shutdown
|}.
End mpmc.
End MpmcFactory.

Module CrossfireFactory.
Section crossfire.
Context {Ch : Type} `{Channel Ch}.

Record Factory : Type := { tx : nat; rx : nat; capacity : nat }.

(** [RoutingProducer]; its table is the store's. *)
Record RoutingProducer : Type := { default_tx : nat }.

Definition new (capacity : nat) (s : Store Ch) : Factory * Store Ch :=
  let '(i, s') := add_channel (ch_bounded capacity) s in
  ({| tx := i; rx := i; capacity := capacity |}, s').

Definition maker_new (tx rx : nat) : ConsumerMaker := {| mk_tx := tx; mk_rx := rx |}.

(** A channel of its own, entered into the table under the topic. *)
Definition create_queue (t : string) (f : Factory) (s : Store Ch)
    : Res (ProducerEnd * ConsumerMaker) * Store Ch :=
  let '(i, s1) := add_channel (ch_bounded (capacity f)) s in
  (Ok ({| pe_tx := i |}, maker_new i i),
   {| st_chans := st_chans s1; st_consumers := st_consumers s1;
      st_routes := <[t := i]> (st_routes s1) |}).
Definition create_global_producer (f : Factory) : Res RoutingProducer := Ok {| default_tx := tx f |}.
Definition create_main_consumer (f : Factory) (s : Store Ch) : Res nat * Store Ch :=
  let '(i, s') := add_consumer (rx f) s in (Ok i, s').
Definition name : string := "memory".
Definition health_check : Res unit := Ok tt.

#[export] Instance crossfire_factory : QueueFactory Ch Factory RoutingProducer := {|
  qf_create_queue := create_queue; qf_create_global_producer := create_global_producer;
  qf_create_main_consumer := create_main_consumer; qf_name := name;
  qf_health_check := health_check; qf_shutdown := default_shutdown
|}.
End crossfire.
End CrossfireFactory.

Close Scope string_scope.

(** ** Using the ends *)

Section use.
Context {Ch : Type} `{ChannelLaws Ch}.

Definition set_chan (i : nat) (c : Ch) (s : Store Ch) : Store Ch :=
  {| st_chans := <[i := c]> (st_chans s); st_consumers := st_consumers s; st_routes := st_routes s |}.
Definition set_end (j : nat) (e : ConsumerEnd) (s : Store Ch) : Store Ch :=
  {| st_chans := st_chans s; st_consumers := <[j := e]> (st_consumers s); st_routes := st_routes s |}.

(** A producer with the end [i]; a consumer with the number [j]. *)
Definition produce (i : nat) (op : QState Ch → poll (Res unit) * QState Ch) (s : Store Ch)
    : poll (Res unit) * Store Ch :=
  match st_chans s !! i with
  | Some c => let '(p, q) := op {| q_chan := c; q_pending := ∅ |} in (p, set_chan i (q_chan q) s)
  | None => (Stuck, s)
  end.
Definition consume {A} (j : nat) (op : QState Ch → poll A * QState Ch) (s : Store Ch)
    : poll A * Store Ch :=
  match st_consumers s !! j with
  | Some e =>
      match st_chans s !! ce_chan e with
      | Some c =>
          let '(p, q) := op {| q_chan := c; q_pending := ce_pending e |} in
          (p, set_end j {| ce_chan := ce_chan e; ce_pending := q_pending q |}
                (set_chan (ce_chan e) (q_chan q) s))
      | None => (Stuck, s)
      end
  | None => (Stuck, s)
  end.

(** [RoutingProducer]: the channel of the topic, by one of the three ways. *)
Definition route (op : QState Ch → poll (Res unit) * QState Ch) (m : EMessage) (s : Store Ch)
    : poll (Res unit) * Store Ch :=
  match st_routes s !! topic m with
  | Some i => produce i op s
  | None =>
      if Crossfire.is_system_topic (topic m) then (Ready (Ok tt), s)
      else (Ready (Err (Crossfire.not_registered (topic m))), s)
  end.

Definition items_at (i : nat) (s : Store Ch) : list EMessage :=
  match st_chans s !! i with Some c => ch_items c | None => [] end.

(** The routing producer of [Queues], which keeps the channels in its table,
    is this one seen through the table. *)
Definition as_factory (d : Ch) (cap : nat) (s : Store Ch) : Crossfire.Factory Ch :=
  {| Crossfire.f_default := d; Crossfire.f_capacity := cap;
     Crossfire.f_topics := omap (λ i, st_chans s !! i) (st_routes s) |}.

Definition routes_ok (s : Store Ch) : Prop :=
  (∀ t i, st_routes s !! t = Some i → (i < length (st_chans s))%nat) ∧
  ∀ t t' i, st_routes s !! t = Some i → st_routes s !! t' = Some i → t = t'.

Lemma route_refines m d cap s :
  routes_ok s →
  let '(p, s') := route (Crossfire.send m) m s in
  Crossfire.routing_send m (as_factory d cap s) = (p, as_factory d cap s').
Proof.
  intros [Hlt Hinj]. unfold route, Crossfire.routing_send, as_factory at 1. simpl.
  rewrite lookup_omap. destruct (st_routes s !! topic m) as [i|] eqn:Hi; simpl.
  2:{ destruct (Crossfire.is_system_topic (topic m)); by unfold Crossfire.not_registered. }
  unfold produce. destruct (lookup_lt_is_Some_2 (st_chans s) i) as [c Hc]; [by eapply Hlt|].
  rewrite Hc. unfold Crossfire.send. simpl. destruct (ch_send m c) as [c'| |why]; simpl.
  - f_equal. unfold Crossfire.set_topic_chan, as_factory. simpl. f_equal. apply map_eq. intros t.
    rewrite lookup_omap. destruct (decide (t = topic m)) as [->|Hne].
    + rewrite lookup_insert_eq, Hi. simpl. rewrite list_lookup_insert_eq; [done|].
      by eapply lookup_lt_Some.
    + rewrite lookup_insert_ne, lookup_omap by done.
      destruct (st_routes s !! t) as [i'|] eqn:Hi'; simpl; [|done].
      rewrite list_lookup_insert_ne; [done|]. intros ->. apply Hne. by eapply Hinj.
  - f_equal. unfold as_factory, set_chan. simpl. by rewrite list_insert_id.
  - f_equal. unfold as_factory, set_chan. simpl. by rewrite list_insert_id.
Qed.
End use.

(** ** The main consumer of the crossfire factory *)

Section main_consumer.
Context {Ch : Type} `{ChannelLaws Ch}.
Existing Instance Crossfire.crossfire_queue.

(** What a consumer does to its queue. *)
Inductive ConsumerOp : Type :=
| KReceive
| KClaim (sup : Supply)
| KClaimBatch (n : nat) (sup : Supply)
| KAck (i : string)
| KNack (i : string).

Definition consumer_op (k : ConsumerOp) (q : QState Ch) : poll unit * QState Ch :=
  match k with
  | KReceive => (Ready tt, (receive q).2)
  | KClaim sup => (Ready tt, (claim sup q).2)
  | KClaimBatch n sup => (Ready tt, (claim_batch n sup q).2)
  | KAck i => (Ready tt, (ack i q).2)
  | KNack i => (Ready tt, (nack i q).2)
  end.

Inductive SendWay (m : EMessage) : (QState Ch → poll (Res unit) * QState Ch) → Prop :=
| WaySend : SendWay m (send m)
| WayTrySend : SendWay m (try_send m)
| WaySendTimeout elapsed : SendWay m (send_timeout m elapsed).

(** The factory in use: topics are registered, consumers are made for them
    and as main consumers, topic producers and the global producer send,
    consumers receive and settle. *)
Inductive factory_step (f : CrossfireFactory.Factory) : Store Ch → Store Ch → Prop :=
| FCreateQueue s t : factory_step f s (CrossfireFactory.create_queue t f s).2
| FCreateConsumer s i : (CrossfireFactory.tx f < i < length (st_chans s))%nat →
    factory_step f s (add_consumer i s).2
| FCreateMain s : factory_step f s (CrossfireFactory.create_main_consumer f s).2
| FSend s i m op : (CrossfireFactory.tx f < i < length (st_chans s))%nat → SendWay m op →
    factory_step f s (produce i op s).2
| FGlobalSend s m op : SendWay m op → factory_step f s (route op m s).2
| FConsume s j k : factory_step f s (consume j (consumer_op k) s).2.

Definition factory_reach (cap : nat) (s : Store Ch) : Prop :=
  rtc (factory_step (CrossfireFactory.new (Ch := Ch) cap store_empty).1)
    (CrossfireFactory.new cap store_empty).2 s.

(** The default channel is the first one. *)
Lemma new_factory cap :
  CrossfireFactory.tx (CrossfireFactory.new (Ch := Ch) cap store_empty).1 = 0%nat ∧
  CrossfireFactory.rx (CrossfireFactory.new (Ch := Ch) cap store_empty).1 = 0%nat.
Proof. done. Qed.

Record default_idle (s : Store Ch) : Prop := {
  di_there : (0 < length (st_chans s))%nat;
  di_items : items_at 0 s = [];
  di_claims : ∀ j e, st_consumers s !! j = Some e → ce_chan e = 0%nat → ce_pending e = ∅;
  di_routes : ∀ t i, st_routes s !! t = Some i → (0 < i < length (st_chans s))%nat;
  di_ends : ∀ j e, st_consumers s !! j = Some e → (ce_chan e < length (st_chans s))%nat
}.

(** Nothing comes out of an empty queue and nothing goes in by claims. *)
Lemma consumer_op_empty k (q : QState Ch) :
  items q = [] → q_pending q = ∅ →
  items (consumer_op k q).2 = [] ∧ q_pending (consumer_op k q).2 = ∅.
Proof.
  intros Hi Hp. destruct k as [|sup|n sup|i|i]; cbn [consumer_op snd].
  - pose proof (law_receive q) as Hl. destruct (receive q) as [[[m|]| |] q']; cbn [snd]; try by subst.
    destruct Hl as [Hl _]. congruence.
  - pose proof (law_claim sup q) as Hl. destruct (claim sup q) as [[[[cm|]|]| |] q']; cbn [snd];
      try by subst. destruct Hl as (Hl & _). congruence.
  - pose proof (law_claim_batch n sup q) as Hl. destruct (claim_batch n sup q) as [p q'].
    destruct Hl as (batch & _ & _ & Hl & _ & Hq). rewrite Hi in Hl. symmetry in Hl.
    apply app_eq_nil in Hl as [Hb Hl]. apply fmap_nil_inv in Hb. subst. cbn [snd foldl] in *. by rewrite Hp in Hq.
  - destruct (law_ack i q) as (_ & Hl & Hq). by rewrite Hl, Hq, Hp, delete_empty.
  - pose proof (law_nack i q) as Hl. destruct (nack i q) as [p q']. cbn [snd] in *.
    destruct (accepted p); [|by subst]. destruct Hl as (m & Hm & _). by rewrite Hp, lookup_empty in Hm.
Qed.

(** A send through an end that is not the default channel's. *)
Lemma produce_idle i op s :
  default_idle s → (0 < i)%nat → default_idle (produce i op s).2.
Proof.
  intros Hs Hi. unfold produce. destruct (st_chans s !! i) as [c|]; [|done].
  destruct (op _) as [p q]. simpl. split; simpl.
  - rewrite length_insert. apply Hs.
  - unfold items_at. simpl. rewrite list_lookup_insert_ne by lia. apply Hs.
  - apply Hs.
  - intros t j Hj. rewrite length_insert. by apply (di_routes _ Hs t).
  - intros j e Hj. rewrite length_insert. by apply (di_ends _ Hs j).
Qed.

Lemma consume_idle j k s : default_idle s → default_idle (consume j (consumer_op k) s).2.
Proof.
  intros Hs. unfold consume. destruct (st_consumers s !! j) as [e|] eqn:Hj; [|done].
  destruct (st_chans s !! ce_chan e) as [c|] eqn:Hc; [|done].
  pose proof (consumer_op_empty k {| q_chan := c; q_pending := ce_pending e |}) as He.
  destruct (consumer_op k _) as [p q]. simpl in *.
  assert (ce_chan e = 0%nat → ch_items (q_chan q) = [] ∧ q_pending q = ∅) as Hempty.
  { intros E0. apply He; [|by eapply di_claims]. pose proof (di_items _ Hs) as Hi.
    unfold items_at in Hi. by rewrite <- E0, Hc in Hi. }
  split; simpl.
  - rewrite length_insert. apply Hs.
  - unfold items_at. simpl. destruct (decide (ce_chan e = 0%nat)) as [E0|Hne].
    + rewrite E0, list_lookup_insert_eq by apply Hs. by apply Hempty.
    + rewrite list_lookup_insert_ne by done. apply Hs.
  - intros j' e' Hj' E0. apply list_lookup_insert_Some in Hj' as [(-> & <- & _)|[_ Hj']].
    + by apply Hempty.
    + by eapply di_claims.
  - intros t i Hi. rewrite length_insert. by apply (di_routes _ Hs t).
  - intros j' e' Hj'. rewrite length_insert.
    apply list_lookup_insert_Some in Hj' as [(-> & <- & _)|[_ Hj']].
    + simpl. by eapply lookup_lt_Some.
    + by apply (di_ends _ Hs j').
Qed.

Lemma add_consumer_idle i s :
  (i < length (st_chans s))%nat → default_idle s → default_idle (add_consumer i s).2.
Proof.
  intros Hi Hs. split; simpl; try apply Hs.
  - intros j e Hj E0. apply lookup_snoc_Some in Hj as [[_ Hj]|[_ <-]]; [by eapply di_claims|done].
  - intros j e Hj. apply lookup_snoc_Some in Hj as [[_ Hj]|[_ <-]]; [by eapply (di_ends _ Hs)|done].
Qed.

Lemma step_idle cap s s' :
  factory_step (CrossfireFactory.new (Ch := Ch) cap store_empty).1 s s' → default_idle s → default_idle s'.
Proof.
  intros Hst Hs. destruct Hst as [s t|s i Hi|s|s i m op Hi Hop|s m op Hop|s j k].
  - split; simpl.
    + rewrite length_app. simpl. lia.
    + unfold items_at. simpl. rewrite lookup_app_l by apply Hs. apply Hs.
    + apply Hs.
    + intros t' i. rewrite length_app. simpl. pose proof (di_there _ Hs).
      intros [[<- <-]|[_ Hi]]%lookup_insert_Some; [lia|]. apply (di_routes _ Hs) in Hi. lia.
    + intros j e Hj. rewrite length_app. apply (di_ends _ Hs) in Hj. lia.
  - apply add_consumer_idle; [lia|done].
  - apply add_consumer_idle; [by apply Hs|done].
  - apply produce_idle; [done|]. simpl in Hi. lia.
  - unfold route. destruct (st_routes s !! topic m) as [i|] eqn:Hi.
    + apply produce_idle; [done|]. by eapply di_routes.
    + by destruct (Crossfire.is_system_topic (topic m)).
  - by apply consume_idle.
Qed.

Lemma reach_idle cap s : factory_reach cap s → default_idle s.
Proof.
  intros Hr. unfold factory_reach in Hr. remember (CrossfireFactory.new cap store_empty).2 as s0 eqn:E.
  assert (default_idle s0) as Hs0.
  { subst. split; simpl; [lia| | | |].
    - unfold items_at. simpl. apply ch_items_bounded.
    - done.
    - intros t i. by rewrite lookup_empty.
    - done. }
  clear E. induction Hr; [done|]. apply IHHr. by eapply step_idle.
Qed.

(** C40. The main consumer of the crossfire factory never gets a message: whatever
    topics are registered and whatever is sent, by the producers of the
    topics or by the global producer, for a known, unknown or system topic,
    a claim of a batch by a consumer that [create_main_consumer] made returns
    at once with nothing.  So the main loop of a node ([recv]) over this
    factory has nothing to dispatch; the messages are with the topics. *)
Theorem crossfire_main_consumer_starves cap s j e n sup :
  factory_reach cap s → st_consumers s !! j = Some e →
  ce_chan e = CrossfireFactory.rx (CrossfireFactory.new (Ch := Ch) cap store_empty).1 →
  (consume j (Crossfire.claim_batch n sup) s).1 = Ready (Ok []).
Proof.
  intros Hr He E0. apply reach_idle in Hr. simpl in E0.
  unfold consume. rewrite He, E0. destruct (lookup_lt_is_Some_2 (st_chans s) 0) as [c Hc]; [apply Hr|].
  rewrite Hc. pose proof (di_items _ Hr) as Hi. unfold items_at in Hi. rewrite Hc in Hi.
  pose proof (law_claim_batch n sup {| q_chan := c; q_pending := ce_pending e |}) as Hl.
  change (claim_batch n sup) with (Crossfire.claim_batch (Ch := Ch) n sup) in Hl.
  destruct (Crossfire.claim_batch n sup _) as [p q]. destruct Hl as (batch & -> & Hlen & _).
  unfold items in Hlen. simpl in *. rewrite Hi in Hlen. simpl in Hlen. destruct batch; [done|simpl in Hlen; lia].
Qed.

Lemma way_pushes m op : SendWay m op → ∀ q, let '(p, q') := op q in
  if accepted p then items q' = items q ++ [m] ∧ q_pending q' = q_pending q else q' = q.
Proof.
  intros Hop q. destruct Hop as [| |elapsed].
  - apply (law_send m q).
  - apply (law_try_send m q).
  - apply (law_send_timeout elapsed m q).
Qed.

(** A topic that is registered again gets a queue nobody reads: no consumer
    that exists has the new channel, and a message sent to the topic from now
    on goes, if it is accepted, to the new channel and to no other, so the
    dispatcher and the workers that serve the topic never see it. *)
Theorem registered_again_cuts_off_consumers cap s t m op :
  let f := (CrossfireFactory.new (Ch := Ch) cap store_empty).1 in
  factory_reach cap s → topic m = t → SendWay m op →
  ∃ i s1, CrossfireFactory.create_queue t f s = (Ok ({| pe_tx := i |}, CrossfireFactory.maker_new i i), s1) ∧
    (∀ j e, st_consumers s1 !! j = Some e → ce_chan e ≠ i) ∧
    items_at i (route op m s1).2 = (if accepted (route op m s1).1 then [m] else []) ∧
    ∀ i', (i' < length (st_chans s))%nat → items_at i' (route op m s1).2 = items_at i' s.
Proof.
  intros f Hr Ht Hop. apply reach_idle in Hr. eexists _, _. split; [reflexivity|]. simpl. split.
  { intros j e Hj. apply (di_ends _ Hr) in Hj. lia. }
  unfold route. simpl. rewrite <- Ht, lookup_insert_eq. unfold produce. simpl.
  rewrite lookup_app_r, Nat.sub_diag by lia. simpl.
  pose proof (way_pushes m op Hop {| q_chan := ch_bounded (CrossfireFactory.capacity f); q_pending := ∅ |}) as Hp.
  simpl in Hp. destruct (op _) as [p q]. simpl. split.
  - unfold items_at. simpl. rewrite list_lookup_insert_eq by (rewrite length_app; simpl; lia).
    destruct (accepted p); [|subst q; apply ch_items_bounded].
    destruct Hp as [Hp _]. unfold items in Hp. simpl in Hp. by rewrite Hp, ch_items_bounded.
  - intros i' Hi'. unfold items_at. simpl. rewrite list_lookup_insert_ne by lia.
    by rewrite lookup_app_l by lia.
Qed.
End main_consumer.

(** ** The hypotheses can hold *)

Open Scope string_scope.

Definition demo_factory : CrossfireFactory.Factory := (CrossfireFactory.new (Ch := ListChan) 4 store_empty).1.

(** A main consumer, a topic with a consumer, and a message for it. *)
Definition demo_store : Store ListChan :=
  let s1 := (CrossfireFactory.create_main_consumer demo_factory
               (CrossfireFactory.new (Ch := ListChan) 4 store_empty).2).2 in
  let s2 := (CrossfireFactory.create_queue "orders" demo_factory s1).2 in
  let s3 := (add_consumer 1 s2).2 in
  (route (Crossfire.send (demo_q "a")) (demo_q "a") s3).2.

Lemma demo_store_reach : factory_reach 4 demo_store.
Proof.
  unfold factory_reach, demo_store.
  eapply rtc_l; [apply FCreateMain|]. eapply rtc_l; [apply (FCreateQueue _ _ "orders")|].
  eapply rtc_l; [apply (FCreateConsumer _ _ 1); simpl; lia|].
  apply rtc_once, (FGlobalSend _ _ (demo_q "a")), WaySend.
Qed.

Lemma crossfire_main_consumer_starves_witness :
  items_at 1 demo_store = [demo_q "a"] ∧
  (consume 0 (Crossfire.claim_batch 8 demo_supply) demo_store).1 = Ready (Ok []).
Proof.
  split; [reflexivity|].
  apply (crossfire_main_consumer_starves 4 demo_store 0 {| ce_chan := 0; ce_pending := ∅ |} 8 demo_supply);
    [apply demo_store_reach|reflexivity|reflexivity].
Defined.

Lemma registered_again_cuts_off_consumers_witness :
  ∃ i s1, CrossfireFactory.create_queue "orders" demo_factory demo_store
      = (Ok ({| pe_tx := i |}, CrossfireFactory.maker_new i i), s1) ∧
    (∀ j e, st_consumers s1 !! j = Some e → ce_chan e ≠ i) ∧
    items_at i (route (Crossfire.send (demo_q "b")) (demo_q "b") s1).2
      = (if accepted (route (Crossfire.send (demo_q "b")) (demo_q "b") s1).1 then [demo_q "b"] else []) ∧
    ∀ i', (i' < length (st_chans demo_store))%nat →
      items_at i' (route (Crossfire.send (demo_q "b")) (demo_q "b") s1).2 = items_at i' demo_store.
Proof.
  apply (registered_again_cuts_off_consumers 4 demo_store "orders" (demo_q "b"));
    [apply demo_store_reach|reflexivity|apply WaySend].
Defined.

Close Scope string_scope.
