(* ===== verification/RedisQueue.v ===== *)
(** * The Redis streams queue: [event_base_queue/src/redis_streams.rs]

    One stream per topic, read through consumer groups.  The server is outside
    the repository: [Streams] is the commands the code sends, [StreamsLaws]
    what they are documented to do to the streams.  A consumer is a record
    threaded with the server through a state and error monad. *)
From S2P Require Import Prelude Errors Message Codec Runtime Queues.

Open Scope string_scope.
Declare Scope method_scope.

(** ** The server *)

(** An entry of a stream, [StreamId]. *)
Record StreamId : Type := { sid : string; sfields : gmap string bytes }.

Class Streams (S : Type) : Type := {
  (** [redis::Client::open(url)] *)
  x_open : string → result unit string;
  (** [client.get_connection_manager()] *)
  x_connect : S → result unit string * S;
  (** [XADD key [MAXLEN ~ n] * field value] *)
  x_xadd : string → option Z → string → bytes → S → result string string * S;
  (** [XACK key group id] *)
  x_xack : string → string → string → S → result Z string * S;
  (** [XGROUP CREATE key group start MKSTREAM] *)
  x_xgroup_create : string → string → string → S → result unit string * S;
  (** [XREADGROUP GROUP group consumer BLOCK ms COUNT n STREAMS key >] *)
  x_xreadgroup : string → string → string → Z → nat → S →
    result (option (list (string * list StreamId))) string * S;
  (** [XAUTOCLAIM key group consumer min-idle start COUNT n] *)
  x_xautoclaim : string → string → string → Z → string → nat → S →
    result (list StreamId) string * S;
  x_ping : S → result string string * S
}.

(** A consumer group: the entries after its last-delivered id, and its
    pending entries list with their owners. *)
Record Group : Type := { g_new : list string; g_pel : gmap string string }.

Record Stream : Type := { st_entries : list StreamId; st_groups : gmap string Group }.

Definition no_stream : Stream := {| st_entries := []; st_groups := ∅ |}.

Abbreviation Keyspace := (gmap string Stream).
Definition stream_at (k : string) (v : Keyspace) : Stream := default no_stream (v !! k).

Definition append_entry (i f : string) (b : bytes) (st : Stream) : Stream :=
  {| st_entries := (st_entries st ++ [{| sid := i; sfields := {[f := b]} |}])%list;
     st_groups := (λ g, {| g_new := (g_new g ++ [i])%list; g_pel := g_pel g |}) <$> st_groups st |}.

Definition trim_entries (j : nat) (st : Stream) : Stream :=
  {| st_entries := drop j (st_entries st);
     st_groups := (λ g, {| g_new := filter (λ i, i ∈ map sid (drop j (st_entries st))) (g_new g);
                           g_pel := g_pel g |}) <$> st_groups st |}.

Definition with_group (g : string) (gr : Group) (st : Stream) : Stream :=
  {| st_entries := st_entries st; st_groups := <[g := gr]> (st_groups st) |}.

Definition with_pel (p : gmap string string) (gr : Group) : Group :=
  {| g_new := g_new gr; g_pel := p |}.

Definition new_group (start : string) (st : Stream) : Group :=
  {| g_new := if decide (start = "$") then [] else map sid (st_entries st); g_pel := ∅ |}.

(** The first [n] new entries become pending for [consumer]. *)
Definition deliver_new (n : nat) (consumer : string) (gr : Group) : Group :=
  {| g_new := drop n (g_new gr);
     g_pel := foldr (λ i, insert i consumer) (g_pel gr) (take n (g_new gr)) |}.

(** A command that was answered with an error did its work or nothing. *)
Definition effect {A} (v v' : Keyspace) (reply : result A string) (after : Keyspace → Prop)
    : Prop :=
  after v' ∨ (is_ok reply = false ∧ v' = v).

(** [e.to_string().contains(p)]. *)
Fixpoint contains (p s : string) : bool :=
  starts_with p s || (match s with String _ s => contains p s | EmptyString => false end).

Class StreamsLaws (S : Type) `{Streams S} : Type := {
  streams : S → Keyspace;
  connect_law : ∀ s a s', x_connect s = (a, s') → streams s' = streams s;
  xadd_law : ∀ k n f b s a s', x_xadd k n f b s = (a, s') →
    effect (streams s) (streams s') a (λ v, ∃ i,
      (i ∉ map sid (st_entries (stream_at k (streams s)))) ∧
      (∀ g gr, st_groups (stream_at k (streams s)) !! g = Some gr → g_pel gr !! i = None) ∧
      match n with
      | None => v = <[k := append_entry i f b (stream_at k (streams s))]> (streams s)
      | Some _ => ∃ j, v = (<[k := trim_entries j
          (append_entry i f b (stream_at k (streams s)))]> (streams s) : Keyspace)
      end);
  xack_law : ∀ k g i s a s', x_xack k g i s = (a, s') →
    effect (streams s) (streams s') a (λ v,
      match st_groups (stream_at k (streams s)) !! g with
      | Some gr => v = <[k := with_group g (with_pel (delete i (g_pel gr)) gr)
                                (stream_at k (streams s))]> (streams s)
      | None => v = streams s
      end);
  xgroup_law : ∀ k g start s a s', x_xgroup_create k g start s = (a, s') →
    match st_groups (stream_at k (streams s)) !! g with
    | Some _ => is_ok a = false ∧ streams s' = streams s
    | None =>
        effect (streams s) (streams s') a (λ v,
          v = <[k := with_group g (new_group start (stream_at k (streams s)))
                       (stream_at k (streams s))]> (streams s)) ∧
        ∀ e, a = Err e → contains "BUSYGROUP" e = false
    end;
  xread_law : ∀ k g c block n s a s', x_xreadgroup k g c block n s = (a, s') → (0 < n)%nat →
    (streams s' = streams s ∧
      ∀ o, a = Ok o → o = None ∧
        ∃ gr, st_groups (stream_at k (streams s)) !! g = Some gr ∧ g_new gr = []) ∨
    ∃ gr, st_groups (stream_at k (streams s)) !! g = Some gr ∧
      streams s' = <[k := with_group g (deliver_new n c gr) (stream_at k (streams s))]> (streams s) ∧
      ∀ o, a = Ok o → ∃ es, o = Some [(k, es)] ∧ map sid es = take n (g_new gr) ∧
        Forall (λ e, e ∈ st_entries (stream_at k (streams s))) es;
  xautoclaim_law : ∀ k g c idle start n s a s', x_xautoclaim k g c idle start n s = (a, s') →
    (is_ok a = false ∧ streams s' = streams s) ∨
    ∃ gr pel, st_groups (stream_at k (streams s)) !! g = Some gr ∧
      streams s' = <[k := with_group g (with_pel pel gr) (stream_at k (streams s))]> (streams s) ∧
      (∀ i, is_Some (pel !! i) → is_Some (g_pel gr !! i)) ∧
      (∀ i, is_Some (g_pel gr !! i) → i ∈ map sid (st_entries (stream_at k (streams s))) →
        is_Some (pel !! i)) ∧
      ∀ es, a = Ok es → NoDup (map sid es) ∧
        Forall (λ e, e ∈ st_entries (stream_at k (streams s)) ∧ pel !! sid e = Some c) es;
  ping_law : ∀ s a s', x_ping s = (a, s') → streams s' = streams s
}.

(** ** Configuration *)

Definition MSG_FIELD : string := "m".

Record RedisQueueConfig : Type := {
  rq_url : string;
  rq_prefix : string;
  rq_group : string;
  rq_block_ms : Z;
  rq_maxlen : option Z;
  rq_node : option string
}.

Definition FANOUT_SYSTEM_TOPICS : list string :=
  [SYSTEM_TOPIC_SHUTDOWN; SYSTEM_TOPIC_TOPIC_SYNC; SYSTEM_TOPIC_METRICS].

Definition group_start_for (topic : string) : string :=
  if decide (topic ∈ FANOUT_SYSTEM_TOPICS) then "$" else "0".

Definition RedisQueueConfig_new (url : string) : RedisQueueConfig :=
  {| rq_url := url; rq_prefix := "event_base"; rq_group := "event_base"; rq_block_ms := 500;
     rq_maxlen := None; rq_node := None |}.

Definition with_prefix (prefix : string) (c : RedisQueueConfig) : RedisQueueConfig :=
  {| rq_url := rq_url c; rq_prefix := prefix; rq_group := rq_group c;
     rq_block_ms := rq_block_ms c; rq_maxlen := rq_maxlen c; rq_node := rq_node c |}.
Definition with_group_name (group : string) (c : RedisQueueConfig) : RedisQueueConfig :=
  {| rq_url := rq_url c; rq_prefix := rq_prefix c; rq_group := group;
     rq_block_ms := rq_block_ms c; rq_maxlen := rq_maxlen c; rq_node := rq_node c |}.
Definition with_block_ms (ms : Z) (c : RedisQueueConfig) : RedisQueueConfig :=
  {| rq_url := rq_url c; rq_prefix := rq_prefix c; rq_group := rq_group c;
     rq_block_ms := ms; rq_maxlen := rq_maxlen c; rq_node := rq_node c |}.
Definition with_maxlen (n : Z) (c : RedisQueueConfig) : RedisQueueConfig :=
  {| rq_url := rq_url c; rq_prefix := rq_prefix c; rq_group := rq_group c;
     rq_block_ms := rq_block_ms c; rq_maxlen := Some n; rq_node := rq_node c |}.
Definition with_node (node : string) (c : RedisQueueConfig) : RedisQueueConfig :=
  {| rq_url := rq_url c; rq_prefix := rq_prefix c; rq_group := rq_group c;
     rq_block_ms := rq_block_ms c; rq_maxlen := rq_maxlen c; rq_node := Some node |}.

(** [global] is [try_get_node_name()]. *)
Definition node_or_global (global : option string) (c : RedisQueueConfig) : option string :=
  match rq_node c with Some n => Some n | None => global end.

Definition group_for (global : option string) (topic : string) (c : RedisQueueConfig) : string :=
  if decide (topic ∈ FANOUT_SYSTEM_TOPICS) then
    match node_or_global global c with
    | Some node => rq_group c +:+ "@" +:+ node
    | None => rq_group c
    end
  else rq_group c.

Definition stream_key (topic : string) (c : RedisQueueConfig) : string :=
  rq_prefix c +:+ ":" +:+ topic.

(** ** Messages and commands *)

Section queue.
Context {S : Type} `{Streams S} `{Bincode EMessage}.
(** The two [format!]s an error text is made of. *)
Context (version_text : string → Z → string) (duration_text : Duration → string).

Definition encode_msg (m : EMessage) : Res bytes :=
  map_err (λ e, EQueue (QSend ("encode failed: " +:+ e))) (bincode_encode m).

Definition decode_msg (b : bytes) : Res EMessage :=
  match bincode_decode b with
  | Err e => Err (EQueue (QReceive ("decode failed: " +:+ e)))
  | Ok (m, _) =>
      match check_wire_version version_text m with
      | Err e => Err (EQueue (QReceive (core_error_display duration_text e)))
      | Ok _ => Ok m
      end
  end.

Definition send_err (e : string) : CoreError := EQueue (QSend e).
Definition recv_err (e : string) : CoreError := EQueue (QReceive e).

(** [command.await.map_err(err)?; Ok(())]. *)
Definition discard {A} (err : string → CoreError) (c : result A string * S) : Res unit * S :=
  (match c.1 with Ok _ => Ok tt | Err e => Err (err e) end, c.2).

Definition xadd (key : string) (m : EMessage) (maxlen : option Z) (s : S) : Res unit * S :=
  match encode_msg m with
  | Err e => (Err e, s)
  | Ok b => discard send_err (x_xadd key maxlen MSG_FIELD b s)
  end.

Definition xack (key group entry_id : string) (s : S) : Res unit * S :=
  discard send_err (x_xack key group entry_id s).

(** ** Producers *)

Record RedisStreamProducer : Type := { rp_key : string; rp_maxlen : option Z }.

Definition producer_send (p : RedisStreamProducer) (m : EMessage) (s : S) : Res unit * S :=
  xadd (rp_key p) m (rp_maxlen p) s.
Definition producer_try_send (p : RedisStreamProducer) (m : EMessage) (s : S) : Res unit * S :=
  producer_send p m s.

(** [timeout(d, send)]: the deadline, when it passes first, cuts off the
    wait before or after the server ran the command. *)
Inductive deadline : Type := InTime | CutBefore | CutAfter.

Definition cut_off (d : deadline) (f : S → Res unit * S) (s : S) : Res unit * S :=
  match d with
  | InTime => f s
  | CutBefore => (Err (EQueue QTimeout), s)
  | CutAfter => (Err (EQueue QTimeout), (f s).2)
  end.
Definition producer_send_timeout (p : RedisStreamProducer) (m : EMessage) (d : deadline) (s : S)
    : Res unit * S :=
  cut_off d (producer_send p m) s.

Record RedisRoutingProducer : Type := { rr_prefix : string; rr_maxlen : option Z }.

Definition redis_routing_send (p : RedisRoutingProducer) (m : EMessage) (s : S) : Res unit * S :=
  xadd (rr_prefix p +:+ ":" +:+ topic m) m (rr_maxlen p) s.
Definition redis_routing_try_send (p : RedisRoutingProducer) (m : EMessage) (s : S)
    : Res unit * S :=
  redis_routing_send p m s.
Definition redis_routing_send_timeout (p : RedisRoutingProducer) (m : EMessage) (d : deadline)
    (s : S) : Res unit * S :=
  cut_off d (redis_routing_send p m) s.

(** ** Consumers *)

Record RedisStreamConsumer : Type := {
  c_conn : bool;
  c_key : string;
  c_group : string;
  c_group_start : string;
  c_consumer : string;
  c_block_ms : Z;
  c_maxlen : option Z;
  c_pending : gmap string (string * EMessage);
  c_group_ready : bool
}.

Definition RedisStreamConsumer_new (uuid key group group_start : string) (block_ms : Z)
    (maxlen : option Z) : RedisStreamConsumer :=
  {| c_conn := false; c_key := key; c_group := group; c_group_start := group_start;
     c_consumer := uuid; c_block_ms := block_ms; c_maxlen := maxlen; c_pending := ∅;
     c_group_ready := false |}.

Definition set_connected (c : RedisStreamConsumer) : RedisStreamConsumer :=
  {| c_conn := true; c_key := c_key c; c_group := c_group c; c_group_start := c_group_start c;
     c_consumer := c_consumer c; c_block_ms := c_block_ms c; c_maxlen := c_maxlen c;
     c_pending := c_pending c; c_group_ready := c_group_ready c |}.
Definition set_group_ready (c : RedisStreamConsumer) : RedisStreamConsumer :=
  {| c_conn := c_conn c; c_key := c_key c; c_group := c_group c;
     c_group_start := c_group_start c; c_consumer := c_consumer c; c_block_ms := c_block_ms c;
     c_maxlen := c_maxlen c; c_pending := c_pending c; c_group_ready := true |}.
Definition set_claims (p : gmap string (string * EMessage)) (c : RedisStreamConsumer)
    : RedisStreamConsumer :=
  {| c_conn := c_conn c; c_key := c_key c; c_group := c_group c;
     c_group_start := c_group_start c; c_consumer := c_consumer c; c_block_ms := c_block_ms c;
     c_maxlen := c_maxlen c; c_pending := p; c_group_ready := c_group_ready c |}.

(** A method of a consumer. *)
Definition method (A : Type) : Type := RedisStreamConsumer * S → Res A * (RedisStreamConsumer * S).

Definition mret {A} (a : A) : method A := λ cs, (Ok a, cs).
Definition mfail {A} (e : CoreError) : method A := λ cs, (Err e, cs).
Definition mbind {A B} (m : method A) (k : A → method B) : method B :=
  λ cs, match m cs with (Ok a, cs) => k a cs | (Err e, cs) => (Err e, cs) end.

(** A command, with its [?] or with its result dropped. *)
Definition command {A} (err : string → CoreError) (f : S → result A string * S) : method A :=
  λ '(c, s), let '(r, s) := f s in (map_err err r, (c, s)).
Definition function {A} (f : S → Res A * S) : method A :=
  λ '(c, s), let '(r, s) := f s in (r, (c, s)).
Definition ignoring {A} (m : method A) : method unit := λ cs, (Ok tt, (m cs).2).
Definition this : method RedisStreamConsumer := λ cs, (Ok cs.1, cs).
Definition modify (f : RedisStreamConsumer → RedisStreamConsumer) : method unit :=
  λ cs, (Ok tt, (f cs.1, cs.2)).

Notation "x ← m ; k" := (mbind m (λ x, k))
  (at level 20, m at level 100, k at level 200, only parsing) : method_scope.
Notation "m ;; k" := (mbind m (λ _, k))
  (at level 100, k at level 200, right associativity, only parsing) : method_scope.
Local Open Scope method_scope.

Definition conn : method unit :=
  c ← this;
  if c_conn c then mret tt else (command recv_err x_connect;; modify set_connected).

Definition ensure_group : method unit :=
  c ← this;
  if c_group_ready c then mret tt
  else λ '(c, s),
    match x_xgroup_create (c_key c) (c_group c) (c_group_start c) s with
    | (Ok _, s) => (Ok tt, (set_group_ready c, s))
    | (Err e, s) =>
        if contains "BUSYGROUP" e then (Ok tt, (set_group_ready c, s))
        else (Err (recv_err e), (c, s))
    end.

Definition ready_conn : method unit := conn;; ensure_group.

(** The entries of one stream of a reply. *)
Fixpoint read_entries (es : list StreamId) (out : list (string * EMessage))
    : method (list (string * EMessage)) :=
  match es with
  | [] => mret out
  | e :: es =>
      match sfields e !! MSG_FIELD with
      | Some b =>
          match decode_msg b with
          | Err err => mfail err
          | Ok m => read_entries es (out ++ [(sid e, m)])%list
          end
      | None =>
          c ← this;
          ignoring (function (xack (c_key c) (c_group c) (sid e)));;
          read_entries es out
      end
  end.

Fixpoint read_keys_loop (ks : list (string * list StreamId)) (out : list (string * EMessage))
    : method (list (string * EMessage)) :=
  match ks with
  | [] => mret out
  | (_, es) :: ks => out ← read_entries es out; read_keys_loop ks out
  end.

Definition read_group (count : nat) : method (list (string * EMessage)) :=
  ready_conn;;
  c ← this;
  reply ← command recv_err
    (x_xreadgroup (c_key c) (c_group c) (c_consumer c) (c_block_ms c) count);
  match reply with Some ks => read_keys_loop ks [] | None => mret [] end.

(** [receive]; each turn of the loop waits for at most [block_ms], and
    [fuel] is the number of turns that are waited for. *)
Fixpoint redis_receive (fuel : nat) (cs : RedisStreamConsumer * S)
    : poll (option EMessage) * (RedisStreamConsumer * S) :=
  match fuel with
  | O => (Waiting, cs)
  | Datatypes.S fuel =>
      match read_group 1 cs with
      | (Err _, cs) => (Ready None, cs)
      | (Ok entries, cs) =>
          match last entries with
          | None => redis_receive fuel cs
          | Some (entry_id, m) =>
              match conn cs with
              | (Err _, cs) => (Ready None, cs)
              | (Ok _, (c, s)) =>
                  (Ready (Some m), (c, (xack (c_key c) (c_group c) entry_id s).2))
              end
          end
      end
  end.

(** [pending.insert(claim_id, ..); batch.push(..)]. *)
Definition redis_claim_as (claim_id : string) (now : SystemTime) (entry_id : string) (m : EMessage)
    (c : RedisStreamConsumer) : ClaimedMessage * RedisStreamConsumer :=
  ({| cm_message := m; cm_claim_id := claim_id; cm_claimed_at := now |},
   set_claims (<[claim_id := (entry_id, m)]> (c_pending c)) c).

Fixpoint claim_entries (uuids : nat → string) (now : SystemTime) (i : nat)
    (entries : list (string * EMessage)) (batch : list ClaimedMessage)
    (c : RedisStreamConsumer) : list ClaimedMessage * RedisStreamConsumer :=
  match entries with
  | [] => (batch, c)
  | (entry_id, m) :: entries =>
      let '(cm, c) := redis_claim_as (uuids i) now entry_id m c in
      claim_entries uuids now (Datatypes.S i) entries (batch ++ [cm])%list c
  end.

Definition redis_claim_batch (uuids : nat → string) (now : SystemTime) (max : nat)
    : method (list ClaimedMessage) :=
  if decide (max = 0%nat) then mret []
  else
    entries ← read_group max;
    if decide (entries = []) then mret []
    else λ '(c, s),
      let '(batch, c) := claim_entries uuids now 0 entries [] c in (Ok batch, (c, s)).

Definition redis_claim (uuids : nat → string) (now : SystemTime) : method (option ClaimedMessage) :=
  batch ← redis_claim_batch uuids now 1;
  mret (last batch).

Definition redis_ack (claim_id : string) : method unit :=
  c ← this;
  let entry := c_pending c !! claim_id in
  modify (set_claims (delete claim_id (c_pending c)));;
  match entry with
  | Some (entry_id, _) => conn;; function (xack (c_key c) (c_group c) entry_id)
  | None => mfail (EQueue (QInvalidClaimId claim_id))
  end.

Definition redis_nack (claim_id : string) : method unit :=
  c ← this;
  let entry := c_pending c !! claim_id in
  modify (set_claims (delete claim_id (c_pending c)));;
  match entry with
  | Some (entry_id, m) =>
      conn;;
      function (xadd (c_key c) m (c_maxlen c));;
      function (xack (c_key c) (c_group c) entry_id)
  | None => mfail (EQueue (QInvalidClaimId claim_id))
  end.

Fixpoint stale_entries (uuids : nat → string) (now : SystemTime) (i : nat) (es : list StreamId)
    (out : list ClaimedMessage) : method (list ClaimedMessage) :=
  match es with
  | [] => mret out
  | e :: es =>
      match sfields e !! MSG_FIELD with
      | None => stale_entries uuids now i es out
      | Some b =>
          match decode_msg b with
          | Ok m => λ '(c, s),
              let '(cm, c) := redis_claim_as (uuids i) now (sid e) m c in
              stale_entries uuids now (Datatypes.S i) es (out ++ [cm])%list (c, s)
          | Err _ =>
              c ← this;
              ignoring (function (xack (c_key c) (c_group c) (sid e)));;
              stale_entries uuids now i es out
          end
      end
  end.

Definition redis_claim_stale (uuids : nat → string) (now : SystemTime) (min_idle : Duration)
    : method (list ClaimedMessage) :=
  ready_conn;;
  c ← this;
  claimed ← command recv_err (x_xautoclaim (c_key c) (c_group c) (c_consumer c)
    (as_millis min_idle mod 2 ^ 64) "0-0" 64);
  stale_entries uuids now 0 claimed [].

(** ** Factories *)

Record RedisStreamConsumerFactory : Type := {
  rcf_key : string;
  rcf_group : string;
  rcf_group_start : string;
  rcf_block_ms : Z;
  rcf_maxlen : option Z
}.

Definition create_consumer (uuid : string) (f : RedisStreamConsumerFactory) : RedisStreamConsumer :=
  RedisStreamConsumer_new uuid (rcf_key f) (rcf_group f) (rcf_group_start f) (rcf_block_ms f)
    (rcf_maxlen f).

Definition clone_factory (f : RedisStreamConsumerFactory) : RedisStreamConsumerFactory :=
  {| rcf_key := rcf_key f; rcf_group := rcf_group f; rcf_group_start := rcf_group_start f;
     rcf_block_ms := rcf_block_ms f; rcf_maxlen := rcf_maxlen f |}.

Record RedisStreamQueueFactory : Type := {
  rf_config : RedisQueueConfig;
  rf_main_consumer : RedisStreamConsumer
}.

Definition assemble (uuid : string) (config : RedisQueueConfig) : RedisStreamQueueFactory :=
  {| rf_config := config;
     rf_main_consumer := RedisStreamConsumer_new uuid (stream_key "_default" config)
       (rq_group config) "0" (rq_block_ms config) (rq_maxlen config) |}.

Definition with_config (uuid : string) (config : RedisQueueConfig) (s : S)
    : Res RedisStreamQueueFactory * S :=
  match x_open (rq_url config) with
  | Err e => (Err (send_err e), s)
  | Ok _ =>
      match x_connect s with
      | (Err e, s) => (Err (send_err e), s)
      | (Ok _, s) => (Ok (assemble uuid config), s)
      end
  end.

Definition RedisStreamQueueFactory_new (uuid url : string) (s : S)
    : Res RedisStreamQueueFactory * S :=
  with_config uuid (RedisQueueConfig_new url) s.

Definition from_connection_manager (uuid : string) (config : RedisQueueConfig)
    : Res RedisStreamQueueFactory :=
  match x_open (rq_url config) with
  | Err e => Err (send_err e)
  | Ok _ => Ok (assemble uuid config)
  end.

Definition redis_create_queue (global : option string) (topic : string)
    (f : RedisStreamQueueFactory) : RedisStreamProducer * RedisStreamConsumerFactory :=
  let config := rf_config f in
  ({| rp_key := stream_key topic config; rp_maxlen := rq_maxlen config |},
   {| rcf_key := stream_key topic config; rcf_group := group_for global topic config;
      rcf_group_start := group_start_for topic; rcf_block_ms := rq_block_ms config;
      rcf_maxlen := rq_maxlen config |}).

Definition create_global_producer (f : RedisStreamQueueFactory) : RedisRoutingProducer :=
  {| rr_prefix := rq_prefix (rf_config f); rr_maxlen := rq_maxlen (rf_config f) |}.

Definition create_main_consumer (f : RedisStreamQueueFactory) : RedisStreamConsumer :=
  rf_main_consumer f.

Definition health_check (s : S) : Res unit * S :=
  match x_ping s with
  | (Err e, s) => (Err (recv_err e), s)
  | (Ok pong, s) =>
      if decide (pong = "PONG") then (Ok tt, s)
      else (Err (EQueue (QReceive ("unexpected PING reply: " +:+ pong))), s)
  end.
End queue.

Close Scope string_scope.

(** ** A lawful server

    The streams themselves; every command is answered, and one that would
    need an entry the stream does not have is answered with an error. *)
Module StreamsRef.

Definition ids_in_use (st : Stream) : gset string :=
  list_to_set (map sid (st_entries st)) ∪
  ⋃ ((λ p, dom (g_pel p.2)) <$> map_to_list (st_groups st)).

Definition find_entry (st : Stream) (i : string) : option StreamId :=
  list_find (λ e, sid e = i) (st_entries st) ≫= λ p, Some p.2.

Definition ref_xadd (k : string) (n : option Z) (f : string) (b : bytes) (v : Keyspace)
    : result string string * Keyspace :=
  let st := stream_at k v in
  let i := fresh (ids_in_use st) in
  let st' := append_entry i f b st in
  (Ok i, match n with
         | None => <[k := st']> v
         | Some n => <[k := trim_entries (length (st_entries st') - Z.to_nat n) st']> v
         end).

Definition ref_xack (k g i : string) (v : Keyspace) : result Z string * Keyspace :=
  match st_groups (stream_at k v) !! g with
  | Some gr => (Ok 1, <[k := with_group g (with_pel (delete i (g_pel gr)) gr) (stream_at k v)]> v)
  | None => (Ok 0, v)
  end.

Definition ref_xgroup (k g start : string) (v : Keyspace) : result unit string * Keyspace :=
  match st_groups (stream_at k v) !! g with
  | Some _ => (Err "BUSYGROUP Consumer Group name already exists"%string, v)
  | None => (Ok tt, <[k := with_group g (new_group start (stream_at k v)) (stream_at k v)]> v)
  end.

Definition ref_xread (k g c : string) (block : Z) (n : nat) (v : Keyspace)
    : result (option (list (string * list StreamId))) string * Keyspace :=
  match st_groups (stream_at k v) !! g with
  | None => (Err "NOGROUP"%string, v)
  | Some gr =>
      if decide (g_new gr = []) then (Ok None, v)
      else
        let es := omap (find_entry (stream_at k v)) (take n (g_new gr)) in
        if decide (map sid es = take n (g_new gr)) then
          (Ok (Some [(k, es)]),
           <[k := with_group g (deliver_new n c gr) (stream_at k v)]> v)
        else (Err "missing entry"%string, v)
  end.

Definition ref_xautoclaim (k g c : string) (idle : Z) (start : string) (n : nat) (v : Keyspace)
    : result (list StreamId) string * Keyspace :=
  match st_groups (stream_at k v) !! g with
  | None => (Err "NOGROUP"%string, v)
  | Some gr =>
      let es := take n (filter (λ e, is_Some (g_pel gr !! sid e)) (st_entries (stream_at k v))) in
      if decide (NoDup (map sid es)) then
        (Ok es, <[k := with_group g (with_pel (foldr (λ e, insert (sid e) c) (g_pel gr) es) gr)
                         (stream_at k v)]> v)
      else (Err "ids"%string, v)
  end.

#[export] Instance keyspace_streams : Streams Keyspace := {|
  x_open _ := Ok tt;
  x_connect v := (Ok tt, v);
  x_xadd := ref_xadd;
  x_xack := ref_xack;
  x_xgroup_create := ref_xgroup;
  x_xreadgroup := ref_xread;
  x_xautoclaim := ref_xautoclaim;
  x_ping v := (Ok "PONG"%string, v)
|}.

Lemma find_entry_elem st i e : find_entry st i = Some e → e ∈ st_entries st.
Proof.
  unfold find_entry. intros ([j e'] & Hf & [= <-])%bind_Some.
  apply list_find_Some in Hf as (Hj & _). by eapply list_elem_of_lookup_2.
Qed.

Lemma reassign_pel (es : list StreamId) (pel : gmap string string) c i :
  foldr (λ e, insert (sid e) c) pel es !! i =
  if decide (i ∈ map sid es) then Some c else pel !! i.
Proof.
  induction es as [|e es IH]; simpl; [done|].
  destruct (decide (i = sid e)) as [->|Hne].
  - rewrite lookup_insert_eq, decide_True by constructor. done.
  - rewrite lookup_insert_ne, IH by done. apply decide_ext. rewrite elem_of_cons. naive_solver.
Qed.

Lemma ref_xadd_law k n f b v a v' : ref_xadd k n f b v = (a, v') →
  effect v v' a (λ u, ∃ i,
    (i ∉ map sid (st_entries (stream_at k v))) ∧
    (∀ g gr, st_groups (stream_at k v) !! g = Some gr → g_pel gr !! i = None) ∧
    match n with
    | None => u = <[k := append_entry i f b (stream_at k v)]> v
    | Some _ => ∃ j, u = (<[k := trim_entries j (append_entry i f b (stream_at k v))]> v : Keyspace)
    end).
Proof.
  intros [= <- <-]. left. exists (fresh (ids_in_use (stream_at k v))).
  pose proof (is_fresh (ids_in_use (stream_at k v))) as Hf.
  unfold ids_in_use in Hf at 2. apply not_elem_of_union in Hf as [Hf1 Hf2]. split_and!.
  - by rewrite elem_of_list_to_set in Hf1.
  - intros g gr Hg. apply not_elem_of_dom. intros Hd. apply Hf2.
    apply elem_of_union_list. eexists. split; [|exact Hd].
    apply list_elem_of_fmap. exists (g, gr). split; [done|]. by apply elem_of_map_to_list.
  - destruct n; eauto.
Qed.

#[export] Instance keyspace_laws : StreamsLaws Keyspace.
Proof.
  refine {| streams := λ v, v |}; try (by intros; simplify_eq/=).
  - intros. by eapply ref_xadd_law.
  - simpl. unfold ref_xack. intros k g i v a v'.
    destruct (st_groups _ !! g) as [gr|]; intros [= <- <-]; by left.
  - simpl. unfold ref_xgroup. intros k g start v a v'.
    destruct (st_groups _ !! g) as [gr|]; intros [= <- <-]; [done|]. split; [by left|done].
  - simpl. unfold ref_xread. intros k g c block n v a v'.
    destruct (st_groups _ !! g) as [gr|]; [|intros [= <- <-] _; by left].
    case_decide as Hn.
    { intros [= <- <-] _. left. split; [done|]. intros o [= <-]. eauto. }
    case_decide as Hm; intros [= <- <-] _; [|by left]. right. exists gr. split_and!; [done..|].
    intros o [= <-]. eexists. split_and!; [done|done|]. apply Forall_forall.
    intros e (i & _ & Hi)%list_elem_of_omap. by eapply find_entry_elem.
  - simpl. unfold ref_xautoclaim. intros k g c idle start n v a v'.
    destruct (st_groups _ !! g) as [gr|]; [|intros [= <- <-]; by left].
    case_decide as Hnd; intros [= <- <-]; [|by left]. right. eexists gr, _.
    split_and!; [done|done| | |].
    + intros i. rewrite reassign_pel. case_decide as Hi; [|done]. intros _.
      apply list_elem_of_fmap in Hi as (e & -> & He). apply elem_of_take in He as (j & He & _).
      apply list_elem_of_lookup_2, list_elem_of_filter in He as [? _]. done.
    + intros i Hi _. rewrite reassign_pel. by case_decide.
    + intros es [= <-]. split; [done|]. apply Forall_forall. intros e He. split.
      * apply elem_of_take in He as (j & He & _).
        by apply list_elem_of_lookup_2, list_elem_of_filter in He as [_ ?].
      * rewrite reassign_pel, decide_True; [done|]. by apply list_elem_of_fmap_2.
Defined.
End StreamsRef.
