(* ===== verification/RedisQueueTheorems.v ===== *)
(** * Theorems on the Redis streams queue

    What the streams hold for a group: the messages it has not been given, in
    the order of the stream ([queued]), and the entries in flight.  The
    statements are about every server that keeps [StreamsLaws], so about
    commands that fail with or without effect. *)
From stdpp Require Import pretty.
From S2P Require Import Prelude Errors Message Codec Runtime Queues RedisQueue.

Section theorems.
Context {S : Type} `{StreamsLaws S} `{BincodeLaws EMessage}.
Context (vt : string → Z → string) (dt : Duration → string).
Implicit Types (c : RedisStreamConsumer) (s : S) (st : Stream) (k g i : string) (m : EMessage).

(** ** Entries and groups *)

(** Entry [i] of the stream carries message [m]. *)
Definition entry_says st i m : Prop :=
  ∃ e b, e ∈ st_entries st ∧ sid e = i ∧ sfields e !! MSG_FIELD = Some b ∧
    decode_msg vt dt b = Ok m.

(** What group [g] has not been given yet. *)
Definition queued st g (l : list EMessage) : Prop :=
  ∃ gr, st_groups st !! g = Some gr ∧ Forall2 (entry_says st) (g_new gr) l.

(** Entry [i] is in the pending list of [g], for consumer [o]. *)
Definition inflight st g i (o : string) : Prop :=
  ∃ gr, st_groups st !! g = Some gr ∧ g_pel gr !! i = Some o.

(** Ids name entries. *)
Definition ids_unique st : Prop := NoDup (map sid (st_entries st)).

Lemma stream_at_insert k k' st (v : Keyspace) :
  stream_at k (<[k' := st]> v) = if decide (k = k') then st else stream_at k v.
Proof.
  unfold stream_at. case_decide as E; [by rewrite E, lookup_insert_eq|].
  by rewrite lookup_insert_ne.
Qed.

Lemma stream_at_same k st (v : Keyspace) : stream_at k (<[k := st]> v) = st.
Proof. by rewrite stream_at_insert, decide_True. Qed.

Lemma unique_entry st e e' :
  ids_unique st → e ∈ st_entries st → e' ∈ st_entries st → sid e = sid e' → e = e'.
Proof.
  unfold ids_unique. generalize (st_entries st) as l. induction l as [|x l IH]; intros Hnd He He' Hs.
  - by apply not_elem_of_nil in He.
  - apply NoDup_cons in Hnd as [Hx Hnd].
    assert (∀ y, y ∈ l → sid y ≠ sid x) as Hne.
    { intros y Hy Heq. apply Hx. rewrite <- Heq. by apply list_elem_of_fmap_2. }
    apply elem_of_cons in He as [->|He], He' as [->|He']; auto.
    + by destruct (Hne e' He').
    + by destruct (Hne e He).
Qed.

(** An entry read by its id says what the stream says. *)
Lemma entry_read st e m :
  ids_unique st → e ∈ st_entries st → entry_says st (sid e) m →
  ∃ b, sfields e !! MSG_FIELD = Some b ∧ decode_msg vt dt b = Ok m.
Proof.
  intros Hu He (e' & b & He' & Hs & Hb & Hd).
  assert (e' = e) as -> by (by eapply unique_entry). eauto.
Qed.

Lemma entry_says_group st i m g gr : entry_says (with_group g gr st) i m ↔ entry_says st i m.
Proof. done. Qed.

(** ** Sending *)

Definition readable m : Prop := version m ≤ CURRENT_SCHEMA_VERSION.

Lemma encode_decode m b : readable m → encode_msg m = Ok b → decode_msg vt dt b = Ok m.
Proof.
  unfold encode_msg, decode_msg, map_err. intros Hv.
  destruct (bincode_encode m) as [b'|] eqn:E; [|done]. intros [= <-].
  destruct (bincode_roundtrip m b' E) as [n ->]. unfold check_wire_version.
  by rewrite decide_False by (unfold readable in Hv; lia).
Qed.

Lemma decode_readable b m : decode_msg vt dt b = Ok m → readable m.
Proof.
  unfold decode_msg. destruct (bincode_decode b) as [[m' n]|]; [|done].
  unfold check_wire_version, readable. case_decide; [done|]. intros [= <-]. lia.
Qed.

Lemma entry_says_append st i f b j m :
  entry_says st j m → entry_says (append_entry i f b st) j m.
Proof.
  intros (e & b' & He & ?). exists e, b'. split; [|done]. simpl. by apply elem_of_app; left.
Qed.

Lemma entry_says_new st i b m :
  decode_msg vt dt b = Ok m → entry_says (append_entry i MSG_FIELD b st) i m.
Proof.
  intros Hd. exists {| sid := i; sfields := {[MSG_FIELD := b]} |}, b.
  split_and!; [|done|by apply lookup_singleton_eq|done].
  simpl. apply elem_of_app. right. by apply list_elem_of_singleton.
Qed.

Lemma append_queued st i b g l m :
  queued st g l → decode_msg vt dt b = Ok m →
  queued (append_entry i MSG_FIELD b st) g (l ++ [m]).
Proof.
  intros (gr & Hg & Hf) Hd. eexists. split.
  - simpl. by rewrite lookup_fmap, Hg.
  - simpl. apply Forall2_app.
    + eapply Forall2_impl; [exact Hf|]. intros j x. apply entry_says_append.
    + constructor; [by apply entry_says_new|constructor].
Qed.

Lemma append_unique st i f b :
  ids_unique st → i ∉ map sid (st_entries st) → ids_unique (append_entry i f b st).
Proof.
  unfold ids_unique. intros Hu Hi. simpl. rewrite map_app. apply NoDup_app. split; [done|].
  split; [|by apply NoDup_singleton]. intros x Hx ->%list_elem_of_singleton. done.
Qed.

(** What [xadd] did: it added an entry for the message, unless it failed. *)
Lemma xadd_effect k m s o s' :
  readable m → xadd k m None s = (o, s') →
  (is_ok o = false ∧ streams s' = streams s) ∨
  ∃ i b, (i ∉ map sid (st_entries (stream_at k (streams s)))) ∧
    (∀ g gr, st_groups (stream_at k (streams s)) !! g = Some gr → g_pel gr !! i = None) ∧
    decode_msg vt dt b = Ok m ∧
    streams s' = <[k := append_entry i MSG_FIELD b (stream_at k (streams s))]> (streams s).
Proof.
  intros Hv. unfold xadd, discard. destruct (encode_msg m) as [b|e] eqn:Hb.
  - destruct (x_xadd k None MSG_FIELD b s) as [a s1] eqn:Hx. intros [= <- <-].
    apply xadd_law in Hx as [(i & Hi & Hp & Hs)|[Ha Hs]].
    + right. exists i, b. split_and!; auto. by eapply encode_decode.
    + left. simpl. split; [by destruct a|done].
  - intros [= <- <-]. by left.
Qed.

Lemma xack_effect k g i s o s' :
  xack k g i s = (o, s') →
  (is_ok o = false ∧ streams s' = streams s) ∨
  match st_groups (stream_at k (streams s)) !! g with
  | Some gr => streams s' = <[k := with_group g (with_pel (delete i (g_pel gr)) gr)
                                     (stream_at k (streams s))]> (streams s)
  | None => streams s' = streams s
  end.
Proof.
  unfold xack, discard. destruct (x_xack k g i s) as [a s1] eqn:Hx. intros [= <- <-].
  apply xack_law in Hx as [Hs|[Ha Hs]]; [by right|]. left. split; [by destruct a|done].
Qed.

(** Sending to the stream of a topic makes the message the last that every
    group of the stream will be given; a failed send did that or nothing. *)
Lemma send_spec p m s o s' :
  readable m → rp_maxlen p = None → producer_send p m s = (o, s') →
  ids_unique (stream_at (rp_key p) (streams s)) →
  ids_unique (stream_at (rp_key p) (streams s')) ∧
  ((is_ok o = false ∧ streams s' = streams s) ∨
   ∀ g l, queued (stream_at (rp_key p) (streams s)) g l →
     queued (stream_at (rp_key p) (streams s')) g (l ++ [m])).
Proof.
  intros Hv Hn Hp Hu. unfold producer_send in Hp. rewrite Hn in Hp.
  destruct (xadd_effect _ _ _ _ _ Hv Hp) as [[Ho Hs]|(i & b & Hi & _ & Hb & Hs)].
  - rewrite Hs. eauto.
  - rewrite Hs, stream_at_same. split; [by apply append_unique|].
    right. intros g l Hl. by apply append_queued.
Qed.

(** ** Consumers that are connected *)

(** The consumer is connected and its group known to exist. *)
Definition ready c : Prop := c_conn c = true ∧ c_group_ready c = true.

Lemma ready_conn_ready c s : ready c → ready_conn (c, s) = (Ok tt, (c, s)).
Proof.
  intros [Hc Hg]. unfold ready_conn, conn, ensure_group, mbind, this. simpl. rewrite Hc. simpl.
  by rewrite Hg.
Qed.

Lemma conn_effect c s o c' s' :
  conn (c, s) = (o, (c', s')) → streams s' = streams s ∧ (c' = c ∨ c' = set_connected c) ∧
    (c_conn c = true → o = Ok tt).
Proof.
  unfold conn, mbind, this, command, modify. simpl. destruct (c_conn c).
  - intros [= <- <- <-]. auto.
  - destruct (x_connect s) as [[]  s1] eqn:Hc; simpl; intros [= <- <- <-];
      apply connect_law in Hc; (split_and!; [done|auto|done]).
Qed.

(** [ready_conn] keeps every group that exists, and when it succeeds the
    group of the consumer exists: with every entry of the stream still to be
    given, or with none for a group that starts at the end. *)
Lemma ensure_group_spec c s o c' s' :
  ensure_group (c, s) = (o, (c', s')) →
  (c_group_ready c = true → is_Some (st_groups (stream_at (c_key c) (streams s)) !! c_group c)) →
  let st := stream_at (c_key c) (streams s) in
  let st' := stream_at (c_key c) (streams s') in
  st_entries st' = st_entries st ∧
  (∀ g gr, st_groups st !! g = Some gr → st_groups st' !! g = Some gr) ∧
  (is_ok o = true → c_group_ready c' = true ∧
    match st_groups st !! c_group c with
    | Some _ => st' = st
    | None => st_groups st' !! c_group c = Some (new_group (c_group_start c) st)
    end).
Proof.
  unfold ensure_group, mbind, this. simpl. intros Heq Hr.
  destruct (c_group_ready c) eqn:Hg.
  { injection Heq as <- <- <-. destruct (Hr eq_refl) as [gr Hgr]. rewrite Hgr. auto. }
  clear Hr. destruct (x_xgroup_create _ _ _ s) as [a s1] eqn:Hx. apply xgroup_law in Hx.
  set (st := stream_at (c_key c) (streams s)) in *.
  destruct (st_groups st !! c_group c) as [gr|] eqn:Hst.
  - destruct Hx as [Ha Hs].
    assert (stream_at (c_key c) (streams s1) = st) as Hss by (by unfold st; rewrite Hs).
    destruct a as [|e]; [done|]. destruct (contains _ e); injection Heq as <- <- <-;
      rewrite Hss; (split_and!; [done|by auto|]); [by auto|done].
  - destruct Hx as [[Hs|[Ha Hs]] Hb].
    + assert (stream_at (c_key c) (streams s1) =
        with_group (c_group c) (new_group (c_group_start c) st) st) as Hss
        by (rewrite Hs; apply stream_at_same).
      assert (∀ g gr, st_groups st !! g = Some gr →
        st_groups (with_group (c_group c) (new_group (c_group_start c) st) st) !! g = Some gr)
        as Hk.
      { intros g gr Hgr. simpl. rewrite lookup_insert_ne; [done|]. intros <-. congruence. }
      destruct a as [[]|e]; [|rewrite (Hb e eq_refl) in Heq]; injection Heq as <- <- <-;
        rewrite Hss; split_and!; auto; [|done].
      intros _. split; [done|]. simpl. by rewrite lookup_insert_eq.
    + destruct a as [|e]; [done|]. rewrite (Hb e eq_refl) in Heq. injection Heq as <- <- <-.
      rewrite Hs. split_and!; [done|by auto|done].
Qed.

(** ** Reading *)

Lemma read_entries_spec (es : list StreamId) (ms : list EMessage) out (cs : _ * S) :
  Forall2 (λ e m, ∃ b, sfields e !! MSG_FIELD = Some b ∧ decode_msg vt dt b = Ok m) es ms →
  read_entries vt dt es out cs = (Ok (out ++ zip (map sid es) ms), cs).
Proof.
  intros Hf. revert out. induction Hf as [|e m es ms (b & Hb & Hd) _ IH]; intros out; simpl.
  - by rewrite app_nil_r.
  - rewrite Hb, Hd, IH. by rewrite <- (assoc_L (++)).
Qed.

Lemma read_decoded st es l :
  ids_unique st → Forall (λ e, e ∈ st_entries st) es → Forall2 (entry_says st) (map sid es) l →
  Forall2 (λ e m, ∃ b, sfields e !! MSG_FIELD = Some b ∧ decode_msg vt dt b = Ok m) es l.
Proof.
  intros Hu. revert l. induction es as [|e es IH]; intros l He Hf; simpl in Hf.
  - apply Forall2_nil_inv_l in Hf as ->. constructor.
  - apply Forall2_cons_inv_l in Hf as (m & l' & Hs & Hf & ->).
    apply Forall_cons in He as [He Hes]. constructor; [by eapply entry_read|by apply IH].
Qed.

Definition group_stream c s : Stream := stream_at (c_key c) (streams s).

(** A ready consumer reads nothing, or the oldest entries of its group,
    which are then in flight to it. *)
Lemma read_group_spec c s n o c' s' l :
  ready c → ids_unique (group_stream c s) → queued (group_stream c s) (c_group c) l →
  (0 < n)%nat → read_group vt dt n (c, s) = (o, (c', s')) →
  c' = c ∧
  ((streams s' = streams s ∧ ∀ out, o = Ok out → out = [] ∧ l = []) ∨
   ∃ gr, st_groups (group_stream c s) !! c_group c = Some gr ∧
     Forall2 (entry_says (group_stream c s)) (g_new gr) l ∧
     streams s' = <[c_key c := with_group (c_group c) (deliver_new n (c_consumer c) gr)
                                 (group_stream c s)]> (streams s) ∧
     ∀ out, o = Ok out → out = zip (take n (g_new gr)) (take n l)).
Proof.
  intros Hr Hu (gr & Hg & Hl) Hn. unfold read_group, mbind at 1.
  rewrite (ready_conn_ready c s Hr). unfold mbind, this, command. simpl.
  destruct (x_xreadgroup _ _ _ _ _ s) as [a s1] eqn:Hx.
  apply xread_law in Hx as [[Hs Ho]|(gr' & Hg' & Hs & Ho)]; [..|done].
  - destruct a as [ks|e]; simpl.
    + destruct (Ho _ eq_refl) as [-> (gr' & Hg' & Hnew)]. intros [= <- <- <-].
      split; [done|]. left. split; [done|]. intros out [= <-]. split; [done|].
      unfold group_stream in Hg. rewrite Hg in Hg'. injection Hg' as <-. rewrite Hnew in Hl. by inversion Hl.
    + intros [= <- <- <-]. split; [done|]. left. by split.
  - unfold group_stream in Hg. rewrite Hg in Hg'. injection Hg' as <-.
    destruct a as [ks|e]; simpl.
    + destruct (Ho _ eq_refl) as (es & -> & Hids & Hin). simpl. unfold mbind.
      assert (Forall2 (entry_says (group_stream c s)) (map sid es) (take n l)) as Hf
        by (rewrite Hids; by apply Forall2_take).
      rewrite (read_entries_spec es (take n l)) by (by eapply read_decoded).
      intros [= <- <- <-]. split; [done|]. right. exists gr. split_and!; auto.
      intros out [= <-]. by rewrite Hids.
    + intros [= <- <- <-]. split; [done|]. right. exists gr. split_and!; auto. done.
Qed.

Lemma claim_entries_spec uuids now j (entries : list (string * EMessage)) batch c batch' c' :
  (∀ a b, uuids a = uuids b → a = b) →
  claim_entries uuids now j entries batch c = (batch', c') →
  ∃ new p, batch' = batch ++ new ∧ c' = set_claims p c ∧
    Forall2 (λ cm em, cm_message cm = em.2 ∧ p !! cm_claim_id cm = Some em ∧
                      ∃ a, (j ≤ a)%nat ∧ cm_claim_id cm = uuids a) new entries ∧
    ∀ x, (∀ a, (j ≤ a)%nat → x ≠ uuids a) → p !! x = c_pending c !! x.
Proof.
  intros Hinj. revert j batch c. induction entries as [|[e m] entries IH]; intros j batch c; simpl.
  - intros [= <- <-]. exists [], (c_pending c). rewrite app_nil_r. split_and!; auto. by destruct c.
  - intros (new & p & -> & -> & Hf & Hp)%IH. eexists (_ :: new), p. rewrite <- (assoc_L (++)).
    split_and!; [done|by destruct c|constructor|].
    + split_and!; [done| |by exists j].
      simpl. rewrite Hp; [by simpl; rewrite lookup_insert_eq|].
      intros a Ha ->%Hinj. lia.
    + eapply Forall2_impl; [exact Hf|]. intros cm em (? & ? & a & ? & ?). split_and!; auto.
      exists a. split; [lia|done].
    + intros x Hx. rewrite Hp by (intros a Ha; apply Hx; lia). simpl.
      rewrite lookup_insert_ne; [done|]. intros Heq. by eapply (Hx j).
Qed.

Lemma deliver_pel n o gr i :
  g_pel (deliver_new n o gr) !! i =
  if decide (i ∈ take n (g_new gr)) then Some o else g_pel gr !! i.
Proof.
  simpl. induction (take n (g_new gr)) as [|j l IH]; simpl; [done|].
  destruct (decide (i = j)) as [->|Hne].
  - rewrite lookup_insert_eq, decide_True by constructor. done.
  - rewrite lookup_insert_ne, IH by done.
    apply decide_ext. rewrite elem_of_cons. naive_solver.
Qed.

Lemma deliver_queued st g gr n o l :
  Forall2 (entry_says st) (g_new gr) l →
  queued (with_group g (deliver_new n o gr) st) g (drop n l).
Proof.
  intros Hf. exists (deliver_new n o gr). split; [by simpl; rewrite lookup_insert_eq|].
  simpl. by apply Forall2_drop.
Qed.

(** ** Claiming *)

(** Every entry of the list is in flight to consumer [o]. *)
Definition in_pel st g (o : string) (ids : list string) : Prop :=
  Forall (λ i, inflight st g i o) ids.

Lemma deliver_in_pel st g gr n o :
  in_pel (with_group g (deliver_new n o gr) st) g o (take n (g_new gr)).
Proof.
  apply Forall_forall. intros i Hi. exists (deliver_new n o gr).
  split; [by simpl; rewrite lookup_insert_eq|]. by rewrite deliver_pel, decide_True.
Qed.

(** A claim of the consumer: its record, and the entry in flight. *)
Definition claim_held c s (cm : ClaimedMessage) : Prop :=
  ∃ e, c_pending c !! cm_claim_id cm = Some (e, cm_message cm) ∧
    inflight (group_stream c s) (c_group c) e (c_consumer c) ∧
    entry_says (group_stream c s) e (cm_message cm).

Lemma claim_batch_spec uuids now c s n o c' s' l :
  (∀ a b, uuids a = uuids b → a = b) →
  ready c → ids_unique (group_stream c s) → queued (group_stream c s) (c_group c) l →
  (0 < n)%nat → redis_claim_batch vt dt uuids now n (c, s) = (o, (c', s')) →
  match o with
  | Ok batch =>
      cm_message <$> batch = take n l ∧
      queued (group_stream c' s') (c_group c) (drop n l) ∧
      Forall (claim_held c' s') batch
  | Err _ =>
      c' = c ∧
      (streams s' = streams s ∨
       queued (group_stream c' s') (c_group c) (drop n l) ∧
       ∃ ids, Forall2 (entry_says (group_stream c' s')) ids (take n l) ∧
         in_pel (group_stream c' s') (c_group c) (c_consumer c) ids)
  end.
Proof.
  intros Hinj Hr Hu Hl Hn. unfold redis_claim_batch. rewrite decide_False by lia.
  unfold mbind. destruct (read_group vt dt n (c, s)) as [r [c1 s1]] eqn:Hrd.
  destruct (read_group_spec _ _ _ _ _ _ _ Hr Hu Hl Hn Hrd)
    as [-> [[Hs Hout]|(gr & Hg & Hf & Hs & Hout)]].
  - destruct r as [entries|e]; [|intros [= <- <- <-]; by eauto].
    destruct (Hout _ eq_refl) as [-> ->]. rewrite decide_True by done.
    intros [= <- <- <-]. rewrite take_nil, drop_nil. split_and!; [done| |done].
    unfold group_stream. by rewrite Hs.
  - assert (group_stream c s1 = with_group (c_group c) (deliver_new n (c_consumer c) gr)
      (group_stream c s)) as Hst by (unfold group_stream at 1; rewrite Hs; apply stream_at_same).
    assert (Forall2 (entry_says (group_stream c s1)) (take n (g_new gr)) (take n l)) as Hft.
    { rewrite Hst. apply Forall2_take. exact Hf. }
    pose proof (deliver_in_pel (group_stream c s) (c_group c) gr n (c_consumer c)) as Hpel.
    rewrite <- Hst in Hpel.
    pose proof (deliver_queued (group_stream c s) (c_group c) gr n (c_consumer c) l Hf) as Hq.
    rewrite <- Hst in Hq.
    destruct r as [entries|e]; [|intros [= <- <- <-]; split; [done|right]; eauto].
    rewrite (Hout _ eq_refl).
    assert (length (take n (g_new gr)) = length (take n l)) as Hlen
      by (by eapply Forall2_length).
    case_decide as Hz.
    + intros [= <- <- <-]. apply (f_equal (fmap snd)) in Hz. rewrite snd_zip in Hz by lia.
      split_and!; [by rewrite Hz|done|done].
    + destruct (claim_entries _ _ _ _ _ _) as [batch c2] eqn:Hce. intros [= <- <- <-].
      apply claim_entries_spec in Hce as (new & p & -> & -> & Hfn & _); [|done]. simpl.
      split_and!; [| done |].
      * rewrite <- (snd_zip (take n (g_new gr)) (take n l)) by lia.
        clear -Hfn. induction Hfn as [|cm em new es [Hm _] _ IH]; [done|].
        csimpl. by rewrite Hm, IH.
      * apply Forall_forall. intros cm Hcm.
        destruct (list_elem_of_lookup_1 _ _ Hcm) as [j Hj].
        destruct (Forall2_lookup_l _ _ _ _ _ Hfn Hj) as ([e m] & He & Hm & Hp & _).
        simpl in Hm. rewrite <- Hm in Hp. exists e. split; [done|].
        apply lookup_zip_Some in He as [He1 He2]. simpl in He1, He2. rewrite Hm. split.
        -- eapply Forall_lookup_1 in Hpel; [exact Hpel|done].
        -- eapply Forall2_lookup_lr in Hft; [exact Hft|done|done].
Qed.

(** ** Acknowledging *)

Lemma xack_other k g i s o s' g' j w :
  xack k g i s = (o, s') → inflight (stream_at k (streams s)) g' j w → (g', j) ≠ (g, i) →
  inflight (stream_at k (streams s')) g' j w.
Proof.
  intros [[_ ->]|Hx]%xack_effect (gr & Hgr & Hp) Hne; [by exists gr|].
  destruct (decide (g' = g)) as [->|Hg].
  - rewrite Hgr in Hx. rewrite Hx, stream_at_same. eexists.
    split; [by simpl; rewrite lookup_insert_eq|]. simpl.
    rewrite lookup_delete_ne; [done|]. intros ->. by apply Hne.
  - destruct (st_groups _ !! g) as [gr'|]; rewrite Hx; [|by exists gr].
    rewrite stream_at_same. exists gr. split; [|done]. simpl. by rewrite lookup_insert_ne.
Qed.

Lemma xack_entries k g i s o s' :
  xack k g i s = (o, s') →
  st_entries (stream_at k (streams s')) = st_entries (stream_at k (streams s)).
Proof.
  intros [[_ ->]|Hx]%xack_effect; [done|].
  destruct (st_groups _ !! g); rewrite Hx; [|done]. by rewrite stream_at_same.
Qed.

Lemma xack_new k g i s o s' g' gr :
  xack k g i s = (o, s') → st_groups (stream_at k (streams s)) !! g' = Some gr →
  ∃ gr', st_groups (stream_at k (streams s')) !! g' = Some gr' ∧ g_new gr' = g_new gr.
Proof.
  intros [[_ ->]|Hx]%xack_effect Hgr; [eauto|].
  destruct (decide (g' = g)) as [->|Hg].
  - rewrite Hgr in Hx. rewrite Hx, stream_at_same. eexists.
    split; [by simpl; rewrite lookup_insert_eq|done].
  - destruct (st_groups _ !! g) as [gr'|]; rewrite Hx; [|eauto].
    rewrite stream_at_same. exists gr. split; [|done]. simpl. by rewrite lookup_insert_ne.
Qed.

(** The message is still to be given to [g], under an entry other than [e]. *)
Definition requeued st g (e : string) m : Prop :=
  ∃ gr i, st_groups st !! g = Some gr ∧ i ∈ g_new gr ∧ i ≠ e ∧ entry_says st i m.

(** The message of entry [e] is neither lost nor forgotten by group [g]. *)
Definition kept st g (e : string) (w : string) m : Prop :=
  (inflight st g e w ∧ entry_says st e m) ∨ requeued st g e m.

Lemma append_requeued st i b g gr e m :
  st_groups st !! g = Some gr → i ≠ e → decode_msg vt dt b = Ok m →
  requeued (append_entry i MSG_FIELD b st) g e m.
Proof.
  intros Hgr Hne Hb. eexists _, i.
  split_and!; [simpl; by rewrite lookup_fmap, Hgr| |done|by apply entry_says_new].
  simpl. apply elem_of_app. right. by apply list_elem_of_singleton.
Qed.

Lemma xack_requeued k g e s o s' m :
  xack k g e s = (o, s') → requeued (stream_at k (streams s)) g e m →
  requeued (stream_at k (streams s')) g e m ∧
  (is_ok o = true → ∀ w, ¬ inflight (stream_at k (streams s')) g e w).
Proof.
  intros Ha (gr & i & Hg & Hi & Hne & Hs). split.
  - destruct (xack_new _ _ _ _ _ _ _ _ Ha Hg) as (gr' & Hg' & Hn').
    exists gr', i. rewrite Hn'. split_and!; [done..|].
    destruct Hs as (x & bx & Hx & ?). exists x, bx. split; [|done].
    by rewrite (xack_entries _ _ _ _ _ _ Ha).
  - intros Ho w. apply xack_effect in Ha as [[? _]|Ha]; [congruence|].
    rewrite Hg in Ha. rewrite Ha, stream_at_same. intros (gr' & Hg' & Hp). simpl in Hg'.
    rewrite lookup_insert_eq in Hg'. injection Hg' as <-. simpl in Hp.
    by rewrite lookup_delete_eq in Hp.
Qed.

Lemma nack_spec c s claim_id e m o c' s' :
  c_maxlen c = None → c_pending c !! claim_id = Some (e, m) →
  inflight (group_stream c s) (c_group c) e (c_consumer c) →
  entry_says (group_stream c s) e m →
  redis_nack claim_id (c, s) = (o, (c', s')) →
  kept (stream_at (c_key c) (streams s')) (c_group c) e (c_consumer c) m ∧
  c_pending c' !! claim_id = None ∧
  (o = Ok tt → requeued (stream_at (c_key c) (streams s')) (c_group c) e m ∧
     ¬ inflight (stream_at (c_key c) (streams s')) (c_group c) e (c_consumer c)).
Proof.
  unfold group_stream. intros Hml Hp (gr & Hgr & He) Hsay. unfold redis_nack, mbind, this, modify. simpl. rewrite Hp.
  set (c0 := set_claims _ c). destruct (conn (c0, s)) as [r [c1 s1]] eqn:Hc.
  destruct (conn_effect _ _ _ _ _ Hc) as (Hs1 & Hc1 & _).
  assert (c_pending c1 !! claim_id = None) as Hnone
    by (destruct Hc1 as [->| ->]; simpl; by rewrite lookup_delete_eq).
  assert (inflight (stream_at (c_key c) (streams s)) (c_group c) e (c_consumer c)) as Hin by (by exists gr).
  destruct r as [[]|er]; [|intros [= <- <- <-]; rewrite Hs1; split_and!; [by left|done|done]].
  unfold function. rewrite Hml. destruct (xadd (c_key c) m None s1) as [r2 s2] eqn:Hx.
  assert (readable m) as Hv by (destruct Hsay as (? & ? & _ & _ & _ & Hd); by eapply decode_readable).
  apply (xadd_effect _ _ _ _ _ Hv) in Hx as [[Ho Hs2]|(i & b & Hi & Hip & Hb & Hs2)].
  { destruct r2; [done|]. intros [= <- <- <-]. rewrite Hs2, Hs1. split_and!; [by left|done|done]. }
  rewrite Hs1 in Hi, Hip, Hs2.
  set (st := stream_at (c_key c) (streams s)) in *.
  assert (i ≠ e) as Hie. { intros ->. specialize (Hip _ _ Hgr). congruence. }
  assert (stream_at (c_key c) (streams s2) = append_entry i MSG_FIELD b st) as Hst2
    by (rewrite Hs2; apply stream_at_same).
  pose proof (append_requeued st i b (c_group c) gr e m Hgr Hie Hb) as Hrq. rewrite <- Hst2 in Hrq.
  destruct r2 as [[]|er].
  2:{ intros [= <- <- <-]. split_and!; [by right|done|done]. }
  destruct (xack (c_key c) (c_group c) e s2) as [r3 s3] eqn:Ha. intros [= <- <- <-].
  destruct (xack_requeued _ _ _ _ _ _ _ Ha Hrq) as [Hrq3 Hgone].
  split_and!; [by right|done|]. intros ->. split; [done|]. by apply Hgone.
Qed.

(** ** Recovering stale entries *)

(** The message of an entry, if it has one that this node can read. *)
Definition entry_msg (e : StreamId) : option EMessage :=
  match sfields e !! MSG_FIELD with
  | Some b => match decode_msg vt dt b with Ok m => Some m | Err _ => None end
  | None => None
  end.

Lemma stale_entries_spec uuids now j es out c s o c' s' :
  (∀ a b, uuids a = uuids b → a = b) → NoDup (map sid es) →
  Forall (λ e, inflight (group_stream c s) (c_group c) (sid e) (c_consumer c)) es →
  stale_entries vt dt uuids now j es out (c, s) = (o, (c', s')) →
  ∃ new p, o = Ok (out ++ new) ∧ c' = set_claims p c ∧
    cm_message <$> new = omap entry_msg es ∧
    st_entries (group_stream c s') = st_entries (group_stream c s) ∧
    (∀ i w, inflight (group_stream c s) (c_group c) i w → i ∉ map sid es →
      inflight (group_stream c s') (c_group c) i w) ∧
    Forall (λ cm, ∃ e, e ∈ es ∧ p !! cm_claim_id cm = Some (sid e, cm_message cm) ∧
      inflight (group_stream c s') (c_group c) (sid e) (c_consumer c) ∧
      entry_msg e = Some (cm_message cm)) new ∧
    ∀ x, (∀ a, (j ≤ a)%nat → x ≠ uuids a) → p !! x = c_pending c !! x.
Proof.
  intros Hinj. revert j out c s. induction es as [|e es IH]; intros j out c s Hnd Hin Heq.
  { injection Heq as <- <- <-. exists [], (c_pending c). rewrite app_nil_r.
    split_and!; auto; try done. by destruct c. }
  simpl in Hnd. apply NoDup_cons in Hnd as [Hne Hnd]. apply Forall_cons in Hin as [He Hin].
  assert (∀ e', e' ∈ es → sid e' ≠ sid e) as Hds.
  { intros e' He' Heq'. apply Hne. rewrite <- Heq'. by apply list_elem_of_fmap_2. }
  simpl in Heq. csimpl. unfold entry_msg at 1.
  destruct (sfields e !! MSG_FIELD) as [b|] eqn:Hb; [destruct (decode_msg vt dt b) as [m|er] eqn:Hd|].
  - destruct (IH _ _ (set_claims _ c) s Hnd Hin Heq) as (new & p & -> & -> & Hm & Hen & Hfr & Hf & Hp).
    exists ({| cm_message := m; cm_claim_id := uuids j; cm_claimed_at := now |} :: new), p.
    rewrite <- (assoc_L (++)). split_and!; [done|done|by csimpl; rewrite Hm|done| | |].
    + intros i w Hi Hni. apply Hfr; [done|]. set_solver.
    + constructor.
      * exists e. split_and!; [by constructor| |by apply Hfr|].
        -- simpl. rewrite Hp; [by simpl; rewrite lookup_insert_eq|]. intros a Ha ->%Hinj. lia.
        -- unfold entry_msg. by rewrite Hb, Hd.
      * eapply Forall_impl; [exact Hf|]. intros cm (x & Hx & ?). exists x. split; [by constructor|done].
    + intros x Hx. rewrite Hp by (intros a Ha; apply Hx; lia). simpl.
      rewrite lookup_insert_ne; [done|]. intros Heq'. by eapply (Hx j).
  - unfold mbind, this, ignoring, function in Heq. simpl in Heq.
    pose proof (surjective_pairing (xack (c_key c) (c_group c) (sid e) s)) as Ha.
    set (s1 := (xack (c_key c) (c_group c) (sid e) s).2) in *.
    assert (Forall (λ e, inflight (group_stream c s1) (c_group c) (sid e) (c_consumer c)) es)
      as Hin1.
    { rewrite Forall_forall in Hin |- *. intros x Hx. eapply xack_other; [exact Ha|by apply Hin|].
      intros [= Hx']. by apply (Hds x). }
    destruct (IH _ _ c s1 Hnd Hin1 Heq) as (new & p & -> & -> & Hm & Hen & Hfr & Hf & Hp).
    exists new, p. split_and!; [done|done|done| | | |done].
    + rewrite Hen. by eapply xack_entries.
    + intros i w Hi [Hie Hni]%not_elem_of_cons. apply Hfr; [|done].
      eapply xack_other; [exact Ha|done|naive_solver].
    + eapply Forall_impl; [exact Hf|]. intros cm (x & Hx & ?). exists x. split; [by constructor|done].
  - destruct (IH _ _ c s Hnd Hin Heq) as (new & p & -> & -> & Hm & Hen & Hfr & Hf & Hp).
    exists new, p. split_and!; [done|done|done|done| | |done].
    + intros i w Hi [Hie Hni]%not_elem_of_cons. by apply Hfr.
    + eapply Forall_impl; [exact Hf|]. intros cm (x & Hx & ?). exists x. split; [by constructor|done].
Qed.

(** ** Claims *)

(** A message handed back with [nack] is never lost, whichever command
    fails and whether or not it took effect: it is still in flight under its
    old entry or queued again under a new one.  When [nack] succeeds it is
    queued again and the old entry is released. *)
Theorem redis_nack_keeps_message c s claim_id e m o c' s' :
  c_maxlen c = None → c_pending c !! claim_id = Some (e, m) →
  inflight (group_stream c s) (c_group c) e (c_consumer c) →
  entry_says (group_stream c s) e m →
  redis_nack claim_id (c, s) = (o, (c', s')) →
  kept (stream_at (c_key c) (streams s')) (c_group c) e (c_consumer c) m ∧
  c_pending c' !! claim_id = None ∧
  (o = Ok tt → requeued (stream_at (c_key c) (streams s')) (c_group c) e m ∧
     ¬ inflight (stream_at (c_key c) (streams s')) (c_group c) e (c_consumer c)).
Proof. apply nack_spec. Qed.

(** Recovering stale entries fails only when the server does.  Of the
    entries the server hands over, those this node can read become claims in
    order, each still in flight to it; an entry it cannot read does not keep
    the others from being recovered.  Earlier claims stay. *)
Theorem redis_claim_stale_recovers uuids now idle c s o c' s' :
  (∀ a b, uuids a = uuids b → a = b) →
  ready c → ids_unique (group_stream c s) →
  redis_claim_stale vt dt uuids now idle (c, s) = (o, (c', s')) →
  ∃ reply s1, x_xautoclaim (c_key c) (c_group c) (c_consumer c) (as_millis idle mod 2 ^ 64)
      "0-0" 64 s = (reply, s1) ∧
  match reply with
  | Err e => o = Err (recv_err e) ∧ c' = c ∧ s' = s1
  | Ok es =>
      ∃ batch, o = Ok batch ∧ cm_message <$> batch = omap entry_msg es ∧
        Forall (claim_held c' s') batch ∧
        ∀ x, (∀ a, x ≠ uuids a) → c_pending c' !! x = c_pending c !! x
  end.
Proof.
  intros Hinj Hr Hu. unfold redis_claim_stale, mbind at 1. rewrite (ready_conn_ready c s Hr).
  unfold mbind, this, command. simpl.
  destruct (x_xautoclaim _ _ _ _ _ _ s) as [reply s1] eqn:Hx. intros Heq.
  exists reply, s1. split; [done|]. destruct reply as [es|e]; simpl in Heq.
  2:{ injection Heq as <- <- <-. done. }
  apply xautoclaim_law in Hx as [[? _]|(gr & pel & Hg & Hs & _ & _ & Hes)]; [done|].
  destruct (Hes _ eq_refl) as [Hnd Hall].
  assert (group_stream c s1 = with_group (c_group c) (with_pel pel gr) (group_stream c s)) as Hst
    by (unfold group_stream at 1; rewrite Hs; apply stream_at_same).
  assert (Forall (λ e, inflight (group_stream c s1) (c_group c) (sid e) (c_consumer c)) es) as Hin.
  { eapply Forall_impl; [exact Hall|]. intros e [_ He]. rewrite Hst. eexists.
    split; [by simpl; rewrite lookup_insert_eq|done]. }
  destruct (stale_entries_spec _ _ _ _ _ _ _ _ _ _ Hinj Hnd Hin Heq)
    as (new & p & -> & -> & Hm & Hen & _ & Hf & Hp).
  exists new. split_and!; [done|done| |].
  - eapply Forall_impl; [exact Hf|]. intros cm (e & He & Hpe & Hfl & Hmsg).
    exists (sid e). split_and!; [done|done|].
    rewrite Forall_forall in Hall. destruct (Hall e He) as [Hen' _].
    unfold entry_msg in Hmsg. destruct (sfields e !! MSG_FIELD) as [b|] eqn:Hb; [|done].
    destruct (decode_msg vt dt b) as [m|] eqn:Hd; [|done]. injection Hmsg as ->.
    exists e, b. split_and!; [|done..].
    change (e ∈ st_entries (group_stream c s')). rewrite Hen, Hst. exact Hen'.
  - intros x Hx. apply Hp. auto.
Qed.

(** ** Topics and nodes *)

(** A message sent through the global producer becomes the last that every
    group reading the topic's queue will be given; a send that fails did that
    or nothing. *)
Theorem redis_send_reaches_every_group f global m s o s' :
  readable m → rq_maxlen (rf_config f) = None →
  redis_routing_send (create_global_producer f) m s = (o, s') →
  let k := rcf_key (redis_create_queue global (topic m) f).2 in
  ids_unique (stream_at k (streams s)) →
  ids_unique (stream_at k (streams s')) ∧
  ((is_ok o = false ∧ streams s' = streams s) ∨
   ∀ g l, queued (stream_at k (streams s)) g l → queued (stream_at k (streams s')) g (l ++ [m])).
Proof.
  intros Hv Hn Hs k Hu. simpl in Hs.
  exact (send_spec {| rp_key := k; rp_maxlen := rq_maxlen (rf_config f) |} m s o s' Hv Hn Hs Hu).
Qed.

(** A consumer whose group does not exist yet creates it: on a coordination
    topic it is given only what is sent from then on, on any other topic
    everything the stream holds. *)
Theorem redis_joining_group f global t uuid s o c' s' (ms : list EMessage) :
  let c := create_consumer uuid (redis_create_queue global t f).2 in
  st_groups (group_stream c s) !! c_group c = None →
  Forall2 (entry_says (group_stream c s)) (map sid (st_entries (group_stream c s))) ms →
  ready_conn (c, s) = (o, (c', s')) → is_ok o = true →
  ready c' ∧
  queued (group_stream c s') (c_group c)
    (if decide (t ∈ FANOUT_SYSTEM_TOPICS) then [] else ms).
Proof.
  intros c Hg Hms Heq Ho. unfold ready_conn, mbind in Heq.
  destruct (conn (c, s)) as [r [c1 s1]] eqn:Hc.
  assert (r = Ok tt → c1 = set_connected c) as Hc1.
  { unfold conn, mbind, this, command, modify in Hc. simpl in Hc.
    destruct (x_connect s) as [[]]; simpl in Hc; injection Hc as <- <- <-; done. }
  destruct (conn_effect _ _ _ _ _ Hc) as (Hs1 & _ & _).
  destruct r as [[]|]; [|injection Heq as <- <- <-; done]. rewrite (Hc1 eq_refl) in Heq.
  pose proof (ensure_group_spec _ _ _ _ _ Heq ltac:(done)) as (Hen & _ & Hok).
  destruct (Hok Ho) as [Hgr Hnew]. unfold group_stream in *. simpl in Hen, Hnew.
  rewrite Hs1 in Hen, Hnew. simpl in Hg. rewrite Hg in Hnew. split.
  - split; [|done]. unfold ensure_group, mbind, this in Heq. simpl in Heq.
    destruct (x_xgroup_create _ _ _ s1) as [[[]|e] s2]; [|destruct (contains _ e)];
      by injection Heq as _ <- _.
  - eexists. split; [exact Hnew|]. simpl. unfold group_start_for.
    destruct (decide (t ∈ FANOUT_SYSTEM_TOPICS)) as [Ht|Ht]; simpl.
    + constructor.
    + eapply Forall2_impl; [exact Hms|]. intros i m (e & b & He & Hx).
      exists e, b. split; [|done]. simpl. by rewrite Hen.
Qed.

(** ** Acknowledging what is not claimed *)

(** [ack] and [nack] of an id that is not claimed are refused without a
    command; after an [ack] that succeeds the entry is in flight no more. *)
Theorem redis_ack_releases claim_id c s o c' s' :
  redis_ack claim_id (c, s) = (o, (c', s')) →
  c_pending c' !! claim_id = None ∧
  match c_pending c !! claim_id with
  | None => o = Err (EQueue (QInvalidClaimId claim_id)) ∧ s' = s ∧
      redis_nack claim_id (c, s) = (o, (c', s'))
  | Some (e, m) =>
      (is_ok o = true → (∃ gr, st_groups (group_stream c s) !! c_group c = Some gr) →
        ∀ w, ¬ inflight (group_stream c s') (c_group c) e w) ∧
      (∀ g i w, inflight (group_stream c s) g i w → (g, i) ≠ (c_group c, e) →
        inflight (group_stream c s') g i w)
  end.
Proof.
  unfold redis_ack, redis_nack, mbind, this, modify. simpl.
  destruct (c_pending c !! claim_id) as [[e m]|] eqn:Hp.
  2:{ intros [= <- <- <-]. split; [by simpl; rewrite lookup_delete_eq|done]. }
  set (c0 := set_claims _ c). destruct (conn (c0, s)) as [r [c1 s1]] eqn:Hc.
  destruct (conn_effect _ _ _ _ _ Hc) as (Hs1 & Hc1 & _).
  assert (c_pending c1 !! claim_id = None) as Hnone
    by (destruct Hc1 as [->| ->]; simpl; by rewrite lookup_delete_eq).
  destruct r as [[]|er]; [|intros [= <- <- <-]; unfold group_stream; by rewrite Hs1].
  unfold function. destruct (xack (c_key c) (c_group c) e s1) as [r3 s3] eqn:Ha.
  intros [= <- <- <-]. split; [done|]. unfold group_stream. rewrite <- Hs1. split.
  - intros Ho [gr Hgr] w (gr' & Hgr' & Hw).
    apply xack_effect in Ha as [[? _]|Ha]; [congruence|]. rewrite Hgr in Ha.
    rewrite Ha, stream_at_same in Hgr'. simpl in Hgr'. rewrite lookup_insert_eq in Hgr'.
    injection Hgr' as <-. simpl in Hw. by rewrite lookup_delete_eq in Hw.
  - intros g i w Hi Hne. by eapply xack_other.
Qed.
End theorems.

(** ** Examples on the reference server *)
Section examples.
Import StreamsRef SerCodec.
Open Scope string_scope.

Definition no_text (i : string) (v : Z) : string := i.
Definition no_duration (d : Duration) : string := "".

Definition demo_factory (node : string) : RedisStreamQueueFactory :=
  assemble "main" (with_node node (RedisQueueConfig_new "redis://localhost")).

Definition redis_demo_msg (i t : string) : EMessage := EMessage_new i 5 t [104]%Z Standard None.

(** A consumer of node [node] for topic [t], connected to [v]. *)
Definition demo_join (node t : string) (v : Keyspace) : RedisStreamConsumer * Keyspace :=
  (ready_conn (create_consumer node (redis_create_queue None t (demo_factory node)).2, v)).2.

Definition demo_send (i t : string) (v : Keyspace) : Keyspace :=
  (redis_routing_send (create_global_producer (demo_factory "n1")) (redis_demo_msg i t) v).2.

Definition demo_ids (n : nat) : string := "claim" +:+ pretty n.

Lemma demo_ids_inj a b : demo_ids a = demo_ids b → a = b.
Proof. unfold demo_ids. intros Heq. by simplify_eq. Qed.

(** Two nodes joined a topic and two messages were sent to it. *)
Definition demo_stream (t : string) : Keyspace :=
  demo_send "b" t (demo_send "a" t (demo_join "n2" t (demo_join "n1" t ∅).2).2).

Definition demo_consumer (t : string) : RedisStreamConsumer := (demo_join "n1" t ∅).1.

Lemma send_queued (node : string) i t (v : Keyspace) g l :
  let k := stream_key t (rf_config (demo_factory "n1")) in
  ids_unique (stream_at k v) → queued no_text no_duration (stream_at k v) g l →
  ids_unique (stream_at k (demo_send i t v)) ∧
  queued no_text no_duration (stream_at k (demo_send i t v)) g (l ++ [redis_demo_msg i t]).
Proof.
  intros k Hu Hq.
  destruct (send_spec no_text no_duration {| rp_key := k; rp_maxlen := None |}
    (redis_demo_msg i t) v _ (demo_send i t v) ltac:(done) eq_refl
    (surjective_pairing _) Hu) as [Hu' [[Hf _]|Hq']]; [|auto]. discriminate Hf.
Qed.

(** What a group of a topic that both nodes joined is to be given. *)
Lemma demo_sent t g :
  let k := stream_key t (rf_config (demo_factory "n1")) in
  let v := (demo_join "n2" t (demo_join "n1" t ∅).2).2 in
  st_entries (stream_at k v) = [] →
  g_new <$> (st_groups (stream_at k v) !! g) = Some [] →
  ids_unique (stream_at k (demo_stream t)) ∧
  queued no_text no_duration (stream_at k (demo_stream t)) g
    [redis_demo_msg "a" t; redis_demo_msg "b" t].
Proof.
  intros k v He Hg.
  assert (ids_unique (stream_at k v)) as Hu by (unfold ids_unique; rewrite He; constructor).
  assert (queued no_text no_duration (stream_at k v) g []) as Hq.
  { apply fmap_Some in Hg as (gr & Hg & Hn). exists gr. rewrite <- Hn. split; [exact Hg|constructor]. }
  destruct (send_queued "n1" "a" t _ _ _ Hu Hq) as [Hu1 Hq1].
  exact (send_queued "n1" "b" t _ _ _ Hu1 Hq1).
Qed.

Lemma demo_orders :
  let k := stream_key "orders" (rf_config (demo_factory "n1")) in
  ids_unique (stream_at k (demo_stream "orders")) ∧
  queued no_text no_duration (stream_at k (demo_stream "orders")) "event_base"
    [redis_demo_msg "a" "orders"; redis_demo_msg "b" "orders"].
Proof. apply demo_sent; vm_compute; reflexivity. Qed.

(** The state after node [n1] claimed one message of a topic. *)
Definition demo_claimed (t : string)
    : Res (list ClaimedMessage) * (RedisStreamConsumer * Keyspace) :=
  redis_claim_batch no_text no_duration demo_ids 9 1 (demo_consumer t, demo_stream t).

Lemma redis_nack_keeps_message_witness :
  ∃ batch c s cm e, demo_claimed "orders" = (Ok batch, (c, s)) ∧ cm ∈ batch ∧
    requeued no_text no_duration (stream_at (c_key c) (redis_nack (cm_claim_id cm) (c, s)).2.2)
      (c_group c) e (cm_message cm).
Proof.
  destruct (demo_claimed "orders") as [[batch|e] [c s]] eqn:E.
  2:{ exfalso. apply (f_equal (λ r, is_ok r.1)) in E. vm_compute in E. discriminate. }
  destruct (claim_batch_spec no_text no_duration demo_ids 9 (demo_consumer "orders")
    (demo_stream "orders") 1 (Ok batch) c s _ demo_ids_inj ltac:(by split) (proj1 demo_orders)
    (proj2 demo_orders) ltac:(lia) E) as (Hm & _ & Hh).
  destruct batch as [|cm batch]; [discriminate Hm|]. apply Forall_cons in Hh as [Hh _].
  destruct Hh as (e & Hp & Hi & Hs). exists (cm :: batch), c, s, cm, e.
  split; [reflexivity|]. split; [constructor|].
  assert (c_maxlen c = None) as Hml.
  { assert (c_maxlen (demo_claimed "orders").2.1 = None) as Hx by (vm_compute; reflexivity).
    by rewrite E in Hx. }
  assert (cm_claim_id cm = "claim0") as Hid.
  { assert (match (demo_claimed "orders").1 with Ok l => cm_claim_id <$> l | Err _ => [] end
      = ["claim0"]) as Hx by (vm_compute; reflexivity).
    rewrite E in Hx. by injection Hx. }
  assert (is_ok (redis_nack (cm_claim_id cm) (c, s)).1 = true) as Hok.
  { rewrite Hid. replace (c, s) with (demo_claimed "orders").2 by (by rewrite E).
    vm_compute. reflexivity. }
  destruct (redis_nack (cm_claim_id cm) (c, s)) as [o [c' s']] eqn:En.
  destruct (redis_nack_keeps_message no_text no_duration c s (cm_claim_id cm) e (cm_message cm)
    o c' s' Hml Hp Hi Hs En) as (_ & _ & Hrq).
  destruct o as [[]|]; [|discriminate Hok]. exact (proj1 (Hrq eq_refl)).
Defined.

(** Node [n2] recovers what [n1] claimed. *)
Lemma redis_claim_stale_recovers_witness :
  ∃ batch c' s', redis_claim_stale no_text no_duration demo_ids 9 0
      ((demo_join "n2" "orders" ∅).1, (demo_claimed "orders").2.2) = (Ok batch, (c', s')) ∧
    Forall (claim_held no_text no_duration c' s') batch ∧ length batch = 1%nat.
Proof.
  destruct (redis_claim_stale no_text no_duration demo_ids 9 0
    ((demo_join "n2" "orders" ∅).1, (demo_claimed "orders").2.2)) as [o [c' s']] eqn:E.
  assert (match o with Ok l => length l | Err _ => 0%nat end = 1%nat) as Hlen.
  { apply (f_equal (λ r, match r.1 with Ok l => length l | Err _ => 0%nat end)) in E.
    vm_compute in E. symmetry. exact E. }
  destruct (redis_claim_stale_recovers no_text no_duration demo_ids 9 0
    (demo_join "n2" "orders" ∅).1 (demo_claimed "orders").2.2 o c' s' demo_ids_inj
    ltac:(by split) ltac:(apply (bool_decide_unpack _); vm_compute; reflexivity) E)
    as ([es|er] & s1 & _ & Hr).
  - destruct Hr as (batch & -> & _ & Hh & _). exists batch, c', s'.
    split; [reflexivity|]. split; [exact Hh|exact Hlen].
  - destruct Hr as (-> & _). discriminate Hlen.
Defined.

Lemma redis_send_reaches_every_group_witness :
  let k := stream_key "orders" (rf_config (demo_factory "n1")) in
  queued no_text no_duration (stream_at k (demo_send "c" "orders" (demo_stream "orders")))
    "event_base" [redis_demo_msg "a" "orders"; redis_demo_msg "b" "orders";
                  redis_demo_msg "c" "orders"].
Proof.
  destruct (redis_send_reaches_every_group no_text no_duration (demo_factory "n1") None
    (redis_demo_msg "c" "orders") (demo_stream "orders") _
    (demo_send "c" "orders" (demo_stream "orders")) ltac:(done) eq_refl (surjective_pairing _)
    (proj1 demo_orders)) as [_ [[Hf _]|Hq]].
  - discriminate Hf.
  - exact (Hq _ _ (proj2 demo_orders)).
Defined.

Lemma redis_joining_group_witness :
  ∃ c' s', ready_conn (create_consumer "x"
      (redis_create_queue (Some "n3") SYSTEM_TOPIC_METRICS (demo_factory "n3")).2, ∅)
      = (Ok tt, (c', s')) ∧ ready c'.
Proof.
  destruct (ready_conn (create_consumer "x"
    (redis_create_queue (Some "n3") SYSTEM_TOPIC_METRICS (demo_factory "n3")).2, (∅ : Keyspace)))
    as [o [c' s']] eqn:E.
  assert (o = Ok tt) as ->. { apply (f_equal fst) in E. vm_compute in E. congruence. }
  exists c', s'. split; [reflexivity|].
  refine (proj1 (redis_joining_group no_text no_duration (demo_factory "n3") (Some "n3")
    SYSTEM_TOPIC_METRICS "x" (∅ : Keyspace) (Ok tt) c' s' [] _ _ E eq_refl)).
  - reflexivity.
  - constructor.
Defined.

Lemma redis_ack_releases_witness :
  ∃ c' s', redis_ack "nobody" (demo_consumer "orders", demo_stream "orders") =
    (Err (EQueue (QInvalidClaimId "nobody")), (c', s')) ∧ s' = demo_stream "orders".
Proof.
  destruct (redis_ack "nobody" (demo_consumer "orders", demo_stream "orders"))
    as [o [c' s']] eqn:E.
  destruct (proj2 (redis_ack_releases "nobody" (demo_consumer "orders") (demo_stream "orders")
    o c' s' E)) as (-> & Hs & _).
  exists c', s'. split; [reflexivity|exact Hs].
Defined.

(** ** Entries a node cannot read *)

(** A stream with a message and, after it, an entry that does not decode. *)
Definition poisoned : Keyspace :=
  (x_xadd (stream_key "orders" (rf_config (demo_factory "n1"))) None MSG_FIELD []
     (demo_send "a" "orders" (demo_join "n1" "orders" ∅).2)).2.

(** One entry that does not decode makes a claim of several fail after the
    server has handed them all over: the readable messages of the batch are
    claimed by nobody and in flight until they are recovered as stale. *)
Theorem poisoned_batch_claims_nothing :
  let r := redis_claim_batch no_text no_duration demo_ids 9 2 (demo_consumer "orders", poisoned) in
  let st := stream_at (stream_key "orders" (rf_config (demo_factory "n1"))) r.2.2 in
  is_ok r.1 = false ∧ c_pending r.2.1 = ∅ ∧
  (g_new <$> st_groups st !! "event_base") = Some [] ∧
  (size ∘ g_pel <$> st_groups st !! "event_base") = Some 2%nat.
Proof. vm_compute. done. Qed.

(** [receive] treats it as the end of the queue. *)
Theorem poisoned_receive_ends :
  (redis_receive no_text no_duration 5
    (redis_receive no_text no_duration 5 (demo_consumer "orders", poisoned)).2).1 = Ready None.
Proof. vm_compute. reflexivity. Qed.

(** A message of a node that speaks a newer wire version, claimed by such a
    node, which then crashed. *)
Definition newer_message : EMessage :=
  {| id := "a"; topic := "orders"; payload := []; metadata := metadata (redis_demo_msg "a" "orders");
     attempts := 0; delivery_mode := Standard; consumed_count := 0; deliver_at := None;
     to_worker := None; version := CURRENT_SCHEMA_VERSION + 1 |}.

Definition newer_claimed : Keyspace :=
  let k := stream_key "orders" (rf_config (demo_factory "n1")) in
  (x_xreadgroup k "event_base" "newer" 500 1
     (producer_send {| rp_key := k; rp_maxlen := None |} newer_message (demo_join "n1" "orders" ∅).2).2).2.

(** The stale sweep of a node that speaks the older version acknowledges it
    for the whole group: the sweep returns Ok without the message, and the
    message is neither in flight nor new, so no node is ever given it. *)
Theorem outdated_node_drops_newer_message :
  let k := stream_key "orders" (rf_config (demo_factory "n1")) in
  let r := redis_claim_stale no_text no_duration demo_ids 9 0 (demo_consumer "orders", newer_claimed) in
  (size ∘ g_pel <$> st_groups (stream_at k newer_claimed) !! "event_base") = Some 1%nat ∧
  r.1 = Ok [] ∧
  (g_new <$> st_groups (stream_at k r.2.2) !! "event_base") = Some [] ∧
  (size ∘ g_pel <$> st_groups (stream_at k r.2.2) !! "event_base") = Some 0%nat.
Proof. vm_compute. done. Qed.
End examples.
