(* ===== verification/RedisClaims.v ===== *)
(** * Claims from any Redis stream

    What a claim does with the entries of a stream, whatever they are: entries
    that carry a message, entries of other programs without the field of the
    message ([foreign]), and entries whose bytes are not a message that this
    version can read ([corrupt]), at which [read_group] gives up with an error.
    The consumer need not be connected yet.  Then runs of sends and claims of
    two nodes on one topic. *)
From stdpp Require Import pretty.
From S2P Require Import Prelude Errors Message Codec Runtime Queues RedisQueue RedisQueueTheorems.

Section claims.
Context {S : Type} `{StreamsLaws S} `{BincodeLaws EMessage}.
Context (vt : string → Z → string) (dt : Duration → string).
Implicit Types (c : RedisStreamConsumer) (s : S) (st : Stream) (g : string) (e : StreamId).

(** ** Entries *)

(** The message of an entry. *)
Definition carries e : option EMessage :=
  b ← sfields e !! MSG_FIELD; match decode_msg vt dt b with Ok m => Some m | Err _ => None end.

Definition foreign e : Prop := sfields e !! MSG_FIELD = None.
#[local] Instance foreign_dec e : Decision (foreign e).
Proof. unfold foreign. apply _. Defined.

Definition corrupt e : Prop := is_Some (sfields e !! MSG_FIELD) ∧ carries e = None.

(** The messages of some entries. *)
Definition carried (es : list StreamId) : list EMessage := omap carries es.

Lemma carried_entries_app es es' : carried (es ++ es') = carried es ++ carried es'.
Proof. apply omap_app. Qed.

(** The entries that group [g] has not been given yet, the oldest first. *)
Definition unread st g (es : list StreamId) : Prop :=
  ∃ gr, st_groups st !! g = Some gr ∧ Forall (λ e, e ∈ st_entries st) es ∧ map sid es = g_new gr.

Lemma same_entries st (es es' : list StreamId) :
  ids_unique st → Forall (λ e, e ∈ st_entries st) es → Forall (λ e, e ∈ st_entries st) es' →
  map sid es = map sid es' → es = es'.
Proof.
  intros Hu. revert es'. induction es as [|e es IH]; intros [|e' es'] He He' Heq;
    try discriminate; [done|].
  apply Forall_cons in He as [He Hes]. apply Forall_cons in He' as [He' Hes'].
  simpl in Heq. injection Heq as Hs Heq. f_equal; [by eapply unique_entry|by apply IH].
Qed.

(** ** What happens to the stream besides *)

(** Nothing but that some entries are no longer in flight in [g]. *)
Record only_released g (ids : list string) st st' : Prop := {
  rel_entries : st_entries st' = st_entries st;
  rel_other : ∀ g', g' ≠ g → st_groups st' !! g' = st_groups st !! g';
  rel_group : ∀ gr, st_groups st !! g = Some gr → ∃ gr', st_groups st' !! g = Some gr' ∧
    g_new gr' = g_new gr ∧ ∀ i, i ∉ ids → g_pel gr' !! i = g_pel gr !! i
}.

Lemma released_refl g ids st : only_released g ids st st.
Proof. split; [done..|]. intros gr Hgr. by exists gr. Qed.

Lemma released_cons g i ids st st1 st' :
  only_released g [i] st st1 → only_released g ids st1 st' → only_released g (i :: ids) st st'.
Proof.
  intros [E1 O1 G1] [E2 O2 G2]. split; [by rewrite E2|by intros g' Hg; rewrite O2, O1|].
  intros gr Hgr. destruct (G1 gr Hgr) as (gr1 & Hgr1 & Hn1 & Hp1).
  destruct (G2 gr1 Hgr1) as (gr' & Hgr' & Hn & Hp). exists gr'. split; [done|].
  split; [by rewrite Hn|]. intros j [Hj1 Hj2]%not_elem_of_cons.
  rewrite Hp by done. apply Hp1. set_solver.
Qed.

Lemma xack_released k g i s o s' :
  xack k g i s = (o, s') → only_released g [i] (stream_at k (streams s)) (stream_at k (streams s')).
Proof.
  intros [[_ ->]|Hx]%xack_effect; [apply released_refl|].
  destruct (st_groups (stream_at k (streams s)) !! g) as [gr|] eqn:Hg; rewrite Hx;
    [rewrite stream_at_same|apply released_refl].
  split; [done|by intros g' Hne; simpl; rewrite lookup_insert_ne|].
  intros gr0 Hgr0. rewrite Hg in Hgr0. injection Hgr0 as <-. eexists.
  split; [by simpl; rewrite lookup_insert_eq|]. split; [done|].
  intros j Hj. simpl. apply lookup_delete_ne. set_solver.
Qed.

(** ** Reading *)

Definition pairs (es : list StreamId) : list (string * EMessage) :=
  omap (λ e, pair (sid e) <$> carries e) es.

Lemma pairs_messages es : (pairs es).*2 = carried es.
Proof.
  unfold pairs, carried. induction es as [|e es IH]; [done|]. simpl.
  destruct (carries e); csimpl; by rewrite IH.
Qed.

Lemma read_entries_any (es : list StreamId) out c s o c' s' :
  read_entries vt dt es out (c, s) = (o, (c', s')) →
  c' = c ∧
  only_released (c_group c) (map sid (filter foreign es)) (group_stream c s) (group_stream c s') ∧
  match o with
  | Ok out' => out' = out ++ pairs es ∧ Forall (λ e, ¬ corrupt e) es
  | Err _ => True
  end.
Proof.
  revert out s. induction es as [|e es IH]; intros out s; simpl.
  { intros [= <- <- <-]. rewrite app_nil_r. split_and!; [done|apply released_refl|done..]. }
  destruct (sfields e !! MSG_FIELD) as [b|] eqn:Hb.
  - rewrite filter_cons_False by (unfold foreign; congruence).
    unfold pairs. cbn [omap list_omap]. unfold carries at 1. rewrite Hb. cbn.
    destruct (decode_msg vt dt b) as [m|err] eqn:Hd.
    + intros Heq. destruct (IH _ _ Heq) as (-> & Hrel & Ho). split; [done|]. split; [exact Hrel|].
      destruct o; [|done]. destruct Ho as [-> Hf]. rewrite <- (assoc_L (++)). split; [done|].
      constructor; [|done]. intros [_ Hc]. unfold carries in Hc. rewrite Hb in Hc. cbn in Hc.
      by rewrite Hd in Hc.
    + intros [= <- <- <-]. split_and!; [done|apply released_refl|done].
  - rewrite filter_cons_True by done. unfold mbind, this, ignoring, function.
    pose proof (surjective_pairing (xack (c_key c) (c_group c) (sid e) s)) as Ha.
    set (s1 := (xack (c_key c) (c_group c) (sid e) s).2) in *. intros Heq. simpl in Heq.
    fold s1 in Heq. destruct (IH _ _ Heq) as (-> & Hrel & Ho). split; [done|]. split.
    + eapply released_cons; [by eapply xack_released|exact Hrel].
    + destruct o; [|done]. unfold pairs in *. cbn [omap list_omap]. unfold carries at 1.
      rewrite Hb. cbn. destruct Ho as [-> Hf]. split; [done|]. constructor; [|done].
      intros [[? Hs] _]. congruence.
Qed.

(** The same consumer, but for its connection. *)
Record like c c' : Prop := {
  like_key : c_key c' = c_key c;
  like_group : c_group c' = c_group c;
  like_consumer : c_consumer c' = c_consumer c;
  like_pending : c_pending c' = c_pending c
}.

Lemma like_refl c : like c c.
Proof. done. Qed.

(** A stream in which no group was given anything. *)
Definition undisturbed st st' : Prop :=
  st_entries st' = st_entries st ∧
  ∀ g gr, st_groups st !! g = Some gr → st_groups st' !! g = Some gr.

Lemma undisturbed_unread st st' g es : undisturbed st st' → unread st g es → unread st' g es.
Proof.
  intros [He Hg] (gr & Hgr & Hes & Hm). exists gr. split; [by apply Hg|]. by rewrite He.
Qed.

Lemma ready_conn_any c s o c' s' :
  is_Some (st_groups (group_stream c s) !! c_group c) →
  ready_conn (c, s) = (o, (c', s')) →
  like c c' ∧ undisturbed (group_stream c s) (group_stream c s') ∧
  (o = Ok tt → group_stream c s' = group_stream c s).
Proof.
  intros [gr Hgr]. unfold ready_conn, mbind. destruct (conn (c, s)) as [r [c1 s1]] eqn:Hc.
  destruct (conn_effect _ _ _ _ _ Hc) as (Hs1 & Hc1 & _).
  assert (like c c1 ∧ group_stream c s1 = group_stream c s) as [Hl1 Hst1].
  { split; [by destruct Hc1 as [->| ->]|unfold group_stream; by rewrite Hs1]. }
  destruct r as [[]|e]; [|intros [= <- <- <-]; rewrite Hst1; by split_and!].
  assert (c_key c1 = c_key c ∧ c_group c1 = c_group c) as [Hk Hg] by (by destruct Hl1).
  assert (st_groups (stream_at (c_key c1) (streams s1)) !! c_group c1 = Some gr) as Hgr1.
  { rewrite Hk, Hg, Hs1. exact Hgr. }
  unfold ensure_group, mbind, this. simpl.
  destruct (c_group_ready c1); [intros [= <- <- <-]; rewrite Hst1; by split_and!|].
  destruct (x_xgroup_create _ _ _ s1) as [a s2] eqn:Hx. apply xgroup_law in Hx.
  rewrite Hgr1 in Hx. destruct Hx as [Ha Hs2].
  assert (group_stream c s2 = group_stream c s) as Hst2
    by (unfold group_stream in *; by rewrite Hs2).
  destruct a as [u|e]; [done|].
  destruct (contains "BUSYGROUP" e); intros [= <- <- <-]; rewrite Hst2;
    (split_and!; [by destruct Hl1|done..]).
Qed.

(** A read gives nothing, or the oldest unread entries, and then gives up at
    one it cannot decode. *)
Lemma read_group_any c s n o c' s' es :
  ids_unique (group_stream c s) → unread (group_stream c s) (c_group c) es → (0 < n)%nat →
  read_group vt dt n (c, s) = (o, (c', s')) →
  like c c' ∧
  ((undisturbed (group_stream c s) (group_stream c s') ∧
    ∀ out, o = Ok out → out = [] ∧ es = []) ∨
   ∃ gr, st_groups (group_stream c s) !! c_group c = Some gr ∧
     only_released (c_group c) (map sid (filter foreign (take n es)))
       (with_group (c_group c) (deliver_new n (c_consumer c) gr) (group_stream c s))
       (group_stream c s') ∧
     ∀ out, o = Ok out → out = pairs (take n es) ∧ Forall (λ e, ¬ corrupt e) (take n es)).
Proof.
  intros Hu (gr & Hgr & Hes & Hm) Hn. unfold read_group, mbind at 1.
  destruct (ready_conn (c, s)) as [r [c1 s1]] eqn:Hc.
  destruct (ready_conn_any _ _ _ _ _ ltac:(by exists gr) Hc) as (Hl & Hund & Hok).
  destruct r as [[]|e]; [|intros [= <- <- <-]; split; [done|]; left; by split].
  specialize (Hok eq_refl). unfold mbind, this, command. simpl.
  assert (c_key c1 = c_key c ∧ c_group c1 = c_group c ∧ c_consumer c1 = c_consumer c)
    as (-> & -> & ->) by (by destruct Hl).
  destruct (x_xreadgroup _ _ _ _ _ s1) as [a s2] eqn:Hx.
  change (stream_at (c_key c) (streams ?u)) with (group_stream c u) in *.
  apply xread_law in Hx as [[Hs Ho]|(gr' & Hg' & Hs & Ho)]; [..|done].
  - assert (undisturbed (group_stream c s) (group_stream c s2)) as Hund2.
    { unfold group_stream in Hok |- *. by rewrite Hs, Hok. }
    destruct a as [ks|e]; simpl; [|intros [= <- <- <-]; split; [done|]; left; by split].
    destruct (Ho _ eq_refl) as [-> (gr' & Hg' & Hnew)]. intros [= <- <- <-]. split; [done|].
    left. split; [done|]. intros out [= <-]. split; [done|].
    unfold group_stream in Hok, Hgr. rewrite Hok, Hgr in Hg'. injection Hg' as <-.
    rewrite Hnew in Hm. by destruct es.
  - assert (gr' = gr) as ->.
    { unfold group_stream in Hok, Hgr. rewrite Hok, Hgr in Hg'. by injection Hg'. }
    assert (group_stream c s2 = with_group (c_group c) (deliver_new n (c_consumer c) gr)
      (group_stream c s)) as Hst2.
    { unfold group_stream in Hok |- *. by rewrite Hs, stream_at_same, Hok. }
    destruct a as [ks|e]; simpl.
    2:{ intros [= <- <- <-]. split; [done|]. right. exists gr. split; [done|].
        rewrite Hst2. split; [apply released_refl|by intros out [=]]. }
    destruct (Ho _ eq_refl) as (es' & -> & Hids & Hin).
    assert (es' = take n es) as ->.
    { apply (same_entries (group_stream c s)); [done| |by apply Forall_take|].
      - unfold group_stream in *. by rewrite <- Hok.
      - by rewrite Hids, <- Hm, fmap_take. }
    simpl. unfold mbind. destruct (read_entries _ _ _ _ _) as [r [c2 s3]] eqn:Hr.
    apply read_entries_any in Hr as (-> & Hrel & Hout). unfold group_stream in Hrel.
    assert (c_key c1 = c_key c ∧ c_group c1 = c_group c) as [Hk Hg] by (by destruct Hl).
    rewrite Hk, Hg in Hrel. change (stream_at (c_key c) (streams ?u)) with (group_stream c u) in Hrel.
    rewrite Hst2 in Hrel. intros Hfin.
    assert (r = o ∧ c1 = c' ∧ s3 = s') as (-> & -> & ->) by (destruct r; simpl in Hfin; by injection Hfin as <- <- <-).
    split; [done|]. right. exists gr. split_and!; [done..|]. by intros out ->.
Qed.

(** ** Claiming *)

Lemma released_unread g g' ids st st' es :
  only_released g ids st st' → unread st g' es → unread st' g' es.
Proof.
  intros [He Ho Hg] (gr & Hgr & Hes & Hm). destruct (decide (g' = g)) as [->|Hne].
  - destruct (Hg gr Hgr) as (gr' & Hgr' & Hn & _). exists gr'. split; [done|].
    by rewrite He, Hn.
  - exists gr. by rewrite Ho, He.
Qed.

Lemma delivered_unread st g gr n o es :
  st_groups st !! g = Some gr → unread st g es →
  unread (with_group g (deliver_new n o gr) st) g (drop n es).
Proof.
  intros Hgr (gr' & Hgr' & Hes & Hm). rewrite Hgr in Hgr'. injection Hgr' as <-.
  exists (deliver_new n o gr). split; [by simpl; rewrite lookup_insert_eq|].
  split; [by apply Forall_drop|]. simpl. by rewrite <- Hm, <- fmap_drop.
Qed.

Lemma delivered_other st g gr n o g' es :
  g' ≠ g → unread st g' es → unread (with_group g (deliver_new n o gr) st) g' es.
Proof.
  intros Hne (gr' & Hgr' & Hes & Hm). exists gr'. split; [|done].
  simpl. by rewrite lookup_insert_ne.
Qed.

(** The entries of the batch are in flight, but for the foreign ones, which
    are released. *)
Lemma released_in_pel st st' g gr n o es :
  ids_unique st → unread st g es → st_groups st !! g = Some gr →
  only_released g (map sid (filter foreign (take n es)))
    (with_group g (deliver_new n o gr) st) st' →
  in_pel st' g o (map sid (filter (not ∘ foreign) (take n es))).
Proof.
  intros Hu (gr' & Hgr' & Hes & Hm) Hgr [_ _ Hg]. rewrite Hgr in Hgr'. injection Hgr' as <-.
  destruct (Hg (deliver_new n o gr)) as (gr' & Hgr' & _ & Hp).
  { simpl. by rewrite lookup_insert_eq. }
  apply Forall_forall. intros i (e & -> & [Hf He]%list_elem_of_filter)%list_elem_of_fmap.
  exists gr'. split; [done|]. rewrite Hp.
  - rewrite (deliver_pel vt n o gr (sid e)), decide_True; [done|]. rewrite <- Hm, <- fmap_take.
    by apply list_elem_of_fmap_2.
  - intros (e' & Heq & [Hf' He']%list_elem_of_filter)%list_elem_of_fmap. apply Hf.
    rewrite Forall_forall in Hes.
    replace e with e'; [done|]. eapply unique_entry; [exact Hu|..|done];
      apply Hes; by eapply subseteq_take.
Qed.

Lemma pairs_elem (es : list StreamId) i m :
  (i, m) ∈ pairs es → ∃ e, e ∈ es ∧ i = sid e ∧ carries e = Some m.
Proof.
  intros (e & He & Hp)%list_elem_of_omap. exists e.
  destruct (carries e) as [m'|]; [|done]. by injection Hp as <- <-.
Qed.

Lemma carries_says st e m : e ∈ st_entries st → carries e = Some m → entry_says vt dt st (sid e) m.
Proof.
  intros He Hc. unfold carries in Hc. destruct (sfields e !! MSG_FIELD) as [b|] eqn:Hb; [|done].
  cbn in Hc. destruct (decode_msg vt dt b) as [m'|] eqn:Hd; [|done]. injection Hc as ->.
  by exists e, b.
Qed.

Lemma carries_not_foreign e m : carries e = Some m → ¬ foreign e.
Proof. unfold carries, foreign. intros Hc Hf. by rewrite Hf in Hc. Qed.

(** What a claim leaves: the consumer but for its claims and connection, and
    a stream in which only the group of the consumer was given something. *)
Definition same_consumer c c' : Prop :=
  c_key c' = c_key c ∧ c_group c' = c_group c ∧ c_consumer c' = c_consumer c.

Definition given_here g st st' : Prop :=
  st_entries st' = st_entries st ∧
  ∀ g' es, g' ≠ g → unread st g' es → unread st' g' es.

Definition claim_answer c s n (o : Res (list ClaimedMessage)) c' s' (es : list StreamId) : Prop :=
  match o with
  | Ok batch =>
      cm_message <$> batch = carried (take n es) ∧
      Forall (λ e, ¬ corrupt e) (take n es) ∧
      unread (group_stream c s') (c_group c) (drop n es) ∧
      Forall (claim_held vt dt c' s') batch
  | Err _ =>
      c_pending c' = c_pending c ∧
      (undisturbed (group_stream c s) (group_stream c s') ∨
       unread (group_stream c s') (c_group c) (drop n es) ∧
       in_pel (group_stream c s') (c_group c) (c_consumer c)
         (map sid (filter (not ∘ foreign) (take n es))))
  end.

Lemma claim_pairs uuids now c s c1 es' :
  (∀ a b, uuids a = uuids b → a = b) → like c c1 →
  Forall (λ e, e ∈ st_entries (group_stream c s)) es' →
  in_pel (group_stream c s) (c_group c) (c_consumer c) (map sid (filter (not ∘ foreign) es')) →
  let '(batch, c') := claim_entries uuids now 0 (pairs es') [] c1 in
  same_consumer c c' ∧ cm_message <$> batch = carried es' ∧ Forall (claim_held vt dt c' s) batch.
Proof.
  intros Hinj Hl Hes Hpel. destruct (claim_entries _ _ _ _ _ _) as [batch c'] eqn:Hce.
  apply claim_entries_spec in Hce as (new & p & -> & -> & Hfn & _); [|done]. simpl.
  destruct Hl as [Hk Hg Hc _]. split; [done|]. rewrite <- pairs_messages. split.
  { clear -Hfn. induction Hfn as [|cm em new es [Hm _] _ IH]; [done|].
    csimpl. by rewrite Hm, IH. }
  apply Forall_forall. intros cm (j & Hj)%list_elem_of_lookup_1.
  destruct (Forall2_lookup_l _ _ _ _ _ Hfn Hj) as ([i m] & He & Hm & Hp & _).
  apply list_elem_of_lookup_2, pairs_elem in He as (e & He & -> & Hcar).
  simpl in Hm. rewrite <- Hm in Hp, Hcar. exists (sid e). split; [done|].
  unfold group_stream. simpl. rewrite Hk, Hg, Hc. fold (group_stream c s). split.
  - unfold in_pel in Hpel. rewrite Forall_forall in Hpel. apply Hpel.
    apply list_elem_of_fmap_2, list_elem_of_filter. split; [|done].
    by eapply carries_not_foreign.
  - apply carries_says; [|done]. rewrite Forall_forall in Hes. by apply Hes.
Qed.

Lemma claim_any uuids now c s n o c' s' es :
  (∀ a b, uuids a = uuids b → a = b) →
  ids_unique (group_stream c s) → unread (group_stream c s) (c_group c) es → (0 < n)%nat →
  redis_claim_batch vt dt uuids now n (c, s) = (o, (c', s')) →
  same_consumer c c' ∧ given_here (c_group c) (group_stream c s) (group_stream c s') ∧
  claim_answer c s n o c' s' es.
Proof.
  intros Hinj Hu Hun Hn. unfold redis_claim_batch. rewrite decide_False by lia.
  unfold mbind. destruct (read_group vt dt n (c, s)) as [r [c1 s1]] eqn:Hrd.
  destruct (read_group_any _ _ _ _ _ _ _ Hu Hun Hn Hrd)
    as [Hl [[Hund Hout]|(gr & Hgr & Hrel & Hout)]].
  - assert (given_here (c_group c) (group_stream c s) (group_stream c s1)) as Hgh.
    { split; [by destruct Hund|]. intros g' es' _. by apply undisturbed_unread. }
    destruct Hl as [Hk Hg Hc Hp]. destruct r as [entries|e].
    + destruct (Hout _ eq_refl) as [-> ->]. rewrite decide_True by done.
      intros [= <- <- <-]. split; [done|]. split; [done|]. simpl. rewrite take_nil, drop_nil.
      split_and!; [done..| |done]. by eapply undisturbed_unread.
    + intros [= <- <- <-]. split; [done|]. split; [done|]. split; [done|by left].
  - pose proof (released_in_pel _ _ _ _ _ _ _ Hu Hun Hgr Hrel) as Hpel.
    assert (unread (group_stream c s1) (c_group c) (drop n es)) as Hun1.
    { eapply released_unread; [exact Hrel|]. by apply delivered_unread. }
    assert (given_here (c_group c) (group_stream c s) (group_stream c s1)) as Hgh.
    { split; [by rewrite (rel_entries _ _ _ _ Hrel)|]. intros g' es' Hne Hun'.
      eapply released_unread; [exact Hrel|]. by apply delivered_other. }
    destruct r as [entries|e].
    2:{ destruct Hl as [Hk Hg Hc Hp]. intros [= <- <- <-]. split; [done|]. split; [done|].
        split; [done|by right]. }
    destruct (Hout _ eq_refl) as [-> Hcor].
    assert (Forall (λ e, e ∈ st_entries (group_stream c s1)) (take n es)) as Hin.
    { apply Forall_take. destruct Hun as (? & _ & Hes & _). by rewrite (proj1 Hgh). }
    pose proof (claim_pairs uuids now c s1 c1 _ Hinj Hl Hin Hpel) as Hcp.
    case_decide as Hz.
    + rewrite Hz in Hcp. destruct Hcp as (Hsame & Hm & Hh). intros [= <- <- <-].
      split; [done|]. split; [done|]. by split_and!.
    + destruct (claim_entries _ _ _ _ _ _) as [batch c2]. destruct Hcp as (Hsame & Hm & Hh).
      intros [= <- <- <-]. split; [done|]. split; [done|]. by split_and!.
Qed.

(** C18. A claim gives the messages of the oldest entries the group has not
    been given, in the order of the stream, and records each with its entry in
    flight to the consumer.  Entries of other programs, without the field of
    the message, are passed over; an entry that this node cannot decode is
    never passed over: the claim fails.  A claim that fails registers nothing,
    and either no group was given anything, or the entries with the field are
    in flight to the consumer. *)
Theorem redis_claim_takes_oldest uuids now c s n o c' s' (es : list StreamId) :
  (∀ a b, uuids a = uuids b → a = b) →
  ids_unique (group_stream c s) → unread (group_stream c s) (c_group c) es → (0 < n)%nat →
  redis_claim_batch vt dt uuids now n (c, s) = (o, (c', s')) →
  match o with
  | Ok batch =>
      cm_message <$> batch = carried (take n es) ∧
      Forall (λ e, ¬ corrupt e) (take n es) ∧
      unread (group_stream c s') (c_group c) (drop n es) ∧
      Forall (claim_held vt dt c' s') batch
  | Err _ =>
      c_pending c' = c_pending c ∧
      (undisturbed (group_stream c s) (group_stream c s') ∨
       unread (group_stream c s') (c_group c) (drop n es) ∧
       in_pel (group_stream c s') (c_group c) (c_consumer c)
         (map sid (filter (not ∘ foreign) (take n es))))
  end.
Proof. intros. by eapply claim_any. Qed.

(** ** Sending *)

Lemma append_unread st i b m :
  decode_msg vt dt b = Ok m → ∃ e, carries e = Some m ∧
  ∀ g es, unread st g es → unread (append_entry i MSG_FIELD b st) g (es ++ [e]).
Proof.
  intros Hd. exists {| sid := i; sfields := {[MSG_FIELD := b]} |}. split.
  { unfold carries. simpl. rewrite lookup_singleton_eq. cbn. by rewrite Hd. }
  intros g es (gr & Hgr & Hes & Hm). eexists. split; [by simpl; rewrite lookup_fmap, Hgr|].
  split; [|simpl; by rewrite map_app, Hm]. simpl. apply Forall_app. split.
  - eapply Forall_impl; [exact Hes|]. intros e He. by apply elem_of_app; left.
  - apply Forall_singleton, elem_of_app. right. by apply list_elem_of_singleton.
Qed.

Lemma send_any f m s s' (k := stream_key (topic m) (rf_config f)) :
  readable m → rq_maxlen (rf_config f) = None →
  redis_routing_send (create_global_producer f) m s = (Ok tt, s') →
  ids_unique (stream_at k (streams s)) →
  ids_unique (stream_at k (streams s')) ∧ ∃ e, carries e = Some m ∧
  ∀ g es, unread (stream_at k (streams s)) g es → unread (stream_at k (streams s')) g (es ++ [e]).
Proof.
  intros Hv Hn Hs Hu. unfold redis_routing_send, create_global_producer in Hs. simpl in Hs.
  rewrite Hn in Hs. apply (xadd_effect vt dt _ _ _ _ _ Hv) in Hs as [[Ho _]|(i & b & Hi & _ & Hb & Hs)];
    [done|].
  fold (stream_key (topic m) (rf_config f)) in Hs. fold k in Hs, Hi. rewrite Hs, stream_at_same.
  split; [by apply append_unique|by apply append_unread].
Qed.

(** ** Two nodes on one topic *)

(** The consumers of the two nodes, and the server. *)
Definition Pair : Type := (bool → RedisStreamConsumer) * S.

Definition with_consumer (b : bool) c (cs : bool → RedisStreamConsumer)
    : bool → RedisStreamConsumer :=
  λ b', if decide (b' = b) then c else cs b'.

(** What a run of the two nodes did: the messages sent to topic [t] by a node
    with factory [f], and the messages given to the claims of each consumer.
    Every call succeeds. *)
Inductive both (f : RedisStreamQueueFactory) (t : string) :
    list EMessage → list (bool * EMessage) → Pair → Pair → Prop :=
  | both_done z : both f t [] [] z z
  | both_send m s1 sent given cs s z :
      topic m = t → readable m →
      redis_routing_send (create_global_producer f) m s = (Ok tt, s1) →
      both f t sent given (cs, s1) z → both f t (m :: sent) given (cs, s) z
  | both_claim b uuids now n batch c s1 sent given cs s z :
      (∀ i j : nat, uuids i = uuids j → i = j) → (0 < n)%nat →
      redis_claim_batch vt dt uuids now n (cs b, s) = (Ok batch, (c, s1)) →
      both f t sent given (with_consumer b c cs, s1) z →
      both f t sent (map (λ cm, (b, cm_message cm)) batch ++ given) (cs, s) z.

(** What one of them was given. *)
Definition given_to (b : bool) (given : list (bool * EMessage)) : list EMessage :=
  omap (λ p, if decide (p.1 = b) then Some p.2 else None) given.

Lemma given_to_app b l l' : given_to b (l ++ l') = given_to b l ++ given_to b l'.
Proof. apply omap_app. Qed.

Lemma given_to_batch b b' (batch : list ClaimedMessage) :
  given_to b (map (λ cm, (b', cm_message cm)) batch) =
  if decide (b' = b) then cm_message <$> batch else [].
Proof.
  unfold given_to. induction batch as [|cm batch IH]; [by case_decide|]. csimpl.
  case_decide; by rewrite IH.
Qed.

Lemma given_messages (b : bool) (batch : list ClaimedMessage) :
  (map (λ cm, (b, cm_message cm)) batch).*2 = cm_message <$> batch.
Proof. induction batch as [|cm batch IH]; csimpl; by rewrite ?IH. Qed.

Lemma carried_split n (es : list StreamId) :
  carried (take n es) ++ carried (drop n es) = carried es.
Proof. by rewrite <- carried_entries_app, take_drop. Qed.

(** The two consumers read the stream [k] through the groups [g], which have
    still to be given the entries [es]. *)
Record on_stream (k : string) (g : bool → string) (z : Pair) (es : bool → list StreamId)
    : Prop := {
  on_keys : ∀ b, c_key (z.1 b) = k;
  on_groups : ∀ b, c_group (z.1 b) = g b;
  on_ids : ids_unique (stream_at k (streams z.2));
  on_unread : ∀ b, unread (stream_at k (streams z.2)) (g b) (es b)
}.

Lemma on_stream_sent f m (g : bool → string) cs s s1 es :
  readable m → rq_maxlen (rf_config f) = None →
  redis_routing_send (create_global_producer f) m s = (Ok tt, s1) →
  on_stream (stream_key (topic m) (rf_config f)) g (cs, s) es →
  ∃ e, carries e = Some m ∧
    on_stream (stream_key (topic m) (rf_config f)) g (cs, s1) (λ b, es b ++ [e]).
Proof.
  intros Hv Hml Hsend [Hk Hg Hu Hun]. simpl in *.
  destruct (send_any f m s s1 Hv Hml Hsend Hu) as (Hu' & e & He & Hun').
  exists e. split; [done|]. split; simpl; auto.
Qed.

(** A claim of one takes from what its group has not been given: from the
    other's too, when they share the group. *)
Lemma on_stream_claimed uuids now n b k (g : bool → string) cs s batch c s1 es :
  (∀ i j : nat, uuids i = uuids j → i = j) → (0 < n)%nat →
  redis_claim_batch vt dt uuids now n (cs b, s) = (Ok batch, (c, s1)) →
  on_stream k g (cs, s) es → (g (negb b) = g b → es (negb b) = es b) →
  cm_message <$> batch = carried (take n (es b)) ∧
  on_stream k g (with_consumer b c cs, s1)
    (λ b', if decide (g b' = g b) then drop n (es b) else es b').
Proof.
  intros Hinj Hn Hcl [Hk Hg Hu Hun] Hsh. simpl in *.
  pose proof (Hun b) as Hb. unfold ids_unique in Hu.
  destruct (claim_any uuids now (cs b) s n (Ok batch) c s1 (es b) Hinj)
    as ((Hk' & Hg' & _) & [He Hgh] & Hm & _ & Hun' & _); [| |done|done|].
  { unfold group_stream, ids_unique. by rewrite Hk. }
  { unfold group_stream. by rewrite Hk, Hg. }
  unfold group_stream in *. rewrite Hk in *. rewrite Hg in *. split; [done|]. split; simpl.
  - intros b'. unfold with_consumer. case_decide; [by rewrite Hk'|done].
  - intros b'. unfold with_consumer. case_decide as E; [by rewrite Hg', E|done].
  - unfold ids_unique. by rewrite He.
  - intros b'. case_decide as E; [by rewrite E|]. by apply Hgh.
Qed.

(** Apart: each group is given everything. *)
Lemma both_apart f t (g : bool → string) sent given z z' es :
  rq_maxlen (rf_config f) = None → g true ≠ g false → both f t sent given z z' →
  on_stream (stream_key t (rf_config f)) g z es →
  ∃ es', on_stream (stream_key t (rf_config f)) g z' es' ∧
    ∀ b, given_to b given ++ carried (es' b) = carried (es b) ++ sent.
Proof.
  intros Hml Hne Hb. revert es.
  induction Hb as [z|m s1 sent given cs s z Ht Hv Hsend Hb IH
    |b uuids now n batch c s1 sent given cs s z Hinj Hn Hcl Hb IH]; intros es Hon.
  - exists es. split; [done|]. intros b. by rewrite app_nil_r.
  - subst t. destruct (on_stream_sent _ _ _ _ _ _ _ Hv Hml Hsend Hon) as (e & He & Hon1).
    destruct (IH _ Hon1) as (es' & Hon' & E). exists es'. split; [done|]. intros b.
    rewrite E, carried_entries_app. unfold carried at 2. simpl. rewrite He. by rewrite <- (assoc_L (++)).
  - destruct (on_stream_claimed _ _ _ _ _ _ _ _ _ _ _ _ Hinj Hn Hcl Hon) as [Hm Hon1].
    { destruct b; simpl; intros Hg; by destruct Hne. }
    destruct (IH _ Hon1) as (es' & Hon' & E). exists es'. split; [done|]. intros b'.
    rewrite given_to_app, given_to_batch, <- (assoc_L (++)), E, Hm.
    assert (g b' = g b ↔ b = b') as Hiff by (destruct b, b'; naive_solver).
    repeat case_decide; try tauto. subst b'. by rewrite (assoc_L (++)), carried_split.
Qed.

(** Together: the one group is given everything once. *)
Lemma both_together f t g sent given z z' es :
  rq_maxlen (rf_config f) = None → both f t sent given z z' →
  on_stream (stream_key t (rf_config f)) (λ _, g) z (λ _, es) →
  ∃ es', on_stream (stream_key t (rf_config f)) (λ _, g) z' (λ _, es') ∧
    given.*2 ++ carried es' = carried es ++ sent.
Proof.
  intros Hml Hb. revert es.
  induction Hb as [z|m s1 sent given cs s z Ht Hv Hsend Hb IH
    |b uuids now n batch c s1 sent given cs s z Hinj Hn Hcl Hb IH]; intros es Hon.
  - exists es. by rewrite app_nil_r.
  - subst t. destruct (on_stream_sent _ _ _ _ _ _ _ Hv Hml Hsend Hon) as (e & He & Hon1).
    destruct (IH _ Hon1) as (es' & Hon' & E). exists es'. split; [done|].
    rewrite E, carried_entries_app. unfold carried at 2. simpl. rewrite He. by rewrite <- (assoc_L (++)).
  - destruct (on_stream_claimed _ _ _ _ _ _ _ _ _ _ _ _ Hinj Hn Hcl Hon (λ _, eq_refl))
      as [Hm Hon1].
    rewrite decide_True in Hon1 by done. destruct (IH _ Hon1) as (es' & Hon' & E).
    exists es'. split; [done|].
    by rewrite fmap_app, given_messages, <- (assoc_L (++)), E, Hm, (assoc_L (++)), carried_split.
Qed.

(** ** Joining *)

Lemma ready_conn_keeps c s o c' s' : ready_conn (c, s) = (o, (c', s')) → like c c'.
Proof.
  unfold ready_conn, mbind. destruct (conn (c, s)) as [r [c1 s1]] eqn:Hc.
  destruct (conn_effect _ _ _ _ _ Hc) as (_ & Hc1 & _).
  assert (like c c1) as Hl1 by (by destruct Hc1 as [->| ->]).
  destruct r as [[]|e]; [|by intros [= _ <- _]]. unfold ensure_group, mbind, this. simpl.
  destruct (c_group_ready c1); [by intros [= _ <- _]|].
  destruct (x_xgroup_create _ _ _ s1) as [[u|e] s2]; [|destruct (contains _ e)];
    intros [= _ <- _]; by destruct Hl1.
Qed.

(** A consumer that joined: its group was there, or is new. *)
Lemma join_any c s c' s' :
  c_group_ready c = false → ready_conn (c, s) = (Ok tt, (c', s')) →
  group_stream c s' =
  match st_groups (group_stream c s) !! c_group c with
  | Some _ => group_stream c s
  | None => with_group (c_group c) (new_group (c_group_start c) (group_stream c s))
      (group_stream c s)
  end.
Proof.
  intros Hr. unfold ready_conn, mbind. destruct (conn (c, s)) as [r [c1 s1]] eqn:Hc.
  destruct (conn_effect _ _ _ _ _ Hc) as (Hs1 & Hc1 & _).
  destruct r as [[]|e]; [|done]. unfold ensure_group, mbind, this. simpl.
  replace (c_group_ready c1) with false by (by destruct Hc1 as [->| ->]).
  replace (c_key c1) with (c_key c) by (by destruct Hc1 as [->| ->]).
  replace (c_group c1) with (c_group c) by (by destruct Hc1 as [->| ->]).
  replace (c_group_start c1) with (c_group_start c) by (by destruct Hc1 as [->| ->]).
  unfold group_stream. rewrite <- Hs1.
  destruct (x_xgroup_create _ _ _ s1) as [a s2] eqn:Hx. apply xgroup_law in Hx.
  destruct (st_groups _ !! c_group c) as [gr|].
  - destruct Hx as [Ha Hs2]. destruct a as [|e]; [done|].
    destruct (contains _ e); [|done]. intros [= _ <-]. by rewrite Hs2.
  - destruct Hx as [Heff Hb]. destruct a as [[]|e]; [|by rewrite (Hb e eq_refl)].
    intros [= _ <-]. destruct Heff as [->|[? _]]; [apply stream_at_same|done].
Qed.

(** Two nodes join the queue of topic [t], one after the other; [nodes] are
    their names, set on the factory or for the process. *)
Record joined (fs : bool → RedisStreamQueueFactory) (globals : bool → option string)
    (t : string) (s0 : S) (z : Pair) : Prop := {
  join_named : ∃ nodes, nodes true ≠ nodes false ∧
    ∀ b, node_or_global (globals b) (rf_config (fs b)) = Some (nodes b);
  join_prefix : rq_prefix (rf_config (fs true)) = rq_prefix (rf_config (fs false));
  join_group : rq_group (rf_config (fs true)) = rq_group (rf_config (fs false));
  join_calls : ∃ uuids s1,
    let consumer b := create_consumer (uuids b) (redis_create_queue (globals b) t (fs b)).2 in
    ready_conn (consumer false, s0) = (Ok tt, (z.1 false, s1)) ∧
    ready_conn (consumer true, s1) = (Ok tt, (z.1 true, z.2))
}.

(** Each reads its own group, at the end of the stream, or both one group,
    from its start. *)
Lemma joined_reads fs globals t s0 z (group := λ b, group_for (globals b) t (rf_config (fs b)))
    (k := stream_key t (rf_config (fs false))) :
  ids_unique (stream_at k (streams s0)) →
  (∀ b, st_groups (stream_at k (streams s0)) !! group b = None) →
  joined fs globals t s0 z →
  (t ∈ FANOUT_SYSTEM_TOPICS → group true ≠ group false) ∧
  (t ∉ FANOUT_SYSTEM_TOPICS → ∀ b, group b = group false) ∧
  on_stream k group z
    (λ _, if decide (t ∈ FANOUT_SYSTEM_TOPICS) then [] else st_entries (stream_at k (streams s0))).
Proof.
  intros Hu Hno [(nodes & Hne & Hn) Hp Hgr (uuids & s1 & Hj1 & Hj2)].
  assert (t ∈ FANOUT_SYSTEM_TOPICS → group true ≠ group false) as Hap.
  { intros Ht. unfold group, group_for. rewrite !decide_True, !Hn, Hgr by done.
    intros Heq. apply Hne. by simplify_eq. }
  assert (t ∉ FANOUT_SYSTEM_TOPICS → ∀ b, group b = group false) as Hto.
  { intros Ht b. unfold group, group_for. rewrite !decide_False by done. by destruct b. }
  split; [done|]. split; [done|].
  assert (stream_key t (rf_config (fs true)) = k) as Hk by (unfold k, stream_key; by rewrite Hp).
  destruct (ready_conn_keeps _ _ _ _ _ Hj1) as [Hk1 Hg1 _ _].
  destruct (ready_conn_keeps _ _ _ _ _ Hj2) as [Hk2 Hg2 _ _].
  apply join_any in Hj1; [|done]. apply join_any in Hj2; [|done].
  unfold group_stream in *. simpl in *. rewrite Hk in *. fold k in Hj1, Hk1.
  fold (group true) in Hj2, Hg2. fold (group false) in Hj1, Hg1. rewrite Hno in Hj1.
  set (st := stream_at k (streams s0)) in *.
  assert (stream_at k (streams z.2) =
    with_group (group true) (new_group (group_start_for t) st)
      (with_group (group false) (new_group (group_start_for t) st) st)) as Hst.
  { rewrite Hj2, Hj1. simpl. destruct (decide (t ∈ FANOUT_SYSTEM_TOPICS)) as [Ht|Ht].
    - rewrite lookup_insert_ne by (apply not_eq_sym; auto). by rewrite Hno.
    - rewrite (Hto Ht true), lookup_insert_eq. unfold with_group. simpl. by rewrite insert_insert_eq. }
  split.
  - by intros [].
  - by intros [].
  - unfold ids_unique. by rewrite Hst.
  - intros b. exists (new_group (group_start_for t) st). rewrite Hst. simpl. split.
    { destruct b; [by rewrite lookup_insert_eq|].
      destruct (decide (group true = group false)) as [->|Hx];
        [by rewrite lookup_insert_eq|by rewrite lookup_insert_ne, lookup_insert_eq]. }
    unfold group_start_for. destruct (decide (t ∈ FANOUT_SYSTEM_TOPICS)); simpl; [done|].
    split; [by apply Forall_forall|done].
Qed.

(** C19. Nodes and topics.  Two nodes with different names join a topic whose
    queue has no group of theirs yet; then messages are sent to the topic and
    claims of the two are answered, in any order.  On a coordination topic
    each node is given every message sent since, once and in the order sent,
    or has it still to be given; on any other topic the nodes share the
    messages: each message the stream held, and each sent, is given to one of
    them, or still to be given to one. *)
Theorem redis_fanout_or_compete fs globals sender t s0 z z' sent given
    (group := λ b, group_for (globals b) t (rf_config (fs b)))
    (k := stream_key t (rf_config sender)) :
  rq_prefix (rf_config sender) = rq_prefix (rf_config (fs false)) →
  rq_maxlen (rf_config sender) = None →
  ids_unique (stream_at k (streams s0)) →
  (∀ b, st_groups (stream_at k (streams s0)) !! group b = None) →
  joined fs globals t s0 z → both sender t sent given z z' →
  ∃ rest : bool → list StreamId,
    (∀ b, unread (stream_at k (streams z'.2)) (group b) (rest b)) ∧
    if decide (t ∈ FANOUT_SYSTEM_TOPICS)
    then ∀ b, given_to b given ++ carried (rest b) = sent
    else rest true = rest false ∧
      given.*2 ++ carried (rest false) = carried (st_entries (stream_at k (streams s0))) ++ sent.
Proof.
  intros Hp Hml Hu Hno Hj Hb.
  assert (stream_key t (rf_config (fs false)) = k) as Hk by (unfold k, stream_key; by rewrite Hp).
  destruct (joined_reads fs globals t s0 z) as (Hap & Hto & Hon); rewrite ?Hk; [done..|].
  rewrite Hk in Hon. change (λ b, group_for _ _ _) with group in Hon. case_decide as Ht.
  - destruct (both_apart _ _ _ _ _ _ _ _ Hml (Hap Ht) Hb Hon) as (rest & [_ _ _ Hun] & E).
    by exists rest.
  - assert (on_stream k (λ _, group false) z (λ _, st_entries (stream_at k (streams s0)))) as Hon1.
    { destruct Hon as [Hk' Hg' Hu' Hun']. split; [done| |done|].
      - intros b. rewrite Hg'. by apply Hto.
      - intros b. apply (Hun' false). }
    destruct (both_together _ _ _ _ _ _ _ _ Hml Hb Hon1) as (rest & [_ _ _ Hun] & E).
    exists (λ _, rest). split; [|done]. intros b. unfold group. rewrite Hto by done. apply (Hun b).
Qed.
End claims.

(** ** Examples on the reference server *)
Section examples.
Import StreamsRef SerCodec.
Open Scope string_scope.

Lemma unread_all (st : Stream) g :
  g_new <$> st_groups st !! g = Some (map sid (st_entries st)) → unread st g (st_entries st).
Proof.
  intros (gr & Hg & Hn)%fmap_Some. exists gr. split; [done|]. split; [by apply Forall_forall|done].
Qed.

Lemma redis_claim_takes_oldest_witness :
  ∃ batch c' s', redis_claim_batch no_text no_duration demo_ids 9 1
      (demo_consumer "orders", demo_stream "orders") = (Ok batch, (c', s')) ∧
    cm_message <$> batch = [redis_demo_msg "a" "orders"] ∧
    Forall (claim_held no_text no_duration c' s') batch.
Proof.
  destruct (redis_claim_batch no_text no_duration demo_ids 9 1
    (demo_consumer "orders", demo_stream "orders")) as [[batch|e] [c' s']] eqn:E.
  2:{ exfalso. apply (f_equal (λ r, is_ok r.1)) in E. vm_compute in E. discriminate. }
  exists batch, c', s'. split; [reflexivity|].
  assert (c_key (demo_consumer "orders") = stream_key "orders" (rf_config (demo_factory "n1"))) as Hk
    by (vm_compute; reflexivity).
  assert (ids_unique (group_stream (demo_consumer "orders") (demo_stream "orders"))) as Hu
    by (unfold group_stream; rewrite Hk; exact (proj1 demo_orders)).
  assert (unread (group_stream (demo_consumer "orders") (demo_stream "orders"))
    (c_group (demo_consumer "orders"))
    (st_entries (group_stream (demo_consumer "orders") (demo_stream "orders")))) as Hun
    by (apply unread_all; vm_compute; reflexivity).
  destruct (redis_claim_takes_oldest no_text no_duration demo_ids 9 (demo_consumer "orders")
    (demo_stream "orders") 1 (Ok batch) c' s' _ demo_ids_inj Hu Hun ltac:(lia) E) as (Hm & _ & _ & Hh).
  split; [|exact Hh]. rewrite Hm. vm_compute. reflexivity.
Defined.

(** The two nodes on an empty server. *)
Definition demo_pair (t : string) : Pair (S := Keyspace) :=
  (λ b : bool, if b then (demo_join "n2" t (demo_join "n1" t ∅).2).1 else (demo_join "n1" t ∅).1,
   (demo_join "n2" t (demo_join "n1" t ∅).2).2).

Lemma answered {A B C} (x : A * (B * C)) a : x.1 = a → x = (a, (x.2.1, x.2.2)).
Proof. destruct x as [? []]. by intros <-. Qed.

Lemma demo_joined t :
  (ready_conn (create_consumer "n1" (redis_create_queue None t (demo_factory "n1")).2,
     (∅ : Keyspace))).1 = Ok tt →
  (ready_conn (create_consumer "n2" (redis_create_queue None t (demo_factory "n2")).2,
     (demo_join "n1" t ∅).2)).1 = Ok tt →
  joined (λ b : bool, if b then demo_factory "n2" else demo_factory "n1") (λ _, None) t ∅
    (demo_pair t).
Proof.
  intros H1 H2. split; [|done..|].
  - exists (λ b : bool, if b then "n2" else "n1"). split; [done|]. by intros [].
  - exists (λ b : bool, if b then "n2" else "n1"), (demo_join "n1" t ∅).2. split.
    + exact (answered _ _ H1).
    + exact (answered _ _ H2).
Qed.

Lemma demo_send_ok i t (v : Keyspace) :
  redis_routing_send (create_global_producer (demo_factory "n1")) (redis_demo_msg i t) v =
  (Ok tt, demo_send i t v).
Proof. unfold demo_send. by destruct (redis_routing_send _ _ v) as [o v'] eqn:E; injection E as <- _. Qed.

(** Node [n1] claims one of two messages of a coordination topic. *)
Lemma redis_fanout_or_compete_witness :
  let t := SYSTEM_TOPIC_METRICS in
  ∃ m s rest, unread (stream_at (stream_key t (rf_config (demo_factory "n1"))) s)
      "event_base@n2" rest ∧
    carried no_text no_duration rest = [redis_demo_msg "a" t; redis_demo_msg "b" t] ∧
    (redis_claim_batch no_text no_duration demo_ids 9 1
      ((demo_pair t).1 false, demo_send "b" t (demo_send "a" t (demo_pair t).2))).1 =
    Ok [m].
Proof.
  intros t. destruct (redis_claim_batch no_text no_duration demo_ids 9 1
    ((demo_pair t).1 false, demo_send "b" t (demo_send "a" t (demo_pair t).2)))
    as [[batch|e] [c' s']] eqn:E.
  2:{ exfalso. apply (f_equal (λ r, is_ok r.1)) in E. vm_compute in E. discriminate. }
  assert (length batch = 1%nat) as Hlen.
  { apply (f_equal (λ r, match r.1 with Ok l => length l | Err _ => 0%nat end)) in E.
    vm_compute in E. symmetry. exact E. }
  destruct (redis_fanout_or_compete no_text no_duration
    (λ b : bool, if b then demo_factory "n2" else demo_factory "n1") (λ _, None)
    (demo_factory "n1") t ∅ (demo_pair t) (with_consumer false c' (demo_pair t).1, s')
    [redis_demo_msg "a" t; redis_demo_msg "b" t]
    (map (λ cm, (false, cm_message cm)) batch ++ [])%list) as (rest & Hun & Hall).
  - reflexivity.
  - reflexivity.
  - constructor.
  - intros b. reflexivity.
  - apply demo_joined; vm_compute; reflexivity.
  - eapply both_send; [reflexivity|done|apply demo_send_ok|].
    eapply both_send; [reflexivity|done|apply demo_send_ok|].
    eapply both_claim; [exact demo_ids_inj| |exact E|]; [lia|apply both_done].
  - rewrite decide_True in Hall by (apply (bool_decide_unpack _); vm_compute; reflexivity).
    destruct batch as [|cm [|]]; [discriminate|..|discriminate].
    exists cm, s', (rest true). split; [exact (Hun true)|]. split; [exact (Hall true)|reflexivity].
Defined.
End examples.
