(* ===== verification/RedisCluster.v ===== *)
(** * Nodes that share a Redis stream

    The consumers of one group of a stream, on any number of nodes, against
    one server: every command is a step, so the methods of different
    consumers interleave at each command, and a node can crash between any
    two of its commands.  [RedisQueue] has the methods as functions of the
    consumer and the server; here they are programs whose effects are the
    commands, and [programs_refine] (in [RedisClusterTheorems]) shows that,
    run alone, a program is the function.

    [receive], which acknowledges before it returns and so gives a message at
    most once, is left out: the workers of a node have an inbox and its
    dispatchers claim. *)
From stdpp Require Import relations.
From S2P Require Import Prelude Prog Interleave Errors Message Codec Runtime Queues RedisQueue RedisQueueTheorems.

Open Scope list_scope.

(** ** Commands *)

Inductive Cmd : Type → Type :=
| CConnect : Cmd (result unit string)
| CXadd (k : string) (n : option Z) (f : string) (b : bytes) : Cmd (result string string)
| CXack (k g i : string) : Cmd (result Z string)
| CXgroup (k g start : string) : Cmd (result unit string)
| CXread (k g c : string) (block : Z) (n : nat)
    : Cmd (result (option (list (string * list StreamId))) string)
| CXautoclaim (k g c : string) (idle : Z) (start : string) (n : nat)
    : Cmd (result (list StreamId) string).

Definition cmd_run {S} `{Streams S} (X : Type) (e : Cmd X) (s : S) : X * S :=
  match e in Cmd X return X * S with
  | CConnect => x_connect s
  | CXadd k n f b => x_xadd k n f b s
  | CXack k g i => x_xack k g i s
  | CXgroup k g start => x_xgroup_create k g start s
  | CXread k g c block n => x_xreadgroup k g c block n s
  | CXautoclaim k g c idle start n => x_xautoclaim k g c idle start n s
  end.

(** ** The methods, command by command *)

Declare Scope program_scope.

(** A method of a consumer. *)
Definition program (A : Type) : Type :=
  RedisStreamConsumer → prog Cmd (Res A * RedisStreamConsumer).

Definition pret {A} (a : A) : program A := λ c, Ret (Ok a, c).
Definition pfail {A} (e : CoreError) : program A := λ c, Ret (Err e, c).
Definition pbind {A B} (m : program A) (k : A → program B) : program B := λ c,
  bind (m c) (λ rc, match rc.1 with Ok a => k a rc.2 | Err e => Ret (Err e, rc.2) end).
Definition pcommand {A} (err : string → CoreError) (e : Cmd (result A string)) : program A :=
  λ c, Vis e (λ r, Ret (map_err err r, c)).
Definition pignoring {A} (m : program A) : program unit := λ c,
  bind (m c) (λ rc, Ret (Ok tt, rc.2)).
Definition pthis : program RedisStreamConsumer := λ c, Ret (Ok c, c).
Definition pmodify (f : RedisStreamConsumer → RedisStreamConsumer) : program unit :=
  λ c, Ret (Ok tt, f c).

Notation "x ← m ; k" := (pbind m (λ x, k))
  (at level 20, m at level 100, k at level 200, only parsing) : program_scope.
Notation "m ;; k" := (pbind m (λ _, k))
  (at level 100, k at level 200, right associativity, only parsing) : program_scope.
Local Open Scope program_scope.

Section programs.
Context `{Bincode EMessage}.
Context (version_text : string → Z → string) (duration_text : Duration → string).

Definition p_conn : program unit :=
  c ← pthis;
  if c_conn c then pret tt else (pcommand recv_err CConnect;; pmodify set_connected).

Definition p_ensure_group : program unit :=
  c ← pthis;
  if c_group_ready c then pret tt
  else λ c, Vis (CXgroup (c_key c) (c_group c) (c_group_start c)) (λ r,
    match r with
    | Ok _ => Ret (Ok tt, set_group_ready c)
    | Err e => if contains "BUSYGROUP" e then Ret (Ok tt, set_group_ready c)
               else Ret (Err (recv_err e), c)
    end).

Definition p_ready_conn : program unit := p_conn;; p_ensure_group.

Definition p_xadd (key : string) (m : EMessage) (maxlen : option Z) : program unit :=
  match encode_msg m with
  | Err e => pfail e
  | Ok b => pcommand send_err (CXadd key maxlen MSG_FIELD b);; pret tt
  end.

Definition p_xack (key group entry_id : string) : program unit :=
  pcommand send_err (CXack key group entry_id);; pret tt.

Fixpoint p_read_entries (es : list StreamId) (out : list (string * EMessage))
    : program (list (string * EMessage)) :=
  match es with
  | [] => pret out
  | e :: es =>
      match sfields e !! MSG_FIELD with
      | Some b =>
          match decode_msg version_text duration_text b with
          | Err err => pfail err
          | Ok m => p_read_entries es (out ++ [(sid e, m)])
          end
      | None =>
          c ← pthis;
          pignoring (p_xack (c_key c) (c_group c) (sid e));;
          p_read_entries es out
      end
  end.

Fixpoint p_read_keys_loop (ks : list (string * list StreamId)) (out : list (string * EMessage))
    : program (list (string * EMessage)) :=
  match ks with
  | [] => pret out
  | (_, es) :: ks => out ← p_read_entries es out; p_read_keys_loop ks out
  end.

Definition p_read_group (count : nat) : program (list (string * EMessage)) :=
  p_ready_conn;;
  c ← pthis;
  reply ← pcommand recv_err
    (CXread (c_key c) (c_group c) (c_consumer c) (c_block_ms c) count);
  match reply with Some ks => p_read_keys_loop ks [] | None => pret [] end.

Definition p_claim_batch (uuids : nat → string) (now : SystemTime) (max : nat)
    : program (list ClaimedMessage) :=
  if decide (max = 0%nat) then pret []
  else
    entries ← p_read_group max;
    if decide (entries = []) then pret []
    else λ c, let '(batch, c) := claim_entries uuids now 0 entries [] c in Ret (Ok batch, c).

Definition p_claim (uuids : nat → string) (now : SystemTime) : program (option ClaimedMessage) :=
  batch ← p_claim_batch uuids now 1;
  pret (last batch).

Definition p_ack (claim_id : string) : program unit :=
  c ← pthis;
  let entry := c_pending c !! claim_id in
  pmodify (set_claims (delete claim_id (c_pending c)));;
  match entry with
  | Some (entry_id, _) => p_conn;; p_xack (c_key c) (c_group c) entry_id
  | None => pfail (EQueue (QInvalidClaimId claim_id))
  end.

Definition p_nack (claim_id : string) : program unit :=
  c ← pthis;
  let entry := c_pending c !! claim_id in
  pmodify (set_claims (delete claim_id (c_pending c)));;
  match entry with
  | Some (entry_id, m) =>
      p_conn;;
      p_xadd (c_key c) m (c_maxlen c);;
      p_xack (c_key c) (c_group c) entry_id
  | None => pfail (EQueue (QInvalidClaimId claim_id))
  end.

Fixpoint p_stale_entries (uuids : nat → string) (now : SystemTime) (i : nat) (es : list StreamId)
    (out : list ClaimedMessage) : program (list ClaimedMessage) :=
  match es with
  | [] => pret out
  | e :: es =>
      match sfields e !! MSG_FIELD with
      | None => p_stale_entries uuids now i es out
      | Some b =>
          match decode_msg version_text duration_text b with
          | Ok m => λ c,
              let '(cm, c) := redis_claim_as (uuids i) now (sid e) m c in
              p_stale_entries uuids now (S i) es (out ++ [cm]) c
          | Err _ =>
              c ← pthis;
              pignoring (p_xack (c_key c) (c_group c) (sid e));;
              p_stale_entries uuids now i es out
          end
      end
  end.

Definition p_claim_stale (uuids : nat → string) (now : SystemTime) (min_idle : Duration)
    : program (list ClaimedMessage) :=
  p_ready_conn;;
  c ← pthis;
  claimed ← pcommand recv_err (CXautoclaim (c_key c) (c_group c) (c_consumer c)
    (as_millis min_idle mod 2 ^ 64) "0-0" 64);
  p_stale_entries uuids now 0 claimed [].
End programs.

(** ** The cluster *)

Inductive COp : Type :=
| OClaimBatch (uuids : nat → string) (now : SystemTime) (max : nat)
| OClaim (uuids : nat → string) (now : SystemTime)
| OClaimStale (uuids : nat → string) (now : SystemTime) (min_idle : Duration)
| OAck (claim_id : string)
| ONack (claim_id : string).

Inductive Reply : Type :=
| RBatch (r : Res (list ClaimedMessage))
| ROne (r : Res (option ClaimedMessage))
| RUnit (r : Res unit).

(** A consumer in a call. *)
Record Calling : Type := { cl_consumer : RedisStreamConsumer; cl_op : COp }.

Section cluster.
Context {Sv : Type} `{StreamsLaws Sv} `{BincodeLaws EMessage}.
Context (vt : string → Z → string) (dt : Duration → string).
(** The stream and the group. *)
Context (key group : string).

(** The server, the messages whose sending was reported as done, and those
    whose claim somebody asked to be acknowledged. *)
Record Cluster : Type := { cs_server : Sv; cs_accepted : list EMessage; cs_acked : list EMessage }.

Definition with_server s (x : Cluster) : Cluster :=
  {| cs_server := s; cs_accepted := cs_accepted x; cs_acked := cs_acked x |}.
Definition note_accepted ms (x : Cluster) : Cluster :=
  {| cs_server := cs_server x; cs_accepted := cs_accepted x ++ ms; cs_acked := cs_acked x |}.
Definition note_acked ms (x : Cluster) : Cluster :=
  {| cs_server := cs_server x; cs_accepted := cs_accepted x; cs_acked := cs_acked x ++ ms |}.

Definition with_reply {A} (f : Res A → Reply) (p : prog Cmd (Res A * RedisStreamConsumer))
    : prog Cmd (RedisStreamConsumer * Reply) := bind p (λ rc, Ret (rc.2, f rc.1)).

Definition call_code (r : Calling) : prog Cmd (RedisStreamConsumer * Reply) :=
  match cl_op r with
  | OClaimBatch uuids now n => with_reply RBatch (p_claim_batch vt dt uuids now n (cl_consumer r))
  | OClaim uuids now => with_reply ROne (p_claim vt dt uuids now (cl_consumer r))
  | OClaimStale uuids now idle =>
      with_reply RBatch (p_claim_stale vt dt uuids now idle (cl_consumer r))
  | OAck i => with_reply RUnit (p_ack i (cl_consumer r))
  | ONack i => with_reply RUnit (p_nack i (cl_consumer r))
  end.

Definition cluster_eff (X : Type) (e : Cmd X) (x : Cluster) (a : X) (x' : Cluster) : Prop :=
  ∃ s', cmd_run X e (cs_server x) = (a, s') ∧ x' = with_server s' x.

(** What a call of [ack] asks to be acknowledged. *)
Definition acked_by (r : Calling) : list EMessage :=
  match cl_op r with
  | OAck i => match c_pending (cl_consumer r) !! i with Some (_, m) => [m] | None => [] end
  | _ => []
  end.

(** The owner of a consumer calls it again, with any method; a consumer that
    the factory of the topic makes starts with a call; any of them stops for
    good at any command. *)
Inductive cluster_next : Calling → RedisStreamConsumer * Reply → Cluster → Calling → Cluster → Prop :=
| NextCall r c reply x op :
    cluster_next r (c, reply) x {| cl_consumer := c; cl_op := op |}
      (note_acked (acked_by {| cl_consumer := c; cl_op := op |}) x).

Inductive cluster_spawn : Cluster → Calling → Cluster → Prop :=
| SpawnConsumer x uuid block_ms op :
    cluster_spawn x
      {| cl_consumer := RedisStreamConsumer_new uuid key group "0" block_ms None; cl_op := op |} x.

(** Producers send to any stream, other programs add entries of any kind, and
    other groups and streams change. *)
Inductive cluster_env : Cluster → Cluster → Prop :=
| EnvSend x p m o s' :
    rp_maxlen p = None → version m ≤ CURRENT_SCHEMA_VERSION →
    producer_send p m (cs_server x) = (o, s') →
    cluster_env x (note_accepted (if is_ok o && bool_decide (rp_key p = key) then [m] else [])
                     (with_server s' x))
| EnvForeign x f b a s' :
    x_xadd key None f b (cs_server x) = (a, s') → cluster_env x (with_server s' x)
| EnvOther x s' :
    st_entries (stream_at key (streams s')) = st_entries (stream_at key (streams (cs_server x))) →
    st_groups (stream_at key (streams s')) !! group =
      st_groups (stream_at key (streams (cs_server x))) !! group →
    cluster_env x (with_server s' x).

Abbreviation ClusterConf :=
  (Conf (E := Cmd) (S := Cluster) (R := Calling) (L := RedisStreamConsumer * Reply)).
Abbreviation ClusterView := (View (E := Cmd) (R := Calling) (L := RedisStreamConsumer * Reply)).

Definition cluster_step : ClusterConf → ClusterConf → Prop :=
  conf_step cluster_eff call_code cluster_next cluster_spawn (λ _, True) cluster_env.

(** An empty stream without the group. *)
Definition cluster_init (s : Sv) : ClusterConf :=
  {| shared := {| cs_server := s; cs_accepted := []; cs_acked := [] |}; tasks := [] |}.

Definition cluster_reaches (c : ClusterConf) : Prop :=
  ∃ s, st_entries (stream_at key (streams s)) = [] ∧
       st_groups (stream_at key (streams s)) !! group = None ∧
       rtc cluster_step (cluster_init s) c.
End cluster.
