(* ===== verification/RedisClusterTheorems.v ===== *)
(** * Theorems on nodes that share a Redis stream

    Run alone, the programs of [RedisCluster] are the methods of [RedisQueue]
    ([programs_refine]).  Interleaved, each call follows a protocol
    ([call_follows]): it acknowledges only the entry of its claim, [nack] only
    once the copy was added.  From that the invariant [cluster_ok], by
    [invariant_reachable]: a message that is acknowledged for the group
    without having been processed is in an entry further back. *)
From stdpp Require Import relations.
From S2P Require Import Prelude Prog Interleave Errors Message Codec Runtime Queues RedisQueue RedisQueueTheorems RedisCluster.

Open Scope list_scope.

Section programs.
Context `{Bincode EMessage}.
Context (version_text : string → Z → string) (duration_text : Duration → string).

(** ** They are the methods of [RedisQueue] *)

Context {Sv : Type} `{Streams Sv}.

Definition implements {A} (p : program A) (m : method (S := Sv) A) : Prop :=
  ∀ c s, run_outcome cmd_run (p c) s = Done ((m (c, s)).1, (m (c, s)).2.1) ∧
         run_state cmd_run (p c) s = (m (c, s)).2.2.

Lemma imp_ret {A} (a : A) : implements (pret a) (mret a).
Proof. done. Qed.
Lemma imp_fail {A} e : implements (pfail (A := A) e) (mfail e).
Proof. done. Qed.
Lemma imp_this : implements pthis this.
Proof. done. Qed.
Lemma imp_modify f : implements (pmodify f) (modify f).
Proof. done. Qed.

Lemma imp_bind {A B} p m (k : A → program B) k' :
  implements p m → (∀ a, implements (k a) (k' a)) → implements (pbind p k) (mbind m k').
Proof.
  intros Hp Hk c s. unfold pbind, mbind. rewrite run_outcome_bind, run_state_bind.
  destruct (Hp c s) as [-> ->]. destruct (m (c, s)) as [[a|e] [c' s']]; [apply Hk|done].
Qed.

Lemma imp_ignoring {A} (p : program A) m : implements p m → implements (pignoring p) (ignoring m).
Proof.
  intros Hp c s. unfold pignoring, ignoring. rewrite run_outcome_bind, run_state_bind.
  destruct (Hp c s) as [-> ->]. done.
Qed.

Lemma imp_command {A} err (e : Cmd (result A string)) f :
  (∀ s, cmd_run _ e s = f s) → implements (pcommand err e) (command err f).
Proof.
  intros Hf c s. unfold pcommand, command. rewrite run_outcome_vis, run_state_vis, (Hf s).
  by destruct (f s).
Qed.

#[local] Hint Resolve imp_ret imp_fail imp_this imp_modify imp_bind imp_ignoring imp_command : eb.

Lemma imp_conn : implements p_conn conn.
Proof.
  apply imp_bind; [apply imp_this|]. intros c. destruct (c_conn c); [apply imp_ret|].
  apply imp_bind; [by apply imp_command|]. intros _. apply imp_modify.
Qed.

Lemma imp_ensure_group : implements p_ensure_group ensure_group.
Proof.
  apply imp_bind; [apply imp_this|]. intros c. destruct (c_group_ready c); [apply imp_ret|].
  intros c' s. rewrite run_outcome_vis, run_state_vis. simpl.
  destruct (x_xgroup_create _ _ _ s) as [[[]|e] s']; [done|]. simpl.
  by destruct (contains _ e).
Qed.

Lemma imp_ready_conn : implements p_ready_conn ready_conn.
Proof. apply imp_bind; [apply imp_conn|]. intros _. apply imp_ensure_group. Qed.

Lemma imp_xack k g i : implements (p_xack k g i) (function (xack k g i)).
Proof.
  intros c s. unfold p_xack, pbind, pcommand. cbn [bind].
  rewrite run_outcome_vis, run_state_vis. unfold function, xack, discard. simpl.
  by destruct (x_xack k g i s) as [[z|e] s'].
Qed.

Lemma imp_xadd k m n : implements (p_xadd k m n) (function (xadd k m n)).
Proof.
  intros c s. unfold p_xadd, function, xadd. destruct (encode_msg m) as [b|e]; [|done].
  unfold pbind, pcommand. cbn [bind]. rewrite run_outcome_vis, run_state_vis.
  unfold discard. simpl. by destruct (x_xadd k n MSG_FIELD b s) as [[z|e] s'].
Qed.

Lemma imp_read_entries es out :
  implements (p_read_entries version_text duration_text es out) (read_entries version_text duration_text es out).
Proof.
  revert out. induction es as [|e es IH]; intros out; [apply imp_ret|]. simpl.
  destruct (sfields e !! MSG_FIELD) as [b|].
  - destruct (decode_msg _ _ b); [apply IH|apply imp_fail].
  - apply imp_bind; [apply imp_this|]. intros c.
    apply imp_bind; [apply imp_ignoring, imp_xack|]. intros _. apply IH.
Qed.

Lemma imp_read_keys ks out :
  implements (p_read_keys_loop version_text duration_text ks out) (read_keys_loop version_text duration_text ks out).
Proof.
  revert out. induction ks as [|[k es] ks IH]; intros out; [apply imp_ret|].
  apply imp_bind; [apply imp_read_entries|]. apply IH.
Qed.

Lemma imp_read_group n : implements (p_read_group version_text duration_text n) (read_group version_text duration_text n).
Proof.
  apply imp_bind; [apply imp_ready_conn|]. intros _. apply imp_bind; [apply imp_this|].
  intros c. apply imp_bind; [by apply imp_command|]. intros [ks|]; [apply imp_read_keys|apply imp_ret].
Qed.

Lemma imp_claim_batch uuids now n :
  implements (p_claim_batch version_text duration_text uuids now n) (redis_claim_batch version_text duration_text uuids now n).
Proof.
  unfold p_claim_batch, redis_claim_batch. case_decide; [apply imp_ret|].
  apply imp_bind; [apply imp_read_group|]. intros es. case_decide; [apply imp_ret|].
  intros c s. by destruct (claim_entries uuids now 0 es [] c) as [batch c'].
Qed.

Lemma imp_stale_entries uuids now i es out :
  implements (p_stale_entries version_text duration_text uuids now i es out)
    (stale_entries version_text duration_text uuids now i es out).
Proof.
  revert i out. induction es as [|e es IH]; intros i out; [apply imp_ret|]. simpl.
  destruct (sfields e !! MSG_FIELD) as [b|]; [|apply IH].
  destruct (decode_msg _ _ b) as [m|].
  - intros c s. simpl. apply IH.
  - apply imp_bind; [apply imp_this|]. intros c.
    apply imp_bind; [apply imp_ignoring, imp_xack|]. intros _. apply IH.
Qed.

(** Run alone, the programs do what the methods do. *)
Lemma programs_refine :
  (∀ uuids now n, implements (p_claim_batch version_text duration_text uuids now n)
     (redis_claim_batch version_text duration_text uuids now n)) ∧
  (∀ uuids now, implements (p_claim version_text duration_text uuids now)
     (redis_claim version_text duration_text uuids now)) ∧
  (∀ uuids now idle, implements (p_claim_stale version_text duration_text uuids now idle)
     (redis_claim_stale version_text duration_text uuids now idle)) ∧
  (∀ i, implements (p_ack i) (redis_ack i)) ∧
  (∀ i, implements (p_nack i) (redis_nack i)).
Proof.
  split_and!.
  - apply imp_claim_batch.
  - intros uuids now. apply imp_bind; [apply imp_claim_batch|]. intros b. apply imp_ret.
  - intros uuids now idle. apply imp_bind; [apply imp_ready_conn|]. intros _.
    apply imp_bind; [apply imp_this|]. intros c. apply imp_bind; [by apply imp_command|].
    intros es. apply imp_stale_entries.
  - intros i. apply imp_bind; [apply imp_this|]. intros c.
    apply imp_bind; [apply imp_modify|]. intros _.
    destruct (c_pending c !! i) as [[e m]|]; [|apply imp_fail].
    apply imp_bind; [apply imp_conn|]. intros _. apply imp_xack.
  - intros i. apply imp_bind; [apply imp_this|]. intros c.
    apply imp_bind; [apply imp_modify|]. intros _.
    destruct (c_pending c !! i) as [[e m]|]; [|apply imp_fail].
    apply imp_bind; [apply imp_conn|]. intros _.
    apply imp_bind; [apply imp_xadd|]. intros _. apply imp_xack.
Qed.
End programs.

Section cluster.
Context {Sv : Type} `{StreamsLaws Sv} `{BincodeLaws EMessage}.
Context (vt : string → Z → string) (dt : Duration → string).
Context (key group : string).

Abbreviation ClusterConf :=
  (Conf (E := Cmd) (S := Cluster (Sv := Sv)) (R := Calling) (L := RedisStreamConsumer * Reply)).
Abbreviation ClusterView := (View (E := Cmd) (R := Calling) (L := RedisStreamConsumer * Reply)).
#[local] Abbreviation cluster_reaches := (cluster_reaches vt dt key group).
#[local] Abbreviation cluster_env := (cluster_env key group).
#[local] Abbreviation cluster_spawn := (cluster_spawn key group).
#[local] Abbreviation call_code := (call_code vt dt).
#[local] Abbreviation Cluster := (Cluster (Sv := Sv)).

(** ** The protocol of a call *)

(** The message of an entry. *)
Definition decodes (e : StreamId) (m : EMessage) : Prop :=
  ∃ b, sfields e !! MSG_FIELD = Some b ∧ decode_msg vt dt b = Ok m.

Lemma decodes_unique e m m' : decodes e m → decodes e m' → m = m'.
Proof. intros (b & Hb & Hd) (b' & Hb' & Hd'). congruence. Qed.

(** The entries the server handed over. *)
Definition ev_entries (v : ev Cmd) : list StreamId :=
  match v with
  | Ev e x =>
      match e in Cmd X return X → list StreamId with
      | CXread _ _ _ _ _ => λ r, match r with Ok (Some ks) => ks ≫= snd | _ => [] end
      | CXautoclaim _ _ _ _ _ _ => λ r, match r with Ok es => es | Err _ => [] end
      | _ => λ _, []
      end x
  end.

(** The copy of a requeued message was accepted. *)
Definition ev_added (v : ev Cmd) : bool :=
  match v with
  | Ev e x =>
      match e in Cmd X return X → bool with CXadd _ _ _ _ => is_ok | _ => λ _, false end x
  end.

Definition claim_of (r : Calling) : option (string * EMessage) :=
  match cl_op r with
  | OAck i | ONack i => c_pending (cl_consumer r) !! i
  | _ => None
  end.

(** [ack] acknowledges the entry of its claim; [nack] the same once the copy
    was added; the others only entries they were handed that no message can
    be read from. *)
Definition call_pre (r : Calling) (t : list (ev Cmd)) (X : Type) (e : Cmd X) : Prop :=
  match e with
  | CConnect => True
  | CXadd k n f b =>
      k = key ∧ n = None ∧ f = MSG_FIELD ∧
      (∃ i, cl_op r = ONack i) ∧ ∃ em, claim_of r = Some em ∧ encode_msg em.2 = Ok b
  | CXack k g i =>
      k = key ∧ g = group ∧
      match cl_op r with
      | OAck _ => ∃ m, claim_of r = Some (i, m)
      | ONack _ => (∃ m, claim_of r = Some (i, m)) ∧ existsb ev_added t = true
      | _ => ∃ e, e ∈ t ≫= ev_entries ∧ sid e = i ∧ ∀ m, ¬ decodes e m
      end
  | CXgroup k g start => k = key ∧ g = group ∧ start = "0"%string
  | CXread k g _ _ n => k = key ∧ g = group ∧ (0 < n)%nat
  | CXautoclaim k g _ _ _ _ => k = key ∧ g = group
  end.

Definition config_ok (c : RedisStreamConsumer) : Prop :=
  c_key c = key ∧ c_group c = group ∧ c_group_start c = "0"%string ∧ c_maxlen c = None.

(** The consumer in the middle of a call: its claims are those it had, or of
    entries it was handed. *)
Definition consistent (r : Calling) (t : list (ev Cmd)) (c : RedisStreamConsumer) : Prop :=
  config_ok c ∧
  ∀ cid i m, c_pending c !! cid = Some (i, m) →
    c_pending (cl_consumer r) !! cid = Some (i, m) ∨
    ∃ e, e ∈ t ≫= ev_entries ∧ sid e = i ∧ decodes e m.

Definition call_post (r : Calling) (t : list (ev Cmd)) (l : RedisStreamConsumer * Reply) : Prop :=
  consistent r t l.1.

Definition call_ok (r : Calling) : Prop := config_ok (cl_consumer r).

(** A method at a point of a call. *)
Definition spec (r : Calling) (t : list (ev Cmd)) (c : RedisStreamConsumer) {A} (m : program A)
    (Q : list (ev Cmd) → Res A → RedisStreamConsumer → Prop) : Prop :=
  follows call_pre (λ _ _ _, True) (λ _ t rc, Q t rc.1 rc.2) r t (m c).

Lemma spec_bind {A B} r t c (m : program A) (k : A → program B) Q :
  spec r t c m (λ t o c, match o with Ok a => spec r t c (k a) Q | Err e => Q t (Err e) c end) →
  spec r t c (pbind m k) Q.
Proof.
  intros Hm. apply follows_bind. eapply follows_mono, Hm. intros t' [[a|e] c'] Hk; exact Hk.
Qed.

Lemma spec_ignoring {A} r t c (m : program A) Q :
  spec r t c m (λ t _ c, Q t (Ok tt) c) → spec r t c (pignoring m) Q.
Proof. intros Hm. apply follows_bind. eapply follows_mono, Hm. by intros t' [o c']. Qed.

Lemma spec_mono {A} r t c (m : program A) (Q Q' : list (ev Cmd) → Res A → RedisStreamConsumer → Prop) :
  (∀ t o c, Q t o c → Q' t o c) → spec r t c m Q → spec r t c m Q'.
Proof. intros HQ. apply follows_mono. intros t' [o c']. apply HQ. Qed.

Lemma consistent_app r t t' c : consistent r t c → consistent r (t ++ t') c.
Proof.
  intros [Hc Hp]. split; [done|]. intros cid i m Hm. destruct (Hp cid i m Hm) as [|(e & He & Hx)]; [by left|].
  right. exists e. split; [|done]. rewrite bind_app. apply elem_of_app. by left.
Qed.

(** A step that only sets flags of the consumer. *)
Lemma consistent_flags r t c c' :
  consistent r t c → c_pending c' = c_pending c → config_ok c' → consistent r t c'.
Proof. intros [_ Hp] Heq Hc. split; [done|]. by rewrite Heq. Qed.

(** After a method: consistent, and what was handed over or added is still
    in the events. *)
Definition after (r : Calling) (t : list (ev Cmd)) {A} (t' : list (ev Cmd)) (o : Res A)
    (c : RedisStreamConsumer) : Prop :=
  consistent r t' c ∧ ∃ u, t' = t ++ u.

Lemma after_trans {A} r t u t' (o : Res A) c : after r (t ++ u) t' o c → after r t t' o c.
Proof. intros [Hc [u' ->]]. split; [done|]. exists (u ++ u'). by rewrite (assoc_L (++)). Qed.

Lemma spec_conn r t c : consistent r t c → spec r t c p_conn (after r t).
Proof.
  intros Hc. assert (after r t t (Ok tt : Res unit) c) as Hnow
    by (split; [done|exists []; by rewrite app_nil_r]).
  apply spec_bind. unfold spec at 1. simpl. destruct (c_conn c); [exact Hnow|].
  apply spec_bind. unfold spec at 1. simpl. split; [done|]. intros [[]|e] _; simpl.
  - unfold spec. simpl. split; [|eauto]. eapply consistent_flags; [by apply consistent_app|done|apply Hc].
  - split; [by apply consistent_app|eauto].
Qed.

Lemma spec_ensure_group r t c : consistent r t c → spec r t c p_ensure_group (after r t).
Proof.
  intros Hc. apply spec_bind. unfold spec at 1. simpl. destruct (c_group_ready c).
  { split; [done|exists []; by rewrite app_nil_r]. }
  unfold spec. cbn [follows]. split; [by destruct Hc as [(? & ? & ? & ?) _]|].
  assert (∀ x, consistent r (t ++ [x]) (set_group_ready c)) as Hready.
  { intros x. eapply consistent_flags; [by apply consistent_app|done|apply Hc]. }
  intros [[]|e] _; simpl; [split; [done|eauto]|].
  destruct (contains _ e); simpl; (split; [|eauto]); [done|by apply consistent_app].
Qed.

Lemma spec_after_trans {A} r t u c (m : program A) :
  spec r (t ++ u) c m (after r (t ++ u)) → spec r (t ++ u) c m (after r t).
Proof. apply spec_mono. intros t' o c'. apply after_trans. Qed.

(** One method after another, with a result that satisfies [P]. *)
Lemma spec_then {A B} (P : list (ev Cmd) → A → Prop) r t c (m : program A) (k : A → program B) :
  spec r t c m (λ t1 o c1, after r t t1 o c1 ∧ ∀ a, o = Ok a → P t1 a) →
  (∀ u a c1, consistent r (t ++ u) c1 → P (t ++ u) a →
     spec r (t ++ u) c1 (k a) (after r (t ++ u))) →
  spec r t c (pbind m k) (after r t).
Proof.
  intros Hm Hk. apply spec_bind. eapply spec_mono, Hm.
  intros t1 [a|e] c1 [[Hc [u ->]] HP]; [|split; eauto].
  apply spec_after_trans, (Hk u a c1 Hc (HP a eq_refl)).
Qed.

Lemma spec_after {A} (P : list (ev Cmd) → A → Prop) r t c (m : program A) :
  (∀ t' a, P t' a) → spec r t c m (after r t) →
  spec r t c m (λ t1 o c1, after r t t1 o c1 ∧ ∀ a, o = Ok a → P t1 a).
Proof. intros HP. apply spec_mono. auto. Qed.

Lemma spec_this {B} r t c (k : RedisStreamConsumer → program B) Q :
  spec r t c (k c) Q → spec r t c (pbind pthis k) Q.
Proof. intros Hk. by apply spec_bind. Qed.

Lemma spec_done {A} r t c (a : Res A) :
  consistent r t c → spec r t c (λ c, Ret (a, c)) (after r t).
Proof. intros Hc. split; [done|exists []; by rewrite app_nil_r]. Qed.

Abbreviation anything := (λ _ _, True).

Lemma spec_ready_conn r t c : consistent r t c → spec r t c p_ready_conn (after r t).
Proof.
  intros Hc. apply (spec_then anything).
  - apply spec_after; [done|]. by apply spec_conn.
  - intros u a c1 Hc1 _. by apply spec_ensure_group.
Qed.

Lemma spec_xack r t c k g i :
  consistent r t c → call_pre r t _ (CXack k g i) → spec r t c (p_xack k g i) (after r t).
Proof.
  intros Hc Hp. apply spec_bind. unfold spec at 1. cbn [follows pcommand]. split; [done|].
  intros [z|e] _; simpl; (split; [by apply consistent_app|eauto]).
Qed.

(** Entries of which nothing can be read may be acknowledged by a claim. *)
Definition claims_only (r : Calling) : Prop :=
  match cl_op r with OAck _ | ONack _ => False | _ => True end.

Lemma spec_drop_entry r t c e :
  consistent r t c → claims_only r → e ∈ t ≫= ev_entries → (∀ m, ¬ decodes e m) →
  spec r t c (pignoring (p_xack (c_key c) (c_group c) (sid e))) (after r t).
Proof.
  intros Hc Hr He Hd. apply spec_ignoring. eapply spec_mono; [|apply spec_xack; [done|]].
  - intros t' o c' Ha. exact Ha.
  - unfold claims_only in Hr. destruct Hc as [(-> & -> & _) _]. simpl. split_and!; [done|done|].
    destruct (cl_op r); try done; eauto.
Qed.

(** Pairs of an id and a message that were read from entries handed over. *)
Definition read_from (t : list (ev Cmd)) (out : list (string * EMessage)) : Prop :=
  Forall (λ em, ∃ e, e ∈ t ≫= ev_entries ∧ sid e = em.1 ∧ decodes e em.2) out.

Lemma read_from_app t u out : read_from t out → read_from (t ++ u) out.
Proof.
  intros Hf. eapply Forall_impl; [exact Hf|]. intros em (e & He & Hx). exists e. split; [|done].
  rewrite bind_app. apply elem_of_app. by left.
Qed.

Lemma entries_app t u (es : list StreamId) :
  Forall (λ e, e ∈ t ≫= ev_entries) es → Forall (λ e, e ∈ (t ++ u) ≫= ev_entries) es.
Proof.
  intros Hf. eapply Forall_impl; [exact Hf|]. intros e He. rewrite bind_app. apply elem_of_app. by left.
Qed.

Lemma no_message e b er : sfields e !! MSG_FIELD = Some b → decode_msg vt dt b = Err er →
  ∀ m, ¬ decodes e m.
Proof. intros Hb Hd m (b' & Hb' & Hd'). congruence. Qed.

Definition reading (r : Calling) (t t1 : list (ev Cmd)) (o : Res (list (string * EMessage)))
    (c1 : RedisStreamConsumer) : Prop := after r t t1 o c1 ∧ ∀ l, o = Ok l → read_from t1 l.

Lemma reading_trans r t u t' o c : reading r (t ++ u) t' o c → reading r t t' o c.
Proof. intros [Ha Hl]. split; [by eapply after_trans|done]. Qed.

Lemma spec_reading_trans r t u c m :
  spec r (t ++ u) c m (reading r (t ++ u)) → spec r (t ++ u) c m (reading r t).
Proof. apply spec_mono. intros t' o c'. apply reading_trans. Qed.

Lemma reading_done r t c l : consistent r t c → read_from t l → spec r t c (pret l) (reading r t).
Proof. intros Hc Hl. split; [by apply (spec_done r t c (Ok l))|]. by intros l' [= <-]. Qed.

Lemma spec_read_entries r es t c out :
  consistent r t c → claims_only r → Forall (λ e, e ∈ t ≫= ev_entries) es → read_from t out →
  spec r t c (p_read_entries vt dt es out) (reading r t).
Proof.
  revert t c out. induction es as [|e es IH]; intros t c out Hc Hr Hes Hout.
  { by apply reading_done. }
  apply Forall_cons in Hes as [He Hes]. cbn [p_read_entries].
  destruct (sfields e !! MSG_FIELD) as [b|] eqn:Hb.
  - destruct (decode_msg vt dt b) as [m|er] eqn:Hd.
    + apply IH; [done..|]. apply Forall_app. split; [done|]. apply Forall_singleton.
      exists e. split_and!; [done|done|]. by exists b.
    + split; [by apply (spec_done r t c (Err er : Res unit))|done].
  - apply spec_this, spec_bind. eapply spec_mono; [|apply spec_drop_entry; [done|done|done|]].
    + intros t1 [a|er] c1 [Hc1 [u ->]]; [|by split; [split; eauto|]].
      apply spec_reading_trans.
      apply IH; [done|done|by apply entries_app|by apply read_from_app].
    + intros m (b & Hb' & _). congruence.
Qed.

Lemma spec_read_keys r ks t c out :
  consistent r t c → claims_only r → Forall (λ e, e ∈ t ≫= ev_entries) (ks ≫= snd) →
  read_from t out → spec r t c (p_read_keys_loop vt dt ks out) (reading r t).
Proof.
  revert t c out. induction ks as [|[k es] ks IH]; intros t c out Hc Hr Hes Hout.
  { by apply reading_done. }
  cbn [mbind list_bind snd] in Hes. apply Forall_app in Hes as [He Hes].
  apply spec_bind. eapply spec_mono; [|by apply spec_read_entries].
  intros t1 [l|er] c1 [[Hc1 [u ->]] Hl]; [|by split; [split; eauto|]].
  apply spec_reading_trans.
  apply IH; [done|done|by apply entries_app|by apply Hl].
Qed.

Lemma spec_read_group r t c n :
  consistent r t c → claims_only r → (0 < n)%nat → spec r t c (p_read_group vt dt n) (reading r t).
Proof.
  intros Hc Hr Hn. apply spec_bind. eapply spec_mono; [|by apply spec_ready_conn].
  intros t1 [[]|er] c1 [Hc1 [u ->]]; [|by split; [split; eauto|]].
  apply spec_reading_trans. revert Hc1. generalize (t ++ u). intros t' Hc1.
  apply spec_this, spec_bind. unfold spec at 1. cbn [follows pcommand].
  split; [by destruct Hc1 as [(? & ? & _) _]|]. intros reply _. cbn [fst snd].
  assert (consistent r (t' ++ [Ev (CXread (c_key c1) (c_group c1) (c_consumer c1) (c_block_ms c1) n) reply]) c1)
    as Hc2 by by apply consistent_app.
  destruct reply as [[ks|]|er]; cbn [map_err].
  - apply spec_reading_trans, spec_read_keys; [done|done| |constructor].
    apply Forall_forall. intros e He. rewrite bind_app. apply elem_of_app. right.
    rewrite bind_singleton. exact He.
  - apply spec_reading_trans, reading_done; [done|constructor].
  - split; [|done]. split; [done|eauto].
Qed.

(** *** The claims of a batch *)

Lemma consistent_claim r t c cid i m e :
  consistent r t c → e ∈ t ≫= ev_entries → sid e = i → decodes e m →
  consistent r t (set_claims (<[cid := (i, m)]> (c_pending c)) c).
Proof.
  intros [Hc Hp] He Hi Hd. split; [done|]. intros cid' i' m'. simpl.
  intros [[<- [= <- <-]]|[_ Hm]]%lookup_insert_Some; [right; eauto|by apply Hp].
Qed.

Lemma consistent_claims r t uuids now i entries batch c :
  consistent r t c → read_from t entries →
  consistent r t (claim_entries uuids now i entries batch c).2.
Proof.
  revert i batch c. induction entries as [|[eid m] entries IH]; intros i batch c Hc Hr; [done|].
  apply Forall_cons in Hr as [(e & He & Hi & Hd) Hr]. simpl. apply IH; [|done].
  by eapply consistent_claim.
Qed.

Lemma spec_claim_batch r t c uuids now n :
  consistent r t c → claims_only r → spec r t c (p_claim_batch vt dt uuids now n) (after r t).
Proof.
  intros Hc Hr. unfold p_claim_batch. case_decide; [by apply (spec_done r t c (Ok []))|].
  apply spec_bind. eapply spec_mono; [|apply spec_read_group; [done|done|lia]].
  intros t1 [es|er] c1 [[Hc1 Hu] Hl]; [|by split]. case_decide; [by split|].
  unfold spec. pose proof (consistent_claims r t1 uuids now 0 es [] c1 Hc1 (Hl _ eq_refl)) as Hcl.
  destruct (claim_entries uuids now 0 es [] c1) as [batch c2]. by split.
Qed.

Lemma spec_stale_entries r t c uuids now i es out :
  consistent r t c → claims_only r → Forall (λ e, e ∈ t ≫= ev_entries) es →
  spec r t c (p_stale_entries vt dt uuids now i es out) (after r t).
Proof.
  revert t c i out. induction es as [|e es IH]; intros t c i out Hc Hr Hes.
  { by apply (spec_done r t c (Ok out)). }
  apply Forall_cons in Hes as [He Hes]. cbn [p_stale_entries].
  destruct (sfields e !! MSG_FIELD) as [b|] eqn:Hb; [|by apply IH].
  destruct (decode_msg vt dt b) as [m|er] eqn:Hd.
  - unfold spec. apply IH; [|done|done]. eapply consistent_claim; [done|done|done|by exists b].
  - apply spec_this. apply (spec_then anything).
    + apply spec_after; [done|]. apply spec_drop_entry; [done|done|done|by eapply no_message].
    + intros u a c1 Hc1 _. apply IH; [done|done|by apply entries_app].
Qed.

Lemma spec_claim_stale r t c uuids now idle :
  consistent r t c → claims_only r → spec r t c (p_claim_stale vt dt uuids now idle) (after r t).
Proof.
  intros Hc Hr. apply (spec_then anything); [apply spec_after; [done|by apply spec_ready_conn]|].
  intros u _ c1 Hc1 _. apply spec_this. revert Hc1. generalize (t ++ u). intros t' Hc1.
  apply spec_bind. unfold spec at 1. cbn [follows pcommand].
  split; [by destruct Hc1 as [(? & ? & _) _]|]. intros reply _. cbn [fst snd].
  assert (∀ x, consistent r (t' ++ [x]) c1) as Hc2 by (intros; by apply consistent_app).
  destruct reply as [es|er]; cbn [map_err]; [|split; [done|eauto]].
  apply spec_after_trans, spec_stale_entries; [done|done|].
  apply Forall_forall. intros e He. rewrite bind_app. apply elem_of_app. right.
  rewrite bind_singleton. exact He.
Qed.

(** *** Acknowledging *)

Lemma consistent_forget r t c cid :
  consistent r t c → consistent r t (set_claims (delete cid (c_pending c)) c).
Proof.
  intros [Hc Hp]. split; [done|]. intros cid' i m. simpl.
  intros [_ Hm]%lookup_delete_Some. by apply Hp.
Qed.

Lemma spec_ack r c cid :
  consistent r [] c → cl_op r = OAck cid → c = cl_consumer r → spec r [] c (p_ack cid) (after r []).
Proof.
  intros Hc Hop ->. apply spec_this, spec_bind. cbn [pmodify]. unfold spec at 1. cbn [follows].
  apply (consistent_forget _ _ _ cid) in Hc as Hc1.
  destruct (c_pending (cl_consumer r) !! cid) as [[i m]|] eqn:Hm; [|by apply (spec_done r [] _ (Err _))].
  apply (spec_then anything); [apply spec_after; [done|by apply spec_conn]|].
  intros u _ c1 Hc2 _. apply spec_xack; [done|]. destruct Hc as [(-> & -> & _) _].
  simpl. split_and!; [done|done|]. rewrite Hop. exists m. unfold claim_of. by rewrite Hop.
Qed.

Lemma spec_nack r c cid :
  consistent r [] c → cl_op r = ONack cid → c = cl_consumer r → spec r [] c (p_nack cid) (after r []).
Proof.
  intros Hc Hop ->. apply spec_this, spec_bind. cbn [pmodify]. unfold spec at 1. cbn [follows].
  apply (consistent_forget _ _ _ cid) in Hc as Hc1. destruct Hc as [(Hk & Hg & _ & Hn) _].
  destruct (c_pending (cl_consumer r) !! cid) as [[i m]|] eqn:Hm; [|by apply (spec_done r [] _ (Err _))].
  assert (claim_of r = Some (i, m)) as Hcl by (unfold claim_of; by rewrite Hop).
  apply (spec_then anything); [apply spec_after; [done|by apply spec_conn]|].
  intros u _ c1 Hc2 _. apply (spec_then (λ t _, existsb ev_added t = true)).
  - unfold p_xadd. destruct (encode_msg m) as [b|er] eqn:Hb.
    2:{ split; [by apply (spec_done r _ _ (Err er : Res unit))|done]. }
    apply spec_bind. unfold spec at 1. cbn [follows pcommand]. split.
    { simpl. split_and!; eauto. }
    intros [z|er] _; cbn [fst snd map_err]; (split; [split; [by apply consistent_app|eauto]|]); [|done].
    intros _ _. rewrite existsb_app. simpl. by rewrite orb_true_r.
  - intros u' _ c2 Hc3 Hadd. apply spec_xack; [done|]. rewrite Hk, Hg. simpl.
    split_and!; [done|done|]. rewrite Hop. eauto.
Qed.

Lemma call_follows r :
  call_ok r → follows call_pre (λ _ _ _, True) call_post r [] (call_code r).
Proof.
  intros Hok. assert (consistent r [] (cl_consumer r)) as Hc by (split; [done|auto]).
  assert (∀ A (m : program A) f, spec r [] (cl_consumer r) m (after r []) →
    follows call_pre (λ _ _ _, True) call_post r [] (with_reply f (m (cl_consumer r)))) as Hreply.
  { intros A m f Hs. apply follows_bind. eapply follows_mono, Hs. intros t [o c] [Hc1 _]. exact Hc1. }
  unfold call_code. destruct (cl_op r) as [uuids now n|uuids now|uuids now idle|cid|cid] eqn:Hop;
    apply Hreply.
  - apply spec_claim_batch; [done|]. unfold claims_only. by rewrite Hop.
  - apply (spec_then anything).
    + apply spec_after; [done|]. apply spec_claim_batch; [done|]. unfold claims_only. by rewrite Hop.
    + intros u batch c1 Hc1 _. by apply (spec_done r _ c1 (Ok (last batch))).
  - apply spec_claim_stale; [done|]. unfold claims_only. by rewrite Hop.
  - by apply spec_ack.
  - by apply spec_nack.
Qed.

(** ** The invariant *)

Definition stream_of (x : Cluster) : Stream := stream_at key (streams (cs_server x)).

(** Message [m] is in an entry behind position [p]. *)
Definition later (st : Stream) (p : nat) (m : EMessage) : Prop :=
  ∃ p' e, (p < p')%nat ∧ st_entries st !! p' = Some e ∧ decodes e m.

(** Message [m] was added again behind entry [i]. *)
Definition readded (st : Stream) (i : string) (m : EMessage) : Prop :=
  ∃ p e, st_entries st !! p = Some e ∧ sid e = i ∧ later st p m.

(** The message of an entry that is neither new to the group nor in flight
    was acknowledged, or is in an entry further back. *)
Definition covered (st : Stream) (acked : list EMessage) : Prop :=
  ∀ gr p e m, st_groups st !! group = Some gr → st_entries st !! p = Some e → decodes e m →
    m ∈ acked ∨ sid e ∈ g_new gr ∨ is_Some (g_pel gr !! sid e) ∨ later st p m.

Definition grows (st st' : Stream) : Prop := ∃ ext, st_entries st' = st_entries st ++ ext.

Record cluster_ok (x : Cluster) (vs : list ClusterView) : Prop := {
  ck_ids : ids_unique (stream_of x);
  ck_handed : ∀ v e, v ∈ vs → e ∈ v.1.2 ≫= ev_entries → e ∈ st_entries (stream_of x);
  ck_claims : ∀ v cid i m, v ∈ vs → c_pending (cl_consumer v.1.1) !! cid = Some (i, m) →
    ∃ e, e ∈ st_entries (stream_of x) ∧ sid e = i ∧ decodes e m;
  ck_acked : ∀ v m, v ∈ vs → m ∈ acked_by v.1.1 → m ∈ cs_acked x;
  ck_added : ∀ v i m, v ∈ vs → existsb ev_added v.1.2 = true →
    claim_of v.1.1 = Some (i, m) → readded (stream_of x) i m;
  ck_sent : ∀ m, m ∈ cs_accepted x → ∃ e, e ∈ st_entries (stream_of x) ∧ decodes e m;
  ck_covered : covered (stream_of x) (cs_acked x)
}.

Lemma grows_lookup st st' p e : grows st st' → st_entries st !! p = Some e → st_entries st' !! p = Some e.
Proof. intros [ext ->] Hp. by apply lookup_app_l_Some. Qed.

Lemma grows_elem st st' e : grows st st' → e ∈ st_entries st → e ∈ st_entries st'.
Proof. intros [ext ->] He. apply elem_of_app. by left. Qed.

Lemma grows_same st st' : st_entries st' = st_entries st → grows st st'.
Proof. intros Heq. exists []. by rewrite Heq, app_nil_r. Qed.

Lemma later_grows st st' p m : grows st st' → later st p m → later st' p m.
Proof. intros Hg (p' & e & Hp & He & Hd). exists p', e. split_and!; [done|by eapply grows_lookup|done]. Qed.

Lemma readded_grows st st' i m : grows st st' → readded st i m → readded st' i m.
Proof.
  intros Hg (p & e & He & Hi & Hl). exists p, e.
  split_and!; [by eapply grows_lookup|done|by eapply later_grows].
Qed.

(** An entry added behind entry [i]. *)
Lemma readded_append st j b e i m :
  e ∈ st_entries st → sid e = i → decode_msg vt dt b = Ok m →
  readded (append_entry j MSG_FIELD b st) i m.
Proof.
  intros [p Hp]%list_elem_of_lookup Hi Hb. exists p, e. pose proof (lookup_lt_Some _ _ _ Hp) as Hlt.
  split_and!; [by apply lookup_app_l_Some|done|].
  exists (length (st_entries st)). eexists. split_and!; [done|apply list_lookup_middle; done|].
  exists b. split; [by apply lookup_singleton_eq|done].
Qed.

(** The server and the history move on. *)
Lemma server_ok x x' vs :
  cluster_ok x vs → grows (stream_of x) (stream_of x') → ids_unique (stream_of x') →
  covered (stream_of x') (cs_acked x') → cs_acked x ⊆ cs_acked x' →
  (∀ m, m ∈ cs_accepted x' → m ∈ cs_accepted x ∨ ∃ e, e ∈ st_entries (stream_of x') ∧ decodes e m) →
  cluster_ok x' vs.
Proof.
  intros [_ Hh Hc Ha Hd Hs _] Hg Hu Hcov Hsub Hacc. split; [done|..|done].
  - intros v e Hv He. eapply grows_elem; [done|by eapply Hh].
  - intros v cid i m Hv Hp. destruct (Hc v cid i m Hv Hp) as (e & He & Hx).
    exists e. split; [by eapply grows_elem|done].
  - intros v m Hv Hm. by eapply Hsub, Ha.
  - intros v i m Hv Ht Hcl. eapply readded_grows; [done|by eapply Hd].
  - intros m [Hm|He]%Hacc; [|done]. destruct (Hs m Hm) as (e & He & Hx).
    exists e. split; [by eapply grows_elem|done].
Qed.

(** A consumer sees an answer. *)
Lemma view_ok x vs i r t ds v :
  cluster_ok x vs → vs !! i = Some (r, t, ds) →
  (∀ e, e ∈ ev_entries v → e ∈ st_entries (stream_of x)) →
  (∀ j m, ev_added v = true → claim_of r = Some (j, m) → readded (stream_of x) j m) →
  cluster_ok x (<[i := (r, t ++ [v], ds)]> vs).
Proof.
  intros [Hu Hh Hc Ha Hd Hs Hcov] Hi He Hadd. pose proof (list_elem_of_lookup_2 _ _ _ Hi) as Hin.
  assert (∀ u, u ∈ <[i := (r, t ++ [v], ds)]> vs → u ∈ vs ∨ u = (r, t ++ [v], ds)) as Hcases.
  { intros u [j Hj]%list_elem_of_lookup.
    apply list_lookup_insert_Some in Hj as [(_ & <- & _)|[_ Hj]]; [by right|].
    left. by eapply list_elem_of_lookup_2. }
  split; [done|..|done|done].
  - intros u e [Hu'| ->]%Hcases Heu; [by eapply Hh|]. simpl in Heu. rewrite bind_app in Heu.
    apply elem_of_app in Heu as [Heu|Heu]; [by eapply (Hh (r, t, ds))|].
    rewrite bind_singleton in Heu. by apply He.
  - intros u cid j m [Hu'| ->]%Hcases; [by eapply Hc|by apply (Hc (r, t, ds))].
  - intros u m [Hu'| ->]%Hcases; [by eapply Ha|by apply (Ha (r, t, ds))].
  - intros u j m [Hu'| ->]%Hcases; [by eapply Hd|]. cbn [fst snd]. rewrite existsb_app.
    intros [Ht|Hv]%orb_true_iff Hcl; [by eapply (Hd (r, t, ds))|].
    simpl in Hv. rewrite orb_false_r in Hv. by apply Hadd.
Qed.

(** *** What commands do to the cover *)

Lemma covered_append st acked j f b :
  covered st acked → covered (append_entry j f b st) acked.
Proof.
  intros Hc gr p e m Hg Hp Hd. simpl in Hg. rewrite lookup_fmap in Hg.
  apply fmap_Some in Hg as (gr0 & Hg & ->). simpl in Hp |- *.
  apply lookup_snoc_Some in Hp as [[Hlt Hp]|[-> <-]].
  - destruct (Hc gr0 p e m Hg Hp Hd) as [|[|[|Hl]]]; [by left| | |].
    + right. left. apply elem_of_app. by left.
    + by do 2 right; left.
    + do 3 right. eapply later_grows; [|exact Hl]. by eexists.
  - right. left. apply elem_of_app. right. by apply list_elem_of_singleton.
Qed.

(** The group changes. *)
Lemma covered_group st acked gr gr' :
  covered st acked → st_groups st !! group = Some gr →
  (∀ p e m, st_entries st !! p = Some e → decodes e m →
     sid e ∈ g_new gr ∨ is_Some (g_pel gr !! sid e) →
     m ∈ acked ∨ sid e ∈ g_new gr' ∨ is_Some (g_pel gr' !! sid e) ∨ later st p m) →
  covered (with_group group gr' st) acked.
Proof.
  intros Hc Hg Hstep gr1 p e m Hg1 Hp Hd. simpl in Hg1, Hp. rewrite lookup_insert_eq in Hg1.
  injection Hg1 as <-. destruct (Hc gr p e m Hg Hp Hd) as [|[Hn|[Hn|Hl]]]; [by left|..].
  - by apply (Hstep p e m); [| |left].
  - by apply (Hstep p e m); [| |right].
  - by do 3 right.
Qed.

Lemma covered_new_group st acked : covered (with_group group (new_group "0" st) st) acked.
Proof.
  intros gr p e m Hg Hp Hd. simpl in Hg, Hp. rewrite lookup_insert_eq in Hg. injection Hg as <-.
  right. left. simpl. apply list_elem_of_fmap_2. by eapply list_elem_of_lookup_2.
Qed.

Lemma covered_deliver st acked gr n o :
  covered st acked → st_groups st !! group = Some gr →
  covered (with_group group (deliver_new n o gr) st) acked.
Proof.
  intros Hc Hg. eapply covered_group; [done|done|]. intros p e m _ _ Hin. right.
  rewrite (deliver_pel vt). case_decide as Ht; [by right; left|].
  destruct Hin as [Hin|Hin]; [|by right; left].
  rewrite <- (take_drop n (g_new gr)) in Hin. apply elem_of_app in Hin as [|Hin]; [done|by left].
Qed.

Lemma covered_forget st acked gr i :
  covered st acked → st_groups st !! group = Some gr →
  (∀ p e m, st_entries st !! p = Some e → sid e = i → decodes e m → m ∈ acked ∨ later st p m) →
  covered (with_group group (with_pel (delete i (g_pel gr)) gr) st) acked.
Proof.
  intros Hc Hg Hi. eapply covered_group; [done|done|]. intros p e m Hp Hd [Hin|Hin]; simpl; [by right; left|].
  destruct (decide (sid e = i)) as [He|He].
  - destruct (Hi p e m Hp He Hd); [by left|by do 3 right].
  - rewrite lookup_delete_ne by done. by do 2 right; left.
Qed.
(** *** Commands keep the invariant *)

Lemma same_ok x s' vs :
  cluster_ok x vs → stream_of (with_server s' x) = stream_of x → cluster_ok (with_server s' x) vs.
Proof.
  intros Hx Hs. eapply server_ok; [exact Hx|..]; rewrite ?Hs; simpl.
  - by apply grows_same.
  - apply (ck_ids _ _ Hx).
  - apply (ck_covered _ _ Hx).
  - done.
  - auto.
Qed.

Lemma group_ok x s' vs gr' :
  cluster_ok x vs → stream_of (with_server s' x) = with_group group gr' (stream_of x) →
  covered (with_group group gr' (stream_of x)) (cs_acked x) → cluster_ok (with_server s' x) vs.
Proof.
  intros Hx Hs Hc. eapply server_ok; [exact Hx|..]; rewrite ?Hs; simpl.
  - by apply grows_same.
  - apply (ck_ids _ _ Hx).
  - exact Hc.
  - done.
  - auto.
Qed.

(** [XADD] on any stream. *)
Lemma add_ok x vs k f b a s' :
  cluster_ok x vs → x_xadd k None f b (cs_server x) = (a, s') →
  cluster_ok (with_server s' x) vs ∧
  (is_ok a = true → k = key → ∃ j, stream_of (with_server s' x) = append_entry j f b (stream_of x)).
Proof.
  intros Hx Ha. apply xadd_law in Ha as [(j & Hj & _ & Hs)|[Ha Hs]].
  2:{ split; [|congruence]. apply same_ok; [done|]. unfold stream_of. simpl. by rewrite Hs. }
  destruct (decide (k = key)) as [->|Hk].
  - assert (stream_of (with_server s' x) = append_entry j f b (stream_of x)) as Hst
      by (unfold stream_of; simpl; rewrite Hs; apply stream_at_same).
    split; [|eauto]. eapply server_ok; [exact Hx|..]; rewrite ?Hst; simpl.
    + by eexists.
    + apply append_unique; [apply (ck_ids _ _ Hx)|exact Hj].
    + apply covered_append, (ck_covered _ _ Hx).
    + done.
    + auto.
  - split; [|done]. apply same_ok; [done|]. unfold stream_of. simpl.
    by rewrite Hs, stream_at_insert, decide_False.
Qed.

(** An entry is known by its id. *)
Lemma entry_at st e e' p i m m' :
  ids_unique st → st_entries st !! p = Some e → sid e = i → decodes e m →
  e' ∈ st_entries st → sid e' = i → decodes e' m' → m = m'.
Proof.
  intros Hu Hp He Hd He' Hi' Hd'.
  assert (e' = e) as -> by (eapply unique_entry; [done|done|by eapply list_elem_of_lookup_2|congruence]).
  by eapply decodes_unique.
Qed.

Lemma position_unique st e e' p p' :
  ids_unique st → st_entries st !! p = Some e → st_entries st !! p' = Some e' → sid e = sid e' → p = p'.
Proof.
  unfold ids_unique. intros Hu Hp Hp' Hs. eapply NoDup_lookup; [exact Hu|..].
  - change (map sid (st_entries st)) with (sid <$> st_entries st). by rewrite list_lookup_fmap, Hp.
  - change (map sid (st_entries st)) with (sid <$> st_entries st). by rewrite list_lookup_fmap, Hp', Hs.
Qed.

(** The entries a call may acknowledge. *)
Lemma may_forget x vs r t ds i p e m :
  cluster_ok x vs → (r, t, ds) ∈ vs → call_pre r t _ (CXack key group i) →
  st_entries (stream_of x) !! p = Some e → sid e = i → decodes e m →
  m ∈ cs_acked x ∨ later (stream_of x) p m.
Proof.
  intros Hx Hv (_ & _ & Hpre) Hp Hi Hd. pose proof (ck_ids _ _ Hx) as Hu.
  assert (∀ m', claim_of r = Some (i, m') → m = m') as Hclaim.
  { intros m' Hcl. unfold claim_of in Hcl.
    assert (∃ cid, c_pending (cl_consumer r) !! cid = Some (i, m')) as [cid Hcid]
      by (destruct (cl_op r); try done; eauto).
    destruct (ck_claims _ _ Hx _ _ _ _ Hv Hcid) as (e' & He' & Hi' & Hd').
    by eapply (entry_at _ e e'). }
  assert ((∃ e', e' ∈ t ≫= ev_entries ∧ sid e' = i ∧ ∀ m', ¬ decodes e' m') → False) as Hno.
  { intros (e' & He' & Hi' & Hn). assert (e' = e) as ->; [|by eapply Hn].
    eapply unique_entry; [exact Hu|by apply (ck_handed _ _ Hx (r, t, ds))|by eapply list_elem_of_lookup_2|].
    congruence. }
  destruct (cl_op r) as [| | |cid|cid] eqn:Hop; try by destruct (Hno Hpre).
  - destruct Hpre as [m' Hcl]. rewrite (Hclaim m' Hcl). left. apply (ck_acked _ _ Hx (r, t, ds)); [done|].
    unfold claim_of in Hcl. unfold acked_by. simpl. rewrite Hop in Hcl |- *. rewrite Hcl.
    by apply list_elem_of_singleton.
  - destruct Hpre as [[m' Hcl] Hadd]. rewrite (Hclaim m' Hcl). right.
    destruct (ck_added _ _ Hx (r, t, ds) i m' Hv Hadd Hcl) as (p' & e' & Hp' & Hi' & Hl).
    assert (p = p') as -> by (eapply position_unique; [exact Hu|done|done|congruence]). done.
Qed.

Lemma command_ok x vs i r t ds X (e : Cmd X) a s' :
  cluster_ok x vs → vs !! i = Some (r, t, ds) → call_pre r t X e →
  cmd_run X e (cs_server x) = (a, s') → cluster_ok (with_server s' x) vs.
Proof.
  intros Hx Hi Hpre He. apply list_elem_of_lookup_2 in Hi as Hv.
  destruct e as [|k n f b|k g j|k g start|k g c block n|k g c idle start n]; simpl in He.
  - apply connect_law in He. apply same_ok; [done|]. unfold stream_of. simpl. by rewrite He.
  - destruct Hpre as (_ & -> & _). by destruct (add_ok x vs k f b a s' Hx He).
  - pose proof Hpre as (-> & -> & _). apply xack_law in He as [He|[_ He]].
    2:{ apply same_ok; [done|]. unfold stream_of. simpl. by rewrite He. }
    destruct (st_groups (stream_at key (streams (cs_server x))) !! group) as [gr|] eqn:Hg.
    2:{ apply same_ok; [done|]. unfold stream_of. simpl. by rewrite He. }
    eapply group_ok; [done|unfold stream_of; simpl; rewrite He; apply stream_at_same|].
    apply covered_forget; [apply (ck_covered _ _ Hx)|exact Hg|].
    intros p e m Hp Hs Hd. by eapply may_forget.
  - destruct Hpre as (-> & -> & ->). apply xgroup_law in He.
    destruct (st_groups (stream_at key (streams (cs_server x))) !! group) as [gr|] eqn:Hg.
    { apply same_ok; [done|]. unfold stream_of. simpl. by destruct He as [_ ->]. }
    destruct He as [[He|[_ He]] _].
    + eapply group_ok; [done|unfold stream_of; simpl; rewrite He; apply stream_at_same|].
      apply covered_new_group.
    + apply same_ok; [done|]. unfold stream_of. simpl. by rewrite He.
  - destruct Hpre as (-> & -> & Hn). apply xread_law in He as [[He _]|(gr & Hg & He & _)]; [| |done].
    + apply same_ok; [done|]. unfold stream_of. simpl. by rewrite He.
    + eapply group_ok; [done|unfold stream_of; simpl; rewrite He; apply stream_at_same|].
      apply covered_deliver; [apply (ck_covered _ _ Hx)|exact Hg].
  - destruct Hpre as (-> & ->). apply xautoclaim_law in He as [[_ He]|(gr & pel & Hg & He & _ & Hkeep & _)].
    + apply same_ok; [done|]. unfold stream_of. simpl. by rewrite He.
    + eapply group_ok; [done|unfold stream_of; simpl; rewrite He; apply stream_at_same|].
      eapply covered_group; [apply (ck_covered _ _ Hx)|exact Hg|]. simpl.
      intros p e m Hp Hd [Hin|Hin]; [by right; left|]. do 2 right. left. apply Hkeep; [done|].
      apply list_elem_of_fmap_2. by eapply list_elem_of_lookup_2.
Qed.

(** What a consumer is handed is in the stream. *)
Lemma handed_ok x r t X (e : Cmd X) a s' :
  call_pre r t X e → cmd_run X e (cs_server x) = (a, s') →
  ∀ y, y ∈ ev_entries (Ev e a) → y ∈ st_entries (stream_of (with_server s' x)).
Proof.
  intros Hpre He y Hy. unfold stream_of. simpl.
  destruct e as [|k n f b|k g j|k g start|k g c block n|k g c idle start n]; simpl in He, Hy;
    try by apply not_elem_of_nil in Hy.
  - destruct Hpre as (-> & -> & Hn). destruct a as [ks|]; [|by apply not_elem_of_nil in Hy].
    apply xread_law in He as [[_ He]|(gr & Hg & Hs & He)]; [| |done].
    + destruct (He ks eq_refl) as [-> _]. by apply not_elem_of_nil in Hy.
    + destruct (He ks eq_refl) as (es & -> & _ & Hes). rewrite bind_singleton in Hy. simpl in Hy.
      rewrite Hs, stream_at_same. rewrite Forall_forall in Hes. by apply Hes.
  - destruct Hpre as (-> & ->). destruct a as [es|]; [|by apply not_elem_of_nil in Hy].
    apply xautoclaim_law in He as [[He _]|(gr & pel & _ & Hs & _ & _ & He)]; [done|].
    destruct (He es eq_refl) as [_ Hes]. rewrite Hs, stream_at_same.
    rewrite Forall_forall in Hes. by apply Hes.
Qed.

Lemma added_ok x vs r t ds X (e : Cmd X) a s' j m :
  cluster_ok x vs → (r, t, ds) ∈ vs → call_pre r t X e → cmd_run X e (cs_server x) = (a, s') →
  ev_added (Ev e a) = true → claim_of r = Some (j, m) → readded (stream_of (with_server s' x)) j m.
Proof.
  intros Hx Hv Hpre He Hadd Hcl. destruct e as [|k n f b| | | |]; try done. simpl in He, Hadd.
  destruct Hpre as (-> & -> & -> & [cid Hop] & em & Hem & Hb). rewrite Hcl in Hem. injection Hem as <-.
  destruct (add_ok x vs key MSG_FIELD b a s' Hx He) as [_ Hst].
  destruct (Hst Hadd eq_refl) as [i ->]. unfold claim_of in Hcl. rewrite Hop in Hcl.
  destruct (ck_claims _ _ Hx _ _ _ _ Hv Hcl) as (e & Hin & Hi & (b' & Hb' & Hd)).
  eapply readded_append; [exact Hin|exact Hi|].
  eapply encode_decode; [by eapply decode_readable|exact Hb].
Qed.

(** ** Every step keeps it *)

Lemma env_ok x x' vs : cluster_ok x vs → cluster_env x x' → cluster_ok x' vs.
Proof.
  intros Hx He. destruct He as [x p m o s' Hml Hv Hs|x f b a s' Ha|x s' Hes Hg].
  - unfold producer_send, xadd in Hs. rewrite Hml in Hs.
    destruct (encode_msg m) as [b|er] eqn:Hb.
    + unfold discard in Hs. destruct (x_xadd (rp_key p) None MSG_FIELD b (cs_server x)) as [a s1] eqn:Ha.
      simpl in Hs. injection Hs as <- <-.
      destruct (add_ok x vs _ _ _ _ _ Hx Ha) as [Hok Hst].
      eapply server_ok; [exact Hok|..]; simpl.
      * by apply grows_same.
      * apply (ck_ids _ _ Hok).
      * apply (ck_covered _ _ Hok).
      * done.
      * intros m'. rewrite elem_of_app. intros [Hm|Hm]; [by left|]. right.
        destruct (bool_decide (rp_key p = key)) eqn:Hk; rewrite ?andb_false_r in Hm;
          [|by apply not_elem_of_nil in Hm]. apply bool_decide_eq_true in Hk.
        destruct a as [z|]; [|by apply not_elem_of_nil in Hm].
        apply list_elem_of_singleton in Hm as ->. destruct (Hst eq_refl Hk) as [j Hj].
        change (stream_of (note_accepted _ _)) with (stream_of (with_server s1 x)). rewrite Hj.
        eexists. simpl. split; [apply elem_of_app; right; by apply list_elem_of_singleton|].
        exists b. split; [by apply lookup_singleton_eq|]. by eapply encode_decode.
    + injection Hs as <- <-. eapply server_ok; [exact Hx|..]; simpl.
      * by apply grows_same.
      * apply (ck_ids _ _ Hx).
      * apply (ck_covered _ _ Hx).
      * done.
      * intros m'. rewrite app_nil_r. auto.
  - by destruct (add_ok x vs _ _ _ _ _ Hx Ha).
  - eapply server_ok; [exact Hx|..]; unfold stream_of, ids_unique, covered, later in *; simpl.
    + by apply grows_same.
    + rewrite Hes. apply (ck_ids _ _ Hx).
    + rewrite Hes, Hg. apply (ck_covered _ _ Hx).
    + done.
    + auto.
Qed.

Lemma next_ok x vs i r t ds l r' x' :
  cluster_ok x vs → vs !! i = Some (r, t, ds) → call_post r t l → cluster_next r l x r' x' →
  cluster_ok x' (<[i := (r', [], ds ++ [(r, t, l)])]> vs) ∧ call_ok r'.
Proof.
  intros Hx Hi Hpost Hn. destruct Hn as [r c reply x op]. destruct Hpost as [Hcfg Hpend]. split; [|done].
  apply list_elem_of_lookup_2 in Hi as Hv. set (r' := {| cl_consumer := c; cl_op := op |}).
  assert (∀ u, u ∈ <[i := (r', [], ds ++ [(r, t, (c, reply))])]> vs →
    u ∈ vs ∨ u = (r', [], ds ++ [(r, t, (c, reply))])) as Hcases.
  { intros u [j Hj]%list_elem_of_lookup.
    apply list_lookup_insert_Some in Hj as [(_ & <- & _)|[_ Hj]]; [by right|].
    left. by eapply list_elem_of_lookup_2. }
  destruct Hx as [Hu Hh Hc Ha Hd Hs Hcov]. split; simpl; [done|..|done|].
  - intros u e [Hu'| ->]%Hcases He; [by eapply Hh|by apply not_elem_of_nil in He].
  - intros u cid j m [Hu'| ->]%Hcases Hp; [by eapply Hc|].
    destruct (Hpend cid j m Hp) as [Hp'|(e & He & Hx')]; [by apply (Hc _ _ _ _ Hv Hp')|].
    exists e. split; [by apply (Hh _ _ Hv)|done].
  - intros u m [Hu'| ->]%Hcases Hm; apply elem_of_app; [left; by eapply Ha|by right].
  - intros u j m [Hu'| ->]%Hcases; [by eapply Hd|done].
  - intros gr p e m Hg Hp Hde. destruct (Hcov gr p e m Hg Hp Hde) as [|Hr]; [|by right].
    left. apply elem_of_app. by left.
Qed.

Lemma cluster_keeps :
  Keeps cluster_eff call_code cluster_next cluster_spawn cluster_env
    call_pre (λ _ _ _, True) call_post cluster_ok call_ok.
Proof.
  split.
  - done.
  - intros x vs i r t ds X e a x' Hx Hi _ Hpre (s' & He & ->).
    apply view_ok; [by eapply command_ok|done|by eapply handed_ok|].
    intros j m. eapply added_ok; [done|by eapply list_elem_of_lookup_2|done|done].
  - intros x vs i r t ds l r' x' Hx Hi _. by apply next_ok.
  - intros x vs r x' Hx Hs. destruct Hs as [x uuid block op]. split; [|done].
    assert (∀ u, u ∈ vs ++ [({| cl_consumer := RedisStreamConsumer_new uuid key group "0" block None;
        cl_op := op |}, [], [])] → u ∈ vs ∨ c_pending (cl_consumer u.1.1) = ∅ ∧ u.1.2 = []) as Hcases.
    { intros u [Hu|Hu%list_elem_of_singleton]%elem_of_app; [by left|]. subst. by right. }
    destruct Hx as [Hu Hh Hc Ha Hd Hs Hcov]. split; [done|..|done|done].
    + intros u e [Hu'|[_ He]]%Hcases Hin; [by eapply Hh|]. rewrite He in Hin.
      by apply not_elem_of_nil in Hin.
    + intros u cid i m [Hu'|[He _]]%Hcases Hp; [by eapply Hc|]. by rewrite He in Hp.
    + intros u m [Hu'|[He _]]%Hcases Hm; [by eapply Ha|]. unfold acked_by in Hm.
      rewrite He in Hm. destruct (cl_op u.1.1); try by apply not_elem_of_nil in Hm.
    + intros u i m [Hu'|[_ He]]%Hcases Ht; [by eapply Hd|]. by rewrite He in Ht.
  - intros x vs x' Hx He. by eapply env_ok.
  - intros r Hr. by apply call_follows.
Qed.

Lemma cluster_reaches_ok c : cluster_reaches c → cluster_ok (shared c) (view <$> tasks c).
Proof.
  intros (s & He & Hg & Hr).
  refine (proj1 (invariant_reachable _ _ _ _ _ _ _ _ _ _ _ _ _ cluster_keeps _ Hr)).
  split; [|constructor]. simpl. split; unfold stream_of; simpl.
  - unfold ids_unique. rewrite He. constructor.
  - intros v e Hv. by apply not_elem_of_nil in Hv.
  - intros v cid i m Hv. by apply not_elem_of_nil in Hv.
  - intros v m Hv. by apply not_elem_of_nil in Hv.
  - intros v i m Hv. by apply not_elem_of_nil in Hv.
  - intros m Hm. by apply not_elem_of_nil in Hm.
  - intros gr p e m Hgr. by rewrite Hg in Hgr.
Qed.

(** The last entry of a message. *)
Lemma covered_somewhere st acked gr e m :
  covered st acked → st_groups st !! group = Some gr → e ∈ st_entries st → decodes e m →
  m ∈ acked ∨ ∃ e', e' ∈ st_entries st ∧ decodes e' m ∧
    (sid e' ∈ g_new gr ∨ is_Some (g_pel gr !! sid e')).
Proof.
  intros Hc Hg [p Hp]%list_elem_of_lookup. pose proof (lookup_lt_Some _ _ _ Hp) as Hlt.
  remember (length (st_entries st) - p)%nat as d eqn:Hdist. revert e p Hp Hlt Hdist.
  induction (lt_wf d) as [d _ IH]. intros e p Hp Hlt -> Hd.
  destruct (Hc gr p e m Hg Hp Hd) as [|[Hn|[Hn|(p' & e' & Hp' & He' & Hd')]]]; [by left| | |].
  - right. exists e. split_and!; [by eapply list_elem_of_lookup_2|done|by left].
  - right. exists e. split_and!; [by eapply list_elem_of_lookup_2|done|by right].
  - pose proof (lookup_lt_Some _ _ _ He') as Hlt'. eapply IH; [|exact He'|done|done|done]. lia.
Qed.

End cluster.

(** ** The hypotheses can hold *)

Section run_alone.
Context {Sv : Type} `{StreamsLaws Sv} `{BincodeLaws EMessage}.

(** A call that runs undisturbed. *)
Definition on_cluster (X : Type) (e : Cmd X) (x : Cluster (Sv := Sv)) : X * Cluster :=
  let '(a, s') := cmd_run X e (cs_server x) in (a, with_server s' x).

Lemma on_cluster_allowed {A} (p : prog Cmd A) x : run_allowed cluster_eff on_cluster p x.
Proof.
  revert x. induction p as [a|w|X e k IH]; intros x; [done|done|]. split; [|apply IH].
  unfold cluster_eff, on_cluster. destruct (cmd_run X e (cs_server x)) as [a s'] eqn:He. by exists s'.
Qed.
End run_alone.

Section examples.
Import StreamsRef SerCodec.
Open Scope string_scope.
Open Scope list_scope.

Definition demo_message : EMessage := redis_demo_msg "a" "orders".
Definition demo_key : string := "event_base:orders".

Definition demo_producer : RedisStreamProducer := {| rp_key := demo_key; rp_maxlen := None |}.

Definition demo_sent_cluster : Cluster (Sv := Keyspace) :=
  {| cs_server := (producer_send demo_producer demo_message ∅).2;
     cs_accepted := [demo_message]; cs_acked := [] |}.

Definition demo_call : Calling :=
  {| cl_consumer := RedisStreamConsumer_new "n1" demo_key "event_base" "0" 500 None;
     cl_op := OClaimBatch demo_ids 9 1 |}.

(** A node claimed the message and crashed. *)
Definition demo_code := call_code no_text no_duration.
Definition demo_claimed_cluster : Cluster :=
  run_state on_cluster (demo_code demo_call) demo_sent_cluster.
Definition demo_task : Task :=
  after_run (run_trace on_cluster (demo_code demo_call) demo_sent_cluster)
    (run_outcome on_cluster (demo_code demo_call) demo_sent_cluster)
    (fresh_task demo_code demo_call).
Definition demo_crash : Conf :=
  {| shared := demo_claimed_cluster; tasks := [aborted demo_task] |}.

Lemma demo_crash_reached :
  cluster_reaches no_text no_duration demo_key "event_base" demo_crash.
Proof.
  exists (∅ : Keyspace). split; [done|]. split; [done|].
  assert (cluster_env demo_key "event_base"
    {| cs_server := ∅; cs_accepted := []; cs_acked := [] |} demo_sent_cluster) as Hsend.
  { exact (EnvSend demo_key "event_base" {| cs_server := ∅; cs_accepted := []; cs_acked := [] |}
      demo_producer demo_message (Ok tt) (producer_send demo_producer demo_message ∅).2
      eq_refl (Z.le_refl _) eq_refl). }
  assert (cluster_spawn demo_key "event_base" demo_sent_cluster demo_call demo_sent_cluster) as Hspawn
    by apply SpawnConsumer.
  pose proof (run_reaches cluster_eff demo_code cluster_next
    (cluster_spawn demo_key "event_base") (λ _, True) (cluster_env demo_key "event_base")
    on_cluster 0 (fresh_task demo_code demo_call) demo_sent_cluster
    [fresh_task demo_code demo_call] eq_refl (on_cluster_allowed _ _)) as Hrun.
  eapply rtc_l; [apply StepEnv, Hsend|]. eapply rtc_l; [apply StepSpawn, Hspawn|].
  eapply (transitivity (y := {| shared := demo_claimed_cluster; tasks := [demo_task] |})).
  - exact Hrun.
  - apply rtc_once. exact (StepAbort _ _ _ _ _ _ demo_claimed_cluster [demo_task] 0 demo_task eq_refl I).
Qed.

End examples.
