(* ===== verification/Pipeline.v ===== *)
(** * Middleware: [event_base_core/src/middleware.rs], [event_base_middleware/src/logger.rs]

    [Next::run] walks the middleware vector by index; a middleware gets the
    message and a continuation it may call, once, several times or not at
    all.  The walk is shown to terminate for every vector and to be the right
    fold of the middlewares around the handler. *)
From S2P Require Import Prelude Prog Errors Message.

Section pipeline.
(** The effects of the user's handlers and middlewares. *)
Context {E : Type → Type}.

Definition Continuation : Type := EMessage → prog E (Ack * EMessage).

(** [EHandler]: reads the message. *)
Definition EHandler : Type := EMessage → prog E Ack.

(** [Middleware]: may change the message through [&mut]. *)
Definition Middleware : Type := EMessage → Continuation → prog E (Ack * EMessage).

Record Next : Type := {
  next : list Middleware;
  index : nat;
  handler : EHandler
}.

Definition advance (n : Next) : Next :=
  {| next := next n; index := S (index n); handler := handler n |}.

(** The call of the final handler, which leaves the message as it is. *)
Definition call_handler (h : EHandler) : Continuation :=
  λ m, a <- h m ;; Ret (a, m).

(** [Next::run], with a bound on its depth; the bound is never hit
    from [next_run]. *)
Fixpoint next_run_fuel (fuel : nat) (n : Next) : Continuation :=
  match (next n !! index n : option Middleware) with
  | Some mw =>
      match fuel with
      | S fuel => λ m, mw m (next_run_fuel fuel (advance n))
      | O => λ m, Panic "unreachable"
      end
  | None => call_handler (handler n)
  end.

Definition next_run (n : Next) : Continuation :=
  next_run_fuel (length (next n) - index n) n.

Record Pipeline : Type := {
  middlewares : list Middleware;
  p_handler : EHandler
}.

Definition Pipeline_new (h : EHandler) : Pipeline := {| middlewares := []; p_handler := h |}.

(** [Pipeline::with]: adds at the end of the chain. *)
Definition pipeline_with (mw : Middleware) (p : Pipeline) : Pipeline :=
  {| middlewares := middlewares p ++ [mw]; p_handler := p_handler p |}.

(** [Pipeline::run]. *)
Definition pipeline_run (p : Pipeline) : Continuation :=
  next_run {| next := middlewares p; index := 0; handler := p_handler p |}.

(** [LoggerMiddleware::handle]: the log lines are not observable. *)
Definition logger : Middleware := λ m k, k m.

(** ** The reference: a right fold *)

Definition wrap (mws : list Middleware) (h : EHandler) : Continuation :=
  foldr (λ mw k m, mw m k) (call_handler h) mws.

Lemma next_run_wrap n : next_run n = wrap (drop (index n) (next n)) (handler n).
Proof.
  unfold next_run. destruct n as [mws i h]. simpl.
  remember (length mws - i)%nat as fuel eqn:Hf. revert i Hf.
  induction fuel as [|fuel IH]; intros i Hf; simpl.
  - assert (length mws <= i)%nat as Hi by lia.
    rewrite (drop_ge mws i Hi). destruct (mws !! i) eqn:Hl; [|done].
    apply lookup_lt_Some in Hl. by destruct (proj1 (Nat.lt_nge _ _) Hl Hi).
  - destruct (lookup_lt_is_Some_2 mws i) as [mw Hmw]; [lia|].
    rewrite Hmw, (drop_S _ mw i) by done. simpl.
    unfold advance. simpl. rewrite IH by lia. done.
Qed.

Lemma pipeline_run_is_wrap p : pipeline_run p = wrap (middlewares p) (p_handler p).
Proof. unfold pipeline_run. by rewrite next_run_wrap. Qed.

(** Running a pipeline terminates for every number of middlewares and is
    the right fold of the chain around the handler: the middlewares are
    entered in the order they were added, each deciding whether and when the
    rest runs, and the handler is innermost. *)
Theorem pipeline_run_is_fold p : pipeline_run p = wrap (middlewares p) (p_handler p).
Proof. apply pipeline_run_is_wrap. Qed.

Lemma wrap_app pre post h : wrap (pre ++ post) h = foldr (λ mw k m, mw m k) (wrap post h) pre.
Proof. unfold wrap. by rewrite foldr_app. Qed.

(** A middleware that answers without calling its continuation cuts the
    chain: what was added after it, and the handler, have no influence on
    the answer, on the message or on the effects performed. *)
Theorem pipeline_short_circuit pre (stop : Continuation) post h h' :
  pipeline_run {| middlewares := pre ++ (λ m _, stop m) :: post; p_handler := h |} =
  pipeline_run {| middlewares := pre ++ [λ m _, stop m]; p_handler := h' |}.
Proof. rewrite !pipeline_run_is_wrap. simpl. by rewrite !wrap_app. Qed.

(** The logger is transparent wherever it is inserted. *)
Lemma pipeline_logger_transparent pre post h :
  pipeline_run {| middlewares := pre ++ logger :: post; p_handler := h |} =
  pipeline_run {| middlewares := pre ++ post; p_handler := h |}.
Proof. rewrite !pipeline_run_is_wrap. simpl. by rewrite !wrap_app. Qed.
End pipeline.
