(* ===== verification/Router.v ===== *)
(** * Consumer router, tables: [event_base_core/src/queues/consumer_router.rs]

    The tables a [ConsumerRouter] keeps (topics, workers, idle pool,
    dispatcher sets, inboxes) and the operations that change them.  Every
    table is behind its own lock; an operation is given as a function on the
    tables for the guards it holds together. *)
From S2P Require Import Prelude Prog Errors Message Runtime Worker.

(** A [JoinHandle], an [Arc<dyn EHandler>], an [Arc<Pipeline>]: what the
    tables store of them is their identity. *)
Definition JoinHandle : Type := positive.
Definition HandlerRef : Type := positive.
Definition PipelineRef : Type := positive.

Record TopicEntry : Type := {
  te_producer : Producer;
  te_handler : HandlerRef;
  te_pipeline : option PipelineRef;
  te_workers : list string
}.

Record ConsumerRouter : Type := {
  local_topics : gmap string TopicEntry;
  worker_index : gmap string (Worker * JoinHandle);
  idle_workers : gmap string (list string);
  dispatch_workers : gmap string (list string);
  dispatch_enabled : gmap string bool;
  local_inboxes : gmap string Inbox;
  dispatch_generation : Z;
  batch_size : nat
}.

Definition DEFAULT_BATCH_SIZE : nat := 64.

(** [ConsumerRouter::init]. *)
Definition router_init (bs : option nat) : ConsumerRouter :=
  {| local_topics := ∅; worker_index := ∅; idle_workers := ∅; dispatch_workers := ∅;
     dispatch_enabled := ∅; local_inboxes := ∅; dispatch_generation := 0;
     batch_size := default DEFAULT_BATCH_SIZE bs |}.

(** Assignments to single tables. *)
Definition set_topics v (c : ConsumerRouter) : ConsumerRouter :=
  {| local_topics := v; worker_index := worker_index c; idle_workers := idle_workers c;
     dispatch_workers := dispatch_workers c; dispatch_enabled := dispatch_enabled c;
     local_inboxes := local_inboxes c; dispatch_generation := dispatch_generation c;
     batch_size := batch_size c |}.
Definition set_index v (c : ConsumerRouter) : ConsumerRouter :=
  {| local_topics := local_topics c; worker_index := v; idle_workers := idle_workers c;
     dispatch_workers := dispatch_workers c; dispatch_enabled := dispatch_enabled c;
     local_inboxes := local_inboxes c; dispatch_generation := dispatch_generation c;
     batch_size := batch_size c |}.
Definition set_idle_table v (c : ConsumerRouter) : ConsumerRouter :=
  {| local_topics := local_topics c; worker_index := worker_index c; idle_workers := v;
     dispatch_workers := dispatch_workers c; dispatch_enabled := dispatch_enabled c;
     local_inboxes := local_inboxes c; dispatch_generation := dispatch_generation c;
     batch_size := batch_size c |}.
Definition set_dispatch v g (c : ConsumerRouter) : ConsumerRouter :=
  {| local_topics := local_topics c; worker_index := worker_index c;
     idle_workers := idle_workers c; dispatch_workers := v;
     dispatch_enabled := dispatch_enabled c; local_inboxes := local_inboxes c;
     dispatch_generation := g; batch_size := batch_size c |}.
Definition set_enabled v (c : ConsumerRouter) : ConsumerRouter :=
  {| local_topics := local_topics c; worker_index := worker_index c;
     idle_workers := idle_workers c; dispatch_workers := dispatch_workers c;
     dispatch_enabled := v; local_inboxes := local_inboxes c;
     dispatch_generation := dispatch_generation c; batch_size := batch_size c |}.
Definition set_inboxes v (c : ConsumerRouter) : ConsumerRouter :=
  {| local_topics := local_topics c; worker_index := worker_index c;
     idle_workers := idle_workers c; dispatch_workers := dispatch_workers c;
     dispatch_enabled := dispatch_enabled c; local_inboxes := v;
     dispatch_generation := dispatch_generation c; batch_size := batch_size c |}.

Definition map_workers (f : list string → list string) (e : TopicEntry) : TopicEntry :=
  {| te_producer := te_producer e; te_handler := te_handler e; te_pipeline := te_pipeline e;
     te_workers := f (te_workers e) |}.

(** [vec.retain(|id| id != name)]. *)
Definition retain_not (name : string) (l : list string) : list string :=
  filter (λ x, x ≠ name) l.

(** ** Operations *)

(** [register]: [created] is what [factory.create_queue] returned. *)
Definition router_register (tpc : string) (h : HandlerRef) (created : Res Producer)
    (c : ConsumerRouter) : Res unit * ConsumerRouter :=
  match local_topics c !! tpc with
  | Some _ => (Err (ETopic (TopicAlreadyExists tpc)), c)
  | None =>
      match created with
      | Err e => (Err e, c)
      | Ok p =>
          (Ok tt, set_topics (<[tpc := {| te_producer := p; te_handler := h; te_pipeline := None;
                                          te_workers := [] |}]> (local_topics c)) c)
      end
  end.

Definition set_pipeline (tpc : string) (p : PipelineRef) (c : ConsumerRouter)
    : Res unit * ConsumerRouter :=
  match local_topics c !! tpc with
  | None => (Err (ETopic (TopicNotFound tpc)), c)
  | Some e =>
      (Ok tt, set_topics (<[tpc := {| te_producer := te_producer e; te_handler := te_handler e;
                                      te_pipeline := Some p; te_workers := te_workers e |}]>
                            (local_topics c)) c)
  end.

(** [Vec::pop]. *)
Definition vec_pop (l : list string) : option (string * list string) :=
  match reverse l with x :: r => Some (x, reverse r) | [] => None end.

Definition select_local_idle_worker (tpc : string) (c : ConsumerRouter)
    : option Worker * ConsumerRouter :=
  match idle_workers c !! tpc with
  | None => (None, c)
  | Some l =>
      match vec_pop l with
      | None => (None, c)
      | Some (name, l') =>
          ((worker_index c !! name) ≫= (λ wh, Some wh.1),
           set_idle_table (<[tpc := l']> (idle_workers c)) c)
      end
  end.

Definition get_handler (tpc : string) (c : ConsumerRouter) : option HandlerRef :=
  te_handler <$> local_topics c !! tpc.

(** [entry(topic).or_default().push(name)]. *)
Definition push_name (tpc name : string) (m : gmap string (list string))
    : gmap string (list string) :=
  <[tpc := default [] (m !! tpc) ++ [name]]> m.

Definition register_worker (tpc : string) (w : Worker) (h : JoinHandle) (c : ConsumerRouter)
    : Res unit * ConsumerRouter :=
  let c1 := set_index (<[w_name w := (w, h)]> (worker_index c)) c in
  match local_topics c !! tpc with
  | Some e =>
      let c2 := set_topics (<[tpc := map_workers (λ l, l ++ [w_name w]) e]> (local_topics c1)) c1 in
      (Ok tt, set_dispatch (push_name tpc (w_name w) (dispatch_workers c2))
                (u64_incr (dispatch_generation c2)) c2)
  | None => (Err (ETopic (TopicNotFound tpc)), c1)
  end.

(** [create_worker], on the tables, for the worker [w] that [Worker::new]
    built and the inbox made for it; also says whether the topic's
    dispatcher has to be started. *)
Definition create_worker (tpc : string) (w : Worker) (inbox : Inbox) (h : JoinHandle)
    (c : ConsumerRouter) : Res string * bool * ConsumerRouter :=
  match local_topics c !! tpc with
  | None => (Err (ETopic (TopicNotFound tpc)), false, c)
  | Some _ =>
      let c1 := set_inboxes (<[w_name w := inbox]> (local_inboxes c)) c in
      let should_start :=
        match dispatch_enabled c1 !! tpc with Some true => false | _ => true end in
      let c2 := if should_start then set_enabled (<[tpc := true]> (dispatch_enabled c1)) c1
                else c1 in
      match register_worker tpc w h c2 with
      | (Ok _, c3) => (Ok (w_name w), should_start, c3)
      | (Err e, c3) => (Err e, should_start, c3)
      end
  end.

Definition get_worker (name : string) (c : ConsumerRouter) : Res Worker :=
  match worker_index c !! name with
  | Some (w, _) => Ok w
  | None => Err (EWorkerNotFound name)
  end.

Definition get_workers (tpc : string) (c : ConsumerRouter) : list Worker :=
  match local_topics c !! tpc with
  | Some e => omap (λ n, fst <$> worker_index c !! n) (te_workers e)
  | None => []
  end.

Definition get_all_workers `{HashOrder} (c : ConsumerRouter) : list Worker :=
  (hash_values (worker_index c)).*1.

(** [del_worker]; also returns the tasks it aborts. *)
Definition del_worker (name : string) (c : ConsumerRouter)
    : Res unit * list JoinHandle * ConsumerRouter :=
  match worker_index c !! name with
  | Some (_, h) =>
      let c1 := set_index (delete name (worker_index c)) c in
      let c2 := set_inboxes (delete name (local_inboxes c1)) c1 in
      let c3 := set_topics (map_workers (retain_not name) <$> local_topics c2) c2 in
      (Ok tt, [h], set_dispatch (retain_not name <$> dispatch_workers c3)
                     (u64_incr (dispatch_generation c3)) c3)
  | None => (Err (EWorkerNotFound name), [], c)
  end.

(** The loop of [del_workers] over the names of the topic. *)
Definition drop_worker (name : string) (hc : list JoinHandle * ConsumerRouter)
    : list JoinHandle * ConsumerRouter :=
  let '(hs, c) := hc in
  match worker_index c !! name with
  | Some (_, h) =>
      (hs ++ [h], set_inboxes (delete name (local_inboxes c))
                    (set_index (delete name (worker_index c)) c))
  | None => (hs, c)
  end.

Definition del_workers (tpc : string) (c : ConsumerRouter)
    : Res unit * list JoinHandle * ConsumerRouter :=
  let '(hs, c1) :=
    match local_topics c !! tpc with
    | Some e => foldl (flip drop_worker) ([], c) (te_workers e)
    | None => ([], c)
    end in
  let c2 := set_topics (delete tpc (local_topics c1)) c1 in
  let c3 := set_enabled (delete tpc (dispatch_enabled c2)) c2 in
  (Ok tt, hs, set_dispatch (delete tpc (dispatch_workers c3))
                (u64_incr (dispatch_generation c3)) c3).

Definition set_idle (tpc name : string) (c : ConsumerRouter) : Res unit * ConsumerRouter :=
  (Ok tt, set_idle_table (push_name tpc name (idle_workers c)) c).

Definition set_working (tpc name : string) (c : ConsumerRouter) : Res unit * ConsumerRouter :=
  (Ok tt, match idle_workers c !! tpc with
          | Some l => set_idle_table (<[tpc := retain_not name l]> (idle_workers c)) c
          | None => c
          end).
