(* ===== verification/RouterTheorems.v ===== *)
(** * Consistency of the consumer router's tables

    The tables are redundant (a worker is in the index, in its topic's list,
    in the dispatcher set and in the inbox table).  [router_inv] says how they
    agree; every operation preserves it, so that what a dispatcher sees is
    what is registered. *)
From S2P Require Import Prelude Prog Errors Message Runtime Worker Router World.

(** The agreement of the tables, up to the workers in [L], which are in the
    index although no topic lists them, and the names in [F], which have an
    inbox but are not in the index. *)
Record tables_agree (L F : string → Prop) (c : ConsumerRouter) : Prop := {
  inv_nodup : ∀ t e, local_topics c !! t = Some e → NoDup (te_workers e);
  inv_entry : ∀ t e n, local_topics c !! t = Some e → n ∈ te_workers e →
    ∃ w h, worker_index c !! n = Some (w, h) ∧ w_topic w = t;
  inv_index : ∀ n w h, worker_index c !! n = Some (w, h) →
    w_name w = n ∧ (L n ∨ ∃ e, local_topics c !! w_topic w = Some e ∧ n ∈ te_workers e);
  inv_inbox : ∀ n, is_Some (local_inboxes c !! n) ↔ is_Some (worker_index c !! n) ∨ F n;
  inv_flight : ∀ n, F n → worker_index c !! n = None;
  inv_dispatch : ∀ t, default [] (dispatch_workers c !! t) =
    from_option te_workers [] (local_topics c !! t)
}.

Definition nowhere (n : string) : Prop := False.
Definition router_inv : ConsumerRouter → Prop := tables_agree nowhere nowhere.

Inductive RouterOp : Type :=
| RRegister (tpc : string) (h : HandlerRef) (created : Res Producer)
| RSetPipeline (tpc : string) (p : PipelineRef)
| RSelectIdle (tpc : string)
| RCreateWorker (tpc : string) (w : Worker) (inbox : Inbox) (h : JoinHandle)
| RDelWorker (name : string)
| RDelWorkers (tpc : string)
| RSetIdle (tpc name : string)
| RSetWorking (tpc name : string).

Definition router_step (op : RouterOp) (c : ConsumerRouter) : ConsumerRouter :=
  match op with
  | RRegister t h p => (router_register t h p c).2
  | RSetPipeline t p => (set_pipeline t p c).2
  | RSelectIdle t => (select_local_idle_worker t c).2
  | RCreateWorker t w i h => (create_worker t w i h c).2
  | RDelWorker n => (del_worker n c).2
  | RDelWorkers t => (del_workers t c).2
  | RSetIdle t n => (set_idle t n c).2
  | RSetWorking t n => (set_working t n c).2
  end.

(** [create_worker] builds the worker for the topic it was called with and
    draws a fresh name. *)
Definition op_ok (op : RouterOp) (c : ConsumerRouter) : Prop :=
  match op with
  | RCreateWorker t w _ _ => w_topic w = t ∧ worker_index c !! w_name w = None
  | _ => True
  end.

Inductive router_reach (bs : option nat) : ConsumerRouter → Prop :=
| reach_init : router_reach bs (router_init bs)
| reach_step op c : router_reach bs c → op_ok op c → router_reach bs (router_step op c).

(** ** Preservation *)

Section agree.
Context (L F : string → Prop).

(** The invariant only looks at these four tables. *)
Lemma inv_tables c c' :
  local_topics c' = local_topics c → worker_index c' = worker_index c →
  local_inboxes c' = local_inboxes c → dispatch_workers c' = dispatch_workers c →
  tables_agree L F c → tables_agree L F c'.
Proof.
  intros Ht Hi Hb Hd [H1 H2 H3 H4 H5 H6]. split; rewrite ?Ht, ?Hi, ?Hb, ?Hd; auto.
Qed.

(** Replacing the entry of a topic by one with the same workers. *)
Lemma inv_entry_update c t e :
  te_workers e = from_option te_workers [] (local_topics c !! t) →
  tables_agree L F c → tables_agree L F (set_topics (<[t := e]> (local_topics c)) c).
Proof.
  intros He [H1 H2 H3 H4 H5 H6]. split; simpl; try done.
  - intros t' e'. destruct (decide (t' = t)) as [->|?]; [|rewrite lookup_insert_ne by done; eauto].
    rewrite lookup_insert_eq. intros [= <-]. rewrite He.
    destruct (local_topics c !! t) eqn:E; simpl; [eauto|constructor].
  - intros t' e' n. destruct (decide (t' = t)) as [->|?]; [|rewrite lookup_insert_ne by done; eauto].
    rewrite lookup_insert_eq. intros [= <-]. rewrite He.
    destruct (local_topics c !! t) eqn:E; simpl; [eauto|by intros ?%elem_of_nil].
  - intros n w h Hw. destruct (H3 _ _ _ Hw) as (Hn & [Hl|(e' & He' & Hin)]); [by auto|].
    split; [done|]. right.
    destruct (decide (w_topic w = t)) as [<-|?]; [|rewrite lookup_insert_ne by done; eauto].
    exists e. rewrite lookup_insert_eq, He, He'. done.
  - intros t'. rewrite H6. destruct (decide (t' = t)) as [->|?];
      [by rewrite lookup_insert_eq|by rewrite lookup_insert_ne].
Qed.

Lemma inv_register t h p c : tables_agree L F c → tables_agree L F (router_register t h p c).2.
Proof.
  intros Hc. unfold router_register. destruct (local_topics c !! t) eqn:E; [done|].
  destruct p; [|done]. apply inv_entry_update; [by rewrite E|done].
Qed.

Lemma inv_set_pipeline t p c : tables_agree L F c → tables_agree L F (set_pipeline t p c).2.
Proof.
  intros Hc. unfold set_pipeline. destruct (local_topics c !! t) eqn:E; [|done].
  apply inv_entry_update; [by rewrite E|done].
Qed.

Lemma inv_idle_ops c c' :
  (∃ v, c' = set_idle_table v c) → tables_agree L F c → tables_agree L F c'.
Proof. intros [v ->]. by apply inv_tables. Qed.

Lemma inv_select t c : tables_agree L F c → tables_agree L F (select_local_idle_worker t c).2.
Proof.
  intros Hc. unfold select_local_idle_worker. destruct (idle_workers c !! t); [|done].
  destruct (vec_pop l) as [[n l']|]; [|done]. eapply inv_idle_ops; [|done]. by eexists.
Qed.

Lemma inv_set_working t n c : tables_agree L F c → tables_agree L F (set_working t n c).2.
Proof.
  intros Hc. unfold set_working. simpl. destruct (idle_workers c !! t); [|done].
  eapply inv_idle_ops; [|done]. by eexists.
Qed.
End agree.

(** *** A new worker *)

(** Its inbox comes first: the name is then in flight. *)
Lemma inv_new_inbox (L F F' : string → Prop) name i c :
  tables_agree L F c → worker_index c !! name = None → (∀ n, F' n ↔ F n ∨ n = name) →
  tables_agree L F' (set_inboxes (<[name := i]> (local_inboxes c)) c).
Proof.
  intros [H1 H2 H3 H4 H5 H6] Hn HF. split; simpl; try done.
  - intros n. rewrite HF. destruct (decide (n = name)) as [->|Hne].
    + rewrite lookup_insert_eq. naive_solver.
    + rewrite lookup_insert_ne by done. rewrite H4. naive_solver.
  - intros n [Hf| ->]%HF; auto.
Qed.

(** Then [register_worker] enters it into the three other tables. *)
Lemma inv_registered (L F F' : string → Prop) t w h e c :
  tables_agree L F c → w_topic w = t → F (w_name w) → local_topics c !! t = Some e →
  (∀ n, F' n ↔ F n ∧ n ≠ w_name w) → tables_agree L F' (register_worker t w h c).2.
Proof.
  intros [H1 H2 H3 H4 H5 H6] Ht Hfl He HF. pose proof (H5 _ Hfl) as Hfresh.
  unfold register_worker. rewrite He. simpl.
  assert (∀ t' e', local_topics c !! t' = Some e' → w_name w ∉ te_workers e') as Hnew.
  { intros t' e' He' Hin. destruct (H2 _ _ _ He' Hin) as (w' & h' & ? & _). congruence. }
  split; simpl.
  - intros t' e' [[<- <-]|[? ?]]%lookup_insert_Some; [|eauto]. simpl.
    apply NoDup_app. split_and!; [eauto| |apply NoDup_singleton].
    intros x Hx ->%list_elem_of_singleton. by eapply Hnew.
  - intros t' e' n [[<- <-]|[? He']]%lookup_insert_Some; simpl.
    + rewrite elem_of_app, list_elem_of_singleton. intros [Hin| ->].
      * destruct (H2 _ _ _ He Hin) as (w' & h' & Hw' & ?). exists w', h'.
        rewrite lookup_insert_ne by (intros <-; congruence). done.
      * exists w, h. by rewrite lookup_insert_eq.
    + intros Hin. destruct (H2 _ _ _ He' Hin) as (w' & h' & Hw' & ?). exists w', h'.
      rewrite lookup_insert_ne by (intros <-; congruence). done.
  - intros n w' h' [[<- [= <- <-]]|[? Hw']]%lookup_insert_Some.
    + split; [done|]. right. rewrite Ht, lookup_insert_eq. eexists. split; [done|]. simpl.
      apply elem_of_app. right. by apply list_elem_of_singleton.
    + destruct (H3 _ _ _ Hw') as (Hn & [Hl|(e' & He' & Hin)]); [by auto|]. split; [done|]. right.
      destruct (decide (w_topic w' = t)) as [Heq|?]; [|rewrite lookup_insert_ne by done; eauto].
      rewrite Heq, lookup_insert_eq. eexists. split; [done|]. simpl.
      apply elem_of_app. left. congruence.
  - intros n. rewrite HF, H4. destruct (decide (n = w_name w)) as [->|?].
    + rewrite lookup_insert_eq. naive_solver.
    + rewrite lookup_insert_ne by done. naive_solver.
  - intros n [Hf Hne]%HF. rewrite lookup_insert_ne by done. auto.
  - intros t'. unfold push_name. destruct (decide (t' = t)) as [->|?].
    + rewrite !lookup_insert_eq. simpl. by rewrite H6, He.
    + rewrite !lookup_insert_ne by done. apply H6.
Qed.

(** Without the topic it is left in the index. *)
Lemma inv_leaked (L F L' F' : string → Prop) t w h c :
  tables_agree L F c → F (w_name w) → local_topics c !! t = None →
  (∀ n, L' n ↔ L n ∨ n = w_name w) → (∀ n, F' n ↔ F n ∧ n ≠ w_name w) →
  tables_agree L' F' (register_worker t w h c).2.
Proof.
  intros [H1 H2 H3 H4 H5 H6] Hfl He HL HF. pose proof (H5 _ Hfl) as Hfresh.
  unfold register_worker. rewrite He. simpl. split; simpl; try done.
  - intros t' e n He' Hin. destruct (H2 _ _ _ He' Hin) as (w' & h' & Hw' & ?). exists w', h'.
    rewrite lookup_insert_ne by (intros <-; congruence). done.
  - intros n w' h' [[<- [= <- <-]]|[? Hw']]%lookup_insert_Some.
    + split; [done|]. left. apply HL. by right.
    + destruct (H3 _ _ _ Hw') as (Hn & [Hl|?]); split; auto. left. apply HL. by left.
  - intros n. rewrite HF, H4. destruct (decide (n = w_name w)) as [->|?].
    + rewrite lookup_insert_eq. naive_solver.
    + rewrite lookup_insert_ne by done. naive_solver.
  - intros n [Hf Hne]%HF. rewrite lookup_insert_ne by done. auto.
Qed.

Lemma inv_create t w i h c :
  router_inv c → w_topic w = t → worker_index c !! w_name w = None →
  router_inv (create_worker t w i h c).2.
Proof.
  intros Hc Ht Hfresh. unfold create_worker.
  destruct (local_topics c !! t) as [e|] eqn:He; [|done].
  set (c1 := set_inboxes _ c).
  assert (tables_agree nowhere (λ n, n = w_name w) c1) as Hc1.
  { eapply inv_new_inbox; [exact Hc|done|]. intros n. unfold nowhere. simpl. tauto. }
  destruct (match dispatch_enabled c1 !! t with Some true => false | _ => true end).
  - pose proof (inv_registered nowhere (λ n, n = w_name w) nowhere t w h e
      (set_enabled (<[t := true]> (dispatch_enabled c1)) c1)) as Hr.
    destruct (register_worker _ _ _ _) as [[]]; apply Hr; try done;
      (by eapply inv_tables; [..|exact Hc1]) || (intros n; unfold nowhere; simpl; tauto).
  - pose proof (inv_registered nowhere (λ n, n = w_name w) nowhere t w h e c1) as Hr.
    destruct (register_worker _ _ _ _) as [[]]; apply Hr; try done; intros n; unfold nowhere; simpl; tauto.
Qed.

(** *** Removing workers *)

(** Removing a set of names from every table. *)
Lemma retain_not_elem n x l : x ∈ retain_not n l ↔ x ≠ n ∧ x ∈ l.
Proof. unfold retain_not. by rewrite list_elem_of_filter. Qed.

Lemma retain_not_id n l : n ∉ l → retain_not n l = l.
Proof. intros Hn. apply filter_all. by intros x Hx ->. Qed.

Section removal.
Context (L F : string → Prop).

Lemma inv_del_worker n c : tables_agree L F c → tables_agree L F (del_worker n c).2.
Proof.
  intros [H1 H2 H3 H4 H5 H6]. unfold del_worker.
  destruct (worker_index c !! n) as [[w h]|] eqn:Hn; [|by split]. split; simpl.
  - intros t e'. rewrite lookup_fmap. intros (e & He & ->)%fmap_Some. simpl.
    apply NoDup_filter. eauto.
  - intros t e' x. rewrite lookup_fmap. intros (e & He & ->)%fmap_Some. simpl.
    rewrite retain_not_elem. intros [Hne Hin]. rewrite lookup_delete_ne by done. eauto.
  - intros x w' h' [Hne Hw']%lookup_delete_Some.
    destruct (H3 _ _ _ Hw') as (Hnm & [Hl|(e & He & Hin)]); [by auto|]. split; [done|]. right.
    rewrite lookup_fmap, He. eexists. split; [done|]. simpl. by rewrite retain_not_elem.
  - intros x. destruct (decide (x = n)) as [->|?].
    + rewrite !lookup_delete_eq. split; [by intros []|]. intros [[]|Hf]; [done|].
      apply H5 in Hf. congruence.
    + rewrite !lookup_delete_ne by done. apply H4.
  - intros x Hf. apply lookup_delete_None. right. auto.
  - intros t. rewrite !lookup_fmap. specialize (H6 t).
    destruct (dispatch_workers c !! t), (local_topics c !! t); simpl in *; subst; try done.
    by rewrite <- H6.
Qed.

(** [del_workers]: the loop over the topic's names. *)
Lemma drop_workers_spec (l : list string) hs c :
  let c' := (foldl (flip drop_worker) (hs, c) l).2 in
  local_topics c' = local_topics c ∧ dispatch_workers c' = dispatch_workers c ∧
  (∀ n, worker_index c' !! n = if decide (n ∈ l) then None else worker_index c !! n) ∧
  ((∀ n, is_Some (local_inboxes c !! n) ↔ is_Some (worker_index c !! n) ∨ F n) →
   (∀ n, F n → worker_index c !! n = None) →
   ∀ n, is_Some (local_inboxes c' !! n) ↔ is_Some (worker_index c' !! n) ∨ F n).
Proof.
  revert hs c. induction l as [|x l IH]; intros hs c; cbn [foldl].
  { split_and!; done. }
  destruct (worker_index c !! x) as [[w h]|] eqn:Hx.
  - assert (flip drop_worker (hs, c) x =
      (hs ++ [h], set_inboxes (delete x (local_inboxes c))
         (set_index (delete x (worker_index c)) c))) as -> by (simpl; by rewrite Hx).
    destruct (IH (hs ++ [h]) (set_inboxes (delete x (local_inboxes c))
         (set_index (delete x (worker_index c)) c))) as (Ht & Hd & Hi & Hb).
    split_and!; [done|done| |].
    + intros n. rewrite Hi. simpl. destruct (decide (n = x)) as [->|Hne].
      * rewrite lookup_delete_eq. repeat case_decide; set_solver.
      * rewrite lookup_delete_ne by done. repeat case_decide; set_solver.
    + intros Hio Hfl. apply Hb; simpl; intros n.
      * destruct (decide (n = x)) as [->|Hne].
        -- rewrite !lookup_delete_eq. split; [by intros []|]. intros [[]|Hf]; [done|].
           apply Hfl in Hf. congruence.
        -- rewrite !lookup_delete_ne by done. apply Hio.
      * intros Hf. apply lookup_delete_None. right. auto.
  - assert (flip drop_worker (hs, c) x = (hs, c)) as -> by (simpl; by rewrite Hx).
    destruct (IH hs c) as (Ht & Hd & Hi & Hb). split_and!; [done..| |done].
    intros n. rewrite Hi. repeat case_decide; try done; set_solver.
Qed.

Lemma inv_del_workers t c : tables_agree L F c → tables_agree L F (del_workers t c).2.
Proof.
  intros [H1 H2 H3 H4 H5 H6]. unfold del_workers.
  set (l := from_option te_workers [] (local_topics c !! t)).
  assert ((match local_topics c !! t with
           | Some e => foldl (flip drop_worker) ([], c) (te_workers e)
           | None => ([], c) end) = foldl (flip drop_worker) ([], c) l) as ->
    by (unfold l; by destruct (local_topics c !! t)).
  destruct (drop_workers_spec l [] c) as (Ht & Hd & Hi & Hb).
  destruct (foldl _ _ l) as [hs c1]. simpl in *. specialize (Hb H4 H5).
  assert (∀ n w h, worker_index c1 !! n = Some (w, h) →
    worker_index c !! n = Some (w, h) ∧ n ∉ l) as Hleft.
  { intros n w h. rewrite Hi. by case_decide. }
  split; simpl; rewrite ?Ht, ?Hd.
  - intros t' e [_ ?]%lookup_delete_Some. eauto.
  - intros t' e n [Hne He]%lookup_delete_Some Hin.
    destruct (H2 _ _ _ He Hin) as (w & h & Hw & Hwt). exists w, h. split; [|done].
    rewrite Hi, decide_False; [done|]. unfold l. intros Hl.
    destruct (local_topics c !! t) as [e'|] eqn:He'; [|by apply not_elem_of_nil in Hl].
    destruct (H2 _ _ _ He' Hl) as (w' & h' & Hw' & ?). congruence.
  - intros n w h Hw. apply Hleft in Hw as [Hw Hn].
    destruct (H3 _ _ _ Hw) as (Hnm & [Hl|(e & He & Hin)]); [by auto|]. split; [done|]. right.
    exists e. rewrite lookup_delete_ne; [done|]. intros Heq. apply Hn. unfold l. by rewrite Heq, He.
  - done.
  - intros n Hf. rewrite Hi. case_decide; auto.
  - intros t'. destruct (decide (t' = t)) as [->|?].
    + by rewrite !lookup_delete_eq.
    + rewrite !lookup_delete_ne by done. apply H6.
Qed.
End removal.

Lemma inv_init bs : router_inv (router_init bs).
Proof.
  split; simpl; intros *; rewrite ?lookup_empty; try done. unfold nowhere.
  split; [by intros []|]. by intros [[]|].
Qed.

Lemma inv_step op c : router_inv c → op_ok op c → router_inv (router_step op c).
Proof.
  intros Hc Hok. destruct op; simpl.
  - by apply inv_register.
  - by apply inv_set_pipeline.
  - by apply inv_select.
  - destruct Hok. by apply inv_create.
  - by apply inv_del_worker.
  - by apply inv_del_workers.
  - by apply (inv_tables _ _ c).
  - by apply inv_set_working.
Qed.

Lemma reach_inv bs c : router_reach bs c → router_inv c.
Proof. induction 1; [apply inv_init|by apply inv_step]. Qed.

(** ** Claims *)

(** Whatever topics and workers are registered, created, deleted or
    change state, the tables of the router agree: a worker is in the list of
    its topic exactly once and in no other list, exactly if it is in the
    index; it has an inbox exactly then; and the dispatcher set of a topic is
    the topic's list of workers, in the same order. *)
Theorem router_tables_consistent bs c : router_reach bs c → router_inv c.
Proof. apply reach_inv. Qed.

(** [get_workers] is exact: it returns each live worker of the topic once
    and nothing else. *)
Theorem get_workers_complete bs c t w :
  router_reach bs c →
  (w ∈ get_workers t c ↔ w_topic w = t ∧ ∃ h, worker_index c !! w_name w = Some (w, h)) ∧
  NoDup (w_name <$> get_workers t c).
Proof.
  intros [H1 H2 H3 H4 H5 H6]%reach_inv. unfold get_workers.
  destruct (local_topics c !! t) as [e|] eqn:He.
  2:{ split; [|constructor]. split; [by intros ?%not_elem_of_nil|].
      intros [Ht [h Hw]]. destruct (H3 _ _ _ Hw) as (_ & [[]|(e & ? & _)]). congruence. }
  split.
  - rewrite list_elem_of_omap. split.
    + intros (n & Hn & ((w' & h) & Hw & [= ->])%fmap_Some). simpl in *.
      destruct (H3 _ _ _ Hw) as (<- & _). destruct (H2 _ _ _ He Hn) as (w2 & h2 & Hw2 & <-).
      split; [congruence|eauto].
    + intros [Ht [h Hw]]. exists (w_name w). destruct (H3 _ _ _ Hw) as (_ & [[]|(e' & He' & Hin)]).
      rewrite Hw. split; [congruence|done].
  - assert (w_name <$> omap (λ n, fst <$> worker_index c !! n) (te_workers e) = te_workers e)
      as ->; [|eauto].
    assert (∀ n, n ∈ te_workers e → ∃ w h, worker_index c !! n = Some (w, h) ∧ w_name w = n) as Hall.
    { intros n Hn. destruct (H2 _ _ _ He Hn) as (w' & h & Hw & _). exists w', h.
      split; [done|]. by apply H3 in Hw as [? _]. }
    clear -Hall. induction (te_workers e) as [|n l IH]; [done|]. csimpl.
    destruct (Hall n) as (w' & h & Hw & <-); [by left|]. rewrite Hw. csimpl.
    f_equal. apply IH. intros x Hx. apply Hall. by right.
Qed.

(** After [del_worker] returned [Ok] no table but the idle pool mentions
    the worker, its task is the one aborted, and the dispatchers are made to
    refresh; a name that is left in the idle pool selects no worker. *)
Theorem del_worker_forgets bs c name hs c' :
  router_reach bs c → 0 ≤ dispatch_generation c → dispatch_generation c + 1 < u64_modulus →
  del_worker name c = (Ok tt, hs, c') →
  (∃ w h, worker_index c !! name = Some (w, h) ∧ hs = [h]) ∧
  worker_index c' !! name = None ∧ local_inboxes c' !! name = None ∧
  (∀ t, name ∉ from_option te_workers [] (local_topics c' !! t)) ∧
  (∀ t, name ∉ default [] (dispatch_workers c' !! t)) ∧
  dispatch_generation c' ≠ dispatch_generation c ∧
  (∀ t l, idle_workers c' !! t = Some (l ++ [name]) → (select_local_idle_worker t c').1 = None).
Proof.
  intros Hr Hg0 Hg1 Hd.
  assert (router_inv c') as Hc'.
  { replace c' with (del_worker name c).2 by (by rewrite Hd). by eapply inv_del_worker, reach_inv. }
  unfold del_worker in Hd. destruct (worker_index c !! name) as [[w h]|] eqn:Hw; [|done].
  simplify_eq. 
  assert (∀ t, name ∉ from_option te_workers []
    ((map_workers (retain_not name) <$> local_topics c) !! t)) as Hout.
  { intros t. rewrite lookup_fmap. destruct (local_topics c !! t); simpl;
      [by intros [? _]%retain_not_elem|apply not_elem_of_nil]. }
  split_and!; simpl.
  - eauto.
  - apply lookup_delete_eq.
  - apply lookup_delete_eq.
  - apply Hout.
  - intros t. pose proof (inv_dispatch _ _ _ Hc' t) as Hdt. simpl in Hdt. rewrite Hdt. apply Hout.
  - rewrite u64_incr_small by done. lia.
  - intros t l Hl. unfold select_local_idle_worker, vec_pop. simpl. rewrite Hl.
    rewrite reverse_app. simpl. by rewrite lookup_delete_eq.
Qed.

(** Boundary: [register_worker] enters the worker into the index before
    it looks for the topic, so on [TopicNotFound] it leaves a worker behind
    that no topic lists. *)
Theorem register_worker_error_leaks t w h c :
  local_topics c !! t = None →
  (register_worker t w h c).1 = Err (ETopic (TopicNotFound t)) ∧
  worker_index (register_worker t w h c).2 !! w_name w = Some (w, h) ∧
  local_topics (register_worker t w h c).2 = local_topics c.
Proof.
  intros Ht. unfold register_worker. rewrite Ht. simpl. by rewrite lookup_insert_eq.
Qed.

(** ** The hypotheses can hold *)

Open Scope string_scope.

Definition demo_inbox : Inbox := {| ib_addr := 9 |}.
Definition demo_tables : ConsumerRouter :=
  router_step (RSetIdle "orders" "w1")
    (router_step (RCreateWorker "orders" (demo_worker "orders") demo_inbox 5%positive)
      (router_step (RRegister "orders" 1%positive (Ok the_producer)) (router_init None))).

Lemma demo_tables_reach : router_reach None demo_tables.
Proof.
  apply reach_step; [|exact I]. apply reach_step; [|split; reflexivity].
  apply reach_step; [apply reach_init|exact I].
Qed.

Lemma router_tables_consistent_witness : router_inv demo_tables.
Proof. apply (router_tables_consistent None demo_tables), demo_tables_reach. Defined.

Lemma get_workers_complete_witness :
  let w := demo_worker "orders" in
  (w ∈ get_workers "orders" demo_tables ↔
     w_topic w = "orders" ∧ ∃ h, worker_index demo_tables !! w_name w = Some (w, h)) ∧
  NoDup (w_name <$> get_workers "orders" demo_tables).
Proof.
  intros w. apply (get_workers_complete None demo_tables "orders" w), demo_tables_reach.
Defined.

Lemma del_worker_forgets_witness :
  let c' := (del_worker "w1" demo_tables).2 in
  (∃ w h, worker_index demo_tables !! "w1" = Some (w, h) ∧ [5%positive] = [h]) ∧
  worker_index c' !! "w1" = None ∧ local_inboxes c' !! "w1" = None ∧
  (∀ t, "w1" ∉ from_option te_workers [] (local_topics c' !! t)) ∧
  (∀ t, "w1" ∉ default [] (dispatch_workers c' !! t)) ∧
  dispatch_generation c' ≠ dispatch_generation demo_tables ∧
  (∀ t l, idle_workers c' !! t = Some (l ++ ["w1"])%list →
     (select_local_idle_worker t c').1 = None).
Proof.
  intros c'. apply (del_worker_forgets None demo_tables "w1" [5%positive] c').
  - apply demo_tables_reach.
  - vm_compute. discriminate.
  - vm_compute. reflexivity.
  - vm_compute. reflexivity.
Defined.

Lemma register_worker_error_leaks_witness :
  let w := demo_worker "orders" in
  let c := router_init None in
  (register_worker "orders" w 5%positive c).1 = Err (ETopic (TopicNotFound "orders")) ∧
  worker_index (register_worker "orders" w 5%positive c).2 !! w_name w = Some (w, 5%positive) ∧
  local_topics (register_worker "orders" w 5%positive c).2 = local_topics c.
Proof.
  intros w c. apply (register_worker_error_leaks "orders" w 5%positive c). reflexivity.
Defined.

Close Scope string_scope.
