(* ===== verification/RouterRaces.v ===== *)
(** * The consumer router's tables under concurrent calls

    [Router] gives every method as one transition of all tables.  Most of them
    are that: they hold the lock of the topics or of the index throughout.
    [create_worker] is not: it reads the topics, inserts the inbox, sets the
    dispatcher's flag and registers the worker in four critical sections,
    with other calls between them, and its caller may give up at any of the
    [await]s.  Here the sections are the effects and calls interleave
    ([Interleave]). *)
From S2P Require Import Prelude Prog Interleave Errors Message Runtime Worker World Router RouterTheorems.

(** ** Sections *)

(** The section of [create_worker] that decides whether the dispatcher of the
    topic has to be started. *)
Definition enable_dispatch (t : string) (c : ConsumerRouter) : bool * ConsumerRouter :=
  match dispatch_enabled c !! t with
  | Some true => (false, c)
  | _ => (true, set_enabled (<[t := true]> (dispatch_enabled c)) c)
  end.

Inductive RSec : Type → Type :=
| SReadTopic (t : string) : RSec (option Producer)
| SInsertInbox (name : string) (i : Inbox) : RSec unit
| SEnable (t : string) : RSec bool
| SRegisterWorker (t : string) (w : Worker) (h : JoinHandle) : RSec (Res unit)
| SRegister (t : string) (h : HandlerRef) (created : Res Producer) : RSec (Res unit)
| SSetPipeline (t : string) (p : PipelineRef) : RSec (Res unit)
| SSelectIdle (t : string) : RSec (option Worker)
| SDelWorker (name : string) : RSec (Res unit * list JoinHandle)
| SDelWorkers (t : string) : RSec (Res unit * list JoinHandle)
| SSetIdle (t name : string) : RSec (Res unit)
| SSetWorking (t name : string) : RSec (Res unit).

Definition sec_run (X : Type) (e : RSec X) (c : ConsumerRouter) : X * ConsumerRouter :=
  match e in RSec X return X * ConsumerRouter with
  | SReadTopic t => (te_producer <$> local_topics c !! t, c)
  | SInsertInbox name i => (tt, set_inboxes (<[name := i]> (local_inboxes c)) c)
  | SEnable t => enable_dispatch t c
  | SRegisterWorker t w h => register_worker t w h c
  | SRegister t h p => router_register t h p c
  | SSetPipeline t p => set_pipeline t p c
  | SSelectIdle t => select_local_idle_worker t c
  | SDelWorker n => del_worker n c
  | SDelWorkers t => del_workers t c
  | SSetIdle t n => set_idle t n c
  | SSetWorking t n => set_working t n c
  end.

(** [create_worker], section by section, for the worker that [Worker::new]
    built; the flag says whether the call started a dispatcher. *)
Definition create_worker_sections (t : string) (w : Worker) (i : Inbox) (h : JoinHandle)
    : prog RSec (Res string * bool) :=
  o <- call (SReadTopic t) ;;
  match o with
  | None => Ret (Err (ETopic (TopicNotFound t)), false)
  | Some _ =>
      call (SInsertInbox (w_name w) i) ;;;
      start <- call (SEnable t) ;;
      r <- call (SRegisterWorker t w h) ;;
      Ret (match r with Ok _ => Ok (w_name w) | Err e => Err e end, start)
  end.

(** Alone, the sections are the transition of [Router]. *)
Lemma sections_refine t w i h c :
  run_outcome sec_run (create_worker_sections t w i h) c = Done (create_worker t w i h c).1 ∧
  run_state sec_run (create_worker_sections t w i h) c = (create_worker t w i h c).2.
Proof.
  unfold create_worker_sections. cbn [bind call].
  rewrite run_outcome_vis, run_state_vis. simpl. unfold create_worker.
  destruct (local_topics c !! t) as [e|] eqn:He; simpl; [|done].
  rewrite !run_outcome_vis, !run_state_vis. simpl. unfold enable_dispatch. simpl.
  destruct (dispatch_enabled c !! t) as [[]|]; simpl; unfold register_worker; simpl; rewrite He; done.
Qed.

(** ** The calls of a node *)

Inductive Request : Type :=
| QCreate (t : string) (w : Worker) (i : Inbox) (h : JoinHandle)
| QRegister (t : string) (h : HandlerRef) (created : Res Producer)
| QSetPipeline (t : string) (p : PipelineRef)
| QSelectIdle (t : string)
| QDelWorker (name : string)
| QDelWorkers (t : string)
| QSetIdle (t name : string)
| QSetWorking (t name : string).

Definition request_code (q : Request) : prog RSec (option (Res string * bool)) :=
  match q with
  | QCreate t w i h => r <- create_worker_sections t w i h ;; Ret (Some r)
  | QRegister t h p => call (SRegister t h p) ;;; Ret None
  | QSetPipeline t p => call (SSetPipeline t p) ;;; Ret None
  | QSelectIdle t => call (SSelectIdle t) ;;; Ret None
  | QDelWorker n => call (SDelWorker n) ;;; Ret None
  | QDelWorkers t => call (SDelWorkers t) ;;; Ret None
  | QSetIdle t n => call (SSetIdle t n) ;;; Ret None
  | QSetWorking t n => call (SSetWorking t n) ;;; Ret None
  end.

(** The tables, and the names drawn so far (they contain a UUID). *)
Record Shared : Type := { sh_tables : ConsumerRouter; sh_names : gset string }.

Definition sec_eff (X : Type) (e : RSec X) (s : Shared) (x : X) (s' : Shared) : Prop :=
  sec_run X e (sh_tables s) = (x, sh_tables s') ∧ sh_names s' = sh_names s.

Definition request_spawn (s : Shared) (q : Request) (s' : Shared) : Prop :=
  match q with
  | QCreate t w _ _ =>
      w_topic w = t ∧ (w_name w ∉ sh_names s) ∧
      s' = Build_Shared (sh_tables s) ({[ w_name w ]} ∪ sh_names s)
  | _ => s' = s
  end.

Abbreviation CallConf := (Conf (E := RSec) (S := Shared) (R := Request) (L := option (Res string * bool))).
Abbreviation CallView := (View (E := RSec) (R := Request) (L := option (Res string * bool))).

(** A call runs once ([next] is empty) and may be given up at any point. *)
Definition call_step : CallConf → CallConf → Prop :=
  conf_step sec_eff request_code (λ _ _ _ _ _, False) request_spawn (λ _, True) (λ _ _, False).

Definition call_init (bs : option nat) : CallConf :=
  {| shared := {| sh_tables := router_init bs; sh_names := ∅ |}; tasks := [] |}.
Definition calls_reach (bs : option nat) (c : CallConf) : Prop := rtc call_step (call_init bs) c.

(** ** Where a call is *)

Inductive CreatePhase : Type := CBefore | CFlying | CPast.
#[export] Instance CreatePhase_eq_dec : EqDecision CreatePhase.
Proof. solve_decision. Defined.

Definition create_phase_step (ph : CreatePhase) (v : ev RSec) : CreatePhase :=
  match v with
  | Ev e _ =>
      match e with SInsertInbox _ _ => CFlying | SRegisterWorker _ _ _ => CPast | _ => ph end
  end.
Definition create_phase (t : list (ev RSec)) : CreatePhase := foldl create_phase_step CBefore t.

Lemma create_phase_snoc t v : create_phase (t ++ [v]) = create_phase_step (create_phase t) v.
Proof. unfold create_phase. by rewrite foldl_app. Qed.

(** Registrations that did not find the topic. *)
Definition ev_leaked (v : ev RSec) : list string :=
  match v with
  | Ev e x =>
      match e in RSec X return X → list string with
      | SRegisterWorker _ w _ => λ r, if is_ok r then [] else [w_name w]
      | _ => λ _, []
      end x
  end.

Definition new_name (q : Request) : option string :=
  match q with QCreate _ w _ _ => Some (w_name w) | _ => None end.

(** Between the insertion of the inbox and the registration. *)
Definition in_flight (vs : list CallView) (n : string) : Prop :=
  ∃ v, v ∈ vs ∧ new_name v.1.1 = Some n ∧ create_phase v.1.2 = CFlying.
Definition leaked (vs : list CallView) (n : string) : Prop :=
  ∃ v, v ∈ vs ∧ n ∈ v.1.2 ≫= ev_leaked.

(** *** The protocol *)

Definition plain_section (X : Type) (e : RSec X) : Prop :=
  match e with
  | SReadTopic _ | SInsertInbox _ _ | SEnable _ | SRegisterWorker _ _ _ => False
  | _ => True
  end.

Definition request_pre (q : Request) (t : list (ev RSec)) (X : Type) (e : RSec X) : Prop :=
  match q with
  | QCreate tpc w i h =>
      match e with
      | SReadTopic _ => create_phase t = CBefore
      | SInsertInbox n _ => create_phase t = CBefore ∧ n = w_name w
      | SEnable _ => create_phase t = CFlying
      | SRegisterWorker tpc' w' _ => create_phase t = CFlying ∧ tpc' = tpc ∧ w' = w
      | _ => False
      end
  | _ => plain_section X e
  end.

Abbreviation qfollows := (follows request_pre (λ _ _ _, True) (λ _ _ _, True)).

Lemma request_follows q : qfollows q [] (request_code q).
Proof.
  destruct q as [t w i h| | | | | | |]; [|by split..]. cbn [request_code].
  unfold create_worker_sections. cbn [bind call follows]. split; [done|].
  intros [p|] _; cbn [bind call follows]; [|done]. split; [done|]. intros [] _.
  split; [done|]. intros start _. split; [done|]. by intros r _.
Qed.

(** ** The invariant *)

Record calls_ok (s : Shared) (vs : list CallView) : Prop := {
  co_tables : tables_agree (leaked vs) (in_flight vs) (sh_tables s);
  co_inboxes : ∀ n, is_Some (local_inboxes (sh_tables s) !! n) → n ∈ sh_names s;
  co_names : ∀ i v n, vs !! i = Some v → new_name v.1.1 = Some n → n ∈ sh_names s;
  co_distinct : ∀ i j v u n, vs !! i = Some v → vs !! j = Some u →
    new_name v.1.1 = Some n → new_name u.1.1 = Some n → i = j;
  co_before : ∀ i v n, vs !! i = Some v → new_name v.1.1 = Some n →
    create_phase v.1.2 = CBefore → local_inboxes (sh_tables s) !! n = None;
  co_topic : ∀ i v t w b h, vs !! i = Some v → v.1.1 = QCreate t w b h → w_topic w = t
}.

Lemma agree_ext (L L' F F' : string → Prop) c :
  (∀ n, L n ↔ L' n) → (∀ n, F n ↔ F' n) → tables_agree L F c → tables_agree L' F' c.
Proof.
  intros HL HF [H1 H2 H3 H4 H5 H6]. split; try done.
  - intros n w h Hw. rewrite <- (HL n). by eapply H3.
  - intros n. rewrite <- (HF n). apply H4.
  - intros n Hn. apply H5. by apply HF.
Qed.

Definition flying (v : CallView) (n : string) : Prop :=
  new_name v.1.1 = Some n ∧ create_phase v.1.2 = CFlying.

Definition with_event (v : CallView) (x : ev RSec) : CallView := (v.1.1, v.1.2 ++ [x], v.2).

Section views.
Context (vs : list CallView) (i : nat) (v : CallView) (x : ev RSec) (Hi : vs !! i = Some v).

Lemma at_i : with_event v x ∈ <[i := with_event v x]> vs.
Proof.
  apply (list_elem_of_lookup_2 _ i), list_lookup_insert_eq. by eapply lookup_lt_Some.
Qed.

Lemma leaked_insert n : leaked (<[i := with_event v x]> vs) n ↔ leaked vs n ∨ n ∈ ev_leaked x.
Proof.
  split.
  - intros (u & [j Hj]%list_elem_of_lookup & Hn).
    apply list_lookup_insert_Some in Hj as [(-> & <- & _)|[Hne Hj]].
    + simpl in Hn. rewrite bind_app, elem_of_app, bind_singleton in Hn.
      destruct Hn as [Hn|Hn]; [left|by right]. exists v. split; [by eapply list_elem_of_lookup_2|done].
    + left. exists u. split; [by eapply list_elem_of_lookup_2|done].
  - intros [(u & [j Hj]%list_elem_of_lookup & Hn)|Hn].
    + destruct (decide (j = i)) as [->|Hne].
      * assert (u = v) as -> by (by injection (eq_trans (eq_sym Hj) Hi)). exists (with_event v x). split; [apply at_i|].
        simpl. rewrite bind_app, elem_of_app. by left.
      * exists u. split; [|done]. apply (list_elem_of_lookup_2 _ j). by rewrite list_lookup_insert_ne.
    + exists (with_event v x). split; [apply at_i|].
      simpl. rewrite bind_app, elem_of_app, bind_singleton. by right.
Qed.

Lemma in_flight_insert n :
  in_flight (<[i := with_event v x]> vs) n ↔
    flying (with_event v x) n ∨ ∃ j u, j ≠ i ∧ vs !! j = Some u ∧ flying u n.
Proof.
  split.
  - intros (u & [j Hj]%list_elem_of_lookup & Hn).
    apply list_lookup_insert_Some in Hj as [(-> & <- & _)|[Hne Hj]]; [by left|].
    right. by exists j, u.
  - intros [Hf|(j & u & Hne & Hj & Hf)].
    + exists (with_event v x). split; [apply at_i|exact Hf].
    + exists u. split; [|exact Hf]. apply (list_elem_of_lookup_2 _ j). by rewrite list_lookup_insert_ne.
Qed.

Lemma in_flight_here n :
  in_flight vs n ↔ flying v n ∨ ∃ j u, j ≠ i ∧ vs !! j = Some u ∧ flying u n.
Proof.
  split.
  - intros (u & [j Hj]%list_elem_of_lookup & Hn). destruct (decide (j = i)) as [->|Hne].
    + assert (u = v) as -> by (by injection (eq_trans (eq_sym Hj) Hi)). by left.
    + right. by exists j, u.
  - intros [Hf|(j & u & Hne & Hj & Hf)]; [exists v|exists u]; (split; [by eapply list_elem_of_lookup_2|done]).
Qed.

Lemma in_flight_same n :
  (flying (with_event v x) n ↔ flying v n) → in_flight vs n ↔ in_flight (<[i := with_event v x]> vs) n.
Proof. intros Hf. rewrite in_flight_insert, in_flight_here. by rewrite Hf. Qed.
End views.

(** A plain section only ever removes inboxes. *)
Lemma drop_workers_inboxes (l : list string) hs c n :
  local_inboxes c !! n = None → local_inboxes (foldl (flip drop_worker) (hs, c) l).2 !! n = None.
Proof.
  revert hs c. induction l as [|x l IH]; intros hs c Hn; [done|]. cbn [foldl].
  unfold flip at 2. unfold drop_worker at 2. destruct (worker_index c !! x) as [[w h]|]; apply IH; [|done].
  simpl. apply lookup_delete_None. by right.
Qed.

Lemma plain_inboxes X (e : RSec X) c n :
  plain_section X e → local_inboxes c !! n = None → local_inboxes (sec_run X e c).2 !! n = None.
Proof.
  intros Hp Hn. destruct e as [| | | |t h p|t p|t|name|t|t name|t name]; try done; simpl.
  - unfold router_register. destruct (local_topics c !! t); [done|]. by destruct p.
  - unfold set_pipeline. by destruct (local_topics c !! t).
  - unfold select_local_idle_worker. destruct (idle_workers c !! t); [|done].
    by destruct (vec_pop l) as [[]|].
  - unfold del_worker. destruct (worker_index c !! name) as [[w h]|]; [|done]. simpl.
    apply lookup_delete_None. by right.
  - unfold del_workers. destruct (local_topics c !! t) as [e|]; [|done].
    pose proof (drop_workers_inboxes (te_workers e) [] c n Hn) as Hd.
    by destruct (foldl _ _ _) as [hs c1].
  - unfold set_working. simpl. by destruct (idle_workers c !! t).
Qed.

Lemma plain_agree L F X (e : RSec X) c :
  plain_section X e → tables_agree L F c → tables_agree L F (sec_run X e c).2.
Proof.
  intros Hp Hc. destruct e; try done; simpl.
  - by apply inv_register.
  - by apply inv_set_pipeline.
  - by apply inv_select.
  - pose proof (inv_del_worker L F name c Hc) as Hd. by destruct (del_worker name c) as [[]].
  - pose proof (inv_del_workers L F t c Hc) as Hd. by destruct (del_workers t c) as [[]].
  - by apply (inv_tables _ _ c).
  - by apply inv_set_working.
Qed.

(** *** Effects keep it *)

(** What a section has to show besides the agreement of the tables. *)
Lemma calls_event s s' vs i v x :
  calls_ok s vs → vs !! i = Some v → sh_names s' = sh_names s →
  tables_agree (leaked (<[i := with_event v x]> vs)) (in_flight (<[i := with_event v x]> vs))
    (sh_tables s') →
  (∀ n, is_Some (local_inboxes (sh_tables s') !! n) →
     is_Some (local_inboxes (sh_tables s) !! n) ∨ new_name v.1.1 = Some n) →
  (∀ n, local_inboxes (sh_tables s) !! n = None → new_name v.1.1 ≠ Some n →
     local_inboxes (sh_tables s') !! n = None) →
  (∀ n, new_name v.1.1 = Some n → create_phase (v.1.2 ++ [x]) = CBefore →
     local_inboxes (sh_tables s') !! n = None) →
  calls_ok s' (<[i := with_event v x]> vs).
Proof.
  intros HJ Hi Hn Ht Hnew Hkeep Hbefore. split; [done|..].
  - intros n [Hb|Hb]%Hnew; rewrite Hn; [by apply (co_inboxes _ _ HJ)|by eapply (co_names _ _ HJ)].
  - intros j u n Hj Hu. rewrite Hn. apply list_lookup_insert_Some in Hj as [(-> & <- & _)|[_ Hj]];
      by eapply (co_names _ _ HJ).
  - intros j k u u' n Hj Hk Hu Hu'.
    apply list_lookup_insert_Some in Hj as [(-> & <- & _)|[_ Hj]];
      apply list_lookup_insert_Some in Hk as [(-> & <- & _)|[_ Hk]]; try done;
      by eapply (co_distinct _ _ HJ).
  - intros j u n Hj Hu Hp. apply list_lookup_insert_Some in Hj as [(-> & <- & _)|[Hne Hj]].
    + by apply Hbefore.
    + apply Hkeep; [by eapply (co_before _ _ HJ)|]. intros Hv. apply Hne.
      by eapply (co_distinct _ _ HJ).
  - intros j u t w b h Hj Hu. apply list_lookup_insert_Some in Hj as [(-> & <- & _)|[_ Hj]];
      by eapply (co_topic _ _ HJ).
Qed.

(** A section that changes neither phases nor leaks. *)
Lemma calm_event s s' vs i v x :
  calls_ok s vs → vs !! i = Some v → sh_names s' = sh_names s →
  ev_leaked x = [] → create_phase_step (create_phase v.1.2) x = create_phase v.1.2 →
  tables_agree (leaked vs) (in_flight vs) (sh_tables s') →
  (∀ n, local_inboxes (sh_tables s) !! n = None → local_inboxes (sh_tables s') !! n = None) →
  calls_ok s' (<[i := with_event v x]> vs).
Proof.
  intros HJ Hi Hn Hl Hp Ht Hb. eapply calls_event; [done..| | | |].
  - eapply agree_ext; [| |exact Ht].
    + intros n. rewrite (leaked_insert vs i v x Hi), Hl. set_solver.
    + intros n. apply (in_flight_same vs i v x Hi). unfold flying, with_event. simpl.
      by rewrite create_phase_snoc, Hp.
  - intros n Hs. left. destruct (local_inboxes (sh_tables s) !! n) eqn:E; [done|].
    rewrite Hb in Hs by done. by destruct Hs.
  - auto.
  - intros n Hv. rewrite create_phase_snoc, Hp. intros Hph. apply Hb.
    by eapply (co_before _ _ HJ).
Qed.

Lemma flying_names s vs i v n :
  calls_ok s vs → vs !! i = Some v → new_name v.1.1 = Some n →
  in_flight vs n ↔ create_phase v.1.2 = CFlying.
Proof.
  intros HJ Hi Hn. split.
  - intros (u & [j Hj]%list_elem_of_lookup & Hu & Hp).
    assert (j = i) as -> by (by eapply (co_distinct _ _ HJ)).
    by replace v with u by (by injection (eq_trans (eq_sym Hj) Hi)).
  - intros Hp. exists v. split; [by eapply list_elem_of_lookup_2|done].
Qed.

Lemma inbox_event s s' vs i v t w b h b' x :
  calls_ok s vs → vs !! i = Some v → v.1.1 = QCreate t w b h → create_phase v.1.2 = CBefore →
  sec_eff _ (SInsertInbox (w_name w) b') s x s' →
  calls_ok s' (<[i := with_event v (Ev (SInsertInbox (w_name w) b') x)]> vs).
Proof.
  intros HJ Hi Hq Hp [Hs Hn]. simpl in Hs. injection Hs as <- Hs.
  assert (new_name v.1.1 = Some (w_name w)) as Hname by by rewrite Hq.
  eapply calls_event; [done..| | | |]; rewrite <- ?Hs; simpl.
  - eapply (inv_new_inbox _ (in_flight vs)).
    + eapply agree_ext; [| |apply (co_tables _ _ HJ)]; [|done].
      intros n. rewrite (leaked_insert vs i v _ Hi). set_solver.
    + pose proof (co_before _ _ HJ _ _ _ Hi Hname Hp) as Hb.
      pose proof (inv_inbox _ _ _ (co_tables _ _ HJ) (w_name w)) as Hio. rewrite Hb in Hio.
      destruct (worker_index (sh_tables s) !! w_name w) eqn:E; [|done].
      destruct (proj2 Hio); [left; by eexists|done].
    + intros n. rewrite (in_flight_insert vs i v _ Hi), (in_flight_here vs i v Hi).
      unfold flying, with_event. simpl. rewrite create_phase_snoc, Hp, Hname. naive_solver.
  - intros n. destruct (decide (n = w_name w)) as [->|Hne]; [by right|].
    rewrite lookup_insert_ne by done. by left.
  - intros n Hno Hne. rewrite lookup_insert_ne; [done|]. intros <-. by rewrite Hname in Hne.
  - intros n _. by rewrite create_phase_snoc.
Qed.

Lemma register_event s s' vs i v t w b h h' r :
  calls_ok s vs → vs !! i = Some v → v.1.1 = QCreate t w b h → create_phase v.1.2 = CFlying →
  sec_eff _ (SRegisterWorker t w h') s r s' →
  calls_ok s' (<[i := with_event v (Ev (SRegisterWorker t w h') r)]> vs).
Proof.
  intros HJ Hi Hq Hp [Hs Hn]. cbn [sec_run] in Hs.
  assert (new_name v.1.1 = Some (w_name w)) as Hname by by rewrite Hq.
  pose proof (co_topic _ _ HJ _ _ _ _ _ _ Hi Hq) as Htop.
  assert (in_flight vs (w_name w)) as Hfl by by eapply (flying_names s vs i v).
  assert (∀ n, in_flight (<[i := with_event v (Ev (SRegisterWorker t w h') r)]> vs) n ↔
    in_flight vs n ∧ n ≠ w_name w) as HF.
  { intros n. rewrite (in_flight_insert vs i v _ Hi), (in_flight_here vs i v Hi).
    unfold flying, with_event. simpl. rewrite create_phase_snoc, Hp, Hname. simpl. split.
    - intros [[_ [=]]|(j & u & Hne & Hj & Hu & Hph)]. split; [right; eauto 10|].
      intros ->. apply Hne. by eapply (co_distinct _ _ HJ).
    - intros [[[[= ->] _]|Hother] Hne]; [done|by right]. }
  assert (local_inboxes (sh_tables s') = local_inboxes (sh_tables s)) as Hboxes.
  { unfold register_worker in Hs. by destruct (local_topics (sh_tables s) !! t); injection Hs as _ <-. }
  eapply calls_event; [done..| | | |]; rewrite ?Hboxes; [|by left|done|].
  - destruct (local_topics (sh_tables s) !! t) as [e|] eqn:He.
    + replace (sh_tables s') with (register_worker t w h' (sh_tables s)).2 by by rewrite Hs.
      eapply (inv_registered _ (in_flight vs)); [|done..]. eapply agree_ext; [|done|apply (co_tables _ _ HJ)].
      intros n. rewrite (leaked_insert vs i v _ Hi). unfold register_worker in Hs. rewrite He in Hs.
      injection Hs as <- _. simpl. set_solver.
    + replace (sh_tables s') with (register_worker t w h' (sh_tables s)).2 by by rewrite Hs.
      eapply (inv_leaked (leaked vs) (in_flight vs)); [apply (co_tables _ _ HJ)|done..| |done].
      intros n. rewrite (leaked_insert vs i v _ Hi). unfold register_worker in Hs. rewrite He in Hs.
      injection Hs as <- _. simpl. set_solver.
  - intros n _. by rewrite create_phase_snoc.
Qed.

Lemma section_event s s' vs i v X (e : RSec X) x :
  calls_ok s vs → vs !! i = Some v → request_pre v.1.1 v.1.2 X e → sec_eff X e s x s' →
  calls_ok s' (<[i := with_event v (Ev e x)]> vs).
Proof.
  intros HJ Hi Hpre He.
  assert (plain_section X e → calls_ok s' (<[i := with_event v (Ev e x)]> vs)) as Hplain.
  { intros Hpl. destruct He as [Hs Hn].
    assert (sh_tables s' = (sec_run X e (sh_tables s)).2) as Ht by by rewrite Hs.
    apply (calm_event s); rewrite ?Ht; try done.
    - by destruct e.
    - by destruct e.
    - apply plain_agree; [done|apply (co_tables _ _ HJ)].
    - intros n. by apply plain_inboxes. }
  unfold request_pre in Hpre. destruct v.1.1 as [t w b h| | | | | | |] eqn:Hq; try by apply Hplain.
  destruct e as [t'|n b'|t'|t' w' h'| | | | | | |]; try done.
  - destruct He as [Hs Hn]. simpl in Hs. injection Hs as _ Hs.
    apply (calm_event s); rewrite <- ?Hs; try done. apply (co_tables _ _ HJ).
  - destruct Hpre as [Hp ->]. by eapply inbox_event.
  - destruct He as [Hs Hn]. simpl in Hs. unfold enable_dispatch in Hs.
    apply (calm_event s); try done.
    + eapply inv_tables; [..|apply (co_tables _ _ HJ)];
        destruct (dispatch_enabled (sh_tables s) !! t') as [[]|]; by injection Hs as _ <-.
    + intros m Hm. by destruct (dispatch_enabled (sh_tables s) !! t') as [[]|]; injection Hs as _ <-.
  - destruct Hpre as (Hp & -> & ->). by eapply register_event.
Qed.

Lemma spawn_ok s s' vs q :
  calls_ok s vs → request_spawn s q s' → calls_ok s' (vs ++ [(q, [], [])]).
Proof.
  intros HJ Hs.
  assert (sh_tables s' = sh_tables s ∧ sh_names s ⊆ sh_names s' ∧
    ∀ n, new_name q = Some n → n ∈ sh_names s' ∧ n ∉ sh_names s) as (Ht & Hsub & Hnew).
  { destruct q; simpl in Hs; [|by subst; set_solver..]. destruct Hs as (_ & Hn & ->).
    simpl. split; [done|]. split; [set_solver|]. intros n [= <-]. set_solver. }
  split; rewrite ?Ht.
  - eapply agree_ext; [..|apply (co_tables _ _ HJ)]; intros n.
    + unfold leaked. split; intros (v & Hv & Hn); exists v; (split; [|done]).
      * rewrite elem_of_app. by left.
      * apply elem_of_app in Hv as [Hv|Hv%list_elem_of_singleton]; [done|]. subst.
        simpl in Hn. by apply not_elem_of_nil in Hn.
    + unfold in_flight. split; intros (v & Hv & Hn & Hp); exists v; (split; [|done]).
      * rewrite elem_of_app. by left.
      * apply elem_of_app in Hv as [Hv|Hv%list_elem_of_singleton]; [done|]. by subst.
  - intros n Hn. apply Hsub. by apply (co_inboxes _ _ HJ).
  - intros i v n Hi Hn. apply lookup_snoc_Some in Hi as [[_ Hi]|[_ <-]].
    + apply Hsub. by eapply (co_names _ _ HJ).
    + by apply Hnew.
  - intros i j v u n Hi Hj Hv Hu.
    apply lookup_snoc_Some in Hi as [[_ Hi]|[-> <-]]; apply lookup_snoc_Some in Hj as [[_ Hj]|[-> <-]].
    + by eapply (co_distinct _ _ HJ).
    + apply Hnew in Hu as [_ []]. by eapply (co_names _ _ HJ).
    + apply Hnew in Hv as [_ []]. by eapply (co_names _ _ HJ).
    + done.
  - intros i v n Hi Hn Hp. apply lookup_snoc_Some in Hi as [[_ Hi]|[_ <-]].
    + by eapply (co_before _ _ HJ).
    + destruct (local_inboxes (sh_tables s) !! n) eqn:E; [|done]. exfalso.
      apply Hnew in Hn as [_ Hn]. apply Hn, (co_inboxes _ _ HJ). by eexists.
  - intros i v t w b h Hi Hv. apply lookup_snoc_Some in Hi as [[_ Hi]|[_ <-]].
    + by eapply (co_topic _ _ HJ).
    + simpl in Hv. subst q. by destruct Hs.
Qed.

Lemma calls_keep :
  Keeps sec_eff request_code (λ _ _ _ _ _, False) request_spawn (λ _ _, False)
    request_pre (λ _ _ _, True) (λ _ _ _, True) calls_ok (λ _, True).
Proof.
  split; try done.
  - intros s vs i r t ds X e x s' HJ Hi _ Hpre He.
    by apply (section_event s s' vs i (r, t, ds) X e x).
  - intros s vs q s' HJ Hs. split; [by eapply spawn_ok|done].
  - intros q _. apply request_follows.
Qed.

Definition call_views (c : CallConf) : list CallView := view <$> tasks c.

Lemma calls_reach_ok bs c : calls_reach bs c → calls_ok (shared c) (call_views c).
Proof.
  intros Hr. refine (proj1 (invariant_reachable _ _ _ _ _ _ _ _ _ _ _ _ _ calls_keep _ Hr)).
  split; [|constructor]. simpl. split; simpl; try done.
  - eapply agree_ext; [..|apply (inv_init bs)]; intros n; split; try done;
      intros (v & Hv & _); by apply not_elem_of_nil in Hv.
  - intros n. rewrite lookup_empty. by intros [].
Qed.

(** C12. The tables under concurrency.  Whatever calls run at the same time,
    each interrupted between its critical sections and perhaps given up there:
    a worker in the list of a topic is in the index and in no other list; the
    dispatcher set of a topic is its list of workers; a worker of the index
    is in the list of its topic, unless the call that created it was told
    that the topic does not exist; and an inbox belongs to a worker of the
    index or to a [create_worker] between its second and its last section. *)
Theorem tables_agree_under_concurrency bs c :
  calls_reach bs c →
  tables_agree (leaked (call_views c)) (in_flight (call_views c)) (sh_tables (shared c)).
Proof. intros Hr. apply (co_tables _ _ (calls_reach_ok _ _ Hr)). Qed.

(** ** A race *)

(** The rest of [create_worker] after its first section. *)
Definition create_worker_rest (t : string) (w : Worker) (i : Inbox) (h : JoinHandle)
    (c : ConsumerRouter) : Res unit * bool * ConsumerRouter :=
  let c1 := (sec_run _ (SInsertInbox (w_name w) i) c).2 in
  let '(start, c2) := sec_run _ (SEnable t) c1 in
  let '(r, c3) := sec_run _ (SRegisterWorker t w h) c2 in
  (r, start, c3).

(** C15. [del_workers] between the first two sections of a [create_worker] of
    the same topic: the call reports [TopicNotFound], but its worker, whose
    task runs, stays in the index with its inbox, and the topic counts as one
    that has a dispatcher.  From then on, whatever queue the topic is
    registered with again, a worker created for it is accepted without a
    dispatcher being started: nobody claims from the new queue. *)
Theorem interrupted_create_worker_disables_topic t w i h c e :
  local_topics c !! t = Some e →
  let '(r, start, c') := create_worker_rest t w i h (del_workers t c).2 in
  r = Err (ETopic (TopicNotFound t)) ∧ start = true ∧
  worker_index c' !! w_name w = Some (w, h) ∧ local_inboxes c' !! w_name w = Some i ∧
  ∀ hd p w' i' h', ∃ c'',
    create_worker t w' i' h' (router_register t hd (Ok p) c').2 = (Ok (w_name w'), false, c'') ∧
    default [] (dispatch_workers c'' !! t) = [w_name w'].
Proof.
  intros He. unfold create_worker_rest. cbn [sec_run snd].
  assert (local_topics (del_workers t c).2 !! t = None ∧
          dispatch_workers (del_workers t c).2 !! t = None ∧
          dispatch_enabled (del_workers t c).2 !! t = None) as (Ht & Hd & Hen).
  { unfold del_workers. destruct (match local_topics c !! t with Some _ => _ | None => _ end) as [hs c1].
    simpl. by rewrite !lookup_delete_eq. }
  destruct (del_workers t c) as [[u hs] c1]. simpl in *. unfold enable_dispatch. simpl.
  rewrite Hen. unfold register_worker. simpl. rewrite Ht. simpl.
  split_and!; [done|done|apply lookup_insert_eq|apply lookup_insert_eq|].
  intros hd p w' i' h'. unfold router_register, create_worker, register_worker. simpl. rewrite Ht.
  repeat (simpl; rewrite ?lookup_insert_eq). eexists. split; [reflexivity|]. simpl.
  unfold push_name. by rewrite lookup_insert_eq, Hd.
Qed.

(** ** The hypotheses can hold *)

Open Scope string_scope.

Definition named_worker (name : string) : Worker :=
  {| w_topic := "orders"; w_name := name; w_producer := the_producer; w_time_out := None;
     w_shutdown_check_interval := 10; w_shutdown_timeout := None;
     w_wal := w_wal (demo_worker "orders"); w_audit_template := w_audit_template (demo_worker "orders") |}.

Lemma sec_eff_now X (e : RSec X) s :
  sec_eff X e s (sec_run X e (sh_tables s)).1
    {| sh_tables := (sec_run X e (sh_tables s)).2; sh_names := sh_names s |}.
Proof. split; [apply surjective_pairing|done]. Qed.

(** A topic is registered, a worker is being created and has its inbox. *)
Lemma calls_demo :
  ∃ c, calls_reach None c ∧ in_flight (call_views c) "w2".
Proof.
  eexists. split.
  - eapply rtc_l; [apply StepSpawn with (r := QRegister "orders" 1%positive (Ok the_producer)); reflexivity|].
    eapply rtc_l; [eapply (StepEffect _ _ _ _ _ _ _ _ 0 _ _ (SRegister "orders" 1%positive (Ok the_producer)));
      [reflexivity|reflexivity|apply sec_eff_now]|].
    eapply rtc_l; [apply StepSpawn with (r := QCreate "orders" (named_worker "w2") demo_inbox 5%positive);
      split; [reflexivity|split; [apply not_elem_of_empty|reflexivity]]|].
    eapply rtc_l; [eapply (StepEffect _ _ _ _ _ _ _ _ 1 _ _ (SReadTopic "orders"));
      [reflexivity|reflexivity|apply sec_eff_now]|].
    eapply rtc_l; [eapply (StepEffect _ _ _ _ _ _ _ _ 1 _ _ (SInsertInbox "w2" demo_inbox));
      [reflexivity|reflexivity|apply sec_eff_now]|].
    apply rtc_refl.
  - eexists. split; [right; left|]. split; reflexivity.
Qed.

Lemma tables_agree_under_concurrency_witness :
  ∃ c, in_flight (call_views c) "w2" ∧
    tables_agree (leaked (call_views c)) (in_flight (call_views c)) (sh_tables (shared c)).
Proof.
  destruct calls_demo as (c & Hr & Hf). exists c. split; [exact Hf|].
  exact (tables_agree_under_concurrency None c Hr).
Defined.

Lemma interrupted_create_worker_disables_topic_witness :
  let '(r, start, c') := create_worker_rest "orders" (named_worker "w2") demo_inbox 7%positive
    (del_workers "orders" demo_tables).2 in
  r = Err (ETopic (TopicNotFound "orders")) ∧ start = true ∧
  worker_index c' !! "w2" = Some (named_worker "w2", 7%positive) ∧
  local_inboxes c' !! "w2" = Some demo_inbox ∧
  ∀ hd p w' i' h', ∃ c'',
    create_worker "orders" w' i' h' (router_register "orders" hd (Ok p) c').2
      = (Ok (w_name w'), false, c'') ∧
    default [] (dispatch_workers c'' !! "orders") = [w_name w'].
Proof.
  assert (local_topics demo_tables !! "orders" = Some {| te_producer := the_producer;
    te_handler := 1%positive; te_pipeline := None; te_workers := ["w1"] |}) as He by reflexivity.
  exact (interrupted_create_worker_disables_topic "orders" (named_worker "w2") demo_inbox 7%positive
    demo_tables _ He).
Defined.

Close Scope string_scope.
