(* ===== verification/Dispatch.v ===== *)
(** * Consumer router, dispatch: [event_base_core/src/queues/consumer_router.rs]

    The two loops that move claimed messages to workers: [recv], on the main
    consumer, in batches, and the dispatcher of a topic
    ([spawn_topic_dispatcher]), one message at a time.  One iteration of each
    is a program. *)
From S2P Require Import Prelude Prog Errors Message Codec Runtime Topic Worker.

Open Scope string_scope.

Definition TOPIC_REAP_INTERVAL : Duration := from_secs 30.
Definition TOPIC_REAP_MIN_IDLE : Duration := from_secs 120.

(** ** [recv] *)

(** The worker a [to_worker] stamp names, exactly or relative to this node. *)
Definition lookup_target (target : string) : Prog (option Worker) :=
  o <- call (RouterLookupWorker target) ;;
  match o with
  | Some w => Ret (Some w)
  | None =>
      node <- call TryGetNodeName ;;
      match node with
      | Some n => call (RouterLookupWorker (n +:+ "@" +:+ target))
      | None => Ret None
      end
  end.

(** [create_ephemeral_worker]. *)
Definition create_ephemeral_worker (tpc : string) (m : EMessage) : Prog (Res unit) :=
  o <- call (RouterTopicProducer tpc) ;;
  match o with
  | None => Ret (Err (ETopic (TopicNotFound tpc)))
  | Some p =>
      w <- Worker_new tpc p None (from_millis 50) None ;;
      call (SpawnProcessOne w m) ;;;
      Ret (Ok tt)
  end.

(** The body of the [for claimed in batch] loop: [true] when the claim goes
    to the list of acknowledgements, [false] for the other list. *)
Definition dispatch_claimed (c : ClaimedMessage) : Prog bool :=
  let m := cm_message c in
  known <- call (RouterHasTopic (topic m)) ;;
  if negb known then Ret false
  else
    worker <- match to_worker m with
              | Some target => lookup_target target
              | None => call (RouterSelectIdle (topic m))
              end ;;
    match worker with
    | Some w => res <- call (ProducerSend (w_producer w) m) ;; Ret (is_ok res)
    | None =>
        match to_worker m with
        | Some _ =>
            if decide (attempts m >= MAX_TARGETED_HOPS) then Ret true
            else
              let relay := set_attempts (u32_incr (attempts m)) m in
              o <- call (RouterTopicProducer (topic relay)) ;;
              match o with
              | Some p => res <- call (ProducerSend p relay) ;; Ret (is_ok res)
              | None => Ret false
              end
        | None => res <- create_ephemeral_worker (topic m) m ;; Ret (is_ok res)
        end
    end.

Fixpoint dispatch_batch (batch : list ClaimedMessage) : Prog (list string * list string) :=
  match batch with
  | [] => Ret ([], [])
  | c :: batch =>
      ok <- dispatch_claimed c ;;
      rest <- dispatch_batch batch ;;
      Ret (if ok : bool then (cm_claim_id c :: rest.1, rest.2)
           else (rest.1, cm_claim_id c :: rest.2))
  end.

(** One iteration of the loop of [recv]. *)
Definition recv_round (batch_size : nat) : Prog unit :=
  r <- call (ClaimBatch batch_size) ;;
  match r with
  | Err _ => Ret tt
  | Ok [] => call (Sleep (from_millis 1))
  | Ok batch =>
      an <- dispatch_batch batch ;;
      for_each an.1 (λ i, call (ClaimAck i) ;;; Ret tt) ;;;
      for_each an.2 (λ i, call (ClaimNack i) ;;; Ret tt)
  end.

(** ** The dispatcher of a topic *)

Record Dispatcher : Type := {
  d_cursor : Z;
  d_seen_generation : Z;
  d_cached_workers : list (string * Inbox);
  d_reclaimed : list (EMessage * string)
}.

Definition u64_max : Z := u64_modulus - 1.

Definition dispatcher_init : Dispatcher :=
  {| d_cursor := 0; d_seen_generation := u64_max; d_cached_workers := []; d_reclaimed := [] |}.

Definition with_reclaimed l (d : Dispatcher) : Dispatcher :=
  {| d_cursor := d_cursor d; d_seen_generation := d_seen_generation d;
     d_cached_workers := d_cached_workers d; d_reclaimed := l |}.
Definition invalidate (d : Dispatcher) : Dispatcher :=
  {| d_cursor := d_cursor d; d_seen_generation := u64_max;
     d_cached_workers := d_cached_workers d; d_reclaimed := d_reclaimed d |}.
Definition bump_cursor (d : Dispatcher) : Dispatcher :=
  {| d_cursor := u64_incr (d_cursor d); d_seen_generation := d_seen_generation d;
     d_cached_workers := d_cached_workers d; d_reclaimed := d_reclaimed d |}.

Section dispatcher.
(** The captured variables of the spawned task. *)
Context (tpc : string) (producer : Producer) (node : option string).

(** [last_reap.elapsed() >= TOPIC_REAP_INTERVAL]: the sweep for abandoned
    claims. *)
Definition reap (d : Dispatcher) : Prog Dispatcher :=
  el <- call ReapElapsed ;;
  if decide (el >= TOPIC_REAP_INTERVAL) then
    call ReapReset ;;;
    r <- call (ClaimStale TOPIC_REAP_MIN_IDLE) ;;
    Ret (match (r : Res (list ClaimedMessage)) with
         | Ok es => with_reclaimed
             (d_reclaimed d ++ ((λ c, (cm_message c, cm_claim_id c)) <$> es))%list d
         | Err _ => d
         end)
  else Ret d.

(** Refreshing the cached workers when the generation moved. *)
Definition refresh (d : Dispatcher) : Prog Dispatcher :=
  gen <- call LoadGeneration ;;
  if decide (gen ≠ d_seen_generation d ∨ d_cached_workers d = []) then
    names <- call (DispatchWorkers tpc) ;;
    inboxes <- call LocalInboxes ;;
    let cached := omap (λ n, b ← inboxes !! n; Some (n, b)) (default [] names) in
    Ret {| d_cursor := if decide (cached = []) then d_cursor d
                       else d_cursor d mod Z.of_nat (length cached);
           d_seen_generation := gen; d_cached_workers := cached;
           d_reclaimed := d_reclaimed d |}
  else Ret d.

(** Does a worker's name answer to a target? *)
Definition answers_to (target name : string) : bool :=
  bool_decide (name = target) ||
  match node with Some n => bool_decide (name = n +:+ "@" +:+ target) | None => false end.

(** [Iterator::position]. *)
Fixpoint position {A} (f : A → bool) (l : list A) : option nat :=
  match l with
  | [] => None
  | x :: l => if f x then Some 0%nat else S <$> position f l
  end.

(** Hand the message to a local inbox: acknowledge on success, give the claim
    back otherwise. *)
Definition deliver (wi : string * Inbox) (m : EMessage) (claim_id : string) (d : Dispatcher)
    : Prog Dispatcher :=
  let m := set_to_worker (Some wi.1) m in
  res <- call (InboxTrySend wi.2 m) ;;
  match res with
  | Ok _ => call (ClaimAck claim_id) ;;; Ret d
  | Err _ =>
      call (ClaimNack claim_id) ;;;
      call (Sleep (from_millis 5)) ;;;
      Ret (invalidate d)
  end.

(** The iteration for one message.  [cached_workers[index]] is in range in
    both places: [index] is a position of the vector, or a remainder by its
    length. *)
Definition dispatch_one (m : EMessage) (claim_id : string) (d : Dispatcher) : Prog Dispatcher :=
  d <- refresh d ;;
  match d_cached_workers d with
  | [] =>
      call (ClaimNack claim_id) ;;;
      call (Sleep (from_millis 100)) ;;;
      Ret d
  | first :: _ =>
      let cached := d_cached_workers d in
      let local_match := to_worker m ≫= (λ target, position (λ wi, answers_to target wi.1) cached) in
      match local_match with
      | Some i => deliver (default first (cached !! i)) m claim_id d
      | None =>
          match to_worker m with
          | Some _ =>
              if decide (attempts m >= MAX_TARGETED_HOPS) then
                call (ClaimAck claim_id) ;;; Ret d
              else
                call (ClaimAck claim_id) ;;;
                call (ProducerSend producer (set_attempts (u32_incr (attempts m)) m)) ;;;
                Ret d
          | None =>
              let i := Z.to_nat (d_cursor d mod Z.of_nat (length cached)) in
              deliver (default first (cached !! i)) m claim_id (bump_cursor d)
          end
      end
  end.

(** One iteration of the dispatcher's loop. *)
Definition dispatch_iter (d : Dispatcher) : Prog Dispatcher :=
  d <- reap d ;;
  match d_reclaimed d with
  | (m, i) :: rest => dispatch_one m i (with_reclaimed rest d)
  | [] =>
      r <- call Claim ;;
      match r with
      | Ok (Some c) => dispatch_one (cm_message c) (cm_claim_id c) d
      | _ => call (Sleep (from_millis 1)) ;;; Ret d
      end
  end.
End dispatcher.

(** ** Announcing a worker *)

Section announce.
Context `{Bincode WorkerDiscoveryMessage}.

(** [announce_worker]. *)
Definition announce_worker (w : Worker) : Prog unit :=
  if starts_with "_system." (w_topic w) then Ret tt
  else
    o <- call TopicRouterCell ;;
    match o with
    | None => Ret tt
    | Some r =>
        now <- call Now ;;
        let discovery := {| wd_worker_name := w_name w; wd_topic := w_topic w;
                            wd_started_at := now |} in
        m <- new_message SYSTEM_TOPIC_WORKER_DISCOVERY (encode_or_default discovery) Standard None ;;
        node <- call TryGetNodeName ;;
        send_system r (set_metadata (set_source node (metadata m)) m) (Some true) None ;;;
        Ret tt
    end.
End announce.

Close Scope string_scope.
