(* ===== verification/DispatchTheorems.v ===== *)
(** * Dispatch

    Every claim is settled once and no claimed message is lost; relays, by
    whatever part of the node, are bounded; untargeted messages go round the
    workers of the topic. *)
From S2P Require Import Prelude Prog Errors Message Codec Runtime Topic Worker World Dispatch.

(** ** Observations *)

Definition ev_acked (v : ev Eff) : list string :=
  match v with Ev e _ => match e with ClaimAck i => [i] | _ => [] end end.
Definition ev_nacked (v : ev Eff) : list string :=
  match v with Ev e _ => match e with ClaimNack i => [i] | _ => [] end end.
Definition ev_spawned (v : ev Eff) : list EMessage :=
  match v with Ev e _ => match e with SpawnProcessOne _ m => [m] | _ => [] end end.
Definition ev_inboxed (v : ev Eff) : list (Inbox * EMessage) :=
  match v with
  | Ev e x =>
      match e in Eff X return X → list (Inbox * EMessage) with
      | InboxTrySend b m => λ r, if is_ok r then [(b, m)] else []
      | _ => λ _, []
      end x
  end.
(** Claims the consumer handed out. *)
Definition ev_claimed (v : ev Eff) : list ClaimedMessage :=
  match v with
  | Ev e x =>
      match e in Eff X return X → list ClaimedMessage with
      | ClaimBatch _ => λ r, unwrap_or r []
      | ClaimStale _ => λ r, unwrap_or r []
      | Claim => λ r, match r with Ok (Some c) => [c] | _ => [] end
      | _ => λ _, []
      end x
  end.

Definition acked (t : Trace) : list string := t ≫= ev_acked.
Definition nacked (t : Trace) : list string := t ≫= ev_nacked.
Definition spawned (t : Trace) : list EMessage := t ≫= ev_spawned.
Definition inboxed (t : Trace) : list (Inbox * EMessage) := t ≫= ev_inboxed.
Definition claimed (t : Trace) : list ClaimedMessage := t ≫= ev_claimed.

Lemma acked_app t t' : acked (t ++ t') = acked t ++ acked t'.
Proof. apply bind_app. Qed.
Lemma nacked_app t t' : nacked (t ++ t') = nacked t ++ nacked t'.
Proof. apply bind_app. Qed.
Lemma spawned_app t t' : spawned (t ++ t') = spawned t ++ spawned t'.
Proof. apply bind_app. Qed.
Lemma inboxed_app t t' : inboxed (t ++ t') = inboxed t ++ inboxed t'.
Proof. apply bind_app. Qed.
Lemma claimed_app t t' : claimed (t ++ t') = claimed t ++ claimed t'.
Proof. apply bind_app. Qed.
#[export] Hint Rewrite acked_app nacked_app spawned_app inboxed_app claimed_app : eb_trace.

(** Messages handed over to a queue or to a task of their own. *)
Definition moved (t : Trace) : list EMessage := (sent t).*2 ++ spawned t.

(** ** [recv] *)

Definition settles_nothing (t : Trace) : Prop :=
  acked t = [] ∧ nacked t = [] ∧ claimed t = [].

(** What has to hold of a claim that is acknowledged or given back. *)
Definition claim_fate (m : EMessage) (t : Trace) (ok : bool) : Prop :=
  if ok then
    moved t = [m] ∨
    (is_Some (to_worker m) ∧ attempts m < MAX_TARGETED_HOPS ∧
     moved t = [set_attempts (u32_incr (attempts m)) m]) ∨
    (is_Some (to_worker m) ∧ attempts m >= MAX_TARGETED_HOPS ∧ moved t = [])
  else moved t = [].

#[local] Ltac fate := split_and!; first [done | by eexists].

Lemma lookup_target_spec target :
  wp (lookup_target target) (λ t o, settles_nothing t ∧ moved t = [] ∧ ∃ w, o = Done w).
Proof.
  unfold lookup_target, settles_nothing. simpl. intros [w|]; simpl; [by fate|].
  intros [n|]; simpl; [|by fate]. intros [w|]; by fate.
Qed.

Lemma ephemeral_spec tpc m :
  wp (create_ephemeral_worker tpc m) (λ t o,
    settles_nothing t ∧ ∃ res, o = Done res ∧ moved t = if is_ok res then [m] else []).
Proof.
  unfold create_ephemeral_worker, settles_nothing. simpl.
  intros [p|]; simpl; [|by fate]. intros. by fate.
Qed.

Lemma moved_app t t' : moved (t ++ t') ≡ₚ moved t ++ moved t'.
Proof. unfold moved. autorewrite with eb_trace. rewrite fmap_app. solve_Permutation. Qed.

Lemma moved_nil_app t t' : moved t = [] → moved (t ++ t') = moved t'.
Proof.
  unfold moved. autorewrite with eb_trace. rewrite fmap_app.
  intros [Hs Hp]%app_nil. by rewrite Hs, Hp.
Qed.

Lemma settles_nothing_app t t' :
  settles_nothing t → settles_nothing t' → settles_nothing (t ++ t').
Proof. intros (?&?&?) (?&?&?). unfold settles_nothing. split_and!; by trace_solve. Qed.

(** A part that settles nothing and moves nothing, before another. *)
Lemma fate_after t t' m ok :
  settles_nothing t → moved t = [] → settles_nothing t' ∧ claim_fate m t' ok →
  settles_nothing (t ++ t') ∧ claim_fate m (t ++ t') ok.
Proof.
  intros Hs Hm [Hs' Hf]. split; [by apply settles_nothing_app|].
  unfold claim_fate in *. by rewrite moved_nil_app.
Qed.

Definition fated (m : EMessage) (t : Trace) (o : outcome bool) : Prop :=
  ∃ ok, o = Done ok ∧ settles_nothing t ∧ claim_fate m t ok.

Lemma fated_after {A} (p : Prog A) (k : A → Prog bool) m :
  wp p (λ t o, settles_nothing t ∧ moved t = [] ∧ ∃ a, o = Done a) →
  (∀ a, wp (k a) (fated m)) → wp (bind p k) (fated m).
Proof.
  intros Hp Hk. eapply wp_seq; [exact Hp| |naive_solver].
  intros t a (Hs & Hm & _). eapply wp_mono, Hk. intros t' o (ok & -> & Hf).
  exists ok. split; [done|]. by apply fate_after.
Qed.

Lemma fated_call {X} (e : Eff X) (k : X → Prog bool) m :
  (∀ x, settles_nothing [Ev e x] ∧ moved [Ev e x] = []) →
  (∀ x, wp (k x) (fated m)) → wp (bind (call e) k) (fated m).
Proof. intros He Hk. apply fated_after; [|done]. simpl. intros x. destruct (He x). by fate. Qed.

Lemma fated_give_back m : wp (Ret (E := Eff) false) (fated m).
Proof. simpl. exists false. done. Qed.

(** The two ways to hand a message over. *)
Lemma push_fated p m m' :
  (∀ t, moved t = [m'] → claim_fate m t true) →
  wp (res <- call (ProducerSend p m') ;; Ret (is_ok res)) (fated m).
Proof.
  intros Hf. simpl. intros [u|e]; simpl.
  - exists true. split_and!; try done. by apply Hf.
  - exists false. done.
Qed.

Lemma spawn_fated m :
  wp (res <- create_ephemeral_worker (topic m) m ;; Ret (is_ok res)) (fated m).
Proof.
  eapply wp_seq; [apply ephemeral_spec| |naive_solver].
  intros t res (Hs & res' & [= <-] & Hm). simpl. rewrite app_nil_r.
  exists (is_ok res). split_and!; [done..|]. unfold claim_fate. rewrite Hm.
  destruct (is_ok res); [by left|done].
Qed.

Lemma dispatch_claimed_spec c : wp (dispatch_claimed c) (fated (cm_message c)).
Proof.
  unfold dispatch_claimed. set (m := cm_message c).
  apply fated_call; [done|]. intros [|]; [|apply fated_give_back]. simpl negb. cbv iota.
  apply fated_after.
  { destruct (to_worker m); [apply lookup_target_spec|]. simpl. intros w. by fate. }
  intros [w|]; [by apply push_fated; left|].
  destruct (to_worker m) as [target|] eqn:Htw; [|apply spawn_fated].
  case_decide as Hh.
  - exists true. split_and!; try done. right. right. by rewrite Htw.
  - apply fated_call; [done|]. intros [p|]; [|apply fated_give_back].
    apply push_fated. intros t Ht. right. left. rewrite Htw. split_and!; [done|lia|done].
Qed.

Lemma dispatch_batch_spec batch :
  wp (dispatch_batch batch) (λ t o,
    settles_nothing t ∧ ∃ a n, o = Done (a, n) ∧ a ++ n ≡ₚ cm_claim_id <$> batch).
Proof.
  induction batch as [|c batch IH]; cbn [dispatch_batch].
  { split; [done|]. by exists [], []. }
  eapply wp_seq; [apply dispatch_claimed_spec| |by intros t why (? & [=] & _)].
  intros t ok (ok' & _ & Ht & _).
  eapply wp_seq; [apply IH| |by intros t' why (_ & ? & ? & [=] & _)].
  intros t' an (Ht' & a & n & [= ->] & Han). cbn [wp]. rewrite app_nil_r.
  split; [by apply settles_nothing_app|]. simpl. destruct ok.
  - exists (cm_claim_id c :: a), n. split; [done|]. csimpl. by rewrite Han.
  - exists a, (cm_claim_id c :: n). split; [done|]. csimpl. by rewrite <- Han, Permutation_middle.
Qed.

Lemma ack_all_spec l :
  wp (for_each l (λ i, call (ClaimAck i) ;;; Ret tt)) (λ t o,
    o = Done tt ∧ acked t = l ∧ nacked t = [] ∧ claimed t = []).
Proof.
  induction l as [|i l IH]; simpl; [done|]. intros _. eapply wp_mono, IH.
  intros t o (-> & Ha & Hn & Hc). split_and!; [done|cbn; by rewrite Ha|done..].
Qed.

Lemma nack_all_spec l :
  wp (for_each l (λ i, call (ClaimNack i) ;;; Ret tt)) (λ t o,
    o = Done tt ∧ acked t = [] ∧ nacked t = l ∧ claimed t = []).
Proof.
  induction l as [|i l IH]; simpl; [done|]. intros _. eapply wp_mono, IH.
  intros t o (-> & Ha & Hn & Hc). split_and!; [done..|cbn; by rewrite Hn|done].
Qed.

(** One round of [recv] settles every claim it took exactly once, by an
    acknowledgement or by a negative acknowledgement, whatever the queues and
    tables answer. *)
Theorem recv_settles_each_claim n :
  wp (recv_round n) (λ t o,
    o = Done tt ∧ acked t ++ nacked t ≡ₚ cm_claim_id <$> claimed t).
Proof.
  unfold recv_round. cbn [call bind wp]. intros [batch|e]; [|by split; [|reflexivity]].
  destruct batch as [|c batch].
  { simpl. intros []. by split; [|reflexivity]. }
  set (l := c :: batch).
  eapply wp_seq; [apply dispatch_batch_spec| |by intros t why (_ & ? & ? & [=] & _)].
  intros t an (Ht & a & na & [= ->] & Han). cbn [fst snd].
  eapply wp_seq; [apply ack_all_spec| |by intros t1 why ([=] & _)].
  intros t1 [] (_ & Ha1 & Hn1 & Hc1). eapply wp_mono, nack_all_spec.
  intros t2 o (-> & Ha2 & Hn2 & Hc2). split; [done|]. destruct Ht as (Ha & Hn & Hc).
  change (Ev (ClaimBatch n) (Ok l) :: ?t) with ([Ev (ClaimBatch n) (Ok l)] ++ t).
  trace_solve. by rewrite !app_nil_r.
Qed.

(** C10. The fate of one claimed message in [recv]: it is acknowledged only
    when it was handed to exactly one queue or task, unchanged, or relayed
    once with one more attempt (a target that is not here), or when a
    targeted message used up its [MAX_TARGETED_HOPS]; it is given back only
    when it was handed to nobody. *)
Theorem recv_never_loses_a_claim c :
  wp (dispatch_claimed c) (λ t o, ∃ ok, o = Done ok ∧ claim_fate (cm_message c) t ok).
Proof.
  eapply wp_mono, dispatch_claimed_spec. intros t o (ok & -> & _ & Hf). eauto.
Qed.

(** ** The dispatcher of a topic *)

Section dispatcher.
Context (tpc : string) (producer : Producer) (node : option string).

(** Whom an untargeted message goes to. *)
Definition next_in_turn (d : Dispatcher) : option (string * Inbox) :=
  d_cached_workers d !! Z.to_nat (d_cursor d mod Z.of_nat (length (d_cached_workers d))).

(** The worker chosen for [m] from the workers of [d]. *)
Definition chosen (d : Dispatcher) (m : EMessage) (wi : string * Inbox) : Prop :=
  match to_worker m with
  | Some target => wi ∈ d_cached_workers d ∧ answers_to node target wi.1 = true
  | None => next_in_turn d = Some wi
  end.

(** What can happen to a claimed message; [d] is the refreshed dispatcher. *)
Inductive dispatched (d : Dispatcher) (m : EMessage) (i : string) (t : Trace) : Prop :=
| given_back :
    acked t = [] → nacked t = [i] → inboxed t = [] → attempted t = [] → dispatched d m i t
| delivered_to wi :
    chosen d m wi → acked t = [i] → nacked t = [] →
    inboxed t = [(wi.2, set_to_worker (Some wi.1) m)] → attempted t = [] → dispatched d m i t
| hops_used_up target :
    to_worker m = Some target →
    Forall (λ wi, answers_to node target wi.1 = false) (d_cached_workers d) →
    attempts m >= MAX_TARGETED_HOPS →
    acked t = [i] → nacked t = [] → inboxed t = [] → attempted t = [] → dispatched d m i t
| relayed_on target :
    to_worker m = Some target →
    Forall (λ wi, answers_to node target wi.1 = false) (d_cached_workers d) →
    attempts m < MAX_TARGETED_HOPS →
    acked t = [i] → nacked t = [] → inboxed t = [] →
    attempted t = [(Blocking, producer, set_attempts (u32_incr (attempts m)) m)] →
    dispatched d m i t.

Lemma position_Some {A} (f : A → bool) l i :
  position f l = Some i → ∃ x, l !! i = Some x ∧ f x = true.
Proof.
  revert i. induction l as [|x l IH]; intros i; simpl; [done|].
  destruct (f x) eqn:E; [intros [= <-]; eauto|].
  intros (j & Hj & ->)%fmap_Some. by apply IH.
Qed.

Lemma position_None {A} (f : A → bool) l :
  position f l = None → Forall (λ x, f x = false) l.
Proof.
  induction l as [|x l IH]; simpl; [constructor|]. destruct (f x) eqn:E; [done|].
  intros ?%fmap_None. constructor; auto.
Qed.

Lemma deliver_spec wi m i d0 d :
  chosen d0 m wi → wp (deliver wi m i d) (λ t o, ∃ d', o = Done d' ∧ dispatched d0 m i t ∧
    d_reclaimed d' = d_reclaimed d ∧ claimed t = []).
Proof.
  intros Hc. unfold deliver. cbn [call bind wp]. intros [u|e]; cbn [call bind wp].
  - intros r. exists d. split_and!; try done. by apply (delivered_to _ _ _ _ wi).
  - intros r []. exists (invalidate d). split_and!; try done. by apply given_back.
Qed.

(** The dispatcher state a message is dispatched with. *)
Lemma refresh_spec d :
  wp (refresh tpc d) (λ t o, ∃ d', o = Done d' ∧ d_reclaimed d' = d_reclaimed d ∧
    acked t = [] ∧ nacked t = [] ∧ inboxed t = [] ∧ attempted t = [] ∧ claimed t = []).
Proof.
  unfold refresh. cbn [call bind wp]. intros gen. case_decide; cbn [call bind wp].
  - intros names inboxes. by eexists.
  - by eexists.
Qed.

Lemma dispatched_after d m i t t' :
  acked t = [] → nacked t = [] → inboxed t = [] → attempted t = [] →
  dispatched d m i t' → dispatched d m i (t ++ t').
Proof.
  intros Ha Hn Hi Hat [? ? ? ?|wi ? ? ? ? ?|tg ? ? ? ? ? ? ?|tg ? ? ? ? ? ? ?].
  - apply given_back; by trace_solve.
  - apply (delivered_to _ _ _ _ wi); [done|by trace_solve..].
  - apply (hops_used_up _ _ _ _ tg); [done..|by trace_solve|by trace_solve|by trace_solve|by trace_solve].
  - apply (relayed_on _ _ _ _ tg); [done..|by trace_solve|by trace_solve|by trace_solve|by trace_solve].
Qed.

Lemma choose_spec m i d :
  wp (match d_cached_workers d with
      | [] => call (ClaimNack i) ;;; call (Sleep (from_millis 100)) ;;; Ret d
      | first :: _ =>
          let cached := d_cached_workers d in
          let local_match :=
            to_worker m ≫= (λ target, position (λ wi, answers_to node target wi.1) cached) in
          match local_match with
          | Some j => deliver (default first (cached !! j)) m i d
          | None =>
              match to_worker m with
              | Some _ =>
                  if decide (attempts m >= MAX_TARGETED_HOPS) then call (ClaimAck i) ;;; Ret d
                  else
                    call (ClaimAck i) ;;;
                    call (ProducerSend producer (set_attempts (u32_incr (attempts m)) m)) ;;;
                    Ret d
              | None =>
                  let j := Z.to_nat (d_cursor d mod Z.of_nat (length cached)) in
                  deliver (default first (cached !! j)) m i (bump_cursor d)
              end
          end
      end)
    (λ t o, ∃ d', o = Done d' ∧ dispatched d m i t ∧ d_reclaimed d' = d_reclaimed d ∧
      claimed t = []).
Proof.
  destruct (d_cached_workers d) as [|first rest] eqn:Hcw.
  { cbn [call bind wp]. intros r []. exists d. split_and!; try done. by apply given_back. }
  cbv zeta. destruct (to_worker m) as [target|] eqn:Htw.
  - change (Some target ≫= ?f) with (f target). cbv beta.
    destruct (position _ (first :: rest)) as [j|] eqn:Hpos.
    + apply position_Some in Hpos as (wi & Hj & Hans). rewrite Hj. simpl default.
      apply deliver_spec. unfold chosen. rewrite Htw, Hcw. split; [|done].
      by eapply list_elem_of_lookup_2.
    + apply position_None in Hpos. rewrite <- Hcw in Hpos.
      case_decide; cbn [call bind wp]; intros.
      * exists d. split_and!; try done. by apply (hops_used_up _ _ _ _ target).
      * exists d. split_and!; try done. apply (relayed_on _ _ _ _ target); try done. lia.
  - change (None ≫= ?f) with (@None nat). cbv iota.
    destruct ((first :: rest) !! _) as [wi|] eqn:Hj; simpl default.
    + eapply wp_mono; [|apply deliver_spec; unfold chosen, next_in_turn; rewrite Htw, Hcw; exact Hj].
      intros t o (d' & -> & Hd & Hr & Hc). eauto.
    + exfalso. apply lookup_ge_None in Hj.
      pose proof (Z.mod_pos_bound (d_cursor d) (Z.of_nat (length (first :: rest)))).
      simpl in *. lia.
Qed.

(** What the dispatcher of a topic does with a claimed message: either
    the claim is given back and the message went nowhere; or the claim is
    acknowledged after the message was put, stamped with the worker's name,
    into exactly one local inbox, that of a worker the stamp answers to, or
    of the worker in turn when there was no stamp; or no local worker answers
    to the stamp, and the message is relayed with one more attempt while it
    has fewer than [MAX_TARGETED_HOPS], and acknowledged and dropped when it
    has not. *)
Theorem dispatcher_honours_targets m i d :
  wp (dispatch_one tpc producer node m i d) (λ t o,
    ∃ d1 d', o = Done d' ∧ dispatched d1 m i t).
Proof.
  unfold dispatch_one. eapply wp_seq; [apply refresh_spec| |by intros t why (? & [=] & _)].
  intros t d1 (d1' & [= <-] & Hr & Ha & Hn & Hi & Hat & Hc).
  eapply wp_mono, choose_spec. intros t' o (d' & -> & Hd & _).
  exists d1, d'. split; [done|]. by apply dispatched_after.
Qed.

Lemma dispatch_one_claims m i d :
  wp (dispatch_one tpc producer node m i d) (λ t o,
    ∃ d', o = Done d' ∧ acked t ++ nacked t = [i] ∧ d_reclaimed d' = d_reclaimed d ∧
      claimed t = []).
Proof.
  unfold dispatch_one. eapply wp_seq; [apply refresh_spec| |by intros t why (? & [=] & _)].
  intros t d1 (d1' & [= <-] & Hr & Ha & Hn & Hi & Hat & Hc).
  eapply wp_mono, choose_spec. intros t' o (d' & -> & Hd & Hr' & Hc').
  exists d'. split_and!; [done| |congruence|by trace_solve].
  destruct Hd; by trace_solve.
Qed.

Lemma reap_spec d :
  wp (reap d) (λ t o, ∃ d', o = Done d' ∧ acked t = [] ∧ nacked t = [] ∧
    (d_reclaimed d').*2 = (d_reclaimed d).*2 ++ (cm_claim_id <$> claimed t)).
Proof.
  unfold reap. cbn [call bind wp]. intros el. case_decide; cbn [call bind wp].
  - intros [] r. eexists. split_and!; [done..|]. destruct r as [es|e]; simpl.
    + rewrite fmap_app, <- list_fmap_compose. cbn. by rewrite app_nil_r.
    + by rewrite app_nil_r.
  - eexists. split_and!; [done..|]. by rewrite app_nil_r.
Qed.

(** C11. The dispatcher loses track of no claim: after an iteration, the
    claims it settled and the reclaimed ones still waiting are exactly those
    that were waiting before and those it took from the consumer. *)
Theorem dispatcher_accounts_for_claims d :
  wp (dispatch_iter tpc producer node d) (λ t o,
    ∃ d', o = Done d' ∧
      acked t ++ nacked t ++ (d_reclaimed d').*2 =
      (d_reclaimed d).*2 ++ (cm_claim_id <$> claimed t)).
Proof.
  unfold dispatch_iter. eapply wp_seq; [apply reap_spec| |by intros t why (? & [=] & _)].
  intros t d1 (d1' & [= <-] & Ha & Hn & Hr).
  destruct (d_reclaimed d1) as [|[m i] rest] eqn:Hd1.
  - cbn [call bind wp]. intros [[c|]|e].
    + eapply wp_mono, dispatch_one_claims. intros t' o (d' & -> & Hs & Hr' & Hc).
      exists d'. split; [done|]. rewrite Hr', Hd1. change (Ev Claim ?x :: ?l) with ([Ev Claim x] ++ l).
      trace_solve. rewrite app_nil_r, Hs, fmap_app, app_assoc, <- Hr. done.
    + cbn [call bind wp]. intros []. exists d1. split; [done|]. rewrite Hd1.
      trace_solve. by rewrite fmap_app, app_assoc, <- Hr.
    + cbn [call bind wp]. intros []. exists d1. split; [done|]. rewrite Hd1.
      trace_solve. by rewrite fmap_app, app_assoc, <- Hr.
  - eapply wp_mono, dispatch_one_claims. intros t' o (d' & -> & Hs & Hr' & Hc).
    exists d'. split; [done|]. rewrite Hr'. trace_solve.
    rewrite app_assoc, Hs, app_nil_r, <- Hr. done.
Qed.
End dispatcher.

(** ** Relays *)

(** Workers the table answered with. *)
Definition ev_found (v : ev Eff) : list Worker :=
  match v with
  | Ev e x =>
      match e in Eff X return X → list Worker with
      | RouterLookupWorker _ => λ o, match o with Some w => [w] | None => [] end
      | _ => λ _, []
      end x
  end.
Definition found (t : Trace) : list Worker := t ≫= ev_found.

(** A relay of a message for another worker: by a worker that was handed it,
    by the dispatcher of a topic, and by the main loop when the target is in
    none of its tables.  [m'] is what goes to a queue. *)
Inductive relay (m m' : EMessage) : Prop :=
  | relay_by_worker w t :
      exec (route_targeted w m) t (Done tt) → (sent t).*2 = [m'] → relay m m'
  | relay_by_dispatcher tpc producer node i d t d' :
      exec (dispatch_one tpc producer node m i d) t (Done d') → (sent t).*2 = [m'] → relay m m'
  | relay_by_main_loop c target t ok :
      cm_message c = m → to_worker m = Some target →
      exec (dispatch_claimed c) t (Done ok) → found t = [] → (sent t).*2 = [m'] → relay m m'.

Definition one_more_hop (m m' : EMessage) : Prop :=
  attempts m < MAX_TARGETED_HOPS ∧ m' = set_attempts (u32_incr (attempts m)) m.

Lemma sent_of_one t k p m : attempted t = [(k, p, m)] → sent t = [] ∨ sent t = [(p, m)].
Proof.
  induction t as [|[X e x] t IH]; [done|].
  change (ev_attempted (Ev e x) ++ attempted t = [(k, p, m)] →
    ev_sent (Ev e x) ++ sent t = [] ∨ ev_sent (Ev e x) ++ sent t = [(p, m)]).
  destruct e; simpl; try apply IH; intros Ht; simplify_eq;
    rewrite sent_attempted by done; destruct (is_ok x); auto.
Qed.

Lemma worker_hop w m t m' :
  exec (route_targeted w m) t (Done tt) → (sent t).*2 = [m'] → one_more_hop m m'.
Proof.
  unfold route_targeted. case_decide; simpl; [by intros [-> _]|].
  intros (x & t' & -> & -> & _) Hs. split; [lia|]. destruct x; cbn in Hs; by simplify_eq.
Qed.

Lemma dispatcher_hop tpc producer node m i d t d' m' :
  exec (dispatch_one tpc producer node m i d) t (Done d') → (sent t).*2 = [m'] →
  one_more_hop m m'.
Proof.
  intros He Hs.
  destruct (proj1 (wp_exec _ _) (dispatcher_honours_targets tpc producer node m i d) _ _ He)
    as (d1 & d2 & _ & Hd).
  destruct Hd as [_ _ _ Ha|? _ _ _ _ Ha|? _ _ _ _ _ _ Ha|? _ _ Hlt _ _ _ Ha];
    [by rewrite sent_attempted in Hs by done..|].
  apply sent_of_one in Ha as [Ha|Ha]; rewrite Ha in Hs; [done|]. by injection Hs as <-.
Qed.

Lemma main_loop_hop c target t ok m' :
  to_worker (cm_message c) = Some target → exec (dispatch_claimed c) t (Done ok) →
  found t = [] → (sent t).*2 = [m'] → one_more_hop (cm_message c) m'.
Proof.
  intros Htw He.
  revert t ok He. enough (wp (dispatch_claimed c) (λ t _,
    found t = [] → (sent t).*2 = [m'] → one_more_hop (cm_message c) m')) as Hw
    by (intros t ok He; exact (proj1 (wp_exec _ _) Hw _ _ He)).
  unfold dispatch_claimed, lookup_target, one_more_hop. rewrite Htw. simpl.
  intros [|]; simpl; [|done]. intros [w|]; simpl; [done|].
  intros [n|]; simpl; [intros [w|]; simpl; [done|]|];
    (case_decide; simpl; [done|]; intros [p|]; simpl; [|done]; intros [u|e]; cbn; [|done];
     intros _ [= <-]; split; [lia|done]).
Qed.

Lemma relay_once m m' : relay m m' → one_more_hop m m'.
Proof.
  intros [w t He Hs|tpc pr node i d t d' He Hs|c target t ok <- Htw He Hf Hs].
  - by eapply worker_hop.
  - by eapply dispatcher_hop.
  - by eapply main_loop_hop.
Qed.

(** C31. A targeted message whose target is gone does not circulate for ever:
    whatever workers, dispatchers and main loops relay it, in whatever order,
    after [k] relays it is the same message with [k] more attempts, and it was
    relayed at most [MAX_TARGETED_HOPS] times. *)
Theorem relay_hops_bounded m k m' :
  0 ≤ attempts m ≤ MAX_TARGETED_HOPS →
  nsteps relay k m m' →
  m' = set_attempts (attempts m + Z.of_nat k) m ∧
  attempts m + Z.of_nat k ≤ MAX_TARGETED_HOPS.
Proof.
  intros Ha. revert m'. induction k as [|k IH]; intros m' Hst.
  - inversion Hst; subst. rewrite Z.add_0_r. split; [by destruct m'|lia].
  - apply nsteps_inv_r in Hst as (m1 & Hk & Hstep).
    destruct (IH m1 Hk) as [-> Hle]. apply relay_once in Hstep as [Hlt ->].
    simpl in *. unfold MAX_TARGETED_HOPS in *.
    rewrite u32_incr_small by (unfold u32_modulus; lia).
    replace (attempts m + Z.of_nat (S k)) with (attempts m + Z.of_nat k + 1) by lia.
    split; [done|lia].
Qed.

(** ** Round robin *)

Lemma rotation_perm (c : Z) (n : nat) :
  0 ≤ c → (λ k, Z.to_nat ((c + Z.of_nat k) mod Z.of_nat n)) <$> seq 0 n ≡ₚ seq 0 n.
Proof.
  intros Hc. apply submseteq_length_Permutation; [|by rewrite length_fmap].
  apply NoDup_submseteq.
  - apply NoDup_fmap_2_strong; [|apply NoDup_seq]. intros i j Hi Hj Hij.
    apply elem_of_seq in Hi, Hj.
    assert (0 < Z.of_nat n) as Hn by lia.
    apply Z2Nat.inj in Hij; try (apply Z.mod_pos_bound; lia).
    assert ((c + Z.of_nat i) - (c + Z.of_nat j) =
      Z.of_nat n * ((c + Z.of_nat i) / Z.of_nat n - (c + Z.of_nat j) / Z.of_nat n)) as Hdiff.
    { rewrite (Z.div_mod (c + Z.of_nat i) (Z.of_nat n)) at 1 by lia.
      rewrite (Z.div_mod (c + Z.of_nat j) (Z.of_nat n)) at 1 by lia. lia. }
    set (q := (c + Z.of_nat i) / Z.of_nat n - (c + Z.of_nat j) / Z.of_nat n) in Hdiff.
    assert (q = 0) as Hq by nia. lia.
  - intros x (k & -> & Hk)%list_elem_of_fmap. apply elem_of_seq in Hk. apply elem_of_seq.
    pose proof (Z.mod_pos_bound (c + Z.of_nat k) (Z.of_nat n)). lia.
Qed.

Lemma lookup_seq_all {A} (l : list A) : (λ i, l !! i) <$> seq 0 (length l) = Some <$> l.
Proof.
  apply list_eq. intros i. rewrite !list_lookup_fmap.
  destruct (decide (i < length l)%nat) as [Hi|Hi].
  - rewrite lookup_seq_lt by done. simpl. by destruct (lookup_lt_is_Some_2 l i Hi) as [x ->].
  - rewrite lookup_seq_ge by lia. by rewrite lookup_ge_None_2 by lia.
Qed.

Lemma iter_bump k d :
  0 ≤ d_cursor d → d_cursor d + Z.of_nat k < u64_modulus →
  d_cursor (Nat.iter k bump_cursor d) = d_cursor d + Z.of_nat k ∧
  d_cached_workers (Nat.iter k bump_cursor d) = d_cached_workers d.
Proof.
  intros H0. induction k as [|k IH]; intros Hk; [split; simpl; lia || done|].
  destruct IH as [IH1 IH2]; [lia|]. cbn [Nat.iter]. simpl. rewrite IH1, IH2.
  rewrite u64_incr_small by lia. split; [lia|done].
Qed.

Lemma Permutation_Some {A} (l k : list A) : Some <$> l ≡ₚ Some <$> k → l ≡ₚ k.
Proof.
  assert (∀ l : list A, omap (λ x, x) (Some <$> l) = l) as Hid.
  { clear. induction l as [|x l IH]; csimpl; by rewrite ?IH. }
  intros Hp%(omap_Permutation (λ x, x)). by rewrite !Hid in Hp.
Qed.

(** As many turns as there are workers visit each once. *)
Lemma turns_visit_all d :
  let n := length (d_cached_workers d) in
  0 ≤ d_cursor d → d_cursor d + Z.of_nat n < u64_modulus →
  (λ k, next_in_turn (Nat.iter k bump_cursor d)) <$> seq 0 n ≡ₚ Some <$> d_cached_workers d.
Proof.
  intros n H0 Hn.
  trans ((λ i, d_cached_workers d !! i) <$>
    ((λ k, Z.to_nat ((d_cursor d + Z.of_nat k) mod Z.of_nat n)) <$> seq 0 n)).
  - rewrite <- list_fmap_compose. apply reflexive_eq, list_fmap_ext. intros i k Hk.
    apply lookup_seq in Hk as [-> Hi]. destruct (iter_bump i d) as [Hc Hw]; [lia..|].
    unfold next_in_turn, compose. cbn [Nat.add]. by rewrite Hc, Hw.
  - rewrite rotation_perm by done. unfold n. by rewrite lookup_seq_all.
Qed.

(** The generations a dispatcher read. *)
Definition ev_generation (v : ev Eff) : list Z :=
  match v with
  | Ev e x =>
      match e in Eff X return X → list Z with LoadGeneration => λ g, [g] | _ => λ _, [] end x
  end.
Definition generations (t : Trace) : list Z := t ≫= ev_generation.

(** A run of dispatches in which the table of workers stays as the dispatcher
    knows it and no inbox refuses: the untargeted messages, in the order they
    are put into inboxes, with targeted ones in between that are delivered,
    relayed or dropped. *)
Inductive turns (tpc : string) (producer : Producer) (node : option string) :
    Dispatcher → list (Inbox * EMessage) → Dispatcher → Prop :=
  | turns_done d : turns tpc producer node d [] d
  | turns_untargeted m i d t d1 x l d2 :
      to_worker m = None →
      exec (dispatch_one tpc producer node m i d) t (Done d1) →
      generations t = [d_seen_generation d] → inboxed t = [x] →
      turns tpc producer node d1 l d2 → turns tpc producer node d (x :: l) d2
  | turns_targeted m i d t d1 l d2 :
      is_Some (to_worker m) →
      exec (dispatch_one tpc producer node m i d) t (Done d1) →
      generations t = [d_seen_generation d] → nacked t = [] →
      turns tpc producer node d1 l d2 → turns tpc producer node d l d2.

Lemma deliver_moves wi m i d :
  wp (deliver wi m i d) (λ t o, ∀ d1, o = Done d1 →
    (nacked t = [] ∨ inboxed t ≠ [] →
     inboxed t = [(wi.2, set_to_worker (Some wi.1) m)] ∧ d1 = d)).
Proof.
  unfold deliver. simpl. intros [u|e]; simpl; [by intros _ d1 [= <-] _|].
  intros _ [] d1 [= <-]. cbn. naive_solver.
Qed.

Lemma turn_moves tpc producer node m i d t d1 :
  d_cached_workers d ≠ [] →
  exec (dispatch_one tpc producer node m i d) t (Done d1) →
  generations t = [d_seen_generation d] →
  match to_worker m with
  | Some _ => nacked t = [] → d1 = d
  | None => inboxed t ≠ [] → ∃ wi, next_in_turn d = Some wi ∧ d1 = bump_cursor d ∧
      inboxed t = [(wi.2, set_to_worker (Some wi.1) m)]
  end.
Proof.
  intros Hne He. enough (wp (dispatch_one tpc producer node m i d) (λ t o,
    ∀ d1, o = Done d1 → generations t = [d_seen_generation d] →
    match to_worker m with
    | Some _ => nacked t = [] → d1 = d
    | None => inboxed t ≠ [] → ∃ wi, next_in_turn d = Some wi ∧ d1 = bump_cursor d ∧
        inboxed t = [(wi.2, set_to_worker (Some wi.1) m)]
    end)) as Hw by exact (proj1 (wp_exec _ _) Hw _ _ He d1 eq_refl).
  clear He t d1. unfold dispatch_one, refresh. cbn [bind call wp]. intros gen.
  destruct (decide (gen = d_seen_generation d)) as [->|Hg].
  2:{ apply wp_trivial. intros t o d1 _. cbn. intros [= Heq _]. by destruct Hg. }
  rewrite decide_False by tauto. cbn [bind wp].
  destruct (d_cached_workers d) as [|first rest] eqn:Hcw; [done|].
  assert (∀ wi d0, wp (deliver wi m i d0) (λ t o, ∀ d1, o = Done d1 →
    (nacked t = [] ∨ inboxed t ≠ [] →
     inboxed t = [(wi.2, set_to_worker (Some wi.1) m)] ∧ d1 = d0))) as Hdel
    by (intros; apply deliver_moves).
  cbv zeta. destruct (to_worker m) as [target|] eqn:Htw.
  - change (Some target ≫= ?f) with (f target). cbv beta.
    destruct (position _ (first :: rest)) as [j|].
    + eapply wp_mono, Hdel. intros t o Ho d1 -> _ Hn. destruct (Ho d1 eq_refl); auto.
    + case_decide; cbn [bind call wp]; intros; by simplify_eq.
  - change (None ≫= ?f) with (@None nat). cbv iota.
    assert (∃ wi, next_in_turn d = Some wi ∧ default first
      ((first :: rest) !! Z.to_nat (d_cursor d mod Z.of_nat (length (first :: rest)))) = wi)
      as (wi & Hwi & ->).
    { unfold next_in_turn. rewrite Hcw. destruct ((first :: rest) !! _) as [wi|] eqn:Hj; [by eexists|].
      exfalso. apply lookup_ge_None in Hj.
      pose proof (Z.mod_pos_bound (d_cursor d) (Z.of_nat (length (first :: rest)))).
      simpl in *. lia. }
    eapply wp_mono, Hdel. intros t o Ho d1 -> _ Hn. exists wi. split; [done|].
    destruct (Ho d1 eq_refl); auto.
Qed.

Lemma turns_in_order tpc producer node d l d' :
  d_cached_workers d ≠ [] → turns tpc producer node d l d' →
  (λ x, Some (to_worker x.2, x.1)) <$> l =
    (λ k, (λ wi, (Some wi.1, wi.2)) <$> next_in_turn (Nat.iter k bump_cursor d)) <$> seq 0 (length l).
Proof.
  intros Hne Ht. induction Ht as [d|m i d t d1 x l d2 Htw He Hg Hi Ht IH
    |m i d t d1 l d2 Htw He Hg Hn Ht IH]; [done|..].
  - pose proof (turn_moves _ _ _ _ _ _ _ _ Hne He Hg) as Hm. rewrite Htw, Hi in Hm.
    destruct Hm as (wi & Hwi & -> & [= ->]); [done|]. cbn [length seq]. csimpl. rewrite Hwi.
    f_equal. rewrite IH by done. rewrite <- fmap_S_seq, <- list_fmap_compose.
    apply list_fmap_ext. intros _ k _. unfold compose. by rewrite Nat.iter_succ_r.
  - pose proof (turn_moves _ _ _ _ _ _ _ _ Hne He Hg) as Hm. destruct Htw as [tg Htw].
    rewrite Htw in Hm. rewrite Hm in * by done. by apply IH.
Qed.

(** C32. The round robin is fair: while the table of workers stays the same, no
    inbox refuses and the 64-bit cursor does not wrap, as many consecutive
    untargeted messages as there are workers are put into the inbox of each
    worker exactly once, stamped with its name; targeted messages in between
    do not change that. *)
Theorem round_robin_fair tpc producer node d l d' :
  let n := length (d_cached_workers d) in
  0 ≤ d_cursor d → d_cursor d + Z.of_nat n < u64_modulus →
  turns tpc producer node d l d' → length l = n →
  (λ x, (to_worker x.2, x.1)) <$> l ≡ₚ (λ wi, (Some wi.1, wi.2)) <$> d_cached_workers d.
Proof.
  intros n H0 Hn Ht Hl. destruct (decide (d_cached_workers d = [])) as [E|Hne].
  { unfold n in Hl. rewrite E in Hl |- *. by apply nil_length_inv in Hl as ->. }
  apply Permutation_Some.
  rewrite <- !list_fmap_compose. unfold compose.
  rewrite (turns_in_order _ _ _ _ _ _ Hne Ht), Hl.
  pose proof (turns_visit_all d H0 Hn) as Hv.
  apply (fmap_Permutation (fmap (λ wi, (Some wi.1, wi.2)))) in Hv.
  by rewrite <- !list_fmap_compose in Hv.
Qed.

(** ** The hypotheses can hold *)

Open Scope string_scope.

Definition demo_dispatcher : Dispatcher :=
  {| d_cursor := 7; d_seen_generation := 0;
     d_cached_workers := [("n1@a", {| ib_addr := 1 |}); ("n1@b", {| ib_addr := 2 |});
                          ("n1@c", {| ib_addr := 3 |})];
     d_reclaimed := [] |}.

(** A dispatch on the demo node. *)
Definition demo_dispatch (m : EMessage) (d : Dispatcher) : Prog Dispatcher :=
  dispatch_one "orders" the_producer (Some "n1") m "claim" d.
Definition demo_dispatch_trace (m : EMessage) (d : Dispatcher) : Trace :=
  run_trace serve (demo_dispatch m d) (world AckOk Idle).

Lemma demo_dispatch_exec m d d' :
  run_outcome serve (demo_dispatch m d) (world AckOk Idle) = Done d' →
  exec (demo_dispatch m d) (demo_dispatch_trace m d) (Done d').
Proof. intros <-. apply exec_run. Qed.

(** Three untargeted messages with one for a worker of the node in between. *)
Lemma round_robin_fair_witness :
  let m := demo_message Standard None in
  let to n := set_to_worker (Some n) m in
  let l := [({| ib_addr := 2 |}, to "n1@b"); ({| ib_addr := 3 |}, to "n1@c");
            ({| ib_addr := 1 |}, to "n1@a")] in
  (λ x, (to_worker x.2, x.1)) <$> l ≡ₚ
  (λ wi, (Some wi.1, wi.2)) <$> d_cached_workers demo_dispatcher.
Proof.
  intros m to l.
  apply (round_robin_fair "orders" the_producer (Some "n1") demo_dispatcher l
    (Nat.iter 3 bump_cursor demo_dispatcher)); [vm_compute; congruence..| |reflexivity].
  apply (turns_untargeted _ _ _ m "claim" _ (demo_dispatch_trace m demo_dispatcher)
    (bump_cursor demo_dispatcher)); [reflexivity|apply demo_dispatch_exec|..];
    [vm_compute; reflexivity..|].
  apply (turns_targeted _ _ _ (demo_message Standard (Some "c")) "claim" _
    (demo_dispatch_trace (demo_message Standard (Some "c")) (bump_cursor demo_dispatcher))
    (bump_cursor demo_dispatcher)); [by eexists|apply demo_dispatch_exec|..];
    [vm_compute; reflexivity..|].
  apply (turns_untargeted _ _ _ m "claim" _
    (demo_dispatch_trace m (bump_cursor demo_dispatcher))
    (Nat.iter 2 bump_cursor demo_dispatcher)); [reflexivity|apply demo_dispatch_exec|..];
    [vm_compute; reflexivity..|].
  apply (turns_untargeted _ _ _ m "claim" _
    (demo_dispatch_trace m (Nat.iter 2 bump_cursor demo_dispatcher))
    (Nat.iter 3 bump_cursor demo_dispatcher)); [reflexivity|apply demo_dispatch_exec|..];
    [vm_compute; reflexivity..|].
  apply turns_done.
Defined.

(** A worker, a dispatcher and a main loop pass on a message for a worker that
    is gone. *)
Lemma relay_hops_bounded_witness :
  let m := demo_message Standard (Some "gone") in
  let m' := set_attempts 3 m in
  m' = set_attempts (attempts m + Z.of_nat 3) m ∧
  (attempts m + Z.of_nat 3 ≤ MAX_TARGETED_HOPS)%Z.
Proof.
  intros m m'. apply (relay_hops_bounded m 3 m'); [unfold MAX_TARGETED_HOPS; simpl; lia|].
  apply nsteps_l with (set_attempts 1 m).
  { apply (relay_by_worker _ _ (demo_worker "orders")
      (run_trace serve (route_targeted (demo_worker "orders") m) (world AckOk Idle)));
      [apply exec_run|vm_compute; reflexivity]. }
  apply nsteps_l with (set_attempts 2 m).
  { eapply (relay_by_dispatcher _ _ "orders" the_producer (Some "n1") "claim" demo_dispatcher);
      [apply (demo_dispatch_exec (set_attempts 1 m) demo_dispatcher demo_dispatcher)|];
      vm_compute; reflexivity. }
  apply nsteps_once.
  set (c := {| cm_message := set_attempts 2 m; cm_claim_id := "claim"; cm_claimed_at := 0 |}).
  eapply (relay_by_main_loop _ _ c "gone"
    (run_trace serve (dispatch_claimed c) (world AckOk Idle)) true);
    [reflexivity|reflexivity| |vm_compute; reflexivity|vm_compute; reflexivity].
  exact (exec_run serve (dispatch_claimed c) (world AckOk Idle)).
Defined.

Close Scope string_scope.
