(* ===== verification/Node.v ===== *)
(** * A topic of a node, as it runs

    The pieces put together: the queue of one topic, its dispatcher
    ([Dispatch]), the local inboxes and the workers of the topic ([Worker]),
    as interleaved tasks ([Interleave]) over the shared state of the node.
    Producers anywhere send to the queue, the tables of the router change,
    workers are created, shut down and removed, at any moment.

    The shared state has a history of what went where, which no code reads:
    the messages the queue accepted, those whose claim was acknowledged,
    those put into inboxes and those the workers received. *)
From S2P Require Import Prelude Prog Interleave Errors Message Codec Runtime Topic Worker Queues QueueTheorems Router Dispatch.

Section node.
Context {Ch : Type} `{ChannelLaws Ch} `{!MessageQueue Ch}.
Context `{Bincode WalSyncMessage} `{Bincode AuditRecord} `{Bincode ShutdownAck}.

(** The topic, the producer of its queue, the global producer, which routes by
    topic, the name of the node and the capacity of an inbox. *)
Context (tpc : string) (tp global : Producer) (node : option string) (capacity : nat).

(** ** The shared state *)

Record NodeState : Type := {
  n_queue : QState Ch;
  n_router : ConsumerRouter;
  n_inboxes : gmap positive Ch;
  n_external : list EMessage;
  n_entered : list EMessage;
  n_settled : list EMessage;
  n_inboxed : list EMessage;
  n_received : list EMessage;
  n_lost : list EMessage
}.

Definition node_start (q : Ch) (r : ConsumerRouter) : NodeState :=
  {| n_queue := {| q_chan := q; q_pending := ∅ |}; n_router := r; n_inboxes := ∅;
     n_external := []; n_entered := []; n_settled := []; n_inboxed := []; n_received := [];
     n_lost := [] |}.

Definition with_queue q (s : NodeState) : NodeState :=
  {| n_queue := q; n_router := n_router s; n_inboxes := n_inboxes s;
     n_external := n_external s; n_entered := n_entered s; n_settled := n_settled s;
     n_inboxed := n_inboxed s; n_received := n_received s; n_lost := n_lost s |}.
Definition with_tables r (s : NodeState) : NodeState :=
  {| n_queue := n_queue s; n_router := r; n_inboxes := n_inboxes s;
     n_external := n_external s; n_entered := n_entered s; n_settled := n_settled s;
     n_inboxed := n_inboxed s; n_received := n_received s; n_lost := n_lost s |}.
Definition with_inboxes b (s : NodeState) : NodeState :=
  {| n_queue := n_queue s; n_router := n_router s; n_inboxes := b;
     n_external := n_external s; n_entered := n_entered s; n_settled := n_settled s;
     n_inboxed := n_inboxed s; n_received := n_received s; n_lost := n_lost s |}.
Definition note_entered ext ms (s : NodeState) : NodeState :=
  {| n_queue := n_queue s; n_router := n_router s; n_inboxes := n_inboxes s;
     n_external := n_external s ++ ext; n_entered := n_entered s ++ ms; n_settled := n_settled s;
     n_inboxed := n_inboxed s; n_received := n_received s; n_lost := n_lost s |}.
Definition note_settled ms (s : NodeState) : NodeState :=
  {| n_queue := n_queue s; n_router := n_router s; n_inboxes := n_inboxes s;
     n_external := n_external s; n_entered := n_entered s; n_settled := n_settled s ++ ms;
     n_inboxed := n_inboxed s; n_received := n_received s; n_lost := n_lost s |}.
Definition note_inboxed ms (s : NodeState) : NodeState :=
  {| n_queue := n_queue s; n_router := n_router s; n_inboxes := n_inboxes s;
     n_external := n_external s; n_entered := n_entered s; n_settled := n_settled s;
     n_inboxed := n_inboxed s ++ ms; n_received := n_received s; n_lost := n_lost s |}.
Definition note_taken got lost (s : NodeState) : NodeState :=
  {| n_queue := n_queue s; n_router := n_router s; n_inboxes := n_inboxes s;
     n_external := n_external s; n_entered := n_entered s; n_settled := n_settled s;
     n_inboxed := n_inboxed s; n_received := n_received s ++ got; n_lost := n_lost s ++ lost |}.

(** ** What the effects do *)

(** A producer whose messages reach the queue of the topic. *)
Definition enters (p : Producer) (m : EMessage) : Prop :=
  p = tp ∨ (p = global ∧ topic m = tpc).
#[global] Instance enters_dec p m : Decision (enters p m).
Proof. unfold enters. apply _. Defined.

Definition pushed (op : QState Ch → poll (Res unit) * QState Ch) (m : EMessage) (s : NodeState)
    (x : Res unit) (s' : NodeState) : Prop :=
  ∃ q', op (n_queue s) = (Ready x, q') ∧
        s' = note_entered [] (if is_ok x then [m] else []) (with_queue q' s).

(** [mpsc::Sender::try_send]; the channel is closed once the inbox is gone. *)
Definition inbox_put (b : Inbox) (m : EMessage) (s : NodeState) (x : result unit string)
    (s' : NodeState) : Prop :=
  match n_inboxes s !! ib_addr b with
  | None => is_ok x = false ∧ s' = s
  | Some c =>
      match ch_send m c with
      | Sent c' => x = Ok tt ∧
          s' = note_inboxed [m] (with_inboxes (<[ib_addr b := c']> (n_inboxes s)) s)
      | _ => is_ok x = false ∧ s' = s
      end
  end.

(** The effects on the queue of the topic, the inboxes and the tables; the
    others may be answered in any way.  An in-memory queue has no stale
    claims ([claim_stale] is the default of the trait). *)
Definition node_eff (X : Type) (e : Eff X) (s : NodeState) : X → NodeState → Prop :=
  match e in Eff X return X → NodeState → Prop with
  | Claim => λ x s', ∃ sup q',
      q_pending (n_queue s) !! (sup 0%nat).1 = None ∧
      claim sup (n_queue s) = (Ready x, q') ∧ s' = with_queue q' s
  | ClaimAck c => λ x s', ∃ q',
      ack c (n_queue s) = (Ready x, q') ∧
      s' = note_settled (option_list (q_pending (n_queue s) !! c)) (with_queue q' s)
  | ClaimNack c => λ x s', ∃ q', nack c (n_queue s) = (Ready x, q') ∧ s' = with_queue q' s
  | ClaimStale _ => λ x s', x = Ok [] ∧ s' = s
  | InboxTrySend b m => λ x s', inbox_put b m s x s'
  | ProducerSend p m => λ x s',
      if decide (enters p m) then pushed (send m) m s x s' else s' = s
  | ProducerTrySend p m => λ x s',
      if decide (enters p m) then pushed (try_send m) m s x s' else s' = s
  | ProducerSendTimeout p m _ => λ x s',
      if decide (enters p m) then ∃ over, pushed (send_timeout m over) m s x s' else s' = s
  | LoadGeneration => λ x s', x = dispatch_generation (n_router s) ∧ s' = s
  | DispatchWorkers t => λ x s', x = dispatch_workers (n_router s) !! t ∧ s' = s
  | LocalInboxes => λ x s', x = local_inboxes (n_router s) ∧ s' = s
  | _ => λ _ s', s' = s
  end.

(** ** The tasks *)

(** An iteration of the dispatcher; a worker at the head of its loop, with a
    message, and in the [shutdown_notify] branch. *)
Inductive Round : Type :=
| RDispatch (d : Dispatcher)
| RIdle (w : Worker) (b : Inbox)
| RMessage (w : Worker) (b : Inbox) (m : option EMessage)
| RShutdown (w : Worker) (fuel : nat).

Inductive Turn : Type :=
| LDispatch (d : Dispatcher)
| LWorker (w : Worker) (b : Inbox)
| LEnd.

Definition round_code (r : Round) : Prog Turn :=
  match r with
  | RDispatch d => d <- dispatch_iter tpc tp node d ;; Ret (LDispatch d)
  | RIdle w b => Ret (LWorker w b)
  | RMessage w b m => on_message true w m ;;; Ret (LWorker w b)
  | RShutdown w fuel => on_shutdown fuel w ;;; Ret LEnd
  end.

(** The head of a loop: the dispatcher goes on; a worker takes a message from
    its inbox or follows the notification. *)
Inductive node_next : Round → Turn → NodeState → Round → NodeState → Prop :=
| NextDispatch r d s : node_next r (LDispatch d) s (RDispatch d) s
| NextReceive r w b s c o q' :
    n_inboxes s !! ib_addr b = Some c →
    LocalInbox.receive {| q_chan := c; q_pending := ∅ |} = (Ready o, q') →
    node_next r (LWorker w b) s (RMessage w b o)
      (note_taken (option_list o) []
         (with_inboxes (<[ib_addr b := q_chan q']> (n_inboxes s)) s))
| NextShutdown r w b s fuel : node_next r (LWorker w b) s (RShutdown w fuel) s.

(** [create_worker] spawns the worker with an inbox of its own. *)
Inductive node_spawn : NodeState → Round → NodeState → Prop :=
| SpawnWorker s w b :
    n_inboxes s !! ib_addr b = None →
    node_spawn s (RIdle w b)
      (with_inboxes (<[ib_addr b := ch_bounded capacity]> (n_inboxes s)) s).

(** [del_worker] aborts the task of a worker. *)
Definition is_worker_round (r : Round) : Prop :=
  match r with RDispatch _ => False | _ => True end.

(** Everybody else: producers send, the tables change, and an inbox goes with
    the last reference to its worker. *)
Inductive node_env : NodeState → NodeState → Prop :=
| EnvSend s m q' :
    send m (n_queue s) = (Ready (Ok tt), q') →
    node_env s (note_entered [m] [m] (with_queue q' s))
| EnvTrySend s m q' :
    try_send m (n_queue s) = (Ready (Ok tt), q') →
    node_env s (note_entered [m] [m] (with_queue q' s))
| EnvSendTimeout s m over q' :
    send_timeout m over (n_queue s) = (Ready (Ok tt), q') →
    node_env s (note_entered [m] [m] (with_queue q' s))
| EnvTables s r : node_env s (with_tables r s)
| EnvDropInbox s b c :
    n_inboxes s !! b = Some c →
    node_env s (note_taken [] (ch_items c) (with_inboxes (delete b (n_inboxes s)) s)).

Definition NodeConf : Type := Conf (E := Eff) (S := NodeState) (R := Round) (L := Turn).

Definition node_step : NodeConf → NodeConf → Prop :=
  conf_step node_eff round_code node_next node_spawn is_worker_round node_env.

(** The dispatcher alone on an empty queue. *)
Definition node_init (q : Ch) (r : ConsumerRouter) : NodeConf :=
  {| shared := node_start q r; tasks := [fresh_task round_code (RDispatch dispatcher_init)] |}.

Definition node_reaches (c : NodeConf) : Prop :=
  ∃ q r, ch_items q = [] ∧ rtc node_step (node_init q r) c.
End node.
