(* ===== verification/NodeTheorems.v ===== *)
(** * A topic of a node: where every message is

    Each program follows a protocol of its own: the dispatcher puts a claimed
    message into an inbox before it acknowledges the claim, and only once; the
    workers leave the claims alone ([dispatcher_follows], [worker_follows]).
    From that, for every interleaving: the messages the queue accepted are,
    with multiplicity, waiting, claimed, in an inbox, received by a worker,
    relayed or dropped by the dispatcher, or gone with an inbox. *)
From S2P Require Import Prelude Prog Interleave Errors Message Codec Runtime Topic Worker WorkerTheorems World Queues QueueTheorems Router Dispatch Node.

Section node.
Context {Ch : Type} `{MessageQueueLaws Ch}.
Context `{Bincode WalSyncMessage} `{Bincode AuditRecord} `{Bincode ShutdownAck}.
Context (tpc : string) (tp global : Producer) (node : option string) (capacity : nat).

Abbreviation NodeView := (View (E := Eff) (R := Round) (L := Turn)).
Abbreviation NState := (NodeState (Ch := Ch)).

(** ** The protocol *)

(** Where the dispatcher is with the message it claimed. *)
Inductive Phase : Type :=
| PIdle
| PClaimed (c : string) (m : EMessage)
| PPut (c : string) (m : EMessage).

Definition phase_step (ph : Phase) (v : ev Eff) : Phase :=
  match v with
  | Ev e x =>
      match e in Eff X return X → Phase with
      | Claim => λ r, match r with
                      | Ok (Some c) => PClaimed (cm_claim_id c) (cm_message c)
                      | _ => ph
                      end
      | InboxTrySend _ _ => λ r,
          match r, ph with Ok _, PClaimed c m => PPut c m | _, _ => ph end
      | ClaimAck _ | ClaimNack _ => λ _, PIdle
      | _ => λ _, ph
      end x
  end.

Definition phase (t : Trace) : Phase := foldl phase_step PIdle t.

Lemma phase_snoc t v : phase (t ++ [v]) = phase_step (phase t) v.
Proof. unfold phase. by rewrite foldl_app. Qed.

(** A message without the stamp of the worker it goes to. *)
Definition bare (m : EMessage) : EMessage := set_to_worker None m.
Definition targeted (m : EMessage) : Prop := is_Some (to_worker m).

(** What the dispatcher may do next. *)
Definition dispatcher_may (ph : Phase) (X : Type) (e : Eff X) : Prop :=
  match e with
  | Claim => ph = PIdle
  | ClaimBatch _ => False
  | ClaimAck c => ∃ m, ph = PPut c m ∨ (ph = PClaimed c m ∧ targeted m)
  | ClaimNack c => ∃ m, ph = PClaimed c m
  | InboxTrySend _ m' => ∃ c m, ph = PClaimed c m ∧ bare m' = bare m
  | _ => True
  end.

(** A worker does not touch claims, inboxes and the dispatcher's tables. *)
Definition worker_may (X : Type) (e : Eff X) : Prop :=
  match e with
  | Claim | ClaimBatch _ | ClaimAck _ | ClaimNack _ | ClaimStale _ | InboxTrySend _ _
  | LoadGeneration | DispatchWorkers _ | LocalInboxes => False
  | _ => True
  end.

Definition node_pre (r : Round) (t : Trace) (X : Type) (e : Eff X) : Prop :=
  match r with RDispatch _ => dispatcher_may (phase t) X e | _ => worker_may X e end.

Definition node_ans (X : Type) (e : Eff X) : X → Prop :=
  match e in Eff X return X → Prop with ClaimStale _ => λ x, x = Ok [] | _ => λ _, True end.

Definition node_post (r : Round) (t : Trace) (l : Turn) : Prop :=
  match r with
  | RDispatch _ => phase t = PIdle ∧ ∃ d, l = LDispatch d ∧ d_reclaimed d = []
  | RIdle w b | RMessage w b _ => l = LWorker w b
  | RShutdown _ _ => l = LEnd
  end.

(** The list of reclaimed messages stays empty. *)
Definition node_ok (r : Round) : Prop :=
  match r with RDispatch d => d_reclaimed d = [] | _ => True end.

Abbreviation nfollows := (follows node_pre node_ans node_post).

(** *** The dispatcher follows it *)

Lemma follows_deliver d0 t wi m c d :
  phase t = PClaimed c m → d_reclaimed d = [] →
  nfollows (RDispatch d0) t (d' <- deliver wi m c d ;; Ret (LDispatch d')).
Proof.
  intros Hp Hr. unfold deliver. cbn [bind call follows]. split.
  { simpl. by exists c, m. }
  intros [u|e] _; cbn [bind call follows]; simpl; rewrite !phase_snoc, Hp; simpl.
  - split; [eauto|]. intros r _. rewrite !phase_snoc. eauto.
  - split; [eauto|]. intros r _. split; [done|]. intros [] _.
    rewrite !phase_snoc. simpl. eauto.
Qed.

Lemma follows_dispatch_one d0 t m c d :
  phase t = PClaimed c m → d_reclaimed d = [] →
  nfollows (RDispatch d0) t (d' <- dispatch_one tpc tp node m c d ;; Ret (LDispatch d')).
Proof.
  intros Hp Hr. unfold dispatch_one, refresh.
  assert (∀ t d, phase t = PClaimed c m → d_reclaimed d = [] →
    nfollows (RDispatch d0) t (d' <- match d_cached_workers d with
      | [] => call (ClaimNack c) ;;; call (Sleep (from_millis 100)) ;;; Ret d
      | first :: _ =>
          match to_worker m ≫= (λ target,
                  position (λ wi, answers_to node target wi.1) (d_cached_workers d)) with
          | Some i => deliver (default first (d_cached_workers d !! i)) m c d
          | None =>
              match to_worker m with
              | Some _ =>
                  if decide (attempts m >= MAX_TARGETED_HOPS) then call (ClaimAck c) ;;; Ret d
                  else
                    call (ClaimAck c) ;;;
                    call (ProducerSend tp (set_attempts (u32_incr (attempts m)) m)) ;;;
                    Ret d
              | None => deliver (default first (d_cached_workers d !!
                  Z.to_nat (d_cursor d mod Z.of_nat (length (d_cached_workers d))))) m c
                  (bump_cursor d)
              end
          end
      end ;; Ret (LDispatch d'))) as Hchoose.
  { clear t d Hp Hr. intros t d Hp Hr. destruct (d_cached_workers d) as [|first l].
    { cbn [bind call follows]. simpl. split; [eauto|]. intros x _. split; [done|]. intros [] _.
      rewrite !phase_snoc. simpl. eauto. }
    case_match; [by apply follows_deliver|]. destruct (to_worker m) as [target|] eqn:Ht.
    - case_decide; cbn [bind call follows]; simpl.
      + split; [exists m; right; split; [done|by exists target]|]. intros x _. rewrite !phase_snoc. simpl. eauto.
      + split; [exists m; right; split; [done|by exists target]|]. intros x _. split; [done|]. intros y _.
        rewrite !phase_snoc. simpl. eauto.
    - by apply follows_deliver. }
  cbn [bind call follows]. split; [done|]. intros gen _.
  destruct (decide (gen ≠ d_seen_generation d ∨ d_cached_workers d = [])); cbn [bind call follows].
  - split; [done|]. intros names _. split; [done|]. intros inboxes _.
    apply Hchoose; [by rewrite !phase_snoc|done].
  - apply Hchoose; [by rewrite !phase_snoc|done].
Qed.

Lemma dispatcher_follows d :
  d_reclaimed d = [] → nfollows (RDispatch d) [] (round_code tpc tp node (RDispatch d)).
Proof.
  intros Hr. cbn [round_code]. unfold dispatch_iter, reap.
  assert (∀ t d', phase t = PIdle → d_reclaimed d' = [] →
    nfollows (RDispatch d) t (d'' <- match d_reclaimed d' with
      | (m, i) :: rest => dispatch_one tpc tp node m i (with_reclaimed rest d')
      | [] => r <- call Claim ;; match r with
              | Ok (Some c) => dispatch_one tpc tp node (cm_message c) (cm_claim_id c) d'
              | _ => call (Sleep (from_millis 1)) ;;; Ret d'
              end
      end ;; Ret (LDispatch d''))) as Hclaim.
  { intros t d' Hp Hr'. rewrite Hr'. cbn [bind call follows]. split; [done|].
    assert (∀ r, nfollows (RDispatch d) (t ++ [Ev Claim r])
      (d'' <- (call (Sleep (from_millis 1)) ;;; Ret d') ;; Ret (LDispatch d'')) ∨
      ∃ c, r = Ok (Some c)) as Hnone.
    { intros [[c|]|e]; [eauto|left..]; (split; [done|]); intros [] _; simpl;
        rewrite !phase_snoc, Hp; eauto. }
    intros r _. destruct (Hnone r) as [Hn|(c & ->)].
    - destruct r as [[c|]|e]; [|exact Hn..].
      apply follows_dispatch_one; [by rewrite phase_snoc|done].
    - apply follows_dispatch_one; [by rewrite phase_snoc|done]. }
  cbn [bind call follows]. split; [done|]. intros el _.
  destruct (decide (el >= TOPIC_REAP_INTERVAL)); cbn [bind call follows].
  - split; [done|]. intros [] _. split; [done|]. intros r Hans. simpl in Hans. subst r.
    apply Hclaim; [by rewrite !phase_snoc|]. simpl. by rewrite Hr.
  - apply Hclaim; [by rewrite !phase_snoc|done].
Qed.

(** *** The workers follow it *)

Lemma follows_only {A} r t (p : Prog A) (k : A → Prog Turn) :
  (match r with RDispatch _ => False | _ => True end) →
  only worker_may p → (∀ t a, nfollows r t (k a)) → nfollows r t (bind p k).
Proof.
  intros Hw Hp Hk. revert t. induction p as [a|why|X e q IH]; intros t; cbn [bind follows].
  - apply Hk.
  - done.
  - destruct Hp as [He Hq]. split; [by destruct r|]. intros x _. by apply IH.
Qed.

Lemma emit_may r m ts d : only worker_may (topic_emit r m ts d).
Proof. unfold topic_emit. only_solve. Qed.
#[local] Hint Resolve emit_may : eb_only.
Lemma topic_send_may r t m ts d : only worker_may (topic_send r t m ts d).
Proof. unfold topic_send, registry_wal, registry_global, get_node_type. only_solve. Qed.
#[local] Hint Resolve topic_send_may : eb_only.
Lemma sync_may wc i t s n e : only worker_may (sync_status wc i t s n e).
Proof. unfold sync_status, topic_router_global, send_system. only_solve. Qed.
#[local] Hint Resolve sync_may : eb_only.
Lemma audit_may w m r e er d : only worker_may (audit w m r e er d).
Proof.
  unfold audit, generate_audit_msg, send_audit_msg, topic_router_global, send_system.
  only_solve.
Qed.
#[local] Hint Resolve audit_may : eb_only.
Lemma settle_may w st m pt : only worker_may (settle_msg w st m pt).
Proof.
  unfold settle_msg, requeue_message, send_to_dead_letter, mark_pending, mark_complete,
    mark_dead_letter, topic_router_global. only_solve.
Qed.
#[local] Hint Resolve settle_may : eb_only.
Lemma process_may w m : only worker_may (process_msg w m).
Proof. unfold process_msg, run_pipeline, mark_processing. only_solve. Qed.
#[local] Hint Resolve process_may : eb_only.
Lemma on_message_may inbox w m : only worker_may (on_message inbox w m).
Proof. unfold on_message, set_local_status, set_status, route_targeted. destruct inbox; only_solve. Qed.
Lemma wait_may fuel w ci d start : only worker_may (wait_idle fuel w ci d start).
Proof. induction fuel as [|fuel IH]; [done|]. cbn [wait_idle]. only_solve. Qed.
#[local] Hint Resolve wait_may : eb_only.
Lemma on_shutdown_may fuel w : only worker_may (on_shutdown fuel w).
Proof. unfold on_shutdown, shutdown, new_message, topic_router_global. only_solve. Qed.

Lemma node_follows r : node_ok r → nfollows r [] (round_code tpc tp node r).
Proof.
  destruct r as [d|w b|w b m|w fuel]; intros Hok; [by apply dispatcher_follows|done|..];
    cbn [round_code]; (apply follows_only; [done| |done]);
    [apply on_message_may|apply on_shutdown_may].
Qed.

(** ** The accounts *)

Definition entering (pms : list (Producer * EMessage)) : list EMessage :=
  (filter (λ pm, enters tpc tp global pm.1 pm.2) pms).*2.

Definition entered_by (v : NodeView) : list EMessage := entering (sent (observed v)).

Definition round_message (r : Round) : list EMessage :=
  match r with RMessage _ _ o => option_list o | _ => [] end.
Definition received_by (v : NodeView) : list EMessage :=
  (v.2 ≫= λ d, round_message d.1.1) ++ round_message v.1.1.

(** Put into an inbox, the claim not yet acknowledged. *)
Definition limbo_of (v : NodeView) : list EMessage :=
  match v.1.1, phase v.1.2 with RDispatch _, PPut _ m => [m] | _, _ => [] end.

Definition claim_of (v : NodeView) : option (string * EMessage) :=
  match v.1.1, phase v.1.2 with
  | RDispatch _, PClaimed c m | RDispatch _, PPut c m => Some (c, m)
  | _, _ => None
  end.

Definition is_dispatcher (v : NodeView) : bool :=
  match v.1.1 with RDispatch _ => true | _ => false end.

Definition inbox_contents (bs : gmap positive Ch) : list EMessage :=
  (map_to_list bs).*2 ≫= ch_items.

Record accounts (s : NState) (vs : list NodeView) : Prop := {
  acc_entered : n_entered s ≡ₚ n_external s ++ (vs ≫= entered_by);
  acc_queue : n_entered s ≡ₚ held (n_queue s) ++ n_settled s;
  acc_settled : ∃ away, Forall targeted away ∧
    bare <$> (n_settled s ++ (vs ≫= limbo_of)) ≡ₚ bare <$> (n_inboxed s ++ away);
  acc_claim : ∀ i v c m, vs !! i = Some v → claim_of v = Some (c, m) →
    q_pending (n_queue s) !! c = Some m;
  acc_one : ∀ i v, vs !! i = Some v → is_dispatcher v = true → i = 0%nat;
  acc_inboxed : n_inboxed s ≡ₚ inbox_contents (n_inboxes s) ++ n_lost s ++ n_received s;
  acc_received : n_received s ≡ₚ vs ≫= received_by
}.

(** *** What one event changes in the view of a task *)

Definition now_with (v : NodeView) (x : ev Eff) : NodeView := (v.1.1, v.1.2 ++ [x], v.2).

Lemma entered_by_event v x : entered_by (now_with v x) = entered_by v ++ entering (ev_sent x).
Proof.
  unfold entered_by, observed, now_with, entering. simpl.
  rewrite !app_assoc, sent_app, filter_app, fmap_app. unfold sent at 2. simpl.
  by rewrite app_nil_r.
Qed.

Lemma received_by_event v x : received_by (now_with v x) = received_by v.
Proof. done. Qed.

Lemma is_dispatcher_event v x : is_dispatcher (now_with v x) = is_dispatcher v.
Proof. done. Qed.

(** An event that leaves the claim of the dispatcher alone. *)
Definition same_phase (v : NodeView) (x : ev Eff) : Prop :=
  is_dispatcher v = true → phase_step (phase v.1.2) x = phase v.1.2.

Lemma limbo_same v x : same_phase v x → limbo_of (now_with v x) = limbo_of v.
Proof.
  unfold same_phase, limbo_of, is_dispatcher, now_with. simpl. rewrite phase_snoc.
  destruct v.1.1; simpl; intros Hp; [by rewrite Hp|done..].
Qed.

Lemma claim_same v x : same_phase v x → claim_of (now_with v x) = claim_of v.
Proof.
  unfold same_phase, claim_of, is_dispatcher, now_with. simpl. rewrite phase_snoc.
  destruct v.1.1; simpl; intros Hp; [by rewrite Hp|done..].
Qed.

Lemma claim_dispatcher v c m : claim_of v = Some (c, m) → is_dispatcher v = true.
Proof. unfold claim_of, is_dispatcher. by destruct v.1.1. Qed.

(** *** The inboxes *)

Lemma contents_lookup (bs : gmap positive Ch) b c :
  bs !! b = Some c → inbox_contents bs ≡ₚ ch_items c ++ inbox_contents (delete b bs).
Proof.
  intros Hb. unfold inbox_contents. by rewrite <- (map_to_list_delete bs b c Hb).
Qed.

Lemma contents_insert (bs : gmap positive Ch) b c :
  inbox_contents (<[b := c]> bs) ≡ₚ ch_items c ++ inbox_contents (delete b bs).
Proof.
  rewrite (contents_lookup (<[b := c]> bs) b c) by apply lookup_insert_eq.
  by rewrite delete_insert_eq.
Qed.

(** *** Events keep the accounts *)

Section event.
Context (s s' : NState) (vs : list NodeView) (i : nat) (v : NodeView) (x : ev Eff).
Context (HJ : accounts s vs) (Hi : vs !! i = Some v).

Lemma claims_after :
  (is_dispatcher v = true ∨ q_pending (n_queue s') = q_pending (n_queue s)) →
  (∀ c m, claim_of (now_with v x) = Some (c, m) → q_pending (n_queue s') !! c = Some m) →
  ∀ j w c m, <[i := now_with v x]> vs !! j = Some w → claim_of w = Some (c, m) →
    q_pending (n_queue s') !! c = Some m.
Proof.
  intros Hor Hv j w c m Hj Hc. apply list_lookup_insert_Some in Hj as [(-> & <- & _)|[Hne Hj]].
  - by apply Hv.
  - destruct Hor as [Hd| ->]; [|by eapply (acc_claim _ _ HJ)].
    apply claim_dispatcher in Hc. apply (acc_one _ _ HJ) in Hj, Hi; [|done..]. congruence.
Qed.

Lemma one_after j w :
  <[i := now_with v x]> vs !! j = Some w → is_dispatcher w = true → j = 0%nat.
Proof.
  intros Hj Hd. apply list_lookup_insert_Some in Hj as [(-> & <- & _)|[Hne Hj]];
    by eapply (acc_one _ _ HJ).
Qed.

Lemma accounts_event :
  n_external s' = n_external s →
  n_entered s' = n_entered s ++ entering (ev_sent x) →
  n_entered s' ≡ₚ held (n_queue s') ++ n_settled s' →
  (∃ away, Forall targeted away ∧
    bare <$> (n_settled s' ++ (<[i := now_with v x]> vs ≫= limbo_of))
      ≡ₚ bare <$> (n_inboxed s' ++ away)) →
  (is_dispatcher v = true ∨ q_pending (n_queue s') = q_pending (n_queue s)) →
  (∀ c m, claim_of (now_with v x) = Some (c, m) → q_pending (n_queue s') !! c = Some m) →
  n_inboxed s' ≡ₚ inbox_contents (n_inboxes s') ++ n_lost s' ++ n_received s' →
  n_received s' = n_received s →
  accounts s' (<[i := now_with v x]> vs).
Proof.
  intros Hx He Hq Hs Hor Hc Hb Hr. split; try done.
  - rewrite (bind_insert_more _ _ _ _ _ _ Hi (reflexive_eq _ _ (entered_by_event v x))).
    rewrite Hx, He, (acc_entered _ _ HJ). solve_Permutation.
  - by apply claims_after.
  - by apply one_after.
  - by rewrite Hr, (bind_insert_same _ _ _ _ _ Hi (reflexive_eq _ _ (received_by_event v x))),
      (acc_received _ _ HJ).
Qed.

(** The clause on settled messages when neither they nor the phase move. *)
Lemma settled_same :
  same_phase v x → n_settled s' = n_settled s → n_inboxed s' = n_inboxed s →
  ∃ away, Forall targeted away ∧
    bare <$> (n_settled s' ++ (<[i := now_with v x]> vs ≫= limbo_of))
      ≡ₚ bare <$> (n_inboxed s' ++ away).
Proof.
  intros Hp Hs Hb. destruct (acc_settled _ _ HJ) as (away & Ha & Hperm). exists away.
  split; [done|]. rewrite Hs, Hb, <- Hperm.
  by rewrite (bind_insert_same _ _ _ _ _ Hi (reflexive_eq _ _ (limbo_same v x Hp))).
Qed.

Lemma claim_kept c m :
  same_phase v x → q_pending (n_queue s') = q_pending (n_queue s) →
  claim_of (now_with v x) = Some (c, m) → q_pending (n_queue s') !! c = Some m.
Proof. intros Hp Hq Hc. rewrite Hq. rewrite claim_same in Hc by done. by eapply (acc_claim _ _ HJ). Qed.
End event.

Lemma quiet_event s vs i v x :
  accounts s vs → vs !! i = Some v → entering (ev_sent x) = [] → same_phase v x →
  accounts s (<[i := now_with v x]> vs).
Proof.
  intros HJ Hi He Hp. eapply (accounts_event s s); try done.
  - by rewrite He, app_nil_r.
  - apply (acc_queue _ _ HJ).
  - by apply (settled_same s s).
  - by right.
  - intros c m. by apply (claim_kept s s vs i).
  - apply (acc_inboxed _ _ HJ).
Qed.

(** A push that enters the queue. *)
Lemma push_event s s' vs i v x op m res :
  accounts s vs → vs !! i = Some v → same_phase v x →
  entering (ev_sent x) = (if is_ok (res : Res unit) then [m] else []) →
  (let '(p, q') := op (n_queue s) in
   if accepted p then items q' = items (n_queue s) ++ [m] ∧ q_pending q' = q_pending (n_queue s)
   else q' = n_queue s) →
  pushed op m s res s' → accounts s' (<[i := now_with v x]> vs).
Proof.
  intros HJ Hi Hp He Hop (q' & Hq & ->). rewrite Hq in Hop.
  pose proof (acc_queue _ _ HJ) as Hbal.
  assert (q_pending q' = q_pending (n_queue s)) as Hpend.
  { simpl in Hop. destruct res; [by destruct Hop|by subst]. }
  eapply (accounts_event s); try done.
  - simpl. by rewrite app_nil_r.
  - simpl. by rewrite He.
  - destruct res as [u|e]; simpl in *.
    + destruct Hop as [Hit Hpe]. rewrite (held_push _ _ _ Hit Hpe), Hbal. solve_Permutation.
    + subst q'. by rewrite app_nil_r.
  - by apply (settled_same s).
  - by right.
  - intros c m'. by apply (claim_kept s _ vs i).
  - apply (acc_inboxed _ _ HJ).
Qed.

(** What is known when the dispatcher is at its next effect. *)
Lemma dispatcher_claim s vs i v d c m :
  accounts s vs → vs !! i = Some v → v.1.1 = RDispatch d →
  (phase v.1.2 = PClaimed c m ∨ phase v.1.2 = PPut c m) → q_pending (n_queue s) !! c = Some m.
Proof.
  intros HJ Hi Hd Hp. eapply (acc_claim _ _ HJ); [exact Hi|]. unfold claim_of. rewrite Hd.
  by destruct Hp as [-> | ->].
Qed.

Lemma limbo_event v d x : v.1.1 = RDispatch d →
  limbo_of (now_with v x) = match phase_step (phase v.1.2) x with PPut _ m => [m] | _ => [] end.
Proof. unfold limbo_of, now_with. simpl. rewrite phase_snoc. by intros ->. Qed.

Lemma claim_event v d x : v.1.1 = RDispatch d →
  claim_of (now_with v x) = match phase_step (phase v.1.2) x with
                            | PClaimed c m | PPut c m => Some (c, m) | PIdle => None end.
Proof. unfold claim_of, now_with. simpl. rewrite phase_snoc. by intros ->. Qed.

Lemma limbo_now v d : v.1.1 = RDispatch d →
  limbo_of v = match phase v.1.2 with PPut _ m => [m] | _ => [] end.
Proof. unfold limbo_of. by intros ->. Qed.

Lemma dispatcher_is v d : v.1.1 = RDispatch d → is_dispatcher v = true.
Proof. unfold is_dispatcher. by intros ->. Qed.

Abbreviation ledger s := {| entered := n_entered s; left_queue := n_settled s |}.

Lemma claimed_event s s' vs i v d r :
  accounts s vs → vs !! i = Some v → v.1.1 = RDispatch d → phase v.1.2 = PIdle →
  node_eff tpc tp global _ Claim s r s' → accounts s' (<[i := now_with v (Ev Claim r)]> vs).
Proof.
  intros HJ Hi Hd Hp (sup & q' & Hfresh & Hcl & ->).
  pose proof (claim_balanced sup (n_queue s) (ledger s) (acc_queue _ _ HJ) Hfresh) as Hbal.
  pose proof (law_claim sup (n_queue s)) as Hlaw.
  unfold qstep in Hbal. rewrite Hcl in Hbal, Hlaw. eapply (accounts_event s); try done.
  - by rewrite app_nil_r.
  - destruct (acc_settled _ _ HJ) as (away & Ha & Hperm). exists away. split; [done|].
    simpl. rewrite <- Hperm, (bind_insert_same _ _ _ v _ Hi); [done|].
    rewrite (limbo_event _ _ _ Hd), (limbo_now _ _ Hd), Hp. simpl. by repeat case_match.
  - left. by eapply dispatcher_is.
  - intros c m. rewrite (claim_event _ _ _ Hd), Hp. simpl.
    destruct r as [[cm|]|e]; simpl; [|done..]. intros [= <- <-].
    destruct Hlaw as (_ & _ & ->). apply lookup_insert_eq.
  - apply (acc_inboxed _ _ HJ).
Qed.

(** Putting the claimed message, stamped, into an inbox. *)
Lemma put_event s s' vs i v d b m' c m r :
  accounts s vs → vs !! i = Some v → v.1.1 = RDispatch d →
  phase v.1.2 = PClaimed c m → bare m' = bare m →
  inbox_put b m' s r s' → accounts s' (<[i := now_with v (Ev (InboxTrySend b m') r)]> vs).
Proof.
  intros HJ Hi Hd Hp Hbare Hput.
  assert (∀ e : string, accounts s (<[i := now_with v (Ev (InboxTrySend b m') (Err e))]> vs)) as Herr.
  { intros e. apply quiet_event; [done..|]. by intros _. }
  unfold inbox_put in Hput. destruct (n_inboxes s !! ib_addr b) as [ch|] eqn:Hb.
  2:{ destruct Hput as [? ->]. destruct r; [done|apply Herr]. }
  destruct (ch_send m' ch) as [ch'| |why] eqn:Hs;
    [|destruct Hput as [? ->]; (destruct r; [done|apply Herr])..].
  destruct Hput as [-> ->]. eapply (accounts_event s); try done.
  - by rewrite app_nil_r.
  - apply (acc_queue _ _ HJ).
  - destruct (acc_settled _ _ HJ) as (away & Ha & Hperm). exists away. split; [done|].
    simpl. rewrite (bind_insert_more limbo_of vs i v _ [m] Hi).
    + rewrite (assoc_L (++)), fmap_app, Hperm, !fmap_app. simpl. rewrite Hbare. solve_Permutation.
    + rewrite (limbo_event _ _ _ Hd), (limbo_now _ _ Hd), Hp. done.
  - left. by eapply dispatcher_is.
  - intros c' m''. rewrite (claim_event _ _ _ Hd), Hp. simpl. intros [= <- <-].
    eapply dispatcher_claim; eauto.
  - simpl. rewrite (acc_inboxed _ _ HJ), (contents_lookup _ _ _ Hb), contents_insert.
    apply ch_send_items in Hs. rewrite Hs. solve_Permutation.
Qed.

Lemma acked_event s s' vs i v d c m r :
  accounts s vs → vs !! i = Some v → v.1.1 = RDispatch d →
  phase v.1.2 = PPut c m ∨ (phase v.1.2 = PClaimed c m ∧ targeted m) →
  node_eff tpc tp global _ (ClaimAck c) s r s' →
  accounts s' (<[i := now_with v (Ev (ClaimAck c) r)]> vs).
Proof.
  intros HJ Hi Hd Hp (q' & Hack & ->).
  pose proof (ack_balanced c (n_queue s) (ledger s) (acc_queue _ _ HJ)) as Hbal.
  assert (q_pending (n_queue s) !! c = Some m) as Hpend.
  { eapply dispatcher_claim; eauto. naive_solver. }
  unfold qstep in Hbal. rewrite Hack, Hpend in Hbal. rewrite Hpend.
  eapply (accounts_event s); try done.
  - by rewrite app_nil_r.
  - destruct (acc_settled _ _ HJ) as (away & Ha & Hperm).
    destruct (bind_insert limbo_of vs i v Hi) as (rest & Hv & Hw).
    rewrite Hv, (limbo_now _ _ Hd) in Hperm.
    assert (limbo_of (now_with v (Ev (ClaimAck c) r)) = []) as Hnone
      by by rewrite (limbo_event _ _ _ Hd).
    destruct Hp as [Hp|[Hp Ht]]; rewrite Hp in Hperm.
    + exists away. split; [done|]. rewrite Hw, Hnone, <- Hperm. simpl.
      rewrite !fmap_app. simpl. solve_Permutation.
    + exists (away ++ [m]). split; [apply Forall_app; auto|]. rewrite Hw, Hnone. simpl.
      rewrite (assoc_L (++) (n_inboxed s)), (fmap_app bare (n_inboxed s ++ away)), <- Hperm, !fmap_app.
      simpl. solve_Permutation.
  - left. by eapply dispatcher_is.
  - intros c' m'. by rewrite (claim_event _ _ _ Hd).
  - apply (acc_inboxed _ _ HJ).
Qed.

Lemma nacked_event s s' vs i v d c m r :
  accounts s vs → vs !! i = Some v → v.1.1 = RDispatch d → phase v.1.2 = PClaimed c m →
  node_eff tpc tp global _ (ClaimNack c) s r s' →
  accounts s' (<[i := now_with v (Ev (ClaimNack c) r)]> vs).
Proof.
  intros HJ Hi Hd Hp (q' & Hnack & ->).
  pose proof (nack_balanced c (n_queue s) (ledger s) (acc_queue _ _ HJ)) as Hbal.
  unfold qstep in Hbal. rewrite Hnack in Hbal.
  eapply (accounts_event s); try done.
  - by rewrite app_nil_r.
  - destruct (acc_settled _ _ HJ) as (away & Ha & Hperm). exists away. split; [done|].
    simpl. rewrite <- Hperm, (bind_insert_same _ _ _ v _ Hi); [done|].
    by rewrite (limbo_event _ _ _ Hd), (limbo_now _ _ Hd), Hp.
  - left. by eapply dispatcher_is.
  - intros c' m'. by rewrite (claim_event _ _ _ Hd).
  - apply (acc_inboxed _ _ HJ).
Qed.

Lemma entering_one p m (res : Res unit) :
  entering (if is_ok res then [(p, m)] else []) =
    if decide (enters tpc tp global p m) then (if is_ok res then [m] else []) else [].
Proof.
  unfold entering. destruct (is_ok res); simpl; [|by case_decide].
  rewrite filter_cons, filter_nil. simpl. by repeat case_decide.
Qed.

Lemma send_event {X} (e : Eff X) (x : X) s s' vs i v p m res op :
  accounts s vs → vs !! i = Some v → same_phase v (Ev e x) →
  ev_sent (Ev e x) = (if is_ok (res : Res unit) then [(p, m)] else []) → pushes op →
  (if decide (enters tpc tp global p m) then pushed (op m) m s res s' else s' = s) →
  accounts s' (<[i := now_with v (Ev e x)]> vs).
Proof.
  intros HJ Hi Hp He Hop Hs. pose proof (entering_one p m res) as Hone. rewrite <- He in Hone.
  case_decide.
  - eapply push_event; [done..| |exact Hs]. apply (Hop m (n_queue s)).
  - subst s'. by apply quiet_event.
Qed.

Lemma effect_accounts s s' vs i v X (e : Eff X) x :
  accounts s vs → vs !! i = Some v → node_pre v.1.1 v.1.2 X e →
  node_eff tpc tp global X e s x s' → accounts s' (<[i := now_with v (Ev e x)]> vs).
Proof.
  intros HJ Hi Hpre He. destruct e;
    try (simpl in He; destruct_and?; subst s'; apply quiet_event; done).
  - eapply send_event; [done..|apply law_send|exact He].
  - eapply send_event; [done..|apply law_try_send|exact He].
  - simpl in He. case_decide as Hent.
    + destruct He as [over He]. eapply (send_event _ _ _ _ _ _ _ p m x);
        [done..|apply (law_send_timeout over)|]. by rewrite decide_True.
    + subst s'. apply quiet_event; try done. simpl. by rewrite entering_one, decide_False.
  - destruct v.1.1 as [dd| | |] eqn:Hd; [|done..]. destruct Hpre as (c & m' & Hp & Hb).
    by eapply put_event.
  - destruct v.1.1 as [dd| | |] eqn:Hd; [|done..]. by eapply claimed_event.
  - destruct v.1.1 as [dd| | |] eqn:Hd; [|done..]. destruct Hpre as [m Hp]. by eapply acked_event.
  - destruct v.1.1 as [dd| | |] eqn:Hd; [|done..]. destruct Hpre as [m Hp]. by eapply nacked_event.
Qed.

(** *** The other steps keep them too *)

(** The shared state changes, and the tasks contribute what they did. *)
Lemma accounts_views s vs vs' :
  accounts s vs → vs' ≫= entered_by ≡ₚ vs ≫= entered_by →
  vs' ≫= limbo_of ≡ₚ vs ≫= limbo_of → vs' ≫= received_by ≡ₚ vs ≫= received_by →
  (∀ j w, vs' !! j = Some w → is_Some (claim_of w) → vs !! j = Some w) →
  (∀ j w, vs' !! j = Some w → is_dispatcher w = true → j = 0%nat) →
  accounts s vs'.
Proof.
  intros HJ He Hl Hr Hc Ho. split; try apply HJ.
  - rewrite He. apply HJ.
  - destruct (acc_settled _ _ HJ) as (away & Ha & Hp). exists away. by rewrite Hl.
  - intros j w c m Hj Hw. eapply (acc_claim _ _ HJ); [|exact Hw]. eauto.
  - done.
  - rewrite Hr. apply HJ.
Qed.

Lemma env_accounts s s' vs : accounts s vs → node_env s s' → accounts s' vs.
Proof.
  intros HJ He. assert (∀ op m q', pushes op → op m (n_queue s) = (Ready (Ok tt), q') →
    accounts (note_entered [m] [m] (with_queue q' s)) vs) as Hpush.
  { intros op m q' Hop Hq. specialize (Hop m (n_queue s)). rewrite Hq in Hop. simpl in Hop.
    destruct Hop as [Hit Hpe]. split; simpl; try apply HJ.
    - rewrite (acc_entered _ _ HJ). solve_Permutation.
    - rewrite (held_push _ _ _ Hit Hpe), (acc_queue _ _ HJ). solve_Permutation.
    - rewrite Hpe. apply HJ. }
  destruct He as [s m q' Hq|s m q' Hq|s m over q' Hq|s r|s b c Hb].
  - eapply Hpush; [apply law_send|done].
  - eapply Hpush; [apply law_try_send|done].
  - eapply Hpush; [apply (law_send_timeout over)|done].
  - split; simpl; apply HJ.
  - split; simpl; try apply HJ.
    + rewrite (acc_inboxed _ _ HJ), (contents_lookup _ _ _ Hb). solve_Permutation.
    + rewrite app_nil_r. apply HJ.
Qed.

(** A round has ended and the next one begins. *)
Definition next_view (v : NodeView) (l : Turn) (r : Round) : NodeView :=
  (r, [], v.2 ++ [(v.1.1, v.1.2, l)]).

Lemma entered_by_next v l r : entered_by (next_view v l r) = entered_by v.
Proof.
  unfold entered_by, observed, next_view. simpl. by rewrite bind_app, bind_singleton, app_nil_r.
Qed.

Lemma received_by_next v l r : received_by (next_view v l r) = received_by v ++ round_message r.
Proof. unfold received_by, next_view. simpl. by rewrite bind_app, bind_singleton. Qed.

Lemma limbo_next v l r : limbo_of (next_view v l r) = [].
Proof. unfold limbo_of, next_view. simpl. by destruct r. Qed.

Lemma claim_next v l r : claim_of (next_view v l r) = None.
Proof. unfold claim_of, next_view. simpl. by destruct r. Qed.

(** A round that received nothing follows one with nothing in limbo. *)
Lemma next_accounts s vs i v l r :
  accounts s vs → vs !! i = Some v → limbo_of v = [] → round_message r = [] →
  is_dispatcher (next_view v l r) = is_dispatcher v →
  accounts s (<[i := next_view v l r]> vs).
Proof.
  intros HJ Hi Hl Hr Hd. eapply accounts_views; [exact HJ|..].
  - apply (bind_insert_same _ _ _ _ _ Hi). by rewrite entered_by_next.
  - apply (bind_insert_same _ _ _ _ _ Hi). by rewrite limbo_next, Hl.
  - apply (bind_insert_same _ _ _ _ _ Hi). by rewrite received_by_next, Hr, app_nil_r.
  - intros j w Hj [cm Hc]. apply list_lookup_insert_Some in Hj as [(-> & <- & _)|[Hne Hj]];
      [|done]. by rewrite claim_next in Hc.
  - intros j w Hj Hw. apply list_lookup_insert_Some in Hj as [(-> & <- & _)|[Hne Hj]].
    + rewrite Hd in Hw. by eapply (acc_one _ _ HJ).
    + by eapply (acc_one _ _ HJ).
Qed.

Lemma receive_contents (c : Ch) o q' :
  LocalInbox.receive {| q_chan := c; q_pending := ∅ |} = (Ready o, q') →
  ch_items c = option_list o ++ ch_items (q_chan q').
Proof.
  intros Hr. pose proof (receive_laws {| q_chan := c; q_pending := ∅ |}) as Hl.
  unfold LocalInbox.receive in Hr. rewrite Hr in Hl.
  destruct o as [m|]; simpl in *; [by destruct Hl|by subst q'].
Qed.

(** A worker takes the next message of its inbox. *)
Lemma take_accounts s vs i v w b l c o q' :
  accounts s vs → vs !! i = Some v → is_dispatcher v = false → n_inboxes s !! ib_addr b = Some c →
  LocalInbox.receive {| q_chan := c; q_pending := ∅ |} = (Ready o, q') →
  accounts (note_taken (option_list o) [] (with_inboxes (<[ib_addr b := q_chan q']> (n_inboxes s)) s))
    (<[i := next_view v l (RMessage w b o)]> vs).
Proof.
  intros HJ Hi Hd Hb Hr. apply receive_contents in Hr.
  assert (limbo_of v = []) as Hlimbo.
  { revert Hd. unfold is_dispatcher, limbo_of. by destruct v.1.1. }
  split; simpl.
  - rewrite (acc_entered _ _ HJ). f_equiv. symmetry. apply (bind_insert_same _ _ _ _ _ Hi).
    by rewrite entered_by_next.
  - apply HJ.
  - destruct (acc_settled _ _ HJ) as (away & Ha & Hp). exists away. split; [done|]. rewrite <- Hp.
    f_equiv. f_equiv. apply (bind_insert_same _ _ _ _ _ Hi). by rewrite limbo_next, Hlimbo.
  - intros j x c' m Hj Hc. apply list_lookup_insert_Some in Hj as [(-> & <- & _)|[Hne Hj]].
    + by rewrite claim_next in Hc.
    + by eapply (acc_claim _ _ HJ).
  - intros j x Hj Hx. apply list_lookup_insert_Some in Hj as [(-> & <- & _)|[Hne Hj]];
      [done|by eapply (acc_one _ _ HJ)].
  - rewrite (acc_inboxed _ _ HJ), (contents_lookup _ _ _ Hb), contents_insert, Hr.
    rewrite app_nil_r. solve_Permutation.
  - rewrite (acc_received _ _ HJ). symmetry. apply (bind_insert_more _ _ _ _ _ _ Hi).
    by rewrite received_by_next.
Qed.

Lemma spawn_accounts s s' vs r :
  accounts s vs → node_spawn capacity s r s' → accounts s' (vs ++ [(r, [], [])]).
Proof.
  intros HJ Hs. destruct Hs as [s w b Hb]. split; simpl.
  - rewrite bind_app, bind_singleton. unfold entered_by at 2. simpl. rewrite app_nil_r. apply HJ.
  - apply HJ.
  - rewrite bind_app, bind_singleton. unfold limbo_of at 2. simpl. rewrite app_nil_r. apply HJ.
  - intros j x c m Hj Hc. apply lookup_snoc_Some in Hj as [[_ Hj]|[_ <-]];
      [by eapply (acc_claim _ _ HJ)|done].
  - intros j x Hj Hx. apply lookup_snoc_Some in Hj as [[_ Hj]|[_ <-]];
      [by eapply (acc_one _ _ HJ)|done].
  - rewrite contents_insert, ch_items_bounded, delete_id by done. apply HJ.
  - rewrite bind_app, bind_singleton. unfold received_by at 2. simpl. rewrite app_nil_r. apply HJ.
Qed.

Lemma node_keeps :
  Keeps (node_eff tpc tp global) (round_code tpc tp node) node_next (node_spawn capacity) node_env
    node_pre node_ans node_post accounts node_ok.
Proof.
  split.
  - intros s vs X e x s' _ He. by destruct e; try done; destruct He.
  - intros s vs i r t ds X e x s' HJ Hi _ Hpre He.
    by apply (effect_accounts s s' vs i (r, t, ds) X e x).
  - intros s vs i r t ds l r' s' HJ Hi _ Hpost Hn. destruct Hn as [r d s|r w b s c o q' Hb Hr|r w b s fuel].
    + destruct r as [d0| | |]; simpl in Hpost; [|naive_solver..].
      destruct Hpost as [Hp (d' & [= <-] & Hd)]. split; [|done].
      apply (next_accounts s vs i (RDispatch d0, t, ds)); try done. unfold limbo_of. simpl. by rewrite Hp.
    + split; [|done]. apply (take_accounts s vs i (r, t, ds) w b _ c o q'); try done.
      destruct r; [|done..]. naive_solver.
    + split; [|done]. destruct r as [d0| | |]; [naive_solver|..];
        by apply (next_accounts s vs i (_, t, ds)).
  - intros s vs r s' HJ Hs. split; [|by destruct Hs]. destruct Hs. apply spawn_accounts with s; [done..|].
    by apply SpawnWorker.
  - intros s vs s' HJ He. by eapply env_accounts.
  - apply node_follows.
Qed.

(** ** The configurations of a node *)

Abbreviation NConf := (NodeConf (Ch := Ch)).
Abbreviation reached := (node_reaches tpc tp global node capacity).

Definition views (c : NConf) : list NodeView := view <$> tasks c.

(** What the tasks of the node sent to the queue of the topic: relays of the
    dispatcher, retries and repetitions of the workers. *)
Definition sent_inside (c : NConf) : list EMessage := views c ≫= entered_by.
Definition taken_by_workers (c : NConf) : list EMessage := views c ≫= received_by.
Definition in_limbo (c : NConf) : list EMessage := views c ≫= limbo_of.
Definition in_inboxes (c : NConf) : list EMessage := inbox_contents (n_inboxes (shared c)).

Lemma reached_good c : reached c → good node_pre node_ans node_post accounts node_ok c.
Proof.
  intros (q & r & Hq & Hs). eapply invariant_reachable; [apply node_keeps| |exact Hs].
  split; simpl.
  - split; simpl; try done.
    + unfold held, items. simpl. by rewrite Hq.
    + by exists [].
    + intros [|i] v c' m; simpl; [|by rewrite lookup_nil]. by intros [= <-].
    + intros [|i] v; simpl; [done|by rewrite lookup_nil].
  - apply Forall_singleton. split; [done|]. by apply node_follows.
Qed.

Lemma reached_accounts c : reached c → accounts (shared c) (views c).
Proof. intros Hr. by apply reached_good in Hr as [? _]. Qed.

Lemma limbo_none (vs : list NodeView) :
  (∀ v, v ∈ vs → is_dispatcher v = false) → vs ≫= limbo_of = [].
Proof.
  induction vs as [|v vs IH]; intros Hv; [done|]. csimpl. rewrite IH by set_solver.
  assert (is_dispatcher v = false) as Hd by set_solver. rewrite app_nil_r.
  revert Hd. unfold is_dispatcher, limbo_of. by destruct v.1.1.
Qed.

Lemma limbo_at_most_one c : reached c → (length (in_limbo c) ≤ 1)%nat.
Proof.
  intros Hr. pose proof (acc_one _ _ (reached_accounts c Hr)) as Hone. unfold in_limbo.
  destruct (views c) as [|v vs]; [simpl; lia|]. csimpl. rewrite (limbo_none vs).
  - rewrite app_nil_r. unfold limbo_of. repeat case_match; simpl; lia.
  - intros w [j Hj]%list_elem_of_lookup. destruct (is_dispatcher w) eqn:Hd; [|done].
    specialize (Hone (S j) w Hj Hd). done.
Qed.

(** Where every message is, at every moment. *)
Lemma node_accounts c :
  reached c →
  let s := shared c in
  n_entered s ≡ₚ n_external s ++ sent_inside c ∧
  (length (in_limbo c) ≤ 1)%nat ∧
  ∃ away, Forall targeted away ∧
    bare <$> (n_entered s ++ in_limbo c) ≡ₚ
    bare <$> (held (n_queue s) ++ in_inboxes c ++ n_lost s ++ taken_by_workers c ++ away).
Proof.
  intros Hr. cbv zeta. pose proof (reached_accounts c Hr) as HJ. split; [apply HJ|].
  split; [by apply limbo_at_most_one|].
  destruct (acc_settled _ _ HJ) as (away & Ha & Hp). exists away. split; [done|].
  rewrite (acc_queue _ _ HJ), <- (assoc_L (++)), fmap_app. unfold in_limbo. rewrite Hp.
  rewrite (acc_inboxed _ _ HJ), (acc_received _ _ HJ).
  rewrite <- !fmap_app. apply fmap_Permutation. unfold in_inboxes, taken_by_workers.
  solve_Permutation.
Qed.

(** A round of a worker with a message that is for it. *)
Lemma on_message_processed w m :
  is_misrouted w m = false →
  wp (on_message true w (Some m)) (λ t o, ∃ t1 t2 o',
    t = (Ev (SetStatus (w_name w) Working) tt :: t1) ++ t2 ∧
    exec (process_msg w m) t1 o' ∧
    match o' with
    | Done _ => o = Done tt ∧ t2 = [Ev (SetStatus (w_name w) Idle) tt]
    | Panicked why => o = Panicked why ∧ t2 = []
    end).
Proof.
  intros Hm. apply wp_exec. intros t o He. unfold on_message, set_local_status in He.
  cbn [bind call exec] in He. rewrite Hm in He. destruct He as ([] & t' & -> & He).
  apply exec_bind_inv in He as [(t1 & t2 & [] & -> & H1' & H2')|(why & H1' & ->)].
  - apply exec_bind_inv in H1' as [(t3 & t4 & res & -> & Hp & Hr)|(why & _ & [=])].
    destruct Hr as [-> _]. exists t3, t2, (Done res). rewrite app_nil_r.
    split; [done|]. split; [done|]. destruct H2' as ([] & t5 & -> & [-> ->]). done.
  - apply exec_bind_inv in H1' as [(t3 & t4 & res & -> & Hp & [_ [=]])|(why' & Hp & [= ->])].
    exists t', [], (Panicked why'). by rewrite app_nil_r.
Qed.
End node.

(** ** What holds of every node *)

Section claims.
Context {Ch : Type} `{MessageQueueLaws Ch}.
Context `{BincodeLaws WalSyncMessage} `{Bincode AuditRecord} `{Bincode ShutdownAck}.
Context (tpc : string) (tp global : Producer) (node : option string) (capacity : nat).

Abbreviation reached := (node_reaches (Ch := Ch) tpc tp global node capacity).

(** C3. Conservation across a whole topic.  However the dispatcher, the
    workers, the producers elsewhere and the changes of the router's tables
    interleave: what the queue accepted are the messages producers elsewhere
    sent and those the tasks of the node sent (relays, retries,
    repetitions); and up to the stamp of the worker each of them is, once,
    waiting in the queue or claimed, in an inbox, gone with an inbox,
    received by a worker, or, for a targeted message, acknowledged by the
    dispatcher without a local delivery.  The one exception is a message
    between the dispatcher's [try_send] and its [ack], which is in an inbox
    and still claimed. *)
Theorem node_accounts_for_messages c :
  reached c →
  let s := shared c in
  n_entered s ≡ₚ n_external s ++ sent_inside tpc tp global c ∧
  (length (in_limbo c) ≤ 1)%nat ∧
  ∃ away, Forall targeted away ∧
    bare <$> (n_entered s ++ in_limbo c) ≡ₚ
    bare <$> (held (n_queue s) ++ in_inboxes c ++ n_lost s ++ taken_by_workers c ++ away).
Proof. apply node_accounts. Qed.

Lemma reached_runs c :
  reached c → Forall (task_runs (round_code tpc tp node)) (tasks c).
Proof.
  intros (q & r & _ & Hs). eapply reaches_runs; [|exact Hs].
  apply Forall_singleton, fresh_task_runs.
Qed.

(** A round of a worker that ended, whatever ran between its effects. *)
Lemma message_round_settles c tk w b m t l :
  reached c → tk ∈ tasks c → (RMessage w b (Some m), t, l) ∈ tk_done tk →
  worker_wf w → is_system w = false → is_misrouted w m = false →
  ∃ res, processed w m t (Done res) ∧ explained t (Done res).
Proof.
  intros Hr Htk Hd Hw Hs Hm. apply reached_runs in Hr. rewrite Forall_forall in Hr.
  destruct (Hr tk Htk) as [_ Hdone]. rewrite Forall_forall in Hdone.
  specialize (Hdone _ Hd). cbn [fst snd round_code] in Hdone.
  apply exec_bind_inv in Hdone as [(t' & t'' & [] & -> & He & [-> _])|(why & _ & [=])].
  pose proof (proj1 (wp_exec _ _) (on_message_processed w m Hm) _ _ He)
    as (t1 & t2 & [res|why] & -> & Hp & Ho); [|by destruct Ho].
  destruct Ho as [_ ->]. exists res.
  pose proof (proj1 (wp_exec _ _) (wp_and _ _ _ (process_spec w m Hw Hs)
    (process_explained w m Hw Hs)) _ _ Hp) as [Hproc Hexp].
  rewrite app_nil_r. revert Hproc Hexp. unfold processed, explained.
  change (Ev (SetStatus (w_name w) Working) tt :: t1) with ([Ev (SetStatus (w_name w) Working) tt] ++ t1).
  rewrite !ran_app, !actions_app. simpl. rewrite !app_nil_r. intros Hproc Hexp. split; [done|].
  intros e He' Hf. apply (trouble_around [_]). by eapply Hexp.
Qed.

End claims.

(** ** A message that is lost *)

Import SerCodec.
Open Scope string_scope.
#[local] Existing Instance Crossfire.crossfire_queue.

Definition queue_producer : Producer := {| p_addr := 2 |}.
Definition global_producer : Producer := {| p_addr := 3 |}.
Definition the_inbox : Inbox := {| ib_addr := 1 |}.

(** The tables when one worker, [w1], takes part in the dispatch. *)
Definition one_worker_tables : ConsumerRouter :=
  {| local_topics := ∅; worker_index := ∅; idle_workers := ∅;
     dispatch_workers := {[ "orders" := ["w1"] ]}; dispatch_enabled := ∅;
     local_inboxes := {[ "w1" := the_inbox ]}; dispatch_generation := 1; batch_size := 64 |}.

Abbreviation demo_reaches :=
  (node_reaches (Ch := ListChan) "orders" queue_producer global_producer None 4).

#[local] Ltac effect i e x :=
  eapply rtc_l; [eapply (StepEffect _ _ _ _ _ _ _ _ i _ _ e _ x); [reflexivity|reflexivity|]|].

(** The dispatcher hands a message over to the worker. *)
Definition dispatched_conf (m : EMessage) (tk : Task) (c : NodeConf (Ch := ListChan)) : Prop :=
  tasks c = [tk; fresh_task (round_code "orders" queue_producer None) (RIdle (demo_worker "orders") the_inbox)] ∧
  tk_round tk = RDispatch dispatcher_init ∧ tk_done tk = [] ∧
  n_external (shared c) = [m] ∧ n_settled (shared c) = [m] ∧ n_lost (shared c) = [] ∧
  held (n_queue (shared c)) = [] ∧
  n_inboxes (shared c) = {[ 1%positive := {| lc_items := [set_to_worker (Some "w1") m]; lc_capacity := Some 4%nat |} ]}.

Lemma dispatch_demo m : to_worker m = None →
  ∃ tk c, demo_reaches c ∧ dispatched_conf m tk c.
Proof.
  intros Hm. destruct m as [a1 a2 a3 a4 a5 a6 a7 a8 a9 a10]. simpl in Hm. subst a9.
  set (m := Build_EMessage _ _ _ _ _ _ _ _ _ _). eexists _, _. split.
  - exists {| lc_items := []; lc_capacity := Some 4%nat |}, one_worker_tables. split; [done|].
    eapply rtc_l; [apply StepSpawn, (SpawnWorker _ _ (demo_worker "orders") the_inbox); reflexivity|].
    eapply rtc_l; [apply StepEnv, (EnvSend _ m); reflexivity|].
    effect 0%nat ReapElapsed 0; [reflexivity|].
    effect 0%nat Claim (Ok (Some {| cm_message := m; cm_claim_id := "c0"; cm_claimed_at := 5 |}) : Res (option ClaimedMessage)).
    { exists (λ _, ("c0", 5)). eexists. split; [reflexivity|]. split; reflexivity. }
    effect 0%nat LoadGeneration 1; [split; reflexivity|].
    effect 0%nat (DispatchWorkers "orders") (dispatch_workers one_worker_tables !! "orders"); [split; reflexivity|].
    effect 0%nat LocalInboxes (local_inboxes one_worker_tables); [split; reflexivity|].
    effect 0%nat (InboxTrySend the_inbox (set_to_worker (Some "w1") m)) (Ok tt : result unit string); [split; reflexivity|].
    effect 0%nat (ClaimAck "c0") (Ok tt : Res unit).
    { eexists. split; [reflexivity|]. reflexivity. }
    apply rtc_refl.
  - split_and!; reflexivity.
Qed.
(*.
*)

(** A worker runs while nobody else does; it sends to other queues. *)
Definition serve_node (X : Type) (e : Eff X) (s : NodeState (Ch := ListChan)) :
    X * NodeState (Ch := ListChan) := ((serve X e (world AckOk Idle)).1, s).

Lemma serve_node_state {A} (p : Prog A) s : run_state serve_node p s = s.
Proof.
  unfold run_state. revert s. induction p as [a|why|X e k IH]; intros s; simpl; [done..|].
  specialize (IH (serve X e (world AckOk Idle)).1 s).
  by destruct (run serve_node _ s) as [[t o] s2].
Qed.

Lemma reached_more c c' :
  demo_reaches c →
  rtc (node_step "orders" queue_producer global_producer None 4) c c' → demo_reaches c'.
Proof. intros (q & r & Hq & Hr) Hs. exists q, r. split; [done|]. by etrans. Qed.

#[local] Ltac allowed :=
  repeat (split; [first [exact eq_refl | split; reflexivity]|]); exact I.

(** C14. A message the node has acknowledged can be lost without a crash: for
    every untargeted message there is a run in which it is sent, dispatched
    to a worker's inbox and acknowledged on the topic's queue, and in which
    that worker then shuts down in the orderly way, acknowledging its
    shutdown and leaving its loop, before it took the message; the inbox goes
    with the worker, and the message is in no queue and was received by
    nobody. *)
Theorem node_loses_dispatched_messages m : to_worker m = None →
  ∃ c tk, demo_reaches c ∧ n_external (shared c) = [m] ∧ n_settled (shared c) = [m] ∧
    held (n_queue (shared c)) = [] ∧
    tasks c !! 1%nat = Some tk ∧ tk_prog tk = Ret LEnd ∧
    n_lost (shared c) = [set_to_worker (Some "w1") m] ∧ taken_by_workers c = [].
Proof.
  intros Hm. destruct (dispatch_demo m Hm) as (tk & [s ts] & Hr & Hts & Hrd & Hdone & Hext & Hset & Hlost & Hheld & Hb).
  simpl in *. subst ts. eexists _, _. split.
  { eapply reached_more; [exact Hr|]. 
    eapply rtc_l; [eapply (StepNext _ _ _ _ _ _ _ _ 1); [reflexivity|reflexivity|
      apply (NextShutdown _ (demo_worker "orders") the_inbox _ 2)]|].
    etrans; [eapply (run_reaches _ _ _ _ _ _ serve_node 1); [reflexivity|allowed]|].
    rewrite serve_node_state.
    apply rtc_once, StepEnv, (EnvDropInbox _ 1%positive). simpl. by rewrite Hb. }
  simpl. split_and!; try done.
  - by rewrite Hlost.
  - unfold taken_by_workers, views, view, received_by. simpl. by rewrite Hrd, Hdone.
Qed.

(** ** The hypotheses can hold *)

Open Scope list_scope.

(** A worker that received a message and handled it. *)
Lemma received_demo m : m = demo_message Standard None →
  ∃ c tk t l, demo_reaches c ∧ tk ∈ tasks c ∧
    (RMessage (demo_worker "orders") the_inbox (Some (set_to_worker (Some "w1") m)), t, l) ∈ tk_done tk.
Proof.
  intros ->. destruct (dispatch_demo (demo_message Standard None) eq_refl)
    as (tk & [s ts] & Hr & Hts & _ & _ & _ & _ & _ & _ & Hb).
  simpl in *. subst ts. eexists _, _, _, _. split; [eapply reached_more; [exact Hr|]|].
  { eapply rtc_l; [eapply (StepNext _ _ _ _ _ _ _ _ 1); [reflexivity|reflexivity|]|].
    { eapply NextReceive; [rewrite Hb; reflexivity|reflexivity]. }
    etrans; [eapply (run_reaches _ _ _ _ _ _ serve_node 1); [reflexivity|allowed]|].
    apply rtc_once. eapply (StepNext _ _ _ _ _ _ _ _ 1); [reflexivity| |].
    { vm_compute. reflexivity. }
    apply (NextShutdown _ (demo_worker "orders") the_inbox _ 0). }
  simpl. split; [right; left|right; left].
Qed.

Lemma node_accounts_for_messages_witness :
  ∃ c : NodeConf (Ch := ListChan), let s := shared c in
  n_entered s ≡ₚ n_external s ++ sent_inside "orders" queue_producer global_producer c ∧
  (length (in_limbo c) ≤ 1)%nat ∧
  ∃ away, Forall targeted away ∧
    bare <$> (n_entered s ++ in_limbo c) ≡ₚ
    bare <$> (held (n_queue s) ++ in_inboxes c ++ n_lost s ++ taken_by_workers c ++ away).
Proof.
  destruct (received_demo _ eq_refl) as (c & _ & _ & _ & Hr & _). exists c.
  exact (node_accounts_for_messages _ _ _ _ _ c Hr).
Defined.


Lemma node_loses_dispatched_messages_witness :
  ∃ c tk, demo_reaches c ∧ n_external (shared c) = [demo_message Standard None] ∧
    n_settled (shared c) = [demo_message Standard None] ∧
    held (n_queue (shared c)) = [] ∧
    tasks c !! 1%nat = Some tk ∧ tk_prog tk = Ret LEnd ∧
    n_lost (shared c) = [set_to_worker (Some "w1") (demo_message Standard None)] ∧
    taken_by_workers c = [].
Proof. apply (node_loses_dispatched_messages (demo_message Standard None)). reflexivity. Defined.

Close Scope list_scope.
Close Scope string_scope.
