(* ===== verification/SystemHandlers.v ===== *)
(** * The system handlers: [event_base_core/src/system_handlers/]

    What the control plane does with the messages of the [_system.*] topics:
    WAL reports, worker discovery and heartbeats, topic discovery and
    synchronisation, audit records, metrics and traces; and the loops that
    send heartbeats and sweep the registry.  The shutdown handlers are in
    [Shutdown]. *)
From S2P Require Import Prelude Prog Errors Message Codec Metrics Tracing Runtime Topic.

Open Scope string_scope.

(** ** [wal.rs] *)

Section wal.
Context `{Bincode WalSyncMessage}.

(** [WalSyncHandler::handler], for the WAL it was built with. *)
Definition wal_sync_handler (h : WalHandle) (m : EMessage) : Prog Ack :=
  match decode_payload (payload m) with
  | None => Ret AckOk
  | Some sync =>
      call (WalUpdateState h (ws_message_id sync) (ws_status sync)) ;;;
      call (WalFlush h) ;;;
      Ret AckOk
  end.
End wal.

(** ** [worker.rs] *)

Section worker.
Context `{Bincode WorkerDiscoveryMessage} `{Bincode WorkerHeartbeatMessage}.

Definition worker_discovery_handler (m : EMessage) : Prog Ack :=
  match decode_payload (payload m) with
  | None => Ret AckOk
  | Some info =>
      now <- call Now ;;
      let worker := {| wi_worker_name := wd_worker_name info; wi_topic := wd_topic info;
                       wi_last_heartbeat := now |} in
      registry_global ;;;
      call (RegRegister worker) ;;;
      Ret AckOk
  end.

Definition worker_heartbeat_handler (m : EMessage) : Prog Ack :=
  match decode_payload (payload m) with
  | None => Ret AckOk
  | Some heartbeat =>
      registry_global ;;;
      call (RegHeartbeat (hb_worker_name heartbeat)) ;;;
      Ret AckOk
  end.

Definition WORKER_HEARTBEAT_INTERVAL : Duration := from_secs 15.
Definition WORKER_CLEANUP_INTERVAL : Duration := from_secs 30.
Definition WORKER_STALE_TIMEOUT : Duration := from_secs 90.
Definition DISCOVERY_REANNOUNCE_EVERY : Z := 10.

(** A system message with the emitting node as its source, sent without
    waiting; a failure is logged. *)
Definition send_from_node (r : TopicRouter) (node : option string) (tpc : string) (pl : bytes)
    : Prog unit :=
  m <- new_message tpc pl Standard None ;;
  send_system r (set_metadata (set_source node (metadata m)) m) (Some true) None ;;;
  Ret tt.

(** The body of the loop of [heartbeat_once] for one worker. *)
Definition announce_one (r : TopicRouter) (node : option string) (missing : bool)
    (w : string * string) : Prog unit :=
  (if missing then
     started <- call Now ;;
     send_from_node r node SYSTEM_TOPIC_WORKER_DISCOVERY
       (encode_or_default {| wd_worker_name := w.1; wd_topic := w.2; wd_started_at := started |})
   else Ret tt) ;;;
  now <- call Now ;;
  send_from_node r node SYSTEM_TOPIC_WORKER_HEARTBEAT
    (encode_or_default {| hb_worker_name := w.1; hb_timestamp := now |}).

(** The name and topic of the local workers that are in the registry. *)
Definition user_workers (all : list Worker) : list (string * string) :=
  (λ w, (w_name w, w_topic w)) <$> filter (λ w, starts_with "_system." (w_topic w) = false) all.

(** The local workers the answer of the registry lacks; an error counts as an
    empty registry. *)
Definition missing_workers (workers : list (string * string)) (r : Res (list WorkerInfo))
    : list string :=
  filter (λ n, n ∉ wi_worker_name <$> unwrap_or r []) workers.*1.

Definition heartbeat_once (reannounce : bool) : Prog unit :=
  o <- call TopicRouterCell ;;
  match o with
  | None => Ret tt
  | Some router =>
      all <- call RouterGetAllWorkers ;;
      let workers := user_workers all in
      missing <-
        (if reannounce then
           registry_global ;;;
           r <- call RegGetAllWorkers ;;
           Ret (missing_workers workers r)
         else Ret []) ;;
      node <- call TryGetNodeName ;;
      for_each workers (λ w, announce_one router node
                               (reannounce && bool_decide (w.1 ∈ missing)) w)
  end.

(** [run_worker_heartbeat_loop] and [run_registry_cleanup_loop], for a number
    of rounds of their endless loops. *)
Fixpoint heartbeat_loop (rounds : nat) (cycle : Z) : Prog unit :=
  match rounds with
  | O => Ret tt
  | S rounds =>
      call (Sleep WORKER_HEARTBEAT_INTERVAL) ;;;
      let cycle := u64_incr cycle in
      heartbeat_once (bool_decide (cycle mod DISCOVERY_REANNOUNCE_EVERY = 0)) ;;;
      heartbeat_loop rounds cycle
  end%Z.

Definition run_worker_heartbeat_loop (rounds : nat) : Prog unit := heartbeat_loop rounds 0.

Definition cleanup_tick : Prog unit :=
  call (Sleep WORKER_CLEANUP_INTERVAL) ;;;
  registry_global ;;;
  call (RegCleanupStale WORKER_STALE_TIMEOUT) ;;;
  Ret tt.

Fixpoint run_registry_cleanup_loop (rounds : nat) : Prog unit :=
  match rounds with
  | O => Ret tt
  | S rounds => cleanup_tick ;;; run_registry_cleanup_loop rounds
  end.
End worker.

(** ** [topic.rs] *)

Section topics.
Context `{Bincode TopicDiscoveryMessage} `{Bincode TopicSyncMessage}.

(** The loop of both handlers: the topics that were not in the list read
    before it are registered. *)
Definition register_missing (topic_list items : list string) : Prog unit :=
  for_each items (λ item,
    if decide (item ∈ topic_list) then Ret tt
    else topic_router_global ;;; call (RegisterTopic item)).

Definition topic_discovery_handler (m : EMessage) : Prog Ack :=
  match decode_payload (payload m) with
  | None => Ret AckOk
  | Some topics =>
      topic_router_global ;;;
      topic_list <- call ReadTopics ;;
      register_missing topic_list (has_topics topics) ;;;
      topic_router_global ;;;
      updated_topics <- call ReadTopics ;;
      sync <- new_message SYSTEM_TOPIC_TOPIC_SYNC
                (encode_or_default {| ts_topics := updated_topics |}) Standard None ;;
      r <- topic_router_global ;;
      topic_send r SYSTEM_TOPIC_TOPIC_SYNC sync None None ;;;
      Ret AckOk
  end.

Definition topic_sync_handler (m : EMessage) : Prog Ack :=
  ty <- get_node_type ;;
  if decide (ty = Host) then Ret AckOk
  else
    match decode_payload (payload m) with
    | None => Ret AckOk
    | Some topics =>
        topic_router_global ;;;
        topic_list <- call ReadTopics ;;
        register_missing topic_list (ts_topics topics) ;;;
        Ret AckOk
    end.
End topics.

(** ** [audit.rs], [metrics.rs], [trace.rs] *)

Section records.
Context `{Bincode AuditRecord} `{Bincode NodeMetrics} `{Json TraceRecord}.

Definition audit_handler (m : EMessage) : Prog Ack :=
  match decode_payload (payload m) with
  | None => Ret AckOk
  | Some record => call (AuditRecordEff record) ;;; Ret AckOk
  end.

Definition metrics_handler (m : EMessage) : Prog Ack :=
  match decode_payload (payload m) with
  | None => Ret AckOk
  | Some info => call (MetricsUpdate info) ;;; Ret AckOk
  end.

Definition system_trace_handler (collectors : list positive) (m : EMessage) : Prog Ack :=
  match json_from_slice (payload m) with
  | Err _ => Ret AckOk
  | Ok record =>
      for_each collectors (λ c, call (CollectTrace c record) ;;; Ret tt) ;;;
      Ret AckOk
  end.

(** ** [metrics/node.rs]: the collector *)

(** [get_node_name] panics on an unnamed node, before the clock is read. *)
Definition collect : Prog NodeMetrics :=
  cpus <- call SysCpus ;;
  mem <- call SysMemory ;;
  ws <- call RouterGetAllWorkers ;;
  o <- call TryGetNodeName ;;
  name <- expect "Node name not initialized" o ;;
  ty <- get_node_type ;;
  now <- call Now ;;
  Ret {| nm_node_name := name; nm_node_type := ty; nm_cpu_percent := cpus;
         nm_memory_percent := memory_used_percent mem.1 mem.2;
         nm_node_worker_count := length ws; nm_update_time := now |}.

Fixpoint collector_start (rounds : nat) : Prog (Res unit) :=
  match rounds with
  | O => Ret (Ok tt)
  | S rounds =>
      info <- collect ;;
      match bincode_encode info with
      | Err e => Ret (Err (ESerialize (SerializeErr e)))
      | Ok pl =>
          m <- new_message SYSTEM_TOPIC_METRICS pl Standard None ;;
          r <- topic_router_global ;;
          topic_send r SYSTEM_TOPIC_METRICS m None None ?;;
          call (Sleep (from_secs 30)) ;;;
          collector_start rounds
      end
  end.
End records.

Close Scope string_scope.
