(* ===== verification/SystemTheorems.v ===== *)
(** * What the control plane achieves *)
From S2P Require Import Prelude Prog Errors Message Codec Wal Registry Runtime Topic Worker World SystemHandlers.

(** ** A worker's report reaches the host's log *)

(** The host's side: the effects on its WAL performed on an implementation of
    the trait, every other effect answered by the concrete node. *)
Section host.
Context {L : Type} `{Wal L}.

Definition wal_serve (e : WalEnv) (X : Type) (c : Eff X) (l : L) : X * L :=
  match c in Eff X return X * L with
  | WalUpdateState _ i s => wal_update_state e i s l
  | WalFlush _ => wal_flush l
  | WalAppend _ r => wal_append r l
  | WalSchedule _ r => wal_schedule r l
  | WalReplayPending _ => wal_replay_pending l
  | WalFetchReady _ => wal_fetch_ready (we_now e) l
  | c => ((serve _ c (world AckOk Idle)).1, l)
  end.
End host.

Lemma wal_sync_handler_decoded `{BincodeLaws WalSyncMessage} h m (s : WalSyncMessage) :
  decode_payload (payload m) = Some s →
  wal_sync_handler h m =
    (call (WalUpdateState h (ws_message_id s) (ws_status s)) ;;;
     call (WalFlush h) ;;; Ret AckOk).
Proof. intros Hd. unfold wal_sync_handler. by rewrite Hd. Qed.

(** C24. A status report that a worker sent with [Ok] reaches the host's log,
    when the log knows the message: the one message it pushed is acknowledged
    by the host's handler whatever its WAL answers; and, whichever WAL
    implementation that is, when the message is in the log and [update_state]
    returns [Ok], the log is left with the reported state for that message and
    with every other entry, the delayed messages and the registry as they
    were.  (Nothing in the program appends messages to the log, see the
    findings.) *)
Theorem wal_report_reaches_log `{BincodeLaws WalSyncMessage} {L : Type} `{WalLaws L}
    wc message_id tpc st att err :
  wp (sync_status wc message_id tpc st att err) (λ t o,
    o = Done (Ok tt) → ∃ p m, sent t = [(p, m)] ∧ topic m = topic (wc_template wc) ∧
      ∀ h e (l : L),
        run_outcome (wal_serve e) (wal_sync_handler h m) l = Done AckOk ∧
        ∀ msg s0 l1, a_records (wal_abs l) !! message_id = Some (msg, s0) →
          wal_update_state e message_id st l = (Ok tt, l1) →
        wal_abs (run_state (wal_serve e) (wal_sync_handler h m) l) =
          {| a_records := <[message_id := (msg, st)]> (a_records (wal_abs l));
             a_delays := a_delays (wal_abs l); a_registry := a_registry (wal_abs l) |}).
Proof.
  unfold sync_status, topic_router_global. cbn [call bind wp]. intros now1 now2.
  destruct (bincode_encode _) as [b|] eqn:Hb; [|by intros [=]].
  cbn [call bind expect wp]. intros u [r|]; cbn [bind expect wp]; [|by intros [=]].
  eapply wp_seq_ok; [apply emit_spec|..].
  - intros t [] (dflt & res & [= <-] & _ & Hs & _). simpl. intros _.
    cbn. change (mbind ev_sent) with sent. rewrite app_nil_r, Hs.
    eexists _, _. split; [done|]. split; [done|].
    intros h e l. apply decode_encoded in Hb.
    rewrite (wal_sync_handler_decoded h (set_id u (set_payload b (wc_template wc))) _ Hb).
    unfold run_outcome, run_state. simpl. split.
    { destruct (wal_update_state e message_id st l) as [x l1]. simpl.
      by destruct (wal_flush l1). }
    intros msg s0 l1 Hl Hu. rewrite Hu. destruct (wal_flush l1) as [r1 l2] eqn:Hf. simpl.
    by rewrite (flush_law _ _ _ Hf), (update_state_law _ _ _ _ _ _ _ Hu Hl).
  - by intros t e _ [=].
  - by intros t why _ [=].
Qed.

(** ** Heartbeats *)

Section heartbeats.
Context `{Bincode WorkerDiscoveryMessage} `{Bincode WorkerHeartbeatMessage}.

(** What one round should announce, in order: for every local worker that is
    not a system worker a heartbeat, preceded by its discovery when the
    registry was asked and does not know it. *)
Inductive Announcement : Type := ADiscovery (name tpc : string) | AHeartbeat (name : string).

Definition announce (missing : string → bool) (w : string * string) : list Announcement :=
  (if missing w.1 then [ADiscovery w.1 w.2] else []) ++ [AHeartbeat w.1].

(** A message that carries an announcement of [node]. *)
Definition carries (node : option string) (a : Announcement) (m : EMessage) : Prop :=
  source (metadata m) = node ∧ delivery_mode m = Standard ∧ to_worker m = None ∧
  match a with
  | ADiscovery name tpc => topic m = SYSTEM_TOPIC_WORKER_DISCOVERY ∧
      ∃ now, payload m = encode_or_default
               {| wd_worker_name := name; wd_topic := tpc; wd_started_at := now |}
  | AHeartbeat name => topic m = SYSTEM_TOPIC_WORKER_HEARTBEAT ∧
      ∃ now, payload m = encode_or_default {| hb_worker_name := name; hb_timestamp := now |}
  end.

(** A trace that attempts exactly the pushes of [l], none of them waiting. *)
Definition announced (r : TopicRouter) (node : option string) (l : list Announcement)
    (t : Trace) : Prop :=
  Forall2 (λ a e, ∃ m, e = (NonBlocking, tr_producer r, m) ∧ carries node a m) l (attempted t).

Lemma announced_app r node l l' t t' :
  announced r node l t → announced r node l' t' → announced r node (l ++ l') (t ++ t').
Proof. unfold announced. rewrite attempted_app. apply Forall2_app. Qed.

Lemma send_from_node_spec r node tpc pl (a : Announcement) :
  (∀ m, topic m = tpc → payload m = pl → source (metadata m) = node →
    delivery_mode m = Standard → to_worker m = None → carries node a m) →
  wp (send_from_node r node tpc pl) (λ t o, o = Done tt ∧ announced r node [a] t).
Proof.
  intros Ha. unfold send_from_node, new_message. cbn [call bind wp]. intros u now.
  eapply wp_seq; [apply emit_spec| |by intros t why (? & ? & [=] & _)].
  intros t res (dflt & res' & _ & Hat & _). simpl. split; [done|].
  rewrite app_nil_r. apply (announced_app _ _ [] [a] [Ev NewUuid u; Ev Now now] t);
    [constructor|].
  unfold announced. rewrite Hat. repeat constructor. eexists. split; [done|]. by apply Ha.
Qed.

Lemma announce_one_spec r node (missing : string → bool) w :
  wp (announce_one r node (missing w.1) w)
    (λ t o, o = Done tt ∧ announced r node (announce missing w) t).
Proof.
  unfold announce_one, announce.
  assert (wp (now <- call Now ;; send_from_node r node SYSTEM_TOPIC_WORKER_HEARTBEAT
      (encode_or_default {| hb_worker_name := w.1; hb_timestamp := now |}))
    (λ t o, o = Done tt ∧ announced r node [AHeartbeat w.1] t)) as Hhb.
  { cbn [call bind wp]. intros now. eapply wp_mono, send_from_node_spec.
    - intros t o [-> Ht]. done.
    - intros m Ht Hp Hs Hd Hto. split_and!; [done..|]. by exists now. }
  destruct (missing w.1); [|done].
  eapply wp_seq with (Ψ := λ t o, o = Done tt ∧ announced r node [ADiscovery w.1 w.2] t).
  - cbn [call bind wp]. intros now. eapply wp_mono, send_from_node_spec.
    + intros t o [-> Ht]. done.
    + intros m Ht Hp Hs Hd Hto. split_and!; [done..|]. by exists now.
  - intros t [] [_ Ht]. eapply wp_mono, Hhb. intros t' o [-> Ht']. split; [done|].
    by apply announced_app.
  - by intros t why [[=] _].
Qed.

Lemma announce_all_spec r node missing ws :
  wp (for_each ws (λ w, announce_one r node (missing w.1) w))
    (λ t o, o = Done tt ∧ announced r node (ws ≫= announce missing) t).
Proof.
  apply (wp_for_each (λ l t, announced r node (l ≫= announce missing) t)).
  - constructor.
  - intros w l t Ht. eapply wp_mono, announce_one_spec. intros t' o [-> Ht'].
    split; [done|]. rewrite bind_app. apply announced_app; [done|]. simpl.
    by rewrite app_nil_r.
Qed.

Lemma bind_ext_in {A B} (f g : A → list B) (l : list A) :
  (∀ x, x ∈ l → f x = g x) → l ≫= f = l ≫= g.
Proof.
  induction l as [|x l IH]; intros Hfg; [done|].
  rewrite !bind_cons, Hfg, IH; [done| |by constructor].
  intros y Hy. apply Hfg. by constructor.
Qed.

Lemma missing_workers_spec ws res n :
  n ∈ ws.*1 → bool_decide (n ∈ missing_workers ws res) =
              bool_decide (n ∉ wi_worker_name <$> unwrap_or res []).
Proof.
  intros Hn. apply bool_decide_ext. unfold missing_workers. rewrite list_elem_of_filter.
  naive_solver.
Qed.

Lemma announce_from_registry reannounce ws res :
  ws ≫= announce (λ n, reannounce && bool_decide (n ∈ missing_workers ws res)) =
  ws ≫= announce (λ n, reannounce && bool_decide (n ∉ wi_worker_name <$> unwrap_or res [])).
Proof.
  apply bind_ext_in. intros w Hw. unfold announce.
  rewrite missing_workers_spec; [done|]. apply list_elem_of_fmap. by exists w.
Qed.

(** One round of the heartbeat loop that completes, on a node whose
    router is up, tries to send exactly one heartbeat for each local worker
    that is not a system worker, in the order of the table, preceded on a
    re-announce round by its discovery if the registry does not list it, each
    under the node's name and without waiting; a refused message does not
    stop the round.  It panics only for want of a registry. *)
Theorem heartbeat_announces_every_worker reannounce :
  wp (heartbeat_once reannounce) (λ t o,
    match o with
    | Done _ => (attempted t = [] ∧ Ev TopicRouterCell None ∈ t) ∨
        ∃ r all res node,
          Ev RouterGetAllWorkers all ∈ t ∧ Ev TryGetNodeName node ∈ t ∧
          (reannounce = true → Ev RegGetAllWorkers res ∈ t) ∧
          announced r node (user_workers all ≫= announce
            (λ n, reannounce && bool_decide (n ∉ wi_worker_name <$> unwrap_or res []))) t
    | Panicked _ => reannounce = true ∧ Ev RegistryCell None ∈ t
    end).
Proof.
  unfold heartbeat_once. cbn [call bind wp]. intros [r|]; cbn [bind wp];
    [|left; split; [done|by apply list_elem_of_here]].
  intros all. destruct reannounce; cbn [bind wp].
  - unfold registry_global. cbn [call bind wp]. intros [[]|]; cbn [expect bind wp];
      [|split; [done|by repeat constructor]].
    intros res node. set (ws := user_workers all).
    pose proof (announce_all_spec r node
      (λ n, true && bool_decide (n ∈ missing_workers ws res)) ws) as Hall.
    eapply wp_mono; [|exact Hall].
    intros t o [-> Ht]. right. exists r, all, res, node. rewrite announce_from_registry in Ht.
    split; [by repeat constructor|]. split; [by repeat constructor|].
    split; [by repeat constructor|]. exact Ht.
  - intros node. set (ws := user_workers all).
    pose proof (announce_all_spec r node (λ _, false) ws) as Hall.
    eapply wp_mono; [|exact Hall].
    intros t o [-> Ht]. right. exists r, all, (Ok []), node.
    split; [by repeat constructor|]. split; [by repeat constructor|]. done.
Qed.
End heartbeats.

(** ** Topic discovery *)

(** Topics registered, and the lists of topics read. *)
Definition ev_registered (v : ev Eff) : list string :=
  match v with Ev e _ => match e with RegisterTopic x => [x] | _ => [] end end.
Definition ev_topics (v : ev Eff) : list (list string) :=
  match v with
  | Ev e x => match e in Eff X return X → list (list string) with
              | ReadTopics => λ l, [l]
              | _ => λ _, []
              end x
  end.
Definition registered (t : Trace) : list string := t ≫= ev_registered.
Definition topics_read (t : Trace) : list (list string) := t ≫= ev_topics.

Lemma registered_app t t' : registered (t ++ t') = registered t ++ registered t'.
Proof. apply bind_app. Qed.
Lemma topics_read_app t t' : topics_read (t ++ t') = topics_read t ++ topics_read t'.
Proof. apply bind_app. Qed.
#[local] Hint Rewrite registered_app topics_read_app : eb_trace.

(** A trace that only registers topics. *)
Definition registers (l : list string) (t : Trace) : Prop :=
  registered t = l ∧ topics_read t = [] ∧ attempted t = [].

Lemma register_missing_spec known items :
  wp (register_missing known items) (λ t o,
    match o with
    | Done _ => registers (filter (λ i, i ∉ known) items) t
    | Panicked _ => topics_read t = [] ∧ attempted t = []
    end).
Proof.
  unfold register_missing. induction items as [|i items IH]; [done|].
  cbn [for_each]. rewrite filter_cons.
  eapply wp_seq with (Ψ := λ t o,
    match o with
    | Done _ => registers (if decide (i ∉ known) then [i] else []) t
    | Panicked _ => topics_read t = [] ∧ attempted t = []
    end); [| |done].
  - case_decide as Hi; [by rewrite decide_False by (intros Hn; by apply Hn)|].
    rewrite decide_True by done. unfold topic_router_global. simpl. by intros [r|]; simpl.
  - intros t [] (Hr & Ht & Ha). eapply wp_mono, IH. intros t' [[]|why].
    + intros (Hr' & Ht' & Ha'). unfold registers. autorewrite with eb_trace.
      rewrite Hr, Ht, Ha, Hr', Ht', Ha'. split; [|done]. by case_decide.
    + intros [Ht' Ha']. autorewrite with eb_trace. by rewrite Ht, Ht', Ha, Ha'.
Qed.

Lemma register_topic_in l x y : y ∈ register_topic l x ↔ y ∈ l ∨ y = x.
Proof. unfold register_topic. case_decide; [naive_solver|]. set_solver. Qed.

Lemma register_topic_NoDup l x : NoDup l → NoDup (register_topic l x).
Proof.
  intros Hl. unfold register_topic. case_decide; [done|]. apply NoDup_app. split; [done|].
  split; [set_solver|]. apply NoDup_singleton.
Qed.

Lemma foldl_register_in xs l y : y ∈ foldl register_topic l xs ↔ y ∈ l ∨ y ∈ xs.
Proof.
  revert l. induction xs as [|x xs IH]; intros l; simpl; [set_solver|].
  rewrite IH, register_topic_in. set_solver.
Qed.

Lemma foldl_register_NoDup xs l : NoDup l → NoDup (foldl register_topic l xs).
Proof. revert l. induction xs; simpl; eauto using register_topic_NoDup. Qed.

(** What a merge of [items] into the list [known] must give. *)
Definition merged (known items after : list string) : Prop :=
  (∀ x, x ∈ after ↔ x ∈ known ∨ x ∈ items) ∧ (NoDup known → NoDup after) ∧
  known `prefix_of` after.

Lemma foldl_register_prefix xs l : l `prefix_of` foldl register_topic l xs.
Proof.
  revert l. induction xs as [|x xs IH]; intros l; simpl; [done|].
  etrans; [|apply IH]. unfold register_topic. case_decide; [done|]. by eexists.
Qed.

Lemma register_missing_merges known items :
  merged known items (foldl register_topic known (filter (λ i, i ∉ known) items)).
Proof.
  split; [|split; [apply foldl_register_NoDup|apply foldl_register_prefix]].
  intros x. rewrite foldl_register_in, list_elem_of_filter.
  destruct (decide (x ∈ known)); naive_solver.
Qed.

Lemma send_no_topics r tpc m ts d :
  wp (topic_send r tpc m ts d) (λ t _, registered t = [] ∧ topics_read t = []).
Proof.
  assert (only (λ X (e : Eff X), match e with RegisterTopic _ | ReadTopics => False | _ => True end)
    (topic_send r tpc m ts d)) as Ho.
  { unfold topic_send, topic_emit, registry_wal, registry_global, get_node_type. only_solve. }
  apply wp_and; (eapply only_obs; [|exact Ho]); by intros X [] x.
Qed.

Section topic_theorems.
Context `{Bincode TopicDiscoveryMessage} `{Bincode TopicSyncMessage}.

(** A discovery request that completes registers exactly those of the
    sender's topics that the host did not list when it looked, so that its
    list becomes the union, old topics first and without duplicates, and is
    answered by one attempt to send the list then read on the topic of
    synchronisation. *)
Theorem topic_discovery_merges m req :
  decode_payload (payload m) = Some req →
  wp (topic_discovery_handler m) (λ t o,
    o = Done AckOk → ∃ known updated,
      topics_read t = [known; updated] ∧
      merged known (has_topics req) (foldl register_topic known (registered t)) ∧
      ∃ k p reply, attempted t = [(k, p, reply)] ∧ topic reply = SYSTEM_TOPIC_TOPIC_SYNC ∧
        payload reply = encode_or_default {| ts_topics := updated |}).
Proof.
  intros Hm. unfold topic_discovery_handler. rewrite Hm. unfold topic_router_global.
  cbn [call bind wp]. intros [r0|]; cbn [expect bind wp]; [|by intros [=]].
  intros known. eapply wp_seq; [apply register_missing_spec| |by intros ? ? _ [=]].
  intros t [] (Hr & Ht & Ha). cbn [call bind wp]. intros [r1|]; cbn [expect bind wp];
    [|by intros [=]].
  intros updated. unfold new_message. cbn [call bind wp]. intros u now.
  intros [r2|]; cbn [expect bind wp]; [|by intros [=]].
  eapply wp_seq; [apply wp_and; [by apply send_plain_spec|apply send_no_topics]| |
    by intros ? ? _ [=]].
  intros t2 res [(dflt & res' & [= ->] & Hp) [Hr2 Ht2]]. cbn [wp]. intros _.
  destruct Hp as (Ha2 & _). exists known, updated.
  rewrite app_nil_r.
  match goal with |- topics_read ?T = _ ∧ _ =>
    replace T with ([Ev TopicRouterCell (Some r0); Ev ReadTopics known] ++ t ++
      [Ev TopicRouterCell (Some r1); Ev ReadTopics updated; Ev NewUuid u; Ev Now now;
       Ev TopicRouterCell (Some r2)] ++ t2) by done
  end.
  autorewrite with eb_trace. rewrite Hr, Ht, Ha, Hr2, Ht2, Ha2.
  split; [done|]. split.
  - cbn. rewrite app_nil_r. apply register_missing_merges.
  - eexists _, _, _. split; [done|]. done.
Qed.
End topic_theorems.

(** ** Liveness of the registry *)

Section liveness.
Context {L : Type} `{Wal L} `{HashOrder}.
Implicit Types reg : WorkerRegistry L.

(** What the handlers and the sweep do to the registry, with the clock
    reading of each call. *)
Inductive RegOp : Type :=
| Discover (now : SystemTime) (i : WorkerInfo)
| Beat (now : SystemTime) (name : string)
| Sweep (now : SystemTime).

(** The calls of [worker_discovery_handler], [worker_heartbeat_handler] and
    [cleanup_tick]. *)
Definition reg_step reg (op : RegOp) : WorkerRegistry L :=
  match op with
  | Discover now i =>
      (registry_register {| wi_worker_name := wi_worker_name i; wi_topic := wi_topic i;
                            wi_last_heartbeat := now |} reg).2
  | Beat now name => (registry_heartbeat now name reg).2
  | Sweep now => (registry_cleanup_stale now WORKER_STALE_TIMEOUT reg).2
  end.

(** The worker [name], last heard of at [last], is never silent for longer
    than the timeout when a sweep comes. *)
Fixpoint kept_alive (name : string) (last : SystemTime) (ops : list RegOp) : Prop :=
  match ops with
  | [] => True
  | Discover now i :: ops =>
      kept_alive name (if decide (wi_worker_name i = name) then now else last) ops
  | Beat now n :: ops => kept_alive name (if decide (n = name) then now else last) ops
  | Sweep now :: ops => last ≤ now ≤ last + WORKER_STALE_TIMEOUT ∧ kept_alive name last ops
  end.

Definition discovers (name : string) (op : RegOp) : Prop :=
  match op with Discover _ i => wi_worker_name i = name | _ => False end.

Lemma saved_lookup m reg :
  workers (save_worker_registry (with_workers m reg)).2 = m.
Proof.
  destruct (save_worker_registry (with_workers m reg)) as [o r] eqn:Hs. simpl.
  by apply save_workers in Hs as ->.
Qed.

Lemma sweep_lookup now reg name :
  workers (registry_cleanup_stale now WORKER_STALE_TIMEOUT reg).2 !! name =
    workers reg !! name ≫= λ i, if decide (is_stale now WORKER_STALE_TIMEOUT i) then None
                                else Some i.
Proof.
  destruct (registry_cleanup_stale _ _ reg) as [o r] eqn:Hs. simpl.
  rewrite (registry_cleanup_inv _ _ _ _ _ Hs), map_lookup_filter.
  destruct (workers reg !! name) as [i|]; simpl; [|done].
  destruct (decide (is_stale _ _ i)).
  - rewrite option_guard_False by naive_solver. done.
  - by rewrite option_guard_True.
Qed.

Lemma fresh_not_stale now i :
  wi_last_heartbeat i ≤ now ≤ wi_last_heartbeat i + WORKER_STALE_TIMEOUT →
  ¬ is_stale now WORKER_STALE_TIMEOUT i.
Proof.
  intros Ht. unfold is_stale, duration_since. rewrite decide_True by lia. simpl. lia.
Qed.

(** C34. A worker in the registry that is heard of (by a heartbeat or a
    discovery) at least every 90 seconds before each sweep stays in it,
    whatever happens to the others; and a worker that is not in the registry
    is not brought back by heartbeats, only by a discovery. *)
Theorem registry_liveness reg name ops :
  (∀ i, workers reg !! name = Some i → kept_alive name (wi_last_heartbeat i) ops →
     is_Some (workers (foldl reg_step reg ops) !! name)) ∧
  (workers reg !! name = None → Forall (λ op, ¬ discovers name op) ops →
     workers (foldl reg_step reg ops) !! name = None).
Proof.
  revert reg. induction ops as [|op ops IH]; intros reg; [by split; [intros i Hi _; exists i|]|].
  cbn [foldl]. split.
  - intros i Hi Hk. destruct op as [now j|now n|now]; cbn [kept_alive] in Hk.
    + set (reg1 := reg_step reg (Discover now j)). destruct (IH reg1) as [IH1 _].
      assert (workers reg1 = <[wi_worker_name j := {| wi_worker_name := wi_worker_name j;
        wi_topic := wi_topic j; wi_last_heartbeat := now |}]> (workers reg)) as Hw
        by apply saved_lookup.
      destruct (decide (wi_worker_name j = name)) as [<-|Hn].
      * eapply IH1; [by rewrite Hw, lookup_insert_eq|done].
      * eapply IH1; [by rewrite Hw, lookup_insert_ne|done].
    + set (reg1 := reg_step reg (Beat now n)). destruct (IH reg1) as [IH1 _].
      assert (workers reg1 = alter (set_heartbeat now) n (workers reg)) as Hw
        by apply saved_lookup.
      destruct (decide (n = name)) as [<-|Hn].
      * eapply IH1; [by rewrite Hw, lookup_alter_eq, Hi|done].
      * eapply IH1; [by rewrite Hw, lookup_alter_ne|done].
    + destruct Hk as [Ht Hk]. eapply (proj1 (IH _)); [|exact Hk]. simpl.
      rewrite sweep_lookup, Hi. simpl. rewrite decide_False; [done|].
      by apply fresh_not_stale.
  - intros Hi [Hd Hds]%Forall_cons. apply (proj2 (IH _)); [|done].
    destruct op as [now j|now n|now]; simpl in *.
    + unfold registry_register. rewrite saved_lookup, lookup_insert_ne; done.
    + unfold registry_heartbeat. rewrite saved_lookup. destruct (decide (n = name)) as [->|].
      * by rewrite lookup_alter_eq, Hi.
      * by rewrite lookup_alter_ne.
    + by rewrite sweep_lookup, Hi.
Qed.
End liveness.

(** ** Witnesses *)

Import SerCodec.
Open Scope string_scope.

Definition demo_log : MemoryWal :=
  (mem_append (WalRecord_from_msg (demo_message Standard None)) MemoryWal_new).2.

Definition demo_report : Prog (Res unit) :=
  sync_status (w_wal (demo_worker "orders")) "m1" "orders" Complete 1 None.

Lemma wal_report_reaches_log_witness :
  ∃ m, sent (run_trace serve demo_report (world AckOk Idle)) = [(the_producer, m)] ∧
    run_outcome (wal_serve (H := MemoryWal_wal (H := list_order)) {| we_uuid := "u"; we_now := 5 |})
      (wal_sync_handler the_wal m) demo_log = Done AckOk ∧
    a_records (mem_abs (run_state (wal_serve (H := MemoryWal_wal (H := list_order))
        {| we_uuid := "u"; we_now := 5 |}) (wal_sync_handler the_wal m) demo_log)) !! "m1" =
      Some (demo_message Standard None, Complete).
Proof.
  pose proof (wp_run serve _ _ (world AckOk Idle) (wal_report_reaches_log (L := MemoryWal)
    (H1 := MemoryWal_wal (H := list_order)) (H2 := MemoryWal_laws (H := list_order))
    (w_wal (demo_worker "orders")) "m1" "orders" Complete 1 None)) as W.
  destruct (W eq_refl) as (p & m & Hs & _ & Hm). exists m.
  destruct (Hm the_wal {| we_uuid := "u"; we_now := 5 |} demo_log) as [Ho Ha0].
  pose proof (Ha0 (demo_message Standard None) Pending _ eq_refl eq_refl) as Ha.
  split; [|split].
  - etrans; [exact Hs|]. vm_compute in Hs. injection Hs as <- _. reflexivity.
  - exact Ho.
  - etrans; [exact (f_equal (λ a, a_records a !! "m1") Ha)|reflexivity].
Defined.

Lemma topic_discovery_merges_witness :
  let req := {| has_topics := ["a"; "b"; "a"] |} in
  let m := EMessage_new "m1" 500 SYSTEM_TOPIC_TOPIC_DISCOVERY (encode_or_default req) Standard None in
  let t := run_trace serve (topic_discovery_handler m) (world AckOk Idle) in
  ∃ known updated, topics_read t = [known; updated] ∧
    merged known ["a"; "b"; "a"] (foldl register_topic known (registered t)).
Proof.
  intros req m t.
  assert (decode_payload (payload m) = Some req) as Hd by (apply (decode_encoded req); reflexivity).
  destruct (wp_run serve _ _ (world AckOk Idle) (topic_discovery_merges m req Hd) eq_refl)
    as (known & updated & Ht & Hm & _). by exists known, updated.
Defined.

Lemma registry_liveness_witness :
  is_Some (workers (foldl
    (reg_step (H := MemoryWal_wal (H := list_order)) (H0 := list_order)) demo_registry
    [Sweep (from_secs 60); Beat (from_secs 80) "n@w1"; Sweep (from_secs 120)]) !! "n@w1").
Proof.
  refine (proj1 (registry_liveness (H := MemoryWal_wal (H := list_order)) (H0 := list_order)
    demo_registry "n@w1" _) demo_info eq_refl _).
  vm_compute. repeat split; discriminate.
Defined.

Close Scope string_scope.
