(* ===== verification/Shutdown.v ===== *)
(** * Shutdown strategies: [event_base_core/src/shutdown/methods.rs],
    [system_handlers/shutdown.rs]

    Every strategy ends workers with [Worker::shutdown] and removes them from
    the router with [del_worker], which aborts their task.  [fuel] bounds the
    rounds of each waiting loop; [None] means it was used up. *)
From S2P Require Import Prelude Prog Errors Message Codec Runtime Topic Worker.

Open Scope string_scope.

Section methods.
Context `{Bincode ShutdownAck}.

(** [worker.shutdown(Duration::ZERO, Some(Duration::ZERO))]. *)
Definition shutdown_now (fuel : nat) (w : Worker) : Prog (option (Res unit)) :=
  shutdown fuel w 0 (Some 0).

(** [for worker in workers { let _ = worker.shutdown(..).await; let _ = del_worker(..).await; }]. *)
Fixpoint force_loop (fuel : nat) (ws : list Worker) : Prog (option unit) :=
  match ws with
  | [] => Ret (Some tt)
  | w :: ws =>
      o <- shutdown_now fuel w ;;
      match o with
      | None => Ret None
      | Some _ => call (RouterDelWorker (w_name w)) ;;; force_loop fuel ws
      end
  end.

Definition shutdown_force (fuel : nat) : Prog (option unit) :=
  ws <- call RouterGetAllWorkers ;; force_loop fuel ws.

Definition shutdown_timeout (fuel : nat) (timeout : Duration) : Prog (option unit) :=
  call (Sleep timeout) ;;; shutdown_force fuel.

Fixpoint idle_loop (fuel : nat) (ws : list Worker) : Prog (option unit) :=
  match ws with
  | [] => Ret (Some tt)
  | w :: ws =>
      st <- call (GetStatus (w_name w)) ;;
      if decide (st = Idle) then
        o <- shutdown_now fuel w ;;
        match o with
        | None => Ret None
        | Some _ => call (RouterDelWorker (w_name w)) ;;; idle_loop fuel ws
        end
      else idle_loop fuel ws
  end.

Definition shutdown_idle_only (fuel : nat) : Prog (option unit) :=
  ws <- call RouterGetAllWorkers ;; idle_loop fuel ws.

(** [slice::chunks(n)], which panics for [n = 0]. *)
Fixpoint chunks_fuel {A} (k n : nat) (l : list A) : list (list A) :=
  match k with
  | O => []
  | S k => match l with [] => [] | _ => take n l :: chunks_fuel k n (drop n l) end
  end.
Definition chunks {A} (n : nat) (l : list A) : list (list A) := chunks_fuel (length l) n l.

Fixpoint batched_loop (fuel : nat) (interval : Duration) (cs : list (list Worker))
    : Prog (option unit) :=
  match cs with
  | [] => Ret (Some tt)
  | ws :: cs =>
      o <- force_loop fuel ws ;;
      match o with
      | None => Ret None
      | Some _ => call (Sleep interval) ;;; batched_loop fuel interval cs
      end
  end.

Definition shutdown_batched (fuel : nat) (batch_size : nat) (interval : Duration)
    : Prog (option unit) :=
  ws <- call RouterGetAllWorkers ;;
  if decide (batch_size = 0%nat) then Panic "chunk size must be non-zero"
  else batched_loop fuel interval (chunks batch_size ws).

(** [graceful_shutdown]. *)
Fixpoint graceful_loop (fuel : nat) (w : Worker) (poll_interval : Duration)
    : Prog (option (Res unit)) :=
  match fuel with
  | O => Ret None
  | S fuel' =>
      st <- call (GetStatus (w_name w)) ;;
      if decide (st = Idle) then
        o <- shutdown_now fuel w ;;
        match o with
        | None => Ret None
        | Some (Err e) => Ret (Some (Err e))
        | Some (Ok _) => res <- call (RouterDelWorker (w_name w)) ;; Ret (Some res)
        end
      else call (Sleep poll_interval) ;;; graceful_loop fuel' w poll_interval
  end.

Definition graceful_shutdown (fuel : nat) (worker_id : string) (poll_interval : Duration)
    : Prog (option (Res unit)) :=
  r <- call (RouterGetWorker worker_id) ;;
  match r with
  | Err e => Ret (Some (Err e))
  | Ok w => graceful_loop fuel w poll_interval
  end.

(** [shutdown_all_workers_two_stage]. *)
Fixpoint all_complete (ws : list Worker) : Prog bool :=
  match ws with
  | [] => Ret true
  | w :: ws =>
      b <- call (IsShutdownComplete (w_name w)) ;;
      if b : bool then all_complete ws else Ret false
  end.

Definition del_all (ws : list Worker) : Prog unit :=
  for_each ws (λ w, call (RouterDelWorker (w_name w)) ;;; Ret tt).

(** The forced stage: an error of [Worker::shutdown] leaves the function. *)
Fixpoint forced_stage (fuel : nat) (ws : list Worker) : Prog (option (Res unit)) :=
  match ws with
  | [] => Ret (Some (Ok tt))
  | w :: ws =>
      o <- shutdown_now fuel w ;;
      match o with
      | None => Ret None
      | Some (Err e) => Ret (Some (Err e))
      | Some (Ok _) => call (RouterDelWorker (w_name w)) ;;; forced_stage fuel ws
      end
  end.

Fixpoint two_stage_loop (rounds fuel : nat) (timeout poll_interval : Duration) (start : Z)
    : Prog (option (Res unit)) :=
  match rounds with
  | O => Ret None
  | S rounds =>
      el <- call (Elapsed start) ;;
      if decide (el < timeout) then
        ws <- call RouterGetAllWorkers ;;
        match ws with
        | [] => Ret (Some (Ok tt))
        | _ =>
            all_done <- all_complete ws ;;
            if all_done : bool then del_all ws ;;; Ret (Some (Ok tt))
            else
              call (Sleep poll_interval) ;;;
              two_stage_loop rounds fuel timeout poll_interval start
        end
      else
        ws <- call RouterGetAllWorkers ;;
        forced_stage fuel ws
  end.

Definition shutdown_all_workers_two_stage (rounds fuel : nat) (timeout poll_interval : Duration)
    : Prog (option (Res unit)) :=
  call ShutdownBroadcast ;;;
  start <- call InstantNow ;;
  two_stage_loop rounds fuel timeout poll_interval start.

(** [ShutdownHandler::handler]: the acknowledgement is [Ack] in every case. *)
Context `{Json ShutdownCommand}.

Definition drop_result {A} (p : Prog (option A)) : Prog (option Ack) :=
  o <- p ;; match o with None => Ret None | Some _ => Ret (Some AckOk) end.

Definition shutdown_handler (fuel : nat) (m : EMessage) : Prog (option Ack) :=
  match json_from_slice (payload m) with
  | Err _ => Ret (Some AckOk)
  | Ok cmd =>
      match strategy cmd with
      | TwoStage poll_ms force_secs =>
          drop_result (shutdown_all_workers_two_stage fuel fuel (from_secs force_secs)
                         (from_millis poll_ms))
      | Graceful name poll_ms => drop_result (graceful_shutdown fuel name (from_millis poll_ms))
      | TimeoutStrategy secs => drop_result (shutdown_timeout fuel (from_secs secs))
      | Force => drop_result (shutdown_force fuel)
      | StateBasedIdle => drop_result (shutdown_idle_only fuel)
      | Batched n ms => drop_result (shutdown_batched fuel (Z.to_nat n) (from_millis ms))
      end
  end.

(** [ShutdownAckHandler::handler]. *)
Definition shutdown_ack_handler (m : EMessage) : Prog Ack :=
  match decode_payload (payload m) with
  | Some a =>
      registry_global ;;;
      call (RegUnregister (sa_worker_name a)) ;;;
      Ret AckOk
  | None => Ret AckOk
  end.
End methods.

Close Scope string_scope.
