(* ===== verification/ShutdownTheorems.v ===== *)
(** * What the shutdown strategies remove *)
From S2P Require Import Prelude Prog Errors Message Codec Runtime Topic Worker WorkerShutdown World Router RouterTheorems Shutdown.

(** ** Observations *)

Definition ev_deleted (v : ev Eff) : list string :=
  match v with Ev e _ => match e with RouterDelWorker n => [n] | _ => [] end end.
Definition ev_snapshot (v : ev Eff) : list (list Worker) :=
  match v with
  | Ev e x =>
      match e in Eff X return X → list (list Worker) with
      | RouterGetAllWorkers => λ ws, [ws]
      | _ => λ _, []
      end x
  end.
Definition ev_seen_idle (v : ev Eff) : list string :=
  match v with
  | Ev e x =>
      match e in Eff X return X → list string with
      | GetStatus n => λ s, if decide (s = Idle) then [n] else []
      | _ => λ _, []
      end x
  end.

Definition deleted (t : Trace) : list string := t ≫= ev_deleted.
Definition snapshots (t : Trace) : list (list Worker) := t ≫= ev_snapshot.
Definition seen_idle (t : Trace) : list string := t ≫= ev_seen_idle.

Lemma deleted_app t t' : deleted (t ++ t') = deleted t ++ deleted t'.
Proof. apply bind_app. Qed.
Lemma snapshots_app t t' : snapshots (t ++ t') = snapshots t ++ snapshots t'.
Proof. apply bind_app. Qed.
Lemma seen_idle_app t t' : seen_idle (t ++ t') = seen_idle t ++ seen_idle t'.
Proof. apply bind_app. Qed.
#[export] Hint Rewrite deleted_app snapshots_app seen_idle_app : eb_trace.

(** ** The parts *)

Section methods.
Context `{Bincode ShutdownAck}.

Definition leaves_router (X : Type) (e : Eff X) : Prop :=
  match e with RouterDelWorker _ | RouterGetAllWorkers => False | _ => True end.

Lemma shutdown_leaves_router fuel w ci d : only leaves_router (shutdown fuel w ci d).
Proof.
  assert (∀ n start, only leaves_router (wait_idle n w ci d start)) as Hw.
  { intros n start. induction n as [|n IH]; [done|]. rewrite wait_idle_eq. only_solve. }
  unfold shutdown, new_message, topic_router_global, topic_send, topic_emit, registry_wal,
    registry_global, get_node_type. only_solve.
Qed.

Definition quiet_router (t : Trace) : Prop := deleted t = [] ∧ snapshots t = [].

Lemma shutdown_now_quiet fuel w : wp (shutdown_now fuel w) (λ t _, quiet_router t).
Proof.
  apply wp_and; (eapply only_obs; [|apply shutdown_leaves_router]); by intros X [] x.
Qed.

(** A prefix of [l] was removed; all of it if the loop came to its end. *)
Definition removes {A} (l : list string) (t : Trace) (o : outcome (option A)) : Prop :=
  snapshots t = [] ∧
  match o with Done (Some _) => deleted t = l | _ => deleted t `prefix_of` l end.

Lemma force_loop_spec fuel ws :
  wp (force_loop fuel ws) (removes (w_name <$> ws)).
Proof.
  induction ws as [|w ws IH]; [done|]. cbn [force_loop].
  eapply wp_seq; [apply shutdown_now_quiet|..].
  - intros t [r|] [Hd Hs]; cbn [call bind wp].
    + intros r'. eapply wp_mono, IH. intros t' o [Hs' Ho]. unfold removes.
      change (Ev (RouterDelWorker (w_name w)) r' :: t')
        with ([Ev (RouterDelWorker (w_name w)) r'] ++ t').
      split; [by trace_solve|]. autorewrite with eb_trace. rewrite Hd. csimpl.
      destruct o as [[u|]|]; [by rewrite Ho|by apply prefix_cons..].
    + rewrite app_nil_r. split; [done|]. rewrite Hd. apply prefix_nil.
  - intros t why [Hd Hs]. split; [done|]. rewrite Hd. apply prefix_nil.
Qed.

Lemma force_spec fuel :
  wp (shutdown_force fuel) (λ t o,
    ∃ ws, snapshots t = [ws] ∧
      match o with
      | Done (Some _) => deleted t = w_name <$> ws
      | _ => deleted t `prefix_of` w_name <$> ws
      end).
Proof.
  unfold shutdown_force. cbn [call bind wp]. intros ws.
  eapply wp_mono, force_loop_spec. intros t o [Hs Ho]. exists ws. split; [|done].
  change (Ev RouterGetAllWorkers ws :: t) with ([Ev RouterGetAllWorkers ws] ++ t).
  by trace_solve.
Qed.

Section force.
Context {S : Type} (h : ∀ X, Eff X → S → X * S) (clock : S → SystemTime).

Lemma force_loop_ends fuel ws s :
  clock_runs h clock → (∀ s, clock s < clock (h _ Now s).2) →
  run_outcome h (force_loop (Datatypes.S fuel) ws) s ≠ Done None.
Proof.
  intros Hc Ht. revert s. induction ws as [|w ws IH]; intros s; [done|]. cbn [force_loop].
  rewrite run_outcome_bind. unfold shutdown_now.
  pose proof (shutdown_now_ends h clock fuel w 0 s Hc Ht) as Hn.
  destruct (run_outcome h (shutdown _ w 0 (Some 0)) s) as [[r|]|]; [|done..].
  cbn [call bind]. rewrite run_outcome_vis. apply IH.
Qed.

(** The table of workers is the one the calls of the consumer router read and
    change; nothing else the system does meanwhile changes it, and every call
    is answered. *)
Record answers_from `{HashOrder} (router : S → ConsumerRouter) : Prop := {
  from_all : ∀ s, (h _ RouterGetAllWorkers s).1 = get_all_workers (router s) ∧
    worker_index (router (h _ RouterGetAllWorkers s).2) = worker_index (router s);
  from_del : ∀ n s, (h _ (RouterDelWorker n) s).1 = (del_worker n (router s)).1.1 ∧
    router (h _ (RouterDelWorker n) s).2 = (del_worker n (router s)).2;
  from_rest : ∀ X (e : Eff X) s, leaves_router X e →
    worker_index (router (h _ e s).2) = worker_index (router s)
}.

Lemma del_worker_index n (c : ConsumerRouter) :
  worker_index (del_worker n c).2 = delete n (worker_index c).
Proof.
  unfold del_worker. destruct (worker_index c !! n) as [[w j]|] eqn:E; [done|].
  by rewrite delete_id.
Qed.

Lemma only_keeps_index `{HashOrder} router {A} (p : Prog A) s :
  answers_from router → only leaves_router p →
  worker_index (router (run_state h p s)) = worker_index (router s).
Proof.
  intros Hr. revert s. induction p as [a|why|X e k IH]; intros s; [done..|].
  intros [He Hk]. rewrite run_state_vis, IH by apply Hk. by apply from_rest.
Qed.

(** The loop removes from the table exactly the workers of the list. *)
Lemma force_loop_index `{HashOrder} router fuel ws s :
  answers_from router → run_outcome h (force_loop fuel ws) s = Done (Some tt) →
  worker_index (router (run_state h (force_loop fuel ws) s)) =
  foldl (λ m w, delete (w_name w) m) (worker_index (router s)) ws.
Proof.
  intros Hr. revert s. induction ws as [|w ws IH]; intros s; [done|]. cbn [force_loop foldl].
  rewrite run_outcome_bind, run_state_bind.
  pose proof (only_keeps_index router (shutdown_now fuel w) s Hr
    (shutdown_leaves_router _ _ _ _)) as Hk.
  destruct (run_outcome h (shutdown_now fuel w) s) as [[r|]|why]; [|done..].
  cbn [call bind]. rewrite run_outcome_vis, run_state_vis. intros Ho. rewrite IH by done.
  f_equal. by rewrite (proj2 (from_del _ Hr _ _)), del_worker_index, Hk.
Qed.

Lemma foldl_delete_lookup {V} (ws : list Worker) (m : gmap string V) n :
  foldl (λ m w, delete (w_name w) m) m ws !! n =
  if decide (n ∈ w_name <$> ws) then None else m !! n.
Proof.
  revert m. induction ws as [|w ws IH]; intros m; cbn [foldl]; [done|]. rewrite IH. csimpl.
  destruct (decide (n = w_name w)) as [->|Hne].
  - rewrite lookup_delete_eq, (decide_True (P := _ ∈ _ :: _)) by constructor. by case_decide.
  - rewrite lookup_delete_ne by done. apply decide_ext. rewrite elem_of_cons. naive_solver.
Qed.

Lemma snapshot_covers `{HashOrder} (c : ConsumerRouter) :
  router_inv c →
  foldl (λ m w, delete (w_name w) m) (worker_index c) (get_all_workers c) = ∅.
Proof.
  intros Hi. apply map_eq. intros n. rewrite foldl_delete_lookup, lookup_empty.
  case_decide as Hn; [done|]. destruct (worker_index c !! n) as [[w j]|] eqn:E; [|done].
  destruct Hn. destruct (inv_index _ _ _ Hi _ _ _ E) as [<- _].
  apply list_elem_of_fmap_2, list_elem_of_fmap. exists (w, j). split; [done|].
  apply elem_of_hash_values. eauto.
Qed.

(** C36. [shutdown_force] ends, on every system whose clock readings advance
    and whose consumer router answers its calls (so not under the read guard
    the main loop of a started node keeps, see [Locks], and not on one of the
    workers it removes, see below).  It takes one snapshot, shuts down and
    removes its workers in order, whatever errors single workers return, and
    leaves the table of workers empty when nobody else changes it; a panic (a
    topic router never initialised) leaves a part of the snapshot removed. *)
Theorem force_removes_everyone `{HashOrder} router fuel s :
  clock_runs h clock → (∀ s, clock s < clock (h _ Now s).2) →
  answers_from router → router_inv (router s) →
  let t := run_trace h (shutdown_force (Datatypes.S fuel)) s in
  let o := run_outcome h (shutdown_force (Datatypes.S fuel)) s in
  let s' := run_state h (shutdown_force (Datatypes.S fuel)) s in
  let names := w_name <$> get_all_workers (router s) in
  length (snapshots t) = 1%nat ∧
  match o with
  | Done r => r = Some tt ∧ deleted t = names ∧ worker_index (router s') = ∅
  | Panicked _ => deleted t `prefix_of` names
  end.
Proof.
  intros Hc Ht Hr Hi t o s' names.
  destruct (from_all _ Hr s) as [Hall Hidx].
  assert (∃ ws, snapshots t = [ws] ∧
    match o with Done (Some _) => deleted t = w_name <$> ws
               | _ => deleted t `prefix_of` w_name <$> ws end) as (ws & Hs & Ho)
    by exact (wp_run h _ _ s (force_spec (Datatypes.S fuel))).
  assert (ws = get_all_workers (router s)) as ->.
  { assert (∃ l, snapshots t = [get_all_workers (router s)] ++ l) as [l Hl].
    { unfold t, shutdown_force. cbn [call bind]. unfold run_trace. cbn [run].
      destruct (h _ RouterGetAllWorkers s) as [ws' s1]. simpl in Hall. subst ws'.
      destruct (run _ _ s1) as [[t1 o1] s2]. by exists (snapshots t1). }
    rewrite Hs in Hl. by injection Hl. }
  split; [by rewrite Hs|].
  assert (o = Done (Some tt) → worker_index (router s') = ∅) as Hempty.
  { unfold o, s', shutdown_force. cbn [call bind]. rewrite run_outcome_vis, run_state_vis, Hall.
    intros Hd. rewrite force_loop_index by done. rewrite Hidx. by apply snapshot_covers. }
  assert (o ≠ Done None) as Hn.
  { unfold o, shutdown_force. cbn [call bind]. rewrite run_outcome_vis.
    by apply force_loop_ends. }
  destruct o as [[[]|]|]; [|done..]. split_and!; [done|exact Ho|by apply Hempty].
Qed.
End force.

(** The removals of the calling task itself: [abort] cancels the task of the
    removed worker at its next suspension point, so that a strategy that runs
    on the worker [me] performs nothing after removing [me]. *)
Fixpoint until_removed (me : string) (t : Trace) : Trace :=
  match t with
  | [] => []
  | v :: t => if decide (ev_deleted v = [me]) then [v] else v :: until_removed me t
  end.

Lemma until_removed_deleted me t pre post :
  deleted t = pre ++ me :: post → me ∉ pre → deleted (until_removed me t) = pre ++ [me].
Proof.
  revert pre. induction t as [|v t IH]; intros pre Hd Hpre; cbn [until_removed].
  { by destruct pre. }
  change (deleted (v :: t)) with (ev_deleted v ++ deleted t) in Hd.
  case_decide as Hv.
  - rewrite Hv in Hd. destruct pre as [|x pre]; simpl in Hd; simplify_eq; [|set_solver].
    unfold deleted. csimpl. by rewrite Hv.
  - change (ev_deleted v ++ deleted (until_removed me t) = pre ++ [me]).
    destruct (ev_deleted v) as [|x [|? ?]] eqn:Ev; simpl in *.
    + by apply IH.
    + destruct pre as [|y pre]; simpl in *; simplify_eq.
      f_equal. apply IH; [done|set_solver].
    + destruct v as [X e r]. by destruct e.
Qed.

(** Boundary of the above: a forced shutdown that runs on one of the
    workers it removes (the system workers are in the same table) stops with
    the removal of that worker; the workers behind it in the snapshot are
    neither shut down nor removed. *)
Theorem force_stops_at_itself fuel me :
  wp (shutdown_force fuel) (λ t o,
    ∀ pre post, o = Done (Some tt) → w_name <$> concat (snapshots t) = pre ++ me :: post →
      me ∉ pre → deleted (until_removed me t) = pre ++ [me]).
Proof.
  unfold shutdown_force. cbn [call bind wp]. intros ws.
  eapply wp_mono, force_loop_spec. intros t o [Hs Ho] pre post -> Hn Hpre.
  change (Ev RouterGetAllWorkers ws :: t) with ([Ev RouterGetAllWorkers ws] ++ t) in Hn |- *.
  rewrite snapshots_app, Hs in Hn. cbn in Hn. rewrite app_nil_r in Hn.
  apply (until_removed_deleted _ _ _ post); [|done]. by rewrite deleted_app, Ho.
Qed.

(** ** Batches *)

Lemma chunks_concat {A} k n (l : list A) :
  n ≠ 0%nat → (length l <= k)%nat → concat (chunks_fuel k n l) = l.
Proof.
  intros Hn. revert l. induction k as [|k IH]; intros l Hk.
  { destruct l; [done|simpl in Hk; lia]. }
  cbn [chunks_fuel]. destruct l as [|x l]; [done|]. cbn [concat].
  rewrite IH; [apply take_drop|]. rewrite length_drop. simpl in *. lia.
Qed.

Lemma batched_loop_spec fuel d cs :
  wp (batched_loop fuel d cs) (removes (w_name <$> concat cs)).
Proof.
  induction cs as [|ws cs IH]; [done|]. cbn [batched_loop concat]. rewrite fmap_app.
  eapply wp_seq; [apply force_loop_spec|..].
  - intros t [[]|] [Hs Hd]; cbn [call bind wp].
    + intros []. eapply wp_mono, IH. intros t' o [Hs' Ho]. unfold removes.
      change (Ev (Sleep d) () :: t') with ([Ev (Sleep d) ()] ++ t').
      split; [by trace_solve|]. autorewrite with eb_trace. rewrite Hd. csimpl.
      destruct o as [[u|]|]; [by rewrite Ho|by apply prefix_app..].
    + rewrite app_nil_r. split; [done|]. by apply prefix_app_r.
  - intros t why [Hs Hd]. split; [done|]. by apply prefix_app_r.
Qed.

(** [shutdown_batched] with a positive batch size removes, when it comes
    to its end, every worker of its snapshot exactly once and in order, batch
    by batch; with a batch size of zero it panics and removes nobody. *)
Theorem batched_removes_everyone fuel n d :
  wp (shutdown_batched fuel n d) (λ t o,
    ∃ ws, snapshots t = [ws] ∧
      if decide (n = 0%nat) then deleted t = [] ∧ ∃ why, o = Panicked why
      else match o with
           | Done (Some _) => deleted t = w_name <$> ws
           | _ => deleted t `prefix_of` w_name <$> ws
           end).
Proof.
  unfold shutdown_batched. cbn [call bind wp]. intros ws. case_decide as Hn.
  { exists ws. split; [done|]. split; [done|]. eauto. }
  eapply wp_mono, batched_loop_spec. unfold chunks. rewrite chunks_concat by done.
  intros t o [Hs Ho]. exists ws. split; [|done].
  change (Ev RouterGetAllWorkers ws :: t) with ([Ev RouterGetAllWorkers ws] ++ t).
  by trace_solve.
Qed.

(** ** Idle workers only *)

Lemma idle_loop_spec fuel ws :
  wp (idle_loop fuel ws) (λ t _, snapshots t = [] ∧ deleted t ⊆ seen_idle t).
Proof.
  induction ws as [|w ws IH]; [done|]. cbn [idle_loop call bind wp]. intros st.
  case_decide as Hst; [subst st|].
  - eapply wp_seq; [apply shutdown_now_quiet|..].
    + intros t [r|] [Hd Hs]; cbn [call bind wp].
      * intros r'. eapply wp_mono, IH. intros t' o [Hs' Hd'].
        change (Ev (GetStatus (w_name w)) Idle :: t ++ Ev (RouterDelWorker (w_name w)) r' :: t')
          with ([Ev (GetStatus (w_name w)) Idle] ++ t ++
                [Ev (RouterDelWorker (w_name w)) r'] ++ t').
        split; [by trace_solve|]. autorewrite with eb_trace. rewrite Hd. csimpl.
        intros n [->|Hn]%elem_of_cons; [by left|]. right. apply elem_of_app. right. auto.
      * rewrite app_nil_r. split; [done|].
        change (deleted t ⊆ w_name w :: seen_idle t). rewrite Hd. apply list_subseteq_nil.
    + intros t why [Hd Hs]. split; [done|].
      change (deleted t ⊆ w_name w :: seen_idle t). rewrite Hd. apply list_subseteq_nil.
  - eapply wp_mono, IH. intros t o [Hs Hd]. split; [done|].
    change (deleted t ⊆ (if decide (st = Idle) then [w_name w] else []) ++ seen_idle t).
    by rewrite decide_False.
Qed.

(** [shutdown_idle_only] removes only workers it saw idle. *)
Theorem idle_only_spares_the_busy fuel :
  wp (shutdown_idle_only fuel) (λ t _, deleted t ⊆ seen_idle t).
Proof.
  unfold shutdown_idle_only. cbn [call bind wp]. intros ws. eapply wp_mono, idle_loop_spec.
  intros t o [_ Hd]. exact Hd.
Qed.

(** ** Two stages *)

Lemma all_complete_quiet ws : wp (all_complete ws) (λ t _, quiet_router t).
Proof.
  induction ws as [|w ws IH]; [done|]. cbn [all_complete call bind wp]. intros [|]; [|done].
  exact IH.
Qed.

Lemma del_all_spec ws :
  wp (del_all ws) (λ t o, o = Done tt ∧ snapshots t = [] ∧ deleted t = w_name <$> ws).
Proof.
  induction ws as [|w ws IH]; [done|]. unfold del_all in *. cbn [for_each call bind wp].
  intros r. eapply wp_mono, IH. intros t o (-> & Hs & Hd). split_and!; [done..|].
  change (w_name w :: deleted t = w_name <$> w :: ws). by rewrite Hd.
Qed.

Lemma forced_stage_spec fuel ws :
  wp (forced_stage fuel ws) (λ t o, snapshots t = [] ∧
    (o = Done (Some (Ok tt)) → deleted t = w_name <$> ws)).
Proof.
  induction ws as [|w ws IH]; [done|]. cbn [forced_stage].
  eapply wp_seq; [apply shutdown_now_quiet|..].
  - intros t [[[]|e]|] [Hd Hs]; cbn [call bind wp]; [|by rewrite app_nil_r..].
    intros r'. eapply wp_mono, IH. intros t' o [Hs' Ho].
    change (Ev (RouterDelWorker (w_name w)) r' :: t')
      with ([Ev (RouterDelWorker (w_name w)) r'] ++ t').
    split; [by trace_solve|]. intros ->. autorewrite with eb_trace. rewrite Hd, Ho by done.
    done.
  - by intros t why [Hd Hs].
Qed.

(** The last list of workers a strategy looked at. *)
Definition last_snapshot (t : Trace) : list Worker := default [] (last (snapshots t)).

Lemma two_stage_loop_spec rounds fuel d i start :
  wp (two_stage_loop rounds fuel d i start) (λ t o,
    o = Done (Some (Ok tt)) →
    snapshots t ≠ [] ∧ deleted t = w_name <$> last_snapshot t).
Proof.
  unfold last_snapshot.
  induction rounds as [|rounds IH]; [done|]. cbn [two_stage_loop call bind wp]. intros el.
  case_decide; cbn [call bind wp]; intros ws.
  - destruct ws as [|w ws]; [done|].
    eapply wp_seq; [apply all_complete_quiet| |done].
    intros t [|] [Hd Hs].
    + eapply wp_seq; [apply del_all_spec| |by intros ? ? ([=] & _)].
      intros t' [] (_ & Hs' & Hd'). cbn [wp]. intros _.
      change (Ev (Elapsed start) el :: Ev RouterGetAllWorkers (w :: ws) :: t ++ t' ++ [])
        with ([Ev (Elapsed start) el; Ev RouterGetAllWorkers (w :: ws)] ++ t ++ t' ++ []).
      rewrite app_nil_r. autorewrite with eb_trace. rewrite Hs, Hs', Hd, Hd'. done.
    + cbn [call bind wp]. intros []. eapply wp_mono, IH. intros t' o Ht' ->.
      destruct (Ht' eq_refl) as [Hne Hd'].
      change (Ev (Elapsed start) el :: Ev RouterGetAllWorkers (w :: ws) ::
              t ++ Ev (Sleep i) () :: t')
        with ([Ev (Elapsed start) el; Ev RouterGetAllWorkers (w :: ws)] ++ t ++
              [Ev (Sleep i) ()] ++ t').
      autorewrite with eb_trace. rewrite Hs, Hd. csimpl. split; [done|].
      rewrite Hd'. change (deleted [Ev (Elapsed start) el; Ev RouterGetAllWorkers (w :: ws)])
        with (@nil string). simpl. by destruct (snapshots t').
  - eapply wp_mono, forced_stage_spec. intros t o [Hs Ho] Hok.
    change (Ev (Elapsed start) el :: Ev RouterGetAllWorkers ws :: t)
      with ([Ev (Elapsed start) el; Ev RouterGetAllWorkers ws] ++ t).
    autorewrite with eb_trace. rewrite Hs, Ho by done. done.
Qed.

(** A two-stage shutdown that returns [Ok] has removed exactly the workers
    of the last snapshot it took: nobody when there was nobody left, all of
    them when all had completed, all of them by force after the timeout. *)
Theorem two_stage_leaves_nobody rounds fuel d i :
  wp (shutdown_all_workers_two_stage rounds fuel d i) (λ t o,
    o = Done (Some (Ok tt)) →
    snapshots t ≠ [] ∧ deleted t = w_name <$> last_snapshot t).
Proof.
  unfold shutdown_all_workers_two_stage. cbn [call bind wp]. intros [] start.
  eapply wp_mono, two_stage_loop_spec. intros t o Ht Ho. exact (Ht Ho).
Qed.

End methods.

(** ** The acknowledgement of a worker reaches the registry *)

Definition ev_unregistered (v : ev Eff) : list string :=
  match v with Ev e _ => match e with RegUnregister n => [n] | _ => [] end end.

Section ack.
Context `{BincodeLaws ShutdownAck}.

(** The message a worker's [shutdown] sends makes the host's handler
    unregister exactly that worker. *)
Theorem shutdown_ack_unregisters fuel w ci d :
  wp (shutdown fuel w ci d) (λ t o,
    o = Done (Some (Ok tt)) →
    ∃ k p m, attempted t = [(k, p, m)] ∧
      wp (shutdown_ack_handler m) (λ t' o',
        (∃ why, o' = Panicked why) ∨ o' = Done AckOk ∧ t' ≫= ev_unregistered = [w_name w])).
Proof.
  eapply wp_mono, worker_shutdown_ack_spec. intros t o Ht Ho.
  destruct (Ht Ho) as (k & p & m & a & Hat & _ & Hdec & Hn & _).
  exists k, p, m. split; [done|]. unfold shutdown_ack_handler. rewrite Hdec.
  unfold registry_global. cbn [call bind wp]. intros [[]|]; cbn [expect bind wp].
  - intros r. right. cbn. by rewrite Hn.
  - left. eauto.
Qed.
End ack.

Import SerCodec.
Open Scope string_scope.

Lemma shutdown_ack_unregisters_witness :
  wp (shutdown 4 (demo_worker "orders") 10 (Some 25)) (λ t o,
    o = Done (Some (Ok tt)) →
    ∃ k p m, attempted t = [(k, p, m)] ∧
      wp (shutdown_ack_handler m) (λ t' o',
        (∃ why, o' = Panicked why) ∨
        o' = Done AckOk ∧ t' ≫= ev_unregistered = [w_name (demo_worker "orders")])).
Proof. apply (shutdown_ack_unregisters 4 (demo_worker "orders") 10 (Some 25)). Defined.

(** The concrete node with the tables of a consumer router. *)
Definition serve_with (X : Type) (e : Eff X) (s : World * ConsumerRouter)
    : X * (World * ConsumerRouter) :=
  match e in Eff X return X * (World * ConsumerRouter) with
  | RouterGetAllWorkers => (get_all_workers (H := list_order) s.2, s)
  | RouterDelWorker n => let '(r, _, c) := del_worker n s.2 in (r, (s.1, c))
  | e => let '(x, w) := serve _ e s.1 in (x, (w, s.2))
  end.

Lemma serve_with_clock_runs : clock_runs serve_with (wd_clock ∘ fst).
Proof.
  split; [done| |intros d s; simpl; lia]. intros X e [sw c]. destruct e; simpl; try lia.
  case_match. case_match. done.
Qed.

Lemma serve_with_answers : answers_from (H0 := list_order) serve_with snd.
Proof.
  split; [done| |].
  - intros n [w c]. simpl. by destruct (del_worker n c) as [[]].
  - intros X e [w c]. by destruct e.
Qed.

Lemma force_removes_everyone_witness :
  let s := (world AckOk Working, demo_tables) in
  deleted (run_trace serve_with (shutdown_force 1) s) = ["w1"] ∧
  run_outcome serve_with (shutdown_force 1) s = Done (Some tt) ∧
  worker_index (run_state serve_with (shutdown_force 1) s).2 = ∅.
Proof.
  intros s.
  destruct (force_removes_everyone (H0 := list_order) serve_with (wd_clock ∘ fst) snd 0 s
    serve_with_clock_runs (λ s, world_clock_ticks s.1) serve_with_answers
    (reach_inv _ _ demo_tables_reach)) as [_ Hd].
  destruct (run_outcome _ _ s) as [r|why] eqn:Ho.
  - destruct Hd as (-> & Hd & He). split; [etrans; [exact Hd|reflexivity]|]. by split.
  - vm_compute in Ho. discriminate.
Defined.

Close Scope string_scope.
