(* ===== verification/Startup.v ===== *)
(** * Start-up: [system_handlers/system.rs], [registry.rs], [start_system.rs]

    The once-only cells of the process, the registration of the system
    handlers for either node type and the start-up sequence that ends with
    the background tasks of a node.  The queue factory, the saved registry
    and the workers that [Worker::new] makes are arguments. *)
From S2P Require Import Prelude Prog Errors Message Metrics Runtime Topic Worker Router SystemHandlers.

(** The tasks that are spawned, and what else is seen of a start-up. *)
Inductive Task : Type :=
| TNodeCollector | TMainLoop | TDelayScheduler | TRegistryCleanup | THeartbeat
| TDispatcher (tpc : string) | TWorker (name : string).

Inductive StartEvent : Type :=
| Spawned (t : Task)
| DiscoverySent (topics : list string).

#[export] Instance Task_eq_dec : EqDecision Task.
Proof. solve_decision. Defined.
#[export] Instance StartEvent_eq_dec : EqDecision StartEvent.
Proof. solve_decision. Defined.

Section startup.
Context {B : Type} `{RingBuf AuditRecord B}.

(** The process: its [OnceLock]s and what happened so far. *)
Record Process : Type := {
  ps_node_type : option NodeType;
  ps_topic_router : option (list string * Producer);
  ps_consumer_router : option ConsumerRouter;
  ps_registry : bool;
  ps_audit : option (AuditManager (B := B));
  ps_metrics : option MetricsManager;
  ps_store : option MetricsStore;
  ps_made : nat;
  ps_log : list StartEvent
}.

Definition with_cells ty tr rg (s : Process) : Process :=
  {| ps_node_type := ty; ps_topic_router := tr; ps_consumer_router := ps_consumer_router s;
     ps_registry := rg; ps_audit := ps_audit s; ps_metrics := ps_metrics s;
     ps_store := ps_store s; ps_made := ps_made s; ps_log := ps_log s |}.
Definition with_router c (s : Process) : Process :=
  {| ps_node_type := ps_node_type s; ps_topic_router := ps_topic_router s;
     ps_consumer_router := Some c; ps_registry := ps_registry s; ps_audit := ps_audit s;
     ps_metrics := ps_metrics s; ps_store := ps_store s; ps_made := ps_made s;
     ps_log := ps_log s |}.
Definition with_managers a m st (s : Process) : Process :=
  {| ps_node_type := ps_node_type s; ps_topic_router := ps_topic_router s;
     ps_consumer_router := ps_consumer_router s; ps_registry := ps_registry s; ps_audit := a;
     ps_metrics := m; ps_store := st; ps_made := ps_made s; ps_log := ps_log s |}.
Definition with_log n l (s : Process) : Process :=
  {| ps_node_type := ps_node_type s; ps_topic_router := ps_topic_router s;
     ps_consumer_router := ps_consumer_router s; ps_registry := ps_registry s;
     ps_audit := ps_audit s; ps_metrics := ps_metrics s; ps_store := ps_store s;
     ps_made := n; ps_log := l |}.

(** Code that reads and changes the process, may fail and may panic. *)
Definition Start (A : Type) : Type := Process → outcome (Res A) * Process.

Definition done {A} (a : A) : Start A := λ s, (Done (Ok a), s).
Definition fail {A} (e : CoreError) : Start A := λ s, (Done (Err e), s).
Definition and_then {A A'} (p : Start A) (k : A → Start A') : Start A' := λ s,
  match p s with
  | (Done (Ok a), s) => k a s
  | (Done (Err e), s) => (Done (Err e), s)
  | (Panicked w, s) => (Panicked w, s)
  end.
Definition log (l : list StartEvent) : Start unit := λ s,
  (Done (Ok tt), with_log (ps_made s) (ps_log s ++ l) s).
Definition spawn (t : Task) : Start unit := log [Spawned t].

Notation "p >> k" := (and_then p (λ _, k)) (at level 100, right associativity).

Open Scope string_scope.

(** The global consumer router: [ConsumerRouter::global()] panics without it. *)
Definition on_router {A} (f : ConsumerRouter → Start A) : Start A := λ s,
  match ps_consumer_router s with
  | Some c => f c s
  | None => (Panicked "ConsumerRouter not initialized", s)
  end.

(** What is outside this file's code: the factory's answers, the workers that
    are made, the handler objects. *)
Context (created : string → Res Producer).
Context (make : string → nat → Worker * Inbox * JoinHandle).
Context (handler : string → HandlerRef).

Definition register (tpc : string) : Start unit := on_router (λ c s,
  let '(r, c') := router_register tpc (handler tpc) (created tpc) c in
  (Done r, with_router c' s)).

(** [create_worker] with the worker and the inbox it makes. *)
Definition new_worker (tpc : string) : Start string := on_router (λ c s,
  let '(w, b, h) := make tpc (ps_made s) in
  let '(r, start_dispatcher, c') := create_worker tpc w b h c in
  let tasks := ((if start_dispatcher : bool then [Spawned (TDispatcher tpc)] else []) ++
               (if decide (local_topics c !! tpc = None) then [] else [Spawned (TWorker (w_name w))]))%list in
  (Done r, with_log (S (ps_made s)) (ps_log s ++ tasks)%list (with_router c' s))).

Definition SYSTEM_WORKER_COUNT : nat := 32.

Fixpoint create_workers (count : nat) (tpc : string) : Start unit :=
  match count with
  | O => done tt
  | S n => new_worker tpc >> create_workers n tpc
  end.

Definition spawn_system_workers (tpc : string) (count : nat) : Start unit :=
  on_router (λ c,
    match get_handler tpc c with
    | None => fail (EOther ("handler for " +:+ tpc +:+ " not found"))
    | Some _ => create_workers count tpc
    end).

(** The three [init] calls. *)
Definition init_managers (audit_buf_capacity : nat) : Start unit := λ s,
  match audit_init audit_buf_capacity (ps_audit s) with
  | (Err e, a) => (Done (Err e), with_managers a (ps_metrics s) (ps_store s) s)
  | (Ok _, a) =>
      match manager_init (ps_metrics s) with
      | (Err e, m) => (Done (Err e), with_managers a m (ps_store s) s)
      | (Ok _, m) =>
          let '(r, st) := store_init (ps_store s) in (Done r, with_managers a m st s)
      end
  end.

Definition node_type : Start NodeType := λ s,
  match ps_node_type s with
  | Some ty => (Done (Ok ty), s)
  | None => (Panicked "Node type not initialized", s)
  end.

Definition audit_writers : Start (list WriterRef) := λ s,
  match ps_audit s with
  | Some m => (Done (Ok (am_writers m)), s)
  | None => (Panicked "AuditManager not initialized", s)
  end.

Definition serve_topic (tpc : string) : Start unit :=
  register tpc >> spawn_system_workers tpc SYSTEM_WORKER_COUNT.

Definition when (b : bool) (p : Start unit) : Start unit := if b then p else done tt.

Definition register_worker_role : Start unit :=
  register SYSTEM_TOPIC_SHUTDOWN >> register SYSTEM_TOPIC_TOPIC_SYNC >>
  register SYSTEM_TOPIC_METRICS >>
  spawn_system_workers SYSTEM_TOPIC_SHUTDOWN SYSTEM_WORKER_COUNT >>
  spawn_system_workers SYSTEM_TOPIC_TOPIC_SYNC SYSTEM_WORKER_COUNT >>
  spawn_system_workers SYSTEM_TOPIC_METRICS SYSTEM_WORKER_COUNT >>
  spawn TNodeCollector.

Definition register_host_role (trace_collectors : list positive) : Start unit :=
  and_then audit_writers (λ writers,
    when (negb (bool_decide (writers = []))) (serve_topic SYSTEM_TOPIC_AUDIT)) >>
  when (negb (bool_decide (trace_collectors = []))) (serve_topic SYSTEM_TOPIC_TRACE) >>
  serve_topic SYSTEM_TOPIC_WORKER_DISCOVERY >>
  serve_topic SYSTEM_TOPIC_WORKER_HEARTBEAT >>
  serve_topic SYSTEM_TOPIC_WAL_SYNC >>
  register SYSTEM_TOPIC_SHUTDOWN >> register SYSTEM_TOPIC_SHUTDOWN_ACK >>
  register SYSTEM_TOPIC_TOPIC_DISCOVERY >> register SYSTEM_TOPIC_TOPIC_SYNC >>
  spawn TNodeCollector >>
  spawn_system_workers SYSTEM_TOPIC_SHUTDOWN SYSTEM_WORKER_COUNT >>
  spawn_system_workers SYSTEM_TOPIC_SHUTDOWN_ACK SYSTEM_WORKER_COUNT >>
  spawn_system_workers SYSTEM_TOPIC_TOPIC_DISCOVERY SYSTEM_WORKER_COUNT >>
  spawn_system_workers SYSTEM_TOPIC_TOPIC_SYNC SYSTEM_WORKER_COUNT.

Definition register_all (audit_buf_capacity : nat) (trace_collectors : list positive)
    : Start unit :=
  init_managers audit_buf_capacity >>
  and_then node_type (λ ty,
    if decide (ty = WorkerNode) then register_worker_role
    else register_host_role trace_collectors).

(** What the builder collects before [register_all] runs on it. *)
Section builder.
Context {WalRef ShutdownSender : Type}.

Record SystemHandlerBuilder : Type := {
  sb_trace_collectors : list positive;
  sb_wal : WalRef;
  sb_shutdown_handler : ShutdownSender;
  sb_audit_buf_capacity : nat
}.

Definition builder_new (wal : WalRef) (shutdown_sender : ShutdownSender)
    (audit_buf_capacity : nat) : SystemHandlerBuilder :=
  {| sb_trace_collectors := []; sb_wal := wal; sb_shutdown_handler := shutdown_sender;
     sb_audit_buf_capacity := audit_buf_capacity |}.

Definition with_trace_collector (b : SystemHandlerBuilder) (collector : positive)
    : SystemHandlerBuilder :=
  {| sb_trace_collectors := (sb_trace_collectors b ++ [collector])%list; sb_wal := sb_wal b;
     sb_shutdown_handler := sb_shutdown_handler b;
     sb_audit_buf_capacity := sb_audit_buf_capacity b |}.

Definition shutdown_sender (b : SystemHandlerBuilder) : ShutdownSender :=
  sb_shutdown_handler b.

Definition builder_register_all (b : SystemHandlerBuilder) : Start unit :=
  register_all (sb_audit_buf_capacity b) (sb_trace_collectors b).
End builder.

(** The [register_fn] that [#[handler(topic = .., workers = ..)]] generates. *)
Definition note_topic (tpc : string) : Start unit := λ s,
  match ps_topic_router s with
  | Some (topics, p) =>
      (Done (Ok tt), with_cells (ps_node_type s) (Some (register_topic topics tpc, p))
                       (ps_registry s) s)
  | None => (Panicked "TopicRouter not initialized", s)
  end.

Definition handler_entry (tpc : string) (workers : nat) : Start unit :=
  register tpc >> note_topic tpc >> create_workers workers tpc.

(** [registry.rs]: the registration functions of the user's handlers. *)
Fixpoint register_all_handlers (entries : list (Start unit)) : Start unit :=
  match entries with
  | [] => done tt
  | register_fn :: rest => register_fn >> register_all_handlers rest
  end.

(** ** [start_system_impl] *)

Definition topic_router_init (p : Producer) : Start unit := λ s,
  match ps_topic_router s with
  | Some _ => (Done (Err EAlreadyInitialized), s)
  | None => (Done (Ok tt), with_cells (ps_node_type s) (Some ([], p)) (ps_registry s) s)
  end.

Definition consumer_router_init (batch : option nat) : Start unit := λ s,
  match ps_consumer_router s with
  | Some _ => (Done (Err EAlreadyInitialized), s)
  | None => (Done (Ok tt), with_router (router_init batch) s)
  end.

(** [WorkerRegistry::init]: the saved registry is read before the cell is set. *)
Definition worker_registry_init (loaded : Res unit) : Start unit := λ s,
  match loaded with
  | Err e => (Done (Err e), s)
  | Ok _ =>
      if ps_registry s then (Done (Err EAlreadyInitialized), s)
      else (Done (Ok tt), with_cells (ps_node_type s) (ps_topic_router s) true s)
  end.

Definition set_node_type (ty : NodeType) : Start unit := λ s,
  (Done (Ok tt), with_cells (Some ty) (ps_topic_router s) (ps_registry s) s).

Definition from_res {A} (r : Res A) : Start A := λ s, (Done r, s).

(** The discovery message with the topics known so far; whether it could be
    sent makes no difference. *)
Definition send_topic_discovery : Start unit := λ s,
  match ps_topic_router s with
  | Some (topics, _) => log [DiscoverySent topics] s
  | None => (Panicked "TopicRouter not initialized", s)
  end.

Definition start_system_impl (ty : NodeType) (global_producer : Res Producer)
    (main_consumer : Res unit) (loaded : Res unit) (audit_buf_capacity : nat)
    (trace_collectors : list positive) (entries : list (Start unit)) : Start unit :=
  set_node_type ty >>
  and_then (from_res global_producer) (λ p,
  topic_router_init p >>
  from_res main_consumer >>
  consumer_router_init None >>
  worker_registry_init loaded >>
  register_all audit_buf_capacity trace_collectors >>
  register_all_handlers entries >>
  spawn TMainLoop >>
  send_topic_discovery >>
  (if decide (ty = Host) then spawn TDelayScheduler >> spawn TRegistryCleanup else done tt) >>
  spawn THeartbeat).

Close Scope string_scope.
End startup.
