(* ===== verification/StartupTheorems.v ===== *)
(** * What a node serves and runs after its start-up *)
From stdpp Require Import pretty.
From S2P Require Import Prelude Prog Errors Message Metrics Runtime Topic Worker World Router Startup.

Section theorems.
Context {B : Type} `{RingBuf AuditRecord B}.
Context (created : string → Res Producer).
Context (make : string → nat → Worker * Inbox * JoinHandle).
Context (handler : string → HandlerRef).
Hypothesis created_ok : ∀ tpc, ∃ p, created tpc = Ok p.
Implicit Types s : Process (B := B).

Let register' := register (B := B) created handler.
Let spawn' := spawn_system_workers (B := B) make.

(** ** A process, seen from outside *)

(** How many workers every registered topic has. *)
Definition worker_counts (c : ConsumerRouter) : gmap string nat :=
  (λ e, length (te_workers e)) <$> local_topics c.

Definition is_background (e : StartEvent) : Prop :=
  match e with Spawned (TDispatcher _) | Spawned (TWorker _) => False | _ => True end.
#[global] Instance is_background_dec e : Decision (is_background e).
Proof. destruct e as [[]|]; apply _. Defined.

(** Everything seen so far apart from the tasks of single workers and topics. *)
Definition background (s : Process (B := B)) : list StartEvent :=
  filter is_background (ps_log s).

(** No topic has a pipeline template. *)
Definition bare (c : ConsumerRouter) : Prop :=
  map_Forall (λ _ e, te_pipeline e = None) (local_topics c).

(** [s] serves [topics] with so many workers, has done [bg]; [tr] is its
    topic router. *)
Definition sees (tr : option (list string * Producer)) (topics : gmap string nat)
    (bg : list StartEvent) s : Prop :=
  ps_topic_router s = tr ∧ background s = bg ∧
  ∃ c, ps_consumer_router s = Some c ∧ worker_counts c = topics ∧ bare c.

(** [p] succeeds from every process seen as the first view and ends in one
    seen as the second. *)
Definition brings (p : Start (B := B) unit) tr topics bg topics' bg' : Prop :=
  ∀ s, sees tr topics bg s → ∃ s', p s = (Done (Ok tt), s') ∧ sees tr topics' bg' s'.

Lemma brings_seq p q tr t0 b0 t1 b1 t2 b2 :
  brings p tr t0 b0 t1 b1 → brings q tr t1 b1 t2 b2 →
  brings (and_then p (λ _, q)) tr t0 b0 t2 b2.
Proof.
  intros Hp Hq s Hs. destruct (Hp s Hs) as (s1 & E1 & H1).
  destruct (Hq s1 H1) as (s2 & E2 & H2). exists s2. unfold and_then. by rewrite E1.
Qed.

Lemma register_brings tpc tr topics bg :
  topics !! tpc = None → brings (register' tpc) tr topics bg (<[tpc := 0%nat]> topics) bg.
Proof.
  intros Ht s (Htr & Hbg & c & Hc & Hw & Hb). unfold register', register, on_router. rewrite Hc.
  destruct (created_ok tpc) as [p Hp]. unfold router_register. rewrite Hp.
  rewrite <- Hw in Ht. unfold worker_counts in Ht. rewrite lookup_fmap in Ht.
  destruct (local_topics c !! tpc); [done|]. eexists. split; [done|].
  split; [done|]. split; [done|]. eexists. split; [done|].
  split; [unfold worker_counts; simpl; by rewrite fmap_insert, <- Hw|].
  unfold bare. simpl. by apply map_Forall_insert_2.
Qed.

Lemma spawn_brings t tr topics bg :
  brings (spawn (B := B) t) tr topics bg topics
    (bg ++ (if decide (is_background (Spawned t)) then [Spawned t] else [])).
Proof.
  intros s (Htr & Hbg & Hc). eexists. split; [done|]. split; [done|]. split; [|done].
  unfold background in *. simpl. by rewrite filter_app, Hbg.
Qed.

Lemma create_worker_counts tpc w b h c n :
  worker_counts c !! tpc = Some n → bare c →
  ∃ name st c', create_worker tpc w b h c = (Ok name, st, c') ∧
    worker_counts c' = <[tpc := S n]> (worker_counts c) ∧ bare c'.
Proof.
  unfold worker_counts, create_worker, bare. rewrite lookup_fmap.
  destruct (local_topics c !! tpc) as [e|] eqn:He; simpl; [|done]. intros [= <-] Hb.
  assert (te_pipeline e = None) as Hn by by eapply (map_Forall_lookup_1 _ _ _ _ Hb).
  unfold register_worker. destruct (dispatch_enabled c !! tpc) as [[]|]; simpl; rewrite He;
    (eexists _, _, _; split; [reflexivity|]; simpl; split;
     [rewrite fmap_insert; simpl; f_equal; rewrite length_app; simpl; lia
     |by apply map_Forall_insert_2]).
Qed.

Lemma new_worker_brings tpc tr topics bg n :
  topics !! tpc = Some n →
  ∀ s, sees tr topics bg s → ∃ name s', new_worker make tpc s = (Done (Ok name), s') ∧
    sees tr (<[tpc := S n]> topics) bg s'.
Proof.
  intros Ht s (Htr & Hbg & c & Hc & Hw & Hb). unfold new_worker, on_router. rewrite Hc.
  destruct (make tpc (ps_made s)) as [[w b] h]. rewrite <- Hw in Ht.
  destruct (create_worker_counts tpc w b h c n Ht Hb) as (name & st & c' & -> & Hc' & Hb').
  eexists _, _. split; [reflexivity|]. split; [done|]. split.
  - unfold background in *. simpl. rewrite filter_app, Hbg.
    assert (filter is_background ((if st then [Spawned (TDispatcher tpc)] else []) ++
      (if decide (local_topics c !! tpc = None) then [] else [Spawned (TWorker (w_name w))])) = [])
      as ->; [by destruct st; case_decide|apply app_nil_r].
  - eexists. split; [done|]. by rewrite Hc', Hw.
Qed.

Lemma create_workers_brings count tpc tr topics bg n :
  topics !! tpc = Some n →
  brings (create_workers make count tpc) tr topics bg (<[tpc := (n + count)%nat]> topics) bg.
Proof.
  revert topics n. induction count as [|k IH]; intros topics n Ht s Hs; simpl.
  - exists s. split; [done|]. rewrite Nat.add_0_r. by rewrite insert_id.
  - destruct (new_worker_brings tpc tr topics bg n Ht s Hs) as (name & s1 & E1 & H1).
    unfold and_then. rewrite E1.
    destruct (IH (<[tpc := S n]> topics) (S n) (lookup_insert_eq _ _ _) s1 H1) as (s2 & E2 & H2).
    exists s2. split; [done|]. rewrite insert_insert_eq in H2.
    by replace (n + S k)%nat with (S n + k)%nat by lia.
Qed.

Lemma spawn_workers_brings count tpc tr topics bg n :
  topics !! tpc = Some n →
  brings (spawn' tpc count) tr topics bg (<[tpc := (n + count)%nat]> topics) bg.
Proof.
  intros Ht s Hs. pose proof Hs as (_ & _ & c & Hc & Hw & _).
  unfold spawn', spawn_system_workers, on_router. rewrite Hc. unfold get_handler.
  rewrite <- Hw in Ht. unfold worker_counts in Ht. rewrite lookup_fmap in Ht.
  destruct (local_topics c !! tpc) as [e|] eqn:He; simpl in *; [|done].
  apply (create_workers_brings count tpc tr topics bg n); [|done].
  rewrite <- Hw. unfold worker_counts. by rewrite lookup_fmap, He.
Qed.

Lemma serve_topic_brings tpc tr topics bg :
  topics !! tpc = None →
  brings (serve_topic created make handler tpc) tr topics bg
    (<[tpc := SYSTEM_WORKER_COUNT]> topics) bg.
Proof.
  intros Ht. unfold serve_topic. eapply brings_seq; [by apply register_brings|].
  rewrite <- (insert_insert_eq topics tpc SYSTEM_WORKER_COUNT 0%nat).
  apply (spawn_workers_brings SYSTEM_WORKER_COUNT tpc tr _ bg 0%nat).
  apply lookup_insert_eq.
Qed.

Lemma brings_view p tr t0 b0 t1 b1 t1' b1' :
  brings p tr t0 b0 t1 b1 → t1 = t1' → b1 = b1' → brings p tr t0 b0 t1' b1'.
Proof. by intros ? -> ->. Qed.

Lemma when_brings b p tr t0 b0 t1 b1 :
  brings p tr t0 b0 t1 b1 →
  brings (when b p) tr t0 b0 (if b then t1 else t0) (if b then b1 else b0).
Proof. intros Hp. destruct b; [done|]. intros s Hs. by exists s. Qed.

(** ** The two roles *)

Definition of_topics (l : list string) : gmap string nat :=
  list_to_map ((λ tpc, (tpc, SYSTEM_WORKER_COUNT)) <$> l).

Definition worker_topics : list string :=
  [SYSTEM_TOPIC_SHUTDOWN; SYSTEM_TOPIC_TOPIC_SYNC; SYSTEM_TOPIC_METRICS].

Definition host_topics (trace_collectors : list positive) : list string :=
  (if decide (trace_collectors = []) then [] else [SYSTEM_TOPIC_TRACE]) ++
  [SYSTEM_TOPIC_WORKER_DISCOVERY; SYSTEM_TOPIC_WORKER_HEARTBEAT; SYSTEM_TOPIC_WAL_SYNC;
   SYSTEM_TOPIC_SHUTDOWN; SYSTEM_TOPIC_SHUTDOWN_ACK; SYSTEM_TOPIC_TOPIC_DISCOVERY;
   SYSTEM_TOPIC_TOPIC_SYNC].

Definition role_topics (ty : NodeType) (trace_collectors : list positive) : list string :=
  match ty with WorkerNode => worker_topics | Host => host_topics trace_collectors end.

(** Closes a decidable goal by evaluating its decision. *)
Ltac vm_decide := apply (bool_decide_unpack _); vm_compute.

(** One step of a registration sequence on concrete topics. *)
Ltac boot_step :=
  lazymatch goal with
  | |- brings (and_then _ _) _ _ _ _ _ => eapply brings_seq; [boot_step|]
  | |- brings (register _ _ _) _ _ _ _ _ => apply register_brings; vm_compute; reflexivity
  | |- brings (spawn_system_workers _ _ _) _ _ _ _ _ =>
      apply (spawn_workers_brings _ _ _ _ _ 0%nat); vm_compute; reflexivity
  | |- brings (serve_topic _ _ _ _) _ _ _ _ _ =>
      apply serve_topic_brings; vm_compute; reflexivity
  | |- brings (spawn _) _ _ _ _ _ => apply spawn_brings
  end.

Lemma worker_role_brings tr bg :
  brings (register_worker_role created make handler) tr ∅ bg
    (of_topics worker_topics) (bg ++ [Spawned TNodeCollector]).
Proof.
  eapply brings_view.
  - unfold register_worker_role. do 7 boot_step.
  - by vm_decide.
  - done.
Qed.

Lemma host_tail_brings tr bg (topics0 : list string) :
  topics0 = [] ∨ topics0 = [SYSTEM_TOPIC_TRACE] →
  brings (and_then (serve_topic created make handler SYSTEM_TOPIC_WORKER_DISCOVERY) (λ _,
    and_then (serve_topic created make handler SYSTEM_TOPIC_WORKER_HEARTBEAT) (λ _,
    and_then (serve_topic created make handler SYSTEM_TOPIC_WAL_SYNC) (λ _,
    and_then (register created handler SYSTEM_TOPIC_SHUTDOWN) (λ _,
    and_then (register created handler SYSTEM_TOPIC_SHUTDOWN_ACK) (λ _,
    and_then (register created handler SYSTEM_TOPIC_TOPIC_DISCOVERY) (λ _,
    and_then (register created handler SYSTEM_TOPIC_TOPIC_SYNC) (λ _,
    and_then (spawn TNodeCollector) (λ _,
    and_then (spawn_system_workers make SYSTEM_TOPIC_SHUTDOWN SYSTEM_WORKER_COUNT) (λ _,
    and_then (spawn_system_workers make SYSTEM_TOPIC_SHUTDOWN_ACK SYSTEM_WORKER_COUNT) (λ _,
    and_then (spawn_system_workers make SYSTEM_TOPIC_TOPIC_DISCOVERY SYSTEM_WORKER_COUNT) (λ _,
    spawn_system_workers make SYSTEM_TOPIC_TOPIC_SYNC SYSTEM_WORKER_COUNT)))))))))))) tr
    (of_topics topics0) bg
    (of_topics (topics0 ++ host_topics [])) (bg ++ [Spawned TNodeCollector]).
Proof.
  intros [->| ->]; (eapply brings_view; [do 12 boot_step|by vm_decide|done]).
Qed.

Lemma host_role_brings tr bg coll s :
  sees tr ∅ bg s → (∃ m, ps_audit s = Some m ∧ am_writers m = []) →
  ∃ s', register_host_role created make handler coll s = (Done (Ok tt), s') ∧
    sees tr (of_topics (host_topics coll)) (bg ++ [Spawned TNodeCollector]) s'.
Proof.
  intros Hs (m & Ha & Hw). unfold register_host_role.
  unfold and_then at 1 2, audit_writers. rewrite Ha, Hw.
  rewrite bool_decide_true by done. cbn [negb when]. unfold Startup.done at 1.
  destruct coll as [|x coll].
  - rewrite bool_decide_true by done. cbn [negb when]. unfold and_then at 1, Startup.done.
    by apply (host_tail_brings tr bg []); [left|].
  - rewrite bool_decide_false by done. cbn [negb when].
    refine (brings_seq _ _ tr _ _ _ _ _ _ _ _ s Hs); [by apply serve_topic_brings|].
    apply (host_tail_brings tr bg [SYSTEM_TOPIC_TRACE]). by right.
Qed.

(** ** The user's handlers *)

Lemma note_topic_brings tpc topics p counts bg s :
  sees (Some (topics, p)) counts bg s →
  ∃ s', note_topic tpc s = (Done (Ok tt), s') ∧
    sees (Some (register_topic topics tpc, p)) counts bg s'.
Proof.
  intros (Htr & Hbg & Hc). unfold note_topic. rewrite Htr. eexists. split; [done|].
  split; [done|]. by split.
Qed.

Lemma handler_entry_brings tpc n topics p counts bg s :
  counts !! tpc = None → sees (Some (topics, p)) counts bg s →
  ∃ s', handler_entry created make handler tpc n s = (Done (Ok tt), s') ∧
    sees (Some (register_topic topics tpc, p)) (<[tpc := n]> counts) bg s'.
Proof.
  intros Ht Hs. unfold handler_entry, and_then.
  destruct (register_brings tpc _ _ _ Ht s Hs) as (s1 & E1 & H1).
  unfold register' in E1. rewrite E1.
  destruct (note_topic_brings tpc _ _ _ _ s1 H1) as (s2 & -> & H2).
  destruct (create_workers_brings n tpc _ _ _ 0%nat (lookup_insert_eq _ _ _) s2 H2)
    as (s3 & -> & H3).
  exists s3. split; [done|]. by rewrite insert_insert_eq in H3.
Qed.

(** The entries of distinct topics, each with its number of workers. *)
Definition entries_of (hs : list (string * nat)) : list (Start (B := B) unit) :=
  (λ '(tpc, n), handler_entry created make handler tpc n) <$> hs.

Definition add_counts (hs : list (string * nat)) (counts : gmap string nat) : gmap string nat :=
  foldl (λ m '(tpc, n), <[tpc := n]> m) counts hs.

Lemma entries_bring hs topics p counts bg s :
  NoDup hs.*1 → Forall (λ tpc, counts !! tpc = None) hs.*1 →
  sees (Some (topics, p)) counts bg s →
  ∃ s', register_all_handlers (entries_of hs) s = (Done (Ok tt), s') ∧
    sees (Some (foldl register_topic topics hs.*1, p)) (add_counts hs counts) bg s'.
Proof.
  revert topics counts s. induction hs as [|[tpc n] hs IH]; intros topics counts s Hnd Hf Hs;
    simpl; [by exists s|].
  apply NoDup_cons in Hnd as [Hin Hnd]. apply Forall_cons in Hf as [Ht Hf].
  unfold and_then. destruct (handler_entry_brings tpc n _ _ _ _ s Ht Hs) as (s1 & -> & H1).
  apply IH; [done| |done]. apply Forall_forall. intros x Hx.
  rewrite lookup_insert_ne by (by intros ->). by eapply Forall_forall in Hf.
Qed.

(** ** The whole start-up *)

Definition fresh : Process (B := B) :=
  {| ps_node_type := None; ps_topic_router := None; ps_consumer_router := None;
     ps_registry := false; ps_audit := None; ps_metrics := None; ps_store := None;
     ps_made := 0; ps_log := [] |}.

(** What a role adds to the background tasks, in order. *)
Definition role_tasks (ty : NodeType) : list StartEvent :=
  (match ty with
   | Host => [Spawned TDelayScheduler; Spawned TRegistryCleanup]
   | WorkerNode => []
   end) ++ [Spawned THeartbeat].

(** A builder that was given collectors registers with them, in that order. *)
Lemma builder_registers_collectors {WalRef Sender} (wal : WalRef) (tx : Sender) cap coll :
  let b := foldl with_trace_collector (builder_new wal tx cap) coll in
  builder_register_all created make handler b = register_all created make handler cap coll ∧
  shutdown_sender b = tx.
Proof.
  intros b. assert (∀ b0 : SystemHandlerBuilder (WalRef := WalRef) (ShutdownSender := Sender),
    let b' := foldl with_trace_collector b0 coll in
    sb_trace_collectors b' = sb_trace_collectors b0 ++ coll ∧
    sb_audit_buf_capacity b' = sb_audit_buf_capacity b0 ∧
    shutdown_sender b' = shutdown_sender b0) as Hfold.
  { clear b. induction coll as [|x coll IH]; intros b0; simpl; [by rewrite app_nil_r|].
    destruct (IH (with_trace_collector b0 x)) as (-> & -> & ->). simpl.
    by rewrite <-app_assoc. }
  destruct (Hfold (builder_new wal tx cap)) as (H1 & H2 & H3).
  unfold builder_register_all. split; [|exact H3]. subst b. by rewrite H1, H2.
Qed.

Lemma register_all_brings ty p coll cap s :
  ps_node_type s = Some ty → ps_audit s = None → ps_metrics s = None → ps_store s = None →
  sees (Some ([], p)) ∅ [] s →
  ∃ s', register_all created make handler cap coll s = (Done (Ok tt), s') ∧
    sees (Some ([], p)) (of_topics (role_topics ty coll)) [Spawned TNodeCollector] s'.
Proof.
  intros Hty Ha Hm Hst (Htr & Hbg & Hc). unfold register_all, and_then at 1, init_managers.
  rewrite Ha, Hm, Hst. simpl. unfold and_then at 1, node_type. simpl. rewrite Hty.
  set (s1 := with_managers _ _ _ s).
  assert (sees (Some ([], p)) ∅ [] s1) as Hs1 by by split.
  destruct ty; simpl.
  - apply (host_role_brings _ [] coll s1 Hs1). by eexists.
  - by apply (worker_role_brings _ []).
Qed.

(** Boots up to the registration of the system handlers. *)
Lemma boot_cells ty p :
  ∃ s, sees (Some ([], p)) ∅ [] s ∧ ps_node_type s = Some ty ∧ ps_audit s = None ∧
    ps_metrics s = None ∧ ps_store s = None ∧
    ∀ cap coll entries,
      start_system_impl created make handler ty (Ok p) (Ok tt) (Ok tt) cap coll entries fresh =
      (and_then (register_all created make handler cap coll) (λ _,
       and_then (register_all_handlers entries) (λ _,
       and_then (spawn TMainLoop) (λ _,
       and_then send_topic_discovery (λ _,
       and_then (if decide (ty = Host)
                 then and_then (spawn TDelayScheduler) (λ _, spawn TRegistryCleanup)
                 else Startup.done tt) (λ _, spawn THeartbeat)))))) s.
Proof.
  exists {| ps_node_type := Some ty; ps_topic_router := Some ([], p);
            ps_consumer_router := Some (router_init None); ps_registry := true; ps_audit := None;
            ps_metrics := None; ps_store := None; ps_made := 0; ps_log := [] |}.
  split; [|by split_and!]. split; [done|]. split; [done|]. by eexists.
Qed.

Lemma discovery_brings topics p counts bg s :
  sees (Some (topics, p)) counts bg s →
  ∃ s', send_topic_discovery s = (Done (Ok tt), s') ∧
    sees (Some (topics, p)) counts (bg ++ [DiscoverySent topics]) s'.
Proof.
  intros (Htr & Hbg & Hc). unfold send_topic_discovery. rewrite Htr. eexists. split; [done|].
  split; [done|]. split; [|done]. unfold background in *. simpl. by rewrite filter_app, Hbg.
Qed.

Lemma role_tasks_bring ty tr counts bg :
  brings (and_then (if decide (ty = Host)
                    then and_then (spawn TDelayScheduler) (λ _, spawn TRegistryCleanup)
                    else Startup.done tt) (λ _, spawn THeartbeat)) tr counts bg
    counts (bg ++ role_tasks ty).
Proof.
  destruct ty; simpl.
  - eapply brings_view; [do 2 boot_step|done|]. by rewrite <- !(assoc_L (++)).
  - intros s Hs. by apply (spawn_brings THeartbeat).
Qed.

Lemma of_topics_lookup l tpc : tpc ∉ l → of_topics l !! tpc = None.
Proof.
  intros Hn. apply not_elem_of_list_to_map_1. rewrite <- list_fmap_compose. simpl.
  by rewrite list_fmap_id.
Qed.

Lemma add_counts_lookup hs counts tpc :
  tpc ∉ hs.*1 → add_counts hs counts !! tpc = counts !! tpc.
Proof.
  revert counts. induction hs as [|[x n] hs IH]; intros counts Hn; [done|].
  apply not_elem_of_cons in Hn as [Hx Hn]. simpl. rewrite IH by done.
  by rewrite lookup_insert_ne.
Qed.

Lemma role_topics_system ty coll :
  Forall (λ tpc, starts_with "_system." tpc = true) (role_topics ty coll).
Proof.
  destruct ty; simpl; [apply Forall_app; split; [case_decide|]|];
    repeat (constructor; [vm_compute; reflexivity|]); constructor.
Qed.

Lemma user_topics_fresh ty coll l :
  Forall (λ tpc, starts_with "_system." tpc = false) l →
  Forall (λ tpc, of_topics (role_topics ty coll) !! tpc = None) l.
Proof.
  intros Hl. eapply Forall_impl; [exact Hl|]. intros tpc Ht. apply of_topics_lookup. intros Hin.
  pose proof (role_topics_system ty coll) as Hsys. rewrite Forall_forall in Hsys.
  specialize (Hsys tpc Hin). simpl in *. congruence.
Qed.

Lemma register_distinct l topics :
  NoDup (topics ++ l) → foldl register_topic topics l = topics ++ l.
Proof.
  revert topics. induction l as [|x l IH]; intros topics Hnd; simpl; [by rewrite app_nil_r|].
  unfold register_topic at 2. rewrite decide_False.
  - rewrite IH; by rewrite <- (assoc_L (++)).
  - apply NoDup_app in Hnd as (_ & Hd & _). intros Hx. apply (Hd x Hx). constructor.
Qed.

Lemma unserved c hs ty coll tpc :
  worker_counts c = add_counts hs (of_topics (role_topics ty coll)) →
  Forall (λ tpc, starts_with "_system." tpc = false) hs.*1 →
  starts_with "_system." tpc = true → tpc ∉ role_topics ty coll →
  local_topics c !! tpc = None.
Proof.
  intros Hw Hf Hsys Hn. assert (worker_counts c !! tpc = None) as Hc.
  { rewrite Hw, add_counts_lookup; [by apply of_topics_lookup|]. intros Hin.
    rewrite Forall_forall in Hf. specialize (Hf tpc Hin). simpl in *. congruence. }
  unfold worker_counts in Hc. rewrite lookup_fmap in Hc. by destruct (local_topics c !! tpc).
Qed.

Lemma started_node_spec ty p cap coll hs :
  NoDup hs.*1 → Forall (λ tpc, starts_with "_system." tpc = false) hs.*1 →
  ∃ s c, start_system_impl created make handler ty (Ok p) (Ok tt) (Ok tt) cap coll
           (entries_of hs) fresh = (Done (Ok tt), s) ∧
    ps_consumer_router s = Some c ∧
    worker_counts c = add_counts hs (of_topics (role_topics ty coll)) ∧
    background s = [Spawned TNodeCollector; Spawned TMainLoop; DiscoverySent hs.*1] ++
                   role_tasks ty ∧
    local_topics c !! SYSTEM_TOPIC_AUDIT = None ∧
    (ty = Host → local_topics c !! SYSTEM_TOPIC_METRICS = None) ∧
    map_Forall (λ _ e, te_pipeline e = None) (local_topics c).
Proof.
  intros Hnd Hf. destruct (boot_cells ty p) as (s0 & Hs0 & Hty & Ha & Hm & Hst & Heq).
  destruct (register_all_brings ty p coll cap s0 Hty Ha Hm Hst Hs0) as (s1 & E1 & H1).
  destruct (entries_bring hs _ _ _ _ s1 Hnd (user_topics_fresh ty coll _ Hf) H1)
    as (s2 & E2 & H2).
  destruct (spawn_brings TMainLoop _ _ _ s2 H2) as (s3 & E3 & H3).
  destruct (discovery_brings _ _ _ _ s3 H3) as (s4 & E4 & H4).
  destruct (role_tasks_bring ty _ _ _ s4 H4) as (s5 & E5 & Htr & Hbg & c & Hc & Hw & Hb).
  exists s5, c. split.
  { rewrite Heq. unfold and_then at 1. rewrite E1. unfold and_then at 1. rewrite E2.
    unfold and_then at 1. rewrite E3. unfold and_then at 1. by rewrite E4. }
  split; [done|]. split; [done|]. split; [by rewrite Hbg, register_distinct|].
  split; [|split; [|exact Hb]].
  - eapply unserved; [done..|]. destruct ty; [destruct coll|]; by vm_decide.
  - intros ->. eapply unserved; [done..|]. destruct coll; by vm_decide.
Qed.

(** C33. A node that starts on a fresh process, whose queues can be created,
    with handlers for distinct topics of its own: the start succeeds; the
    topics served are exactly the system topics of its role, with 32 workers
    each, and the handlers' topics with the workers they ask for; the
    background tasks are the node collector, the main loop, on a host the
    delay scheduler and the registry sweep, and the heartbeat; the handlers'
    topics are announced once.  No role serves the audit topic, a host does
    not serve the metrics topic its own collector sends to, and no topic has
    the pipeline template from which one-shot workers take middleware. *)
Theorem started_node ty p cap coll hs :
  NoDup hs.*1 → Forall (λ tpc, starts_with "_system." tpc = false) hs.*1 →
  ∃ s c, start_system_impl created make handler ty (Ok p) (Ok tt) (Ok tt) cap coll
           (entries_of hs) fresh = (Done (Ok tt), s) ∧
    ps_consumer_router s = Some c ∧
    worker_counts c = add_counts hs (of_topics (role_topics ty coll)) ∧
    background s = [Spawned TNodeCollector; Spawned TMainLoop; DiscoverySent hs.*1] ++
                   role_tasks ty ∧
    local_topics c !! SYSTEM_TOPIC_AUDIT = None ∧
    (ty = Host → local_topics c !! SYSTEM_TOPIC_METRICS = None) ∧
    map_Forall (λ _ e, te_pipeline e = None) (local_topics c).
Proof. apply started_node_spec. Qed.

(** A second start in the same process fails with [AlreadyInitialized]
    and yet makes the node change its role: the node type it asked for is
    stored before the first check, everything else stays. *)
Theorem second_start_changes_role ty gp mc loaded cap coll entries s topics p0 :
  ps_topic_router s = Some (topics, p0) →
  (∃ p, gp = Ok p) →
  start_system_impl created make handler ty gp mc loaded cap coll entries s =
    (Done (Err EAlreadyInitialized),
     with_cells (Some ty) (Some (topics, p0)) (ps_registry s) s).
Proof.
  intros Htr [p ->]. unfold start_system_impl, and_then, set_node_type, from_res,
    topic_router_init. simpl. by rewrite Htr.
Qed.
End theorems.

(** ** Witnesses *)

Definition demo_created (tpc : string) : Res Producer := Ok the_producer.

Definition demo_make (tpc : string) (n : nat) : Worker * Inbox * JoinHandle :=
  ({| w_topic := tpc; w_name := String.append tpc (pretty n); w_producer := the_producer;
      w_time_out := None; w_shutdown_check_interval := 50; w_shutdown_timeout := None;
      w_wal := w_wal (demo_worker tpc); w_audit_template := w_audit_template (demo_worker tpc) |},
   {| ib_addr := 1 |}, 1%positive).

Definition demo_start (ty : NodeType) (s : Process (B := ListRing AuditRecord)) :=
  start_system_impl demo_created demo_make (λ _, 1%positive) ty (Ok the_producer) (Ok tt) (Ok tt)
    8 [] [] s.

Lemma started_node_witness :
  ∃ s c, demo_start Host (fresh (B := ListRing AuditRecord)) = (Done (Ok tt), s) ∧
    ps_consumer_router s = Some c ∧ local_topics c !! SYSTEM_TOPIC_AUDIT = None ∧
    worker_counts c !! SYSTEM_TOPIC_WAL_SYNC = Some 32%nat.
Proof.
  destruct (started_node (B := ListRing AuditRecord) demo_created demo_make (λ _, 1%positive)
    (λ _, ex_intro _ the_producer eq_refl) Host the_producer 8 [] [])
    as (s & c & Hs & Hc & Hw & _ & Ha & _).
  - constructor.
  - constructor.
  - exists s, c. split; [exact Hs|]. split; [exact Hc|]. split; [exact Ha|].
    rewrite Hw. vm_compute. reflexivity.
Defined.

Lemma second_start_changes_role_witness :
  let s := (demo_start Host fresh).2 in
  (demo_start WorkerNode s).1 = Done (Err EAlreadyInitialized) ∧
  ps_node_type s = Some Host ∧ ps_node_type (demo_start WorkerNode s).2 = Some WorkerNode.
Proof.
  intros s. assert (ps_topic_router s = Some ([], the_producer)) as Htr
    by (vm_compute; reflexivity).
  unfold demo_start at 1 2.
  rewrite (second_start_changes_role _ _ _ WorkerNode (Ok the_producer) _ _ _ _ _ s [] the_producer
    Htr (ex_intro _ _ eq_refl)).
  split; [reflexivity|]. split; [vm_compute; reflexivity|reflexivity].
Defined.
