(* ===== verification/Grpc.v ===== *)
(** * The control plane: [event_base_grpc/src/lib.rs], [event_base_grpc/src/server.rs]

    Token authentication of both sides, the configuration of the server and
    the eight calls of the service.  The transport ([tonic]) is outside the
    repository: header values and what building a server can answer are
    arguments.  A call is a program over the effects of a node; the cells of
    the metrics, which only the control plane reads, are arguments. *)
From S2P Require Import Prelude Prog Errors Message Codec Metrics Runtime Topic.

Open Scope string_scope.

(** ** Statuses *)

Inductive Code : Type := Unauthenticated | InvalidArgument | NotFound | FailedPrecondition | Internal.

Record Status : Type := { st_code : Code; st_message : string }.

Definition unauthenticated (w : string) : Status := {| st_code := Unauthenticated; st_message := w |}.
Definition invalid_argument (w : string) : Status := {| st_code := InvalidArgument; st_message := w |}.
Definition not_found (w : string) : Status := {| st_code := NotFound; st_message := w |}.
Definition failed_precondition (w : string) : Status :=
  {| st_code := FailedPrecondition; st_message := w |}.
Definition internal (w : string) : Status := {| st_code := Internal; st_message := w |}.

(** ** Tokens *)

(** [s.as_bytes()]. *)
Definition as_bytes (s : string) : bytes :=
  (λ c, Z.of_N (Ascii.N_of_ascii c)) <$> String.list_ascii_of_string s.

(** [diff |= x ^ y] over the zipped bytes. *)
Fixpoint diff_bytes (diff : Z) (a b : bytes) : Z :=
  match a, b with
  | x :: a, y :: b => diff_bytes (Z.lor diff (Z.lxor x y)) a b
  | _, _ => diff
  end.

Definition constant_time_eq (a b : bytes) : bool :=
  if decide (length a = length b) then bool_decide (diff_bytes 0 a b = 0%Z) else false.

(** [s.strip_prefix(p)]. *)
Fixpoint strip_prefix (p s : string) : option string :=
  match p, s with
  | EmptyString, s => Some s
  | String c p, String d s => if Ascii.eqb c d then strip_prefix p s else None
  | String _ _, EmptyString => None
  end.

(** A metadata value: [AsciiMetadataValue::try_from], [v.to_str()]. *)
Class MetadataValue (V : Type) : Type := {
  value_of : string → option V;
  value_str : V → option string
}.

(** A value made from a text without control or non-ASCII characters reads
    back as that text. *)
Definition visible (c : Ascii.ascii) : bool :=
  let n := Ascii.N_of_ascii c in N.leb 32 n && N.ltb n 127.
Class MetadataLaws (V : Type) `{MetadataValue V} : Prop :=
  value_roundtrip : ∀ s, forallb visible (String.list_ascii_of_string s) = true →
    ∃ v, value_of s = Some v ∧ value_str v = Some s.

Section auth.
Context {V : Type} `{MetadataValue V}.

(** [MetadataMap]. *)
Abbreviation Metadata := (gmap string V).

Definition check_token (meta : Metadata) (token : string) : result unit Status :=
  match meta !! "authorization" ≫= value_str with
  | None => Err (unauthenticated "missing authorization metadata")
  | Some provided =>
      let provided := default provided (strip_prefix "Bearer " provided) in
      if constant_time_eq (as_bytes provided) (as_bytes token) then Ok tt
      else Err (unauthenticated "invalid token")
  end.

(** The closure every server installs as interceptor. *)
Definition intercept (token : option string) (meta : Metadata) : result Metadata Status :=
  match token with
  | Some token => match check_token meta token with Ok _ => Ok meta | Err e => Err e end
  | None => Ok meta
  end.

Definition attach_token (meta : Metadata) (token : string) : Metadata :=
  match value_of ("Bearer " +:+ token) with
  | Some value => <["authorization" := value]> meta
  | None => meta
  end.

Record AuthInterceptor : Type := { ai_token : string }.

Definition auth_call (i : AuthInterceptor) (meta : Metadata) : result Metadata Status :=
  if decide (ai_token i = "") then Ok meta else Ok (attach_token meta (ai_token i)).
End auth.

(** [addr.contains("://")] and the scheme that is added. *)
Fixpoint text_contains (p s : string) : bool :=
  starts_with p s || (match s with String _ s => text_contains p s | EmptyString => false end).

Definition http_uri (addr : string) : string :=
  if text_contains "://" addr then addr else "http://" +:+ addr.
Definition https_uri (addr : string) : string :=
  if text_contains "://" addr then addr else "https://" +:+ addr.

(** The client [connect_with_token] and [connect_tls] make. *)
Definition token_client (token : string) : AuthInterceptor := {| ai_token := token |}.
Definition tls_client (token : option string) : AuthInterceptor :=
  {| ai_token := default "" token |}.

(** The connections: [tonic]'s endpoints and what dialling them answers are
    arguments, [generated] is the connect call of the generated client. *)
Section clients.
Context {Endpoint Channel TransportError : Type}.
Context (generated : string → result Channel TransportError).
Context (from_shared : string → result Endpoint TransportError).
Context (tls_config : bytes → Endpoint → result Endpoint TransportError).
Context (dial : Endpoint → result Channel TransportError).

Definition connect (addr : string) : result Channel TransportError :=
  generated (http_uri addr).

Definition connect_with_token (addr token : string) :
    result (Channel * AuthInterceptor) TransportError :=
  match from_shared (http_uri addr) with
  | Err e => Err e
  | Ok endpoint =>
      match dial endpoint with
      | Err e => Err e
      | Ok channel => Ok (channel, token_client token)
      end
  end.

Definition connect_tls (addr : string) (ca_pem : bytes) (token : option string) :
    result (Channel * AuthInterceptor) TransportError :=
  match from_shared (https_uri addr) with
  | Err e => Err e
  | Ok endpoint =>
      match tls_config ca_pem endpoint with
      | Err e => Err e
      | Ok endpoint =>
          match dial endpoint with
          | Err e => Err e
          | Ok channel => Ok (channel, tls_client token)
          end
      end
  end.
End clients.

(** ** The server *)

Inductive ServeError : Type := Transport (e : string) | Setup (m : string).

Definition serve_error_display (e : ServeError) : string :=
  match e with
  | Transport e => "transport error: " +:+ e
  | Setup m => "server setup error: " +:+ m
  end.

Section server.
(** [SocketAddr]. *)
Context {Addr : Type}.

Record ServeConfig : Type := {
  sc_addr : Addr;
  sc_token : option string;
  sc_tls : option (bytes * bytes);
  sc_reflection : bool;
  sc_health : bool
}.

Definition ServeConfig_new (addr : Addr) : ServeConfig :=
  {| sc_addr := addr; sc_token := None; sc_tls := None; sc_reflection := true; sc_health := true |}.
Definition sc_with_token (token : string) (c : ServeConfig) : ServeConfig :=
  {| sc_addr := sc_addr c; sc_token := Some token; sc_tls := sc_tls c;
     sc_reflection := sc_reflection c; sc_health := sc_health c |}.
Definition sc_with_reflection (on : bool) (c : ServeConfig) : ServeConfig :=
  {| sc_addr := sc_addr c; sc_token := sc_token c; sc_tls := sc_tls c;
     sc_reflection := on; sc_health := sc_health c |}.
Definition sc_with_health (on : bool) (c : ServeConfig) : ServeConfig :=
  {| sc_addr := sc_addr c; sc_token := sc_token c; sc_tls := sc_tls c;
     sc_reflection := sc_reflection c; sc_health := on |}.
Definition sc_with_tls (cert_pem key_pem : bytes) (c : ServeConfig) : ServeConfig :=
  {| sc_addr := sc_addr c; sc_token := sc_token c; sc_tls := Some (cert_pem, key_pem);
     sc_reflection := sc_reflection c; sc_health := sc_health c |}.

Inductive Service : Type := EventBaseSvc | ReflectionSvc | HealthSvc.
#[export] Instance Service_eq_dec : EqDecision Service.
Proof. solve_decision. Defined.

(** The router that is served: the identity of the transport, the token the
    interceptor in front of every service asks for, and the services. *)
Record Server : Type := {
  sv_tls : option (bytes * bytes);
  sv_token : option string;
  sv_services : list Service
}.

(** [tls_config], [build_v1] and [router.serve]. *)
Context (tls_config : bytes → bytes → result unit string).
Context (build_reflection : result unit string).
Context (run : Server → Addr → result unit string).

Definition assemble_server (c : ServeConfig) : result Server ServeError :=
  match match sc_tls c with
        | Some (cert_pem, key_pem) =>
            map_err (λ e, Setup ("tls config: " +:+ e)) (tls_config cert_pem key_pem)
        | None => Ok tt
        end with
  | Err e => Err e
  | Ok _ =>
      match (if sc_reflection c
             then map_err (λ e, Setup ("reflection: " +:+ e)) build_reflection else Ok tt) with
      | Err e => Err e
      | Ok _ =>
          Ok {| sv_tls := sc_tls c; sv_token := sc_token c;
                sv_services := ([EventBaseSvc] ++
                  (if sc_reflection c then [ReflectionSvc] else []) ++
                  (if sc_health c then [HealthSvc] else []))%list |}
      end
  end.

Definition serve_config (c : ServeConfig) : result unit ServeError :=
  match assemble_server c with
  | Err e => Err e
  | Ok sv => map_err Transport (run sv (sc_addr c))
  end.

Definition serve (addr : Addr) : result unit string :=
  map_err serve_error_display (serve_config (ServeConfig_new addr)).

Definition serve_with_token (addr : Addr) (token : string) : result unit string :=
  run {| sv_tls := None; sv_token := Some token; sv_services := [EventBaseSvc] |} addr.

Definition serve_tls (addr : Addr) (cert_pem key_pem : bytes) (token : option string)
    : result unit string :=
  match tls_config cert_pem key_pem with
  | Err e => Err e
  | Ok _ =>
      run {| sv_tls := Some (cert_pem, key_pem); sv_token := token;
             sv_services := [EventBaseSvc] |} addr
  end.
End server.

(** ** Requests and responses *)

(** The messages of [protos/main.proto]. *)
Record ProtoNodeMetrics : Type := {
  pn_node_name : string;
  pn_node_type : Z;
  pn_cpu_percent : list f32;
  pn_memory_percent : f32;
  pn_node_worker_count : Z;
  pn_update_time : Z
}.

Record ProtoWorkerInfo : Type := { pw_worker_name : string; pw_topic : string; pw_last_heartbeat : Z }.
Record ListWorkersResponse : Type := { lw_workers : list ProtoWorkerInfo; lw_total : Z }.
Record ListTopicsResponse : Type := { lt_topics : list string; lt_total : Z }.
Record LatencyStats : Type := { ls_count : Z; ls_sum_duration_nanos : Z }.
Record TopicInfo : Type := {
  ti_enqueued : gmap string Z;
  ti_completed : gmap string Z;
  ti_failed : gmap string Z;
  ti_retried : gmap string Z;
  ti_latency_sum : gmap string LatencyStats
}.
Record TopicStatsResponse : Type := { ts_info : option TopicInfo }.

Inductive Strategy : Type :=
| STwoStage (poll_interval_ms force_timeout_secs : Z)
| SGraceful (worker_name : string) (poll_interval_ms : Z)
| SForce
| STimeout (total_timeout_secs : Z)
| SStateBasedIdle
| SBatched (batch_size interval_ms : Z).

Record PublishRequest : Type := {
  pr_topic : string;
  pr_payload : bytes;
  pr_broadcast : bool;
  pr_to_worker : string
}.

Record NodeStatusResponse : Type := {
  ns_ready : bool;
  ns_node_name : string;
  ns_node_type : Z;
  ns_topic_count : Z;
  ns_worker_count : Z;
  ns_fleet : list ProtoNodeMetrics;
  ns_timestamp : Z
}.

(** ** The calls *)

(** [len() as u32] and [as u64]. *)
Definition as_u32 (n : nat) : Z := (Z.of_nat n mod u32_modulus)%Z.
Definition as_u64 (z : Z) : Z := (z mod 2 ^ 64)%Z.

(** [t.duration_since(UNIX_EPOCH).unwrap().as_secs()]. *)
Definition epoch_secs (t : SystemTime) : Prog Z :=
  match duration_since t 0%Z with
  | Ok d => Ret (as_secs d)
  | Err _ => Panic "called `Result::unwrap()` on an `Err` value"
  end.

Definition node_type_number (t : NodeType) : Z :=
  match t with Host => 0%Z | WorkerNode => 1%Z end.

Definition proto_node_metrics (m : NodeMetrics) : Prog ProtoNodeMetrics :=
  t <- epoch_secs (nm_update_time m) ;;
  Ret {| pn_node_name := nm_node_name m; pn_node_type := node_type_number (nm_node_type m);
         pn_cpu_percent := nm_cpu_percent m; pn_memory_percent := nm_memory_percent m;
         pn_node_worker_count := as_u64 (Z.of_nat (nm_node_worker_count m));
         pn_update_time := t |}.

(** [.map(f).collect()]. *)
Fixpoint collect_map {A B} (f : A → Prog B) (l : list A) : Prog (list B) :=
  match l with
  | [] => Ret []
  | x :: l => y <- f x ;; ys <- collect_map f l ;; Ret (y :: ys)
  end.

Section calls.
Context `{HashOrder} `{Json ShutdownCommand}.
(** [{:?}] of a text, and of a [Duration] in an error. *)
Context (debug : string → string) (duration_debug : Duration → string).

Definition get_node_metrics (store : option MetricsStore) (node_name : string)
    : Prog (result ProtoNodeMetrics Status) :=
  s <- expect "MetricsStore not initialized" store ;;
  match get_node node_name s with
  | Some metrics => p <- proto_node_metrics metrics ;; Ret (Ok p)
  | None => Ret (Err (not_found ("No metrics found for node " +:+ debug node_name)))
  end.

Definition proto_worker (w : WorkerInfo) : Prog ProtoWorkerInfo :=
  t <- epoch_secs (wi_last_heartbeat w) ;;
  Ret {| pw_worker_name := wi_worker_name w; pw_topic := wi_topic w; pw_last_heartbeat := t |}.

Definition list_workers (tpc : string) : Prog (result ListWorkersResponse Status) :=
  nt <- get_node_type ;;
  if decide (nt = WorkerNode) then
    Ret (Err (failed_precondition "ListWorkers is a Host-only RPC; this node is a Worker"))
  else
    registry_global ;;;
    r <- call (RegGetWorkers tpc) ;;
    match r with
    | Ok workers =>
        l <- collect_map proto_worker workers ;;
        Ret (Ok {| lw_workers := l; lw_total := as_u32 (length workers) |})
    | Err _ => Ret (Err (internal "worker registry read failed"))
    end.

Definition rpc_list_topics : Prog (result ListTopicsResponse Status) :=
  topic_router_global ;;;
  topics <- call ReadTopics ;;
  Ret (Ok {| lt_topics := topics; lt_total := as_u32 (length topics) |}).

Definition get_topic_stats (manager : option MetricsManager) (store : option MetricsStore)
    : Prog (result TopicStatsResponse Status) :=
  m <- expect "MetricsManager not initialized" manager ;;
  s <- expect "MetricsStore not initialized" store ;;
  now <- call Now ;;
  let snapshot := sn_business (manager_snapshot now s m) in
  Ret (Ok {| ts_info := Some {|
    ti_enqueued := ag_enqueued snapshot; ti_completed := ag_completed snapshot;
    ti_failed := ag_failed snapshot; ti_retried := ag_retried snapshot;
    ti_latency_sum :=
      (λ lat, {| ls_count := lat.1; ls_sum_duration_nanos := as_u64 lat.2 |})
        <$> ag_latency_sum snapshot |} |}).

(** The command of a strategy; [Timeout] is the case that is left over. *)
Definition command_of (s : Strategy) : option ShutdownCommand :=
  match s with
  | STwoStage p f => Some {| strategy := TwoStage p f |}
  | SGraceful w p => Some {| strategy := Graceful w p |}
  | SForce => Some {| strategy := Force |}
  | SStateBasedIdle => Some {| strategy := StateBasedIdle |}
  | SBatched n i => Some {| strategy := Batched n i |}
  | STimeout _ => None
  end.

Definition rpc_shutdown (request : option Strategy) : Prog (result bool Status) :=
  match request with
  | None => Ret (Err (invalid_argument "No shutdown requested"))
  | Some s =>
      match command_of s with
      | None => Ret (Err (invalid_argument "Invalid strategy"))
      | Some cmd =>
          match json_to_vec cmd with
          | Err _ => Panic "called `Result::unwrap()` on an `Err` value"
          | Ok pl =>
              msg <- new_message SYSTEM_TOPIC_SHUTDOWN pl Standard None ;;
              r <- topic_router_global ;;
              res <- topic_send r SYSTEM_TOPIC_SHUTDOWN msg None None ;;
              match res with
              | Err e => Ret (Err (internal ("[SHUTDOWN]: " +:+ core_error_display duration_debug e)))
              | Ok _ => Ret (Ok true)
              end
          end
      end
  end.

(** [ready] and the time. *)
Definition resp_check : Prog (result (bool * Z) Status) :=
  now <- call Now ;; t <- epoch_secs now ;; Ret (Ok (true, t)).

(** [Ok] is the id of the message. *)
Definition publish (req : PublishRequest) : Prog (result string Status) :=
  if decide (pr_topic req = "") then
    Ret (Err (invalid_argument "topic must not be empty"))
  else if starts_with "_" (pr_topic req) then
    Ret (Err (invalid_argument
      "Publish cannot target system topics (leading '_'); use the dedicated RPCs"))
  else
    let mode := if pr_broadcast req then Broadcast else Standard in
    let target := if decide (pr_to_worker req = "") then None else Some (pr_to_worker req) in
    msg <- new_message (pr_topic req) (pr_payload req) mode target ;;
    r <- topic_router_global ;;
    res <- topic_send r (pr_topic req) msg None None ;;
    match res with
    | Err e => Ret (Err (internal ("[PUBLISH]: " +:+ core_error_display duration_debug e)))
    | Ok _ => Ret (Ok (id msg))
    end.

Definition get_node_name : Prog string :=
  o <- call TryGetNodeName ;; expect "Node name not initialized" o.

Definition get_node_status (store : option MetricsStore)
    : Prog (result NodeStatusResponse Status) :=
  node_name <- get_node_name ;;
  nt <- get_node_type ;;
  let is_host := negb (bool_decide (nt = WorkerNode)) in
  let number := (if is_host then 0 else 1)%Z in
  topic_router_global ;;;
  topics <- call ReadTopics ;;
  registry_global ;;;
  workers <- call RegGetAllWorkers ;;
  let worker_count := match workers with Ok l => as_u32 (length l) | Err _ => 0%Z end in
  fleet <- (if is_host then
              s <- expect "MetricsStore not initialized" store ;;
              collect_map proto_node_metrics (get_all_nodes s)
            else Ret []) ;;
  now <- call Now ;;
  t <- epoch_secs now ;;
  Ret (Ok {| ns_ready := true; ns_node_name := node_name; ns_node_type := number;
             ns_topic_count := as_u32 (length topics); ns_worker_count := worker_count;
             ns_fleet := fleet; ns_timestamp := t |}).
End calls.

Close Scope string_scope.
