(* ===== verification/GrpcTheorems.v ===== *)
(** * Theorems on the control plane

    Token checks accept the configured token and nothing else; publishing and
    shutting down through the control plane send what was asked for, and
    requests that are refused have no effect. *)
From S2P Require Import Prelude Prog Errors Message Codec Metrics Runtime Topic Worker Shutdown Grpc.

Open Scope string_scope.

(** ** Comparing bytes *)

Lemma diff_bytes_zero d a b :
  length a = length b → diff_bytes d a b = 0%Z ↔ d = 0%Z ∧ a = b.
Proof.
  revert d b. induction a as [|x a IH]; intros d [|y b] Hl; try discriminate Hl; simpl.
  - naive_solver.
  - rewrite IH by (simpl in Hl; lia). rewrite Z.lor_eq_0_iff, Z.lxor_eq_0_iff. naive_solver.
Qed.

Lemma constant_time_eq_iff a b : constant_time_eq a b = true ↔ a = b.
Proof.
  unfold constant_time_eq. case_decide as Hl.
  - rewrite bool_decide_eq_true, diff_bytes_zero by done. naive_solver.
  - split; [done|]. by intros ->.
Qed.

Lemma as_bytes_inj s t : as_bytes s = as_bytes t → s = t.
Proof.
  unfold as_bytes. intros Heq.
  assert (String.list_ascii_of_string s = String.list_ascii_of_string t) as Hl.
  { assert (Inj (=) (=) (λ c, Z.of_N (Ascii.N_of_ascii c))) as Hinj.
    { intros c d Hcd%N2Z.inj. apply (f_equal Ascii.ascii_of_N) in Hcd.
      by rewrite !Ascii.ascii_N_embedding in Hcd. }
    by apply (inj (fmap _)) in Heq. }
  rewrite <- (String.string_of_list_ascii_of_string s), Hl.
  apply String.string_of_list_ascii_of_string.
Qed.

Lemma strip_prefix_Some p s r : strip_prefix p s = Some r ↔ s = p +:+ r.
Proof.
  revert s. induction p as [|c p IH]; intros s; simpl; [naive_solver|].
  destruct s as [|d s]; [naive_solver|].
  destruct (Ascii.eqb_spec c d) as [->|Hne].
  - rewrite IH. split; [by intros ->|]. by intros [= ->].
  - split; [done|]. by intros [= -> _].
Qed.

(** ** Tokens *)

Section auth.
Context {V : Type} `{MetadataLaws V}.
Implicit Types meta : gmap string V.

Lemma check_token_ok meta token :
  check_token meta token = Ok tt ↔
  ∃ s, meta !! "authorization" ≫= value_str = Some s ∧
    default s (strip_prefix "Bearer " s) = token.
Proof.
  unfold check_token. destruct (meta !! "authorization" ≫= value_str) as [s|]; [|naive_solver].
  destruct (constant_time_eq _ _) eqn:He.
  - apply constant_time_eq_iff, as_bytes_inj in He. naive_solver.
  - split; [done|]. intros (s' & [= <-] & Hs). exfalso.
    assert (constant_time_eq (as_bytes (default s (strip_prefix "Bearer " s)))
      (as_bytes token) = true) as Ht by (apply constant_time_eq_iff; by rewrite Hs).
    congruence.
Qed.

(** The server accepts exactly two authorizations: [Bearer] with the token,
    and the bare token unless that itself starts with [Bearer]. *)
Theorem token_check_exact meta token :
  check_token meta token = Ok tt ↔
  ∃ s, meta !! "authorization" ≫= value_str = Some s ∧
    (s = "Bearer " +:+ token ∨ s = token ∧ strip_prefix "Bearer " token = None).
Proof.
  rewrite check_token_ok. split.
  - intros (s & Hs & Hd). exists s. split; [done|].
    destruct (strip_prefix "Bearer " s) as [r|] eqn:Hp; simpl in Hd; subst.
    + left. by apply strip_prefix_Some.
    + by right.
  - intros (s & Hs & [->|[-> Hp]]); eexists; (split; [exact Hs|]).
    + by rewrite (proj2 (strip_prefix_Some "Bearer " _ token) eq_refl).
    + by rewrite Hp.
Qed.

Lemma bearer_visible t :
  forallb visible (String.list_ascii_of_string t) = true →
  forallb visible (String.list_ascii_of_string ("Bearer " +:+ t)) = true.
Proof. done. Qed.

(** C28. A client and a server.  The requests of a client with a token are
    accepted by a server exactly when it asks for that token or for none,
    and are otherwise refused as unauthenticated; a client without a token
    sends its requests unchanged and is refused by a server that asks for
    one. *)
Theorem authenticated_channel meta client (server : option string) :
  forallb visible (String.list_ascii_of_string client) = true →
  meta !! "authorization" = None →
  ∃ meta', auth_call (token_client client) meta = Ok meta' ∧
    match intercept server meta' with
    | Ok m => m = meta' ∧ (server = None ∨ server = Some client ∧ client ≠ "")
    | Err e => st_code e = Unauthenticated ∧ server ≠ None ∧ (server = Some client → client = "")
    end.
Proof.
  intros Hv Hm. unfold auth_call. simpl. case_decide as Hc.
  - exists meta. split; [done|]. destruct server as [t|]; simpl; [|by auto].
    unfold check_token. rewrite Hm. simpl. naive_solver.
  - unfold attach_token. destruct (value_roundtrip _ (bearer_visible client Hv)) as (v & Hv1 & Hv2).
    rewrite Hv1. eexists. split; [done|]. destruct server as [t|]; simpl; [|by auto].
    destruct (check_token _ t) as [[]|e] eqn:Hck.
    + apply check_token_ok in Hck as (s & Hs & Hd). rewrite lookup_insert_eq in Hs. simpl in Hs.
      rewrite Hv2 in Hs. injection Hs as <-.
      rewrite (proj2 (strip_prefix_Some "Bearer " _ client) eq_refl) in Hd. simpl in Hd. subst. auto.
    + split; [|split; [done|]].
      * unfold check_token in Hck. destruct (_ ≫= value_str); [|by injection Hck as <-].
        destruct (constant_time_eq _ _); [done|]. by injection Hck as <-.
      * intros [= ->]. exfalso.
        assert (check_token (<["authorization" := v]> meta) client = Ok tt) as Hok; [|congruence].
        apply check_token_ok. exists ("Bearer " +:+ client). rewrite lookup_insert_eq. simpl.
        rewrite Hv2. by split.
Qed.
(** The generated client connects as the endpoint does; then a connection
    with an empty token is the plain one, since its requests stay as they
    are.  This is what the command line client relies on. *)
Lemma empty_token_connects_plainly {Endpoint Channel TErr : Type}
    (generated : string → result Channel TErr) (from_shared : string → result Endpoint TErr)
    (dial : Endpoint → result Channel TErr) addr :
  (∀ uri, generated uri = match from_shared uri with Ok e => dial e | Err e => Err e end) →
  match connect generated addr with
  | Ok channel => ∃ i, connect_with_token from_shared dial addr "" = Ok (channel, i) ∧
      ∀ meta : gmap string V, auth_call i meta = Ok meta
  | Err e => connect_with_token from_shared dial addr "" = Err e
  end.
Proof.
  intros Hg. unfold connect, connect_with_token. rewrite Hg.
  destruct (from_shared _) as [e|e]; [|done]. destruct (dial e) as [ch|er]; [|done].
  by exists (token_client "").
Qed.

End auth.

(** ** The server *)

(** The function kept for compatibility serves what a configuration with
    the token and without reflection and health serves. *)
Theorem serve_with_token_is_config {Addr : Type} (tls_config : bytes → bytes → result unit string)
    (build : result unit string) (run : Server → Addr → result unit string) addr token :
  map_err Transport (serve_with_token run addr token) =
  serve_config tls_config build run
    (sc_with_health false (sc_with_reflection false (sc_with_token token (ServeConfig_new addr)))).
Proof. done. Qed.

(** ** Publishing *)

Section calls.
Context `{JsonLaws ShutdownCommand}.
Context (dd : Duration → string).

(** What a published request becomes. *)
Definition published (req : PublishRequest) (u : string) (now : SystemTime) : EMessage :=
  EMessage_new u now (pr_topic req) (pr_payload req)
    (if pr_broadcast req then Broadcast else Standard)
    (if decide (pr_to_worker req = "") then None else Some (pr_to_worker req)).

(** A request without topic or for a topic of the system is refused before
    anything is done.  Any other becomes one message with the payload, topic
    and addressee asked for: a standard one is offered to the producer
    exactly once, a broadcast once per worker the registry lists, in order;
    nothing is scheduled or logged.  The call answers with the id of that
    message exactly when everything was accepted. *)
Theorem publish_sends_once req :
  wp (publish dd req) (λ t o,
    if decide (pr_topic req = "" ∨ starts_with "_" (pr_topic req) = true) then
      t = [] ∧ ∃ e, o = Done (Err e) ∧ st_code e = InvalidArgument
    else
      scheduled t = [] ∧ appended t = [] ∧
      match o with
      | Panicked _ => sent t = []
      | Done res =>
          ∃ u now r, let m := published req u now in
            (∀ i, res = Ok i → i = u) ∧
            ((pr_broadcast req = false ∧ (attempted t).*2 = [m] ∧
                sent t = (if is_ok res then [(tr_producer r, m)] else [])) ∨
             (pr_broadcast req = true ∧ attempted t = [] ∧ is_ok res = false) ∨
             (pr_broadcast req = true ∧ ∃ ws n,
                sent t = (λ w, (tr_producer r, broadcast_copy m w)) <$> take n ws ∧
                (is_ok res = true → n = length ws)))
      end).
Proof.
  unfold publish. destruct (decide (pr_topic req = "")) as [He|He].
  { simpl. rewrite decide_True by auto. eauto. }
  destruct (starts_with "_" (pr_topic req)) eqn:Hs.
  { simpl. rewrite decide_True by auto. eauto. }
  destruct (decide (pr_topic req = "" ∨ _)) as [[?|?]|_]; [done|congruence|].
  unfold new_message, topic_router_global. cbn [bind call wp].
  intros u now [r|]; cbn [bind expect wp]; [|done].
  set (m := published req u now).
  assert (wp (topic_send r (pr_topic req) m None None) (λ t o,
    scheduled t = [] ∧ appended t = [] ∧
    match o with
    | Panicked _ => sent t = []
    | Done res =>
        (pr_broadcast req = false ∧ (attempted t).*2 = [m] ∧
           sent t = (if is_ok res then [(tr_producer r, m)] else [])) ∨
        (pr_broadcast req = true ∧ attempted t = [] ∧ is_ok res = false) ∨
        (pr_broadcast req = true ∧ ∃ ws n,
           sent t = (λ w, (tr_producer r, broadcast_copy m w)) <$> take n ws ∧
           (is_ok res = true → n = length ws))
    end)) as Hsend.
  { destruct (pr_broadcast req) eqn:Hb.
    - eapply wp_mono, send_broadcast_spec; [|done|by unfold m, published; rewrite Hb].
      intros t [res|w] (Hsc & Hap & Ho); (split_and!; [done..|]);
        [|by apply sent_attempted].
      right. destruct Ho as [(_ & Hat & Hres)|(ws & _ & n & Hsent & Ho)]; [by left|].
      right. split; [done|]. exists ws, n. rewrite Hsent, <- fmap_take, <- list_fmap_compose.
      split; [done|]. intros Hok. rewrite Hok in Ho. by rewrite (proj1 Ho), length_fmap.
    - eapply wp_mono, send_plain_spec; [|done|by unfold m, published; rewrite Hb].
      intros t o (dflt & res & -> & Ha & Hse & Hsc & Hap & _).
      assert (set_topic (pr_topic req) m = m) as Hm by done. rewrite Hm in Ha, Hse.
      split_and!; [done..|]. left. by rewrite Ha, Hse. }
  eapply wp_seq; [exact Hsend|..].
  - intros t res (Hsc & Hap & Ho).
    destruct res as [[]|e]; cbn [wp]; rewrite app_nil_r;
      (split_and!; [exact Hsc|exact Hap|]);
      exists u, now, r; (split; [by intros i [= <-]|]); exact Ho.
  - intros t w (Hsc & Hap & Ho). by split_and!.
Qed.

(** ** Shutting down *)

(** A shutdown request without a strategy, or with the timeout strategy, is
    refused before anything is done.  Any other is sent once, as a message on
    the shutdown topic whose payload decodes to the strategy asked for, with
    its arguments unchanged; the call succeeds exactly when the queue took
    the message. *)
Theorem shutdown_sends_command (request : option Strategy) :
  wp (rpc_shutdown dd request) (λ t o,
    match request ≫= command_of with
    | None => t = [] ∧ ∃ e, o = Done (Err e) ∧ st_code e = InvalidArgument
    | Some cmd =>
        scheduled t = [] ∧ appended t = [] ∧
        match o with
        | Panicked _ => attempted t = []
        | Done res =>
            ∃ r m, topic m = SYSTEM_TOPIC_SHUTDOWN ∧ json_from_slice (payload m) = Ok cmd ∧
              (attempted t).*2 = [m] ∧
              sent t = (if is_ok res then [(tr_producer r, m)] else [])
        end
    end).
Proof.
  unfold rpc_shutdown. destruct request as [s|]; [|by simpl; eauto].
  change (Some s ≫= command_of) with (command_of s).
  destruct (command_of s) as [cmd|]; [|by simpl; eauto].
  destruct (json_to_vec cmd) as [pl|e] eqn:Hj; [|done].
  apply json_roundtrip in Hj. unfold new_message, topic_router_global. cbn [bind call wp].
  intros u now [r|]; cbn [bind expect wp]; [|done].
  eapply wp_seq; [by apply send_plain_spec|..].
  - intros t res (dflt & res' & [= <-] & Ha & Hse & Hsc & Hap & _).
    destruct res as [[]|e]; cbn [wp]; rewrite app_nil_r; (split_and!; [exact Hsc|exact Hap|]);
      exists r, (EMessage_new u now SYSTEM_TOPIC_SHUTDOWN pl Standard None);
      (split; [done|]); (split; [exact Hj|]);
      (split; [exact (f_equal (fmap snd) Ha)|exact Hse]).
  - naive_solver.
Qed.

(** A request for batches of size zero is accepted like any other, and the
    handler that receives the command panics. *)
Theorem zero_batches_panic `{Bincode ShutdownAck} interval fuel :
  wp (rpc_shutdown dd (Some (SBatched 0 interval))) (λ t o,
    ∀ (p : Producer) m, (p, m) ∈ sent t →
      wp (shutdown_handler fuel m) (λ t' o', ∃ why, o' = Panicked why)).
Proof.
  unfold rpc_shutdown. cbn [command_of]. destruct (json_to_vec _) as [pl|e] eqn:Hj;
    [|by intros p m ?%not_elem_of_nil].
  apply json_roundtrip in Hj. unfold new_message, topic_router_global. cbn [bind call wp].
  intros u now [r|]; cbn [bind expect wp]; [|by intros p m ?%not_elem_of_nil].
  eapply wp_seq; [by apply send_plain_spec|..].
  - intros t res (dflt & res' & [= <-] & Ha & Hse & _).
    destruct res as [[]|e]; cbn [wp]; rewrite app_nil_r; intros p m Hin.
    + change ((p, m) ∈ sent t) in Hin. rewrite Hse in Hin. simpl in Hin.
      apply list_elem_of_singleton in Hin as [= -> ->]. unfold shutdown_handler. simpl.
      rewrite Hj. simpl. eauto.
    + change ((p, m) ∈ sent t) in Hin. rewrite Hse in Hin. by apply not_elem_of_nil in Hin.
  - naive_solver.
Qed.

(** ** Listing workers *)

Definition proto_of (w : WorkerInfo) : ProtoWorkerInfo :=
  {| pw_worker_name := wi_worker_name w; pw_topic := wi_topic w;
     pw_last_heartbeat := as_secs (wi_last_heartbeat w) |}.

Lemma collect_workers ws :
  wp (collect_map proto_worker ws) (λ t o, t = [] ∧
    if decide (Forall (λ w, 0 ≤ wi_last_heartbeat w)%Z ws) then o = Done (proto_of <$> ws)
    else ∃ why, o = Panicked why).
Proof.
  induction ws as [|w ws IH]; [done|]. simpl. unfold proto_worker at 1, epoch_secs, duration_since.
  destruct (decide (0 ≤ wi_last_heartbeat w)%Z) as [Hw|Hw]; simpl.
  - eapply wp_seq; [exact IH|..].
    + intros t l [-> Hl]. simpl. split; [done|].
      destruct (decide (Forall _ ws)) as [Hf|Hf]; [|naive_solver].
      rewrite decide_True by auto. injection Hl as ->. unfold proto_of at 2.
      by rewrite Z.sub_0_r.
    + intros t why [-> Hl]. split; [done|]. destruct (decide (Forall _ ws)) as [Hf|Hf]; [done|].
      rewrite decide_False; [done|]. by intros [_ ?]%Forall_cons.
  - split; [done|]. rewrite decide_False; [eauto|]. by intros [? _]%Forall_cons.
Qed.

(** A worker node refuses to list workers without asking the registry.  A
    host answers with exactly the registry's workers of the topic in its
    order and their number; a heartbeat before 1970 makes the call panic. *)
Theorem list_workers_is_registry tpc :
  wp (list_workers tpc) (λ t o,
    attempted t = [] ∧
    match o with
    | Done (Ok resp) => ∃ ws, listed t = [ws] ∧ lw_workers resp = proto_of <$> ws ∧
        lw_total resp = as_u32 (length ws)
    | Done (Err e) => listed t = [] ∧ (st_code e = FailedPrecondition ∨ st_code e = Internal)
    | Panicked _ => ∀ ws, listed t = [ws] → ∃ w, w ∈ ws ∧ (wi_last_heartbeat w < 0)%Z
    end).
Proof.
  unfold list_workers, get_node_type, registry_global. simpl.
  intros [nt|]; simpl; [|done]. case_decide; simpl; [auto|].
  intros [[]|]; simpl; [|done]. intros [ws|e]; simpl; [|auto].
  eapply wp_seq; [apply collect_workers|..].
  - intros t l [-> Hl]. simpl. split; [done|]. exists ws. split; [done|].
    destruct (decide _); [by injection Hl as ->|naive_solver].
  - intros t why [-> Hl]. split; [done|]. intros ws' [= <-].
    destruct (decide (Forall _ ws)) as [|Hf]; [done|].
    apply not_Forall_Exists in Hf; [|apply _]. apply Exists_exists in Hf as (w & Hw & Hlt).
    exists w. split; [done|]. simpl in Hlt. lia.
Qed.
End calls.

(** ** Examples *)
Section examples.

(** Header values as texts. *)
#[local] Instance text_value : MetadataValue string := {|
  value_of s := if forallb visible (String.list_ascii_of_string s) then Some s else None;
  value_str v := Some v
|}.
#[local] Instance text_value_laws : MetadataLaws string.
Proof. intros s Hs. exists s. simpl. by rewrite Hs. Qed.

Import SerCodec.

Lemma shutdown_sends_command_witness :
  wp (rpc_shutdown (λ _, "") (Some (SBatched 4 500))) (λ t o,
    match o with
    | Done _ => ∃ m, (attempted t).*2 = [m] ∧
        json_from_slice (payload m) = Ok {| strategy := Batched 4 500 |}
    | Panicked _ => attempted t = []
    end).
Proof.
  eapply wp_mono, (shutdown_sends_command (λ _, "") (Some (SBatched 4 500))).
  intros t [res|w] (_ & _ & Ho); [|exact Ho].
  destruct Ho as (r & m & _ & Hj & Ha & _). exists m. split; [exact Ha|exact Hj].
Defined.

Lemma authenticated_channel_witness :
  ∃ meta', auth_call (token_client "s3cr3t") (∅ : gmap string string) = Ok meta' ∧
    intercept (Some "s3cr3t") meta' = Ok meta'.
Proof.
  destruct (authenticated_channel (∅ : gmap string string) "s3cr3t" (Some "s3cr3t")
    ltac:(reflexivity) ltac:(reflexivity)) as (meta' & Hc & Hs).
  exists meta'. split; [exact Hc|].
  destruct (intercept (Some "s3cr3t") meta') as [m|e].
  - by rewrite (proj1 Hs).
  - exfalso. destruct Hs as (_ & _ & Hs). discriminate (Hs eq_refl).
Defined.
End examples.

Close Scope string_scope.
