(* ===== verification/Config.v ===== *)
(** * Configuration: [src/config.rs]

    The sections of [eb.toml] with their defaults, and how [serde] reads and
    writes them: [#[serde(default, deny_unknown_fields)]] on every section.
    The syntax of TOML is read by the [toml] crate, [toml_parse]; what it
    hands over is a table of values. *)
From S2P Require Import Prelude Errors.

Open Scope string_scope.

(** ** TOML values *)

Inductive Toml : Type :=
| TString (s : string)
| TInteger (z : Z)
| TBoolean (b : bool)
| TTable (t : list (string * Toml))
| TOther (kind : string).

Abbreviation Table := (list (string * Toml)).

Inductive TomlError : Type :=
| Syntax (e : string)
| UnknownField (key : string)
| UnknownVariant (s : string)
| InvalidType (key : string).

Definition TRes (A : Type) : Type := result A TomlError.

Definition tbind {A B} (r : TRes A) (k : A → TRes B) : TRes B :=
  match r with Ok a => k a | Err e => Err e end.
Declare Scope toml_scope.
Notation "x ← r ; k" := (tbind r (λ x, k))
  (at level 20, r at level 100, k at level 200, only parsing) : toml_scope.
Local Open Scope toml_scope.

(** The value of a key. *)
Fixpoint field (key : string) (t : Table) : option Toml :=
  match t with
  | [] => None
  | (k, v) :: t => if decide (k = key) then Some v else field key t
  end.

(** [deny_unknown_fields]. *)
Fixpoint deny_unknown (known : list string) (t : Table) : TRes unit :=
  match t with
  | [] => Ok tt
  | (k, _) :: t => if decide (k ∈ known) then deny_unknown known t else Err (UnknownField k)
  end.

(** A field of a struct with [#[serde(default)]]. *)
Definition or_default {A} (read : string → Toml → TRes A) (dflt : A) (key : string) (t : Table)
    : TRes A :=
  match field key t with Some v => read key v | None => Ok dflt end.

Definition read_string (key : string) (v : Toml) : TRes string :=
  match v with TString s => Ok s | _ => Err (InvalidType key) end.
Definition read_bool (key : string) (v : Toml) : TRes bool :=
  match v with TBoolean b => Ok b | _ => Err (InvalidType key) end.
(** [usize] from the [i64] of TOML. *)
Definition read_usize (key : string) (v : Toml) : TRes Z :=
  match v with
  | TInteger z => if decide (0 ≤ z)%Z then Ok z else Err (InvalidType key)
  | _ => Err (InvalidType key)
  end.
(** A unit variant, [rename_all = "lowercase"]. *)
Definition read_variant {A} (variants : list (string * A)) (key : string) (v : Toml) : TRes A :=
  match v with
  | TString s =>
      match list_find (λ p, p.1 = s) variants with
      | Some (_, (_, a)) => Ok a
      | None => Err (UnknownVariant s)
      end
  | _ => Err (InvalidType key)
  end.
Definition read_table {A} (f : Table → TRes A) (key : string) (v : Toml) : TRes A :=
  match v with TTable t => f t | _ => Err (InvalidType key) end.

(** ** The sections *)

Inductive QueueBackend : Type := QMemory | QRedis.
Inductive WalBackend : Type := WMemory | WPersistent | WRedis.
Inductive Role : Type := RHost | RWorker.

Definition queue_backends : list (string * QueueBackend) := [("memory", QMemory); ("redis", QRedis)].
Definition wal_backends : list (string * WalBackend) :=
  [("memory", WMemory); ("persistent", WPersistent); ("redis", WRedis)].
Definition roles : list (string * Role) := [("host", RHost); ("worker", RWorker)].

Definition queue_backend_name (b : QueueBackend) : string :=
  match b with QMemory => "memory" | QRedis => "redis" end.
Definition wal_backend_name (b : WalBackend) : string :=
  match b with WMemory => "memory" | WPersistent => "persistent" | WRedis => "redis" end.
Definition role_name (r : Role) : string := match r with RHost => "host" | RWorker => "worker" end.

Record NodeSection : Type := { n_name : string; n_role : Role }.

Record QueueSection : Type := {
  q_backend : QueueBackend;
  q_capacity : Z;
  q_url : string;
  q_prefix : string;
  q_block_ms : Z;
  q_node : string
}.

Record WalSection : Type := {
  wl_backend : WalBackend;
  wl_path : string;
  wl_url : string;
  wl_prefix : string
}.

Record GrpcSection : Type := {
  gr_addr : string;
  gr_token : string;
  gr_tls_cert : string;
  gr_tls_key : string;
  gr_reflection : bool;
  gr_health : bool
}.

Record NodeConfig : Type := {
  cfg_node : NodeSection;
  cfg_queue : QueueSection;
  cfg_wal : WalSection;
  cfg_grpc : option GrpcSection;
  cfg_audit_buf_capacity : Z
}.

Section config.
(** [std::env::var]. *)
Context (env : string → option string).

Definition default_host_name : string :=
  match env "HOSTNAME" with
  | Some h => h
  | None => match env "COMPUTERNAME" with Some h => h | None => "node" end
  end.

Definition NodeSection_default : NodeSection := {| n_name := default_host_name; n_role := RHost |}.

Definition QueueSection_default : QueueSection :=
  {| q_backend := QMemory; q_capacity := 100000; q_url := ""; q_prefix := "event_base";
     q_block_ms := 2000; q_node := "" |}.

Definition WalSection_default : WalSection :=
  {| wl_backend := WMemory; wl_path := "event_base.wal"; wl_url := ""; wl_prefix := "event_base" |}.

Definition GrpcSection_default : GrpcSection :=
  {| gr_addr := "0.0.0.0:50051"; gr_token := ""; gr_tls_cert := ""; gr_tls_key := "";
     gr_reflection := true; gr_health := true |}.

Definition NodeConfig_default : NodeConfig :=
  {| cfg_node := NodeSection_default; cfg_queue := QueueSection_default;
     cfg_wal := WalSection_default; cfg_grpc := None; cfg_audit_buf_capacity := 0 |}.

Definition read_node (t : Table) : TRes NodeSection :=
  u ← deny_unknown ["name"; "role"] t;
  name ← or_default read_string (n_name NodeSection_default) "name" t;
  role ← or_default (read_variant roles) (n_role NodeSection_default) "role" t;
  Ok {| n_name := name; n_role := role |}.

Definition read_queue (t : Table) : TRes QueueSection :=
  let d := QueueSection_default in
  u ← deny_unknown ["backend"; "capacity"; "url"; "prefix"; "block_ms"; "node"] t;
  backend ← or_default (read_variant queue_backends) (q_backend d) "backend" t;
  capacity ← or_default read_usize (q_capacity d) "capacity" t;
  url ← or_default read_string (q_url d) "url" t;
  prefix ← or_default read_string (q_prefix d) "prefix" t;
  block_ms ← or_default read_usize (q_block_ms d) "block_ms" t;
  node ← or_default read_string (q_node d) "node" t;
  Ok {| q_backend := backend; q_capacity := capacity; q_url := url; q_prefix := prefix;
        q_block_ms := block_ms; q_node := node |}.

Definition read_wal (t : Table) : TRes WalSection :=
  let d := WalSection_default in
  u ← deny_unknown ["backend"; "path"; "url"; "prefix"] t;
  backend ← or_default (read_variant wal_backends) (wl_backend d) "backend" t;
  path ← or_default read_string (wl_path d) "path" t;
  url ← or_default read_string (wl_url d) "url" t;
  prefix ← or_default read_string (wl_prefix d) "prefix" t;
  Ok {| wl_backend := backend; wl_path := path; wl_url := url; wl_prefix := prefix |}.

Definition read_grpc (t : Table) : TRes GrpcSection :=
  let d := GrpcSection_default in
  u ← deny_unknown ["addr"; "token"; "tls_cert"; "tls_key"; "reflection"; "health"] t;
  addr ← or_default read_string (gr_addr d) "addr" t;
  token ← or_default read_string (gr_token d) "token" t;
  tls_cert ← or_default read_string (gr_tls_cert d) "tls_cert" t;
  tls_key ← or_default read_string (gr_tls_key d) "tls_key" t;
  reflection ← or_default read_bool (gr_reflection d) "reflection" t;
  health ← or_default read_bool (gr_health d) "health" t;
  Ok {| gr_addr := addr; gr_token := token; gr_tls_cert := tls_cert; gr_tls_key := tls_key;
        gr_reflection := reflection; gr_health := health |}.

(** An [Option] field that is present. *)
Definition read_some {A} (read : string → Toml → TRes A) (key : string) (v : Toml)
    : TRes (option A) :=
  x ← read key v; Ok (Some x).

Definition read_config (t : Table) : TRes NodeConfig :=
  let d := NodeConfig_default in
  u ← deny_unknown ["node"; "queue"; "wal"; "grpc"; "audit_buf_capacity"] t;
  node ← or_default (read_table read_node) (cfg_node d) "node" t;
  queue ← or_default (read_table read_queue) (cfg_queue d) "queue" t;
  wal ← or_default (read_table read_wal) (cfg_wal d) "wal" t;
  grpc ← or_default (read_some (read_table read_grpc)) (cfg_grpc d) "grpc" t;
  cap ← or_default read_usize (cfg_audit_buf_capacity d) "audit_buf_capacity" t;
  Ok {| cfg_node := node; cfg_queue := queue; cfg_wal := wal; cfg_grpc := grpc;
        cfg_audit_buf_capacity := cap |}.

(** What [Serialize] writes. *)
Definition write_node (s : NodeSection) : Table :=
  [("name", TString (n_name s)); ("role", TString (role_name (n_role s)))].
Definition write_queue (s : QueueSection) : Table :=
  [("backend", TString (queue_backend_name (q_backend s))); ("capacity", TInteger (q_capacity s));
   ("url", TString (q_url s)); ("prefix", TString (q_prefix s));
   ("block_ms", TInteger (q_block_ms s)); ("node", TString (q_node s))].
Definition write_wal (s : WalSection) : Table :=
  [("backend", TString (wal_backend_name (wl_backend s))); ("path", TString (wl_path s));
   ("url", TString (wl_url s)); ("prefix", TString (wl_prefix s))].
Definition write_grpc (s : GrpcSection) : Table :=
  [("addr", TString (gr_addr s)); ("token", TString (gr_token s));
   ("tls_cert", TString (gr_tls_cert s)); ("tls_key", TString (gr_tls_key s));
   ("reflection", TBoolean (gr_reflection s)); ("health", TBoolean (gr_health s))].
Definition write_config (c : NodeConfig) : Table :=
  ([("node", TTable (write_node (cfg_node c))); ("queue", TTable (write_queue (cfg_queue c)));
   ("wal", TTable (write_wal (cfg_wal c)))] ++
   match cfg_grpc c with Some g => [("grpc", TTable (write_grpc g))] | None => [] end ++
   [("audit_buf_capacity", TInteger (cfg_audit_buf_capacity c))])%list.

(** ** [NodeConfig] *)

(** [toml::from_str] up to the table, and the text of its errors. *)
Context (toml_parse : string → result Table string) (toml_error : TomlError → string).

Definition from_toml_str (s : string) : result NodeConfig string :=
  map_err (λ e, "invalid eb.toml: " +:+ toml_error e)
    (t ← map_err Syntax (toml_parse s); read_config t).

(** [std::fs::read_to_string]. *)
Definition load (read : string → result string string) (path : string)
    : result NodeConfig string :=
  match read path with
  | Err e => Err ("reading " +:+ path +:+ ": " +:+ e)
  | Ok text => from_toml_str text
  end.
End config.

Definition redis_node_id (c : NodeConfig) : string :=
  if decide (q_node (cfg_queue c) = "") then n_name (cfg_node c) else q_node (cfg_queue c).

Definition wal_redis_url (c : NodeConfig) : string :=
  if decide (wl_url (cfg_wal c) = "") then q_url (cfg_queue c) else wl_url (cfg_wal c).

Definition audit_capacity (c : NodeConfig) : Z :=
  if decide (cfg_audit_buf_capacity c = 0)%Z then 1024%Z else cfg_audit_buf_capacity c.

(** ** Reading what was written *)

Section theorems.
Context (env : string → option string).

(** The [usize] fields fit TOML's integers. *)
Definition config_in_range (c : NodeConfig) : Prop :=
  (0 ≤ q_capacity (cfg_queue c))%Z ∧ (0 ≤ q_block_ms (cfg_queue c))%Z ∧
  (0 ≤ cfg_audit_buf_capacity c)%Z.

Lemma read_usize_ok key z : (0 ≤ z)%Z → read_usize key (TInteger z) = Ok z.
Proof. intros. simpl. by rewrite decide_True. Qed.

Lemma write_read_node s : read_node env (write_node s) = Ok s.
Proof. by destruct s as [n []]. Qed.
Lemma write_read_queue s :
  (0 ≤ q_capacity s)%Z → (0 ≤ q_block_ms s)%Z → read_queue (write_queue s) = Ok s.
Proof.
  destruct s as [[] c u p b n]; simpl; intros Hc Hb; unfold read_queue, or_default; simpl;
    by rewrite !decide_True.
Qed.
Lemma write_read_wal s : read_wal (write_wal s) = Ok s.
Proof. by destruct s as [[] p u f]. Qed.

(** A configuration that is written out and read again is the same. *)
Theorem config_roundtrip c :
  config_in_range c → read_config env (write_config c) = Ok c.
Proof.
  intros (Hc & Hb & Ha). destruct c as [n q w g a]. simpl in *.
  unfold read_config, or_default, write_config, read_some. simpl.
  destruct g as [[]|]; simpl; rewrite write_read_node, write_read_queue, write_read_wal by done;
    simpl; rewrite decide_True by done; reflexivity.
Qed.

Lemma deny_unknown_ok known (t : Table) :
  deny_unknown known t = Ok tt ↔ Forall (λ p, p.1 ∈ known) t.
Proof.
  induction t as [|[k v] t IH]; simpl; [done|]. rewrite Forall_cons. simpl.
  case_decide; rewrite ?IH; naive_solver.
Qed.

Lemma tbind_ok {A B} (r : TRes A) (k : A → TRes B) b :
  tbind r k = Ok b → ∃ a, r = Ok a ∧ k a = Ok b.
Proof. destruct r; simpl; [eauto|done]. Qed.

(** A key that the format does not have makes the whole configuration an
    error, at the top and in every section; so does a section that is not a
    table. *)
Theorem unknown_keys_rejected t c :
  read_config env t = Ok c →
  Forall (λ p, p.1 ∈ ["node"; "queue"; "wal"; "grpc"; "audit_buf_capacity"]) t ∧
  (∀ v, field "node" t = Some v → ∃ s, v = TTable s ∧
     Forall (λ p, p.1 ∈ ["name"; "role"]) s) ∧
  (∀ v, field "queue" t = Some v → ∃ s, v = TTable s ∧
     Forall (λ p, p.1 ∈ ["backend"; "capacity"; "url"; "prefix"; "block_ms"; "node"]) s) ∧
  (∀ v, field "wal" t = Some v → ∃ s, v = TTable s ∧
     Forall (λ p, p.1 ∈ ["backend"; "path"; "url"; "prefix"]) s) ∧
  (∀ v, field "grpc" t = Some v → ∃ s, v = TTable s ∧
     Forall (λ p, p.1 ∈ ["addr"; "token"; "tls_cert"; "tls_key"; "reflection"; "health"]) s).
Proof.
  intros ([] & Hu%deny_unknown_ok & (n & Hn & (q & Hq & (w & Hw & (g & Hg & _)%tbind_ok)%tbind_ok)
    %tbind_ok)%tbind_ok)%tbind_ok.
  unfold or_default in *. split_and!; [done|..]; intros v Hv.
  - rewrite Hv in Hn. destruct v as [| | |s|]; try done. exists s. split; [done|].
    by apply tbind_ok in Hn as ([] & ?%deny_unknown_ok & _).
  - rewrite Hv in Hq. destruct v as [| | |s|]; try done. exists s. split; [done|].
    by apply tbind_ok in Hq as ([] & ?%deny_unknown_ok & _).
  - rewrite Hv in Hw. destruct v as [| | |s|]; try done. exists s. split; [done|].
    by apply tbind_ok in Hw as ([] & ?%deny_unknown_ok & _).
  - rewrite Hv in Hg. destruct v as [| | |s|]; try done. exists s. split; [done|].
    apply tbind_ok in Hg as (x & Hx & _).
    by apply tbind_ok in Hx as ([] & ?%deny_unknown_ok & _).
Qed.

(** Witnesses. *)
Definition demo_config : NodeConfig :=
  {| cfg_node := {| n_name := "orders-host"; n_role := RHost |};
     cfg_queue := {| q_backend := QRedis; q_capacity := 5; q_url := "redis://a"; q_prefix := "p";
                     q_block_ms := 100; q_node := "" |};
     cfg_wal := WalSection_default; cfg_grpc := Some GrpcSection_default;
     cfg_audit_buf_capacity := 0 |}.
End theorems.

Lemma config_roundtrip_witness :
  read_config (λ _, None) (write_config demo_config) = Ok demo_config.
Proof.
  apply (config_roundtrip (λ _, None) demo_config). unfold config_in_range. simpl. lia.
Defined.

Lemma unknown_keys_rejected_witness :
  ∃ c, read_config (λ _, None) [("queue", TTable [("capacity", TInteger 7)])] = Ok c ∧
    Forall (λ p : string * Toml, p.1 ∈ ["node"; "queue"; "wal"; "grpc"; "audit_buf_capacity"])
      [("queue", TTable [("capacity", TInteger 7)])].
Proof.
  eexists. split; [reflexivity|].
  refine (proj1 (unknown_keys_rejected (λ _, None)
    [("queue", TTable [("capacity", TInteger 7)])] _ _)).
  reflexivity.
Defined.

Close Scope string_scope.
