(* ===== verification/Bootstrap.v ===== *)
(** * One-call start-up: [src/bootstrap.rs]

    [Bootstrap::start] turns a configuration into a running node: it names
    the node, builds the queue factory and the two WAL handles, runs the
    start-up of [Startup] and spawns the control plane.  Cargo features,
    environment variables and address parsing are arguments. *)
From stdpp Require Import pretty.
From S2P Require Import Prelude Prog Errors Message Codec Wal PersistentWal RedisWal Metrics Runtime Topic Worker World Router Startup StartupTheorems RedisQueue Grpc Config.

Open Scope string_scope.

Record BootError : Type := { be_message : string }.
Definition BootError_new (w : string) : BootError := {| be_message := w |}.
Definition boot_error_display (e : BootError) : string := "bootstrap failed: " +:+ be_message e.

(** The cargo features that [bootstrap.rs] looks at. *)
Record Features : Type := { feat_redis : bool; feat_grpc_tls : bool }.

(** What the backends of a node are. *)
Inductive QueueChoice : Type :=
| MemoryQueues (capacity : Z)
| RedisQueues (f : RedisStreamQueueFactory).

(** The registry's WAL and the one of the WAL-sync handler. *)
Inductive WalPair : Type :=
| MemoryWals (registry sync : MemoryWal)
| PersistentWals (registry sync : PersistentWal)
| RedisWals (registry sync : RedisWal).

Record Bootstrap : Type := { bs_config : NodeConfig }.
Definition Bootstrap_new (config : NodeConfig) : Bootstrap := {| bs_config := config |}.

Section bootstrap.
Context {S F Addr B : Type} `{Streams S} `{FileSys F} `{RingBuf AuditRecord B}.
Context `{Bincode MemoryWal}.
Context (features : Features) (env : string → option string) (debug : string → string).
Context (parse_addr : string → result Addr string) (core_text : CoreError → string).

(** Start-up's own arguments, for the chosen backends. *)
Context (created : QueueChoice → string → Res Producer) (global_producer : QueueChoice → Res Producer).
Context (main_consumer : QueueChoice → Res unit) (load_registry : WalPair → Res unit).
Context (make : string → nat → Worker * Inbox * JoinHandle) (handler : string → HandlerRef).
Context (entries : QueueChoice → list (Start (B := B) unit)).

(** The node name cell, the process, the Redis server and the files. *)
Record BootWorld : Type := {
  bw_name : option string;
  bw_process : Process (B := B);
  bw_server : S;
  bw_files : F
}.

Definition bw_with_name n (w : BootWorld) : BootWorld :=
  {| bw_name := n; bw_process := bw_process w; bw_server := bw_server w; bw_files := bw_files w |}.
Definition bw_with_process p (w : BootWorld) : BootWorld :=
  {| bw_name := bw_name w; bw_process := p; bw_server := bw_server w; bw_files := bw_files w |}.
Definition bw_with_server s (w : BootWorld) : BootWorld :=
  {| bw_name := bw_name w; bw_process := bw_process w; bw_server := s; bw_files := bw_files w |}.

Definition BRes (A : Type) : Type := result A BootError.

(** [?] on a [CoreError]. *)
Definition from_core {A} (r : Res A) : BRes A := map_err (λ e, BootError_new (core_text e)) r.

Definition from_file (toml_parse : string → result Table string) (toml_error : TomlError → string)
    (read : string → result string string) (path : string) : BRes Bootstrap :=
  match load env toml_parse toml_error read path with
  | Ok c => Ok (Bootstrap_new c)
  | Err e => Err (BootError_new e)
  end.

Definition boot_from_toml_str (toml_parse : string → result Table string)
    (toml_error : TomlError → string) (s : string) : BRes Bootstrap :=
  match from_toml_str env toml_parse toml_error s with
  | Ok c => Ok (Bootstrap_new c)
  | Err e => Err (BootError_new e)
  end.

Definition boot_default (name : string) (role : Role) : Bootstrap :=
  let c := NodeConfig_default env in
  Bootstrap_new {| cfg_node := {| n_name := name; n_role := role |}; cfg_queue := cfg_queue c;
                   cfg_wal := cfg_wal c; cfg_grpc := cfg_grpc c;
                   cfg_audit_buf_capacity := cfg_audit_buf_capacity c |}.
Definition boot_host (name : string) : Bootstrap := boot_default name RHost.
Definition boot_worker (name : string) : Bootstrap := boot_default name RWorker.

Definition default_name : string :=
  match env "HOSTNAME" with
  | Some h => h
  | None => match env "COMPUTERNAME" with Some h => h | None => "node" end
  end.

(** ** Backends *)

Definition build_redis_factory (uuid : string) (config : NodeConfig) (s : S)
    : BRes QueueChoice * S :=
  if feat_redis features then
    let qc := with_block_ms (q_block_ms (cfg_queue config))
                (with_node (redis_node_id config)
                   (with_prefix (q_prefix (cfg_queue config))
                      (RedisQueueConfig_new (q_url (cfg_queue config))))) in
    let '(r, s) := with_config uuid qc s in
    (match from_core r with Ok f => Ok (RedisQueues f) | Err e => Err e end, s)
  else
    (Err (BootError_new
       "redis queue backend requested but the `redis` feature is disabled — build event_base with --features redis"), s).

Definition build_factory (uuid : string) (config : NodeConfig) (s : S) : BRes QueueChoice * S :=
  match q_backend (cfg_queue config) with
  | QMemory => (Ok (MemoryQueues (q_capacity (cfg_queue config))), s)
  | QRedis => build_redis_factory uuid config s
  end.

(** [RedisWal::with_prefix]. *)
Definition redis_wal_with_prefix (url prefix : string) (s : S) : Res RedisWal * S :=
  match x_open url with
  | Err e => (Err (backend_err e), s)
  | Ok _ =>
      match x_connect s with
      | (Err e, s) => (Err (backend_err e), s)
      | (Ok _, s) => (Ok {| rw_prefix := prefix |}, s)
      end
  end.

Definition build_redis_wal (config : NodeConfig) (s : S) : BRes WalPair * S :=
  if feat_redis features then
    let url := wal_redis_url config in
    let prefix := wl_prefix (cfg_wal config) in
    match redis_wal_with_prefix url prefix s with
    | (Err e, s) => (from_core (Err e), s)
    | (Ok a, s) =>
        match redis_wal_with_prefix url prefix s with
        | (Err e, s) => (from_core (Err e), s)
        | (Ok b, s) => (Ok (RedisWals a b), s)
        end
    end
  else
    (Err (BootError_new
       "redis WAL backend requested but the `redis` feature is disabled — build event_base with --features redis"), s).

Definition build_wal (config : NodeConfig) (f : F) (s : S) : BRes WalPair * S :=
  match wl_backend (cfg_wal config) with
  | WMemory => (Ok (MemoryWals MemoryWal_new MemoryWal_new), s)
  | WPersistent =>
      let path := wl_path (cfg_wal config) in
      match PersistentWal_new path f with
      | Err e => (from_core (Err e), s)
      | Ok a =>
          match PersistentWal_new path f with
          | Err e => (from_core (Err e), s)
          | Ok b => (Ok (PersistentWals a b), s)
          end
      end
  | WRedis => build_redis_wal config s
  end.

(** ** The control plane *)

(** The configuration of the server that is spawned. *)
Definition spawn_grpc (g : GrpcSection) (f : F) : BRes (ServeConfig (Addr := Addr)) :=
  match parse_addr (gr_addr g) with
  | Err e => Err (BootError_new ("invalid grpc.addr " +:+ debug (gr_addr g) +:+ ": " +:+ e))
  | Ok addr =>
      let config := sc_with_health (gr_health g)
                      (sc_with_reflection (gr_reflection g) (ServeConfig_new addr)) in
      let config := if decide (gr_token g = "") then config else sc_with_token (gr_token g) config in
      if feat_grpc_tls features then
        if decide (gr_tls_cert g ≠ "" ∧ gr_tls_key g ≠ "") then
          match fs_read (gr_tls_cert g) f with
          | Err e => Err (BootError_new ("reading tls_cert " +:+ gr_tls_cert g +:+ ": " +:+ e))
          | Ok cert =>
              match fs_read (gr_tls_key g) f with
              | Err e => Err (BootError_new ("reading tls_key " +:+ gr_tls_key g +:+ ": " +:+ e))
              | Ok key => Ok (sc_with_tls cert key config)
              end
          end
        else if decide (gr_tls_cert g ≠ "" ∨ gr_tls_key g ≠ "") then
          Err (BootError_new "grpc TLS needs BOTH tls_cert and tls_key set")
        else Ok config
      else Ok config
  end.

(** ** [Bootstrap::start] *)

Record Running : Type := {
  rn_node_name : string;
  rn_queue : QueueChoice;
  rn_wal : WalPair;
  rn_grpc : option (ServeConfig (Addr := Addr))
}.

Definition role_type (r : Role) : NodeType := match r with RHost => Host | RWorker => WorkerNode end.

Definition node_name_of (c : NodeConfig) : string :=
  if decide (n_name (cfg_node c) = "") then default_name else n_name (cfg_node c).

(** [try_set_node_name]: the first name stays. *)
Definition set_name_once (n : string) (w : BootWorld) : BootWorld :=
  bw_with_name (match bw_name w with Some n => Some n | None => Some n end) w.

Definition boot_start (uuid : string) (b : Bootstrap) (w : BootWorld)
    : outcome (BRes Running) * BootWorld :=
  let config := bs_config b in
  let node_name := node_name_of config in
  let w := set_name_once node_name w in
  match build_factory uuid config (bw_server w) with
  | (Err e, s) => (Done (Err e), bw_with_server s w)
  | (Ok q, s) =>
      let w := bw_with_server s w in
      match build_wal config (bw_files w) (bw_server w) with
      | (Err e, s) => (Done (Err e), bw_with_server s w)
      | (Ok p, s) =>
          let w := bw_with_server s w in
          match start_system_impl (created q) make handler (role_type (n_role (cfg_node config)))
                  (global_producer q) (main_consumer q) (load_registry p)
                  (Z.to_nat (audit_capacity config)) [] (entries q) (bw_process w) with
          | (Panicked why, ps) => (Panicked why, bw_with_process ps w)
          | (Done (Err e), ps) => (Done (from_core (Err e)), bw_with_process ps w)
          | (Done (Ok _), ps) =>
              let w := bw_with_process ps w in
              match cfg_grpc config with
              | None => (Done (Ok {| rn_node_name := node_name; rn_queue := q; rn_wal := p;
                                     rn_grpc := None |}), w)
              | Some g =>
                  match spawn_grpc g (bw_files w) with
                  | Err e => (Done (Err e), w)
                  | Ok c => (Done (Ok {| rn_node_name := node_name; rn_queue := q; rn_wal := p;
                                         rn_grpc := Some c |}), w)
                  end
              end
          end
      end
  end.
End bootstrap.

Close Scope string_scope.
