(* ===== verification/BootstrapTheorems.v ===== *)
(** * What a configured node becomes *)
From stdpp Require Import pretty.
From S2P Require Import Prelude Prog Errors Message Codec Wal PersistentWal RedisWal Metrics Runtime Topic Worker World Router Startup StartupTheorems RedisQueue Grpc Config Bootstrap.

Open Scope string_scope.

Section theorems.
Context {S F Addr B : Type} `{Streams S} `{FileSys F} `{RingBuf AuditRecord B}.
Context `{Bincode MemoryWal}.
Context (features : Features) (env : string → option string) (debug : string → string).
Context (parse_addr : string → result Addr string) (core_text : CoreError → string).
Context (created : QueueChoice → string → Res Producer).
Context (global_producer : QueueChoice → Res Producer).
Context (main_consumer : QueueChoice → Res unit) (load_registry : WalPair → Res unit).
Context (make : string → nat → Worker * Inbox * JoinHandle) (handler : string → HandlerRef).
Context (hs : list (string * nat)).

(** The user's handlers: their topics and the workers they ask for. *)
Let entries (q : QueueChoice) : list (Start (B := B) unit) :=
  entries_of (created q) make handler hs.
Let start := boot_start features env debug parse_addr core_text created global_producer
  main_consumer load_registry make handler entries (S := S) (F := F) (B := B).
Implicit Types w : BootWorld (S := S) (F := F) (B := B).

(** A process in which nothing was started. *)
Definition unstarted w : Prop := bw_process w = fresh.

(** A backend that answers. *)
Definition answers (q : QueueChoice) (p : WalPair) : Prop :=
  (∀ tpc, ∃ pr, created q tpc = Ok pr) ∧ (∃ pr, global_producer q = Ok pr) ∧
  main_consumer q = Ok tt ∧ load_registry p = Ok tt.

(** The process of a node that was started. *)
Definition serving (ty : NodeType) (s : Process (B := B)) : Prop :=
  ∃ c, ps_consumer_router s = Some c ∧
    worker_counts c = add_counts hs (of_topics (role_topics ty [])) ∧
    background s = ([Spawned TNodeCollector; Spawned TMainLoop; DiscoverySent hs.*1] ++
                    role_tasks ty)%list.

(** What [start] does once its backends are there. *)
Lemma boot_start_spec uuid config w q s1 p s2 :
  unstarted w → NoDup hs.*1 → Forall (λ tpc, starts_with "_system." tpc = false) hs.*1 →
  build_factory features core_text uuid config (bw_server w) = (Ok q, s1) →
  build_wal features core_text config (bw_files w) s1 = (Ok p, s2) →
  answers q p →
  ∃ w', bw_server w' = s2 ∧ bw_files w' = bw_files w ∧
    bw_name w' = Some (default (node_name_of env config) (bw_name w)) ∧
    serving (role_type (n_role (cfg_node config))) (bw_process w') ∧
    start uuid (Bootstrap_new config) w =
      (match cfg_grpc config with
       | None => Done (Ok {| rn_node_name := node_name_of env config; rn_queue := q; rn_wal := p;
                             rn_grpc := None |})
       | Some g =>
           match spawn_grpc features debug parse_addr g (bw_files w) with
           | Err e => Done (Err e)
           | Ok c => Done (Ok {| rn_node_name := node_name_of env config; rn_queue := q;
                                 rn_wal := p; rn_grpc := Some c |})
           end
       end, w').
Proof.
  intros Hun Hnd Hsys Hf Hw (Hc & [pr Hp] & Hm & Hl).
  destruct (started_node_spec (created q) make handler Hc (role_type (n_role (cfg_node config)))
    pr (Z.to_nat (audit_capacity config)) [] hs Hnd Hsys) as (s & c & Hs & Hcr & Hwc & Hbg & _).
  unfold start, boot_start. cbn [bs_config Bootstrap_new]. simpl. rewrite Hf. simpl. rewrite Hw.
  rewrite Hp, Hm, Hl. simpl. unfold unstarted in Hun. rewrite Hun.
  fold (entries q) in Hs. rewrite Hs. eexists. split; [|split; [|split; [|split; [|]]]].
  5:{ destruct (cfg_grpc config) as [g|]; [|done]. simpl. by destruct (spawn_grpc _ _ _ g _). }
  - done.
  - done.
  - simpl. by destruct (bw_name w).
  - simpl. exists c. done.
Qed.

(** ** Claims *)

(** A default node boots: with handlers for distinct topics of its own and
    queues in memory that answer, [Bootstrap::host] and [Bootstrap::worker]
    start in a fresh process and serve the topics of their role and the
    handlers', under the given name and without a control plane. *)
Theorem default_node_boots uuid name role w :
  unstarted w → NoDup hs.*1 → Forall (λ tpc, starts_with "_system." tpc = false) hs.*1 →
  name ≠ "" → answers (MemoryQueues 100000) (MemoryWals MemoryWal_new MemoryWal_new) →
  ∃ w', boot_start features env debug parse_addr core_text created global_producer main_consumer
      load_registry make handler (λ q, entries_of (created q) make handler hs) uuid
      (boot_default env name role) w =
      (Done (Ok {| rn_node_name := name; rn_queue := MemoryQueues 100000;
                   rn_wal := MemoryWals MemoryWal_new MemoryWal_new; rn_grpc := None |}), w') ∧
    bw_name w' = Some (default name (bw_name w)) ∧ bw_server w' = bw_server w ∧
    serving (role_type role) (bw_process w').
Proof.
  intros Hun Hnd Hsys Hne Hans. pose (config := bs_config (boot_default env name role)).
  destruct (boot_start_spec uuid config w (MemoryQueues 100000) (bw_server w)
    (MemoryWals MemoryWal_new MemoryWal_new) (bw_server w) Hun Hnd Hsys eq_refl eq_refl Hans)
    as (w' & Hs & _ & Hn & Hsv & Hst).
  assert (node_name_of env config = name) as Hname
    by (unfold node_name_of; simpl; by rewrite decide_False).
  rewrite Hname in Hn. unfold start in Hst. simpl in Hst. rewrite Hname in Hst.
  exists w'. done.
Qed.

(** A configuration that asks for Redis in a build without it fails before
    anything is started or any connection is opened. *)
Theorem missing_feature_starts_nothing uuid config w :
  feat_redis features = false →
  q_backend (cfg_queue config) = QRedis ∨
    (q_backend (cfg_queue config) = QMemory ∧ wl_backend (cfg_wal config) = WRedis) →
  ∃ e w', boot_start features env debug parse_addr core_text created global_producer main_consumer
      load_registry make handler (λ q, entries_of (created q) make handler hs) uuid
      (Bootstrap_new config) w = (Done (Err e), w') ∧
    bw_process w' = bw_process w ∧ bw_server w' = bw_server w.
Proof.
  intros Hf Hb. unfold boot_start, build_factory, build_redis_factory. simpl. rewrite Hf.
  destruct Hb as [->|[-> Hw]]; simpl; [by eauto|].
  unfold build_wal, build_redis_wal. rewrite Hw, Hf. simpl. by eauto.
Qed.

(** The control plane is started last: when its section is wrong (an
    address that does not parse, one of the two TLS files missing), [start]
    reports an error although the node is up, with its workers and its
    background tasks running. *)
Theorem bad_control_plane_leaves_node_running uuid config w q s1 p s2 g e :
  unstarted w → NoDup hs.*1 → Forall (λ tpc, starts_with "_system." tpc = false) hs.*1 →
  build_factory features core_text uuid config (bw_server w) = (Ok q, s1) →
  build_wal features core_text config (bw_files w) s1 = (Ok p, s2) →
  answers q p → cfg_grpc config = Some g →
  spawn_grpc features debug parse_addr g (bw_files w) = Err e →
  ∃ w', boot_start features env debug parse_addr core_text created global_producer main_consumer
      load_registry make handler (λ q, entries_of (created q) make handler hs) uuid
      (Bootstrap_new config) w = (Done (Err e), w') ∧
    serving (role_type (n_role (cfg_node config))) (bw_process w').
Proof.
  intros Hun Hnd Hsys Hf Hw Hans Hg Hsp.
  destruct (boot_start_spec uuid config w q s1 p s2 Hun Hnd Hsys Hf Hw Hans)
    as (w' & _ & _ & _ & Hsv & Hst).
  rewrite Hg, Hsp in Hst. by exists w'.
Qed.

(** The server that is spawned obeys its section: token, reflection and
    health as configured, and TLS with the contents of the two files; a
    build without TLS serves in plain text whatever files are configured. *)
Theorem grpc_section_obeyed g (f : F) c :
  spawn_grpc features debug parse_addr g f = Ok c →
  sc_token c = (if decide (gr_token g = "") then None else Some (gr_token g)) ∧
  sc_reflection c = gr_reflection g ∧ sc_health c = gr_health g ∧
  parse_addr (gr_addr g) = Ok (sc_addr c) ∧
  match sc_tls c with
  | Some (cert, key) => feat_grpc_tls features = true ∧
      fs_read (gr_tls_cert g) f = Ok cert ∧ fs_read (gr_tls_key g) f = Ok key
  | None => feat_grpc_tls features = false ∨ (gr_tls_cert g = "" ∧ gr_tls_key g = "")
  end.
Proof.
  unfold spawn_grpc. destruct (parse_addr (gr_addr g)) as [addr|]; [|done].
  destruct (feat_grpc_tls features).
  - case_decide as Hb.
    + destruct (fs_read (gr_tls_cert g) f) as [cert|]; [|done].
      destruct (fs_read (gr_tls_key g) f) as [key|]; [|done].
      intros [= <-]. by case_decide.
    + case_decide as Ho; [done|]. intros [= <-].
      assert (gr_tls_cert g = "" ∧ gr_tls_key g = "") as Hboth.
      { split; [destruct (decide (gr_tls_cert g = ""))|destruct (decide (gr_tls_key g = ""))];
          naive_solver. }
      case_decide; split_and!; simpl; auto.
  - intros [= <-]. case_decide; split_and!; simpl; auto.
Qed.

(** Nodes that leave their name and queue node empty are named after their
    hosts, yet read the coordination topics through one common group. *)
Theorem nameless_nodes_share_group uuid config s f s' global t :
  n_name (cfg_node config) = "" → q_node (cfg_queue config) = "" →
  build_redis_factory features core_text uuid config s = (Ok (RedisQueues f), s') →
  t ∈ FANOUT_SYSTEM_TOPICS →
  node_name_of env config = default_name env ∧
  group_for global t (rf_config f) = "event_base@".
Proof.
  intros Hn Hq Hf Ht. split; [unfold node_name_of; by rewrite decide_True|].
  unfold build_redis_factory in Hf. destruct (feat_redis features); [|done].
  unfold with_config in Hf. simpl in Hf. destruct (x_open _); [|done].
  destruct (x_connect s) as [[]]; [|done]. injection Hf as <- _.
  unfold group_for. rewrite decide_True by done. simpl. unfold redis_node_id.
  by rewrite Hq, decide_True, Hn by done.
Qed.
End theorems.

(** ** Witnesses *)
Section witnesses.
Import StreamsRef SerCodec.
#[local] Existing Instance map_fs.

Definition demo_world : BootWorld (S := Keyspace) (F := gmap string bytes) (B := ListRing AuditRecord) :=
  {| bw_name := None; bw_process := fresh; bw_server := ∅; bw_files := ∅ |}.

Definition demo_features : Features := {| feat_redis := false; feat_grpc_tls := false |}.

(** Addresses are texts; the empty one does not parse. *)
Definition demo_addr (a : string) : result string string :=
  if decide (a = "") then Err "invalid socket address syntax" else Ok a.

Definition demo_boot (b : Bootstrap) :=
  boot_start demo_features (λ _, None) (λ s, s) demo_addr (λ _, "") (λ _, demo_created)
    (λ _, Ok the_producer) (λ _, Ok tt) (λ _, Ok tt) demo_make (λ _, 1%positive)
    (λ q, entries_of demo_created demo_make (λ _, 1%positive) [("orders", 2%nat)]) "u" b demo_world.

Lemma demo_answers q p :
  answers (λ _, demo_created) (λ _, Ok the_producer) (λ _, Ok tt) (λ _, Ok tt) q p.
Proof. split; [by exists the_producer|]. split; [by exists the_producer|done]. Qed.

Lemma default_node_boots_witness :
  ∃ w', demo_boot (boot_host (λ _, None) "h") =
    (Done (Ok {| rn_node_name := "h"; rn_queue := MemoryQueues 100000;
                 rn_wal := MemoryWals MemoryWal_new MemoryWal_new; rn_grpc := None |}), w') ∧
    bw_name w' = Some "h".
Proof.
  destruct (default_node_boots demo_features (λ _, None) (λ s, s) demo_addr (λ _, "")
    (λ _, demo_created) (λ _, Ok the_producer) (λ _, Ok tt) (λ _, Ok tt) demo_make
    (λ _, 1%positive) [("orders", 2%nat)] "u" "h" RHost demo_world eq_refl
    ltac:(apply NoDup_singleton) ltac:(repeat constructor) ltac:(done)
    (demo_answers _ _)) as (w' & Hs & Hn & _).
  exists w'. split; [exact Hs|exact Hn].
Defined.

Definition redis_config : NodeConfig :=
  {| cfg_node := {| n_name := ""; n_role := RWorker |};
     cfg_queue := {| q_backend := QRedis; q_capacity := 5; q_url := "redis://a"; q_prefix := "p";
                     q_block_ms := 100; q_node := "" |};
     cfg_wal := WalSection_default; cfg_grpc := None; cfg_audit_buf_capacity := 0 |}.

Lemma missing_feature_starts_nothing_witness :
  ∃ e w', demo_boot (Bootstrap_new redis_config) = (Done (Err e), w') ∧ bw_process w' = fresh.
Proof.
  destruct (missing_feature_starts_nothing demo_features (λ _, None) (λ s, s) demo_addr (λ _, "")
    (λ _, demo_created) (λ _, Ok the_producer) (λ _, Ok tt) (λ _, Ok tt) demo_make
    (λ _, 1%positive) [("orders", 2%nat)] "u" redis_config demo_world eq_refl
    ltac:(left; reflexivity)) as (e & w' & Hs & Hp & _).
  exists e, w'. split; [exact Hs|exact Hp].
Defined.

Definition bad_grpc_config : NodeConfig :=
  {| cfg_node := {| n_name := "h"; n_role := RHost |}; cfg_queue := QueueSection_default;
     cfg_wal := WalSection_default;
     cfg_grpc := Some {| gr_addr := ""; gr_token := ""; gr_tls_cert := ""; gr_tls_key := "";
                         gr_reflection := true; gr_health := true |};
     cfg_audit_buf_capacity := 0 |}.

Lemma bad_control_plane_leaves_node_running_witness :
  ∃ e w', demo_boot (Bootstrap_new bad_grpc_config) = (Done (Err e), w') ∧
    serving [("orders", 2%nat)] Host (bw_process w').
Proof.
  destruct (bad_control_plane_leaves_node_running demo_features (λ _, None) (λ s, s) demo_addr
    (λ _, "") (λ _, demo_created) (λ _, Ok the_producer) (λ _, Ok tt) (λ _, Ok tt) demo_make
    (λ _, 1%positive) [("orders", 2%nat)] "u" bad_grpc_config demo_world _ _ _ _ _ _ eq_refl
    ltac:(apply NoDup_singleton) ltac:(repeat constructor) eq_refl eq_refl
    (demo_answers _ _) eq_refl eq_refl) as (w' & Hs & Hv).
  eexists _, w'. split; [exact Hs|exact Hv].
Defined.

Lemma grpc_section_obeyed_witness :
  ∃ c, spawn_grpc demo_features (λ s, s) demo_addr
      {| gr_addr := "a:1"; gr_token := "t"; gr_tls_cert := "c.pem"; gr_tls_key := "k.pem";
         gr_reflection := false; gr_health := true |} (∅ : gmap string bytes) = Ok c ∧
    sc_token c = Some "t" ∧ sc_tls c = None.
Proof.
  eexists. split; [reflexivity|].
  split; [|reflexivity].
  exact (proj1 (grpc_section_obeyed demo_features (λ s, s) demo_addr
    {| gr_addr := "a:1"; gr_token := "t"; gr_tls_cert := "c.pem"; gr_tls_key := "k.pem";
       gr_reflection := false; gr_health := true |} (∅ : gmap string bytes) _ eq_refl)).
Defined.

(** ** Two handles on one file *)

(** The two handles of the persistent backend write the same file, each from
    its own memory: a record that the first has flushed is gone after the
    second flushes. *)
Theorem second_handle_overwrites :
  let path := "event_base.wal" in
  let r := WalRecord_from_msg (EMessage_new "m" 5 "orders" [1]%Z Standard None) in
  ∃ a b f1 f2 c, PersistentWal_new path (∅ : gmap string bytes) = Ok a ∧
    PersistentWal_new path (∅ : gmap string bytes) = Ok b ∧
    persist_flush (persist_append r a).2 ∅ = (Ok tt, f1) ∧ is_Some (f1 !! path) ∧
    persist_flush b f1 = (Ok tt, f2) ∧
    PersistentWal_new path f2 = Ok c ∧ records (p_maps c) = ∅.
Proof.
  eexists _, _, _, _, _. split; [reflexivity|]. split; [reflexivity|].
  split; [vm_compute; reflexivity|]. split; [vm_compute; eexists; reflexivity|].
  split; [vm_compute; reflexivity|]. split; [vm_compute; reflexivity|]. reflexivity.
Qed.
End witnesses.

Close Scope string_scope.
