(* ===== verification/Lifecycle.v ===== *)
(** * The end of a node: [Running] of [src/bootstrap.rs], [shutdown/mod.rs]

    The shutdown channel is tokio's broadcast channel, an interface with its
    documented laws here.  [Running] keeps one of its receivers and the task
    of the control plane; [wait] ends when a signal arrives there.  The
    shutdown strategies of [Shutdown] are put together with it: which of
    them let [main] return, and what is left of the first stage of a
    two-stage shutdown when no worker holds a receiver. *)
From S2P Require Import Prelude Prog Errors Message Codec Runtime Topic Worker WorkerShutdown World Router RouterTheorems Shutdown ShutdownTheorems RedisQueue Grpc Config Bootstrap.

Open Scope list_scope.

(** ** [tokio::sync::broadcast] for signals without content

    [bc_receivers] are the receivers that are alive; [bc_ready r] says that
    [recv] of [r] would return at once: a value or, when it was too slow,
    the error [Lagged]. *)
Class Broadcast (C : Type) : Type := {
  bc_channel : nat → C * nat;
  bc_receivers : C → list nat;
  bc_ready : nat → C → bool;
  bc_send : C → result nat unit * C;
  bc_subscribe : C → nat * C;
  bc_drop : nat → C → C
}.

Class BroadcastLaws (C : Type) `{Broadcast C} : Prop := {
  bc_channel_law n :
    bc_receivers (bc_channel n).1 = [(bc_channel n).2] ∧
    bc_ready (bc_channel n).2 (bc_channel n).1 = false;
  bc_send_nobody c : bc_receivers c = [] → bc_send c = (Err tt, c);
  bc_send_someone c :
    bc_receivers c ≠ [] →
    ∃ c', bc_send c = (Ok (length (bc_receivers c)), c') ∧
      bc_receivers c' = bc_receivers c ∧ ∀ r, r ∈ bc_receivers c → bc_ready r c' = true;
  bc_subscribe_law c :
    let '(r, c') := bc_subscribe c in
    (r ∉ bc_receivers c) ∧ bc_receivers c' = bc_receivers c ++ [r] ∧ bc_ready r c' = false ∧
    ∀ r', r' ∈ bc_receivers c → bc_ready r' c' = bc_ready r' c;
  bc_drop_law r c :
    bc_receivers (bc_drop r c) = filter (λ r', r' ≠ r) (bc_receivers c) ∧
    ∀ r', r' ≠ r → bc_ready r' (bc_drop r c) = bc_ready r' c
}.

(** A channel is the list of its receivers with their mark. *)
Module MarkedReceivers.
Record Channel : Type := { ch_next : nat; marks : list (nat * bool) }.

Definition ready (r : nat) (c : Channel) : bool :=
  existsb (λ m, bool_decide (m = (r, true))) (marks c).

#[global] Instance marked_receivers : Broadcast Channel := {
  bc_channel _ := ({| ch_next := 1; marks := [(0%nat, false)] |}, 0%nat);
  bc_receivers c := (marks c).*1;
  bc_ready := ready;
  bc_send c :=
    match marks c with
    | [] => (Err tt, c)
    | _ => (Ok (length (marks c)),
            {| ch_next := ch_next c; marks := (λ m, (m.1, true)) <$> marks c |})
    end;
  bc_subscribe c :=
    let r := S (foldr max (ch_next c) (marks c).*1) in
    (r, {| ch_next := S r; marks := marks c ++ [(r, false)] |});
  bc_drop r c := {| ch_next := ch_next c; marks := filter (λ m, m.1 ≠ r) (marks c) |}
}.

Lemma fresh_above n (l : list nat) x : x ∈ l → (x < S (foldr max n l))%nat.
Proof.
  induction l as [|y l IH]; simpl; [by intros ?%not_elem_of_nil|].
  intros [->|Hx]%elem_of_cons; [lia|]. specialize (IH Hx). lia.
Qed.

Lemma mark_all_receivers (l : list (nat * bool)) : ((λ m, (m.1, true)) <$> l).*1 = l.*1.
Proof. induction l as [|m l IH]; [done|]. csimpl. by rewrite IH. Qed.

Lemma ready_spec r c : ready r c = true ↔ (r, true) ∈ marks c.
Proof.
  unfold ready. rewrite existsb_exists. split.
  - intros (m & Hm & ->%bool_decide_eq_true). by apply list_elem_of_In.
  - intros Hm. exists (r, true). split; [by apply list_elem_of_In|by apply bool_decide_eq_true].
Qed.

#[global] Instance marked_receivers_laws : BroadcastLaws Channel.
Proof.
  split.
  - done.
  - intros [n [|m l]]; done.
  - intros [n [|m l]]; [done|intros _]. eexists. split.
    { cbn. by rewrite length_fmap. }
    cbn [bc_receivers marked_receivers marks]. split; [exact (mark_all_receivers (m :: l))|].
    intros r (m' & -> & Hm)%list_elem_of_fmap. apply ready_spec.
    exact (list_elem_of_fmap_2 (λ m, (m.1, true)) (m :: l) m' Hm).
  - intros c. cbn [bc_subscribe bc_receivers bc_ready marked_receivers marks]. split; [|split; [|split]].
    + intros Hin%(fresh_above (ch_next c)). lia.
    + by rewrite fmap_app.
    + apply not_true_iff_false. rewrite ready_spec. cbn [marks]. rewrite elem_of_app.
      intros [Hin|[=]%list_elem_of_singleton].
      assert (S (foldr max (ch_next c) (marks c).*1) ∈ (marks c).*1) as Hin'
        by (apply list_elem_of_fmap; by eexists (_, true)).
      apply (fresh_above (ch_next c)) in Hin'. lia.
    + intros r' _. apply eq_bool_prop_intro. rewrite !Is_true_true, !ready_spec. cbn [marks].
      rewrite elem_of_app, list_elem_of_singleton. naive_solver.
  - intros r c. cbn [bc_drop bc_receivers bc_ready marked_receivers marks]. split.
    + induction (marks c) as [|[r' b] l IH]; [done|]. rewrite filter_cons. csimpl.
      case_decide; rewrite filter_cons; [rewrite decide_True by done|rewrite decide_False by tauto];
        csimpl; by rewrite IH.
    + intros r' Hr. apply eq_bool_prop_intro. rewrite !Is_true_true, !ready_spec. cbn [marks].
      rewrite list_elem_of_filter. naive_solver.
Qed.
End MarkedReceivers.

Section lifecycle.
Context {C Addr : Type} `{BroadcastLaws C}.
Implicit Types c : C.

(** [shutdown_channel]. *)
Definition shutdown_channel : C * nat := bc_channel 1.

(** What [Bootstrap::start] returns: [Running] of [Bootstrap] and the
    receiver of the shutdown channel that [start] makes. *)
Record Node : Type := { nd_running : Running (Addr := Addr); nd_receiver : nat }.

(** The channel's part of [Bootstrap::start]: an error drops the receiver. *)
Definition start_node (o : outcome (BRes (Running (Addr := Addr))))
    : outcome (BRes Node) * C :=
  let '(c, r) := shutdown_channel in
  match o with
  | Done (Ok n) => (Done (Ok {| nd_running := n; nd_receiver := r |}), c)
  | Done (Err e) => (Done (Err e), bc_drop r c)
  | Panicked why => (Panicked why, bc_drop r c)
  end.

Definition running_node_name (n : Node) : string := rn_node_name (nd_running n).

(** [Running::shutdown]. *)
Definition running_shutdown (n : Node) (c : C) : nat * C :=
  let '(r, c) := bc_send c in (unwrap_or r 0%nat, c).

(** [Running::wait], polled: [None] while it waits; else the control plane
    that is aborted, if there is one. *)
Definition wait (ctrl_c : bool) (n : Node) (c : C)
    : option (option (ServeConfig (Addr := Addr))) * C :=
  if bc_ready (nd_receiver n) c || ctrl_c
  then (Some (rn_grpc (nd_running n)), bc_drop (nd_receiver n) c)
  else (None, c).

(** ** The channel and the strategies *)

(** The channel after an execution: [let _ = shutdown_tx.send(())]. *)
Definition step_channel (c : C) (v : ev Eff) : C :=
  match v with Ev ShutdownBroadcast _ => (bc_send c).2 | _ => c end.
Definition channel_after (c : C) (t : Trace) : C := foldl step_channel c t.

Definition listening (n : Node) (c : C) : Prop := nd_receiver n ∈ bc_receivers c.

Lemma send_reaches n c :
  listening n c →
  ∃ c', bc_send c = (Ok (length (bc_receivers c)), c') ∧
    bc_receivers c' = bc_receivers c ∧ bc_ready (nd_receiver n) c' = true.
Proof.
  intros Hl. destruct (bc_send_someone c) as (c' & Hs & Hr & Hw).
  { intros He. unfold listening in Hl. rewrite He in Hl. by apply not_elem_of_nil in Hl. }
  eauto.
Qed.

Lemma send_keeps_listening n c : listening n c → listening n (bc_send c).2.
Proof.
  intros Hl. destruct (send_reaches n c Hl) as (c' & -> & Hr & _).
  unfold listening. simpl. by rewrite Hr.
Qed.

Lemma step_keeps n c v :
  listening n c → listening n (step_channel c v) ∧
  (bc_ready (nd_receiver n) c = true → bc_ready (nd_receiver n) (step_channel c v) = true).
Proof.
  intros Hl. destruct v as [X e x]. destruct e; try done. simpl.
  split; [by apply send_keeps_listening|]. by destruct (send_reaches n c Hl) as (c' & -> & _ & Hr).
Qed.

Lemma channel_after_ready n c t :
  listening n c → bc_ready (nd_receiver n) c = true →
  bc_ready (nd_receiver n) (channel_after c t) = true.
Proof.
  unfold channel_after. revert c. induction t as [|v t IH]; intros c Hl Hr; [done|]. simpl.
  destruct (step_keeps n c v Hl) as [Hl' Hr']. auto.
Qed.

Definition silent (X : Type) (e : Eff X) : Prop :=
  match e with ShutdownBroadcast => False | _ => True end.

Definition ev_signal (v : ev Eff) : list unit :=
  match v with Ev ShutdownBroadcast _ => [tt] | _ => [] end.

Lemma channel_after_silent c t : t ≫= ev_signal = [] → channel_after c t = c.
Proof.
  unfold channel_after. revert c. induction t as [|[X e x] t IH]; intros c Ht; [done|].
  destruct e; simpl in *; try discriminate; by apply IH.
Qed.

(** ** Nothing but the two-stage strategy signals *)

Context `{Bincode ShutdownAck} `{Json ShutdownCommand}.

Lemma shutdown_now_silent fuel w : only silent (shutdown_now fuel w).
Proof.
  assert (∀ n ci d start, only silent (wait_idle n w ci d start)) as Hw.
  { intros n ci d start. induction n as [|n IH]; [done|]. rewrite wait_idle_eq. only_solve. }
  unfold shutdown_now, shutdown, new_message, topic_router_global, topic_send, topic_emit,
    registry_wal, registry_global, get_node_type. only_solve.
Qed.

#[local] Hint Resolve shutdown_now_silent : eb_only.

Lemma force_loop_silent fuel ws : only silent (force_loop fuel ws).
Proof. induction ws as [|w ws IH]; [done|]. cbn [force_loop]. only_solve. Qed.

Lemma idle_loop_silent fuel ws : only silent (idle_loop fuel ws).
Proof. induction ws as [|w ws IH]; [done|]. cbn [idle_loop]. only_solve. Qed.

Lemma graceful_loop_silent fuel w i : only silent (graceful_loop fuel w i).
Proof. induction fuel as [|fuel IH]; [done|]. cbn [graceful_loop]. only_solve. Qed.

Lemma forced_stage_silent fuel ws : only silent (forced_stage fuel ws).
Proof. induction ws as [|w ws IH]; [done|]. cbn [forced_stage]. only_solve. Qed.

#[local] Hint Resolve force_loop_silent idle_loop_silent graceful_loop_silent
  forced_stage_silent : eb_only.

Lemma batched_loop_silent fuel i cs : only silent (batched_loop fuel i cs).
Proof. induction cs as [|ws cs IH]; [done|]. cbn [batched_loop]. only_solve. Qed.

Lemma all_complete_silent ws : only silent (all_complete ws).
Proof. induction ws as [|w ws IH]; [done|]. cbn [all_complete]. only_solve. Qed.

#[local] Hint Resolve batched_loop_silent all_complete_silent : eb_only.

Lemma two_stage_loop_silent rounds fuel d i start :
  only silent (two_stage_loop rounds fuel d i start).
Proof.
  induction rounds as [|rounds IH]; [done|]. cbn [two_stage_loop]. unfold del_all. only_solve.
Qed.
#[local] Hint Resolve two_stage_loop_silent : eb_only.

Definition is_two_stage (s : ShutdownStrategy) : bool :=
  match s with TwoStage _ _ => true | _ => false end.

(** Whether a message of [_system.shutdown] asks for the two-stage strategy. *)
Definition asks_two_stage (m : EMessage) : bool :=
  match json_from_slice (payload m) with
  | Ok cmd => is_two_stage (strategy cmd)
  | Err _ => false
  end.

Lemma handler_signals fuel m :
  wp (shutdown_handler fuel m) (λ t _,
    if asks_two_stage m
    then ∃ t', t = Ev ShutdownBroadcast tt :: t' ∧ t' ≫= ev_signal = []
    else t ≫= ev_signal = []).
Proof.
  unfold shutdown_handler, asks_two_stage.
  assert (∀ A (p : Prog A), only silent p → wp p (λ t _, t ≫= ev_signal = [])) as Hq.
  { intros A p Hp. eapply only_obs, Hp. by intros X [] x. }
  destruct (json_from_slice (payload m)) as [[st]|e]; [|done]. cbn [strategy].
  destruct st; cbn [is_two_stage]; unfold drop_result, shutdown_all_workers_two_stage,
    graceful_shutdown, shutdown_force, shutdown_idle_only, shutdown_timeout, shutdown_batched;
    try (apply Hq; only_solve).
  cbn [call bind wp]. intros [] start. eapply wp_mono; [|apply Hq; only_solve].
  intros t o Ht. exists (Ev InstantNow start :: t). done.
Qed.

(** ** What ends [main] *)

Lemma started_node_listens o n c :
  start_node o = (Done (Ok n), c) →
  bc_receivers c = [nd_receiver n] ∧ bc_ready (nd_receiver n) c = false ∧
  o = Done (Ok (nd_running n)).
Proof.
  unfold start_node, shutdown_channel. pose proof (bc_channel_law 1) as [Hl Hr].
  destruct (bc_channel 1) as [c0 r]. simpl in Hl, Hr.
  destruct o as [[x|]|]; intros [=]; subst; simpl; auto.
Qed.

Lemma wait_ready n c :
  bc_ready (nd_receiver n) c = true →
  wait false n c = (Some (rn_grpc (nd_running n)), bc_drop (nd_receiver n) c).
Proof. intros Hr. unfold wait. by rewrite Hr. Qed.

(** [Running::shutdown] always counts a receiver, the node's own, whether or
    not [wait] was called, and [wait] ends at once when it is called after
    it; it aborts the control plane and leaves one receiver less. *)
Theorem shutdown_counts_itself n c :
  listening n c →
  let '(k, c') := running_shutdown n c in
  k = length (bc_receivers c) ∧ (0 < k)%nat ∧
  ∃ c'', wait false n c' = (Some (rn_grpc (nd_running n)), c'') ∧
    bc_receivers c'' = filter (λ r, r ≠ nd_receiver n) (bc_receivers c).
Proof.
  intros Hl. unfold running_shutdown. destruct (send_reaches n c Hl) as (c' & -> & Hr & Hready).
  simpl. split; [done|]. split.
  - unfold listening in Hl. destruct (bc_receivers c); [by apply not_elem_of_nil in Hl|simpl; lia].
  - eexists. split; [by apply wait_ready|]. destruct (bc_drop_law (nd_receiver n) c') as [-> _].
    by rewrite Hr.
Qed.

Lemma silent_take (t : Trace) k : t ≫= ev_signal = [] → take k t ≫= ev_signal = [].
Proof.
  intros Ht. assert ((take k t ++ drop k t) ≫= ev_signal = []) as Happ
    by by rewrite take_drop.
  rewrite bind_app in Happ. by apply app_eq_nil in Happ as [? _].
Qed.

(** C37. What a shutdown command does to [main]: in a node that was just
    started, [wait] goes on waiting through the whole of every strategy but
    the two-stage one, also when the strategy has removed all the workers;
    the two-stage strategy lets [wait] return with its first effect, before
    it has looked for a worker or removed one. *)
Theorem only_two_stage_ends_main fuel m started n c :
  start_node started = (Done (Ok n), c) →
  wp (shutdown_handler fuel m) (λ t _,
    (∀ k, is_Some (wait false n (channel_after c (take k t))).1 ↔
          asks_two_stage m = true ∧ (0 < k)%nat) ∧
    (asks_two_stage m = true → snapshots (take 1 t) = [] ∧ deleted (take 1 t) = [])).
Proof.
  intros (Hr & Hready & _)%started_node_listens.
  assert (listening n c) as Hl by (unfold listening; rewrite Hr; by apply list_elem_of_singleton).
  assert ((wait false n c).1 = None) as Hw by (unfold wait; by rewrite Hready).
  eapply wp_mono, handler_signals. intros t o Ht.
  destruct (asks_two_stage m).
  - destruct Ht as (t' & -> & _). split; [|done]. intros [|k].
    { cbn [take]. unfold channel_after. simpl. rewrite Hw. split; [by intros [? [=]]|]. intros [_ ?]. lia. }
    destruct (send_reaches n c Hl) as (c' & Hs & Hr' & Hready').
    assert (listening n c') as Hl' by (unfold listening; by rewrite Hr').
    cbn [take]. change (channel_after c (_ :: ?l)) with (channel_after (bc_send c).2 l).
    rewrite Hs. cbn [snd]. rewrite wait_ready by by apply channel_after_ready.
    split; [|by eexists]. intros _. split; [done|lia].
  - split; [|done]. intros k. rewrite channel_after_silent by by apply silent_take. rewrite Hw.
    split; [by intros [? [=]]|]. by intros [? _].
Qed.

(** ** The first stage *)

Definition ev_completed (v : ev Eff) : list string :=
  match v with
  | Ev e x =>
      match e in Eff X return X → list string with
      | IsShutdownComplete n => λ b, if b : bool then [n] else []
      | _ => λ _, []
      end x
  end.
Definition completed (t : Trace) : list string := t ≫= ev_completed.

Definition ev_elapsed (v : ev Eff) : list Duration :=
  match v with
  | Ev e x =>
      match e in Eff X return X → list Duration with
      | Elapsed _ => λ d, [d]
      | _ => λ _, []
      end x
  end.
Definition elapsed (t : Trace) : list Duration := t ≫= ev_elapsed.

(** The first stage ended: nobody was left, or the time was over. *)
Definition first_stage_over (d : Duration) (t : Trace) : Prop :=
  [] ∈ snapshots t ∨ Exists (λ el, d ≤ el) (elapsed t).

Lemma all_complete_spec ws :
  wp (all_complete ws) (λ t o,
    o = Done true → completed t = w_name <$> ws).
Proof.
  induction ws as [|w ws IH]; [done|]. cbn [all_complete call bind wp]. intros [|]; [|done].
  eapply wp_mono, IH. intros t o Ht ->. unfold completed in *. csimpl. by rewrite Ht.
Qed.

Lemma first_stage_cons d v t : first_stage_over d t → first_stage_over d (v :: t).
Proof.
  unfold first_stage_over, snapshots, elapsed. intros [Hs|He]; [left|right]; csimpl.
  - apply elem_of_app. by right.
  - apply Exists_app. by right.
Qed.

Lemma first_stage_app d t t' : first_stage_over d t' → first_stage_over d (t ++ t').
Proof. intros Hf. induction t as [|v t IH]; [done|]. by apply first_stage_cons. Qed.

Lemma two_stage_waits rounds fuel d i start :
  wp (two_stage_loop rounds fuel d i start) (λ t o,
    completed t = [] → (∃ r, o = Done (Some r)) → first_stage_over d t).
Proof.
  induction rounds as [|rounds IH]; [by intros _ [? [=]]|].
  cbn [two_stage_loop call bind wp]. intros el. case_decide as Hel; cbn [call bind wp]; intros ws.
  - destruct ws as [|w ws].
    { intros _ _. left. by apply list_elem_of_singleton. }
    eapply wp_seq; [apply all_complete_spec| |by intros ? ? _ _ [? [=]]].
    intros t [|] Ht.
    + apply wp_trivial. intros t' o Hc _. exfalso. revert Hc. unfold completed. csimpl.
      rewrite bind_app. fold (completed t). by rewrite (Ht eq_refl).
    + cbn [call bind wp]. intros []. eapply wp_mono, IH. intros t' o Hover Hc Ho.
      do 2 apply first_stage_cons. apply first_stage_app, first_stage_cons, Hover; [|done].
      revert Hc. unfold completed. csimpl. rewrite bind_app. csimpl. by intros [_ ?]%app_eq_nil.
  - apply wp_trivial. intros t o _ _. right. apply Exists_cons. left. lia.
Qed.

Definition ev_notified (v : ev Eff) : list string :=
  match v with Ev e _ => match e with ShutdownNotify n => [n] | _ => [] end end.
Definition notified (t : Trace) : list string := t ≫= ev_notified.


Definition unasking (X : Type) (e : Eff X) : Prop :=
  match e with ShutdownNotify _ => False | _ => True end.

Lemma unasking_quiet {A} (p : Prog A) : only unasking p → wp p (λ t _, notified t = []).
Proof. intros Hp. eapply only_obs, Hp. by intros X [] x. Qed.

Lemma all_complete_unasking ws : only unasking (all_complete ws).
Proof. induction ws as [|w ws IH]; [done|]. cbn [all_complete]. only_solve. Qed.

Lemma two_stage_unasking rounds fuel d i start :
  wp (two_stage_loop rounds fuel d i start) (λ t _,
    Forall (λ el, el < d) (elapsed t) → notified t = []).
Proof.
  induction rounds as [|rounds IH]; [done|].
  cbn [two_stage_loop call bind wp]. intros el. case_decide as Hel; cbn [call bind wp]; intros ws.
  - destruct ws as [|w ws]; [done|].
    eapply wp_seq; [apply unasking_quiet, all_complete_unasking| |].
    + intros t [|] Ht.
      * eapply wp_mono.
        2:{ apply (unasking_quiet (del_all (w :: ws) ;;; Ret (Some (Ok tt)))). unfold del_all.
            only_solve. }
        intros t' o Ht' _. unfold notified in *. csimpl. by rewrite bind_app, Ht, Ht'.
      * cbn [call bind wp]. intros []. eapply wp_mono, IH. intros t' o Ht' Hf.
        unfold notified, elapsed in *. csimpl. rewrite bind_app, Ht. csimpl. apply Ht'.
        revert Hf. csimpl. rewrite bind_app. csimpl. rewrite Forall_cons, Forall_app. tauto.
    + intros t why Ht _. unfold notified in *. csimpl. done.
  - apply wp_trivial. intros t o Hf. exfalso. revert Hf. unfold elapsed. csimpl.
    rewrite Forall_cons. lia.
Qed.

(** The first stage of a two-stage shutdown asks no worker to stop: nobody
    is notified as long as the clock says that the timeout is not over, and
    the broadcast, which no worker listens to, is the only signal.  Where no
    worker has set its flag on its own account, the strategy ends only after
    it has found no worker at all or the whole timeout has passed. *)
Theorem two_stage_waits_for_timeout rounds fuel d i :
  wp (shutdown_all_workers_two_stage rounds fuel d i) (λ t o,
    (Forall (λ el, el < d) (elapsed t) → notified t = []) ∧
    (completed t = [] → (∃ r, o = Done (Some r)) → first_stage_over d t)).
Proof.
  unfold shutdown_all_workers_two_stage. cbn [call bind wp]. intros [] start.
  apply wp_and.
  - eapply wp_mono, two_stage_unasking. intros t o Ht. exact Ht.
  - eapply wp_mono, two_stage_waits. intros t o Ht Hc Ho. do 2 apply first_stage_cons. auto.
Qed.
End lifecycle.

(** ** Concrete nodes *)

Import SerCodec MarkedReceivers.
Open Scope string_scope.

Definition demo_running : Running (Addr := nat) :=
  {| rn_node_name := "a"; rn_queue := MemoryQueues 16;
     rn_wal := MemoryWals Wal.MemoryWal_new Wal.MemoryWal_new; rn_grpc := None |}.
Definition demo_node : Node := {| nd_running := demo_running; nd_receiver := 0 |}.
Definition demo_channel : Channel := {| ch_next := 1; marks := [(0%nat, false)] |}.

Definition command_message (s : ShutdownStrategy) : EMessage :=
  EMessage_new "u" 0 SYSTEM_TOPIC_SHUTDOWN
    (unwrap_or (json_to_vec {| strategy := s |}) []) Standard None.

Lemma only_two_stage_ends_main_witness :
  wp (shutdown_handler 3 (command_message (TwoStage 100 30))) (λ t _,
    is_Some (wait false demo_node (channel_after demo_channel (take 1 t))).1 ∧
    deleted (take 1 t) = []) ∧
  wp (shutdown_handler 3 (command_message Force)) (λ t _,
    (wait false demo_node (channel_after demo_channel t)).1 = None).
Proof.
  assert (start_node (Done (Ok demo_running)) = (Done (Ok demo_node), demo_channel)) as Hs
    by reflexivity.
  split.
  - eapply wp_mono, (only_two_stage_ends_main 3 (command_message (TwoStage 100 30))
      (Done (Ok demo_running)) demo_node demo_channel Hs).
    intros t o [Hk Hd]. split; [|by apply Hd]. apply Hk. split; [reflexivity|lia].
  - eapply wp_mono, (only_two_stage_ends_main 3 (command_message Force)
      (Done (Ok demo_running)) demo_node demo_channel Hs).
    intros t o [Hk _]. specialize (Hk (length t)). rewrite firstn_all in Hk.
    destruct (wait _ _ _).1 as [g|]; [|reflexivity].
    destruct (proj1 Hk ltac:(by eexists)) as [Hf _]. discriminate Hf.
Defined.

Lemma shutdown_counts_itself_witness :
  (running_shutdown demo_node demo_channel).1 = 1%nat ∧
  ∃ c, wait false demo_node (running_shutdown demo_node demo_channel).2 = (Some None, c) ∧
    bc_receivers c = [].
Proof.
  assert (listening demo_node demo_channel) as Hl by by apply list_elem_of_singleton.
  destruct (shutdown_counts_itself demo_node demo_channel Hl)
    as (Hk & _ & c & Hw & Hr).
  split; [exact Hk|]. exists c. split; [exact Hw|exact Hr].
Defined.

(** The concrete node with an idle worker and a timeout of one second: the
    first stage sleeps through the whole second. *)
Example first_stage_sleeps :
  elapsed (run_trace serve_with
             (shutdown_all_workers_two_stage 4 3 (from_secs 1) (from_millis 100))
             (world AckOk Idle, demo_tables)) ≠ [].
Proof. vm_compute. discriminate. Qed.

Close Scope string_scope.
