(* ===== verification/NodeWal.v ===== *)
(** * The WAL of a running node: the two handles of [Bootstrap::build_wal]

    A node opens its WAL twice ([bootstrap.rs]): one handle goes to the
    [WorkerRegistry], through which delayed messages are scheduled, fetched
    and replayed and the registry is saved; the other to the [WalSyncHandler],
    which writes down the states the workers report.  Here both are state of
    one node, together with what they share behind them (for the file-backed
    WAL the file system), and everything the node runs is a task that
    interleaves with the rest ([Interleave]). *)
From S2P Require Import Prelude Prog Interleave Errors Message Codec Wal PersistentWal Metrics Tracing Registry Runtime Topic Worker Dispatch Shutdown Grpc SystemHandlers.

(** ** Two handles *)

(** The handles as the effects name them. *)
Definition registry_handle : WalHandle := {| wh_addr := 1 |}.
Definition sync_handle : WalHandle := {| wh_addr := 2 |}.

Section node_wal.
(** A handle, and what handles share. *)
Context {H G : Type} `{!Wal (H * G)} `{!HashOrder}.

Record NodeStore : Type := {
  ns_workers : gmap string WorkerInfo;
  ns_registry_wal : H;
  ns_sync_wal : H;
  ns_shared : G
}.

(** An operation on a handle; nothing else is open. *)
Definition at_handle {X} (h : WalHandle) (op : H * G → X * (H * G)) (s : NodeStore)
    : option (X * NodeStore) :=
  if decide (wh_addr h = wh_addr registry_handle) then
    let '(x, (a, g)) := op (ns_registry_wal s, ns_shared s) in
    Some (x, {| ns_workers := ns_workers s; ns_registry_wal := a;
                ns_sync_wal := ns_sync_wal s; ns_shared := g |})
  else if decide (wh_addr h = wh_addr sync_handle) then
    let '(x, (b, g)) := op (ns_sync_wal s, ns_shared s) in
    Some (x, {| ns_workers := ns_workers s; ns_registry_wal := ns_registry_wal s;
                ns_sync_wal := b; ns_shared := g |})
  else None.

(** The worker registry of the node, with its handle. *)
Definition registry_of (s : NodeStore) : WorkerRegistry (H * G) :=
  {| workers := ns_workers s; wal := Some (ns_registry_wal s, ns_shared s) |}.

Definition with_registry (reg : WorkerRegistry (H * G)) (s : NodeStore) : NodeStore :=
  match wal reg with
  | Some (a, g) => {| ns_workers := workers reg; ns_registry_wal := a;
                      ns_sync_wal := ns_sync_wal s; ns_shared := g |}
  | None => s
  end.

Definition registry_call {X} (op : WorkerRegistry (H * G) → outcome X * WorkerRegistry (H * G))
    (s : NodeStore) (x : X) (s' : NodeStore) : Prop :=
  ∃ reg, op (registry_of s) = (Done x, reg) ∧ s' = with_registry reg s.

(** [Bootstrap::start] gives the first handle to [WorkerRegistry::init], which
    loads the registry from it, and the second to the [WalSyncHandler]. *)
Definition open_store (registry sync : H) (g : G) : Res NodeStore :=
  match registry_init (Some (registry, g)) with
  | Ok reg => Ok (with_registry reg {| ns_workers := ∅; ns_registry_wal := registry;
                                       ns_sync_wal := sync; ns_shared := g |})
  | Err e => Err e
  end.

(** What the effects do to the registry and the WAL; the others are answered
    in any way and leave them alone. *)
Definition store_eff (X : Type) (e : Eff X) (s : NodeStore) : X → NodeStore → Prop :=
  match e in Eff X return X → NodeStore → Prop with
  | RegistryWal => λ x s', x = Some registry_handle ∧ s' = s
  | RegGetWorkers t => λ x s', x = registry_get_workers t (registry_of s) ∧ s' = s
  | RegGetAllWorkers => λ x s', x = registry_get_all_workers (registry_of s) ∧ s' = s
  | RegRegister i => registry_call (registry_register i) s
  | RegUnregister w => registry_call (registry_unregister w) s
  | RegHeartbeat w => λ x s', ∃ now, registry_call (registry_heartbeat now w) s x s'
  | RegCleanupStale d => λ x s', ∃ now, registry_call (registry_cleanup_stale now d) s x s'
  | WalAppend h r => λ x s', at_handle h (wal_append r) s = Some (x, s')
  | WalUpdateState h i st => λ x s', ∃ env, at_handle h (wal_update_state env i st) s = Some (x, s')
  | WalReplayPending h => λ x s', at_handle h wal_replay_pending s = Some (x, s')
  | WalFlush h => λ x s', at_handle h wal_flush s = Some (x, s')
  | WalSchedule h r => λ x s', at_handle h (wal_schedule r) s = Some (x, s')
  | WalFetchReady h => λ x s', ∃ now, at_handle h (wal_fetch_ready now) s = Some (x, s')
  | _ => λ _ s', s' = s
  end.
End node_wal.

Arguments NodeStore H G : clear implicits.
Arguments registry_of {H G} s.
Arguments with_registry {H G} reg s.
Arguments at_handle {H G X} h op s.
Arguments registry_call {H G X} op s x s'.

(** ** What a node runs *)

Section activities.
Context `{Bincode WalSyncMessage} `{Bincode AuditRecord} `{Bincode ShutdownAck}.
Context `{Bincode WorkerDiscoveryMessage} `{Bincode WorkerHeartbeatMessage}.
Context `{Bincode TopicDiscoveryMessage} `{Bincode TopicSyncMessage} `{Bincode NodeMetrics}.
Context `{Json TraceRecord} `{Json ShutdownCommand}.
(** [{:?}] of a [Duration], for the error texts. *)
Context (duration_debug : Duration → string).

(** A call of the user's code, a round of a background loop, a message in a
    worker, or a system handler on a message. *)
Inductive Activity : Type :=
| ASend (m : EMessage) (try_send : option bool) (timeout : option Duration)
| AReplay (r : TopicRouter) (filt : option (list string))
| AScheduler (r : TopicRouter)
| AWorker (inbox : bool) (w : Worker) (m : option EMessage)
| AWorkerShutdown (fuel : nat) (w : Worker)
| ADispatch (tpc : string) (p : Producer) (node : option string) (d : Dispatcher)
| AMainLoop (batch : nat)
| AAnnounce (w : Worker)
| AWalSync (m : EMessage)
| ADiscovery (m : EMessage)
| AHeartbeat (m : EMessage)
| ATopicDiscovery (m : EMessage)
| ATopicSync (m : EMessage)
| AAudit (m : EMessage)
| AMetrics (m : EMessage)
| ATrace (collectors : list positive) (m : EMessage)
| AShutdown (fuel : nat) (m : EMessage)
| AShutdownAck (m : EMessage)
| AHeartbeats (reannounce : bool)
| ACleanup
| ACollect
| APublish (req : PublishRequest)
| AListWorkers (tpc : string)
| ARpcShutdown (req : option Strategy).

Definition activity_code `{HashOrder} (a : Activity) : Prog unit :=
  match a with
  | ASend m ts d => send_msg_impl m ts d ;;; Ret tt
  | AReplay r filt => replay r filt ;;; Ret tt
  | AScheduler r => scheduler_tick r
  | AWorker inbox w m => on_message inbox w m
  | AWorkerShutdown fuel w => on_shutdown fuel w ;;; Ret tt
  | ADispatch tpc p node d => dispatch_iter tpc p node d ;;; Ret tt
  | AMainLoop n => recv_round n
  | AAnnounce w => announce_worker w
  | AWalSync m => wal_sync_handler sync_handle m ;;; Ret tt
  | ADiscovery m => worker_discovery_handler m ;;; Ret tt
  | AHeartbeat m => worker_heartbeat_handler m ;;; Ret tt
  | ATopicDiscovery m => topic_discovery_handler m ;;; Ret tt
  | ATopicSync m => topic_sync_handler m ;;; Ret tt
  | AAudit m => audit_handler m ;;; Ret tt
  | AMetrics m => metrics_handler m ;;; Ret tt
  | ATrace cs m => system_trace_handler cs m ;;; Ret tt
  | AShutdown fuel m => shutdown_handler fuel m ;;; Ret tt
  | AShutdownAck m => shutdown_ack_handler m ;;; Ret tt
  | AHeartbeats again => heartbeat_once again
  | ACleanup => cleanup_tick
  | ACollect => collector_start 1 ;;; Ret tt
  | APublish req => publish duration_debug req ;;; Ret tt
  | AListWorkers tpc => list_workers tpc ;;; Ret tt
  | ARpcShutdown req => rpc_shutdown duration_debug req ;;; Ret tt
  end.
End activities.

(** ** The node *)

Section node.
Context {H G : Type} `{!Wal (H * G)} `{!HashOrder}.
Context `{Bincode WalSyncMessage} `{Bincode AuditRecord} `{Bincode ShutdownAck}.
Context `{Bincode WorkerDiscoveryMessage} `{Bincode WorkerHeartbeatMessage}.
Context `{Bincode TopicDiscoveryMessage} `{Bincode TopicSyncMessage} `{Bincode NodeMetrics}.
Context `{Json TraceRecord} `{Json ShutdownCommand}.
Context (duration_debug : Duration → string).
(** What others do to the shared part. *)
Context (outside : G → G → Prop).

Definition with_shared (g : G) (s : NodeStore H G) : NodeStore H G :=
  {| ns_workers := ns_workers s; ns_registry_wal := ns_registry_wal s;
     ns_sync_wal := ns_sync_wal s; ns_shared := g |}.

(** A task may go on with any activity, start at any moment and be aborted. *)
Definition activity_next (_ : Activity) (_ : unit) (s : NodeStore H G) (_ : Activity)
    (s' : NodeStore H G) : Prop := s' = s.
Definition activity_spawn (s : NodeStore H G) (_ : Activity) (s' : NodeStore H G) : Prop := s' = s.
Definition store_env (s s' : NodeStore H G) : Prop :=
  ∃ g, outside (ns_shared s) g ∧ s' = with_shared g s.

Definition WalConf : Type := Conf (E := Eff) (S := NodeStore H G) (R := Activity) (L := unit).

Definition wal_node_step : WalConf → WalConf → Prop :=
  conf_step store_eff (activity_code duration_debug) activity_next activity_spawn
    (λ _, True) store_env.

Definition wal_node_start (s : NodeStore H G) : WalConf := {| shared := s; tasks := [] |}.

Definition wal_node_reaches (s : NodeStore H G) (c : WalConf) : Prop :=
  rtc wal_node_step (wal_node_start s) c.
End node.

(** ** Backends that keep their maps in the handle *)

(** What [MemoryWal] and [PersistentWal] have in common: every operation but
    [flush] works on maps of the handle alone, as [MemoryWal] does; for an
    unknown id [update_state] may refuse instead.  [local_file] is what a flush
    writes to. *)
Class LocalWal (H G : Type) `{!HashOrder} : Type := {
  local_wal :: Wal (H * G);
  local_maps : H → MemoryWal;
  local_refuses : bool;
  local_file : H → option string;
  local_schedule : ∀ r a g, ∃ a', wal_schedule r (a, g) = (Ok tt, (a', g)) ∧
    local_maps a' = (mem_schedule r (local_maps a)).2;
  local_fetch : ∀ now a g, ∃ a',
    wal_fetch_ready now (a, g) = ((mem_fetch_ready now (local_maps a)).1, (a', g)) ∧
    local_maps a' = (mem_fetch_ready now (local_maps a)).2;
  local_replay : ∀ a g,
    wal_replay_pending (a, g) = ((mem_replay_pending (local_maps a)).1, (a, g));
  local_save : ∀ reg a g, ∃ a', wal_save_worker_registry reg (a, g) = (Ok tt, (a', g)) ∧
    local_maps a' = (mem_save_worker_registry reg (local_maps a)).2;
  local_update : ∀ e i st b g, ∃ x b', wal_update_state e i st (b, g) = (x, (b', g)) ∧
    local_file b' = local_file b ∧
    ((local_maps b' = (mem_update_state e i st (local_maps b)).2 ∧
      (local_refuses = true → is_Some (records (local_maps b) !! i))) ∨
     (local_refuses = true ∧ records (local_maps b) !! i = None ∧ b' = b));
  local_flush : ∀ b g, ∃ x g', wal_flush (b, g) = (x, (b, g'))
}.

(** [MemoryWal::new()] twice: nothing is shared. *)
#[export] Instance memory_handle `{!HashOrder} : Wal (MemoryWal * unit) := {|
  wal_append r l := let '(x, w) := mem_append r l.1 in (x, (w, l.2));
  wal_update_state e i st l := let '(x, w) := mem_update_state e i st l.1 in (x, (w, l.2));
  wal_replay_pending l := let '(x, w) := mem_replay_pending l.1 in (x, (w, l.2));
  wal_flush l := let '(x, w) := mem_flush l.1 in (x, (w, l.2));
  wal_schedule r l := let '(x, w) := mem_schedule r l.1 in (x, (w, l.2));
  wal_fetch_ready now l := let '(x, w) := mem_fetch_ready now l.1 in (x, (w, l.2));
  wal_remove_scheduled i l := let '(x, w) := mem_remove_scheduled i l.1 in (x, (w, l.2));
  wal_save_worker_registry reg l :=
    let '(x, w) := mem_save_worker_registry reg l.1 in (x, (w, l.2));
  wal_load_worker_registry l := let '(x, w) := mem_load_worker_registry l.1 in (x, (w, l.2))
|}.

#[export] Instance memory_local `{!HashOrder} : LocalWal MemoryWal unit.
Proof.
  refine {| local_wal := memory_handle; local_maps := λ w, w; local_refuses := false;
            local_file := λ _, None |}; intros; simpl; eauto.
  destruct (mem_update_state e i st b) as [x w] eqn:Hu. exists x, w. split; [done|].
  split; [done|]. by left.
Defined.

(** [PersistentWal::new(path)] twice: the file system is shared. *)
Section persistent.
Context {F : Type} `{!FileSys F} `{!HashOrder} `{!Bincode WalStore}.

#[export] Instance persistent_handle : Wal (PersistentWal * F) := {|
  wal_append r l := let '(x, p) := persist_append r l.1 in (x, (p, l.2));
  wal_update_state _ i st l := let '(x, p) := persist_update_state i st l.1 in (x, (p, l.2));
  wal_replay_pending l := let '(x, p) := persist_replay_pending l.1 in (x, (p, l.2));
  wal_flush l := let '(x, f) := persist_flush l.1 l.2 in (x, (l.1, f));
  wal_schedule r l := let '(x, p) := persist_schedule r l.1 in (x, (p, l.2));
  wal_fetch_ready now l := let '(x, p) := persist_fetch_ready now l.1 in (x, (p, l.2));
  wal_remove_scheduled i l := let '(x, p) := persist_remove_scheduled i l.1 in (x, (p, l.2));
  wal_save_worker_registry reg l :=
    let '(x, p) := persist_save_worker_registry reg l.1 in (x, (p, l.2));
  wal_load_worker_registry l := let '(x, p) := persist_load_worker_registry l.1 in (x, (p, l.2))
|}.

#[export] Instance persistent_local : LocalWal PersistentWal F.
Proof.
  refine {| local_wal := persistent_handle; local_maps := p_maps; local_refuses := true;
            local_file := λ p, Some (file_path p) |}; intros; simpl; eauto.
  - unfold persist_update_state. destruct (records (p_maps b) !! i) as [r|] eqn:Hr.
    + eexists _, _. split; [done|]. split; [done|]. left. split; [|by eauto].
      unfold mem_update_state. by rewrite Hr.
    + eexists _, b. split; [done|]. split; [done|]. by right.
  - destruct (persist_flush b g) as [x f]. by exists x, f.
Defined.
End persistent.
