(* ===== verification/NodeWalTheorems.v ===== *)
(** * What the WAL of a running node keeps

    For every interleaving of what a node runs: delayed messages are handed
    over exactly once, a replay gives what was there at start, and with the
    file-backed WAL the file only ever gets the states of old records. *)
From S2P Require Import Prelude Prog Interleave Errors Message Codec Wal PersistentWal Metrics Tracing Registry Runtime Topic Worker WorkerTheorems World Startup RedisQueue Dispatch Shutdown Grpc SystemHandlers Config Bootstrap NodeWal.

(** ** Who uses which handle *)

(** The registry's handle is given to everybody who asks. *)
Definition node_answer (X : Type) (e : Eff X) : X → Prop :=
  match e in Eff X return X → Prop with
  | RegistryWal => λ x, x = Some registry_handle
  | _ => λ _, True
  end.

(** Everybody but the [WalSyncHandler]: delayed messages and replay, on the
    handle that was given; nobody appends or flushes. *)
Definition registry_side (X : Type) (e : Eff X) : Prop :=
  match e with
  | WalAppend _ _ | WalUpdateState _ _ _ | WalFlush _ => False
  | WalSchedule h _ | WalReplayPending h | WalFetchReady h => h = registry_handle
  | _ => True
  end.

Definition sync_side (X : Type) (e : Eff X) : Prop :=
  match e with WalUpdateState h _ _ | WalFlush h => h = sync_handle | _ => False end.

Definition activity_may (a : Activity) (X : Type) (e : Eff X) : Prop :=
  match a with AWalSync _ => sync_side X e | _ => registry_side X e end.

Section footprints.
Context `{!HashOrder}.
Context `{Bincode WalSyncMessage} `{Bincode AuditRecord} `{Bincode ShutdownAck}.
Context `{Bincode WorkerDiscoveryMessage} `{Bincode WorkerHeartbeatMessage}.
Context `{Bincode TopicDiscoveryMessage} `{Bincode TopicSyncMessage} `{Bincode NodeMetrics}.
Context `{Json TraceRecord} `{Json ShutdownCommand}.
Context (duration_debug : Duration → string).

Abbreviation inside := (within registry_side node_answer).

Lemma emit_registry_side r m ts d : only registry_side (topic_emit r m ts d).
Proof. unfold topic_emit. only_solve. Qed.
#[local] Hint Resolve emit_registry_side : eb_only.

(** Programs that only push, on top of what they read. *)
Lemma sync_registry_side wc i t s n e : only registry_side (sync_status wc i t s n e).
Proof. unfold sync_status, topic_router_global, send_system. only_solve. Qed.
#[local] Hint Resolve sync_registry_side : eb_only.
Lemma audit_registry_side w m r e er d : only registry_side (audit w m r e er d).
Proof.
  unfold audit, generate_audit_msg, send_audit_msg, topic_router_global, send_system.
  only_solve.
Qed.
#[local] Hint Resolve audit_registry_side : eb_only.

(** The handle a program works on is the one it was given. *)
Lemma registry_wal_inside {A} (k : WalHandle → Prog (Res A)) :
  inside (k registry_handle) → inside (bind_ok registry_wal k).
Proof.
  intros Hk. unfold registry_wal, registry_global. cbn. split; [done|].
  intros [[]|] _; cbn; [|done]. split; [done|]. by intros x ->.
Qed.

Lemma topic_send_inside r t m ts d : inside (topic_send r t m ts d).
Proof.
  unfold topic_send. destruct (deliver_at m).
  - apply registry_wal_inside. within_solve.
  - apply within_only. unfold get_node_type, registry_global. only_solve.
Qed.
#[local] Hint Resolve topic_send_inside : eb_within.

Lemma replay_loop_inside r filt pending s : inside (replay_loop r registry_handle filt pending s).
Proof.
  revert s. induction pending as [|rc pending IH]; intros s; cbn [replay_loop]; [done|].
  destruct (negb _); [done|]. unfold in_future. within_solve.
Qed.
#[local] Hint Resolve replay_loop_inside : eb_within.

Lemma replay_inside r filt : inside (replay r filt).
Proof. unfold replay. apply registry_wal_inside. within_solve. Qed.

Lemma scheduler_inside r : inside (scheduler_tick r).
Proof.
  unfold scheduler_tick, registry_global. cbn. split; [done|]. intros [[]|] _; [|done].
  cbn. split; [done|]. intros x ->. within_solve.
Qed.

Lemma settle_inside w st m pt : inside (settle_msg w st m pt).
Proof.
  unfold settle_msg, requeue_message, send_to_dead_letter, mark_pending, mark_complete,
    mark_dead_letter, topic_router_global. within_solve.
Qed.
#[local] Hint Resolve settle_inside : eb_within.
Lemma process_inside w m : inside (process_msg w m).
Proof. unfold process_msg, run_pipeline, mark_processing. within_solve. Qed.
#[local] Hint Resolve process_inside : eb_within.
Lemma on_message_inside inbox w m : inside (on_message inbox w m).
Proof. unfold on_message, set_local_status, set_status, route_targeted. within_solve. Qed.

Lemma wait_registry_side fuel w ci d start : only registry_side (wait_idle fuel w ci d start).
Proof. induction fuel as [|fuel IH]; [done|]. cbn [wait_idle]. only_solve. Qed.
#[local] Hint Resolve wait_registry_side : eb_only.
Lemma shutdown_inside fuel w ci d : inside (shutdown fuel w ci d).
Proof. unfold shutdown, new_message, topic_router_global. within_solve. Qed.
#[local] Hint Resolve shutdown_inside : eb_within.
Lemma on_shutdown_inside fuel w : inside (on_shutdown fuel w).
Proof. unfold on_shutdown. within_solve. Qed.

(** *** The shutdown strategies *)

Lemma shutdown_now_inside fuel w : inside (shutdown_now fuel w).
Proof. apply shutdown_inside. Qed.
#[local] Hint Resolve shutdown_now_inside : eb_within.
Lemma force_loop_inside fuel ws : inside (force_loop fuel ws).
Proof. induction ws as [|w ws IH]; [done|]. cbn [force_loop]. within_solve. Qed.
Lemma idle_loop_inside fuel ws : inside (idle_loop fuel ws).
Proof. induction ws as [|w ws IH]; [done|]. cbn [idle_loop]. within_solve. Qed.
Lemma graceful_loop_inside fuel w i : inside (graceful_loop fuel w i).
Proof. induction fuel as [|fuel IH]; [done|]. cbn [graceful_loop]. within_solve. Qed.
Lemma forced_stage_inside fuel ws : inside (forced_stage fuel ws).
Proof. induction ws as [|w ws IH]; [done|]. cbn [forced_stage]. within_solve. Qed.
#[local] Hint Resolve force_loop_inside idle_loop_inside graceful_loop_inside
  forced_stage_inside : eb_within.
Lemma batched_loop_inside fuel i cs : inside (batched_loop fuel i cs).
Proof. induction cs as [|ws cs IH]; [done|]. cbn [batched_loop]. within_solve. Qed.
Lemma all_complete_registry_side ws : only registry_side (all_complete ws).
Proof. induction ws as [|w ws IH]; [done|]. cbn [all_complete]. only_solve. Qed.
#[local] Hint Resolve all_complete_registry_side : eb_only.
#[local] Hint Resolve batched_loop_inside : eb_within.
Lemma two_stage_inside rounds fuel d i start : inside (two_stage_loop rounds fuel d i start).
Proof.
  induction rounds as [|rounds IH]; [done|]. cbn [two_stage_loop]. unfold del_all. within_solve.
Qed.
#[local] Hint Resolve two_stage_inside : eb_within.
Lemma shutdown_handler_inside fuel m : inside (shutdown_handler fuel m).
Proof.
  unfold shutdown_handler, drop_result, shutdown_timeout, shutdown_force, shutdown_idle_only,
    shutdown_batched, graceful_shutdown, shutdown_all_workers_two_stage. within_solve.
Qed.

(** *** The dispatchers and the other handlers *)

Lemma dispatch_one_registry_side tpc p node m c d :
  only registry_side (dispatch_one tpc p node m c d).
Proof. unfold dispatch_one, refresh, deliver. only_solve. Qed.
#[local] Hint Resolve dispatch_one_registry_side : eb_only.
Lemma dispatch_iter_registry_side tpc p node d : only registry_side (dispatch_iter tpc p node d).
Proof. unfold dispatch_iter, reap. only_solve. Qed.
Lemma dispatch_batch_registry_side cs : only registry_side (dispatch_batch cs).
Proof.
  induction cs as [|c cs IH]; [done|]. cbn [dispatch_batch].
  unfold dispatch_claimed, create_ephemeral_worker, lookup_target. only_solve.
Qed.
#[local] Hint Resolve dispatch_batch_registry_side : eb_only.
Lemma send_from_node_registry_side r node t pl : only registry_side (send_from_node r node t pl).
Proof. unfold send_from_node, new_message, send_system. only_solve. Qed.
#[local] Hint Resolve send_from_node_registry_side : eb_only.
Lemma heartbeat_registry_side b : only registry_side (heartbeat_once b).
Proof. unfold heartbeat_once, announce_one, registry_global. only_solve. Qed.
Lemma register_missing_registry_side ts l : only registry_side (register_missing ts l).
Proof. unfold register_missing. only_solve. Qed.
#[local] Hint Resolve register_missing_registry_side : eb_only.
Lemma collector_inside n : inside (collector_start n).
Proof.
  induction n as [|n IH]; [done|]. cbn [collector_start].
  unfold collect, get_node_type, new_message, topic_router_global. within_solve.
Qed.
Lemma collect_map_registry_side {A B} (f : A → Prog B) l :
  (∀ x, only registry_side (f x)) → only registry_side (collect_map f l).
Proof. intros Hf. induction l as [|x l IH]; [done|]. cbn [collect_map]. only_solve. Qed.

#[local] Hint Resolve replay_inside scheduler_inside on_message_inside on_shutdown_inside
  shutdown_handler_inside collector_inside : eb_within.
#[local] Hint Resolve dispatch_iter_registry_side heartbeat_registry_side : eb_only.

(** Every activity keeps to its handle. *)
Lemma activity_inside a :
  within (activity_may a) node_answer (activity_code duration_debug a).
Proof.
  destruct a; cbn [activity_code]; unfold activity_may.
  all: unfold send_msg_impl, recv_round, announce_worker, wal_sync_handler,
    worker_discovery_handler, worker_heartbeat_handler, topic_discovery_handler,
    topic_sync_handler, audit_handler, metrics_handler, system_trace_handler,
    shutdown_ack_handler, cleanup_tick, publish, list_workers, rpc_shutdown, new_message,
    topic_router_global, registry_global, get_node_type, send_system.
  all: within_solve.
  apply within_only, collect_map_registry_side. intros w. unfold proto_worker, epoch_secs.
  only_solve.
Qed.
End footprints.

(** ** What the effects do, by handle *)

(** Records handed to the scheduler, answers to a replay, reports taken. *)
Definition ev_due (v : ev Eff) : list WalRecord :=
  match v with
  | Ev e x =>
      match e in Eff X return X → list WalRecord with
      | WalFetchReady _ => λ r, unwrap_or r []
      | _ => λ _, []
      end x
  end.
Definition ev_replayed (v : ev Eff) : list (Res (list WalRecord)) :=
  match v with
  | Ev e x =>
      match e in Eff X return X → list (Res (list WalRecord)) with
      | WalReplayPending _ => λ r, [r]
      | _ => λ _, []
      end x
  end.
Definition ev_reported (v : ev Eff) : list string :=
  match v with
  | Ev e _ => match e with WalUpdateState _ i _ => [i] | _ => [] end
  end.
Definition handed (t : Trace) : list WalRecord := t ≫= ev_due.
Definition replayed (t : Trace) : list (Res (list WalRecord)) := t ≫= ev_replayed.
Definition reported (t : Trace) : list string := t ≫= ev_reported.

Lemma handed_app t t' : handed (t ++ t') = handed t ++ handed t'.
Proof. apply bind_app. Qed.
Lemma replayed_app t t' : replayed (t ++ t') = replayed t ++ replayed t'.
Proof. apply bind_app. Qed.
Lemma reported_app t t' : reported (t ++ t') = reported t ++ reported t'.
Proof. apply bind_app. Qed.

Lemma one_event {B} (f : ev Eff → list B) (v : ev Eff) : [v] ≫= f = f v.
Proof. simpl. by rewrite app_nil_r. Qed.

(** What a replay of a log finds. *)
Definition pending_of `{HashOrder} (w : MemoryWal) : list WalRecord :=
  filter (λ r, status r = Pending) (hash_values (records w)).

Section effects.
Context {H G : Type} `{!HashOrder} `{!LocalWal H G}.
Implicit Types s : NodeStore H G.

Abbreviation registry_maps s := (local_maps (ns_registry_wal s)).
Abbreviation sync_maps s := (local_maps (ns_sync_wal s)).

(** How one event changes the delayed records. *)
Inductive delays_change (v : ev Eff) (d d' : gmap string WalRecord) : Prop :=
| SameDelays : ev_scheduled v = [] → ev_due v = [] → d' = d → delays_change v d d'
| NewDelay r c : ev_scheduled v = [r] → ev_due v = [] →
    d' = <[id (message r) := set_record_id c r]> d → delays_change v d d'
| TakenDelays now w : ev_scheduled v = [] → delays w = d →
    ev_due v = (filter (λ p, due now (message p.2)) (hash_iter d)).*2 →
    d' = delays (mem_fetch_ready now w).2 → delays_change v d d'.

Definition registry_change (v : ev Eff) s s' : Prop :=
  (∃ ws a, s' = {| ns_workers := ws; ns_registry_wal := a; ns_sync_wal := ns_sync_wal s;
                   ns_shared := ns_shared s |}) ∧
  records (registry_maps s') = records (registry_maps s) ∧
  delays_change v (delays (registry_maps s)) (delays (registry_maps s')) ∧
  Forall (λ x, x = Ok (pending_of (registry_maps s))) (ev_replayed v) ∧ ev_reported v = [].

Lemma registry_change_same v s :
  ev_scheduled v = [] → ev_due v = [] → ev_replayed v = [] → ev_reported v = [] →
  registry_change v s s.
Proof.
  intros Hs Hd Hr Hp. split; [by exists (ns_workers s), (ns_registry_wal s); destruct s|]. split; [done|]. rewrite Hr.
  split; [by apply SameDelays|done].
Qed.

(** A change of the registry is saved on the first handle, nothing else. *)
Definition saves {X} (op : WorkerRegistry (H * G) → outcome X * WorkerRegistry (H * G)) : Prop :=
  ∀ reg, ∃ ws, (op reg).2 = (save_worker_registry (with_workers ws reg)).2.

Lemma registry_call_change {X} (e : Eff X) op s x s' :
  saves op → registry_call op s x s' →
  ev_scheduled (Ev e x) = [] → ev_due (Ev e x) = [] → ev_replayed (Ev e x) = [] →
  ev_reported (Ev e x) = [] → registry_change (Ev e x) s s'.
Proof.
  intros Hop (reg & Hc & ->) Hs Hd Hr Hp. destruct (Hop (registry_of s)) as [ws Hws].
  rewrite Hc in Hws. unfold save_worker_registry in Hws. simpl in Hws.
  destruct (local_save ws (ns_registry_wal s) (ns_shared s)) as (a & Ha & Hm).
  rewrite Ha in Hws. simpl in Hws. subst reg. unfold with_registry. simpl.
  split; [by eexists _, _|]. cbn [ns_registry_wal]. rewrite Hm. split; [done|].
  split; [by apply SameDelays|]. rewrite Hr. done.
Qed.

Lemma saves_plain (f : WorkerRegistry (H * G) → gmap string WorkerInfo) :
  saves (λ reg, save_worker_registry (with_workers (f reg) reg)).
Proof. intros reg. by exists (f reg). Qed.

Lemma saves_cleanup now d : saves (registry_cleanup_stale now d).
Proof.
  intros reg. unfold registry_cleanup_stale. eexists.
  destruct (save_worker_registry _) as [[[[]|e]|why] reg'] eqn:Hs; by rewrite Hs.
Qed.

Lemma registry_effect X (e : Eff X) s x s' :
  registry_side X e → store_eff X e s x s' → registry_change (Ev e x) s s'.
Proof.
  intros Hm He. destruct e; simpl in Hm, He; try done; destruct_and?; subst;
    try by apply registry_change_same.
  - eapply registry_call_change; [|exact He|done..]. apply saves_plain.
  - eapply registry_call_change; [|exact He|done..]. apply saves_plain.
  - destruct He as [now He]. eapply registry_call_change; [|exact He|done..]. apply saves_plain.
  - destruct He as [now He]. eapply registry_call_change; [|exact He|done..]. apply saves_cleanup.
  - unfold at_handle in He. simpl in He. rewrite local_replay in He. injection He as <- <-.
    split; [by exists (ns_workers s), (ns_registry_wal s); destruct s|]. split; [done|].
    split; [by apply SameDelays|]. split; [by apply Forall_singleton|done].
  - unfold at_handle in He. simpl in He.
    destruct (local_schedule r (ns_registry_wal s) (ns_shared s)) as (a & Ha & Hmaps).
    rewrite Ha in He. injection He as <- <-. split; [by eexists _, _|]. simpl. rewrite Hmaps.
    split; [done|]. split; [by eapply NewDelay|done].
  - destruct He as [now He]. unfold at_handle in He. simpl in He.
    destruct (local_fetch now (ns_registry_wal s) (ns_shared s)) as (a & Ha & Hmaps).
    rewrite Ha in He. injection He as <- <-. split; [by eexists _, _|]. simpl. rewrite Hmaps.
    split; [done|]. split; [by eapply TakenDelays|done].
Qed.

(** The other handle takes reports and is flushed. *)
Definition sync_change (v : ev Eff) s s' : Prop :=
  (∃ b g, s' = {| ns_workers := ns_workers s; ns_registry_wal := ns_registry_wal s;
                  ns_sync_wal := b; ns_shared := g |} ∧
    ((∃ e i st, ev_reported v = [i] ∧ g = ns_shared s ∧
        local_file b = local_file (ns_sync_wal s) ∧
        ((local_maps b = (mem_update_state e i st (sync_maps s)).2 ∧
          (local_refuses = true → is_Some (records (sync_maps s) !! i))) ∨
         (local_refuses = true ∧ records (sync_maps s) !! i = None ∧ b = ns_sync_wal s))) ∨
     (ev_reported v = [] ∧ b = ns_sync_wal s ∧
        ∃ x, wal_flush (ns_sync_wal s, ns_shared s) = (x, (b, g))))) ∧
  ev_scheduled v = [] ∧ ev_due v = [] ∧ ev_replayed v = [].

Lemma sync_effect X (e : Eff X) s x s' :
  sync_side X e → store_eff X e s x s' → sync_change (Ev e x) s s'.
Proof.
  intros Hm He. destruct e; simpl in Hm, He; try done; subst.
  - destruct He as [env He]. unfold at_handle in He. simpl in He.
    destruct (local_update env i s0 (ns_sync_wal s) (ns_shared s)) as (y & b & Hb & Hfile & Hmaps).
    rewrite Hb in He. injection He as <- <-. split; [|done]. eexists _, _. split; [done|].
    left. by exists env, i, s0.
  - unfold at_handle in He. simpl in He.
    destruct (local_flush (ns_sync_wal s) (ns_shared s)) as (y & g & Hg).
    rewrite Hg in He. injection He as <- <-. split; [|done]. eexists _, _. split; [done|].
    right. split; [done|]. split; [done|]. by exists y.
Qed.

Lemma store_answer X (e : Eff X) s x s' : store_eff X e s x s' → node_answer X e x.
Proof. destruct e; simpl; try done. by intros [-> _]. Qed.
End effects.

(** ** Invariants of the node *)

Section node.
Context {H G : Type} `{!HashOrder} `{!LocalWal H G}.
Context `{Bincode WalSyncMessage} `{Bincode AuditRecord} `{Bincode ShutdownAck}.
Context `{Bincode WorkerDiscoveryMessage} `{Bincode WorkerHeartbeatMessage}.
Context `{Bincode TopicDiscoveryMessage} `{Bincode TopicSyncMessage} `{Bincode NodeMetrics}.
Context `{Json TraceRecord} `{Json ShutdownCommand}.
Context (duration_debug : Duration → string) (outside : G → G → Prop).
Implicit Types (s : NodeStore H G) (T : Trace).

Abbreviation registry_maps s := (local_maps (ns_registry_wal s)).
Abbreviation sync_maps s := (local_maps (ns_sync_wal s)).
Abbreviation node_reaches := (wal_node_reaches duration_debug outside).

(** An invariant has to survive what either handle does. *)
Record StoreInvariant (J : NodeStore H G → Trace → Prop) : Prop := {
  si_perm s T T' : T ≡ₚ T' → J s T → J s T';
  si_registry s T v s' : J s T → registry_change v s s' → J s' (T ++ [v]);
  si_sync s T v s' : J s T → sync_change v s s' → J s' (T ++ [v]);
  si_outside s T g : J s T → outside (ns_shared s) g → J (with_shared g s) T
}.

Lemma store_invariant J s c :
  StoreInvariant J → J s [] → node_reaches s c → J (shared c) (did c).
Proof.
  intros HJ Hs Hr. eapply (did_invariant store_eff (activity_code duration_debug) activity_next
    activity_spawn (λ _, True) (store_env outside) (λ a _, activity_may a) node_answer J
    (λ _, True) (λ _, True)); [|exact Hs|exact Hr].
  split; try done.
  - intros s0 T T' HT. by apply (si_perm J HJ).
  - intros s0 T X e x s' _ He. by eapply store_answer.
  - intros s0 T a t others X e x s' Hj _ _ _ Hm He.
    assert (registry_side X e ∨ sync_side X e) as [Hside|Hside] by (destruct a; simpl in Hm; auto).
    + eapply (si_registry J HJ); [done|]. by apply registry_effect.
    + eapply (si_sync J HJ); [done|]. by apply sync_effect.
  - by intros s0 T a l a' s' Hj ->.
  - by intros s0 T a s' Hj ->.
  - intros s0 T s' Hj (g & Hg & ->). by apply (si_outside J HJ).
  - intros a _. apply (within_code node_answer activity_may), activity_inside.
Qed.

(** *** Replays *)

(** The records of the first handle are those of the start. *)
Definition records_of (m0 : MemoryWal) s T : Prop :=
  records (registry_maps s) = records m0 ∧
  Forall (λ x, x = Ok (pending_of m0)) (replayed T).

Lemma records_of_invariant m0 : StoreInvariant (records_of m0).
Proof.
  split.
  - intros s T T' HT [Hr Hf]. split; [done|]. unfold replayed in *. by rewrite <- HT.
  - intros s T v s' [Hr Hf] (_ & Hrec & _ & Hrep & _). split; [congruence|].
    rewrite replayed_app. apply Forall_app. split; [done|]. unfold replayed.
    rewrite one_event. unfold pending_of in *. by rewrite Hr in Hrep.
  - intros s T v s' [Hr Hf] ((b & g & -> & _) & _ & _ & Hrep). split; [done|].
    rewrite replayed_app. unfold replayed at 2. by rewrite one_event, Hrep, app_nil_r.
  - by intros s T g [Hr Hf] _.
Qed.

(** *** Delayed messages *)

Definition delayed_messages s : list EMessage :=
  message <$> (map_to_list (delays (registry_maps s))).*2.

Definition keyed (d : gmap string WalRecord) : Prop := ∀ i r, d !! i = Some r → id (message r) = i.

(** While the ids are distinct, each delayed message is where it should be. *)
Definition delays_accounted (m0 : list EMessage) s T : Prop :=
  keyed (delays (registry_maps s)) ∧
  (NoDup (id <$> (m0 ++ (message <$> scheduled T))) →
   m0 ++ (message <$> scheduled T) ≡ₚ delayed_messages s ++ (message <$> handed T)).

Lemma keyed_insert d r c : keyed d → keyed (<[id (message r) := set_record_id c r]> d).
Proof.
  intros Hk i r'. rewrite lookup_insert_Some. intros [[<- <-]|[_ Hi]]; [by destruct r|by apply Hk].
Qed.

Lemma keyed_taken now w : keyed (delays w) → keyed (delays (mem_fetch_ready now w).2).
Proof.
  intros Hk i r. rewrite mem_fetch_ready_delays, map_lookup_filter_Some. intros [Hi _]. by apply Hk.
Qed.

(** What is taken out and what stays make up what was there. *)
Lemma taken_split now w :
  message <$> (map_to_list (delays w)).*2 ≡ₚ
  (message <$> (map_to_list (delays (mem_fetch_ready now w).2)).*2) ++
  (message <$> (filter (λ p, due now (message p.2)) (hash_iter (delays w))).*2).
Proof.
  rewrite mem_fetch_ready_delays, hash_iter_perm.
  rewrite <- !list_fmap_compose, <- fmap_app. apply Permutation_map.
  rewrite map_to_list_filter, (comm (++)). symmetry.
  apply (filter_app_complement (λ p : string * WalRecord, due now (message p.2))).
Qed.

Lemma new_delay_perm (d : gmap string WalRecord) r c :
  keyed d → id (message r) ∉ id <$> (message <$> (map_to_list d).*2) →
  message <$> (map_to_list (<[id (message r) := set_record_id c r]> d)).*2 ≡ₚ
  (message <$> (map_to_list d).*2) ++ [message r].
Proof.
  intros Hk Hn. rewrite map_to_list_insert; [|].
  - rewrite !fmap_cons. simpl. by rewrite (comm (++)).
  - apply eq_None_not_Some. intros [r' Hi]. apply Hn. apply elem_of_map_to_list in Hi as Hin.
    apply list_elem_of_fmap. exists (message r'). split.
    + symmetry. by apply Hk.
    + apply list_elem_of_fmap. exists r'. split; [done|].
      apply list_elem_of_fmap. by exists (id (message r), r').
Qed.

Lemma delays_accounted_change m0 s T v s' :
  delays_accounted m0 s T →
  delays_change v (delays (registry_maps s)) (delays (registry_maps s')) →
  delays_accounted m0 s' (T ++ [v]).
Proof.
  intros [Hk Hp] Hd. unfold delays_accounted, delayed_messages in *.
  rewrite scheduled_app, handed_app. unfold scheduled at 2 4, handed at 2. rewrite !one_event.
  destruct Hd as [Hs Hf Hd|r c Hs Hf Hd|now w Hs Hw Hf Hd]; rewrite Hs, Hf, Hd.
  - by rewrite !app_nil_r.
  - split; [by apply keyed_insert|].
    rewrite (fmap_app message (scheduled T)), app_nil_r. change (message <$> [r]) with [message r].
    rewrite (assoc_L (++)), fmap_app, NoDup_app. intros (Hnd & Hni & _). specialize (Hp Hnd).
    rewrite new_delay_perm; [|done|].
    + rewrite Hp. solve_Permutation.
    + intros Hin. apply (Hni (id (message r))); [|by apply list_elem_of_singleton].
      rewrite Hp, fmap_app. apply elem_of_app. by left.
  - rewrite <- Hw in *. split; [by apply keyed_taken|]. rewrite app_nil_r. intros Hnd.
    rewrite (Hp Hnd), (taken_split now w), fmap_app. solve_Permutation.
Qed.

Lemma delays_accounted_invariant m0 : StoreInvariant (delays_accounted m0).
Proof.
  split.
  - intros s T T' HT [Hk Hp]. split; [done|]. unfold scheduled, handed in *. by rewrite <- HT.
  - intros s T v s' Hj (_ & _ & Hd & _). by eapply delays_accounted_change.
  - intros s T v s' Hj ((b & g & -> & _) & Hs & Hf & _).
    eapply delays_accounted_change; [exact Hj|]. by apply SameDelays.
  - by intros s T g Hj _.
Qed.

(** ** Theorems *)

(** What a node starts from: a handle opened twice and the registry loaded
    from it. *)
Lemma open_store_maps (a b : H) (g : G) s :
  open_store a b g = Ok s →
  wal_load_worker_registry (a, g) = (Ok (ns_workers s), (ns_registry_wal s, ns_shared s)) ∧
  ns_sync_wal s = b.
Proof.
  unfold open_store, registry_init. destruct (wal_load_worker_registry (a, g)) as [[m|e] [a' g']];
    [|done]. by intros [= <-].
Qed.

(** C8. Delayed messages are handed over exactly once. On a node whose WAL
    keeps its maps in memory (the in-memory and the file-backed one, not the
    Redis one), for every interleaving of what the node runs: as long as the
    ids of all delayed messages, those at the start and those scheduled since,
    are distinct, these messages are, each once, still waiting in the log or
    handed to a round of the scheduler (a message counts as scheduled when the
    log answered [Ok]); and a finished round of the scheduler that was handed
    no broadcast has tried to push each message it was handed, once and in
    order. *)
Theorem delayed_handed_over_once s c :
  keyed (delays (registry_maps s)) → node_reaches s c →
  (NoDup (id <$> (delayed_messages s ++ (message <$> scheduled (did c)))) →
   delayed_messages s ++ (message <$> scheduled (did c)) ≡ₚ
   delayed_messages (shared c) ++ (message <$> handed (did c))) ∧
  ∀ tk r t, tk ∈ tasks c → (AScheduler r, t, tt) ∈ tk_done tk →
    Forall (λ rc, delivery_mode (message rc) ≠ Broadcast) (fetched t) →
    (attempted t).*2 = due_message <$> fetched t.
Proof.
  intros Hk Hr. split.
  - refine (proj2 (store_invariant _ _ _ (delays_accounted_invariant (delayed_messages s)) _ Hr)).
    split; [done|]. intros _. done.
  - intros tk r t Htk Hd Hf.
    exact (proj1 (wp_of_done store_eff (activity_code duration_debug) activity_next activity_spawn
      (λ _, True) (store_env outside) (wal_node_start s) c tk (AScheduler r) t tt _
      (Forall_nil_2 _) Hr Htk Hd (scheduler_pushes_each_due_once r) Hf)).
Qed.

(** C25. With the in-memory or the file-backed WAL a replay gives what was
    there at the start: whatever the workers reported since and whatever was
    sent, every call of [replay_pending] in a running node is answered with
    the pending records the registry's handle was opened with. (The two
    handles of a node on Redis share their records.) *)
Theorem replay_reads_the_start s c :
  node_reaches s c →
  Forall (λ x, x = Ok (pending_of (registry_maps s))) (replayed (did c)).
Proof.
  intros Hr. refine (proj2 (store_invariant _ _ _ (records_of_invariant (registry_maps s)) _ Hr)).
  by split; [|constructor].
Qed.
End node.

(** ** The file-backed WAL *)

(** The same log, up to the states of its records. *)
Definition restatused (w0 w : MemoryWal) : Prop :=
  set_record_status Pending <$> records w = set_record_status Pending <$> records w0 ∧
  delays w = delays w0 ∧ worker_registry w = worker_registry w0 ∧ id_counter w = id_counter w0.

Lemma restatused_update w0 w e i st :
  restatused w0 w → is_Some (records w !! i) → restatused w0 (mem_update_state e i st w).2.
Proof.
  intros (Hr & Hd & Hw & Hc) [r Hi]. unfold mem_update_state. rewrite Hi. split; [|done].
  simpl. rewrite fmap_insert, <- Hr. apply insert_id. by rewrite lookup_fmap, Hi.
Qed.

Section persistent.
Context {F : Type} `{FileSysLaws F} `{!HashOrder} `{BincodeLaws MemoryWal}.
Context `{Bincode WalSyncMessage} `{Bincode AuditRecord} `{Bincode ShutdownAck}.
Context `{Bincode WorkerDiscoveryMessage} `{Bincode WorkerHeartbeatMessage}.
Context `{Bincode TopicDiscoveryMessage} `{Bincode TopicSyncMessage} `{Bincode NodeMetrics}.
Context `{Json TraceRecord} `{Json ShutdownCommand}.
Context (duration_debug : Duration → string).

(** Others leave the file of the log alone. *)
Definition elsewhere (path : string) (f f' : F) : Prop := fs_files f' !! path = fs_files f !! path.

(** The file as it was, or an encoding of the log of the start with other
    states. *)
Definition file_restatused (path : string) (w0 : MemoryWal) (f0 f : F) : Prop :=
  fs_files f !! path = fs_files f0 !! path ∨
  ∃ w data, restatused w0 w ∧ bincode_encode w = Ok data ∧ fs_files f !! path = Some data.

Definition file_invariant (p0 : PersistentWal) (f0 : F) (s : NodeStore PersistentWal F)
    (_ : Trace) : Prop :=
  restatused (p_maps p0) (p_maps (ns_sync_wal s)) ∧
  file_path (ns_sync_wal s) = file_path p0 ∧
  file_restatused (file_path p0) (p_maps p0) f0 (ns_shared s).

Lemma flush_restatused b f f' x w0 f0 :
  with_extension_tmp (file_path b) ≠ file_path b →
  persist_flush b f = (x, f') → restatused w0 (p_maps b) →
  file_restatused (file_path b) w0 f0 f → file_restatused (file_path b) w0 f0 f'.
Proof.
  intros Hne Hf Hr Hfile. pose proof (persist_flush_file _ _ _ _ Hf Hne) as Hc.
  destruct x as [u|e].
  - destruct Hc as (data & Henc & Hd). right. by exists (p_maps b), data.
  - unfold file_restatused. by rewrite Hc.
Qed.

Lemma file_invariant_kept p0 f0 :
  with_extension_tmp (file_path p0) ≠ file_path p0 →
  StoreInvariant (elsewhere (file_path p0)) (file_invariant p0 f0).
Proof.
  intros Hne. split.
  - by intros s T T' _ Hs.
  - intros s T v s' Hs ((ws & a & ->) & _). exact Hs.
  - intros s T v s' (Hr & Hp & Hf) ((b & g & -> & [(e & i & st & _ & -> & Hfile & Hmaps)|
      (_ & -> & x & Hx)]) & _); unfold file_invariant; simpl in *.
    + injection Hfile as Hfile. rewrite Hfile. split; [|done].
      destruct Hmaps as [[-> Hi]|(_ & _ & ->)]; [|done]. by apply restatused_update, Hi.
    + split; [done|]. split; [done|]. destruct (persist_flush (ns_sync_wal s) (ns_shared s)) as [y f'] eqn:Hy.
      injection Hx as <- <-. rewrite <- Hp in *. by eapply flush_restatused.
  - intros s T f (Hr & Hp & Hf) Ho. split; [done|]. split; [done|]. unfold file_restatused.
    simpl. by rewrite Ho.
Qed.

(** What [new] finds in a file that is as [file_restatused] says. *)
Lemma new_restatused path f0 f b0 b p0 p :
  fs_try_exists path f0 = Ok b0 → fs_try_exists path f = Ok b →
  PersistentWal_new path f0 = Ok p0 → PersistentWal_new path f = Ok p →
  file_restatused path (p_maps p0) f0 f → restatused (p_maps p0) (p_maps p).
Proof.
  unfold PersistentWal_new. intros He0 He. rewrite He0, He. simpl.
  apply exists_law in He0 as ->. apply exists_law in He as ->. intros Hn0 Hn Hf.
  assert (∀ q g, (if negb (bool_decide (is_Some (fs_files g !! path)))
      then Ok {| p_maps := MemoryWal_new; file_path := path |}
      else match fs_read path g with
           | Err e => Err (EIoError e)
           | Ok data => match bincode_decode data with
               | Err e => Err (EWal (WalBackendError ("Fail to decode the file:"%string +:+ e)))
               | Ok (store, _) => Ok {| p_maps := store; file_path := path |}
               end
           end) = Ok q →
    match fs_files g !! path with
    | None => p_maps q = MemoryWal_new
    | Some data => ∃ n, bincode_decode data = Ok (p_maps q, n)
    end) as Hnew.
  { intros q g. destruct (fs_files g !! path) as [data|] eqn:Hg; simpl; [|by intros [= <-]].
    destruct (fs_read path g) as [d|] eqn:Hrd; [|done]. apply read_law in Hrd.
    rewrite Hg in Hrd. injection Hrd as <-.
    destruct (bincode_decode data) as [[st n]|]; [|done]. intros [= <-]. by exists n. }
  apply Hnew in Hn0. apply Hnew in Hn. destruct Hf as [Hf|(w & data & Hr & Henc & Hf)].
  - rewrite Hf in Hn. destruct (fs_files f0 !! path) as [data|].
    + destruct Hn0 as [n0 Hn0], Hn as [n Hn]. rewrite Hn0 in Hn. by injection Hn as <- _.
    + rewrite Hn, Hn0. done.
  - rewrite Hf in Hn. destruct Hn as [n Hn]. destruct (bincode_roundtrip _ _ Henc) as [n' Hd].
    rewrite Hd in Hn. injection Hn as <- _. done.
Qed.

Lemma new_path path (f : F) p : PersistentWal_new path f = Ok p → file_path p = path.
Proof.
  unfold PersistentWal_new. destruct (negb _); [by intros [= <-]|].
  destruct (fs_read path f) as [d|]; [|done]. destruct (bincode_decode d) as [[w n]|]; [|done].
  by intros [= <-].
Qed.

Lemma build_wal_persistent {S : Type} `{Streams S} features core_text config (srv srv' : S) f a b :
  build_wal features core_text config f srv = (Ok (PersistentWals a b), srv') →
  PersistentWal_new (wl_path (cfg_wal config)) f = Ok a ∧
  PersistentWal_new (wl_path (cfg_wal config)) f = Ok b.
Proof.
  unfold build_wal. destruct (wl_backend _); [done| |].
  - destruct (PersistentWal_new _ f) as [q|]; [|done]. by intros [= <- <-].
  - unfold build_redis_wal. destruct (feat_redis features); [|done].
    destruct (redis_wal_with_prefix _ _ srv) as [[r|] s1]; [|done].
    by destruct (redis_wal_with_prefix _ _ s1) as [[r'|] s2].
Qed.

(** C9. With the file-backed WAL only the states of old records reach the
    file.  Whatever a node that [build_wal] gave its two handles runs, in any
    interleaving and with any failures of the file system, a process that
    opens the file at any later moment finds the records, the delayed messages,
    the registry and the counter of the start, up to the states of the
    records: no message scheduled since, no message sent and no change of the
    worker registry, although each of these calls returned [Ok]. *)
Theorem file_gets_only_states {S : Type} `{Streams S} features core_text config (srv srv' : S)
    f0 a b s c x0 x p :
  let path := wl_path (cfg_wal config) in
  with_extension_tmp path ≠ path →
  build_wal features core_text config f0 srv = (Ok (PersistentWals a b), srv') →
  open_store a b f0 = Ok s →
  wal_node_reaches duration_debug (elsewhere path) s c →
  fs_try_exists path f0 = Ok x0 → fs_try_exists path (ns_shared (shared c)) = Ok x →
  PersistentWal_new path (ns_shared (shared c)) = Ok p →
  restatused (p_maps a) (p_maps p).
Proof.
  intros path Hne Hb Ho Hr Hx0 Hx Hp. apply build_wal_persistent in Hb as [Ha Hb].
  assert (b = a) as -> by (fold path in Ha, Hb; congruence).
  assert (file_path a = path) as Hpath by by eapply new_path.
  destruct (open_store_maps _ _ _ _ Ho) as [Hload Hsync]. simpl in Hload. injection Hload as _ _ Hsh.
  eapply new_restatused; [exact Hx0|exact Hx|exact Ha|exact Hp|]. rewrite <- Hpath in *.
  refine (proj2 (proj2 (store_invariant _ _ _ _ _ (file_invariant_kept a f0 Hne) _ Hr))).
  unfold file_invariant. rewrite Hsync, <- Hsh. split; [by split|]. split; [done|]. by left.
Qed.
End persistent.

(** ** The in-memory WAL *)

Section memory.
Context `{!HashOrder}.
Context `{Bincode WalSyncMessage} `{Bincode AuditRecord} `{Bincode ShutdownAck}.
Context `{Bincode WorkerDiscoveryMessage} `{Bincode WorkerHeartbeatMessage}.
Context `{Bincode TopicDiscoveryMessage} `{Bincode TopicSyncMessage} `{Bincode NodeMetrics}.
Context `{Json TraceRecord} `{Json ShutdownCommand}.
Context (duration_debug : Duration → string).

(** A record [update_state] made up: a message without topic and payload. *)
Definition blank (r : WalRecord) : Prop :=
  topic (message r) = EmptyString ∧ payload (message r) = [].

Definition sync_log (s : NodeStore MemoryWal unit) T : Prop :=
  dom (records (ns_sync_wal s)) ≡ (list_to_set (reported T) : gset string) ∧
  map_Forall (λ _, blank) (records (ns_sync_wal s)).

Lemma sync_log_invariant outside : StoreInvariant (H := MemoryWal) outside sync_log.
Proof.
  split.
  - intros s T T' HT [Hd Hb]. split; [|done]. rewrite Hd. unfold reported. by rewrite HT.
  - intros s T v s' [Hd Hb] ((ws & a & ->) & _ & _ & _ & Hr). split; [|done]. rewrite reported_app.
    unfold reported at 2. by rewrite one_event, Hr, app_nil_r.
  - intros s T v s' [Hd Hb] ((b & g & -> & Hv) & _). unfold sync_log. simpl.
    rewrite reported_app. unfold reported at 2. rewrite one_event.
    destruct Hv as [(e & i & st & -> & _ & _ & [[Hm _]|[[=] _]])|(-> & -> & _)];
      [|by rewrite app_nil_r]. simpl in Hm. subst b. unfold mem_update_state.
    destruct (records (ns_sync_wal s) !! i) as [r|] eqn:Hi; simpl; split.
    + rewrite dom_insert, list_to_set_app, Hd. set_solver.
    + apply map_Forall_insert_2; [|done]. by specialize (Hb _ _ Hi).
    + rewrite dom_insert, list_to_set_app, Hd. set_solver.
    + by apply map_Forall_insert_2.
  - by intros s T g Hs _.
Qed.

(** A node with the in-memory WAL logs no message: nothing is ever replayed,
    and what the reports leave behind is one blank record for each message
    ever reported, which nothing removes. *)
Theorem memory_logs_no_message s c :
  open_store MemoryWal_new MemoryWal_new tt = Ok s →
  wal_node_reaches duration_debug (λ _ _, False) s c →
  records (ns_registry_wal (shared c)) = ∅ ∧
  Forall (λ x, x = Ok []) (replayed (did c)) ∧
  dom (records (ns_sync_wal (shared c))) ≡ (list_to_set (reported (did c)) : gset string) ∧
  map_Forall (λ _, blank) (records (ns_sync_wal (shared c))).
Proof.
  intros [= <-] Hr. set (s0 := with_registry _ _) in Hr.
  assert (records_of MemoryWal_new s0 []) as H0' by done.
  assert (sync_log s0 []) as H1' by (split; [done|apply map_Forall_empty]).
  destruct (store_invariant _ _ _ _ _ (records_of_invariant _ MemoryWal_new) H0' Hr) as [Hrec Hrep].
  destruct (store_invariant _ _ _ _ _ (sync_log_invariant _) H1' Hr) as [Hd Hb].
  split; [exact Hrec|]. split; [|done]. eapply Forall_impl; [exact Hrep|]. intros x ->.
  unfold pending_of. f_equal. simpl. unfold hash_values.
  assert (hash_iter (∅ : gmap string WalRecord) = []) as ->; [|done].
  apply Permutation_nil. by rewrite hash_iter_perm, map_to_list_empty.
Qed.
End memory.

(** ** Runs *)

Section runs.
Context {H G : Type} `{!HashOrder} `{!LocalWal H G}.

(** Performs an effect at the handle it names. *)
Definition at_or {X} (x : X) (h : WalHandle) (op : H * G → X * (H * G)) (s : NodeStore H G)
    : X * NodeStore H G := default (x, s) (at_handle h op s).

Definition do_registry {X} (x : X)
    (op : WorkerRegistry (H * G) → outcome X * WorkerRegistry (H * G)) (s : NodeStore H G)
    : X * NodeStore H G :=
  match op (registry_of s) with
  | (Done y, reg) => (y, with_registry reg s)
  | (Panicked _, _) => (x, s)
  end.

(** A node that answers every effect, at one moment of its clock. *)
Definition store_serve (env : WalEnv) (X : Type) (c : Eff X) (s : NodeStore H G)
    : X * NodeStore H G :=
  match c in Eff X return X * NodeStore H G with
  | RegistryWal => (Some registry_handle, s)
  | RegGetWorkers t => (registry_get_workers t (registry_of s), s)
  | RegGetAllWorkers => (registry_get_all_workers (registry_of s), s)
  | RegRegister i => do_registry (Ok tt) (registry_register i) s
  | RegUnregister w => do_registry (Ok tt) (registry_unregister w) s
  | RegHeartbeat w => do_registry (Ok tt) (registry_heartbeat (we_now env) w) s
  | RegCleanupStale d => do_registry (Ok []) (registry_cleanup_stale (we_now env) d) s
  | WalUpdateState h i st => at_or (Ok tt) h (wal_update_state env i st) s
  | WalReplayPending h => at_or (Ok []) h wal_replay_pending s
  | WalFlush h => at_or (Ok tt) h wal_flush s
  | WalSchedule h r => at_or (Ok tt) h (wal_schedule r) s
  | WalFetchReady h => at_or (Ok []) h (wal_fetch_ready (we_now env)) s
  | c => ((World.serve _ c (world AckOk Idle)).1, s)
  end.

Lemma at_or_some {X} (x : X) h op s :
  h = registry_handle ∨ h = sync_handle →
  at_handle h op s = Some ((at_or x h op s).1, (at_or x h op s).2).
Proof.
  unfold at_or, at_handle. intros [-> | ->]; simpl; by destruct (op _) as [y [? ?]].
Qed.

Lemma do_registry_call {X} (x : X) op s y reg :
  op (registry_of s) = (Done y, reg) →
  registry_call op s (do_registry x op s).1 (do_registry x op s).2.
Proof. intros Hop. unfold do_registry. rewrite Hop. by exists reg. Qed.

Lemma save_done ws (s : NodeStore H G) :
  ∃ reg, save_worker_registry (with_workers ws (registry_of s)) = (Done (Ok tt), reg).
Proof.
  unfold save_worker_registry. simpl.
  destruct (local_save ws (ns_registry_wal s) (ns_shared s)) as (a & -> & _). by eexists.
Qed.

(** No effect of an activity is without an answer. *)
Lemma serve_allowed env X (e : Eff X) s :
  registry_side X e ∨ sync_side X e →
  store_eff X e s (store_serve env X e s).1 (store_serve env X e s).2 ∧
  node_answer X e (store_serve env X e s).1.
Proof.
  intros Hm.
  enough (store_eff X e s (store_serve env X e s).1 (store_serve env X e s).2) as He
    by (split; [done|by eapply store_answer]).
  destruct e; simpl in *; try done.
  - destruct (save_done (<[wi_worker_name i := i]> (ns_workers s)) s) as [reg Hr].
    by eapply do_registry_call.
  - destruct (save_done (delete w (ns_workers s)) s) as [reg Hr]. by eapply do_registry_call.
  - exists (we_now env). destruct (save_done (alter (set_heartbeat (we_now env)) w (ns_workers s)) s)
      as [reg Hr]. by eapply do_registry_call.
  - exists (we_now env).
    edestruct (save_done (foldl (λ m i, delete i m) (ns_workers s)
      (filter (λ p, is_stale (we_now env) d p.2) (hash_iter (ns_workers s))).*1) s) as [reg Hr].
    eapply do_registry_call. unfold registry_cleanup_stale. simpl. by rewrite Hr.
  - tauto.
  - exists env. apply at_or_some. tauto.
  - apply at_or_some. tauto.
  - apply at_or_some. tauto.
  - apply at_or_some. tauto.
  - exists (we_now env). apply at_or_some. tauto.
Qed.

Lemma within_run_allowed env may {A} (p : Prog A) s :
  (∀ X e, may X e → registry_side X e ∨ sync_side X e) →
  within may node_answer p → run_allowed store_eff (store_serve env) p s.
Proof.
  intros Hmay. revert s. induction p as [a|w|X e k IH]; intros s; simpl; [done..|].
  intros [He Hk]. destruct (serve_allowed env X e s) as [Hs Ha]; [by apply Hmay|].
  split; [done|]. by apply IH, Hk.
Qed.

Context `{Bincode WalSyncMessage} `{Bincode AuditRecord} `{Bincode ShutdownAck}.
Context `{Bincode WorkerDiscoveryMessage} `{Bincode WorkerHeartbeatMessage}.
Context `{Bincode TopicDiscoveryMessage} `{Bincode TopicSyncMessage} `{Bincode NodeMetrics}.
Context `{Json TraceRecord} `{Json ShutdownCommand}.
Context (duration_debug : Duration → string) (outside : G → G → Prop).

Abbreviation code := (activity_code duration_debug).

(** Any activity that does not panic can be run as a task of its own. *)
Lemma activity_runs env s ts a :
  run_outcome (store_serve env) (code a) s = Done tt →
  rtc (wal_node_step duration_debug outside) {| shared := s; tasks := ts |}
    {| shared := run_state (store_serve env) (code a) s;
       tasks := ts ++ [{| tk_round := ACleanup; tk_trace := []; tk_prog := code ACleanup;
                          tk_done := [(a, run_trace (store_serve env) (code a) s, tt)] |}] |}.
Proof.
  intros Ho. eapply spawn_run_reaches; [done| |exact Ho|done].
  eapply within_run_allowed; [|apply activity_inside].
  intros X e. destruct a; simpl; auto.
Qed.

(** One activity after the other. *)
Fixpoint run_through (env : WalEnv) (l : list Activity) (c : WalConf (H := H) (G := G))
    : WalConf (H := H) (G := G) :=
  match l with
  | [] => c
  | a :: l => run_through env l
      {| shared := run_state (store_serve env) (code a) (shared c);
         tasks := tasks c ++ [{| tk_round := ACleanup; tk_trace := []; tk_prog := code ACleanup;
           tk_done := [(a, run_trace (store_serve env) (code a) (shared c), tt)] |}] |}
  end.

Fixpoint all_finish (env : WalEnv) (l : list Activity) (s : NodeStore H G) : Prop :=
  match l with
  | [] => True
  | a :: l => run_outcome (store_serve env) (code a) s = Done tt ∧
              all_finish env l (run_state (store_serve env) (code a) s)
  end.

Lemma run_through_reaches env l c :
  all_finish env l (shared c) →
  rtc (wal_node_step duration_debug outside) c (run_through env l c).
Proof.
  revert c. induction l as [|a l IH]; intros [s ts]; simpl; [reflexivity|].
  intros [Ho Hl]. etransitivity; [by apply (activity_runs env)|]. by apply IH.
Qed.
End runs.

(** ** The hypotheses can hold *)

Section witnesses.
Import SerCodec StreamsRef.
#[local] Existing Instance list_order.
#[local] Existing Instance demo_json.
#[local] Existing Instance map_fs.
#[local] Existing Instance map_fs_laws.
#[local] Instance demo_metrics : Bincode NodeMetrics :=
  {| bincode_encode _ := Err EmptyString; bincode_decode _ := Err EmptyString |}.
Open Scope string_scope.
Open Scope list_scope.

Definition demo_env : WalEnv := {| we_uuid := "u"; we_now := 1000 |}.

(** A message with a delivery time, and the report that another is done. *)
Definition demo_delayed : EMessage :=
  set_deliver_at (Some 900) (EMessage_new "m2" 500 "orders" [1; 2] Standard None).
Definition demo_report_of (i : string) : EMessage :=
  EMessage_new "m3" 500 SYSTEM_TOPIC_WAL_SYNC
    (ser {| ws_message_id := i; ws_topic := "orders"; ws_worker_id := "w"; ws_status := Complete;
            ws_attempts := 0; ws_last_attempt_at := 5; ws_error := None; ws_timestamp := 5 |})
    Standard None.

Definition demo_log : MemoryWal :=
  (mem_append (WalRecord_from_msg (EMessage_new "m1" 5 "orders" [104] Standard None)) MemoryWal_new).2.

(** A file with one pending record, in a node with the file-backed WAL. *)
Definition demo_path : string := "event_base.wal".
Definition demo_files : gmap string bytes := {[ demo_path := ser demo_log ]}.
Definition demo_handle : PersistentWal := {| p_maps := demo_log; file_path := demo_path |}.
Definition demo_persistent : NodeStore PersistentWal (gmap string bytes) :=
  {| ns_workers := ∅; ns_registry_wal := demo_handle; ns_sync_wal := demo_handle;
     ns_shared := demo_files |}.
Definition demo_memory : NodeStore MemoryWal unit :=
  {| ns_workers := ∅; ns_registry_wal := MemoryWal_new; ns_sync_wal := MemoryWal_new;
     ns_shared := tt |}.

(** A delayed message is sent, a report is written down, and the scheduler or a
    replay runs. *)
Definition demo_activities (last : Activity) : list Activity :=
  [ASend demo_delayed None None; AWalSync (demo_report_of "m1"); last].

Definition demo_after {G H} `{!LocalWal H G} (last : Activity) (s : NodeStore H G) :=
  run_through (λ _, "") demo_env (demo_activities last) (wal_node_start s).

Lemma demo_reaches {G H} `{!LocalWal H G} outside last (s : NodeStore H G) :
  all_finish (λ _, "") demo_env (demo_activities last) s →
  wal_node_reaches (λ _, "") outside s (demo_after last s).
Proof. intros Hf. by apply (run_through_reaches (λ _, "") outside demo_env). Qed.

Lemma demo_memory_finish last :
  last = AScheduler demo_router ∨ last = AReplay demo_router None →
  all_finish (λ _, "") demo_env (demo_activities last) demo_memory.
Proof. intros [-> | ->]; repeat split; vm_compute; reflexivity. Qed.

Lemma delayed_handed_over_once_witness :
  let c := demo_after (AScheduler demo_router) demo_memory in
  message <$> scheduled (did c) = [demo_delayed] ∧
  delayed_messages demo_memory ++ (message <$> scheduled (did c)) ≡ₚ
    delayed_messages (shared c) ++ (message <$> handed (did c)).
Proof.
  intros c. split; [vm_compute; reflexivity|].
  assert (wal_node_reaches (λ _, "") (λ _ _, False) demo_memory c) as Hr
    by exact (demo_reaches _ _ demo_memory (demo_memory_finish _ (or_introl eq_refl))).
  refine (proj1 (delayed_handed_over_once (λ _, "") (λ _ _, False) demo_memory c _ Hr) _).
  - intros i r Hi. discriminate Hi.
  - assert (id <$> (delayed_messages demo_memory ++ (message <$> scheduled (did c))) = ["m2"])
      as -> by (vm_compute; reflexivity).
    apply NoDup_singleton.
Defined.

Lemma replay_reads_the_start_witness :
  let c := demo_after (AReplay demo_router None) demo_memory in
  length (replayed (did c)) = 1%nat ∧
  Forall (λ x, x = Ok (pending_of MemoryWal_new)) (replayed (did c)).
Proof.
  intros c. split; [vm_compute; reflexivity|].
  exact (replay_reads_the_start (λ _, "") (λ _ _, False) demo_memory c
    (demo_reaches _ _ demo_memory (demo_memory_finish _ (or_intror eq_refl)))).
Defined.

Definition persistent_config : NodeConfig :=
  {| cfg_node := {| n_name := "h"; n_role := RHost |}; cfg_queue := QueueSection_default;
     cfg_wal := {| wl_backend := WPersistent; wl_path := demo_path; wl_url := ""; wl_prefix := "" |};
     cfg_grpc := None; cfg_audit_buf_capacity := 0 |}.

Lemma demo_persistent_finish :
  all_finish (λ _, "") demo_env (demo_activities (AReplay demo_router None)) demo_persistent.
Proof. repeat split; vm_compute; reflexivity. Qed.

(** What the node of the demonstration leaves in the file. *)
Definition demo_restart : Res PersistentWal :=
  PersistentWal_new demo_path
    (ns_shared (shared (demo_after (AReplay demo_router None) demo_persistent))).

Lemma file_gets_only_states_witness :
  ∃ p, demo_restart = Ok p ∧ restatused demo_log (p_maps p) ∧
    status <$> (records (p_maps p) !! "m1") = Some Complete.
Proof.
  eexists. split; [vm_compute; reflexivity|]. split; [|vm_compute; reflexivity].
  refine (file_gets_only_states (λ _, "") {| feat_redis := false; feat_grpc_tls := false |}
    (λ _, "") persistent_config (∅ : Keyspace) ∅ demo_files demo_handle demo_handle demo_persistent
    (demo_after (AReplay demo_router None) demo_persistent) true true _ _ _ _ _ _ _ _).
  - vm_compute; discriminate.
  - vm_compute; reflexivity.
  - vm_compute; reflexivity.
  - exact (demo_reaches _ _ demo_persistent demo_persistent_finish).
  - vm_compute; reflexivity.
  - vm_compute; reflexivity.
  - vm_compute; reflexivity.
Defined.

(** A delayed message whose [send] returned [Ok] before the log was flushed is
    waiting in the memory of the node and nowhere else: the process that opens
    the file next does not have it.  In that node a replay answers with a
    message that was reported complete. *)
Theorem delayed_message_lost_at_restart :
  let c := demo_after (AReplay demo_router None) demo_persistent in
  wal_node_reaches (λ _, "") (elsewhere demo_path) demo_persistent c ∧
  message <$> scheduled (did c) = [demo_delayed] ∧
  delayed_messages (shared c) = [demo_delayed] ∧
  (∃ p, demo_restart = Ok p ∧ delays (p_maps p) = ∅ ∧
    status <$> (records (p_maps p) !! "m1") = Some Complete) ∧
  ∃ r, replayed (did c) = [Ok [r]] ∧ id (message r) = "m1" ∧ status r = Pending.
Proof.
  intros c. split; [exact (demo_reaches _ _ demo_persistent demo_persistent_finish)|].
  split; [vm_compute; reflexivity|]. split; [vm_compute; reflexivity|].
  split; [eexists; split; [vm_compute; reflexivity|]; split; vm_compute; reflexivity|].
  eexists. split; [vm_compute; reflexivity|]. split; vm_compute; reflexivity.
Qed.

Lemma memory_logs_no_message_witness :
  let c := demo_after (AReplay demo_router None) demo_memory in
  reported (did c) = ["m1"] ∧ Forall (λ x, x = Ok []) (replayed (did c)) ∧
  map_Forall (λ _, blank) (records (ns_sync_wal (shared c))).
Proof.
  intros c. split; [vm_compute; reflexivity|].
  destruct (memory_logs_no_message (λ _, "") demo_memory c eq_refl) as (_ & Hr & _ & Hb).
  - exact (demo_reaches _ _ demo_memory (demo_memory_finish _ (or_intror eq_refl))).
  - split; [exact Hr|exact Hb].
Defined.
End witnesses.
