(* ===== verification/Macros.v ===== *)
(** * The [#[handler]] attribute: [event_base_macro_attr/src/handler.rs]

    The parser of the attribute's arguments over the operations it uses of
    the [syn] crate, and the registration the macro generates, as a step of
    the start-up of [Startup].  [args_parsed] says what the parser makes of
    any list of arguments, with or without their commas. *)
From Stdlib Require Import Ascii.
From stdpp Require Import pretty.
From S2P Require Import Prelude Prog Errors Message Metrics Runtime Topic Worker World Pipeline Router Startup StartupTheorems.

Open Scope string_scope.

(** ** [u64::from_str] and [usize::from_str] of 64 bits *)

Definition digit_of (a : Ascii.ascii) : option Z :=
  let n := Z.of_nat (Ascii.nat_of_ascii a) in
  if decide (48 ≤ n ≤ 57)%Z then Some (n - 48)%Z else None.

Fixpoint parse_digits (acc : Z) (s : string) : result Z string :=
  match s with
  | EmptyString => Ok acc
  | String a s =>
      match digit_of a with
      | None => Err "invalid digit found in string"
      | Some d =>
          let acc := (10 * acc + d)%Z in
          if decide (acc < u64_modulus)%Z then parse_digits acc s
          else Err "number too large to fit in target type"
      end
  end.

Definition parse_u64 (s : string) : result Z string :=
  match s with
  | EmptyString => Err "cannot parse integer from empty string"
  | String a EmptyString =>
      if decide (a = "+"%char ∨ a = "-"%char) then Err "invalid digit found in string"
      else parse_digits 0 s
  | String a rest => parse_digits 0 (if decide (a = "+"%char) then rest else s)
  end.

(** Decimal numerals are read back as long as they fit. *)
Lemma digit_of_char d : (d < 10)%N → digit_of (pretty_N_char d) = Some (Z.of_N d).
Proof.
  intros Hd.
  assert (d = 0 ∨ d = 1 ∨ d = 2 ∨ d = 3 ∨ d = 4 ∨ d = 5 ∨ d = 6 ∨ d = 7 ∨ d = 8 ∨ d = 9)%N
    as Hc by lia.
  by repeat (destruct Hc as [->|Hc]; [reflexivity|]); subst.
Qed.

Lemma parse_digits_go x s :
  parse_digits 0 (pretty_N_go x s) =
  if decide (Z.of_N x < u64_modulus)%Z then parse_digits (Z.of_N x) s
  else Err "number too large to fit in target type".
Proof.
  revert s. induction (N.lt_wf_0 x) as [x _ IH]. intros s.
  destruct (decide (x = 0%N)) as [->|Hne]; [done|].
  rewrite pretty_N_go_step by lia.
  assert (x `div` 10 < x)%N as Hlt by (apply N.div_lt; lia).
  assert (10 * Z.of_N (x `div` 10) + Z.of_N (x `mod` 10) = Z.of_N x)%Z as Heq.
  { rewrite (N.div_mod x 10) at 3 by done. lia. }
  rewrite IH by done. case_decide as Hd.
  - simpl. rewrite digit_of_char by by apply N.mod_lt. by rewrite Heq.
  - assert (0 < u64_modulus)%Z by done. rewrite decide_False; [done|]. lia.
Qed.

Lemma pretty_N_go_head x s :
  (0 < x)%N → ∃ d rest, (d < 10)%N ∧ pretty_N_go x s = String (pretty_N_char d) rest.
Proof.
  revert s. induction (N.lt_wf_0 x) as [x _ IH]. intros s Hx.
  rewrite pretty_N_go_step by done. destruct (decide (x `div` 10 = 0)%N) as [->|Hne].
  - exists (x `mod` 10)%N, s. split; [by apply N.mod_lt|done].
  - apply IH; [apply N.div_lt; lia|by apply N.neq_0_lt_0].
Qed.

Lemma parse_u64_pretty n :
  parse_u64 (pretty n) =
  if decide (Z.of_N n < u64_modulus)%Z then Ok (Z.of_N n)
  else Err "number too large to fit in target type".
Proof.
  unfold pretty, pretty_N. case_decide as Hn; [by subst|].
  pose proof (parse_digits_go n "") as Hgo. simpl in Hgo. rewrite <- Hgo.
  destruct (pretty_N_go_head n "") as (d & rest & Hd & Hs); [lia|].
  assert (pretty_N_char d ≠ "+"%char ∧ pretty_N_char d ≠ "-"%char) as [Hp Hm].
  { pose proof (digit_of_char d Hd) as Hc. split; intros He; by rewrite He in Hc. }
  rewrite Hs. unfold parse_u64. destruct rest; [by rewrite decide_False by tauto|].
  by rewrite decide_False.
Qed.

(** ** The operations of [syn] that the parser uses

    [I] is the rest of the input, [X] an expression.  The literal of a number
    is the text of its digits in base ten. *)
Class Syn (I X : Type) : Type := {
  in_empty : I → bool;
  parse_ident : I → result (string * I) string;
  parse_eq : I → result I string;
  parse_str : I → result (string * I) string;
  parse_int : I → result (string * I) string;
  parse_expr : I → result (X * I) string;
  peek_comma : I → bool;
  parse_comma : I → result I string;
  input_error : I → string → string;
  array_elems : X → option (list X)
}.

(** [HandlerArgsParsed]; the topic is missing while the arguments are read. *)
Record HandlerArgs (T X : Type) : Type := {
  ha_topic : T;
  ha_workers : Z;
  ha_timeout : option Z;
  ha_shutdown_timeout : option Z;
  ha_shutdown_check_interval : option Z;
  ha_middleware : option X
}.
Arguments ha_topic {T X} h.
Arguments ha_workers {T X} h.
Arguments ha_timeout {T X} h.
Arguments ha_shutdown_timeout {T X} h.
Arguments ha_shutdown_check_interval {T X} h.
Arguments ha_middleware {T X} h.
Arguments Build_HandlerArgs {T X}.

Section parser.
Context {I X : Type} `{Syn I X}.
Implicit Types (i : I) (a : HandlerArgs (option string) X).

Abbreviation Parse A := (result (A * I) string).

Definition no_args : HandlerArgs (option string) X := Build_HandlerArgs None 1%Z None None None None.

Definition set_arg_topic s a : HandlerArgs (option string) X :=
  Build_HandlerArgs (Some s) (ha_workers a) (ha_timeout a) (ha_shutdown_timeout a)
    (ha_shutdown_check_interval a) (ha_middleware a).
Definition set_arg_workers n a : HandlerArgs (option string) X :=
  Build_HandlerArgs (ha_topic a) n (ha_timeout a) (ha_shutdown_timeout a)
    (ha_shutdown_check_interval a) (ha_middleware a).
Definition set_arg_timeout n a : HandlerArgs (option string) X :=
  Build_HandlerArgs (ha_topic a) (ha_workers a) (Some n) (ha_shutdown_timeout a)
    (ha_shutdown_check_interval a) (ha_middleware a).
Definition set_arg_shutdown_timeout n a : HandlerArgs (option string) X :=
  Build_HandlerArgs (ha_topic a) (ha_workers a) (ha_timeout a) (Some n)
    (ha_shutdown_check_interval a) (ha_middleware a).
Definition set_arg_check_interval n a : HandlerArgs (option string) X :=
  Build_HandlerArgs (ha_topic a) (ha_workers a) (ha_timeout a) (ha_shutdown_timeout a)
    (Some n) (ha_middleware a).
Definition set_arg_middleware x a : HandlerArgs (option string) X :=
  Build_HandlerArgs (ha_topic a) (ha_workers a) (ha_timeout a) (ha_shutdown_timeout a)
    (ha_shutdown_check_interval a) (Some x).

(** [let lit: syn::LitInt = input.parse()?; lit.base10_parse()?]. *)
Definition parse_number i : Parse Z :=
  match parse_int i with
  | Err e => Err e
  | Ok (digits, i) => match parse_u64 digits with Ok n => Ok (n, i) | Err e => Err e end
  end.

(** The value after [name =]. *)
Definition parse_value (name : string) i a : Parse (HandlerArgs (option string) X) :=
  if decide (name = "topic") then
    match parse_str i with Ok (s, i) => Ok (set_arg_topic s a, i) | Err e => Err e end
  else if decide (name = "workers") then
    match parse_number i with Ok (n, i) => Ok (set_arg_workers n a, i) | Err e => Err e end
  else if decide (name = "timeout") then
    match parse_number i with Ok (n, i) => Ok (set_arg_timeout n a, i) | Err e => Err e end
  else if decide (name = "shutdown_timeout") then
    match parse_number i with Ok (n, i) => Ok (set_arg_shutdown_timeout n a, i) | Err e => Err e end
  else if decide (name = "shutdown_check_interval") then
    match parse_number i with Ok (n, i) => Ok (set_arg_check_interval n a, i) | Err e => Err e end
  else if decide (name = "middleware") then
    match parse_expr i with Ok (x, i) => Ok (set_arg_middleware x a, i) | Err e => Err e end
  else Err ("unknown argument: " +:+ name).

(** The body of the loop. *)
Definition parse_arg i a : Parse (HandlerArgs (option string) X) :=
  match parse_ident i with
  | Err e => Err e
  | Ok (name, i) =>
      match parse_eq i with
      | Err e => Err e
      | Ok i =>
          match parse_value name i a with
          | Err e => Err e
          | Ok (a, i) =>
              if peek_comma i then
                match parse_comma i with Ok i => Ok (a, i) | Err e => Err e end
              else Ok (a, i)
          end
      end
  end.

(** [while !input.is_empty() { .. }] for [fuel] rounds. *)
Fixpoint parse_args (fuel : nat) i a : option (Parse (HandlerArgs (option string) X)) :=
  if in_empty i then Some (Ok (a, i))
  else
    match fuel with
    | O => None
    | S fuel =>
        match parse_arg i a with
        | Err e => Some (Err e)
        | Ok (a, i) => parse_args fuel i a
        end
    end.

(** [HandlerArgsParsed::parse]. *)
Definition parse_handler_args (fuel : nat) i : option (result (HandlerArgs string X) string) :=
  match parse_args fuel i no_args with
  | None => None
  | Some (Err e) => Some (Err e)
  | Some (Ok (a, i)) =>
      Some match ha_topic a with
           | None => Err (input_error i "required argument `topic` is missing")
           | Some t => Ok (Build_HandlerArgs t (ha_workers a) (ha_timeout a)
                             (ha_shutdown_timeout a) (ha_shutdown_check_interval a)
                             (ha_middleware a))
           end
  end.
End parser.

(** ** What the macro generates *)

(** The generated code: the struct of the handler, the entry of the registry
    and what its [register_fn] does. *)
Record HandlerCode (X : Type) : Type := {
  hc_struct : string;
  hc_entry : string;
  hc_register : string;
  hc_topic : string;
  hc_workers : Z;
  hc_middleware : list X;
  hc_timeout : option Duration;
  hc_shutdown_timeout : option Duration;
  hc_shutdown_check_interval : option Duration
}.
Arguments hc_struct {X} h.
Arguments hc_entry {X} h.
Arguments hc_register {X} h.
Arguments hc_topic {X} h.
Arguments hc_workers {X} h.
Arguments hc_middleware {X} h.
Arguments hc_timeout {X} h.
Arguments hc_shutdown_timeout {X} h.
Arguments hc_shutdown_check_interval {X} h.

Section generator.
Context {I X : Type} `{Syn I X} (to_uppercase : string → string).

(** [handler_impl]: the middleware expression is an array, whose elements
    are chained, or one middleware. *)
Definition handler_impl (fn_name : string) (args : HandlerArgs string X) : HandlerCode X :=
  {| hc_struct := to_uppercase fn_name +:+ "Handler";
     hc_entry := "_ENTRY_" +:+ fn_name;
     hc_register := "_register_" +:+ fn_name;
     hc_topic := ha_topic args;
     hc_workers := ha_workers args;
     hc_middleware :=
       match ha_middleware args with
       | Some mw => match array_elems mw with Some l => l | None => [mw] end
       | None => []
       end;
     hc_timeout := from_secs <$> ha_timeout args;
     hc_shutdown_timeout := from_secs <$> ha_shutdown_timeout args;
     hc_shutdown_check_interval := from_millis <$> ha_shutdown_check_interval args |}.

(** The generated pipeline: [let mut p = Pipeline::new(..); p = p.with(..); ..]. *)
Definition pipeline_code {E : Type → Type} (eval : X → Middleware (E := E))
    (h : EHandler (E := E)) (code : HandlerCode X) : Pipeline (E := E) :=
  foldl (λ p mw, pipeline_with (eval mw) p) (Pipeline_new h) (hc_middleware code).

(** The options of [ConsumerRouter::create_worker] on the worker it makes. *)
Definition with_options (code : HandlerCode X) (w : Worker) : Worker :=
  {| w_topic := w_topic w; w_name := w_name w; w_producer := w_producer w;
     w_time_out := hc_timeout code;
     w_shutdown_check_interval := default (from_millis 50) (hc_shutdown_check_interval code);
     w_shutdown_timeout := hc_shutdown_timeout code;
     w_wal := w_wal w; w_audit_template := w_audit_template w |}.

Definition make_with (code : HandlerCode X) (make : string → nat → Worker * Inbox * JoinHandle)
    (tpc : string) (n : nat) : Worker * Inbox * JoinHandle :=
  let '(w, b, h) := make tpc n in (with_options code w, b, h).

(** The generated [register_fn]. *)
Definition register_fn {B : Type} `{RingBuf AuditRecord B} (created : string → Res Producer)
    (make : string → nat → Worker * Inbox * JoinHandle) (handler : string → HandlerRef)
    (code : HandlerCode X) : Start (B := B) unit :=
  handler_entry created (make_with code make) handler (hc_topic code)
    (Z.to_nat (hc_workers code)).
End generator.

(** ** Written arguments *)

Inductive Token (X : Type) : Type :=
| TkIdent (s : string) | TkEq | TkStr (s : string) | TkInt (n : N) | TkExpr (x : X) | TkComma.
Arguments TkIdent {X} s.
Arguments TkEq {X}.
Arguments TkStr {X} s.
Arguments TkInt {X} n.
Arguments TkExpr {X} x.
Arguments TkComma {X}.

Definition ARG_NAMES : list string :=
  ["topic"; "workers"; "timeout"; "shutdown_timeout"; "shutdown_check_interval"; "middleware"].

(** The token is no literal of this sort, and no expression. *)
Definition no_literal {A X} (literal : A → Token X) (t : Token X) : Prop :=
  (∀ a, t ≠ literal a) ∧ ∀ x, t ≠ TkExpr x.

(** What [syn] does with tokens: [in_put] writes a token before the rest.  A
    literal is read back, and any other token is refused where a literal is
    asked for (nothing is said of an expression there, which may be one).  An
    expression reaches as far as it can, so it is read back only where the
    input ends or a comma follows. *)
Class SynLaws (I X : Type) `{Syn I X} : Type := {
  in_end : I;
  in_put : Token X → I → I;
  in_len : I → nat;
  syn_ident : string → Prop;
  arg_names_ident : Forall syn_ident ARG_NAMES;
  end_law : in_empty in_end = true ∧ peek_comma in_end = false;
  put_law t i :
    in_empty (in_put t i) = false ∧
    peek_comma (in_put t i) = (match t with TkComma => true | _ => false end);
  ident_law s i : syn_ident s → parse_ident (in_put (TkIdent s) i) = Ok (s, i);
  eq_law i : parse_eq (in_put TkEq i) = Ok i;
  str_law s i : parse_str (in_put (TkStr s) i) = Ok (s, i);
  int_law n i : parse_int (in_put (TkInt n) i) = Ok (pretty n, i);
  not_str : string;
  not_int : string;
  str_wrong_law t i : no_literal TkStr t → parse_str (in_put t i) = Err not_str;
  int_wrong_law t i : no_literal TkInt t → parse_int (in_put t i) = Err not_int;
  expr_law x i :
    in_empty i = true ∨ peek_comma i = true → parse_expr (in_put (TkExpr x) i) = Ok (x, i);
  comma_law i : parse_comma (in_put TkComma i) = Ok i;
  ident_len i s i' : parse_ident i = Ok (s, i') → (in_len i' < in_len i)%nat;
  eq_len i i' : parse_eq i = Ok i' → (in_len i' < in_len i)%nat;
  str_len i s i' : parse_str i = Ok (s, i') → (in_len i' < in_len i)%nat;
  int_len i d i' : parse_int i = Ok (d, i') → (in_len i' < in_len i)%nat;
  expr_len i x i' : parse_expr i = Ok (x, i') → (in_len i' < in_len i)%nat;
  comma_len i i' : parse_comma i = Ok i' → (in_len i' < in_len i)%nat
}.

Inductive Arg (X : Type) : Type :=
| ATopic (s : string)
| AWorkers (n : N) | ATimeout (n : N) | AShutdownTimeout (n : N) | ACheckInterval (n : N)
| AMiddleware (x : X)
| AWrong (name : string) (value : Token X)
| AUnknown (name : string) (value : Token X).
Arguments ATopic {X} s.
Arguments AWorkers {X} n.
Arguments ATimeout {X} n.
Arguments AShutdownTimeout {X} n.
Arguments ACheckInterval {X} n.
Arguments AMiddleware {X} x.
Arguments AWrong {X} name value.
Arguments AUnknown {X} name value.

Definition NUMBER_NAMES : list string :=
  ["workers"; "timeout"; "shutdown_timeout"; "shutdown_check_interval"].

Section written.
Context {I X : Type} `{SynLaws I X}.
Implicit Types (i : I) (a : HandlerArgs (option string) X).

Definition arg_name (g : Arg X) : string :=
  match g with
  | ATopic _ => "topic" | AWorkers _ => "workers" | ATimeout _ => "timeout"
  | AShutdownTimeout _ => "shutdown_timeout" | ACheckInterval _ => "shutdown_check_interval"
  | AMiddleware _ => "middleware" | AWrong name _ | AUnknown name _ => name
  end.
Definition arg_value (g : Arg X) : Token X :=
  match g with
  | ATopic s => TkStr s
  | AWorkers n | ATimeout n | AShutdownTimeout n | ACheckInterval n => TkInt n
  | AMiddleware x => TkExpr x
  | AWrong _ t | AUnknown _ t => t
  end.

(** The arguments of an attribute, each with whether a comma follows it. *)
Fixpoint written (l : list (Arg X * bool)) : I :=
  match l with
  | [] => in_end
  | (g, comma) :: l =>
      let rest := if comma : bool then in_put TkComma (written l) else written l in
      in_put (TkIdent (arg_name g)) (in_put TkEq (in_put (arg_value g) rest))
  end.

(** An expression needs its comma unless it comes last; a wrong value is not a
    literal of the sort its argument asks for; an unknown name is a Rust
    identifier. *)
Fixpoint separated (l : list (Arg X * bool)) : Prop :=
  match l with
  | [] => True
  | (g, comma) :: l =>
      match g with
      | AMiddleware _ => comma = true ∨ l = []
      | AWrong name t =>
          name = "topic" ∧ no_literal TkStr t ∨ name ∈ NUMBER_NAMES ∧ no_literal TkInt t
      | AUnknown name _ => syn_ident name ∧ name ∉ ARG_NAMES
      | _ => True
      end ∧ separated l
  end.

(** *** The reference *)

(** Why an argument is refused. *)
Definition number_error (n : N) : option string :=
  if decide (Z.of_N n < u64_modulus)%Z then None
  else Some "number too large to fit in target type".

Definition arg_error (g : Arg X) : option string :=
  match g with
  | ATopic _ | AMiddleware _ => None
  | AWorkers n | ATimeout n | AShutdownTimeout n | ACheckInterval n => number_error n
  | AWrong name _ => Some (if decide (name = "topic") then not_str else not_int)
  | AUnknown name _ => Some ("unknown argument: " +:+ name)
  end.

(** The values given for each argument. *)
Definition topic_given (g : Arg X) : option string :=
  match g with ATopic s => Some s | _ => None end.
Definition workers_given (g : Arg X) : option Z :=
  match g with AWorkers n => Some (Z.of_N n) | _ => None end.
Definition timeout_given (g : Arg X) : option Z :=
  match g with ATimeout n => Some (Z.of_N n) | _ => None end.
Definition shutdown_timeout_given (g : Arg X) : option Z :=
  match g with AShutdownTimeout n => Some (Z.of_N n) | _ => None end.
Definition check_interval_given (g : Arg X) : option Z :=
  match g with ACheckInterval n => Some (Z.of_N n) | _ => None end.
Definition middleware_given (g : Arg X) : option X :=
  match g with AMiddleware x => Some x | _ => None end.

(** The first argument that is refused is the error; otherwise the last value
    of each argument counts, one worker is the default, and a topic has to be
    among them. *)
Definition expected_args (l : list (Arg X)) : result (HandlerArgs string X) string :=
  match head (omap arg_error l) with
  | Some e => Err e
  | None =>
      match last (omap topic_given l) with
      | None => Err (input_error in_end "required argument `topic` is missing")
      | Some t =>
          Ok {| ha_topic := t;
                ha_workers := default 1%Z (last (omap workers_given l));
                ha_timeout := last (omap timeout_given l);
                ha_shutdown_timeout := last (omap shutdown_timeout_given l);
                ha_shutdown_check_interval := last (omap check_interval_given l);
                ha_middleware := last (omap middleware_given l) |}
      end
  end.

(** *** One argument after the other *)

Definition set_arg (g : Arg X) a : HandlerArgs (option string) X :=
  match g with
  | ATopic s => set_arg_topic s a
  | AWorkers n => set_arg_workers (Z.of_N n) a
  | ATimeout n => set_arg_timeout (Z.of_N n) a
  | AShutdownTimeout n => set_arg_shutdown_timeout (Z.of_N n) a
  | ACheckInterval n => set_arg_check_interval (Z.of_N n) a
  | AMiddleware x => set_arg_middleware x a
  | AWrong _ _ | AUnknown _ _ => a
  end.

Definition eval_arg (g : Arg X) a : result (HandlerArgs (option string) X) string :=
  match arg_error g with Some e => Err e | None => Ok (set_arg g a) end.

Fixpoint eval_args (l : list (Arg X * bool)) a : result (HandlerArgs (option string) X) string :=
  match l with
  | [] => Ok a
  | (g, _) :: l => match eval_arg g a with Ok a => eval_args l a | Err e => Err e end
  end.

(** The last of some values, or the one there was. *)
Definition or_else {A} (o : option A) (old : option A) : option A :=
  match o with Some x => Some x | None => old end.

Lemma omap_cons {A B} (f : A → option B) x (l : list A) :
  omap f (x :: l) = match f x with Some y => y :: omap f l | None => omap f l end.
Proof. done. Qed.

Lemma last_given {A} (f : Arg X → option A) g (l : list (Arg X)) old :
  or_else (last (omap f l)) (or_else (f g) old) = or_else (last (omap f (g :: l))) old.
Proof.
  csimpl. destruct (f g) as [x|]; simpl; [|done]. rewrite last_cons. by destruct (last (omap f l)).
Qed.

Lemma eval_args_spec (l : list (Arg X * bool)) a :
  eval_args l a =
  match head (omap arg_error l.*1) with
  | Some e => Err e
  | None => Ok
      {| ha_topic := or_else (last (omap topic_given l.*1)) (ha_topic a);
         ha_workers := default (ha_workers a) (last (omap workers_given l.*1));
         ha_timeout := or_else (last (omap timeout_given l.*1)) (ha_timeout a);
         ha_shutdown_timeout :=
           or_else (last (omap shutdown_timeout_given l.*1)) (ha_shutdown_timeout a);
         ha_shutdown_check_interval :=
           or_else (last (omap check_interval_given l.*1)) (ha_shutdown_check_interval a);
         ha_middleware := or_else (last (omap middleware_given l.*1)) (ha_middleware a) |}
  end.
Proof.
  revert a. induction l as [|[g c] l IH]; intros a; [by destruct a|].
  cbn [eval_args]. unfold eval_arg. rewrite fmap_cons. cbn [fst].
  rewrite (omap_cons arg_error g). destruct (arg_error g) as [e|]; [done|]. rewrite IH.
  destruct (head (omap arg_error l.*1)); [done|]. f_equal.
  rewrite <- !last_given. f_equal; try (by destruct g).
  cbn. destruct g; simpl; try done. rewrite last_cons.
  by destruct (last (omap workers_given l.*1)).
Qed.

(** ** The parser ends *)

Lemma parse_number_len i n i' : parse_number i = Ok (n, i') → (in_len i' < in_len i)%nat.
Proof.
  unfold parse_number. destruct (parse_int i) as [[d i1]|] eqn:Hi; [|done].
  destruct (parse_u64 d); [|done]. intros [= <- <-]. by eapply int_len.
Qed.

Lemma parse_value_len name i a a' i' :
  parse_value name i a = Ok (a', i') → (in_len i' < in_len i)%nat.
Proof.
  unfold parse_value. repeat case_decide; try done;
    match goal with |- match ?p with _ => _ end = _ → _ => destruct p as [[]|] eqn:Hp; [|done] end;
    intros [= <- <-]; eauto using str_len, parse_number_len, expr_len.
Qed.

Lemma parse_arg_len i a a' i' : parse_arg i a = Ok (a', i') → (in_len i' < in_len i)%nat.
Proof.
  unfold parse_arg. destruct (parse_ident i) as [[name i1]|] eqn:H1; [|done].
  destruct (parse_eq i1) as [i2|] eqn:H2; [|done].
  destruct (parse_value name i2 a) as [[a1 i3]|] eqn:H3; [|done].
  apply ident_len in H1. apply eq_len in H2. apply parse_value_len in H3.
  destruct (peek_comma i3); [|intros [= <- <-]; lia].
  destruct (parse_comma i3) as [i4|] eqn:H4; [|done]. apply comma_len in H4.
  intros [= <- <-]. lia.
Qed.

Lemma parse_args_ends fuel i a : (in_len i < fuel)%nat → parse_args fuel i a ≠ None.
Proof.
  revert i a. induction fuel as [|fuel IH]; intros i a Hf; [lia|]. cbn [parse_args].
  destruct (in_empty i); [done|]. destruct (parse_arg i a) as [[a' i']|] eqn:Hp; [|done].
  apply parse_arg_len in Hp. apply IH. lia.
Qed.

(** The parser of the attribute's arguments ends on every input: a fuel
    above the length of the input is never used up. *)
Theorem args_parser_terminates fuel i :
  (in_len i < fuel)%nat → ∃ r, parse_handler_args fuel i = Some r.
Proof.
  intros Hf. unfold parse_handler_args. pose proof (parse_args_ends fuel i no_args Hf) as Hn.
  destruct (parse_args fuel i no_args) as [[[a i']|e]|]; [by eexists..|done].
Qed.

(** ** What it reads *)

Lemma names_ident name : name ∈ ARG_NAMES → syn_ident name.
Proof. pose proof arg_names_ident as Hn. rewrite Forall_forall in Hn. apply Hn. Qed.

Lemma arg_ident g comma l : separated ((g, comma) :: l) → syn_ident (arg_name g).
Proof.
  destruct g; simpl; try (intros _; apply names_ident; repeat constructor; fail); intros [Hn _].
  - apply names_ident. destruct Hn as [[-> _]|[Hn _]]; [constructor|].
    unfold NUMBER_NAMES, ARG_NAMES in *. set_solver.
  - by destruct Hn.
Qed.

Lemma after_value l : peek_comma (written l) = false.
Proof. destruct l as [|[g c] l]; simpl; [apply end_law|apply put_law]. Qed.

Lemma parse_written_number n i :
  parse_number (in_put (TkInt n) i) =
  if decide (Z.of_N n < u64_modulus)%Z then Ok (Z.of_N n, i)
  else Err "number too large to fit in target type".
Proof. unfold parse_number. rewrite int_law, parse_u64_pretty. by case_decide. Qed.

Lemma parse_written_value g i a :
  (match g with
   | AMiddleware _ => in_empty i = true ∨ peek_comma i = true
   | AWrong name t =>
       name = "topic" ∧ no_literal TkStr t ∨ name ∈ NUMBER_NAMES ∧ no_literal TkInt t
   | AUnknown name _ => name ∉ ARG_NAMES
   | _ => True
   end) →
  parse_value (arg_name g) (in_put (arg_value g) i) a =
  match eval_arg g a with Ok a => Ok (a, i) | Err e => Err e end.
Proof.
  unfold parse_value, eval_arg.
  destruct g; cbn [arg_name arg_value arg_error set_arg]; intros Hg;
    try (repeat (rewrite decide_False by done); rewrite decide_True by done).
  1: by rewrite str_law.
  1-4: rewrite parse_written_number; unfold number_error; by case_decide.
  - by rewrite expr_law.
  - destruct Hg as [[-> Ht]|[Hn Ht]]; [by rewrite str_wrong_law|].
    unfold NUMBER_NAMES in Hn. unfold parse_number. rewrite int_wrong_law by done.
    repeat (apply elem_of_cons in Hn as [->|Hn];
      [repeat (rewrite decide_False by done); rewrite decide_True by done; done|]).
    by apply not_elem_of_nil in Hn.
  - unfold ARG_NAMES in Hg. repeat (rewrite decide_False by set_solver). done.
Qed.

Lemma parse_written_arg g comma l a :
  separated ((g, comma) :: l) →
  parse_arg (written ((g, comma) :: l)) a =
  match eval_arg g a with Ok a => Ok (a, written l) | Err e => Err e end.
Proof.
  intros Hsep. unfold parse_arg. simpl. rewrite ident_law by by eapply arg_ident.
  rewrite eq_law, parse_written_value.
  - destruct (eval_arg g a) as [a'|e]; [|done]. destruct comma.
    + destruct (put_law TkComma (written l)) as [_ ->]. by rewrite comma_law.
    + by rewrite after_value.
  - destruct Hsep as [Hg _]. destruct g; try done; [|tauto]. destruct comma.
    + right. apply put_law.
    + left. destruct Hg as [[=]| ->]. apply end_law.
Qed.

Lemma parse_written fuel l a :
  separated l → (length l <= fuel)%nat →
  parse_args fuel (written l) a =
  Some match eval_args l a with Ok a => Ok (a, in_end) | Err e => Err e end.
Proof.
  revert fuel a. induction l as [|[g comma] l IH]; intros fuel a Hsep Hf.
  { destruct fuel; simpl; destruct end_law as [-> _]; done. }
  destruct fuel as [|fuel]; simpl in Hf; [lia|]. cbn [parse_args].
  assert (in_empty (written ((g, comma) :: l)) = false) as -> by apply put_law.
  rewrite parse_written_arg by done. cbn [eval_args]. destruct (eval_arg g a) as [a'|e]; [|done].
  apply IH; [apply Hsep|lia].
Qed.

(** C38. The parser of [#[handler(..)]] agrees with the reference on every list
    of arguments, in any order, with or without commas between them, but for
    an expression, which needs its comma unless it comes last: the first
    argument that is unknown, has a literal of the wrong sort or a number above
    [u64::MAX] is the error; otherwise the last argument of a name counts, the
    number of workers is 1 by default, and a missing topic is an error. *)
Theorem args_parsed fuel (l : list (Arg X * bool)) :
  separated l → (length l <= fuel)%nat →
  parse_handler_args fuel (written l) = Some (expected_args l.*1).
Proof.
  intros Hsep Hf. unfold parse_handler_args. rewrite parse_written, eval_args_spec by done.
  unfold expected_args. destruct (head (omap arg_error l.*1)); [done|]. simpl.
  by destruct (last (omap topic_given l.*1)), (last (omap timeout_given l.*1)),
    (last (omap shutdown_timeout_given l.*1)), (last (omap check_interval_given l.*1)),
    (last (omap middleware_given l.*1)).
Qed.
End written.

(** ** What the generated code does *)

Section generated.
Context {I X B : Type} `{Syn I X} `{RingBuf AuditRecord B} (to_uppercase : string → string).
Context (created : string → Res Producer).
Context (make : string → nat → Worker * Inbox * JoinHandle) (handler : string → HandlerRef).
Implicit Types s : Process (B := B).

Lemma pipeline_code_chain {E : Type → Type} (eval : X → Middleware (E := E)) h code :
  pipeline_code eval h code =
  {| middlewares := eval <$> hc_middleware code; p_handler := h |}.
Proof.
  unfold pipeline_code. change (eval <$> _) with ([] ++ (eval <$> hc_middleware code))%list.
  unfold Pipeline_new. generalize (@nil (Middleware (E := E))) as pre.
  induction (hc_middleware code) as [|x l IH]; intros pre; simpl; [by rewrite app_nil_r|].
  unfold pipeline_with. simpl. rewrite IH. by rewrite <- (assoc_L (++)%list).
Qed.

(** The generated pipeline runs the middlewares of the array in its order,
    around the function the attribute stands on. *)
Theorem generated_pipeline {E : Type → Type} (eval : X → Middleware (E := E)) h fn args x :
  ha_middleware args = Some x →
  pipeline_run (pipeline_code eval h (handler_impl to_uppercase fn args)) =
  wrap (eval <$> default [x] (array_elems x)) h.
Proof.
  intros Hx. rewrite pipeline_code_chain, pipeline_run_is_wrap. simpl. rewrite Hx.
  by destruct (array_elems x).
Qed.

(** The options of the attribute on a worker. *)
Definition has_options (code : HandlerCode X) (w : Worker) : Prop :=
  w_time_out w = hc_timeout code ∧
  w_shutdown_check_interval w = default (from_millis 50) (hc_shutdown_check_interval code) ∧
  w_shutdown_timeout w = hc_shutdown_timeout code.

(** Every worker of the index was there before or has the options. *)
Definition configured (code : HandlerCode X) (before : gmap string (Worker * JoinHandle)) s : Prop :=
  ∀ c name w h, ps_consumer_router s = Some c → worker_index c !! name = Some (w, h) →
    before !! name = Some (w, h) ∨ has_options code w.

Definition keeps_configured (p : Start (B := B) unit) (code : HandlerCode X) : Prop :=
  ∀ before s r s', configured code before s → p s = (r, s') → configured code before s'.

Lemma keeps_and_then (p q : Start (B := B) unit) code :
  keeps_configured p code → keeps_configured q code →
  keeps_configured (and_then p (λ _, q)) code.
Proof.
  intros Hp Hq before s r s' Hs. unfold and_then.
  destruct (p s) as [[[u|e]|why] s1] eqn:E1; [|by intros [= <- <-]; eapply Hp..].
  intros E2. eapply Hq, E2. by eapply Hp.
Qed.

Lemma register_configured tpc code : keeps_configured (register created handler tpc) code.
Proof.
  intros before s r s' Hs. unfold register, on_router.
  destruct (ps_consumer_router s) as [c|] eqn:Hc; [|by intros [= <- <-]].
  destruct (router_register tpc (handler tpc) (created tpc) c) as [r0 c'] eqn:Hr.
  intros [= <- <-] c1 name w h [= <-] Hw. apply (Hs c name w h Hc).
  revert Hr. unfold router_register.
  destruct (local_topics c !! tpc), (created tpc); by intros [= <- <-].
Qed.

Lemma note_topic_configured tpc code : keeps_configured (note_topic tpc) code.
Proof.
  intros before s r s' Hs. unfold note_topic.
  destruct (ps_topic_router s) as [[ts p]|]; by intros [= <- <-].
Qed.

Lemma create_worker_index tpc w b h c r st c' name wh :
  create_worker tpc w b h c = (r, st, c') → worker_index c' !! name = Some wh →
  worker_index c !! name = Some wh ∨ wh = (w, h).
Proof.
  unfold create_worker. destruct (local_topics c !! tpc) as [e|] eqn:He;
    [|intros [= <- <- <-]; by left].
  intros Hcw Hw. assert (worker_index c' = <[w_name w := (w, h)]> (worker_index c)) as Hi.
  { revert Hcw. unfold register_worker. simpl. destruct (dispatch_enabled c !! tpc) as [[]|]; simpl;
      rewrite He; by intros [= <- <- <-]. }
  rewrite Hi, lookup_insert in Hw. case_decide; naive_solver.
Qed.

Lemma new_worker_configured tpc code before s r s' :
  configured code before s → new_worker (make_with code make) tpc s = (r, s') →
  configured code before s'.
Proof.
  intros Hs. unfold new_worker, on_router.
  destruct (ps_consumer_router s) as [c|] eqn:Hc; [|by intros [= <- <-]].
  unfold make_with. destruct (make tpc (ps_made s)) as [[w b] h].
  destruct (create_worker tpc _ b h c) as [[r0 st] c'] eqn:Hcw.
  intros [= <- <-] c1 name w' h' [= <-] Hw.
  destruct (create_worker_index _ _ _ _ _ _ _ _ _ _ Hcw Hw) as [Hold|[= -> ->]].
  - by apply (Hs c name w' h' Hc).
  - right. by split_and!.
Qed.

Lemma create_workers_configured n tpc code :
  keeps_configured (create_workers (make_with code make) n tpc) code.
Proof.
  induction n as [|n IH]; intros before s r s' Hs; simpl; [by intros [= <- <-]|].
  unfold and_then. destruct (new_worker _ tpc s) as [[[u|e]|why] s1] eqn:E1;
    [intros E2; eapply IH, E2|intros [= <- <-]..]; by eapply new_worker_configured.
Qed.

(** The registration that [#[handler]] generates, run where its topic is
    new: it registers the topic, makes exactly the workers that were asked
    for, each with the timeouts of the attribute and a check interval of
    50 ms by default, and leaves the workers of other topics as they are. *)
Theorem attribute_registers fn args topics p counts bg c s :
  (∀ tpc, ∃ pr, created tpc = Ok pr) →
  counts !! ha_topic args = None → sees (Some (topics, p)) counts bg s →
  ps_consumer_router s = Some c →
  let code := handler_impl to_uppercase fn args in
  ∃ s', register_fn created make handler code s = (Done (Ok tt), s') ∧
    sees (Some (register_topic topics (ha_topic args), p))
      (<[ha_topic args := Z.to_nat (ha_workers args)]> counts) bg s' ∧
    ∀ c' name w h, ps_consumer_router s' = Some c' → worker_index c' !! name = Some (w, h) →
      worker_index c !! name = Some (w, h) ∨ has_options code w.
Proof.
  intros Hcr Ht Hs Hc code.
  destruct (handler_entry_brings created (make_with code make) handler Hcr (ha_topic args)
    (Z.to_nat (ha_workers args)) topics p counts bg s Ht Hs) as (s' & He & Hs').
  exists s'. split; [exact He|]. split; [exact Hs'|].
  assert (keeps_configured (register_fn created make handler code) code) as Hk.
  { repeat apply keeps_and_then;
      auto using register_configured, note_topic_configured, create_workers_configured. }
  apply (Hk (worker_index c) s (Done (Ok tt)) s'); [|exact He].
  intros c1 name w h Hc1. rewrite Hc in Hc1. injection Hc1 as <-. by left.
Qed.
End generated.

(** ** Token lists *)

Module TokenInput.
Inductive Expr : Type := EName (s : string) | EArray (l : list string).
Definition Input : Type := list (Token Expr).

#[global] Instance token_syn : Syn Input Expr := {
  in_empty i := match i with [] => true | _ => false end;
  parse_ident i := match i with TkIdent s :: i => Ok (s, i) | _ => Err "expected identifier" end;
  parse_eq i := match i with TkEq :: i => Ok i | _ => Err "expected `=`" end;
  parse_str i := match i with TkStr s :: i => Ok (s, i) | _ => Err "expected string literal" end;
  parse_int i :=
    match i with TkInt n :: i => Ok (pretty n, i) | _ => Err "expected integer literal" end;
  parse_expr i := match i with TkExpr x :: i => Ok (x, i) | _ => Err "expected an expression" end;
  peek_comma i := match i with TkComma :: _ => true | _ => false end;
  parse_comma i := match i with TkComma :: i => Ok i | _ => Err "expected `,`" end;
  input_error i w := match i with [] => "unexpected end of input, " +:+ w | _ => w end;
  array_elems x := match x with EArray l => Some (EName <$> l) | EName _ => None end
}.

#[global] Instance token_laws : SynLaws Input Expr.
Proof.
  refine {| in_end := []; in_put := cons; in_len := length; syn_ident s := s ≠ "";
            not_str := "expected string literal"; not_int := "expected integer literal" |};
    try done;
    try (by repeat constructor);
    try (intros [] ? [Hl _]; try done; by destruct (Hl _ eq_refl));
    intros [|[] ?]; intros; simplify_eq/=; lia.
Defined.

(** [topic = "user.signup", workers = 3, timeout = 30 middleware = [log, auth]]. *)
Definition demo_args : list (Arg Expr * bool) :=
  [(ATopic "user.signup", true); (AWorkers 3, true); (ATimeout 30, false);
   (AMiddleware (EArray ["log"; "auth"]), false)].

Lemma args_parsed_witness :
  parse_handler_args 4 (written demo_args) =
    Some (Ok (Build_HandlerArgs "user.signup" 3%Z (Some 30%Z) None None
                (Some (EArray ["log"; "auth"])))) ∧
  parse_handler_args 2 (written [(AUnknown "worker" (TkInt 3) : Arg Expr, true); (ATopic "t", false)]) =
    Some (Err "unknown argument: worker") ∧
  parse_handler_args 2 (written [(AWrong "timeout" (TkStr "30") : Arg Expr, true); (ATopic "t", false)]) =
    Some (Err "expected integer literal") ∧
  parse_handler_args 1 (written [(AWorkers 3 : Arg Expr, false)]) =
    Some (Err "unexpected end of input, required argument `topic` is missing").
Proof.
  split; [|split; [|split]].
  - rewrite (args_parsed 4 demo_args); [reflexivity|simpl; tauto|simpl; lia].
  - rewrite (args_parsed 2 [(AUnknown "worker" (TkInt 3), true); (ATopic "t", false)]);
      [reflexivity| |simpl; lia].
    split; [|by split]. split; [discriminate|by apply (bool_decide_unpack _)].
  - rewrite (args_parsed 2 [(AWrong "timeout" (TkStr "30"), true); (ATopic "t", false)]);
      [reflexivity| |simpl; lia].
    split; [|by split]. right. split; [by apply (bool_decide_unpack _)|by split].
  - rewrite (args_parsed 1 [(AWorkers 3, false)]); [reflexivity|simpl; tauto|simpl; lia].
Defined.

Lemma args_parser_terminates_witness :
  ∃ r, parse_handler_args 18 (written demo_args) = Some r.
Proof. apply (args_parser_terminates 18 (written demo_args)). vm_compute. lia. Defined.
End TokenInput.

(** A process with both routers and no topic. *)
Definition demo_process : Process (B := ListRing AuditRecord) :=
  {| ps_node_type := Some Host; ps_topic_router := Some ([], the_producer);
     ps_consumer_router := Some (router_init None); ps_registry := true; ps_audit := None;
     ps_metrics := None; ps_store := None; ps_made := 0; ps_log := [] |}.

Definition demo_code : HandlerCode TokenInput.Expr :=
  handler_impl (λ s, s) "sign" (Build_HandlerArgs "user.signup" 3%Z (Some 30%Z) None None None).

Lemma attribute_registers_witness :
  ∃ s' c, register_fn demo_created demo_make (λ _, 1%positive) demo_code demo_process =
    (Done (Ok tt), s') ∧
    ps_consumer_router s' = Some c ∧ worker_counts c !! "user.signup" = Some 3%nat ∧
    ∀ name w h, worker_index c !! name = Some (w, h) →
      w_time_out w = Some (from_secs 30) ∧ w_shutdown_check_interval w = from_millis 50.
Proof.
  assert (sees (Some ([], the_producer)) ∅ [] demo_process) as Hs.
  { split; [reflexivity|]. split; [reflexivity|]. by exists (router_init None). }
  destruct (attribute_registers (X := TokenInput.Expr) (λ s, s) demo_created demo_make
    (λ _, 1%positive) "sign" (Build_HandlerArgs "user.signup" 3%Z (Some 30%Z) None None None)
    [] the_producer ∅ [] (router_init None) demo_process
    (λ _, ex_intro _ the_producer eq_refl) (lookup_empty _) Hs eq_refl)
    as (s' & He & (_ & _ & c & Hc & Hw & _) & Hopt).
  exists s', c. split; [exact He|]. split; [exact Hc|]. split; [by rewrite Hw|].
  intros name w h Hl. destruct (Hopt c name w h Hc Hl) as [Hf|(Ht & Hi & _)].
  - discriminate Hf.
  - split; [exact Ht|exact Hi].
Defined.

Close Scope string_scope.
