(* ===== verification/Cli.v ===== *)
(** * The command line client: [ebctl/src/main.rs]

    What each command asks the control plane for and prints.  Parsing of the
    command line is [clap]'s; its result is [Cli].  A [println!] is modelled
    by the values it prints.  [answer] joins the client to the calls of the
    server. *)
From S2P Require Import Prelude Prog Errors Message Codec Metrics Runtime Topic Grpc.

Open Scope string_scope.

(** ** The command line *)

Inductive CliStrategy : Type :=
| CForce
| CGraceful (worker : string) (poll_interval_ms : Z)
| CIdle
| CTwoStage (poll_interval_ms force_timeout_secs : Z)
| CTimeout (total_timeout_secs : Z)
| CBatched (batch_size interval_ms : Z).

Inductive Command : Type :=
| Ping
| StatusCmd
| Topics
| Workers (topic : option string)
| MetricsCmd
| NodeMetricsCmd (node : string)
| PublishCmd (topic payload : string) (broadcast : bool) (to_worker : option string)
| ShutdownCmd (s : CliStrategy).

Record Cli : Type := { cli_addr : string; cli_token : string; cli_command : Command }.

(** ** Effects *)

(** The calls of the service, with their responses. *)
Inductive Call : Type → Type :=
| RespCheck : Call (bool * Z)
| GetNodeStatus : Call NodeStatusResponse
| ListTopics : Call ListTopicsResponse
| ListWorkers (topic : string) : Call ListWorkersResponse
| GetTopicStats : Call TopicStatsResponse
| GetNodeMetrics (node : string) : Call ProtoNodeMetrics
| Publish (r : PublishRequest) : Call string
| Shutdown (s : option Strategy) : Call bool.

(** The lines that are printed. *)
Inductive Line : Type :=
| LReady (ready : bool) (timestamp : Z)
| LNode (name role : string)
| LNodeReady (ready : bool)
| LTopicCount (n : Z)
| LWorkerCount (n : Z)
| LFleet (n : nat)
| LFleetNode (name : string) (type workers : Z) (mem : f32) (cpu : option (list f32))
| LTopics (total : Z)
| LTopic (t : string)
| LWorkers (topic : string) (total : Z)
| LWorker (name : string) (heartbeat : Z)
| LNoMetrics
| LEmptyStats
| LTopicStats (topic : string) (enq done fail retry : Z)
| LNodeMetrics (name : string) (type workers : Z) (mem : f32)
| LPublished (topic message_id : string)
| LShutdown (success : bool).

Inductive CliEff : Type → Type :=
| Connect (addr token : string) : CliEff (result unit string)
| Rpc {R : Type} (c : Call R) : CliEff (result R Status)
| Stdin : CliEff (result bytes string)
| Println (l : Line) : CliEff unit.

(** [Box<dyn Error>]. *)
Inductive CliError : Type := TransportError (e : string) | StatusError (s : Status) | IoError (e : string).

Abbreviation CliProg := (prog CliEff).

(** An effect with [?]. *)
Definition rpc {R} (c : Call R) : CliProg (result R CliError) :=
  r <- call (Rpc c) ;; Ret (map_err StatusError r).

Definition println (l : Line) : CliProg (result unit CliError) :=
  call (Println l) ;;; Ret (Ok tt).

(** [for x in l { println!(..) }]. *)
Fixpoint print_all (ls : list Line) : CliProg (result unit CliError) :=
  match ls with
  | [] => Ret (Ok tt)
  | l :: ls => println l ?;; print_all ls
  end.

(** ** Requests *)

Definition strategy_of (s : CliStrategy) : Strategy :=
  match s with
  | CForce => SForce
  | CIdle => SStateBasedIdle
  | CGraceful w p => SGraceful w p
  | CTwoStage p f => STwoStage p f
  | CTimeout t => STimeout t
  | CBatched n i => SBatched n i
  end.

(** [collect_keys]: a [BTreeSet] of the keys, in order. *)
Definition collect_keys (maps : list (gmap string Z)) : list string :=
  merge_sort String.le (elements (foldr (λ m s, dom m ∪ s) (∅ : gset string) maps)).

Definition fleet_line (n : ProtoNodeMetrics) : Line :=
  LFleetNode (pn_node_name n) (pn_node_type n) (pn_node_worker_count n) (pn_memory_percent n)
    (if decide (length (pn_cpu_percent n) = 0%nat) then None else Some (pn_cpu_percent n)).

Definition worker_line (w : ProtoWorkerInfo) : Line :=
  LWorker (pw_worker_name w) (pw_last_heartbeat w).

Definition stats_line (i : TopicInfo) (topic : string) : Line :=
  let g (m : gmap string Z) := default 0%Z (m !! topic) in
  LTopicStats topic (g (ti_enqueued i)) (g (ti_completed i)) (g (ti_failed i)) (g (ti_retried i)).

(** The loop over the topics when none is given. *)
Fixpoint workers_loop (topics : list string) : CliProg (result unit CliError) :=
  match topics with
  | [] => Ret (Ok tt)
  | topic :: topics =>
      w <-? rpc (ListWorkers topic) ;;
      (if decide (length (lw_workers w) = 0%nat) then Ret (Ok tt)
       else print_all (LWorkers topic (lw_total w) :: (worker_line <$> lw_workers w))) ?;;
      workers_loop topics
  end.

(** ** [main] *)

Definition run_command (c : Command) : CliProg (result unit CliError) :=
  match c with
  | Ping => r <-? rpc RespCheck ;; println (LReady r.1 r.2)
  | StatusCmd =>
      s <-? rpc GetNodeStatus ;;
      let role := if decide (ns_node_type s = 0%Z) then "Host" else "Worker" in
      print_all ([LNode (ns_node_name s) role; LNodeReady (ns_ready s);
                  LTopicCount (ns_topic_count s); LWorkerCount (ns_worker_count s)] ++
                 (if decide (length (ns_fleet s) = 0%nat) then []
                  else LFleet (length (ns_fleet s)) :: (fleet_line <$> ns_fleet s)))%list
  | Topics =>
      t <-? rpc ListTopics ;;
      print_all (LTopics (lt_total t) :: (LTopic <$> lt_topics t))
  | Workers None => topics <-? rpc ListTopics ;; workers_loop (lt_topics topics)
  | Workers (Some topic) =>
      w <-? rpc (ListWorkers topic) ;;
      print_all (LWorkers topic (lw_total w) :: (worker_line <$> lw_workers w))
  | MetricsCmd =>
      m <-? rpc GetTopicStats ;;
      match ts_info m with
      | None => println LNoMetrics
      | Some info =>
          let keys := collect_keys [ti_enqueued info; ti_completed info; ti_failed info;
                                    ti_retried info] in
          print_all ((if decide (keys = []) then [LEmptyStats] else []) ++
                     (stats_line info <$> keys))%list
      end
  | NodeMetricsCmd node =>
      n <-? rpc (GetNodeMetrics node) ;;
      println (LNodeMetrics (pn_node_name n) (pn_node_type n) (pn_node_worker_count n)
                 (pn_memory_percent n))
  | PublishCmd topic payload broadcast to_worker =>
      bytes <-? (if decide (payload = "-")
                 then (r <- call Stdin ;; Ret (map_err IoError r))
                 else Ret (Ok (as_bytes payload))) ;;
      r <-? rpc (Publish {| pr_topic := topic; pr_payload := bytes; pr_broadcast := broadcast;
                            pr_to_worker := default "" to_worker |}) ;;
      println (LPublished topic r)
  | ShutdownCmd s =>
      r <-? rpc (Shutdown (Some (strategy_of s))) ;;
      println (LShutdown r)
  end.

Definition main (cli : Cli) : CliProg (result unit CliError) :=
  c <- call (Connect (cli_addr cli) (cli_token cli)) ;;
  match c with
  | Err e => Ret (Err (TransportError e))
  | Ok _ => run_command (cli_command cli)
  end.

(** ** The server's side of a call *)

Section answer.
Context `{HashOrder} `{Json ShutdownCommand}.
Context (debug : string → string) (duration_debug : Duration → string).
Context (manager : option MetricsManager) (store : option MetricsStore).

Definition answer {R} (c : Call R) : Prog (result R Status) :=
  match c with
  | RespCheck => resp_check
  | GetNodeStatus => get_node_status store
  | ListTopics => rpc_list_topics
  | ListWorkers topic => list_workers topic
  | GetTopicStats => get_topic_stats manager store
  | GetNodeMetrics node => get_node_metrics debug store node
  | Publish r => publish duration_debug r
  | Shutdown s => rpc_shutdown duration_debug s
  end.

(** Every answer in the trace of a client is one that the server gives. *)
Definition answered_by_server (t : list (ev CliEff)) : Prop :=
  Forall (λ v, match v with
    | Ev e x =>
        match e in CliEff X return X → Prop with
        | Rpc c => λ r, ∃ t', exec (answer c) t' (Done r)
        | _ => λ _, True
        end x
    end) t.

(** ** Theorems *)

(** The calls a client made, and what it printed. *)
Definition ev_calls (v : ev CliEff) : list (option Strategy + PublishRequest) :=
  match v with
  | Ev e _ => match e with
              | Rpc (Shutdown s) => [inl s]
              | Rpc (Publish r) => [inr r]
              | _ => []
              end
  end.
Definition orders (t : list (ev CliEff)) : list (option Strategy + PublishRequest) := t ≫= ev_calls.

Definition ev_printed (v : ev CliEff) : list Line :=
  match v with Ev e _ => match e with Println l => [l] | _ => [] end end.
Definition printed (t : list (ev CliEff)) : list Line := t ≫= ev_printed.

(** The strategy a user asked for. *)
Definition intended (s : CliStrategy) : ShutdownStrategy :=
  match s with
  | CForce => Force
  | CIdle => StateBasedIdle
  | CGraceful w p => Graceful w p
  | CTwoStage p f => TwoStage p f
  | CTimeout t => TimeoutStrategy t
  | CBatched n i => Batched n i
  end.

(** [ebctl shutdown] asks for exactly the strategy on the command line, and
    what the server sends for it is that strategy; only the timeout strategy
    is not accepted by any server. *)
Lemma command_of_strategy s :
  command_of (strategy_of s) =
    match s with CTimeout _ => None | _ => Some {| strategy := intended s |} end.
Proof. by destruct s. Qed.

(** [ebctl shutdown timeout] is offered by the client and refused by every
    server: it never succeeds and prints nothing. *)
Theorem timeout_shutdown_always_fails addr token secs :
  wp (main {| cli_addr := addr; cli_token := token; cli_command := ShutdownCmd (CTimeout secs) |})
    (λ t o, answered_by_server t → printed t = [] ∧ ∃ e, o = Done (Err e)).
Proof.
  unfold main. simpl. intros [u|e]; simpl; [|by eauto].
  intros [r|e]; simpl; [|by eauto]. intros [] [_ Hf]%Forall_cons.
  apply Forall_cons in Hf as [(t' & Hex) _]. simpl in Hex. by destruct Hex as [_ [=]].
Qed.

(** [ebctl publish] makes one call, for the topic, the addressee and the
    bytes of the payload (or of the standard input for a payload of [-]),
    and reports the message id exactly when the server answered with one. *)
Theorem publish_command_publishes addr token topic payload broadcast to_worker :
  wp (main {| cli_addr := addr; cli_token := token;
              cli_command := PublishCmd topic payload broadcast to_worker |})
    (λ t o, ∃ r, o = Done r ∧
      match orders t with
      | [] => is_ok r = false ∧ printed t = []
      | [inr req] =>
          pr_topic req = topic ∧ pr_broadcast req = broadcast ∧
          pr_to_worker req = default "" to_worker ∧
          (payload ≠ "-" → pr_payload req = as_bytes payload) ∧
          (if is_ok r then ∃ i, printed t = [LPublished topic i] else printed t = [])
      | _ => False
      end).
Proof.
  unfold main, run_command, rpc, println. cbn [cli_addr cli_token cli_command bind call wp].
  intros [u|e]; cbn [bind bind_ok wp map_err]; [|by eexists].
  destruct (decide (payload = "-")) as [Hp|Hp]; cbn [bind bind_ok call wp map_err].
  - intros [b|e]; cbn [bind bind_ok call wp map_err]; [|by eexists].
    intros [i|e]; cbn [bind bind_ok call wp map_err]; [intros []|]; (eexists; split; [done|]);
      (split_and!; [done..|]); [by eexists|done].
  - intros [i|e]; cbn [bind bind_ok call wp map_err]; [intros []|]; (eexists; split; [done|]);
      (split_and!; [done..|]); [by eexists|done].
Qed.

(** The table of [ebctl metrics] lists every topic that any of the maps
    has, once and in alphabetical order. *)
Theorem collect_keys_spec maps :
  Sorted String.le (collect_keys maps) ∧ NoDup (collect_keys maps) ∧
  ∀ k, k ∈ collect_keys maps ↔ ∃ m, m ∈ maps ∧ is_Some (m !! k).
Proof.
  unfold collect_keys. split_and!.
  - apply Sorted_merge_sort, _.
  - rewrite merge_sort_Permutation. apply NoDup_elements.
  - intros k. rewrite merge_sort_Permutation, elem_of_elements.
    induction maps as [|m maps IH]; simpl; [set_solver|].
    rewrite elem_of_union, IH, elem_of_dom. setoid_rewrite elem_of_cons. naive_solver.
Qed.
End answer.

Close Scope string_scope.
