(* ===== verification/Locks.v ===== *)
(** * The locks around the routers

    The global routers sit behind [tokio::sync::RwLock].  That lock is
    documented to be fair: requests queue, and one is granted when it is at
    the head of the queue and does not conflict with the guards that are held
    ([lock_step]).  A task is the list of lock operations its code performs in
    order; the tasks of a node interleave freely ([sys_step]).

    [main_loop_task] is the task of [start_system.rs] that runs the main loop
    under a read guard, [scheduler_task] the delay scheduler of [topic.rs],
    and [remove_workers_task] and [register_topics_task] the tasks that ask
    for the write guard. *)
From S2P Require Import Prelude.

Open Scope string_scope.
Open Scope list_scope.

(** ** A fair lock *)

Inductive Kind : Type := KRead | KWrite.
#[export] Instance Kind_eq_dec : EqDecision Kind.
Proof. solve_decision. Defined.

Abbreviation TaskId := nat.

Record Lock : Type := {
  held : list (TaskId * Kind);
  waiting : list (TaskId * Kind)
}.

Definition free_lock : Lock := {| held := []; waiting := [] |}.

(** Guards that may be held together. *)
Definition compatible (k : Kind) (l : Lock) : bool :=
  match k with
  | KRead => forallb (λ g, bool_decide (g.2 = KRead)) (held l)
  | KWrite => bool_decide (held l = [])
  end.

(** ** Tasks *)

Inductive LOp : Type :=
| Acquire (lock : string) (k : Kind)
| Drop (lock : string) (k : Kind)
| Work
| Forever.

Record Sys : Type := {
  tasks : gmap TaskId (list LOp);
  locks : gmap string Lock
}.

Definition lock_of (n : string) (s : Sys) : Lock := default free_lock (locks s !! n).

Definition set_task t ops (s : Sys) : Sys := {| tasks := <[t := ops]> (tasks s); locks := locks s |}.
Definition set_lock n l (s : Sys) : Sys := {| tasks := tasks s; locks := <[n := l]> (locks s) |}.

Definition with_held h (l : Lock) : Lock := {| held := h; waiting := waiting l |}.

(** One step of one task, or one grant. *)
Inductive sys_step : Sys → Sys → Prop :=
| StepRequest s t n k ops :
    tasks s !! t = Some (Acquire n k :: ops) → (t, k) ∉ waiting (lock_of n s) →
    sys_step s (set_lock n {| held := held (lock_of n s);
                              waiting := waiting (lock_of n s) ++ [(t, k)] |} s)
| StepGrant s t n k ops ws :
    tasks s !! t = Some (Acquire n k :: ops) → waiting (lock_of n s) = (t, k) :: ws →
    compatible k (lock_of n s) = true →
    sys_step s (set_task t ops (set_lock n {| held := (t, k) :: held (lock_of n s);
                                              waiting := ws |} s))
| StepDrop s t n k ops l1 l2 :
    tasks s !! t = Some (Drop n k :: ops) → held (lock_of n s) = l1 ++ (t, k) :: l2 →
    sys_step s (set_task t ops (set_lock n (with_held (l1 ++ l2) (lock_of n s)) s))
| StepWork s t ops :
    tasks s !! t = Some (Work :: ops) → sys_step s (set_task t ops s)
| StepForever s t ops :
    tasks s !! t = Some (Forever :: ops) → sys_step s s.

Abbreviation reaches := (rtc sys_step).

(** ** The tasks of a node *)

Definition CONSUMER_ROUTER : string := "ConsumerRouter".
Definition TOPIC_ROUTER : string := "TopicRouter".

(** [ConsumerRouter::global().read().await.recv().await]: the guard lives
    until [recv] returns, and [recv] is a loop without an end. *)
Definition main_loop_task : list LOp := [Acquire CONSUMER_ROUTER KRead; Forever].

(** [let router = TopicRouter::global().read().await; loop { .. }]. *)
Definition scheduler_task : list LOp := [Acquire TOPIC_ROUTER KRead; Forever].

(** [shutdown_force]: the list of workers under a read guard, then one
    [del_worker] under a write guard for each. *)
Fixpoint remove_each (workers : nat) : list LOp :=
  match workers with
  | O => []
  | S n => [Work; Acquire CONSUMER_ROUTER KWrite; Work; Drop CONSUMER_ROUTER KWrite] ++ remove_each n
  end.
Definition remove_workers_task (workers : nat) : list LOp :=
  [Acquire CONSUMER_ROUTER KRead; Work; Drop CONSUMER_ROUTER KRead] ++ remove_each workers.

(** The handlers of topic discovery and synchronisation: the list under a
    read guard, then one [register_topic] under a write guard for each topic
    that is missing. *)
Fixpoint register_each (missing : nat) : list LOp :=
  match missing with
  | O => []
  | S n => [Acquire TOPIC_ROUTER KWrite; Work; Drop TOPIC_ROUTER KWrite] ++ register_each n
  end.
Definition register_topics_task (missing : nat) : list LOp :=
  [Acquire TOPIC_ROUTER KRead; Work; Drop TOPIC_ROUTER KRead] ++ register_each missing.

(** ** A guard that is never dropped *)

(** Task [t] holds a read guard of lock [n] and has nothing left to do but
    to loop. *)
Definition parked (t : TaskId) (n : string) (s : Sys) : Prop :=
  tasks s !! t = Some [Forever] ∧ (t, KRead) ∈ held (lock_of n s).

Lemma lock_of_set n n' l s : lock_of n (set_lock n' l s) = if decide (n = n') then l else lock_of n s.
Proof.
  unfold lock_of, set_lock. simpl. case_decide as E; [by rewrite E, lookup_insert_eq|].
  by rewrite lookup_insert_ne.
Qed.

Lemma lock_of_task n t ops s : lock_of n (set_task t ops s) = lock_of n s.
Proof. done. Qed.

Lemma tasks_other t t' ops s : t ≠ t' → tasks (set_task t' ops s) !! t = tasks s !! t.
Proof. intros. simpl. by rewrite lookup_insert_ne. Qed.

Lemma parked_step t n s s' : sys_step s s' → parked t n s → parked t n s'.
Proof.
  intros Hs [Ht Hh]. destruct Hs as [s t' n' k ops Ht' _|s t' n' k ops ws Ht' Hw _|
    s t' n' k ops l1 l2 Ht' Hl|s t' ops Ht'|s t' ops Ht']; [| | | |done];
    (assert (t' = t → False) as Hne by (intros ->; congruence)).
  - split; [done|]. rewrite lock_of_set. case_decide; [by subst|done].
  - split; [by rewrite tasks_other by auto|]. rewrite lock_of_task, lock_of_set.
    case_decide; [|done]. subst. by constructor.
  - split; [by rewrite tasks_other by auto|]. rewrite lock_of_task, lock_of_set.
    case_decide; [|done]. subst. simpl. rewrite Hl in Hh. set_solver.
  - split; [by rewrite tasks_other by auto|done].
Qed.

Lemma parked_reaches t n s s' : reaches s s' → parked t n s → parked t n s'.
Proof. induction 1; eauto using parked_step. Qed.

Lemma parked_blocks t n s : parked t n s → compatible KWrite (lock_of n s) = false.
Proof.
  intros [_ Hh]. simpl. apply bool_decide_eq_false. intros He. rewrite He in Hh.
  by apply not_elem_of_nil in Hh.
Qed.

(** A task that asks for the write guard of the lock stays where it is. *)
Lemma writer_stuck_step t n s s' u ops :
  sys_step s s' → parked t n s → tasks s !! u = Some (Acquire n KWrite :: ops) →
  tasks s' !! u = Some (Acquire n KWrite :: ops).
Proof.
  intros Hs Hp Hu. pose proof (parked_blocks t n s Hp) as Hb.
  destruct Hs as [s t' n' k ops' Ht' _|s t' n' k ops' ws Ht' Hw Hc|
    s t' n' k ops' l1 l2 Ht' Hl|s t' ops' Ht'|s t' ops' Ht']; [done| | | |done];
    (destruct (decide (u = t')) as [->|Hne]; [|by rewrite tasks_other by auto]);
    rewrite Hu in Ht'; simplify_eq. congruence.
Qed.

(** The queue behind a writer that is stuck. *)
Definition queued_behind (n : string) (u : TaskId) (l2 : list (TaskId * Kind)) (s : Sys) : Prop :=
  ∃ l1 l3, waiting (lock_of n s) = l1 ++ (u, KWrite) :: l2 ++ l3.

Lemma queue_stuck_step t n s s' u ops l2 :
  sys_step s s' → parked t n s → tasks s !! u = Some (Acquire n KWrite :: ops) →
  queued_behind n u l2 s → queued_behind n u l2 s'.
Proof.
  intros Hs Hp Hu (l1 & l3 & Hq). pose proof (parked_blocks t n s Hp) as Hb.
  destruct Hs as [s t' n' k ops' Ht' _|s t' n' k ops' ws Ht' Hw Hc|
    s t' n' k ops' a b Ht' Hl|s t' ops' Ht'|s t' ops' Ht']; unfold queued_behind.
  - rewrite lock_of_set. case_decide; [|by eauto]. subst. simpl.
    exists l1, (l3 ++ [(t', k)])%list. rewrite Hq, <- app_assoc. simpl. by rewrite <- app_assoc.
  - rewrite lock_of_task, lock_of_set. case_decide; [|by eauto]. subst. simpl.
    rewrite Hq in Hw. destruct l1 as [|x l1]; simpl in Hw; injection Hw as ? ?; simplify_eq.
    + congruence.
    + by exists l1, l3.
  - rewrite lock_of_task, lock_of_set. case_decide; [|by eauto]. subst. simpl. by eauto.
  - rewrite lock_of_task. by eauto.
  - by eauto.
Qed.

Lemma stuck_forever t n s s' u ops l2 :
  reaches s s' → parked t n s → tasks s !! u = Some (Acquire n KWrite :: ops) →
  queued_behind n u l2 s →
  tasks s' !! u = Some (Acquire n KWrite :: ops) ∧ queued_behind n u l2 s'.
Proof.
  intros Hr. induction Hr as [|s s1 s' Hs _ IH]; [done|]. intros Hp Hu Hq.
  apply IH; [by eapply parked_step|by eapply writer_stuck_step|by eapply queue_stuck_step].
Qed.
(** ** The main loop and the delay scheduler *)

(** The three states of the task of the main loop: before its request, in
    the queue, with its guard. *)
Lemma started_parks t n s s' ops :
  tasks s !! t = Some [Acquire n KRead; Forever] → reaches s s' →
  tasks s' !! t = Some ops →
  ops = [Acquire n KRead; Forever] ∨ parked t n s'.
Proof.
  intros Ht Hr. revert ops.
  assert (tasks s' !! t = Some [Acquire n KRead; Forever] ∨ parked t n s') as [Hs|Hp].
  { assert (tasks s !! t = Some [Acquire n KRead; Forever] ∨ parked t n s) as H0 by auto.
    clear Ht. induction Hr as [|s s1 s' Hs _ IH]; [done|]. apply IH.
    destruct H0 as [Ht|Hp]; [|right; by eapply parked_step].
    destruct Hs as [s t' n' k ops Ht' _|s t' n' k ops ws Ht' Hw _|
      s t' n' k ops l1 l2 Ht' Hl|s t' ops Ht'|s t' ops Ht']; [by left| | | |by left];
      (destruct (decide (t = t')) as [->|Hne]; [|left; by rewrite tasks_other by auto]);
      rewrite Ht in Ht'; simplify_eq.
    right. split; [by simpl; rewrite lookup_insert_eq|].
    rewrite lock_of_task, lock_of_set, decide_True by done. by constructor. }
  - intros ops Hops. left. congruence.
  - intros ops _. by right.
Qed.

(** C27. Once the main loop has its guard, no task ever removes a worker: a task
    that has asked for the write guard of the consumer router waits for it in
    every continuation, and so do all requests behind it, reads included. *)
Theorem main_loop_guard_starves_writers s0 main s u ops behind s' :
  tasks s0 !! main = Some main_loop_task → reaches s0 s →
  tasks s !! main = Some [Forever] →
  tasks s !! u = Some (Acquire CONSUMER_ROUTER KWrite :: ops) →
  queued_behind CONSUMER_ROUTER u behind s → reaches s s' →
  tasks s' !! u = Some (Acquire CONSUMER_ROUTER KWrite :: ops) ∧
  queued_behind CONSUMER_ROUTER u behind s'.
Proof.
  intros Hm Hr Hf Hu Hq Hr'.
  destruct (started_parks main _ _ _ _ Hm Hr Hf) as [Hbad|Hp]; [discriminate Hbad|].
  by eapply stuck_forever.
Qed.

(** The same for the delay scheduler of a host: no topic learnt from another
    node is ever registered. *)
Theorem scheduler_guard_starves_writers s0 sched s u ops behind s' :
  tasks s0 !! sched = Some scheduler_task → reaches s0 s →
  tasks s !! sched = Some [Forever] →
  tasks s !! u = Some (Acquire TOPIC_ROUTER KWrite :: ops) →
  queued_behind TOPIC_ROUTER u behind s → reaches s s' →
  tasks s' !! u = Some (Acquire TOPIC_ROUTER KWrite :: ops) ∧
  queued_behind TOPIC_ROUTER u behind s'.
Proof.
  intros Hm Hr Hf Hu Hq Hr'.
  destruct (started_parks sched _ _ _ _ Hm Hr Hf) as [Hbad|Hp]; [discriminate Hbad|].
  by eapply stuck_forever.
Qed.

(** ** An execution: a shutdown of one worker, then a dispatcher *)

Definition reader_task : list LOp := [Acquire CONSUMER_ROUTER KRead; Work; Drop CONSUMER_ROUTER KRead].

Definition demo_sys : Sys :=
  {| tasks := {[0%nat := main_loop_task; 1%nat := remove_workers_task 1; 2%nat := reader_task]};
     locks := ∅ |}.

(** The main loop runs, the shutdown has listed the workers and waits for
    the write guard, a reader has come after it. *)
Definition demo_blocked : Sys :=
  {| tasks := {[0%nat := [Forever];
                1%nat := [Acquire CONSUMER_ROUTER KWrite; Work; Drop CONSUMER_ROUTER KWrite];
                2%nat := reader_task]};
     locks := {[CONSUMER_ROUTER := {| held := [(0%nat, KRead)];
                                      waiting := [(1%nat, KWrite); (2%nat, KRead)] |}]} |}.

Ltac ask t := eapply rtc_l;
  [eapply (StepRequest _ t); [vm_compute; reflexivity|by apply (bool_decide_unpack _)]|].
Ltac obtain t := eapply rtc_l;
  [eapply (StepGrant _ t); [vm_compute; reflexivity|vm_compute; reflexivity|vm_compute; reflexivity]|].
Ltac work t := eapply rtc_l; [eapply (StepWork _ t); vm_compute; reflexivity|].

Lemma demo_reaches_blocked : reaches demo_sys demo_blocked.
Proof.
  ask 0%nat. obtain 0%nat. ask 1%nat. obtain 1%nat. work 1%nat.
  eapply rtc_l; [eapply (StepDrop _ 1%nat _ _ _ []); vm_compute; reflexivity|].
  work 1%nat. ask 1%nat. ask 2%nat.
  match goal with |- rtc _ ?x _ => assert (x = demo_blocked) as -> by (vm_compute; reflexivity) end.
  apply rtc_refl.
Qed.

Lemma main_loop_guard_starves_writers_witness :
  reaches demo_sys demo_blocked ∧
  tasks demo_blocked !! 1%nat =
    Some [Acquire CONSUMER_ROUTER KWrite; Work; Drop CONSUMER_ROUTER KWrite] ∧
  queued_behind CONSUMER_ROUTER 1%nat [(2%nat, KRead)] demo_blocked.
Proof.
  split; [exact demo_reaches_blocked|].
  apply (main_loop_guard_starves_writers demo_sys 0%nat demo_blocked 1%nat
    [Work; Drop CONSUMER_ROUTER KWrite] [(2%nat, KRead)] demo_blocked).
  - vm_compute. reflexivity.
  - exact demo_reaches_blocked.
  - vm_compute. reflexivity.
  - vm_compute. reflexivity.
  - exists [], []. vm_compute. reflexivity.
  - apply rtc_once. by apply (StepForever _ 0%nat []).
Defined.

Close Scope list_scope.
Close Scope string_scope.
