(* ===== verification/RouterLocks.v ===== *)
(** * The locks inside the consumer router

    The tables of [ConsumerRouter] have a lock each, and its methods take
    several of them.  Each method is the list of lock operations its body
    performs ([call_ops], [del_worker_ops]); the callers of the repository hold
    a guard of the global router around one call or several ([caller_ops]),
    the main loop one it never gives back, the dispatchers none ([job_ops]).
    [disciplined] is an order on the locks that is enough for such tasks to
    finish, whatever their number and interleaving, but for what waits for the
    guards of the endless loops ([router_calls_finish]); without the write
    guard around [del_worker] two calls can wait for each other for ever
    ([del_worker_deadlocks]).

    Between the lock operations the bodies do other work, some of it
    asynchronous: they send to a queue, make one, claim from one.  [Work]
    stands for such a step and returns; the claim of the main loop, which may
    wait for ever, is [Forever].  What the never-ending guard of the main loop
    does to the writers is the subject of [Locks]. *)
From S2P Require Import Prelude Runtime Locks.

Open Scope string_scope.
Open Scope list_scope.

(** ** The methods *)

Definition LOCAL_TOPICS : string := "local_topics".
Definition WORKER_INDEX : string := "worker_index".
Definition IDLE_WORKERS : string := "idle_workers".
Definition LOCAL_INBOXES : string := "local_inboxes".
Definition DISPATCH_WORKERS : string := "dispatch_workers".
Definition DISPATCH_ENABLED : string := "dispatch_enabled".
Definition CONSUMER : string := "consumer".

(** A guard around some code. *)
Definition within (n : string) (k : Kind) (body : list LOp) : list LOp :=
  [Acquire n k] ++ body ++ [Drop n k].

(** The methods but for [del_worker]. *)
Inductive RouterCall : Type :=
| CRegister
| CSetPipeline
| CGetHandler
| CSelectIdle
| CRegisterWorker (known : bool)
| CCreateWorker (found known announced : bool)
| CEphemeral
| CGetWorker
| CGetWorkers
| CGetAllWorkers
| CDelWorkers (workers : nat)
| CSetIdle
| CSetWorking.

(** [register_worker]. *)
Definition register_worker_ops (known : bool) : list LOp :=
  within LOCAL_TOPICS KWrite (within WORKER_INDEX KWrite
    (Work :: if known then within DISPATCH_WORKERS KWrite [Work] else [])).

Definition select_idle_ops : list LOp :=
  within IDLE_WORKERS KWrite (within WORKER_INDEX KRead [Work]).

(** [del_worker]: the index, the inboxes for one statement, the topics, the
    workers of the dispatch. *)
Definition del_worker_ops (found : bool) : list LOp :=
  within WORKER_INDEX KWrite (Work :: if found then
    within LOCAL_INBOXES KWrite [Work] ++
    within LOCAL_TOPICS KWrite (Work :: within DISPATCH_WORKERS KWrite [Work])
  else []).

Definition create_worker_ops (found known announced : bool) : list LOp :=
  within LOCAL_TOPICS KRead [Work] ++
  if found then
    within LOCAL_INBOXES KWrite [Work] ++ within DISPATCH_ENABLED KWrite [Work] ++
    register_worker_ops known ++
    (if announced then within TOPIC_ROUTER KRead [Work] else [])
  else [].

Definition del_workers_ops (workers : nat) : list LOp :=
  within LOCAL_TOPICS KWrite (within WORKER_INDEX KWrite
    (mjoin (replicate workers (Work :: within LOCAL_INBOXES KWrite [Work])) ++
     within DISPATCH_WORKERS KWrite [Work] ++ within DISPATCH_ENABLED KWrite [Work])).

(** One message of [recv]: nothing more for a topic that is not served;
    otherwise by whether it has a target and whether the topics are read again,
    for a relay or for an ephemeral worker. *)
Definition recv_message_ops (m : option (bool * bool)) : list LOp :=
  within LOCAL_TOPICS KRead [Work] ++
  match m with
  | None => []
  | Some (targeted, again) =>
      (if targeted then within WORKER_INDEX KRead [Work] else select_idle_ops) ++
      (if again then within LOCAL_TOPICS KRead [Work] else [])
  end.

Definition call_ops (c : RouterCall) : list LOp :=
  match c with
  | CRegister | CSetPipeline => within LOCAL_TOPICS KWrite [Work]
  | CGetHandler | CEphemeral => within LOCAL_TOPICS KRead [Work]
  | CSelectIdle => select_idle_ops
  | CRegisterWorker known => register_worker_ops known
  | CCreateWorker found known announced => create_worker_ops found known announced
  | CGetWorker | CGetAllWorkers => within WORKER_INDEX KRead [Work]
  | CGetWorkers => within LOCAL_TOPICS KRead (within WORKER_INDEX KRead [Work])
  | CDelWorkers workers => del_workers_ops workers
  | CSetIdle | CSetWorking => within IDLE_WORKERS KWrite [Work]
  end.

(** One iteration of [recv]: the batch is claimed and, unless it is empty,
    settled under the lock of the consumer. *)
Definition recv_round_ops (batch : list (option (bool * bool))) : list LOp :=
  within CONSUMER KWrite [Work] ++ mjoin (recv_message_ops <$> batch) ++
  (if decide (batch = []) then [] else within CONSUMER KWrite [Work]).

(** ** The callers *)

(** What [register_all] does under its guard: a topic is registered, the
    workers of one are spawned once its handler was found, the audit manager
    is asked for its writers. *)
Definition AUDIT_MANAGER : string := "AuditManager".

Inductive Setup : Type :=
| SRegister
| SSpawn (found : bool) (workers : list (bool * bool))
| SWriters.

Definition setup_ops (x : Setup) : list LOp :=
  match x with
  | SRegister => call_ops CRegister
  | SSpawn found workers =>
      call_ops CGetHandler ++
      (if found then mjoin ((λ b, call_ops (CCreateWorker true b.1 b.2)) <$> workers) else [])
  | SWriters => within AUDIT_MANAGER KRead [Work]
  end.

(** Its steps for either role, when none of them fails: a [?] that returns
    leaves out the rest. *)
Definition system_workers : Setup := SSpawn true (replicate 32 (true, true)).
Definition worker_role_setup : list Setup :=
  [SRegister; SRegister; SRegister; system_workers; system_workers; system_workers].
Definition host_role_setup (audit trace : bool) : list Setup :=
  [SWriters] ++ (if audit then [SRegister; system_workers] else []) ++
  (if trace then [SRegister; system_workers] else []) ++
  mjoin (replicate 3 [SRegister; system_workers]) ++ replicate 4 SRegister ++
  replicate 4 system_workers.

Definition register_all_ops (l : list Setup) : list LOp :=
  within CONSUMER_ROUTER KWrite (mjoin (setup_ops <$> l)).

(** The [register_fn] that [#[handler]] generates. *)
Definition register_fn_ops (registered : bool) (workers : list (bool * bool)) : list LOp :=
  within CONSUMER_ROUTER KWrite (call_ops CRegister ++
    if registered then
      within TOPIC_ROUTER KWrite [Work] ++
      mjoin ((λ b, call_ops (CCreateWorker true b.1 b.2)) <$> workers)
    else []).

(** [Worker::set_status]; the cell of the worker's own status comes last. *)
Definition set_status_ops (st : WorkerStatus) : list LOp :=
  within CONSUMER_ROUTER KWrite
    (call_ops (match st with Idle => CSetIdle | Working => CSetWorking end)) ++ [Work].

(** The lists and look-ups of the strategies, the heartbeat and the metrics;
    a program may call the methods without a caller here the same way. *)
Definition read_call_ops (c : RouterCall) : list LOp :=
  within CONSUMER_ROUTER KRead (call_ops c).

(** One removal of a shutdown strategy. *)
Definition remove_worker_ops (found : bool) : list LOp :=
  within CONSUMER_ROUTER KWrite (del_worker_ops found).

Inductive Caller : Type :=
| ReadCall (c : RouterCall)
| RemoveWorker (found : bool)
| SetWorkerStatus (st : WorkerStatus)
| RegisterAll (l : list Setup)
| RegisterFn (registered : bool) (workers : list (bool * bool)).

Definition caller_ops (c : Caller) : list LOp :=
  match c with
  | ReadCall c => read_call_ops c
  | RemoveWorker found => remove_worker_ops found
  | SetWorkerStatus st => set_status_ops st
  | RegisterAll l => register_all_ops l
  | RegisterFn registered workers => register_fn_ops registered workers
  end.

(** The task of the main loop: [recv] under one read guard.  After some
    rounds it claims from a queue that stays empty, with the lock of the
    consumer. *)
Definition main_loop_ops (rounds : list (list (option (bool * bool)))) : list LOp :=
  [Acquire CONSUMER_ROUTER KRead] ++ mjoin (recv_round_ops <$> rounds) ++
  [Acquire CONSUMER KWrite; Forever].

(** A send through the global topic router. *)
Definition topic_send_ops : list LOp := within TOPIC_ROUTER KRead [Work].

(** The refresh of a dispatcher, which has its own handles of the tables. *)
Definition refresh_ops : list LOp :=
  within DISPATCH_WORKERS KWrite [Work] ++ within LOCAL_INBOXES KRead [Work].

(** What a task of the node may be: calls and sends one after the other, a
    dispatcher's refreshes, a handler that learns topics, or one of the two
    endless loops. *)
Inductive Job : Type :=
| JCalls (cs : list (option Caller))
| JRefresh (rounds : nat)
| JLearnTopics (missing : nat)
| JMainLoop (rounds : list (list (option (bool * bool))))
| JScheduler.

Definition call_or_send_ops (c : option Caller) : list LOp :=
  match c with Some c => caller_ops c | None => topic_send_ops end.

Definition job_ops (j : Job) : list LOp :=
  match j with
  | JCalls cs => mjoin (call_or_send_ops <$> cs)
  | JRefresh n => mjoin (replicate n refresh_ops)
  | JLearnTopics missing => register_topics_task missing
  | JMainLoop rounds => main_loop_ops rounds
  | JScheduler => scheduler_task
  end.

(** The guards a task never gives back. *)
Definition endless_guards (j : Job) : list string :=
  match j with
  | JMainLoop _ => [CONSUMER_ROUTER; CONSUMER]
  | JScheduler => [TOPIC_ROUTER]
  | _ => []
  end.

(** ** The order *)

Definition rank (n : string) : nat :=
  if decide (n = CONSUMER_ROUTER) then 0
  else if decide (n = CONSUMER) then 1
  else if decide (n = LOCAL_TOPICS) then 2
  else if decide (n = IDLE_WORKERS) then 3
  else if decide (n = WORKER_INDEX) then 4
  else if decide (n = LOCAL_INBOXES) then 5
  else if decide (n = DISPATCH_WORKERS) then 6
  else if decide (n = DISPATCH_ENABLED) then 7
  else 8%nat.

Definition Holds : Type := list (string * Kind).

(** The locks a loop may keep, besides the gate: they are asked for by tasks
    that hold at most the gate. *)
Definition outer (n : string) : bool := bool_decide (n ∈ [CONSUMER; TOPIC_ROUTER]).

(** A task that holds something may ask for a lock only under the gate: the
    writer of the gate for any lock it has not, a reader of the gate for
    locks above all that it has. *)
Definition may_acquire (h : Holds) (n : string) : bool :=
  (negb (outer n) || forallb (λ g, bool_decide (g.1 = CONSUMER_ROUTER)) h) &&
  (bool_decide (h = []) ||
   (bool_decide ((CONSUMER_ROUTER, KWrite) ∈ h) && bool_decide (n ∉ h.*1)) ||
   (bool_decide ((CONSUMER_ROUTER, KRead) ∈ h) && forallb (λ g, Nat.ltb (rank g.1) (rank n)) h)).

Definition without (g : string * Kind) (h : Holds) : Holds := filter (λ g', g' ≠ g) h.

(** [pin] are the locks that a loop may keep for ever. *)
Fixpoint disciplined (pin : list string) (h : Holds) (ops : list LOp) : bool :=
  match ops with
  | [] => bool_decide (h = [])
  | Acquire n k :: ops => may_acquire h n && disciplined pin ((n, k) :: h) ops
  | Drop n k :: ops => bool_decide ((n, k) ∈ h) && disciplined pin (without (n, k) h) ops
  | Work :: ops => disciplined pin h ops
  | Forever :: ops => bool_decide (ops = []) && forallb (λ g, bool_decide (g.1 ∈ pin)) h
  end.

(** Code that leaves what is held as it found it. *)
Definition balanced (pin : list string) (h : Holds) (body : list LOp) : Prop :=
  ∀ rest, disciplined pin h rest = true → disciplined pin h (body ++ rest) = true.

Lemma balanced_nil pin h : balanced pin h [].
Proof. by intros rest. Qed.

Lemma balanced_app pin h b b' : balanced pin h b → balanced pin h b' → balanced pin h (b ++ b').
Proof. intros Hb Hb' rest Hr. rewrite <- (assoc_L (++)). auto. Qed.

Lemma balanced_join pin h (l : list (list LOp)) :
  Forall (balanced pin h) l → balanced pin h (mjoin l).
Proof.
  induction 1 as [|b l Hb _ IH]; [apply balanced_nil|]. simpl. by apply balanced_app.
Qed.

Lemma balanced_each pin h {A} (f : A → list LOp) (l : list A) :
  (∀ x, balanced pin h (f x)) → balanced pin h (mjoin (f <$> l)).
Proof. intros Hf. apply balanced_join, Forall_fmap, Forall_true. exact Hf. Qed.

Lemma balanced_within pin h n k body :
  may_acquire h n = true → without (n, k) ((n, k) :: h) = h →
  balanced pin ((n, k) :: h) body → balanced pin h (within n k body).
Proof.
  intros Hm Hw Hb rest Hr. unfold within. rewrite <- !(assoc_L (++)). simpl. rewrite Hm. simpl.
  apply Hb. simpl. rewrite bool_decide_true by (by left). by rewrite Hw.
Qed.

Lemma balanced_disciplined pin body : balanced pin [] body → disciplined pin [] body = true.
Proof. intros Hb. rewrite <- (app_nil_r body). by apply Hb. Qed.

Abbreviation under_gate k := [(CONSUMER_ROUTER, k)].

#[local] Ltac evaluated := intros rest Hrest; vm_compute; exact Hrest.

Lemma call_balanced pin k c : balanced pin (under_gate k) (call_ops c).
Proof.
  destruct c as [| | | |[]|[] [] []| | | | |n| |], k; try evaluated;
    (apply balanced_within; [reflexivity..|]; apply balanced_within; [reflexivity..|];
     apply balanced_app; [|evaluated]; apply balanced_join, Forall_replicate; evaluated).
Qed.

Lemma setup_balanced pin x : balanced pin (under_gate KWrite) (setup_ops x).
Proof.
  destruct x as [|[] workers|]; [evaluated| |evaluated..].
  apply balanced_app; [apply call_balanced|]. apply balanced_each. intros b. apply call_balanced.
Qed.

#[local] Ltac under_the_gate := apply balanced_within; [reflexivity..|].

Lemma caller_balanced pin c : balanced pin [] (caller_ops c).
Proof.
  destruct c as [c|[]|[]|l|[] workers]; try evaluated; under_the_gate.
  - apply call_balanced.
  - apply balanced_each, setup_balanced.
  - apply balanced_app; [apply call_balanced|]. apply balanced_app; [evaluated|].
    apply balanced_each. intros b. apply call_balanced.
Qed.

Lemma recv_round_balanced pin batch : balanced pin (under_gate KRead) (recv_round_ops batch).
Proof.
  apply balanced_app; [evaluated|]. apply balanced_app.
  - apply balanced_each. intros [[[] []]|]; evaluated.
  - case_decide; evaluated.
Qed.

Lemma learn_topics_balanced pin missing : balanced pin [] (register_topics_task missing).
Proof.
  apply balanced_app; [evaluated|].
  induction missing as [|n IH]; [apply balanced_nil|]. apply balanced_app; [evaluated|exact IH].
Qed.

Lemma job_disciplined pin j :
  Forall (λ n, n ∈ pin) (endless_guards j) → disciplined pin [] (job_ops j) = true.
Proof.
  destruct j as [cs|n|n|rounds|]; intros Hpin.
  - apply balanced_disciplined, balanced_each. intros [c|]; [apply caller_balanced|evaluated].
  - apply balanced_disciplined, balanced_join, Forall_replicate. evaluated.
  - apply balanced_disciplined, learn_topics_balanced.
  - simpl. apply (balanced_each pin (under_gate KRead) recv_round_ops rounds);
      [apply recv_round_balanced|].
    simpl. apply Forall_cons in Hpin as [Hr Hpin]. apply Forall_cons in Hpin as [Hc _].
    by rewrite !bool_decide_true.
  - simpl. apply Forall_cons in Hpin as [Ht _]. by rewrite bool_decide_true.
Qed.

(** ** Disciplined tasks finish *)

(** A lock is held by readers or by one writer. *)
Definition exclusive (l : Lock) : Prop :=
  NoDup (held l) ∧ ∀ t, (t, KWrite) ∈ held l → held l = [(t, KWrite)].

Record orderly (pin : list string) (holds : TaskId → Holds) (s : Sys) : Prop := {
  ord_tasks : ∀ t ops, tasks s !! t = Some ops → disciplined pin (holds t) ops = true;
  ord_none : ∀ t, tasks s !! t = None → holds t = [];
  ord_held : ∀ t n k, (t, k) ∈ held (lock_of n s) ↔ (n, k) ∈ holds t;
  ord_waiting : ∀ t n k, (t, k) ∈ waiting (lock_of n s) →
    ∃ ops, tasks s !! t = Some (Acquire n k :: ops);
  ord_queue : ∀ n, NoDup (waiting (lock_of n s));
  ord_exclusive : ∀ n, exclusive (lock_of n s)
}.

(** A step that changes something: not a turn of an endless loop. *)
Definition moves (s s' : Sys) : Prop := sys_step s s' ∧ s' ≠ s.

(** Only the endless loops go on. *)
Definition quiet (s : Sys) : Prop := ∀ s', sys_step s s' → s' = s.

Definition stuck (s : Sys) : Prop := ∀ s', ¬ sys_step s s'.

Lemma task_went_on s s' t op ops :
  tasks s !! t = Some (op :: ops) → tasks s' !! t = Some ops → s' ≠ s.
Proof.
  intros Ht Ht' ->. rewrite Ht in Ht'. injection Ht' as Heq.
  apply (f_equal length) in Heq. simpl in Heq. lia.
Qed.

Lemma set_task_went_on s t op ops l n :
  tasks s !! t = Some (op :: ops) → set_task t ops (set_lock n l s) ≠ s.
Proof. intros Ht. eapply task_went_on; [exact Ht|]. simpl. apply lookup_insert_eq. Qed.

Section orderly.
Context (pin : list string) (pin_outer : ∀ n, n ∈ pin → n = CONSUMER_ROUTER ∨ outer n = true).

(** A task that holds a lock another one waits for. *)
Lemma blocker holds s n k :
  orderly pin holds s → compatible k (lock_of n s) = false →
  ∃ v k', (n, k') ∈ holds v ∧ ∃ op ops, tasks s !! v = Some (op :: ops).
Proof.
  intros Ho Hc. assert (∃ g, g ∈ held (lock_of n s)) as [[v k'] Hg].
  { destruct (held (lock_of n s)) as [|g l] eqn:Hh; [|exists g; by left].
    destruct k; simpl in Hc; rewrite Hh in Hc; done. }
  apply (ord_held _ _ _ Ho) in Hg. exists v, k'. split; [done|].
  destruct (tasks s !! v) as [[|op ops]|] eqn:Hv.
  - apply (ord_tasks _ _ _ Ho) in Hv. simpl in Hv. apply bool_decide_eq_true in Hv.
    rewrite Hv in Hg. by apply not_elem_of_nil in Hg.
  - eauto.
  - apply (ord_none _ _ _ Ho) in Hv. rewrite Hv in Hg. by apply not_elem_of_nil in Hg.
Qed.

(** Some request for the lock cannot be granted. *)
Definition awaited (n : string) (s : Sys) : Prop := ∃ k, compatible k (lock_of n s) = false.

(** In a quiet system a task that is not finished is an endless loop, or it
    waits for a lock that is not free for the one at the head of its queue. *)
Lemma quiet_waits holds s t op ops :
  orderly pin holds s → quiet s → tasks s !! t = Some (op :: ops) →
  (op = Forever ∧ ops = [] ∧ ∀ n k, (n, k) ∈ holds t → n ∈ pin) ∨
  ∃ n k, op = Acquire n k ∧ awaited n s.
Proof.
  intros Ho Hs Ht. destruct op as [n k|n k| |].
  - right. exists n, k. split; [done|].
    destruct (decide ((t, k) ∈ waiting (lock_of n s))) as [Hin|Hnin].
    2:{ exfalso. pose proof (StepRequest _ _ _ _ _ Ht Hnin) as Hst. apply Hs in Hst.
        apply (f_equal (λ s, length (waiting (lock_of n s)))) in Hst.
        rewrite lock_of_set, decide_True in Hst by done. simpl in Hst.
        rewrite length_app in Hst. simpl in Hst. lia. }
    destruct (waiting (lock_of n s)) as [|[u k'] ws] eqn:Hw.
    { by apply not_elem_of_nil in Hin. }
    exists k'. destruct (compatible k' (lock_of n s)) eqn:Hc; [|done]. exfalso.
    destruct (ord_waiting _ _ _ Ho u n k') as [ops' Hu]; [rewrite Hw; by left|].
    eapply set_task_went_on; [exact Hu|]. apply Hs. by eapply StepGrant.
  - exfalso. pose proof Ht as Hd. apply (ord_tasks _ _ _ Ho) in Hd. simpl in Hd.
    apply andb_true_iff in Hd as [Hin%bool_decide_eq_true _].
    apply (ord_held _ _ _ Ho) in Hin. apply list_elem_of_split in Hin as (l1 & l2 & Hl).
    eapply set_task_went_on; [exact Ht|]. apply Hs. eapply StepDrop; [exact Ht|exact Hl].
  - exfalso. eapply task_went_on; [exact Ht| |apply Hs; by eapply StepWork].
    simpl. apply lookup_insert_eq.
  - left. apply (ord_tasks _ _ _ Ho) in Ht. simpl in Ht.
    apply andb_true_iff in Ht as [Hops%bool_decide_eq_true Hall]. split_and!; [done..|].
    intros n k Hn. rewrite forallb_forall in Hall. apply list_elem_of_In, Hall in Hn.
    by apply bool_decide_eq_true in Hn.
Qed.

(** Whoever is in the way is an endless loop, or waits for another lock under
    the gate. *)
Lemma blocker_waits holds s n :
  orderly pin holds s → quiet s → awaited n s →
  n ∈ pin ∨ ∃ v k n', (n, k) ∈ holds v ∧ awaited n' s ∧ may_acquire (holds v) n' = true.
Proof.
  intros Ho Hs [k Hk]. destruct (blocker holds s n k Ho Hk) as (v & k' & Hv & op & ops & Hops).
  destruct (quiet_waits holds s v op ops Ho Hs Hops) as [(_ & _ & Hpin)|(n' & k1 & -> & Hn')].
  - left. by eapply Hpin.
  - right. exists v, k', n'. split_and!; [done..|].
    apply (ord_tasks _ _ _ Ho) in Hops. simpl in Hops. by apply andb_true_iff in Hops as [? _].
Qed.

Lemma may_acquire_gate h n g :
  g ∈ h → may_acquire h n = true →
  (((CONSUMER_ROUTER, KWrite) ∈ h ∧ n ∉ h.*1) ∨
   ((CONSUMER_ROUTER, KRead) ∈ h ∧ Forall (λ g, rank g.1 < rank n)%nat h)) ∧
  (outer n = true → g.1 = CONSUMER_ROUTER).
Proof.
  intros Hg. unfold may_acquire. intros [Ho Hm]%andb_true_iff. split.
  - revert Hm. rewrite !orb_true_iff, !andb_true_iff, !bool_decide_eq_true.
    intros [[->|[? ?]]|[? Hf]]; [by apply not_elem_of_nil in Hg|by left|right]. split; [done|].
    apply Forall_forall. intros g' Hg'. apply Nat.ltb_lt.
    rewrite forallb_forall in Hf. apply Hf. by apply list_elem_of_In.
  - intros Hn. rewrite Hn in Ho. simpl in Ho. rewrite forallb_forall in Ho.
    apply list_elem_of_In, Ho in Hg. by apply bool_decide_eq_true in Hg.
Qed.

Lemma rank_le n : (rank n ≤ 8)%nat.
Proof. unfold rank. repeat case_decide; lia. Qed.

(** A lock of the tables. *)
Definition inner (n : string) : Prop := n ≠ CONSUMER_ROUTER ∧ outer n = false.

(** The holder of a lock other than the gate goes on to locks of the tables. *)
Lemma next_is_inner holds s v n k n' :
  orderly pin holds s → (n, k) ∈ holds v → n ≠ CONSUMER_ROUTER →
  may_acquire (holds v) n' = true → inner n'.
Proof.
  intros Ho Hv Hn Hm. destruct (may_acquire_gate _ _ _ Hv Hm) as [Hg Hout]. split.
  - intros ->. destruct Hg as [[Hw Hni]|[Hr Hf]].
    + apply Hni. apply list_elem_of_fmap. by exists (CONSUMER_ROUTER, KWrite).
    + rewrite Forall_forall in Hf. specialize (Hf _ Hr). simpl in Hf. lia.
  - destruct (outer n'); [|done]. by destruct (Hn (Hout eq_refl)).
Qed.

Lemma inner_blocker holds s n :
  orderly pin holds s → quiet s → inner n → awaited n s →
  ∃ v k n', (n, k) ∈ holds v ∧ awaited n' s ∧ inner n' ∧ may_acquire (holds v) n' = true.
Proof.
  intros Ho Hs [Hn Hout] Ha.
  destruct (blocker_waits _ _ _ Ho Hs Ha) as [Hp|(v & k & n' & Hv & Hn' & Hm)].
  - apply pin_outer in Hp as [?|?]; congruence.
  - exists v, k, n'. split_and!; [done..|by eapply next_is_inner|done].
Qed.

(** One task has the write guard of the gate: nothing else is under it. *)
Lemma writer_alone holds s w n :
  orderly pin holds s → quiet s → (CONSUMER_ROUTER, KWrite) ∈ holds w → inner n → ¬ awaited n s.
Proof.
  intros Ho Hs Hw. pose proof Hw as Hheld. apply (ord_held _ _ _ Ho) in Hheld.
  destruct (ord_exclusive _ _ _ Ho CONSUMER_ROUTER) as [_ Hex]. specialize (Hex w Hheld).
  assert (∀ v k, (CONSUMER_ROUTER, k) ∈ holds v → v = w ∧ k = KWrite) as Honly.
  { intros v k Hv. apply (ord_held _ _ _ Ho) in Hv. rewrite Hex in Hv.
    apply list_elem_of_singleton in Hv. by simplify_eq. }
  assert (∀ n, inner n → awaited n s →
    ∃ n', inner n' ∧ awaited n' s ∧ n ∈ (holds w).*1 ∧ n' ∉ (holds w).*1) as Hstep.
  { intros n0 Hi Ha. destruct (inner_blocker _ _ _ Ho Hs Hi Ha) as (v & k & n' & Hv & Hn' & Hi' & Hm).
    destruct (may_acquire_gate _ _ _ Hv Hm) as [[[Hg Hni]|[Hg _]] _];
      apply Honly in Hg as [-> ?]; [|done].
    exists n'. split_and!; [done..| |done]. apply list_elem_of_fmap. by exists (n0, k). }
  intros Hi Ha. destruct (Hstep n Hi Ha) as (n1 & Hi1 & Hn1 & _ & Hout).
  by destruct (Hstep n1 Hi1 Hn1) as (_ & _ & _ & Hin & _).
Qed.

Lemma readers_climb holds s n d :
  orderly pin holds s → quiet s → (∀ w, (CONSUMER_ROUTER, KWrite) ∉ holds w) →
  (8 - rank n ≤ d)%nat → inner n → ¬ awaited n s.
Proof.
  intros Ho Hs Hnw. revert n. induction d as [|d IH]; intros n Hd Hi Hn;
    destruct (inner_blocker _ _ _ Ho Hs Hi Hn) as (v & k & n' & Hv & Hn' & Hi' & Hm);
    (destruct (may_acquire_gate _ _ _ Hv Hm) as [[[Hg _]|[_ Hf]] _]; [by apply Hnw in Hg|]);
    rewrite Forall_forall in Hf; specialize (Hf _ Hv); simpl in Hf; pose proof (rank_le n').
  - lia.
  - apply (IH n'); [lia|done..].
Qed.

Lemma inner_free holds s n : orderly pin holds s → quiet s → inner n → ¬ awaited n s.
Proof.
  intros Ho Hs Hi Ha.
  assert (∀ w, (CONSUMER_ROUTER, KWrite) ∉ holds w) as Hnw.
  { intros w Hw. by eapply (writer_alone holds s w n). }
  eapply (readers_climb holds s n 8); try done. lia.
Qed.

(** What is awaited in a quiet system is kept by an endless loop, or it is
    the gate and a loop keeps something. *)
Lemma awaited_pinned holds s n :
  orderly pin holds s → quiet s → awaited n s → n ∈ pin ∨ (n = CONSUMER_ROUTER ∧ pin ≠ []).
Proof.
  intros Ho Hs Ha.
  assert (n ≠ CONSUMER_ROUTER → n ∈ pin) as Hne.
  { intros Hn. destruct (blocker_waits _ _ _ Ho Hs Ha) as [|(v & k & n' & Hv & Hn' & Hm)]; [done|].
    exfalso. eapply inner_free; [exact Ho|done|by eapply next_is_inner|done]. }
  destruct (decide (n = CONSUMER_ROUTER)) as [->|Hn]; [|by left; auto].
  destruct (blocker_waits _ _ _ Ho Hs Ha) as [|(v & k & n' & Hv & Hn' & Hm)]; [by left|].
  right. split; [done|]. intros Hpin.
  assert (outer n' = false → False) as Hout.
  { intros Hout. eapply (inner_free holds s n'); try done. split; [|done]. intros ->.
    destruct (may_acquire_gate _ _ _ Hv Hm) as [[[Hw Hni]|[Hr Hf]] _].
    - apply Hni. apply list_elem_of_fmap. by exists (CONSUMER_ROUTER, k).
    - rewrite Forall_forall in Hf. specialize (Hf _ Hr). simpl in Hf. lia. }
  destruct (blocker_waits _ _ _ Ho Hs Hn') as [Hp|(u & k2 & n2 & Hu & Hn2 & Hm2)].
  - rewrite Hpin in Hp. by apply not_elem_of_nil in Hp.
  - eapply (inner_free holds s n2); try done. eapply (next_is_inner holds s u n' k2); try done.
    intros ->. by apply Hout.
Qed.
End orderly.
Section kept.
Context (pin : list string).

(** *** The order is kept *)

Definition holds_with (t : TaskId) (h : Holds) (holds : TaskId → Holds) (u : TaskId) : Holds :=
  if decide (u = t) then h else holds u.

Lemma holds_with_same t h holds : holds_with t h holds t = h.
Proof. unfold holds_with. by rewrite decide_True. Qed.
Lemma holds_with_other t u h holds : u ≠ t → holds_with t h holds u = holds u.
Proof. intros. unfold holds_with. by rewrite decide_False. Qed.

Lemma may_acquire_fresh h n : may_acquire h n = true → n ∉ h.*1.
Proof.
  intros Hm (g & -> & Hg)%list_elem_of_fmap.
  destruct (may_acquire_gate _ _ _ Hg Hm) as [[[_ Hn]|[_ Hf]] _].
  - apply Hn. apply list_elem_of_fmap. by exists g.
  - rewrite Forall_forall in Hf. specialize (Hf g Hg). lia.
Qed.

(** The task and the lock a step is about change, the others do not. *)
Lemma orderly_update holds s t n l ops h :
  orderly pin holds s → is_Some (tasks s !! t) →
  disciplined pin h ops = true →
  (∀ u k, (u, k) ∈ held l ↔ if decide (u = t) then (n, k) ∈ h else (n, k) ∈ holds u) →
  (∀ n' k, n' ≠ n → (n', k) ∈ h ↔ (n', k) ∈ holds t) →
  (∀ n' k, n' ≠ n → (t, k) ∉ waiting (lock_of n' s)) →
  (∀ u k, (u, k) ∈ waiting l → u ≠ t ∧ (u, k) ∈ waiting (lock_of n s)) →
  NoDup (waiting l) → exclusive l →
  orderly pin (holds_with t h holds) (set_task t ops (set_lock n l s)).
Proof.
  intros Ho [ops0 Ht] Hd Hheld Hother Hnw Hwl Hnd Hex. split.
  - intros u ops'. simpl. unfold holds_with. case_decide as Hu; [subst|].
    + rewrite lookup_insert_eq. by intros [= <-].
    + rewrite lookup_insert_ne by done. apply (ord_tasks _ _ _ Ho).
  - intros u. simpl. unfold holds_with. case_decide as Hu; [subst|].
    + by rewrite lookup_insert_eq.
    + rewrite lookup_insert_ne by done. apply (ord_none _ _ _ Ho).
  - intros u n' k. rewrite lock_of_task, lock_of_set. unfold holds_with.
    destruct (decide (n' = n)) as [->|Hn]; [by rewrite Hheld; case_decide|].
    rewrite (ord_held _ _ _ Ho). case_decide; [|done]. subst. symmetry. by apply Hother.
  - intros u n' k. rewrite lock_of_task, lock_of_set. simpl.
    destruct (decide (n' = n)) as [->|Hn].
    + intros [Hu Hw]%Hwl. rewrite lookup_insert_ne by done. by apply (ord_waiting _ _ _ Ho).
    + intros Hw. destruct (decide (u = t)) as [->|Hu]; [by apply Hnw in Hw|].
      rewrite lookup_insert_ne by done. by apply (ord_waiting _ _ _ Ho).
  - intros n'. rewrite lock_of_task, lock_of_set. case_decide; [done|]. apply Ho.
  - intros n'. rewrite lock_of_task, lock_of_set. case_decide; [done|]. apply Ho.
Qed.

(** A task at an [Acquire] waits in no other queue; at another operation in
    none at all. *)
Lemma waits_at_head holds s t op ops n k :
  orderly pin holds s → tasks s !! t = Some (op :: ops) → (t, k) ∈ waiting (lock_of n s) →
  op = Acquire n k.
Proof. intros Ho Ht Hw. destruct (ord_waiting _ _ _ Ho _ _ _ Hw) as [ops' Ht']. congruence. Qed.

Lemma grant_exclusive t k l :
  exclusive l → compatible k l = true → (∀ k', (t, k') ∉ held l) →
  exclusive {| held := (t, k) :: held l; waiting := waiting l |}.
Proof.
  intros [Hnd Hex] Hc Hnew. split; simpl.
  - constructor; [by apply Hnew|done].
  - intros u Hu. destruct k; simpl in Hc.
    + exfalso. rewrite forallb_forall in Hc. apply list_elem_of_In in Hu as [Hu|Hu]; [done|].
      specialize (Hc _ Hu). by apply bool_decide_eq_true in Hc.
    + apply bool_decide_eq_true in Hc. rewrite Hc in *. apply list_elem_of_singleton in Hu.
      by rewrite Hu.
Qed.

Lemma elem_without n k n' k' h : (n', k') ∈ without (n, k) h ↔ (n', k') ∈ h ∧ (n', k') ≠ (n, k).
Proof. unfold without. rewrite list_elem_of_filter. tauto. Qed.

Lemma request_orderly holds s t n k ops :
  orderly pin holds s → tasks s !! t = Some (Acquire n k :: ops) → (t, k) ∉ waiting (lock_of n s) →
  ∃ holds', orderly pin holds' (set_lock n {| held := held (lock_of n s);
                                          waiting := waiting (lock_of n s) ++ [(t, k)] |} s).
Proof.
  intros Ho Ht Hnw.
  exists holds. split; try apply Ho.
  - intros u n' k'. rewrite lock_of_set. case_decide; [subst; simpl|]; apply Ho.
  - intros u n' k'. rewrite lock_of_set. case_decide; [subst; simpl|apply Ho].
    intros [Hin|Hin%list_elem_of_singleton]%elem_of_app; [by apply Ho|]. simplify_eq. eauto.
  - intros n'. rewrite lock_of_set. case_decide; [subst; simpl|apply Ho].
    apply NoDup_app. split; [apply Ho|]. split; [|apply NoDup_singleton].
    intros x Hx ->%list_elem_of_singleton. done.
  - intros n'. rewrite lock_of_set. case_decide; [subst|apply Ho]. apply (ord_exclusive _ _ _ Ho n).
Qed.

Lemma grant_orderly holds s t n k ops ws :
  orderly pin holds s → tasks s !! t = Some (Acquire n k :: ops) →
  waiting (lock_of n s) = (t, k) :: ws → compatible k (lock_of n s) = true →
  ∃ holds', orderly pin holds' (set_task t ops
    (set_lock n {| held := (t, k) :: held (lock_of n s); waiting := ws |} s)).
Proof.
  intros Ho Ht Hw Hc.
  pose proof Ht as Hd. apply (ord_tasks _ _ _ Ho) in Hd. simpl in Hd.
  apply andb_true_iff in Hd as [Hm Hd]. apply may_acquire_fresh in Hm.
  assert (∀ k', (n, k') ∉ holds t) as Hnew.
  { intros k' Hk. apply Hm. apply list_elem_of_fmap. by exists (n, k'). }
  pose proof (ord_queue _ _ _ Ho n) as Hq. rewrite Hw in Hq. apply NoDup_cons in Hq as [Hq1 Hq2].
  exists (holds_with t ((n, k) :: holds t) holds). apply orderly_update; simpl; try done.
  - intros u k'. rewrite elem_of_cons, (ord_held _ _ _ Ho). case_decide as Hu.
    + subst. rewrite elem_of_cons. split; (intros [[= ->]|?]; [by left|by right]).
    + split; [intros [[= ? ?]|?]; done|by right].
  - intros n' k' Hn. rewrite elem_of_cons. split; [intros [[= ? ?]|?]; done|by right].
  - intros n' k' Hn Hin. by apply (waits_at_head _ _ _ _ _ _ _ Ho Ht) in Hin as [= -> ->].
  - intros u k' Hin. rewrite Hw. split; [|by right]. intros ->.
    assert ((t, k') ∈ waiting (lock_of n s)) as Hin' by (rewrite Hw; by right).
    apply (waits_at_head _ _ _ _ _ _ _ Ho Ht) in Hin' as [= ->]. done.
  - pose proof (grant_exclusive t k (lock_of n s) (ord_exclusive _ _ _ Ho n) Hc) as Hg.
    destruct Hg as [Hg1 Hg2]; [|by split]. intros k' Hk. apply (ord_held _ _ _ Ho) in Hk. by apply Hnew in Hk.
Qed.

Lemma drop_orderly holds s t n k ops l1 l2 :
  orderly pin holds s → tasks s !! t = Some (Drop n k :: ops) →
  held (lock_of n s) = l1 ++ (t, k) :: l2 →
  ∃ holds', orderly pin holds' (set_task t ops (set_lock n (with_held (l1 ++ l2) (lock_of n s)) s)).
Proof.
  intros Ho Ht Hl.
  pose proof Ht as Hd. apply (ord_tasks _ _ _ Ho) in Hd. simpl in Hd.
  apply andb_true_iff in Hd as [Hin%bool_decide_eq_true Hd].
  destruct (ord_exclusive _ _ _ Ho n) as [Hnd Hex]. rewrite Hl in Hnd, Hex.
  apply NoDup_app in Hnd as (Hnd1 & Hdis & Hnd2). apply NoDup_cons in Hnd2 as [Hni Hnd2].
  exists (holds_with t (without (n, k) (holds t)) holds). apply orderly_update; simpl; try done.
  - intros u k'. pose proof (ord_held _ _ _ Ho u n k') as Hu. rewrite Hl in Hu.
    rewrite elem_of_app, elem_of_cons in Hu. rewrite elem_of_app. case_decide as Hut.
    + subst. rewrite elem_without, <- Hu. split.
      * intros Hor. split; [naive_solver|]. intros [= ->].
         destruct Hor as [Ho1|Ho1]; [|done]. apply (Hdis _ Ho1). by left.
      * intros [[?|[[= ->]|?]] ?]; naive_solver.
    + rewrite <- Hu. split; [naive_solver|]. intros [?|[[= ? ?]|?]]; naive_solver.
  - intros n' k' Hn. rewrite elem_without. split; [tauto|]. intros ?. split; [done|]. congruence.
  - intros n' k' Hn Hw. by apply (waits_at_head _ _ _ _ _ _ _ Ho Ht) in Hw.
  - intros u k' Hw. split; [|done]. intros ->. by apply (waits_at_head _ _ _ _ _ _ _ Ho Ht) in Hw.
  - apply (ord_queue _ _ _ Ho n).
  - split; simpl.
    + apply NoDup_app. split; [done|]. split; [|done]. intros x Hx Hx2. apply (Hdis x Hx). by right.
    + intros u Hu. exfalso. assert ((u, KWrite) ∈ l1 ++ (t, k) :: l2) as Hu'.
      { rewrite elem_of_app, elem_of_cons in *. naive_solver. }
      apply Hex in Hu'. destruct l1 as [|x [|]]; simplify_eq/=; set_solver.
Qed.

Lemma work_orderly holds s t ops :
  orderly pin holds s → tasks s !! t = Some (Work :: ops) → orderly pin holds (set_task t ops s).
Proof.
  intros Ho Ht.
  pose proof Ht as Hd. apply (ord_tasks _ _ _ Ho) in Hd.
  assert (∀ n k, (t, k) ∉ waiting (lock_of n s)) as Hnw.
  { intros n k Hw. by apply (waits_at_head _ _ _ _ _ _ _ Ho Ht) in Hw. }
  split; try apply Ho.
  - intros u ops'. simpl. destruct (decide (u = t)) as [->|Hu].
    + rewrite lookup_insert_eq. by intros [= <-].
    + rewrite lookup_insert_ne by done. apply Ho.
  - intros u. simpl. destruct (decide (u = t)) as [->|Hu].
    + by rewrite lookup_insert_eq.
    + rewrite lookup_insert_ne by done. apply Ho.
  - intros u n k Hw. rewrite lock_of_task in Hw. simpl.
    destruct (decide (u = t)) as [->|Hu]; [by apply Hnw in Hw|].
    rewrite lookup_insert_ne by done. by apply (ord_waiting _ _ _ Ho).
Qed.

Lemma orderly_step holds s s' : orderly pin holds s → sys_step s s' → ∃ holds', orderly pin holds' s'.
Proof.
  intros Ho Hs. destruct Hs; eauto using request_orderly, grant_orderly, drop_orderly, work_orderly.
Qed.

(** *** Every run is bounded *)

(** What is left of a task: two for each operation, and one unless it has
    asked for the lock it needs next. *)
Definition left_of (s : Sys) (t : TaskId) : nat :=
  match tasks s !! t with
  | Some (Acquire n k :: ops) =>
      2 * S (length ops) + if decide ((t, k) ∈ waiting (lock_of n s)) then 0 else 1
  | Some ops => 2 * length ops + 1
  | None => 0
  end%nat.

Definition left_over (ids : list TaskId) (s : Sys) : nat := sum_list (left_of s <$> ids).

Lemma sum_list_lt (f g : TaskId → nat) l t :
  t ∈ l → (∀ u, f u ≤ g u)%nat → (f t < g t)%nat → (sum_list (f <$> l) < sum_list (g <$> l))%nat.
Proof.
  intros Ht Hle Hlt. assert (∀ l, sum_list (f <$> l) ≤ sum_list (g <$> l))%nat as Hall.
  { induction l0 as [|u l0 IH]; csimpl; [lia|]. specialize (Hle u). lia. }
  induction l as [|u l IH]; csimpl; [by apply not_elem_of_nil in Ht|].
  apply elem_of_cons in Ht as [->|Ht]; [specialize (Hall l); lia|].
  specialize (IH Ht). specialize (Hle u). lia.
Qed.

Lemma left_of_le s t ops : tasks s !! t = Some ops → (left_of s t ≤ 2 * length ops + 1)%nat.
Proof. unfold left_of. intros ->. destruct ops as [|[]]; simpl; try case_decide; lia. Qed.

(** A step of [t] leaves the others what they had. *)
Lemma left_of_other s s' t u :
  u ≠ t → tasks s' !! u = tasks s !! u →
  (∀ n k, (u, k) ∈ waiting (lock_of n s') ↔ (u, k) ∈ waiting (lock_of n s)) →
  left_of s' u = left_of s u.
Proof.
  intros Hu Ht Hw. unfold left_of. rewrite Ht.
  destruct (tasks s !! u) as [[|[n k| | |] ops]|]; try done.
  destruct (decide _) as [Hd|Hd], (decide _) as [Hd'|Hd']; try done; by apply Hw in Hd || (exfalso; apply Hd; by apply Hw).
Qed.

Lemma step_left holds s s' :
  orderly pin holds s → moves s s' →
  ∃ t, is_Some (tasks s !! t) ∧ (left_of s' t < left_of s t)%nat ∧
    ∀ u, u ≠ t → left_of s' u = left_of s u.
Proof.
  intros Ho [Hs Hne]. destruct Hs as [s t n k ops Ht Hnw|s t n k ops ws Ht Hw Hc|
    s t n k ops l1 l2 Ht Hl|s t ops Ht|s t ops Ht]; [..|done]; exists t; (split; [by eexists|]).
  - split.
    + unfold left_of. simpl. rewrite Ht, lock_of_set.
      rewrite (decide_True (P := n = n)) by done. simpl.
      rewrite decide_True by set_solver. rewrite decide_False by done. lia.
    + intros u Hu. apply (left_of_other s _ t); [done..|]. intros n' k'. rewrite lock_of_set.
      case_decide; [subst; simpl|done]. set_solver.
  - split.
    + eapply Nat.le_lt_trans; [apply (left_of_le _ t ops); simpl; apply lookup_insert_eq|].
      unfold left_of. rewrite Ht. lia.
    + intros u Hu. apply (left_of_other s _ t); [done|by simpl; rewrite lookup_insert_ne|]. intros n' k'.
      rewrite lock_of_task, lock_of_set. case_decide; [subst; simpl|done]. rewrite Hw. set_solver.
  - split.
    + eapply Nat.le_lt_trans; [apply (left_of_le _ t ops); simpl; apply lookup_insert_eq|].
      unfold left_of. rewrite Ht. simpl. lia.
    + intros u Hu. apply (left_of_other s _ t); [done|by simpl; rewrite lookup_insert_ne|]. intros n' k'.
      rewrite lock_of_task, lock_of_set. case_decide; by subst.
  - split.
    + eapply Nat.le_lt_trans; [apply (left_of_le _ t ops); simpl; apply lookup_insert_eq|].
      unfold left_of. rewrite Ht. simpl. lia.
    + intros u Hu. apply (left_of_other s _ t); [done|by simpl; rewrite lookup_insert_ne|done].
Qed.

Lemma step_same_ids s s' t : sys_step s s' → is_Some (tasks s !! t) ↔ is_Some (tasks s' !! t).
Proof.
  intros Hs. destruct Hs as [s u n k ops Ht _|s u n k ops ws Ht _ _|s u n k ops l1 l2 Ht _|
    s u ops Ht|s u ops Ht]; simpl; [done| | | |done];
    (destruct (decide (u = t)) as [->|Hu];
      [rewrite Ht, lookup_insert_eq; naive_solver|by rewrite lookup_insert_ne]).
Qed.

Lemma same_ids m s s' t : nsteps moves m s s' → is_Some (tasks s !! t) → is_Some (tasks s' !! t).
Proof.
  induction 1 as [|m s s1 s' Hs _ IH]; [done|]. intros Ht. apply IH.
  by apply (step_same_ids s s1 t (proj1 Hs)).
Qed.

Definition finished (s : Sys) : Prop := ∀ t ops, tasks s !! t = Some ops → ops = [].

Lemma orderly_run holds s ids m s' :
  orderly pin holds s → (∀ t, is_Some (tasks s !! t) → t ∈ ids) → nsteps moves m s s' →
  (m ≤ left_over ids s)%nat ∧ ∃ holds', orderly pin holds' s'.
Proof.
  intros Ho Hids Hn. revert holds Ho Hids. induction Hn as [s|m s s1 s' Hs _ IH]; intros holds Ho Hids.
  { split; [lia|by exists holds]. }
  destruct (orderly_step _ _ _ Ho (proj1 Hs)) as [holds1 Ho1].
  destruct (IH holds1 Ho1) as [Hm Hex].
  { intros t Ht. apply Hids. eapply step_same_ids; [apply Hs|done]. }
  split; [|done]. destruct (step_left _ _ _ Ho Hs) as (t & Ht & Hlt & Hsame).
  assert (left_over ids s1 < left_over ids s)%nat; [|lia].
  apply (sum_list_lt _ _ _ t); [by apply Hids| |done].
  intros u. destruct (decide (u = t)) as [->|Hu]; [lia|]. by rewrite Hsame.
Qed.
End kept.

(** ** The tasks of a node *)

(** Any number of tasks on free locks. *)
Definition calls_sys (jobs : gmap TaskId Job) : Sys := {| tasks := job_ops <$> jobs; locks := ∅ |}.

(** The guards that the endless loops among them keep. *)
Definition pins (jobs : gmap TaskId Job) : list string :=
  (map_to_list jobs).*2 ≫= endless_guards.

Lemma elem_pins jobs n : n ∈ pins jobs ↔ ∃ t j, jobs !! t = Some j ∧ n ∈ endless_guards j.
Proof.
  unfold pins. rewrite list_elem_of_bind. split.
  - intros (j & Hn & Hj). apply list_elem_of_fmap in Hj as ([t j'] & -> & Ht).
    apply elem_of_map_to_list in Ht. eauto.
  - intros (t & j & Ht & Hn). exists j. split; [done|]. apply list_elem_of_fmap.
    exists (t, j). split; [done|]. by apply elem_of_map_to_list.
Qed.

Lemma pins_outer jobs n : n ∈ pins jobs → n = CONSUMER_ROUTER ∨ outer n = true.
Proof.
  intros (t & j & _ & Hn)%elem_pins. destruct j; simpl in Hn; try by apply not_elem_of_nil in Hn.
  - apply elem_of_cons in Hn as [->| ->%list_elem_of_singleton]; auto.
  - apply list_elem_of_singleton in Hn as ->. auto.
Qed.

Lemma calls_orderly jobs : orderly (pins jobs) (λ _, []) (calls_sys jobs).
Proof.
  split.
  - intros t ops. simpl. rewrite lookup_fmap. intros (j & Hj & ->)%fmap_Some.
    apply job_disciplined, Forall_forall. intros n Hn. apply elem_pins. by exists t, j.
  - done.
  - intros t n k. unfold lock_of. simpl. rewrite lookup_empty. simpl. set_solver.
  - intros t n k. unfold lock_of. simpl. rewrite lookup_empty. simpl. set_solver.
  - intros n. unfold lock_of. simpl. rewrite lookup_empty. constructor.
  - intros n. unfold lock_of. simpl. rewrite lookup_empty. split; [constructor|].
    simpl. intros t Ht. by apply not_elem_of_nil in Ht.
Qed.

(** What is left of a task is the end of what it was. *)
Definition is_rest_of (rest ops : list LOp) : Prop := ∃ pre, ops = pre ++ rest.

Lemma step_rest s s' t ops : sys_step s s' → tasks s' !! t = Some ops →
  ∃ ops0, tasks s !! t = Some ops0 ∧ is_rest_of ops ops0.
Proof.
  intros Hs. destruct Hs as [s u n k ops1 Ht _|s u n k ops1 ws Ht _ _|s u n k ops1 l1 l2 Ht _|
    s u ops1 Ht|s u ops1 Ht]; simpl; intros Ht';
    try (exists ops; split; [done|]; by exists []);
    (destruct (decide (u = t)) as [->|Hu];
      [rewrite lookup_insert_eq in Ht'; injection Ht' as ->; eexists; split; [exact Ht|];
       by eexists [_]
      |rewrite lookup_insert_ne in Ht' by done; exists ops; split; [done|]; by exists []]).
Qed.

Lemma run_rest m s s' t ops : nsteps moves m s s' → tasks s' !! t = Some ops →
  ∃ ops0, tasks s !! t = Some ops0 ∧ is_rest_of ops ops0.
Proof.
  intros Hn. revert ops. induction Hn as [s|m s s1 s' Hs _ IH]; intros ops Ht.
  { exists ops. split; [done|]. by exists []. }
  destruct (IH ops Ht) as (ops1 & Ht1 & pre1 & ->).
  destruct (step_rest _ _ _ _ (proj1 Hs) Ht1) as (ops0 & Ht0 & pre0 & ->).
  eexists. split; [exact Ht0|]. exists (pre0 ++ pre1). by rewrite (assoc_L (++)).
Qed.

(** A task that is not an endless loop. *)
Definition ends (o : LOp) : bool :=
  match o with
  | Forever => false
  | Acquire n _ => negb (bool_decide (n = CONSUMER))
  | _ => true
  end.
Definition all_end (ops : list LOp) : Prop := forallb ends ops = true.

Lemma all_end_app ops ops' : all_end ops → all_end ops' → all_end (ops ++ ops').
Proof. unfold all_end. rewrite forallb_app. by intros -> ->. Qed.

Lemma all_end_join (l : list (list LOp)) : Forall all_end l → all_end (mjoin l).
Proof. induction 1; [done|]. by apply all_end_app. Qed.

Lemma all_end_each {A} (f : A → list LOp) l : (∀ x, all_end (f x)) → all_end (mjoin (f <$> l)).
Proof. intros Hf. apply all_end_join, Forall_fmap, Forall_true. exact Hf. Qed.

Lemma all_end_within n k body : n ≠ CONSUMER → all_end body → all_end (within n k body).
Proof.
  intros Hn Hb. unfold within. apply all_end_app; [|by apply all_end_app].
  unfold all_end. simpl. by rewrite bool_decide_false.
Qed.

Lemma call_ends c : all_end (call_ops c).
Proof.
  destruct c as [| | | |[]|[] [] []| | | | |n| |]; try (vm_compute; reflexivity).
  apply all_end_within; [done|]. apply all_end_within; [done|].
  apply all_end_app; [|vm_compute; reflexivity]. apply all_end_join, Forall_replicate. done.
Qed.

Lemma caller_ends c : all_end (caller_ops c).
Proof.
  destruct c as [c|[]|[]|l|[] workers]; try (vm_compute; reflexivity);
    (apply all_end_within; [done|]).
  - apply call_ends.
  - apply all_end_each. intros [|[] workers|]; try (vm_compute; reflexivity).
    apply all_end_app; [apply call_ends|]. apply all_end_each. intros b. apply call_ends.
  - apply all_end_app; [apply call_ends|]. apply all_end_app; [done|].
    apply all_end_each. intros b. apply call_ends.
Qed.

Lemma job_ends j : endless_guards j = [] → all_end (job_ops j).
Proof.
  destruct j as [cs|n|n|rounds|]; intros Hj; try done.
  - apply all_end_each. intros [c|]; [apply caller_ends|done].
  - apply all_end_join, Forall_replicate. done.
  - apply all_end_app; [done|]. induction n as [|n IH]; [done|exact (IH eq_refl)].
Qed.

(** C13. The calls of the consumer router finish, or wait for a loop that never
    ends.  Any number of tasks call its methods under the guards the code
    takes, send through the topic router, learn topics and refresh dispatchers,
    and the main loop and the delay scheduler may run beside them, each keeping
    its guard for ever; what a task does between its lock operations returns.
    Then every run has a bounded number of steps, and where only the loops go
    on, each other task has finished, or it asks for the guard of the consumer
    router and one of the loops runs, or for that of the topic router and the
    scheduler runs.  So no two calls ever wait for each other, although
    [del_worker] takes the tables in another order than the other methods, and
    without the loops, as in the start-up, all calls finish. *)
Theorem router_calls_finish jobs :
  ∃ bound, ∀ m s, nsteps moves m (calls_sys jobs) s →
    (m ≤ bound)%nat ∧
    (quiet s → ∀ t j, jobs !! t = Some j → endless_guards j = [] →
      tasks s !! t = Some [] ∨
      ∃ n k ops, tasks s !! t = Some (Acquire n k :: ops) ∧
        ((n = CONSUMER_ROUTER ∧ pins jobs ≠ []) ∨ (n = TOPIC_ROUTER ∧ TOPIC_ROUTER ∈ pins jobs))).
Proof.
  set (ids := (map_to_list (tasks (calls_sys jobs))).*1).
  exists (left_over ids (calls_sys jobs)). intros m s Hn.
  destruct (orderly_run (pins jobs) (λ _, []) (calls_sys jobs) ids m s) as [Hm [holds Ho]].
  - apply calls_orderly.
  - intros t [ops Ht]. apply list_elem_of_fmap. exists (t, ops). split; [done|].
    by apply elem_of_map_to_list.
  - done.
  - split; [done|]. intros Hs t j Hj Hend.
    assert (is_Some (tasks s !! t)) as [ops Hops].
    { eapply same_ids; [exact Hn|]. simpl. rewrite lookup_fmap, Hj. by eexists. }
    destruct (run_rest _ _ _ _ _ Hn Hops) as (ops0 & Ht0 & pre & ->).
    simpl in Ht0. rewrite lookup_fmap, Hj in Ht0. injection Ht0 as Ht0.
    pose proof (job_ends j Hend) as He. rewrite Ht0 in He. unfold all_end in He.
    rewrite forallb_app in He. apply andb_true_iff in He as [_ He].
    destruct ops as [|op ops]; [by left|right]. simpl in He. apply andb_true_iff in He as [He _].
    destruct (quiet_waits _ _ _ _ _ _ Ho Hs Hops) as [(-> & _)|(n & k & -> & Ha)]; [done|].
    exists n, k, ops. split; [done|]. simpl in He. apply negb_true_iff, bool_decide_eq_false in He.
    destruct (awaited_pinned _ (pins_outer jobs) _ _ _ Ho Hs Ha) as [Hp|Hp]; [|by left].
    pose proof (pins_outer _ _ Hp) as [->|Hout].
    + left. split; [done|]. intros Hnil. rewrite Hnil in Hp. by apply not_elem_of_nil in Hp.
    + right. apply bool_decide_eq_true in Hout.
      apply elem_of_cons in Hout as [->| ->%list_elem_of_singleton]; [done|by split].
Qed.

Lemma router_calls_finish_witness :
  ∃ bound, ∀ m s, nsteps moves m (calls_sys {[
      0%nat := JCalls [Some (RegisterAll (host_role_setup false true));
                       Some (RegisterFn true [(true, true)]); None];
      1%nat := JCalls [Some (RemoveWorker true); Some (SetWorkerStatus Idle)];
      2%nat := JMainLoop [[Some (true, true); None; Some (false, false)]];
      3%nat := JRefresh 3 ]}) s →
    (m ≤ bound)%nat ∧
    (quiet s → ∀ k ops, tasks s !! 3%nat ≠ Some (Acquire LOCAL_INBOXES k :: ops)).
Proof.
  destruct (router_calls_finish {[
      0%nat := JCalls [Some (RegisterAll (host_role_setup false true));
                       Some (RegisterFn true [(true, true)]); None];
      1%nat := JCalls [Some (RemoveWorker true); Some (SetWorkerStatus Idle)];
      2%nat := JMainLoop [[Some (true, true); None; Some (false, false)]];
      3%nat := JRefresh 3 ]}) as [bound Hb].
  exists bound. intros m s Hn. destruct (Hb m s Hn) as [Hm Hq]. split; [exact Hm|].
  intros Hs k ops Ht.
  destruct (Hq Hs 3%nat (JRefresh 3) eq_refl eq_refl) as [H|(n & k' & ops' & H & [[-> _]|[-> _]])];
    rewrite Ht in H; discriminate H.
Defined.

(** ** Two calls that wait for each other *)

(** Both under read guards of the global router, as the public interface
    allows: [del_worker] takes [&self]. *)
Definition read_guarded_removal : list LOp :=
  within CONSUMER_ROUTER KRead (del_worker_ops true).

Definition two_calls : Sys :=
  {| tasks := {[0%nat := read_guarded_removal;
                1%nat := read_call_ops (CRegisterWorker true)]}; locks := ∅ |}.

(** [del_worker] has the index and waits for the topics, [register_worker]
    the other way round. *)
Definition deadlocked : Sys :=
  {| tasks := {[0%nat := Acquire LOCAL_TOPICS KWrite ::
                  [Work; Acquire DISPATCH_WORKERS KWrite; Work; Drop DISPATCH_WORKERS KWrite;
                   Drop LOCAL_TOPICS KWrite; Drop WORKER_INDEX KWrite; Drop CONSUMER_ROUTER KRead];
                1%nat := Acquire WORKER_INDEX KWrite ::
                  [Work; Acquire DISPATCH_WORKERS KWrite; Work; Drop DISPATCH_WORKERS KWrite;
                   Drop WORKER_INDEX KWrite; Drop LOCAL_TOPICS KWrite; Drop CONSUMER_ROUTER KRead]]};
     locks := {[CONSUMER_ROUTER := {| held := [(1%nat, KRead); (0%nat, KRead)]; waiting := [] |};
                WORKER_INDEX := {| held := [(0%nat, KWrite)]; waiting := [(1%nat, KWrite)] |};
                LOCAL_TOPICS := {| held := [(1%nat, KWrite)]; waiting := [(0%nat, KWrite)] |};
                LOCAL_INBOXES := free_lock]} |}.

Lemma deadlocked_tasks t ops :
  tasks deadlocked !! t = Some ops →
  ∃ n rest, ops = Acquire n KWrite :: rest ∧ waiting (lock_of n deadlocked) = [(t, KWrite)] ∧
    compatible KWrite (lock_of n deadlocked) = false.
Proof.
  simpl. destruct (decide (t = 0%nat)) as [->|H0]; [|destruct (decide (t = 1%nat)) as [->|H1]].
  - intros [= <-]. by eexists _, _.
  - intros [= <-]. by eexists _, _.
  - by rewrite lookup_insert_ne, lookup_singleton_ne by congruence.
Qed.

Lemma deadlocked_stuck : stuck deadlocked.
Proof.
  intros s' Hs. remember deadlocked as s eqn:E.
  destruct Hs as [s t n k ops Ht Hnw|s t n k ops ws Ht Hw Hc|s t n k ops l1 l2 Ht _|
    s t ops Ht|s t ops Ht]; subst s;
    destruct (deadlocked_tasks _ _ Ht) as (n' & rest & Hops & Hwait & Hcomp); simplify_eq.
  - rewrite Hwait in Hnw. apply Hnw. by left.
  - congruence.
Qed.

(** The state of a run so far, evaluated. *)
#[local] Ltac here :=
  match goal with |- rtc _ ?x _ => let y := eval vm_compute in x in change x with y end.
#[local] Ltac taken t := ask t; here; obtain t; here.

(** Without the write guard the order matters: when [del_worker] is called
    through a read guard, it and a [register_worker] (the last part of
    [create_worker]) reach a state in which each holds the table the other
    one waits for, and nothing can happen any more. *)
Theorem del_worker_deadlocks :
  reaches two_calls deadlocked ∧ stuck deadlocked ∧ ¬ finished deadlocked.
Proof.
  split; [|split].
  - taken 0%nat. taken 1%nat. taken 0%nat. work 0%nat. here. taken 0%nat. work 0%nat. here.
    eapply rtc_l; [eapply (StepDrop _ 0%nat _ _ _ []); vm_compute; reflexivity|]. here.
    taken 1%nat. ask 0%nat. here. ask 1%nat.
    match goal with |- rtc _ ?x _ => assert (x = deadlocked) as -> by (vm_compute; reflexivity) end.
    apply rtc_refl.
  - apply deadlocked_stuck.
  - intros Hf. specialize (Hf 0%nat _ eq_refl). done.
Qed.

Close Scope list_scope.
Close Scope string_scope.
